(* ===== verification/_CoqProject ===== *)
-Q . S2P
Prelude.v
Bytes.v
SmTypes.v
Pod.v
Endpoint.v
Workload.v
WorkloadInv.v
WorkloadSignals.v
EdgeMap.v
Timers.v
IpAlloc.v
Pressure.v
Protocol.v
Scheduler.v
Decimal.v
Convert.v
Codec.v
WorkerState.v
CoreTypes.v
Orchestrator.v
OrchestratorInv.v
OrchestratorNet.v
Specs.v
Adapters.v
RouterOps.v
Management.v
NamespaceCore.v
NamespaceInv.v
NamespaceRuns.v
NamespaceDemo.v
Checksum.v
Frame.v
Flow.v
Dns.v
Processor.v
EndpointTable.v
EndpointTableInv.v
Forwarding.v
ForwardingInv.v
FabricDemo.v
TcpActivator.v
Postgres.v
PostgresInv.v
Http2.v
Http2Inv.v
Memory.v
UntypedVec.v
UntypedVecInv.v
Selector.v
SelectorInv.v
Tunnel.v
TunnelInv.v
LogBus.v
LogBusInv.v
EntityRef.v
PodSupervisor.v
WorkerLoop.v
