(* ===== verification/Prelude.v ===== *)
(** * distvirt: a verification development of its orchestration and packet core

    distvirt runs containers in virtual machines on a set of workers.  A client applies
    a spec of workloads and services to a namespace; an orchestrator decides which pods
    exist and where they run, scales idle workloads to zero and back, and tells the
    workers; a worker runs the pods and connects them through a packet fabric.  This
    library models the orchestrator from its state machines up to the calls of its
    shell; the wire between orchestrator and workers; the main loop of a worker with its
    supervisors, packet fabric and tunnels; the activators that wake services; and the
    memory manager inside a guest.

    ** The program and its parts

    In [crates/orchestrator/src]:

    - [sm/] holds four state machines, one per pod, endpoint, service and workload.  A
      machine reacts to one input at a time: it changes its state, sets signals and
      edges and creates or destroys other machines.
    - [crates/sm-router] and its macros generate the router that owns the machines of
      a namespace and carries signals along edges to the inputs of other machines and
      to ports.
    - [adapter/] sits at the ports: an adapter turns what changed at its port into
      actions, using incremental aggregators, and may write to the router.
    - [core/namespace/] runs a namespace: every message is written to the router, then
      cycles of propagation and reconciliation follow until the router is quiet.  It
      keeps the addresses, the WireGuard peers, the timers and the books of pods on
      workers.
    - [core/orchestrator/] holds the scheduler, the worker state and the core that
      routes effects between them and the namespaces.
    - [log_bus.rs] and [event_bus.rs] keep recent output and events and fan them out.

    [crates/worker-protocol] turns commands and events into messages and frames.  In
    [crates/worker/src]: [worker/mod.rs] dispatches the commands, [worker/supervisor.rs]
    and [managed_vm.rs] watch the machine of a pod, [packet/] computes checksums and
    rewrites headers, [fabric/flow.rs] and [fabric/conntrack.rs] track connections,
    [fabric/endpoint/] says what happens to a packet by its destination,
    [fabric/forwarding.rs] and [fabric/mod.rs] move packets between ports, tunnels and the
    gateway, [fabric/tunnel.rs] and [worker/tunnel_manager.rs] carry them to other
    workers, [fabric/gateway/dns.rs] answers name queries.  Activators
    ([crates/activator], [activators/]) see the traffic of a service that has no backend
    yet: the TCP one counts flows, those for Postgres and HTTP/2 speak the protocol and
    hold the client until the backend is there.  [crates/guest-init/src/memory] gives
    memory of a guest back to its host.  [crates/untyped-vec] is the type-erased vector in
    which the router keeps its machines.  [crates/client-protocol/src/selector.rs] and
    [crates/cli/src/entity_ref.rs] parse what users type.

    ** Files

    - [Prelude] (this file): machine integers, durations, the action monad in which a
      machine writes to its context, [HashIter] (an arbitrary iteration order of a hash
      map) and [btree_iter] (the order of a B-tree map), tactics and hint databases.
    - [SmTypes]: the values machines exchange and their aggregators ([sm/mod.rs],
      [types/specs.rs], [worker-protocol/src/types.rs]).
    - [Pod], [Endpoint], [Workload]: the machines of [sm/pod.rs], [sm/endpoint.rs] with
      [sm/service.rs], and [sm/workload.rs].  State and context are records, each
      handler is a definition, [handle] dispatches as the source does.
    - [WorkloadInv]: a workload composed with the pod it owns, as a step relation.
      [WorkloadSignals]: what a workload has published.
    - [EdgeMap]: [sm-router/src/edge_map.rs].  [Timers]: [incremental_diff], the timer
      adapter and the timer wheel.
    - [IpAlloc]: [ip_alloc.rs] and [wg_peers.rs].  [Pressure]: [core/pressure.rs] on
      binary32 scores.
    - [Protocol]: commands, events and specs of [worker-protocol/src/types.rs].
    - [Scheduler], [WorkerState]: [core/orchestrator/scheduler/] and
      [core/orchestrator/worker_state.rs].
    - [CoreTypes]: the messages of [core/mod.rs] and [core/types.rs], the
      classification of [core/worker_event.rs] and [id_registry.rs].
    - [Orchestrator]: [core/orchestrator/mod.rs].  [OrchestratorInv] has the invariants
      of leases and workers over all the calls of a shell, [OrchestratorNet] those of
      namespaces and their network segments.
    - [Specs]: [types/specs.rs].  [Adapters], [Management]: the modules of [adapter/].
    - [RouterOps]: the operations a namespace uses of its router, as a class.
    - [NamespaceCore]: [core/namespace/inner.rs] and [core/namespace/mod.rs], over any
      router.  [NamespaceInv] has the invariants of its books, addresses and reports,
      [NamespaceRuns] the delivery of launches, its panics and the termination of its
      loops, [NamespaceDemo] a small router on which the theorems are applied.
    - [Bytes], [Decimal]: bytes, UTF-8 and numbers in text.  [Convert]:
      [worker-protocol/src/convert.rs] with the messages of the schema.  [Codec]:
      [codec.rs], over the class [Message] of the protobuf library.
    - [LogBus]: both buses, with the bounded channels of the runtime; [LogBusInv] has
      what their subscribers get.
    - [Checksum], [Frame]: [packet/checksum.rs], [packet/frame.rs].  [Flow]: the flow
      tracker and the connection tracker.  [Dns]: the resolver of the gateway.
    - [Processor]: [fabric/endpoint/service_processor.rs] with the host side of an
      activator; its class [ProcessorOps] is what the endpoint table uses.
      [EndpointTable]: the other modules of [fabric/endpoint/]; [EndpointTableInv] has
      its invariants over all operations.  [Forwarding]: [fabric/forwarding.rs],
      [fabric/mod.rs] and the endpoint commands of [worker/namespace.rs];
      [ForwardingInv] has its properties, [FabricDemo] a concrete fabric.
    - [Tunnel]: [fabric/tunnel.rs] and [worker/tunnel_manager.rs], over the class [Noise]
      of the encryption library; [TunnelInv] has its properties.
    - [PodSupervisor]: [worker/supervisor.rs] with what it uses of [managed_vm.rs].
      [WorkerLoop]: [worker/mod.rs], over the class [NamespaceOps] of the network side.
    - [TcpActivator]; [Postgres] and [PostgresInv]; [Http2] and [Http2Inv]: the cores of
      [activators/tcp], [activators/postgres] and [activators/http2], with their
      properties.
    - [Memory]: [guest-init/src/memory/].
    - [UntypedVec]: [untyped-vec/src/lib.rs] over an explicit heap with undefined
      behaviour as an outcome; [UntypedVecInv] shows that there is none.
    - [Selector], [SelectorInv]: [client-protocol/src/selector.rs].  [EntityRef]:
      [cli/src/entity_ref.rs].

    ** What the theorems show

    - A workload suspends only a live pod it no longer wants, retries a bounded number
      of times, and knows its pod; pods follow an abstract lifecycle and are reaped when
      abandoned; an idle endpoint gives up its demand and traffic restores it; what
      machines publish is what their state says.
    - Timers: the diff at the timer port arms and cancels exactly what changed, firing
      returns exactly what is due.
    - Orchestrator, of every state its shell can reach: every call returns; what
      namespaces were told is what is granted; the pod count of a worker is the number
      of its leases; no request waits while a worker could take it; live namespaces have
      distinct segments and every worker knows them.
    - Namespace, of every state its messages can reach, over any router that meets the
      stated laws: the two books of pods on workers agree; launches reach a worker once
      and in order; a grant and the worker it names may arrive in either order; the
      report names the resources of the spec; its addresses are distinct; the panics are
      exactly the listed ones; a cycle ends when the router settles and advancing the
      clock ends after two rounds.
    - Adapters: the caches from which a joining worker is synchronised hold what was
      published; the registry of the workers agrees with the one of the namespace.
    - Wire: a session carries every message unchanged in both directions, whatever the
      sizes of the reads, and a log stream that is cut gives a prefix of its frames.
    - Buses: who follows a workload gets the output of its pods, present and future, in
      order and once, and all of it while there is room; events come without a gap.
    - Worker: a supervisor sends one last event for its pod, after which the pod is
      terminal at the orchestrator; its telemetry adds up although it sees only some of
      the states; no supervisor is left without an owner; the tunnels serve the segments
      of the namespaces; two workers complete the handshake and frames cross unchanged.
    - Packets: rewriting an address keeps checksums valid, completing an offloaded
      checksum is sound; queries are parsed exactly and answered.
    - Fabric: the endpoint table stays consistent over all operations, keeps the packets
      of a starting pod, asks for activation at most once per second and reports demand
      exactly; a packet leaves only through the port that serves its destination; a
      connection to a service sees the service's address in both directions.
    - Activators: the Postgres one is transparent, the HTTP/2 one relays the frames of
      each stream in order, and both ask for a backend exactly while they need one.
    - Guest memory: the limits leave the kernel its reserve and memory is only given
      back when it has not been needed for a while.
    - Type-erased vector: every sequence of operations behaves as on lists, without
      undefined behaviour.  Selectors and entity references: parsing what is printed
      gives it back, and what resolves is accepted.

    Examples at the ends of the files run the definitions on behaviour that is worth
    knowing: a retransmitted FIN revives a closed flow, a stop can overtake a buffered
    launch, a refused spec frees addresses, a destroyed namespace keeps its leases, a pod
    that is placed on another worker loses its buffered packets, a segment that two peers
    share goes deaf when one of them leaves, a worker whose event channel is full stops.

    ** Conventions

    - Integers are [Z] with the wrap-around of a release build written out.
    - [expect], [unwrap] and [panic!] are [None], or [Panicked] where a function also
      takes fuel.  Errors are values of a sum type.
    - An operation on a shared object returns the new object.
    - Hash maps are [gmap]s visited in an arbitrary order: theorems quantify over it.
    - Time is a [Duration] argument, in nanoseconds.
    - Asynchronous code is a step per future that completes; the order of the steps is
      an input.

    Fuel.  The folding loop of the checksums runs two rounds, which is proved to be
    enough.  The loops of the resolver take the length of the packet and are proved
    total.  The routing of the orchestrator nests three levels deep
    ([orchestrator_calls_return]); the search for a segment takes 65536 steps, one for
    each [u16], and fails only if all are taken.  A cycle of a namespace takes as many
    rounds as its router needs to settle ([cycle_terminates]); advancing the clock takes
    two ([advance_terminates]).  Dispatching a packet nests two levels deep
    ([dispatch_returns]).  The loops over frames and messages of the activators and of the
    log reader take the length of the buffer, since every round consumes a byte; the scan
    of the Postgres activator for a message of length zero does not end in the source
    either and gives [None].  The loops of the selector parser take the length of the text
    ([parse_runs]).

    ** Not modelled

    The generated router itself ([sm-router-macros]) is a parameter of the namespace:
    [RouterOps] lists the operations, and the laws a theorem relies on are hypotheses
    that [NamespaceDemo] discharges for a concrete router; its tracing and model checker
    are test support.  The shells, gRPC and the multiplexed connections
    ([worker-protocol/src/connection.rs]) are event loops over sockets.  The WireGuard
    adapter and the stream manager are thin layers over boringtun and smoltcp, the
    virtual machine monitors, images and the rest of the guest over processes, mounts and
    devices; setting up a pod is their composition.  The handshake of a worker and its
    periodic reports, the client library and the other commands of the CLI are not
    covered. *)

From stdpp Require Export base tactics numbers list list_numbers gmap strings
  sorting relations option fin_maps.
From Stdlib Require Export ZArith Lia.

#[global] Open Scope Z_scope.

(** ** Machine integers

    Rust integers are kept as [Z] together with the wrap-around of their width.
    [u32]/[u64] counters that the source bumps with [+= 1] are wrapped exactly
    as a release build does. *)
Definition wrap (w z : Z) : Z := z mod 2 ^ w.
Definition u16_max : Z := 65535.
Definition u32_max : Z := 4294967295.
Definition u32_add (a b : Z) : Z := wrap 32 (a + b).
Definition u64_add (a b : Z) : Z := wrap 64 (a + b).
Definition saturating_sub (a b : Z) : Z := Z.max 0 (a - b).
Definition checked_sub (a b : Z) : option Z :=
  if decide (b ≤ a) then Some (a - b) else None.

(** [as i32] and wrapping [i32] addition *)
Definition as_i32 (z : Z) : Z := let u := wrap 32 z in if u <? 2 ^ 31 then u else u - 2 ^ 32.
Definition i32_add (a b : Z) : Z := as_i32 (a + b).

#[global] Arguments wrap : simpl never.
#[global] Arguments u32_add : simpl never.
#[global] Arguments u64_add : simpl never.

(** [std::time::Duration] as a number of nanoseconds. *)
Definition from_nanos (n : Z) : Z := n.
Definition from_millis (n : Z) : Z := n * 1000000.
Definition from_secs (n : Z) : Z := n * 1000000000.

(** ** Handlers as state transformers

    A handler of the source has the shape [fn f(&mut self, ctx: &mut Ctx)]; it is
    modelled by a function on the pair of the machine and its context.  [upd]
    writes the machine, [emit] the context, [reading] reads the machine at that
    point of the sequence, [f ⨾ g] runs [f] and then [g]. *)
Declare Scope act_scope.
Delimit Scope act_scope with act.

Section Actions.
Context {S C : Type}.
Definition act : Type := S * C → S * C.
Definition skip : act := λ w, w.
Definition seq_act (f g : act) : act := λ w, g (f w).
Definition upd (f : S → S) : act := λ w, (f w.1, w.2).
Definition emit (f : C → C) : act := λ w, (w.1, f w.2).
Definition reading (k : S → act) : act := λ w, k w.1 w.
Definition when (b : S → bool) (f : act) : act := λ w, if b w.1 then f w else w.
End Actions.
Arguments act : clear implicits.
Notation "f ⨾ g" := (seq_act f g)
  (at level 85, right associativity) : act_scope.
#[global] Open Scope act_scope.

(** The trait [SmHandler<C>] of the signal router: a one-off [initialize] hook
    and a [handle] that consumes one input. *)
Class SmHandler (Sm Cx Inp : Type) := {
  sm_initialize : act Sm Cx;
  sm_handle : Inp → act Sm Cx;
}.

Section Runs.
Context `{SmHandler Sm Cx Inp}.
(** Delivering a finite sequence of inputs.  The context is not reset between
    deliveries, so a signal field holds the value published last. *)
Definition deliver (l : list Inp) (w : Sm * Cx) : Sm * Cx :=
  foldl (λ w i, sm_handle i w) w l.

Lemma deliver_cons i l w : deliver (i :: l) w = deliver l (sm_handle i w).
Proof. done. Qed.

Lemma deliver_app l1 l2 w : deliver (l1 ++ l2) w = deliver l2 (deliver l1 w).
Proof. unfold deliver. apply foldl_app. Qed.

(** Invariants that every delivery preserves hold along every run. *)
Lemma deliver_invariant (P : Sm * Cx → Prop) :
  (∀ i w, P w → P (sm_handle i w)) → ∀ l w, P w → P (deliver l w).
Proof. intros Hp l. induction l as [|i l IH]; intros w Hw; [done|]. apply IH, Hp, Hw. Qed.
End Runs.

(** ** Hoare triples for handlers *)
Section Triples.
Context {S C : Type}.
Implicit Types (P Q R : S * C → Prop) (f g : act S C).

Definition triple P f Q : Prop := ∀ w, P w → Q (f w).

Lemma triple_seq P Q R f g : triple P f Q → triple Q g R → triple P (f ⨾ g) R.
Proof. intros Hf Hg w Hw. apply Hg, Hf, Hw. Qed.

Lemma triple_run P Q f g w : triple P (f ⨾ g) Q → P w → Q (g (f w)).
Proof. intros H. apply H. Qed.

Lemma triple_seq_assoc P Q f g h : triple P ((f ⨾ g) ⨾ h) Q → triple P (f ⨾ g ⨾ h) Q.
Proof. done. Qed.

Lemma triple_pure P Q f (φ : Prop) :
  (∀ w, P w → φ) → (φ → triple P f Q) → triple P f Q.
Proof. intros Hφ Hf w Hw. exact (Hf (Hφ w Hw) w Hw). Qed.

Lemma triple_skip P : triple P skip P.
Proof. by intros w. Qed.

Lemma triple_when P Q b f :
  triple (λ w, P w ∧ b w.1 = true) f Q → (∀ w, P w → b w.1 = false → Q w) →
  triple P (when b f) Q.
Proof. intros Hf Hn w Hw. unfold when. destruct (b w.1) eqn:E; [by apply Hf|by apply Hn]. Qed.

Lemma triple_reading P Q k :
  (∀ s, triple (λ w, P w ∧ w.1 = s) (k s) Q) → triple P (reading k) Q.
Proof. intros Hk w Hw. by apply Hk. Qed.

Lemma triple_weaken P P' Q f : triple P' f Q → (∀ w, P w → P' w) → triple P f Q.
Proof. intros Hf HP w Hw. by apply Hf, HP. Qed.

Lemma triple_keep_when P b f : triple P f P → triple P (when b f) P.
Proof. intros Hf. apply triple_when; [|done]. by intros w [Hw _]; apply Hf. Qed.
End Triples.

(** ** Reachability *)
Lemma rtc_invariant {A} (R : relation A) (P : A → Prop) :
  (∀ x y, P x → R x y → P y) → ∀ x y, rtc R x y → P x → P y.
Proof. intros Hstep x y. induction 1; eauto. Qed.

(** ** HashMap iteration

    A [HashMap] visits each entry once in an order its documentation leaves
    unspecified.  Code whose result can depend on that order is modelled over an
    arbitrary iteration function with exactly that law. *)
Class HashIter (K : Type) `{Countable K} := {
  hash_iter : ∀ {V : Type}, gmap K V → list (K * V);
  hash_iter_perm : ∀ {V : Type} (m : gmap K V), hash_iter m ≡ₚ map_to_list m;
}.

#[global] Instance hash_iter_canonical `{Countable K} : HashIter K | 100 := {|
  hash_iter := λ V m, map_to_list m;
  hash_iter_perm := λ V m, Permutation_refl _;
|}.

Lemma elem_of_hash_iter `{HashIter K} {V} (m : gmap K V) k v :
  (k, v) ∈ hash_iter m ↔ m !! k = Some v.
Proof. rewrite hash_iter_perm. apply elem_of_map_to_list. Qed.

Lemma NoDup_fst_hash_iter `{HashIter K} {V} (m : gmap K V) :
  NoDup (hash_iter m).*1.
Proof. rewrite hash_iter_perm. apply NoDup_fst_map_to_list. Qed.

(** A [BTreeMap] with integer keys is visited in key order. *)
Definition key_le {V} (p q : Z * V) : Prop := p.1 ≤ q.1.
#[global] Instance key_le_dec {V} : RelDecision (@key_le V).
Proof. intros p q. unfold key_le. apply _. Defined.
Definition btree_iter {V} (m : gmap Z V) : list (Z * V) :=
  merge_sort key_le (map_to_list m).

Lemma btree_iter_perm {V} (m : gmap Z V) : btree_iter m ≡ₚ map_to_list m.
Proof. apply merge_sort_Permutation. Qed.

Lemma elem_of_btree_iter {V} (m : gmap Z V) k v :
  (k, v) ∈ btree_iter m ↔ m !! k = Some v.
Proof. rewrite btree_iter_perm. apply elem_of_map_to_list. Qed.

Lemma NoDup_btree_iter {V} (m : gmap Z V) : NoDup (btree_iter m).*1.
Proof. rewrite btree_iter_perm. apply NoDup_fst_map_to_list. Qed.

(** [iter.collect::<HashMap<_, _>>()]: a later pair overwrites an earlier one. *)
Definition collect_map `{Countable K} {V} (l : list (K * V)) : gmap K V :=
  foldl (λ m p, <[p.1 := p.2]> m) ∅ l.

Lemma lookup_foldl_delete `{Countable K} {A B} (f : A → K) (l : list A) (m : gmap K B) i :
  foldl (λ m e, delete (f e) m) m l !! i = if decide (i ∈ f <$> l) then None else m !! i.
Proof.
  revert m. induction l as [|a l IH]; intros m; cbn [foldl].
  { case_decide; [set_solver|done]. }
  rewrite IH. destruct (decide (f a = i)) as [<-|].
  - rewrite lookup_delete_eq. repeat case_decide; try done; set_solver.
  - rewrite lookup_delete_ne by done. repeat case_decide; set_solver.
Qed.

(** ** Shared list, option and integer facts *)
Create HintDb dv.

Abbreviation zlen l := (Z.of_nat (length l)).

Definition is_some {A} (o : option A) : bool :=
  match o with Some _ => true | None => false end.
Definition is_none {A} (o : option A) : bool := negb (is_some o).

Lemma is_some_true {A} (o : option A) : is_some o = true ↔ is_Some o.
Proof. destruct o; simpl; split; [eauto|done|done|by intros []]. Qed.

Lemma is_some_false {A} (o : option A) : is_some o = false ↔ o = None.
Proof. by destruct o. Qed.

(** [Iterator::find_map] *)
Fixpoint find_map {A B} (f : A → option B) (l : list A) : option B :=
  match l with
  | [] => None
  | x :: l => match f x with Some y => Some y | None => find_map f l end
  end.

Lemma find_map_Some {A B} (f : A → option B) l y :
  find_map f l = Some y → ∃ x, x ∈ l ∧ f x = Some y.
Proof.
  induction l as [|x l IH]; simpl; [done|]. destruct (f x) eqn:E.
  - intros [= <-]. exists x. set_solver.
  - intros (x' & ? & ?)%IH. exists x'. set_solver.
Qed.

Lemma find_map_None {A B} (f : A → option B) l :
  find_map f l = None ↔ ∀ x, x ∈ l → f x = None.
Proof.
  induction l as [|x l IH]; simpl; [set_solver|]. destruct (f x) eqn:E.
  - split; [done|]. intros H. specialize (H x). set_solver.
  - rewrite IH. set_solver.
Qed.

Lemma take_app_take {A} n (l k : list A) : take n (take n l ++ k) = take n (l ++ k).
Proof.
  destruct (decide (length l ≤ n)%nat); [by rewrite (take_ge l)|].
  rewrite !take_app_le by (rewrite ?length_take; lia). by rewrite take_take, Nat.min_id.
Qed.

Lemma existsb_elem {A} (f : A → bool) l :
  existsb f l = true ↔ ∃ x, x ∈ l ∧ f x = true.
Proof. rewrite existsb_exists. by setoid_rewrite list_elem_of_In. Qed.

Lemma wrap_range w z : 0 ≤ w → 0 ≤ wrap w z < 2 ^ w.
Proof. intros. apply Z.mod_pos_bound. lia. Qed.

Lemma wrap_small w z : 0 ≤ z < 2 ^ w → wrap w z = z.
Proof. apply Z.mod_small. Qed.

Lemma u32_add_small a b : 0 ≤ a + b ≤ u32_max → u32_add a b = a + b.
Proof. unfold u32_max, u32_add. intros. apply wrap_small. lia. Qed.

#[global] Hint Resolve wrap_range : dv.

(** ** Tactics *)

(** Open up a handler: unfold the combinators, nothing else. *)
Ltac unfold_act :=
  cbv beta iota zeta delta
    [skip seq_act upd emit reading when sm_handle sm_initialize fst snd negb andb orb].

(** Case analysis on the conditionals of the goal, innermost first; [k] computes
    the projections that each choice exposes. *)
Ltac split_ifs k :=
  repeat (match goal with
          | |- context [if ?b then _ else _] =>
              lazymatch b with
              | context [if _ then _ else _] => fail
              | _ => destruct b eqn:?
              end
          end; k; try congruence).
