(* ===== verification/Bytes.v ===== *)
(** * Bytes and strings of the standard library

    A [String] is the list of its UTF-8 bytes.  The file models what the sources use of
    [str] and of the conversions of integers to bytes. *)

From S2P Require Import Prelude.

Module Bytes.

(** ** Strings *)
Definition continuation (b : Z) : bool := (128 <=? b) && (b <=? 191).
Definition between (lo b hi : Z) : bool := (lo <=? b) && (b <=? hi).

(** [str::from_utf8(..).is_ok()] *)
Fixpoint from_utf8_ok (l : list Z) : bool :=
  match l with
  | [] => true
  | b0 :: l =>
      if b0 <? 128 then from_utf8_ok l
      else match l with
           | [] => false
           | b1 :: l =>
               if between 194 b0 223 then continuation b1 && from_utf8_ok l
               else match l with
                    | [] => false
                    | b2 :: l =>
                        if between 224 b0 239 then
                          (if b0 =? 224 then between 160 b1 191
                           else if b0 =? 237 then between 128 b1 159 else continuation b1)
                          && continuation b2 && from_utf8_ok l
                        else match l with
                             | [] => false
                             | b3 :: l =>
                                 between 240 b0 244 &&
                                 (if b0 =? 240 then between 144 b1 191
                                  else if b0 =? 244 then between 128 b1 143 else continuation b1)
                                 && continuation b2 && continuation b3 && from_utf8_ok l
                             end
                    end
           end
  end.

Definition lower (b : Z) : Z := if between 65 b 90 then b + 32 else b.
Definition to_ascii_lowercase (l : list Z) : list Z := lower <$> l.

(** [str::strip_suffix] *)
Definition strip_suffix (s suffix : list Z) : option (list Z) :=
  let n := (length s - length suffix)%nat in
  if decide (length suffix ≤ length s ∧ drop n s = suffix)%nat then Some (take n s) else None.
(** [str::strip_prefix] *)
Definition strip_prefix (s prefix : list Z) : option (list Z) :=
  if decide (take (length prefix) s = prefix) then Some (drop (length prefix) s) else None.
(** [str::eq_ignore_ascii_case] *)
Definition eq_ignore_ascii_case (a b : list Z) : bool :=
  bool_decide (to_ascii_lowercase a = to_ascii_lowercase b).

(** The encodings of the characters with the property [White_Space] *)
Definition white_space : list (list Z) :=
  [[9]; [10]; [11]; [12]; [13]; [32]; [194; 133]; [194; 160]; [225; 154; 128]; [226; 128; 168];
   [226; 128; 169]; [226; 128; 175]; [226; 129; 159]; [227; 128; 128]] ++
  ((λ b, [226; 128; 128 + Z.of_nat b]) <$> seq 0 11).
(** [str::trim]: white space is stripped at both ends; in UTF-8 no encoding of a
    character ends inside another, so that the end can be read backwards. *)
Fixpoint strip_all (fuel : nat) (space : list (list Z)) (l : list Z) : list Z :=
  match fuel with
  | O => l
  | S fuel =>
      match find_map (strip_prefix l) space with
      | Some l' => strip_all fuel space l'
      | None => l
      end
  end.
Definition trim_start (l : list Z) : list Z := strip_all (length l) white_space l.
Definition trim_end (l : list Z) : list Z :=
  reverse (strip_all (length l) (reverse <$> white_space) (reverse l)).
Definition trim (l : list Z) : list Z := trim_end (trim_start l).
(** [str::trim_end_matches] of one ASCII character *)
Fixpoint skip_byte (b : Z) (l : list Z) : list Z :=
  match l with x :: l' => if x =? b then skip_byte b l' else l | [] => [] end.
Definition trim_end_matches (b : Z) (l : list Z) : list Z := reverse (skip_byte b (reverse l)).

(** ** Big-endian integers *)
Definition be32 (a b c d : Z) : Z := a * 2 ^ 24 + b * 2 ^ 16 + c * 2 ^ 8 + d.
Definition u32_at (l : list Z) (off : nat) : Z :=
  be32 (l !!! off) (l !!! (off + 1)%nat) (l !!! (off + 2)%nat) (l !!! (off + 3)%nat).
Definition to_be16 (v : Z) : list Z := [wrap 8 (Z.shiftr v 8); wrap 8 v].
Definition to_be32 (v : Z) : list Z :=
  [wrap 8 (Z.shiftr v 24); wrap 8 (Z.shiftr v 16); wrap 8 (Z.shiftr v 8); wrap 8 v].

Lemma be32_to_be32 v :
  0 ≤ v < 2 ^ 32 →
  be32 (wrap 8 (Z.shiftr v 24)) (wrap 8 (Z.shiftr v 16)) (wrap 8 (Z.shiftr v 8)) (wrap 8 v) = v.
Proof.
  intros Hv. unfold be32, wrap. rewrite !Z.shiftr_div_pow2 by lia.
  change (2 ^ 8) with 256. change (2 ^ 16) with (256 * 256). change (2 ^ 24) with (256 * 256 * 256).
  rewrite <- !Z.div_div by lia.
  pose proof (Z.div_mod v 256). pose proof (Z.div_mod (v / 256) 256).
  pose proof (Z.div_mod (v / 256 / 256) 256).
  rewrite (Z.mod_small (v / 256 / 256 / 256)); [lia|].
  split; [apply Z.div_pos; [apply Z.div_pos; [apply Z.div_pos|]|]; lia|].
  rewrite !Z.div_div by lia. apply Z.div_lt_upper_bound; lia.
Qed.

Lemma u32_at_app l v r : 0 ≤ v < 2 ^ 32 → u32_at (l ++ to_be32 v ++ r) (length l) = v.
Proof.
  intros Hv. unfold u32_at. rewrite !list_lookup_total_alt. rewrite !(lookup_app_r l) by lia.
  replace (length l - length l)%nat with 0%nat by lia.
  replace (length l + 1 - length l)%nat with 1%nat by lia.
  replace (length l + 2 - length l)%nat with 2%nat by lia.
  replace (length l + 3 - length l)%nat with 3%nat by lia. simpl. by apply be32_to_be32.
Qed.

Example trims : trim [32; 194; 160; 83; 32; 49; 226; 128; 131; 10] = [83; 32; 49].
Proof. by vm_compute. Qed.
End Bytes.
