(* ===== verification/SmTypes.v ===== *)
(** * Data of the orchestrator's signal graph

    The value types of [crates/orchestrator/src/sm/mod.rs] with the protocol
    types they embed ([crates/worker-protocol/src/types.rs],
    [crates/orchestrator/src/types/specs.rs]), and the batch aggregators that
    reduce the signals on the edges of a node to one input.  Identifiers are the
    [u64] under the source's newtypes; an [Ipv4Addr] is its [u32]; a [Duration]
    is a number of nanoseconds. *)

From S2P Require Import Prelude.

(** ** Identifiers *)
Abbreviation WorkerId := Z (only parsing).
Abbreviation PodId := Z (only parsing).
Abbreviation ServiceId := Z (only parsing).
Abbreviation WorkloadId := Z (only parsing).
Abbreviation EndpointId := Z (only parsing).
Abbreviation ArtifactPortId := Z (only parsing).
Abbreviation ManagementId := Z (only parsing).
Abbreviation EndpointDemandId := Z (only parsing).
Abbreviation ScheduleLeaseId := Z (only parsing).
Abbreviation Ipv4Addr := Z (only parsing).
Abbreviation Duration := Z (only parsing).
Definition UNSPECIFIED : Ipv4Addr := 0.

(** The singleton ports. *)
Definition SCHEDULE_REQUEST : Z := 0.
Definition FABRIC_ENDPOINT : Z := 0.
Definition TIMER : Z := 0.
Definition DNS_REGISTRY : Z := 0.
Definition OBSERVABILITY : Z := 0.

(** ** Protocol types carried by specs *)
Record PodNetworkConfig := {
  pnc_ip : Ipv4Addr; pnc_mac : list Z; pnc_gateway : Ipv4Addr; pnc_netmask : string }.
Record VolumeMountSpec := { vms_name : string; vms_mount_path : string }.
Record ContainerConfig := {
  cc_command : option (list string); cc_args : option (list string);
  cc_env : list string; cc_working_dir : option string; cc_user : option string;
  cc_hostname : option string; cc_capture_output : bool; cc_stdin : bool;
  cc_volume_mounts : list VolumeMountSpec }.
Record ContainerSpec := {
  cs_container_id : string; cs_image_ref : string; cs_config : ContainerConfig }.
Record ConfigDataFile := { cdf_path : string; cdf_content : string; cdf_mode : Z }.
Inductive VolumeType :=
  | EmptyDir (size_mb : Z)
  | ConfigData (files : list ConfigDataFile).
Record VolumeSpec := { vs_name : string; vs_volume_type : VolumeType }.
Record ResourceValues := { rv_memory_mib : Z; rv_vcpus : Z }.
Record ResourceRequirements := {
  rr_requests : option ResourceValues; rr_limits : option ResourceValues }.
Inductive ActivatorConfig := ActTcp (max_flows : Z) | ActHttp2.
Record PortConfig := {
  pc_port : Z; pc_target_port : Z; pc_activator : option ActivatorConfig }.
Record ServicePolicy := {
  sp_ports : list PortConfig; sp_buffer_frames : Z; sp_timeout_ms : Z }.

#[global] Instance PodNetworkConfig_eq : EqDecision PodNetworkConfig.
Proof. solve_decision. Defined.
#[global] Instance VolumeMountSpec_eq : EqDecision VolumeMountSpec.
Proof. solve_decision. Defined.
#[global] Instance ContainerConfig_eq : EqDecision ContainerConfig.
Proof. solve_decision. Defined.
#[global] Instance ContainerSpec_eq : EqDecision ContainerSpec.
Proof. solve_decision. Defined.
#[global] Instance ConfigDataFile_eq : EqDecision ConfigDataFile.
Proof. solve_decision. Defined.
#[global] Instance VolumeType_eq : EqDecision VolumeType.
Proof. solve_decision. Defined.
#[global] Instance VolumeSpec_eq : EqDecision VolumeSpec.
Proof. solve_decision. Defined.
#[global] Instance ResourceValues_eq : EqDecision ResourceValues.
Proof. solve_decision. Defined.
#[global] Instance ResourceRequirements_eq : EqDecision ResourceRequirements.
Proof. solve_decision. Defined.
#[global] Instance ActivatorConfig_eq : EqDecision ActivatorConfig.
Proof. solve_decision. Defined.
#[global] Instance PortConfig_eq : EqDecision PortConfig.
Proof. solve_decision. Defined.
#[global] Instance ServicePolicy_eq : EqDecision ServicePolicy.
Proof. solve_decision. Defined.

(** ** Specs *)
Inductive RunPolicy := RunService | RunJob.
Record ActivationSpec := { as_idle_timeout : Duration }.
Record PodSpec := {
  ps_image : string; ps_network : option PodNetworkConfig;
  ps_containers : list ContainerSpec; ps_resources : option ResourceRequirements;
  ps_volumes : list VolumeSpec }.
Record WorkloadConfig := {
  wc_suspend_on_idle : bool; wc_run_policy : RunPolicy;
  wc_respects_demand : bool; wc_activation : option ActivationSpec }.
Record WorkloadSpec := { ws_pod_spec : PodSpec; ws_config : WorkloadConfig }.
Record ServiceSpec := {
  ss_workload : WorkloadId; ss_has_activation : bool; ss_idle_timeout : Duration;
  ss_dns_name : option string; ss_dns_ip : option Ipv4Addr; ss_ip : Ipv4Addr;
  ss_policy : ServicePolicy }.

#[global] Instance RunPolicy_eq : EqDecision RunPolicy.
Proof. solve_decision. Defined.
#[global] Instance ActivationSpec_eq : EqDecision ActivationSpec.
Proof. solve_decision. Defined.
#[global] Instance PodSpec_eq : EqDecision PodSpec.
Proof. solve_decision. Defined.
#[global] Instance WorkloadConfig_eq : EqDecision WorkloadConfig.
Proof. solve_decision. Defined.
#[global] Instance WorkloadSpec_eq : EqDecision WorkloadSpec.
Proof. solve_decision. Defined.

(** ** Signal values *)
Record ReadyInfo := {
  ri_pod_id : PodId; ri_worker_id : WorkerId; ri_pod_ip : Ipv4Addr }.

Inductive PodStatus :=
  | Pending
  | Running
  | Suspending
  | Suspended (artifact_id : ArtifactPortId)
  | Finished (exit_code : Z)
  | PodFailed (exit_code : option Z) (reason : string)
  | Displaced.

Definition is_terminal (s : PodStatus) : bool :=
  match s with
  | Suspended _ | PodFailed _ _ | Finished _ | Displaced => true
  | _ => false
  end.

(** The [matches!] tests of the handlers. *)
Definition is_pending (s : PodStatus) : bool :=
  match s with Pending => true | _ => false end.
Definition is_running (s : PodStatus) : bool :=
  match s with Running => true | _ => false end.
Definition is_suspending (s : PodStatus) : bool :=
  match s with Suspending => true | _ => false end.

Inductive PodIntent := IntentNone | IntentWant | IntentSuspend.

Definition is_suspend_intent (i : PodIntent) : bool :=
  match i with IntentSuspend => true | _ => false end.

Record DnsEntryInfo := { dns_name : string; dns_ip : Ipv4Addr }.
Record EndpointBackendInfo := { eb_ip : option Ipv4Addr; eb_worker_id : WorkerId }.
Record PodScheduleRequest := {
  psr_resume_artifact : option ArtifactPortId; psr_suspend : bool;
  psr_spec : option WorkloadSpec }.
Record LeaseInfo := { li_worker_id : WorkerId }.
Record WorkerInfo := { wi_capacity : Z; wi_default_pool : option string }.
Inductive AdminCmd := Restart | Scavenge.

Inductive WlStatus :=
  | WlDormant | WlWaitingForSpec | WlLaunching | WlRunning | WlSuspending
  | WlSuspended | WlRetryBackoff
  | WlFailed (exit_code : option Z) (reason : string)
  | WlCompleted (exit_code : Z).

Inductive WorkloadTimerKey := RetryBackoff | ArtifactConfirm.
Inductive BackendNeed := NeedNone | NeedTraffic | NeedActive.
Inductive PodTimerKey := LaunchTimeout | SuspendTimeout.
Inductive EndpointTimerKey := IdleTimeout.
Record PodTimerRequest := {
  ptr_key : PodTimerKey; ptr_generation : Z; ptr_duration : Duration }.
Record TimerRequest := {
  tr_key : WorkloadTimerKey; tr_generation : Z; tr_duration : Duration }.

#[global] Instance PodStatus_eq : EqDecision PodStatus.
Proof. solve_decision. Defined.
#[global] Instance PodIntent_eq : EqDecision PodIntent.
Proof. solve_decision. Defined.
#[global] Instance WorkloadTimerKey_eq : EqDecision WorkloadTimerKey.
Proof. solve_decision. Defined.
#[global] Instance PodTimerKey_eq : EqDecision PodTimerKey.
Proof. solve_decision. Defined.
#[global] Instance EndpointTimerKey_eq : EqDecision EndpointTimerKey.
Proof. solve_decision. Defined.

(** Comparisons of whole specs are decided as one step in proofs. *)
#[global] Opaque PodSpec_eq WorkloadSpec_eq WorkloadConfig_eq ServicePolicy_eq.

(** ** Batch aggregators *)
Module Aggregators.

Record DemandInfo := { demand_count : Z; endpoint_ids : list EndpointId }.

(** [DemandAggregator]: the loop of the source, accumulating the [u32] counter
    and the endpoint ids in delivery order. *)
Definition demand_step (acc : DemandInfo) (i : EndpointId * bool) : DemandInfo :=
  {| demand_count := if i.2 then u32_add (demand_count acc) 1 else demand_count acc;
     endpoint_ids := endpoint_ids acc ++ [i.1] |}.
Definition aggregate_demand (inputs : list (EndpointId * bool)) : DemandInfo :=
  foldl demand_step {| demand_count := 0; endpoint_ids := [] |} inputs.

(** The aggregators that expect at most one source take the first input. *)
Definition aggregate_spec (inputs : list (ManagementId * WorkloadSpec)) :
    option (ManagementId * WorkloadSpec) := head inputs.
Definition aggregate_owner (inputs : list (WorkloadId * PodIntent)) :
    option (WorkloadId * PodIntent) := head inputs.
Definition aggregate_launch_spec (inputs : list (WorkloadId * option WorkloadSpec)) :
    option WorkloadSpec := head inputs ≫= snd.
Definition aggregate_lease (inputs : list (ScheduleLeaseId * LeaseInfo)) :
    option LeaseInfo := snd <$> head inputs.
Definition aggregate_worker (inputs : list (WorkerId * WorkerInfo)) :
    option (WorkerId * WorkerInfo) := head inputs.
Definition aggregate_artifact (inputs : list (ArtifactPortId * bool)) : option bool :=
  snd <$> head inputs.
Definition aggregate_svc_spec (inputs : list (ManagementId * ServiceSpec)) :
    option (ManagementId * ServiceSpec) := head inputs.

(** [EndpointDemandActiveAggregator]: any worker reporting activity wins. *)
Fixpoint aggregate_active (inputs : list (EndpointDemandId * bool)) : bool :=
  match inputs with
  | [] => false
  | (_, need) :: rest => if need then true else aggregate_active rest
  end.

Lemma aggregate_demand_acc inputs c ids :
  0 ≤ c → c + zlen inputs ≤ u32_max →
  foldl demand_step {| demand_count := c; endpoint_ids := ids |} inputs =
  {| demand_count := c + zlen (filter (λ i, i.2 = true) inputs);
     endpoint_ids := ids ++ inputs.*1 |}.
Proof.
  revert c ids. induction inputs as [|[e d] inputs IH]; intros c ids Hc Hlen; simpl in *.
  { by rewrite Z.add_0_r, app_nil_r. }
  unfold demand_step at 2; simpl.
  destruct d; [rewrite (u32_add_small c 1) by (unfold u32_max in *; lia)|];
    rewrite IH by lia;
    rewrite <- (assoc_L (++)); f_equal; repeat case_decide; simplify_eq; simpl; lia.
Qed.

(** [aggregate_demand] counts the endpoints that demand, in a [u32]. *)
Lemma aggregate_demand_spec inputs :
  zlen inputs ≤ u32_max →
  aggregate_demand inputs =
  {| demand_count := zlen (filter (λ i, i.2 = true) inputs);
     endpoint_ids := inputs.*1 |}.
Proof. intros. by apply aggregate_demand_acc. Qed.

Lemma aggregate_active_spec inputs :
  aggregate_active inputs = true ↔ ∃ i, i ∈ inputs ∧ i.2 = true.
Proof.
  induction inputs as [|[e []] l IH]; simpl.
  - split; [done|]. intros (? & []%elem_of_nil & _).
  - split; [|done]. exists (e, true). set_solver.
  - rewrite IH. split; intros (i & Hi & Ht); exists i; [set_solver|].
    apply elem_of_cons in Hi as [->|]; [done|auto].
Qed.

End Aggregators.
