(* ===== verification/Pod.v ===== *)
(** * The pod state machine ([crates/orchestrator/src/sm/pod.rs])

    [PodSm] is the machine, [PodCtx] the effect buffer the router generates for
    it ([PodCtxConcrete]: each setter stores [Some v], the last write wins,
    [self_destruct] raises a flag).  The theorems show that the lifecycle is
    linear with absorbing terminal states, that the published signals agree with
    the state after every delivery, and that a pod is reaped exactly when it is
    terminal and unowned. *)

From S2P Require Import Prelude SmTypes.

Module PodSm.

(** ** State, context and inputs *)
Record PodSm := {
  status : PodStatus;
  workload_id : option WorkloadId;
  worker_id : option WorkerId;
  intent : PodIntent;
  resume_artifact : option ArtifactPortId;
  timer_generation : Z;
  assigned_worker : option WorkerId;
  launch_spec : option WorkloadSpec;
}.

Record PodCtx := {
  c_status : option PodStatus;
  c_assigned_worker : option (option WorkerId);
  c_wanted_timers : option (list PodTimerRequest);
  c_schedule_request : option PodScheduleRequest;
  c_pod_report : option (list WorkloadId);
  c_pod_timers : option (list Z);
  c_pod_schedule_intent : option (list Z);
  c_pod_placement : option (list WorkerId);
  c_pod_observability : option (list Z);
  c_self_destruct : bool;
}.

Definition ctx_new : PodCtx :=
  {| c_status := None; c_assigned_worker := None; c_wanted_timers := None;
     c_schedule_request := None; c_pod_report := None; c_pod_timers := None;
     c_pod_schedule_intent := None; c_pod_placement := None;
     c_pod_observability := None; c_self_destruct := false |}.

Inductive PodInput :=
  | LaunchSpecInput (spec : option WorkloadSpec)
  | WorkerInput (worker : option (WorkerId * WorkerInfo))
  | OwnerInput (owner : option (WorkloadId * PodIntent))
  | NotifyPodStatus (new_status : PodStatus)
  | NotifyPodSuspended (artifact_id : ArtifactPortId)
  | LeaseInput (lease : option LeaseInfo)
  | PodTimerFired (key : PodTimerKey).

(** Context setters. *)
Definition set_status (v : PodStatus) : act PodSm PodCtx :=
  emit (λ c, {| c with c_status := Some v |}).
Definition set_assigned_worker (v : option WorkerId) : act PodSm PodCtx :=
  emit (λ c, {| c with c_assigned_worker := Some v |}).
Definition set_wanted_timers (v : list PodTimerRequest) : act PodSm PodCtx :=
  emit (λ c, {| c with c_wanted_timers := Some v |}).
Definition set_schedule_request (v : PodScheduleRequest) : act PodSm PodCtx :=
  emit (λ c, {| c with c_schedule_request := Some v |}).
Definition set_pod_report_edges (v : list WorkloadId) : act PodSm PodCtx :=
  emit (λ c, {| c with c_pod_report := Some v |}).
Definition set_pod_placement_edges (v : list WorkerId) : act PodSm PodCtx :=
  emit (λ c, {| c with c_pod_placement := Some v |}).
Definition self_destruct : act PodSm PodCtx :=
  emit (λ c, {| c with c_self_destruct := true |}).

(** ** Operations *)
Definition new : PodSm :=
  {| status := Pending; workload_id := None; worker_id := None; intent := IntentNone;
     resume_artifact := None; timer_generation := 0; assigned_worker := None;
     launch_spec := None |}.

Definition new_from_artifact (artifact_id : ArtifactPortId) : PodSm :=
  {| status := Pending; workload_id := None; worker_id := None; intent := IntentNone;
     resume_artifact := Some artifact_id; timer_generation := 0;
     assigned_worker := None; launch_spec := None |}.

Definition make_schedule_request (s : PodSm) : PodScheduleRequest :=
  {| psr_resume_artifact := resume_artifact s;
     psr_suspend := is_suspending (status s);
     psr_spec := launch_spec s |}.

Definition maybe_reap : act PodSm PodCtx :=
  when (λ s, is_terminal (status s) && is_none (workload_id s)) self_destruct.

(** The timers a pod asks for, as a function of its state. *)
Definition wanted_timers (s : PodSm) : list PodTimerRequest :=
  match status s with
  | Pending =>
      [{| ptr_key := LaunchTimeout; ptr_generation := timer_generation s;
          ptr_duration := from_secs 120 |}]
  | Suspending =>
      [{| ptr_key := SuspendTimeout; ptr_generation := timer_generation s;
          ptr_duration := from_secs 30 |}]
  | _ => []
  end.

Definition update_timer_signal : act PodSm PodCtx :=
  reading (λ s, set_wanted_timers (wanted_timers s)).

Definition initialize : act PodSm PodCtx :=
  emit (λ c, {| c with c_pod_timers := Some [TIMER] |}) ⨾
  emit (λ c, {| c with c_pod_schedule_intent := Some [SCHEDULE_REQUEST] |}) ⨾
  emit (λ c, {| c with c_pod_observability := Some [OBSERVABILITY] |}) ⨾
  reading (λ s, set_schedule_request (make_schedule_request s)) ⨾
  update_timer_signal.

(** [self.status = v; ctx.set_status(v)] *)
Definition assign_status (v : PodStatus) : act PodSm PodCtx :=
  upd (λ s, {| s with status := v |}) ⨾ set_status v.

Definition handle_launch_spec (spec : option WorkloadSpec) : act PodSm PodCtx :=
  when (λ s, bool_decide (launch_spec s ≠ spec))
    (upd (λ s, {| s with launch_spec := spec |}) ⨾
     reading (λ s, set_schedule_request (make_schedule_request s))).

Definition handle_worker (worker : option (WorkerId * WorkerInfo)) : act PodSm PodCtx :=
  when (λ s, bool_decide (fst <$> worker ≠ worker_id s))
    (upd (λ s, {| s with worker_id := fst <$> worker |}) ⨾
     reading (λ s, set_assigned_worker (worker_id s))) ⨾
  when (λ s, is_none worker && negb (is_terminal (status s)))
    (assign_status Displaced ⨾ update_timer_signal ⨾ maybe_reap).

Definition handle_owner (owner : option (WorkloadId * PodIntent)) : act PodSm PodCtx :=
  reading (λ s0,
    let had_owner := is_some (workload_id s0) in
    let '(new_wl, new_intent) :=
      match owner with
      | Some (wl, intent) => (Some wl, intent)
      | None => (None, IntentNone)
      end in
    upd (λ s, {| s with workload_id := new_wl; intent := new_intent |}) ⨾
    reading (λ s, set_pod_report_edges (option_list (workload_id s))) ⨾
    when (λ s, is_running (status s) && is_suspend_intent (intent s))
      (upd (λ s, {| s with timer_generation := u64_add (timer_generation s) 1 |}) ⨾
       assign_status Suspending ⨾
       reading (λ s, set_schedule_request (make_schedule_request s)) ⨾
       update_timer_signal) ⨾
    when (λ s, had_owner && is_none (workload_id s) && negb (is_terminal (status s)))
      (assign_status (PodFailed None "owner lost") ⨾ update_timer_signal) ⨾
    maybe_reap).

Definition accept_status (s : PodSm) (new_status : PodStatus) : bool :=
  negb (is_terminal (status s)) &&
  match new_status with
  | Running => is_pending (status s)
  | PodFailed _ _ | Finished _ => true
  | _ => false
  end.

Definition handle_notify_status (new_status : PodStatus) : act PodSm PodCtx :=
  when (λ s, accept_status s new_status)
    (assign_status new_status ⨾ update_timer_signal ⨾ maybe_reap).

Definition handle_notify_suspended (artifact_id : ArtifactPortId) : act PodSm PodCtx :=
  when (λ s, is_suspending (status s))
    (assign_status (Suspended artifact_id) ⨾ update_timer_signal ⨾ maybe_reap).

Definition handle_lease (lease : option LeaseInfo) : act PodSm PodCtx :=
  reading (λ s,
    let had_lease := is_some (assigned_worker s) in
    match lease with
    | Some info =>
        if negb had_lease && is_pending (status s) then
          upd (λ s, {| s with assigned_worker := Some (li_worker_id info) |}) ⨾
          set_assigned_worker (Some (li_worker_id info)) ⨾
          set_pod_placement_edges [li_worker_id info]
        else skip
    | None =>
        if had_lease && negb (is_terminal (status s)) then
          upd (λ s, {| s with assigned_worker := None |}) ⨾
          assign_status Displaced ⨾
          set_pod_placement_edges [] ⨾
          update_timer_signal ⨾ maybe_reap
        else skip
    end).

Definition handle_timer_fired (key : PodTimerKey) : act PodSm PodCtx :=
  match key with
  | LaunchTimeout =>
      when (λ s, is_pending (status s))
        (assign_status (PodFailed None "launch timeout") ⨾ update_timer_signal ⨾ maybe_reap)
  | SuspendTimeout =>
      when (λ s, is_suspending (status s))
        (assign_status (PodFailed None "suspend timeout") ⨾ update_timer_signal ⨾ maybe_reap)
  end.

Definition handle (i : PodInput) : act PodSm PodCtx :=
  match i with
  | LaunchSpecInput spec => handle_launch_spec spec
  | WorkerInput worker => handle_worker worker
  | OwnerInput owner => handle_owner owner
  | NotifyPodStatus new_status => handle_notify_status new_status
  | NotifyPodSuspended artifact_id => handle_notify_suspended artifact_id
  | LeaseInput lease => handle_lease lease
  | PodTimerFired key => handle_timer_fired key
  end.

#[global] Instance pod_handler : SmHandler PodSm PodCtx PodInput :=
  {| sm_initialize := initialize; sm_handle := handle |}.

(** A pod freshly created by a workload and initialised by the router. *)
Definition boot (s : PodSm) : PodSm * PodCtx := initialize (s, ctx_new).

(** ** The lifecycle as an abstract transition system

    The diagram at the head of [pod.rs], with the two further terminal statuses
    the machine has. *)
Inductive lifecycle : PodStatus → PodStatus → Prop :=
  | life_run : lifecycle Pending Running
  | life_suspend : lifecycle Running Suspending
  | life_suspended a : lifecycle Suspending (Suspended a)
  | life_failed st e r : is_terminal st = false → lifecycle st (PodFailed e r)
  | life_finished st e : is_terminal st = false → lifecycle st (Finished e)
  | life_displaced st : is_terminal st = false → lifecycle st Displaced.

Definition phase (st : PodStatus) : Z :=
  match st with
  | Pending => 0 | Running => 1 | Suspending => 2 | _ => 3
  end.

(** The agreement between the state of a pod and what it has published: the
    router consumers (workload, timer port, worker port) only see the latter. *)
Record published (w : PodSm * PodCtx) : Prop := {
  pub_status : default Pending (c_status w.2) = status w.1;
  pub_timers : c_wanted_timers w.2 = Some (wanted_timers w.1);
  pub_report : default [] (c_pod_report w.2) = option_list (workload_id w.1);
  pub_placement : default [] (c_pod_placement w.2) = option_list (assigned_worker w.1);
  pub_request : is_terminal (status w.1) = false →
    c_schedule_request w.2 = Some (make_schedule_request w.1);
  pub_reaped : c_self_destruct w.2 = true → is_terminal (status w.1) = true;
  pub_not_leaked : is_terminal (status w.1) = true → workload_id w.1 = None →
    c_self_destruct w.2 = true;
}.

(** Open one delivery into its leaves. *)
Ltac pod_simpl :=
  cbv beta iota zeta delta
    [handle handle_launch_spec handle_worker handle_owner handle_notify_status
     handle_notify_suspended handle_lease handle_timer_fired assign_status
     update_timer_signal maybe_reap self_destruct set_status set_assigned_worker
     set_wanted_timers set_schedule_request set_pod_report_edges
     set_pod_placement_edges accept_status
     skip seq_act upd emit reading when fst snd negb andb orb
     status workload_id worker_id intent resume_artifact timer_generation
     assigned_worker launch_spec c_status c_assigned_worker c_wanted_timers
     c_schedule_request c_pod_report c_pod_timers c_pod_schedule_intent
     c_pod_placement c_pod_observability c_self_destruct
     is_terminal is_pending is_running is_suspending is_suspend_intent
     is_some is_none wanted_timers make_schedule_request] in *.
Ltac pod_cases := pod_simpl; split_ifs pod_simpl.

(** ** Lemmas *)
Lemma handle_lifecycle i s c :
  let s' := (handle i (s, c)).1 in
  status s' = status s ∨ lifecycle (status s) (status s').
Proof.
  destruct i as [sp|wk|[[wl it]|]|st|a|[l|]|[]]; destruct s as [[] ow wk0 it0 ra tg aw ls];
    destruct ow; destruct aw; try destruct st; try destruct it;
    pod_cases; try (by left); right; by econstructor.
Qed.

Lemma lifecycle_phase st st' : lifecycle st st' → phase st < phase st'.
Proof. by destruct 1 as [| | |[] ???|[] ??|[] ?]. Qed.

Lemma lifecycle_terminal st st' : lifecycle st st' → is_terminal st = false.
Proof. by destruct 1. Qed.

Lemma published_boot s :
  status s = Pending → workload_id s = None → assigned_worker s = None →
  published (boot s).
Proof. destruct s; simpl; intros -> -> ->. by constructor. Qed.

Lemma published_handle i w : published w → published (handle i w).
Proof.
  destruct w as [s c]. intros [H1 H2 H3 H4 H5 H6 H7].
  destruct i as [sp|wk|[[wl it]|]|st|a|[l|]|[]]; destruct s as [[] ow wk0 it0 ra tg aw ls];
    destruct ow; destruct aw; try destruct st; try destruct it; try destruct wk;
    pod_cases; constructor; pod_simpl; simpl default; auto; congruence.
Qed.

Lemma pod_run_published l s :
  status s = Pending → workload_id s = None → assigned_worker s = None →
  published (deliver l (boot s)).
Proof.
  intros. apply (deliver_invariant published); [apply published_handle|].
  by apply published_boot.
Qed.

Lemma pod_run_rtc l w : rtc lifecycle (status w.1) (status (deliver l w).1).
Proof.
  revert w. induction l as [|i l IH]; intros [s c]; [done|].
  rewrite deliver_cons. etrans; [|apply IH].
  destruct (handle_lifecycle i s c) as [Heq|Hstep]; [|by apply rtc_once].
  change (sm_handle i (s, c)) with (handle i (s, c)). by rewrite Heq.
Qed.

Lemma rtc_terminal st st' : is_terminal st = true → rtc lifecycle st st' → st' = st.
Proof. intros Ht Hr. inv Hr; [done|]. by erewrite lifecycle_terminal in Ht. Qed.

(** ** Properties *)


(** The inputs of a pod that boots, is suspended by its owner and reports its
    artifact. *)
Definition suspend_run : list PodInput :=
  [OwnerInput (Some (7, IntentWant)); LeaseInput (Some {| li_worker_id := 3 |});
   NotifyPodStatus Running; OwnerInput (Some (7, IntentSuspend));
   NotifyPodSuspended 11].


(** Terminal statuses are absorbing: once a pod reports a terminal status,
    no later input changes it, so its owner can read it at leisure. *)
Theorem pod_terminal_absorbing (l : list PodInput) (w : PodSm * PodCtx) :
  is_terminal (status w.1) = true → status (deliver l w).1 = status w.1.
Proof. intros Ht. eapply rtc_terminal, pod_run_rtc. done. Qed.

Lemma pod_terminal_absorbing_witness :
  status (deliver [NotifyPodStatus Running; PodTimerFired LaunchTimeout]
            (deliver suspend_run (boot new))).1 = Suspended 11.
Proof.
  rewrite (pod_terminal_absorbing [NotifyPodStatus Running; PodTimerFired LaunchTimeout]
             (deliver suspend_run (boot new))); reflexivity.
Defined.

(** Along every run of a pod, what it has published agrees with its state:
    the status signal, exactly the timers its status calls for, the report edge to
    its owner, the placement edge to its leased worker and, while it is live, the
    schedule request; it has asked to be destroyed only if it is terminal, and a
    terminal pod without owner has asked for it, so none is leaked. *)
Theorem pod_signals_coherent (l : list PodInput) (s : PodSm) :
  s = new ∨ (∃ a, s = new_from_artifact a) → published (deliver l (boot s)).
Proof. intros [->|[a ->]]; by apply pod_run_published. Qed.

Lemma pod_signals_coherent_witness :
  published (deliver suspend_run (boot new)) ∧
  c_wanted_timers (deliver suspend_run (boot new)).2 = Some [].
Proof. split; [|reflexivity]. apply (pod_signals_coherent suspend_run new). by left. Defined.

(** C32: abandoning a pod always reaps it: when an owned pod loses its owner, at
    whatever point of its lifecycle, it ends in a terminal status and asks the
    router to destroy it in the same delivery. *)
Theorem pod_abandon_reaps (w : PodSm * PodCtx) (wl : WorkloadId) :
  workload_id w.1 = Some wl →
  let w' := handle (OwnerInput None) w in
  is_terminal (status w'.1) = true ∧ c_self_destruct w'.2 = true ∧
  c_pod_report w'.2 = Some [].
Proof.
  destruct w as [[[] ow wk it ra tg aw ls] c]. intros Ho. simpl in Ho. subst ow.
  all: cbv zeta; pod_cases; done.
Qed.

Lemma pod_abandon_reaps_witness :
  let w := deliver [OwnerInput (Some (7, IntentWant))] (boot new) in
  status w.1 = Pending ∧ c_self_destruct (handle (OwnerInput None) w).2 = true.
Proof.
  split; [reflexivity|].
  apply (pod_abandon_reaps (deliver [OwnerInput (Some (7, IntentWant))] (boot new)) 7).
  reflexivity.
Defined.

End PodSm.
