(* ===== verification/Endpoint.v ===== *)
(** * The endpoint and service state machines
    ([crates/orchestrator/src/sm/endpoint.rs], [.../service.rs])

    An endpoint turns traffic and activity reports into a demand signal for its
    workload and publishes the fabric entry of its address; a service creates one
    endpoint and pushes configuration to it.  The theorems show that the endpoint
    state and every signal are functions of demand and readiness after each
    delivery, and when demand rises and falls. *)

From S2P Require Import Prelude SmTypes.

Module EndpointSm.

Inductive EndpointState :=
  | Idle
  | NeedBackend
  | Active (ready : ReadyInfo).

Inductive EndpointKind :=
  | KService (service_id : ServiceId) (policy : ServicePolicy)
  | KWorkload.

Record EndpointConfig := {
  ec_kind : EndpointKind; ec_workload : WorkloadId; ec_has_activation : bool;
  ec_idle_timeout : Duration; ec_ip : Ipv4Addr; ec_dns_entry : option DnsEntryInfo }.

Record EndpointTimerRequest := {
  etr_key : EndpointTimerKey; etr_generation : Z; etr_duration : Duration }.

Inductive EndpointStatus := StIdle | StNeedBackend | StActive.

Record EndpointInfo := {
  ei_kind : EndpointKind; ei_ip : Ipv4Addr; ei_backend : option EndpointBackendInfo }.

Record EndpointSm := {
  state : EndpointState;
  has_activation : bool;
  idle_generation : Z;
  idle_timer_active : bool;
  idle_timeout : Duration;
  last_readiness : option ReadyInfo;
  active_level : bool;
  placement_worker_id : option WorkerId;
  kind : option EndpointKind;
  ip : Ipv4Addr;
  dns_entry : option DnsEntryInfo;
}.

Record EndpointCtx := {
  c_demand : option bool;
  c_wanted_timers : option (list EndpointTimerRequest);
  c_status : option EndpointStatus;
  c_current_backend_need : option BackendNeed;
  c_idle_timer_active : option bool;
  c_endpoint_info : option (option EndpointInfo);
  c_dns_entry : option (option DnsEntryInfo);
  c_endpoint_demand : option (list WorkloadId);
  c_endpoint_timers : option (list Z);
  c_endpoint_fabric_endpoints : option (list Z);
  c_endpoint_dns : option (list Z);
  c_endpoint_observability : option (list Z);
  c_self_destruct : bool;
}.

Definition ctx_new : EndpointCtx :=
  {| c_demand := None; c_wanted_timers := None; c_status := None;
     c_current_backend_need := None; c_idle_timer_active := None;
     c_endpoint_info := None; c_dns_entry := None; c_endpoint_demand := None;
     c_endpoint_timers := None; c_endpoint_fabric_endpoints := None;
     c_endpoint_dns := None; c_endpoint_observability := None;
     c_self_destruct := false |}.

Inductive EndpointInput :=
  | ConfigInput (config : option EndpointConfig)
  | ReadinessInput (readiness_list : list (option ReadyInfo))
  | PlacementInput (placement_list : list (option WorkerId))
  | BackendNeedInput (need : bool)
  | ActivateEndpoint (active : bool)
  | EndpointTimerFired (key : EndpointTimerKey)
  | EndpointDemandTraffic.

Definition compute_demand (s : EndpointSm) : bool :=
  if negb (has_activation s) then true else active_level s || idle_timer_active s.

Definition derive_state (s : EndpointSm) : EndpointSm :=
  {| s with state :=
       match last_readiness s with
       | Some info => Active info
       | None => if compute_demand s then NeedBackend else Idle
       end |}.

Definition new (activation : bool) : EndpointSm :=
  derive_state
    {| state := Idle; has_activation := activation; idle_generation := 0;
       idle_timer_active := false; idle_timeout := 0; last_readiness := None;
       active_level := false; placement_worker_id := None; kind := None;
       ip := UNSPECIFIED; dns_entry := None |}.

Definition wanted_timers (s : EndpointSm) : list EndpointTimerRequest :=
  if idle_timer_active s then
    [{| etr_key := IdleTimeout; etr_generation := idle_generation s;
        etr_duration := idle_timeout s |}]
  else [].

Definition update_timer_signal : act EndpointSm EndpointCtx :=
  reading (λ s, emit (λ c, {| c with c_wanted_timers := Some (wanted_timers s) |})).

Definition status_of (s : EndpointSm) : EndpointStatus :=
  match state s with
  | Idle => StIdle | NeedBackend => StNeedBackend | Active _ => StActive
  end.

(** The fabric entry published for the address of the endpoint. *)
Definition endpoint_info (s : EndpointSm) : option EndpointInfo :=
  match state s, kind s with
  | Active ready, Some k =>
      let backend_ip :=
        match k with KService _ _ => Some (ri_pod_ip ready) | KWorkload => None end in
      Some {| ei_kind := k; ei_ip := ip s;
              ei_backend := Some {| eb_ip := backend_ip;
                                    eb_worker_id := ri_worker_id ready |} |}
  | _, Some KWorkload =>
      Some {| ei_kind := KWorkload; ei_ip := ip s;
              ei_backend :=
                (λ wid, {| eb_ip := None; eb_worker_id := wid |}) <$> placement_worker_id s |}
  | NeedBackend, Some k | Idle, Some k =>
      if has_activation s then
        Some {| ei_kind := k; ei_ip := ip s; ei_backend := None |}
      else None
  | _, _ => None
  end.

Definition update_status_signals : act EndpointSm EndpointCtx :=
  reading (λ s,
    emit (λ c, {| c with
      c_status := Some (status_of s);
      c_current_backend_need := Some (if compute_demand s then NeedActive else NeedNone);
      c_idle_timer_active := Some (idle_timer_active s);
      c_endpoint_info := Some (endpoint_info s);
      c_dns_entry := Some (dns_entry s) |})).

Definition handle_config (config : option EndpointConfig) : act EndpointSm EndpointCtx :=
  match config with
  | Some config =>
      upd (λ s, {| s with kind := Some (ec_kind config);
                          has_activation := ec_has_activation config;
                          idle_timeout := ec_idle_timeout config;
                          ip := ec_ip config;
                          dns_entry := ec_dns_entry config |}) ⨾
      emit (λ c, {| c with c_endpoint_demand := Some [ec_workload config] |}) ⨾
      when (λ s, idle_timer_active s && negb (has_activation s))
        (upd (λ s, {| s with idle_timer_active := false |}) ⨾ update_timer_signal)
  | None => emit (λ c, {| c with c_self_destruct := true |})
  end.

Definition handle_readiness (ready : option ReadyInfo) : act EndpointSm EndpointCtx :=
  upd (λ s, {| s with last_readiness := ready |}).

Definition handle_placement (worker_id : option WorkerId) : act EndpointSm EndpointCtx :=
  upd (λ s, {| s with placement_worker_id := worker_id |}).

Definition handle_activate (active : bool) : act EndpointSm EndpointCtx :=
  upd (λ s, {| s with active_level := active |}) ⨾
  when (λ s, active && idle_timer_active s)
    (upd (λ s, {| s with idle_timer_active := false |}) ⨾ update_timer_signal).

Definition handle_traffic_event : act EndpointSm EndpointCtx :=
  when has_activation
    (upd (λ s, {| s with idle_timer_active := true;
                         idle_generation := u64_add (idle_generation s) 1 |}) ⨾
     update_timer_signal).

Definition handle_timer_fired (key : EndpointTimerKey) : act EndpointSm EndpointCtx :=
  when idle_timer_active
    (upd (λ s, {| s with idle_timer_active := false |}) ⨾ update_timer_signal).

Definition publish : act EndpointSm EndpointCtx :=
  upd derive_state ⨾
  reading (λ s, emit (λ c, {| c with c_demand := Some (compute_demand s) |})) ⨾
  update_status_signals.

Definition initialize : act EndpointSm EndpointCtx :=
  emit (λ c, {| c with c_endpoint_timers := Some [TIMER];
                       c_endpoint_fabric_endpoints := Some [FABRIC_ENDPOINT];
                       c_endpoint_dns := Some [DNS_REGISTRY];
                       c_endpoint_observability := Some [OBSERVABILITY] |}) ⨾
  publish.

Definition handle (i : EndpointInput) : act EndpointSm EndpointCtx :=
  match i with
  | ConfigInput config => handle_config config
  | ReadinessInput readiness_list => handle_readiness (mjoin (head readiness_list))
  | PlacementInput placement_list => handle_placement (mjoin (head placement_list))
  | EndpointDemandTraffic => handle_traffic_event
  | BackendNeedInput need => handle_activate need
  | ActivateEndpoint _ => skip
  | EndpointTimerFired key => handle_timer_fired key
  end ⨾ publish.

#[global] Instance endpoint_handler : SmHandler EndpointSm EndpointCtx EndpointInput :=
  {| sm_initialize := initialize; sm_handle := handle |}.

Definition boot (activation : bool) : EndpointSm * EndpointCtx :=
  initialize (new activation, ctx_new).

(** What a consumer of the endpoint sees agrees with its state, and the idle
    timer runs only on an endpoint that has activation. *)
Record published (w : EndpointSm * EndpointCtx) : Prop := {
  pub_state : state w.1 =
    match last_readiness w.1 with
    | Some info => Active info
    | None => if compute_demand w.1 then NeedBackend else Idle
    end;
  pub_demand : c_demand w.2 = Some (compute_demand w.1);
  pub_status : c_status w.2 = Some (status_of w.1);
  pub_need : c_current_backend_need w.2 =
    Some (if compute_demand w.1 then NeedActive else NeedNone);
  pub_info : c_endpoint_info w.2 = Some (endpoint_info w.1);
  pub_dns : c_dns_entry w.2 = Some (dns_entry w.1);
  pub_idle : c_idle_timer_active w.2 = Some (idle_timer_active w.1);
  pub_timer_activation : idle_timer_active w.1 = true → has_activation w.1 = true;
}.

(** The identity and generation of the timers requested, which is what the timer
    port compares: the duration of a running timer is not refreshed. *)
Definition timer_ids (l : list EndpointTimerRequest) : list (EndpointTimerKey * Z) :=
  (λ r, (etr_key r, etr_generation r)) <$> l.

Definition timers_published (w : EndpointSm * EndpointCtx) : Prop :=
  timer_ids (default [] (c_wanted_timers w.2)) = timer_ids (wanted_timers w.1).

(** ** Lemmas *)
Ltac ep_simpl :=
  cbv beta iota zeta delta
    [handle handle_config handle_readiness handle_placement handle_activate
     handle_traffic_event handle_timer_fired publish update_status_signals
     update_timer_signal derive_state compute_demand status_of
     skip seq_act upd emit reading when fst snd negb andb orb
     state has_activation idle_generation idle_timer_active idle_timeout
     last_readiness active_level placement_worker_id kind ip dns_entry
     c_demand c_wanted_timers c_status c_current_backend_need c_idle_timer_active
     c_endpoint_info c_dns_entry c_endpoint_demand c_endpoint_timers
     c_endpoint_fabric_endpoints c_endpoint_dns c_endpoint_observability
     c_self_destruct wanted_timers] in *.

Lemma published_publish w :
  (idle_timer_active w.1 = true → has_activation w.1 = true) → published (publish w).
Proof. destruct w as [[st ha ig it ito lr al pw k i d] c]. intros H. by constructor. Qed.

Lemma handle_timer_activation i w :
  (idle_timer_active w.1 = true → has_activation w.1 = true) →
  let s' := (handle i w).1 in idle_timer_active s' = true → has_activation s' = true.
Proof.
  destruct w as [[st ha ig it ito lr al pw k ip0 d] c].
  destruct i as [[[]|]|rl|pl|[]|a|key|]; destruct it, ha;
    ep_simpl; split_ifs ep_simpl; auto; discriminate.
Qed.

Lemma endpoint_published_handle i w : published w → published (handle i w).
Proof.
  intros Hp. pose proof (handle_timer_activation i w (pub_timer_activation _ Hp)) as Ht.
  revert Ht. change (handle i w) with (publish ((match i with
    | ConfigInput config => handle_config config
    | ReadinessInput l => handle_readiness (mjoin (head l))
    | PlacementInput l => handle_placement (mjoin (head l))
    | EndpointDemandTraffic => handle_traffic_event
    | BackendNeedInput need => handle_activate need
    | ActivateEndpoint _ => skip
    | EndpointTimerFired key => handle_timer_fired key
    end) w)). intros Ht. apply published_publish. exact Ht.
Qed.

Lemma timers_handle i w : timers_published w → timers_published (handle i w).
Proof.
  destruct w as [[st ha ig it ito lr al pw k ip0 d] c]. unfold timers_published.
  destruct i as [[[]|]|rl|pl|[]|a|key|]; destruct it, ha;
    ep_simpl; split_ifs ep_simpl; auto.
Qed.

(** ** Properties *)

(** Along every run of an endpoint, its state is the one derived from demand
    and readiness, and the demand, status, need, fabric entry, DNS and idle-timer
    signals it has published are those of its state; its idle timer only runs while
    it has activation. *)
Theorem endpoint_signals_coherent (l : list EndpointInput) (activation : bool) :
  published (deliver l (boot activation)).
Proof.
  apply (deliver_invariant published); [apply endpoint_published_handle|].
  by apply (published_publish (new activation, _)).
Qed.

(** Along every run, the idle timer the endpoint has requested from the timer
    port is exactly the one its state calls for, with the current generation. *)
Theorem endpoint_timer_coherent (l : list EndpointInput) (activation : bool) :
  timers_published (deliver l (boot activation)).
Proof.
  apply (deliver_invariant timers_published); [apply timers_handle|]. done.
Qed.

(** Scale to zero: an endpoint with activation and no active connection has
    demand from a traffic event until its idle timer fires, and none afterwards;
    the timer request of the event carries a fresh generation. *)
Theorem endpoint_idle_cycle (w : EndpointSm * EndpointCtx) (key : EndpointTimerKey) :
  has_activation w.1 = true → active_level w.1 = false →
  let w1 := handle EndpointDemandTraffic w in
  let w2 := handle (EndpointTimerFired key) w1 in
  c_demand w1.2 = Some true ∧
  c_wanted_timers w1.2 =
    Some [{| etr_key := IdleTimeout; etr_generation := u64_add (idle_generation w.1) 1;
             etr_duration := idle_timeout w.1 |}] ∧
  c_demand w2.2 = Some false ∧ c_wanted_timers w2.2 = Some [] ∧
  idle_timer_active w2.1 = false.
Proof.
  destruct w as [[st ha ig it ito lr al pw k ip0 d] c]. simpl. by intros -> ->.
Qed.

Lemma endpoint_idle_cycle_witness :
  let w := boot true in
  c_demand w.2 = Some false ∧ c_demand (handle EndpointDemandTraffic w).2 = Some true.
Proof.
  split; [reflexivity|]. apply (endpoint_idle_cycle (boot true) IdleTimeout); reflexivity.
Defined.

(** An always-on endpoint never loses demand, whatever it receives short of a
    new configuration. *)
Theorem endpoint_always_on (l : list EndpointInput) (w : EndpointSm * EndpointCtx) :
  has_activation w.1 = false → Forall (λ i, ∀ cfg, i ≠ ConfigInput cfg) l → l ≠ [] →
  c_demand (deliver l w).2 = Some true.
Proof.
  revert w. induction l as [|i l IH]; intros w Ha Hl Hne; [done|].
  apply Forall_cons in Hl as [Hi Hl]. rewrite deliver_cons.
  assert (has_activation (sm_handle i w).1 = false ∧ c_demand (sm_handle i w).2 = Some true)
    as [Ha' Hd].
  { destruct w as [[st ha ig it ito lr al pw k ip0 d] c]; simpl in Ha; subst ha.
    change (sm_handle i) with (handle i).
    destruct i as [cfg|rl|pl|[]|a|key|]; [by destruct (Hi cfg)|..]; destruct it;
      ep_simpl; done. }
  destruct l as [|j l]; [done|]. by apply IH.
Qed.

Lemma endpoint_always_on_witness :
  c_demand (deliver [ReadinessInput []; BackendNeedInput false; EndpointTimerFired IdleTimeout]
              (boot false)).2 = Some true.
Proof.
  apply endpoint_always_on; [reflexivity| |done]. repeat constructor; intros ? [=].
Defined.

End EndpointSm.

Module ServiceSm.
Import EndpointSm.

Record ServiceSm := { endpoint_id : option EndpointId }.

Record ServiceCtx := {
  sc_id : ServiceId;
  sc_next_endpoint : EndpointId;
  sc_endpoint_config : option (option EndpointConfig);
  sc_service_endpoint_ownership : option (list EndpointId);
  sc_creates : list (EndpointId * EndpointSm);
  sc_events : list (EndpointId * bool);
  sc_self_destruct : bool;
}.

Definition service_ctx_new (id : ServiceId) (next : EndpointId) : ServiceCtx :=
  {| sc_id := id; sc_next_endpoint := next; sc_endpoint_config := None;
     sc_service_endpoint_ownership := None; sc_creates := []; sc_events := [];
     sc_self_destruct := false |}.

Inductive ServiceInput :=
  | SvcSpecInput (spec_opt : option (ManagementId * ServiceSpec))
  | ActivateService (active : bool).

Definition service_new : ServiceSm := {| endpoint_id := None |}.

(** [ctx.create_endpoint(sm)]: a fresh id from the allocator, the machine queued
    for creation. *)
Definition create_endpoint (sm : EndpointSm) : act ServiceSm ServiceCtx :=
  λ '(s, c),
    ({| endpoint_id := Some (sc_next_endpoint c) |},
     {| c with sc_next_endpoint := u64_add (sc_next_endpoint c) 1;
               sc_creates := sc_creates c ++ [(sc_next_endpoint c, sm)];
               sc_service_endpoint_ownership := Some [sc_next_endpoint c] |}).

Definition service_config (id : ServiceId) (spec : ServiceSpec) : EndpointConfig :=
  {| ec_kind := KService id (ss_policy spec);
     ec_workload := ss_workload spec;
     ec_has_activation := ss_has_activation spec;
     ec_idle_timeout := ss_idle_timeout spec;
     ec_ip := ss_ip spec;
     ec_dns_entry :=
       match ss_dns_name spec, ss_dns_ip spec with
       | Some name, Some ip => Some {| dns_name := name; dns_ip := ip |}
       | _, _ => None
       end |}.

Definition service_handle (i : ServiceInput) : act ServiceSm ServiceCtx :=
  match i with
  | SvcSpecInput (Some (_, spec)) =>
      when (λ s, is_none (endpoint_id s)) (create_endpoint (new (ss_has_activation spec))) ⨾
      emit (λ c, {| c with sc_endpoint_config := Some (Some (service_config (sc_id c) spec)) |})
  | SvcSpecInput None => emit (λ c, {| c with sc_self_destruct := true |})
  | ActivateService active =>
      reading (λ s, match endpoint_id s with
                    | Some ep => emit (λ c, {| c with sc_events := sc_events c ++ [(ep, active)] |})
                    | None => skip
                    end)
  end.

#[global] Instance service_handler : SmHandler ServiceSm ServiceCtx ServiceInput :=
  {| sm_initialize := skip; sm_handle := service_handle |}.

(** The endpoints a service has created are at most one, the one it owns. *)
Definition single_endpoint (w : ServiceSm * ServiceCtx) : Prop :=
  match endpoint_id w.1 with
  | None => sc_creates w.2 = [] ∧ sc_service_endpoint_ownership w.2 = None ∧
            sc_events w.2 = []
  | Some e => (sc_creates w.2).*1 = [e] ∧ sc_service_endpoint_ownership w.2 = Some [e] ∧
              Forall (λ ev, ev.1 = e) (sc_events w.2)
  end.

Lemma single_endpoint_handle i w : single_endpoint w → single_endpoint (service_handle i w).
Proof.
  destruct w as [[[e|]] c]; destruct i as [[[m sp]|]|a]; unfold single_endpoint;
    cbv [service_handle when reading emit seq_act skip create_endpoint]; simpl;
    intros (H1 & H2 & H3); rewrite ?H1; repeat split; auto.
  - apply Forall_app. auto.
  - by rewrite H3.
Qed.

(** Over any sequence of specs and activations a service creates at most one
    endpoint, owns exactly that endpoint, and forwards activations only to it. *)
Theorem service_single_endpoint (l : list ServiceInput) (id : ServiceId) (next : EndpointId) :
  single_endpoint (deliver l (service_new, service_ctx_new id next)).
Proof. by apply (deliver_invariant single_endpoint); [apply single_endpoint_handle|]. Qed.

End ServiceSm.
