(* ===== verification/Workload.v ===== *)
(** * The workload state machine ([crates/orchestrator/src/sm/workload.rs])

    A workload owns at most one pod and one endpoint.  It decides from demand,
    spec, pod status and artifact validity whether a pod must exist ([reconcile]),
    retries failed pods with a bounded backoff, suspends idle pods into artifacts
    and resumes from them.  [WorkloadCtx] is the effect buffer of the generated
    [WorkloadCtxConcrete], with the id allocator it borrows.  The proofs are in
    WorkloadInv.v. *)

From S2P Require Import Prelude SmTypes Pod Endpoint.

Module WorkloadSm.
Import Aggregators.

(** ** State, context and inputs *)
Definition MAX_RETRIES : Z := 5.

Record WorkloadSm := {
  has_spec : bool;
  has_demand : bool;
  pod_running : bool;
  wants_pod : bool;
  pod_id : option PodId;
  committed_to_boot : bool;
  spec_version : Z;
  launched_with_spec_version : Z;
  consecutive_failures : Z;
  restart_count : Z;
  max_retries : Z;
  in_backoff : bool;
  backoff_generation : Z;
  pod_worker_id : option WorkerId;
  suspend_on_idle : bool;
  artifact_port : option ArtifactPortId;
  artifact_confirmed : bool;
  artifact_confirm_gen : Z;
  awaiting_suspend : bool;
  current_pod_spec : option PodSpec;
  pod_ip : Ipv4Addr;
  endpoint_id : option EndpointId;
  run_policy : RunPolicy;
  completed : bool;
  last_exit_code : option Z;
  last_failure_reason : option string;
  respects_demand : bool;
}.

Record WorkloadCtx := {
  c_id : WorkloadId;
  c_next_pod : PodId;
  c_next_endpoint : EndpointId;
  c_readiness : option (option ReadyInfo);
  c_placement : option (option WorkerId);
  c_pod_intent : option PodIntent;
  c_pod_launch_spec : option (option WorkloadSpec);
  c_wanted_timers : option (list TimerRequest);
  c_status : option WlStatus;
  c_consecutive_failures : option Z;
  c_spec_stale : option bool;
  c_artifact_ref : option bool;
  c_endpoint_config : option (option EndpointSm.EndpointConfig);
  c_workload_endpoint_ownership : option (list EndpointId);
  c_endpoint_readiness : option (list EndpointId);
  c_pod_ownership : option (list PodId);
  c_workload_timers : option (list Z);
  c_workload_artifact_ref : option (list ArtifactPortId);
  c_workload_observability : option (list Z);
  c_pod_creates : list (PodId * PodSm.PodSm);
  c_endpoint_creates : list (EndpointId * EndpointSm.EndpointSm);
  c_self_destruct : bool;
}.

Definition ctx_new (id next_pod next_endpoint : Z) : WorkloadCtx :=
  {| c_id := id; c_next_pod := next_pod; c_next_endpoint := next_endpoint;
     c_readiness := None; c_placement := None; c_pod_intent := None;
     c_pod_launch_spec := None; c_wanted_timers := None; c_status := None;
     c_consecutive_failures := None; c_spec_stale := None; c_artifact_ref := None;
     c_endpoint_config := None; c_workload_endpoint_ownership := None;
     c_endpoint_readiness := None; c_pod_ownership := None;
     c_workload_timers := None; c_workload_artifact_ref := None;
     c_workload_observability := None; c_pod_creates := []; c_endpoint_creates := [];
     c_self_destruct := false |}.

Inductive WorkloadInput :=
  | DemandInput (demand : DemandInfo)
  | SpecInput (spec_opt : option (ManagementId * WorkloadSpec))
  | PodStatusInput (statuses : list PodStatus)
  | PodWorkerInput (workers : list (option WorkerId))
  | AdminCommand (cmd : AdminCmd)
  | ArtifactInput (valid : option bool)
  | WorkloadTimerFired (key : WorkloadTimerKey).

Abbreviation wact := (act WorkloadSm WorkloadCtx).

Definition set_readiness (v : option ReadyInfo) : wact :=
  emit (λ c, {| c with c_readiness := Some v |}).
Definition set_placement (v : option WorkerId) : wact :=
  emit (λ c, {| c with c_placement := Some v |}).
Definition set_pod_intent (v : PodIntent) : wact :=
  emit (λ c, {| c with c_pod_intent := Some v |}).
Definition set_pod_ownership_edges (v : list PodId) : wact :=
  emit (λ c, {| c with c_pod_ownership := Some v |}).
Definition set_workload_artifact_ref_edges (v : list ArtifactPortId) : wact :=
  emit (λ c, {| c with c_workload_artifact_ref := Some v |}).
Definition set_artifact_ref (v : bool) : wact :=
  emit (λ c, {| c with c_artifact_ref := Some v |}).
Definition self_destruct : wact :=
  emit (λ c, {| c with c_self_destruct := true |}).

(** ** Construction and derived values *)
Definition with_max_retries (retries : Z) : WorkloadSm :=
  {| has_spec := false; has_demand := false; pod_running := false; wants_pod := false;
     pod_id := None; committed_to_boot := false; spec_version := 0;
     launched_with_spec_version := 0; consecutive_failures := 0; restart_count := 0;
     max_retries := retries; in_backoff := false; backoff_generation := 0;
     pod_worker_id := None; suspend_on_idle := false; artifact_port := None;
     artifact_confirmed := false; artifact_confirm_gen := 0; awaiting_suspend := false;
     current_pod_spec := None; pod_ip := UNSPECIFIED; endpoint_id := None;
     run_policy := RunService; completed := false; last_exit_code := None;
     last_failure_reason := None; respects_demand := false |}.

Definition new : WorkloadSm := with_max_retries MAX_RETRIES.

Definition effective_demand (s : WorkloadSm) : bool :=
  negb (respects_demand s) || has_demand s.

Definition clear_artifact_ref : wact :=
  when (λ s, is_some (artifact_port s))
    (upd (λ s, {| s with artifact_port := None; artifact_confirmed := false |}) ⨾
     set_workload_artifact_ref_edges [] ⨾ set_artifact_ref false).

(** The pod held after a failure: not running, in backoff or out of retries. *)
Definition retained_dead (s : WorkloadSm) : bool :=
  is_some (pod_id s) && negb (pod_running s) &&
  (in_backoff s || (max_retries s <=? consecutive_failures s)).

Definition reap_retained_pod : wact :=
  when retained_dead
    (set_pod_ownership_edges [] ⨾ set_pod_intent IntentNone ⨾
     upd (λ s, {| s with pod_id := None |})).

Definition destroy_current_pod : wact :=
  when (λ s, is_some (pod_id s))
    (set_pod_ownership_edges [] ⨾ set_pod_intent IntentNone ⨾
     upd (λ s, {| s with pod_id := None |})) ⨾
  upd (λ s, {| s with awaiting_suspend := false |}) ⨾
  clear_artifact_ref ⨾ set_readiness None ⨾ set_placement None.

Definition wanted_timers (s : WorkloadSm) : list TimerRequest :=
  (if in_backoff s then
     [{| tr_key := RetryBackoff; tr_generation := backoff_generation s;
         tr_duration := from_millis 500 |}]
   else []) ++
  (if is_some (artifact_port s) && negb (artifact_confirmed s) then
     [{| tr_key := ArtifactConfirm; tr_generation := artifact_confirm_gen s;
         tr_duration := from_millis 100 |}]
   else []).

Definition update_timer_signal : wact :=
  reading (λ s, emit (λ c, {| c with c_wanted_timers := Some (wanted_timers s) |})).

Definition status_of (s : WorkloadSm) : WlStatus :=
  let demand := effective_demand s || committed_to_boot s in
  let is_failed := (max_retries s <=? consecutive_failures s) && demand in
  if completed s then WlCompleted (default 0 (last_exit_code s))
  else if is_failed then
    WlFailed (last_exit_code s) (default EmptyString (last_failure_reason s))
  else if in_backoff s then WlRetryBackoff
  else if awaiting_suspend s then WlSuspending
  else if is_some (artifact_port s) && is_none (pod_id s) then WlSuspended
  else if pod_running s then WlRunning
  else if is_some (pod_id s) then WlLaunching
  else if negb (has_spec s) && demand then WlWaitingForSpec
  else WlDormant.

Definition spec_stale (s : WorkloadSm) : bool :=
  is_some (pod_id s) && negb (launched_with_spec_version s =? spec_version s).

Definition update_status_signals : wact :=
  reading (λ s,
    emit (λ c, {| c with c_status := Some (status_of s);
                         c_consecutive_failures := Some (consecutive_failures s);
                         c_spec_stale := Some (spec_stale s) |})).

Definition update_readiness : wact :=
  reading (λ s,
    set_readiness (Some {| ri_pod_id := default 0 (pod_id s);
                           ri_worker_id := default 0 (pod_worker_id s);
                           ri_pod_ip := pod_ip s |})).

(** ** Reconcile *)
Definition want_pod (s : WorkloadSm) : bool :=
  let is_failed := max_retries s <=? consecutive_failures s in
  let demand := effective_demand s || committed_to_boot s in
  has_spec s && demand && negb (in_backoff s) && negb is_failed && negb (completed s).

(** [ctx.create_pod(pod)] and the bookkeeping of the new pod. *)
Definition create_pod (pod : PodSm.PodSm) : wact :=
  λ '(s, c),
    ({| s with pod_id := Some (c_next_pod c);
               launched_with_spec_version := spec_version s |},
     {| c with c_next_pod := u64_add (c_next_pod c) 1;
               c_pod_creates := c_pod_creates c ++ [(c_next_pod c, pod)];
               c_pod_ownership := Some [c_next_pod c];
               c_pod_intent := Some IntentWant |}).

Definition reconcile : wact :=
  reading (λ s,
    if awaiting_suspend s then skip else
    let want := want_pod s in
    let is_failed := max_retries s <=? consecutive_failures s in
    upd (λ s, {| s with wants_pod := want |}) ⨾
    (if want && is_none (pod_id s) then
       if is_some (artifact_port s) && negb (artifact_confirmed s) then skip
       else create_pod (match artifact_port s with
                        | Some port_id => PodSm.new_from_artifact port_id
                        | None => PodSm.new
                        end)
     else if want && is_some (pod_id s) then set_pod_intent IntentWant
     else if negb want && is_some (pod_id s) then
       if pod_running s && suspend_on_idle s then
         set_pod_intent IntentSuspend ⨾ upd (λ s, {| s with awaiting_suspend := true |})
       else if negb (pod_running s) && (in_backoff s || is_failed) then skip
       else
         set_pod_ownership_edges [] ⨾ set_pod_intent IntentNone ⨾
         upd (λ s, {| s with pod_id := None |}) ⨾
         set_readiness None ⨾ set_placement None
     else set_pod_intent IntentNone)).

(** ** Pod status transitions *)
Definition on_pod_running : wact :=
  upd (λ s, {| s with committed_to_boot := false; consecutive_failures := 0 |}) ⨾
  clear_artifact_ref ⨾
  reading (λ s,
    if negb (launched_with_spec_version s =? spec_version s) then
      destroy_current_pod ⨾ reconcile
    else if negb (effective_demand s) then reconcile
    else update_readiness).

Definition on_pod_finished (exit_code : Z) : wact :=
  upd (λ s, {| s with awaiting_suspend := false |}) ⨾
  clear_artifact_ref ⨾ set_readiness None ⨾ set_placement None ⨾
  set_pod_ownership_edges [] ⨾ set_pod_intent IntentNone ⨾
  upd (λ s, {| s with pod_id := None; last_exit_code := Some exit_code |}) ⨾
  reading (λ s,
    if decide (run_policy s = RunJob) then
      upd (λ s, {| s with completed := true; committed_to_boot := false |})
    else when (λ s, negb (effective_demand s))
           (upd (λ s, {| s with committed_to_boot := false |}))) ⨾
  reconcile ⨾ update_timer_signal.

Definition on_pod_failed (exit_code : option Z) (reason : string) : wact :=
  upd (λ s, {| s with awaiting_suspend := false |}) ⨾
  clear_artifact_ref ⨾ set_readiness None ⨾ set_placement None ⨾
  upd (λ s, {| s with last_exit_code := exit_code; last_failure_reason := Some reason;
                      consecutive_failures := u32_add (consecutive_failures s) 1;
                      restart_count := u32_add (restart_count s) 1 |}) ⨾
  when (λ s, negb (effective_demand s)) (upd (λ s, {| s with committed_to_boot := false |})) ⨾
  when (λ s, max_retries s <=? consecutive_failures s)
    (upd (λ s, {| s with committed_to_boot := false |})) ⨾
  reading (λ s,
    let want_retry := (effective_demand s || committed_to_boot s) &&
                      (consecutive_failures s <? max_retries s) in
    if want_retry then
      upd (λ s, {| s with in_backoff := true;
                          backoff_generation := u64_add (backoff_generation s) 1 |})
    else if negb (effective_demand s) then
      upd (λ s, {| s with consecutive_failures := 0 |}) ⨾ reap_retained_pod
    else skip) ⨾
  reconcile ⨾ update_timer_signal.

Definition on_pod_displaced : wact :=
  upd (λ s, {| s with awaiting_suspend := false |}) ⨾
  set_readiness None ⨾ set_placement None ⨾
  set_pod_ownership_edges [] ⨾ set_pod_intent IntentNone ⨾
  upd (λ s, {| s with pod_id := None |}) ⨾
  when (λ s, negb (effective_demand s)) (upd (λ s, {| s with committed_to_boot := false |})) ⨾
  reconcile ⨾ update_timer_signal.

Definition on_pod_suspended (artifact_id : ArtifactPortId) : wact :=
  when (λ s, spec_version s =? launched_with_spec_version s)
    (upd (λ s, {| s with artifact_port := Some artifact_id; artifact_confirmed := false;
                         artifact_confirm_gen := u64_add (artifact_confirm_gen s) 1 |}) ⨾
     set_workload_artifact_ref_edges [artifact_id] ⨾ set_artifact_ref true) ⨾
  upd (λ s, {| s with awaiting_suspend := false |}) ⨾
  set_readiness None ⨾ set_placement None ⨾
  set_pod_ownership_edges [] ⨾ set_pod_intent IntentNone ⨾
  upd (λ s, {| s with pod_id := None |}) ⨾
  reconcile.

(** ** The handlers of the inputs *)
Definition reset_failures : WorkloadSm → WorkloadSm :=
  λ s, {| s with committed_to_boot := false; consecutive_failures := 0;
                 in_backoff := false; completed := false |}.

Definition handle_demand (demand : DemandInfo) : wact :=
  reading (λ s0,
    upd (λ s, {| s with has_demand := 0 <? demand_count demand |}) ⨾
    when (λ s, has_demand s && negb (has_demand s0))
      (upd (λ s, {| s with committed_to_boot := true |})) ⨾
    when (λ s, negb (has_demand s) && is_none (pod_id s)) (upd reset_failures) ⨾
    when (λ s, negb (has_demand s) && retained_dead s) (upd reset_failures) ⨾
    emit (λ c, {| c with c_endpoint_readiness := Some (endpoint_ids demand) |}) ⨾
    reconcile ⨾ update_timer_signal).

(** Create the workload-owned endpoint when the pod has a network. *)
Definition sync_endpoint (spec : WorkloadSpec) : wact :=
  match ps_network (ws_pod_spec spec) with
  | None => skip
  | Some network =>
      (λ '(s, c),
        if is_none (endpoint_id s) then
          ({| s with endpoint_id := Some (c_next_endpoint c) |},
           {| c with c_next_endpoint := u64_add (c_next_endpoint c) 1;
                     c_endpoint_creates := c_endpoint_creates c ++
                       [(c_next_endpoint c,
                         EndpointSm.new (wc_respects_demand (ws_config spec)))];
                     c_workload_endpoint_ownership := Some [c_next_endpoint c] |})
        else (s, c)) ⨾
      emit (λ c, {| c with c_endpoint_config := Some (Some
        {| EndpointSm.ec_kind := EndpointSm.KWorkload;
           EndpointSm.ec_workload := c_id c;
           EndpointSm.ec_has_activation := wc_respects_demand (ws_config spec);
           EndpointSm.ec_idle_timeout :=
             from_option as_idle_timeout (from_secs 30) (wc_activation (ws_config spec));
           EndpointSm.ec_ip := pnc_ip network;
           EndpointSm.ec_dns_entry := None |}) |})
  end.

(** A pod-affecting change of an existing spec. *)
Definition on_pod_spec_changed : wact :=
  upd (λ s, {| s with spec_version := u64_add (spec_version s) 1 |}) ⨾
  reap_retained_pod ⨾
  upd (λ s, {| s with consecutive_failures := 0; restart_count := 0;
                      in_backoff := false; completed := false |}) ⨾
  clear_artifact_ref ⨾
  when pod_running destroy_current_pod.

Definition apply_spec (spec : WorkloadSpec) : wact :=
  upd (λ s, {| s with pod_ip :=
                 from_option pnc_ip UNSPECIFIED (ps_network (ws_pod_spec spec)) |}) ⨾
  sync_endpoint spec ⨾
  upd (λ s, {| s with respects_demand := wc_respects_demand (ws_config spec) |}) ⨾
  reading (λ s1,
    upd (λ s, {| s with suspend_on_idle := wc_suspend_on_idle (ws_config spec);
                        run_policy := wc_run_policy (ws_config spec) |}) ⨾
    when (λ s, bool_decide (run_policy s1 = RunJob) &&
               bool_decide (run_policy s = RunService) && completed s)
      (upd (λ s, {| s with completed := false |})) ⨾
    reading (λ s2,
      upd (λ s, {| s with current_pod_spec := Some (ws_pod_spec spec) |}) ⨾
      when (λ s, has_spec s &&
                 bool_decide (current_pod_spec s2 ≠ Some (ws_pod_spec spec)))
        on_pod_spec_changed) ⨾
    when (λ s, suspend_on_idle s1 && negb (suspend_on_idle s))
      (when awaiting_suspend destroy_current_pod ⨾ clear_artifact_ref)).

Definition handle_spec (spec_opt : option (ManagementId * WorkloadSpec)) : wact :=
  emit (λ c, {| c with c_pod_launch_spec := Some (snd <$> spec_opt) |}) ⨾
  match spec_opt with Some (_, spec) => apply_spec spec | None => skip end ⨾
  reading (λ s,
    if has_spec s && is_none spec_opt then
      destroy_current_pod ⨾
      upd (λ s, {| s with current_pod_spec := None |}) ⨾
      self_destruct
    else
      upd (λ s, {| s with has_spec := is_some spec_opt |}) ⨾
      reconcile ⨾ update_timer_signal ⨾ update_status_signals).

Definition suspended_artifact (st : PodStatus) : option ArtifactPortId :=
  match st with Suspended a => Some a | _ => None end.
Definition failed_status (st : PodStatus) : option (option Z * string) :=
  match st with PodFailed e r => Some (e, r) | _ => None end.
Definition finished_status (st : PodStatus) : option Z :=
  match st with Finished e => Some e | _ => None end.
Definition is_displaced (st : PodStatus) : bool :=
  match st with Displaced => true | _ => false end.

(** All pods gone: the safety net for an unexpected disappearance. *)
Definition on_pods_gone : wact :=
  upd (λ s, {| s with pod_id := None; pod_worker_id := None; awaiting_suspend := false;
                      committed_to_boot := false |}) ⨾
  set_pod_ownership_edges [] ⨾ set_pod_intent IntentNone ⨾
  set_readiness None ⨾ set_placement None.

Definition handle_pod_status (statuses : list PodStatus) : wact :=
  reading (λ s0,
    let was_running := pod_running s0 in
    let running := existsb is_running statuses in
    upd (λ s, {| s with pod_running := running |}) ⨾
    when (λ s, bool_decide (statuses = []) && is_some (pod_id s)) on_pods_gone ⨾
    reading (λ s,
      match find_map suspended_artifact statuses with
      | Some artifact_id => on_pod_suspended artifact_id
      | None =>
          if running && negb was_running then on_pod_running
          else if is_some (find_map failed_status statuses) && is_some (pod_id s) then
            let '(exit_code, reason) :=
              default (None, EmptyString) (find_map failed_status statuses) in
            on_pod_failed exit_code reason
          else if existsb is_displaced statuses && is_some (pod_id s) then on_pod_displaced
          else if is_some (find_map finished_status statuses) && is_some (pod_id s) then
            on_pod_finished (default 0 (find_map finished_status statuses))
          else if negb running && was_running then
            set_readiness None ⨾ set_placement None ⨾ reconcile
          else reconcile
      end) ⨾
    update_timer_signal).

Definition handle_pod_worker (workers : list (option WorkerId)) : wact :=
  let new_worker_id := mjoin (head workers) in
  when (λ s, bool_decide (new_worker_id ≠ pod_worker_id s))
    (upd (λ s, {| s with pod_worker_id := new_worker_id |}) ⨾
     set_placement new_worker_id ⨾
     when pod_running update_readiness).

Definition handle_admin (cmd : AdminCmd) : wact :=
  match cmd with
  | Scavenge =>
      when (λ s, negb (effective_demand s))
        (upd reset_failures ⨾ clear_artifact_ref ⨾ destroy_current_pod ⨾ reconcile ⨾
         update_timer_signal ⨾ update_status_signals)
  | Restart =>
      upd (λ s, {| s with consecutive_failures := 0; restart_count := 0;
                          in_backoff := false; completed := false |}) ⨾
      destroy_current_pod ⨾
      upd (λ s, {| s with launched_with_spec_version := spec_version s |}) ⨾
      reconcile ⨾ update_timer_signal ⨾ update_status_signals
  end.

Definition handle_artifact (valid : option bool) : wact :=
  match valid with
  | Some true => upd (λ s, {| s with artifact_confirmed := true |}) ⨾ reconcile
  | Some false | None =>
      when (λ s, is_some (artifact_port s))
        (upd (λ s, {| s with artifact_port := None; artifact_confirmed := false |}) ⨾
         set_workload_artifact_ref_edges [] ⨾ set_artifact_ref false ⨾ reconcile)
  end ⨾ update_timer_signal ⨾ update_status_signals.

Definition handle_timer_fired (key : WorkloadTimerKey) : wact :=
  match key with
  | RetryBackoff =>
      when in_backoff
        (reap_retained_pod ⨾ upd (λ s, {| s with in_backoff := false |}) ⨾
         reconcile ⨾ update_timer_signal)
  | ArtifactConfirm =>
      when (λ s, is_some (artifact_port s) && negb (artifact_confirmed s))
        (upd (λ s, {| s with artifact_port := None |}) ⨾
         set_workload_artifact_ref_edges [] ⨾ set_artifact_ref false ⨾
         reconcile ⨾ update_timer_signal)
  end.

Definition initialize : wact :=
  emit (λ c, {| c with c_workload_timers := Some [TIMER];
                       c_workload_observability := Some [OBSERVABILITY] |}) ⨾
  update_status_signals.

(** [handle]: every arm ends in [update_status_signals] except the early returns
    of a removed spec and of a [Scavenge] under demand, which are inside
    [handle_spec] and [handle_admin]. *)
Definition handle (i : WorkloadInput) : wact :=
  match i with
  | DemandInput demand => handle_demand demand ⨾ update_status_signals
  | SpecInput spec_opt => handle_spec spec_opt
  | PodStatusInput statuses => handle_pod_status statuses ⨾ update_status_signals
  | PodWorkerInput workers => handle_pod_worker workers ⨾ update_status_signals
  | AdminCommand cmd => handle_admin cmd
  | ArtifactInput valid => handle_artifact valid ⨾ update_status_signals
  | WorkloadTimerFired key => handle_timer_fired key ⨾ update_status_signals
  end.

#[global] Instance workload_handler : SmHandler WorkloadSm WorkloadCtx WorkloadInput :=
  {| sm_initialize := initialize; sm_handle := handle |}.

Definition boot (id next_pod next_endpoint : Z) : WorkloadSm * WorkloadCtx :=
  initialize (new, ctx_new id next_pod next_endpoint).

End WorkloadSm.
