(* ===== verification/WorkloadInv.v ===== *)
(** * Safety of the workload machine in its environment

    A [world] is a workload together with what surrounds it: the status of the pod
    it owns, the pod statuses it was told last, its published intent.  Steps are
    deliveries of inputs followed by the application of the buffered effects, the
    way the router drives the machine: an external input reaches a workload only
    once the statuses of its pod have been propagated to it, pods move along the
    lifecycle that [Pod.v] proves of the pod machine, and a pod starts suspending
    only when told to.  [inv] is the inductive invariant; the safety properties
    are read off it. *)

From S2P Require Import Prelude SmTypes Pod Endpoint Workload.

Module WorkloadInv.
Import Aggregators WorkloadSm.

Record world := {
  sm : WorkloadSm;
  next_pod : Z;
  next_ep : Z;
  pod : option PodStatus;
  seen : list PodStatus;
  intent : PodIntent;
  gone : bool;
}.

Section World.
Context (wid retries : Z).

Definition inject (i : WorkloadInput) (g : world) : WorkloadSm * WorkloadCtx :=
  handle i (sm g, ctx_new wid (next_pod g) (next_ep g)).

(** Applying the effects of one delivery; [p] is the pod before it. *)
Definition absorb (p : option PodStatus) (told : list PodStatus) (g : world)
    (r : WorkloadSm * WorkloadCtx) : world :=
  {| sm := r.1; next_pod := c_next_pod r.2; next_ep := c_next_endpoint r.2;
     pod := match pod_id r.1, c_pod_creates r.2 with
            | None, _ => None
            | Some _, [] => p
            | Some _, _ => Some Pending
            end;
     seen := told;
     intent := default (intent g) (c_pod_intent r.2);
     gone := c_self_destruct r.2 |}.

Definition external (s : WorkloadSm) (i : WorkloadInput) : Prop :=
  match i with
  | PodStatusInput _ => False
  | ArtifactInput (Some true) => is_Some (artifact_port s)
  | _ => True
  end.

Definition external_step (i : WorkloadInput) (g : world) : world :=
  absorb (pod g) (seen g) g (inject i g).
Definition status_step (p : option PodStatus) (g : world) : world :=
  absorb p (option_list p) g (inject (PodStatusInput (option_list p)) g).

Inductive step : world → world → Prop :=
  | step_external g i :
      gone g = false → seen g = option_list (pod g) → external (sm g) i →
      step g (external_step i g)
  | step_refresh g :
      gone g = false → seen g ≠ option_list (pod g) →
      step g (status_step (pod g) g)
  | step_pod g st st' :
      gone g = false → pod g = Some st → seen g = [st] → PodSm.lifecycle st st' →
      (st' = Suspending → intent g = IntentSuspend) →
      step g (status_step (Some st') g)
  | step_pod_gone g st :
      gone g = false → pod g = Some st → seen g = [st] →
      step g (status_step None g).

Definition init : world :=
  {| sm := with_max_retries retries; next_pod := 0; next_ep := 0; pod := None;
     seen := []; intent := IntentNone; gone := false |}.

(** No pod, or one that failed. *)
Definition dead_pod (p : option PodStatus) : bool :=
  match p with None | Some (PodFailed _ _) => true | _ => false end.
(** The statuses an owned pod can have between deliveries. *)
Definition owned_pod (p : option PodStatus) : bool :=
  match p with
  | None | Some Pending | Some Running | Some Suspending | Some (PodFailed _ _) => true
  | _ => false
  end.

(** The part of the invariant that every step inside a handler keeps, over the
    statuses told, the pod, the intent, the suspension policy and the machine. *)
Record core (told : list PodStatus) (p : option PodStatus) (it : PodIntent) (sus : bool)
    (s : WorkloadSm) : Prop := {
  k_retries : max_retries s = retries;
  k_failures : 0 ≤ consecutive_failures s ≤ retries;
  k_pod : is_some (pod_id s) = is_some p;
  k_owned : owned_pod p = true;
  k_running : pod_running s = existsb is_running told;
  k_backoff : in_backoff s = true → dead_pod p = true;
  k_backoff_left : in_backoff s = true → consecutive_failures s < retries;
  k_failed : retries ≤ consecutive_failures s → dead_pod p = true;
  k_awaiting : awaiting_suspend s = true →
    (p = Some Running ∨ p = Some Suspending) ∧ sus = true;
  k_suspending : p = Some Suspending → awaiting_suspend s = true;
  k_intent : it = IntentSuspend → awaiting_suspend s = true ∨ dead_pod p = true;
  k_confirmed : artifact_confirmed s = true → is_some (artifact_port s) = true;
  k_artifact : is_some (artifact_port s) = true →
    spec_version s = launched_with_spec_version s ∧ sus = true ∧ pod_running s = false;
  k_run_failures : pod_running s = true → consecutive_failures s = 0;
  k_completed : completed s = true →
    pod_id s = None ∧ in_backoff s = false ∧ run_policy s = RunJob;
}.

(** A wanted pod is missing only while its artifact awaits confirmation. *)
Definition wants_ok (s : WorkloadSm) : Prop :=
  wants_pod s = true → pod_id s = None →
  is_some (artifact_port s) = true ∧ artifact_confirmed s = false.

(** A status not yet told is that of a pod just dropped or just created. *)
Definition inv (g : world) : Prop :=
  core (seen g) (pod g) (intent g) (suspend_on_idle (sm g)) (sm g) ∧ wants_ok (sm g) ∧
  (seen g = option_list (pod g) ∨ pod g = None ∨ pod g = Some Pending).

(** [core] of a machine and its context in the middle of a handler: no pod was
    created yet, and the running flag is not older than the pod.  [sus] is the
    suspension policy the invariant is stated for, [now] the machine's current one:
    they differ while a new spec is being applied. *)
Definition pod_of (p : option PodStatus) (r : WorkloadSm * WorkloadCtx) : option PodStatus :=
  match pod_id r.1, c_pod_creates r.2 with
  | None, _ => None
  | Some _, [] => p
  | Some _, _ => Some Pending
  end.

Record mid_sus (told : list PodStatus) (p : option PodStatus) (it : PodIntent)
    (sus now : bool) (r : WorkloadSm * WorkloadCtx) : Prop := {
  m_core : core told (pod_of p r) (default it (c_pod_intent r.2)) sus r.1;
  m_creates : c_pod_creates r.2 = [];
  m_now : suspend_on_idle r.1 = now;
  m_fresh : pod_running r.1 = true → is_some (pod_id r.1) = true → p = Some Running;
}.
Definition done_with (told : list PodStatus) (p : option PodStatus) (it : PodIntent)
    (r : WorkloadSm * WorkloadCtx) : Prop :=
  core told (pod_of p r) (default it (c_pod_intent r.2)) (suspend_on_idle r.1) r.1 ∧
  wants_ok r.1.

Context (Hretries : 0 < retries < u32_max).

(** Open a [mid_sus] hypothesis with the pod id decided; close the fields of the
    resulting one. *)
Ltac open_mid H :=
  let s := fresh "s" in let c := fresh "c" in let Hcr := fresh "Hcr" in
  let Hid := fresh "Hid" in
  match type of H with mid_sus _ _ _ _ _ ?w => destruct w as [s c] end;
  destruct H as [[] Hcr ? ?];
  unfold pod_of in *; simpl in *; destruct (pod_id s) eqn:Hid; rewrite ?Hcr in *; simpl in *.
Ltac close_field :=
  solve [ assumption | lia | congruence | done
        | intros; exfalso; first [congruence | lia]
        | intros; simpl in *; intuition (first [congruence | lia | discriminate]) ].
Ltac close_mid :=
  lazymatch goal with
  | |- mid_sus _ _ _ _ _ _ => split; [split|..]
  | |- core _ _ _ _ _ => split
  end; unfold pod_of; simpl;
  repeat match goal with
         | H : pod_id ?s = _ |- context [pod_id ?s] => rewrite H
         | H : c_pod_creates ?c = _ |- context [c_pod_creates ?c] => rewrite H
         | H : c_pod_intent ?c = _ |- context [c_pod_intent ?c] => rewrite H
         end; simpl; try close_field.

Ltac close_wants :=
  let H := fresh in let H' := fresh in
  intros H H'; simpl in H, H' |- *; solve [congruence | split; congruence].

(** ** Steps inside a handler keep [core] *)
Lemma mid_clear told p it sus now :
  triple (mid_sus told p it sus now) clear_artifact_ref (mid_sus told p it sus now).
Proof. apply triple_keep_when. intros w H. unfold_act. open_mid H; close_mid. Qed.

Lemma mid_emit told p it sus now f :
  (∀ c, c_pod_intent (f c) = c_pod_intent c) → (∀ c, c_pod_creates (f c) = c_pod_creates c) →
  triple (mid_sus told p it sus now) (emit f) (mid_sus told p it sus now).
Proof.
  intros Hi Hc [s c] [Hk Hcr Hn Hf]. split; [|by rewrite <- Hcr; apply Hc|done|done].
  unfold pod_of in *; simpl in *. by rewrite Hi, Hc.
Qed.

(** Dropping the pod edge. *)
Definition drop_pod : wact :=
  set_pod_ownership_edges [] ⨾ set_pod_intent IntentNone ⨾
  upd (λ s, {| s with pod_id := None |}).

Lemma mid_drop told p it sus now :
  triple (λ w, mid_sus told p it sus now w ∧ awaiting_suspend w.1 = false)
         drop_pod (mid_sus told p it sus now).
Proof. intros w [H Ha]. unfold drop_pod; unfold_act. open_mid H; close_mid. Qed.

Lemma core_dead_awaiting told p it sus s :
  core told p it sus s → dead_pod p = true → awaiting_suspend s = false.
Proof.
  intros H Hd. apply not_true_is_false. intros [[-> | ->] _]%(k_awaiting _ _ _ _ _ H); done.
Qed.

Lemma core_retained told p it sus s :
  core told p it sus s → retained_dead s = true → dead_pod p = true.
Proof.
  intros H [_ [?|Hf%Z.leb_le]%orb_true_iff]%andb_true_iff; [by eapply k_backoff|].
  eapply k_failed; [done|]. by rewrite <- (k_retries _ _ _ _ _ H).
Qed.

Lemma core_alive told st it sus s :
  core told (Some st) it sus s → is_terminal st = false →
  in_backoff s = false ∧ consecutive_failures s < retries ∧ completed s = false.
Proof.
  intros [] Ht. split_and!.
  - apply not_true_is_false. intros Hb%k_backoff0. by destruct st.
  - apply Z.nle_gt. intros Hb%k_failed0. by destruct st.
  - apply not_true_is_false. intros [E _]%k_completed0. by rewrite E in k_pod0.
Qed.

Lemma mid_reap told p it sus now :
  triple (mid_sus told p it sus now) reap_retained_pod (mid_sus told p it sus now).
Proof.
  apply triple_when; [|done]. apply (triple_weaken _ _ _ _ (mid_drop told p it sus now)).
  intros w [H Hd]. split; [done|].
  eapply core_dead_awaiting, core_retained, Hd; apply H.
Qed.

(** Everything [destroy_current_pod] leaves behind. *)
Definition emptied (s : WorkloadSm) : Prop :=
  pod_id s = None ∧ artifact_port s = None ∧ awaiting_suspend s = false.

Lemma mid_drop_any told p it sus now :
  triple (mid_sus told p it sus now) (when (λ s, is_some (pod_id s)) drop_pod)
         (λ w, mid_sus told p it sus now (upd (λ s, {| s with awaiting_suspend := false |}) w) ∧
               pod_id w.1 = None).
Proof.
  apply triple_when.
  - intros w [H Hs]. open_mid H; [|done]. unfold drop_pod, set_pod_ownership_edges, set_pod_intent.
    unfold_act; simpl. split; [close_mid|done].
  - intros w H Hs. open_mid H; [done|]. unfold upd; simpl. split; [close_mid|done].
Qed.

Lemma mid_destroy told p it sus now :
  triple (mid_sus told p it sus now) destroy_current_pod
         (λ w, mid_sus told p it sus now w ∧ emptied w.1).
Proof.
  eapply triple_seq; [apply mid_drop_any|].
  apply (triple_seq _ (λ w, mid_sus told p it sus now w ∧ pod_id w.1 = None ∧
                            awaiting_suspend w.1 = false)); [by intros w []|].
  apply (triple_seq _ (λ w, mid_sus told p it sus now w ∧ emptied w.1)).
  { intros w (H & Hid & Haw). split; [by apply mid_clear|].
    unfold clear_artifact_ref, when. destruct (artifact_port w.1) eqn:Ha; by split_and!. }
  intros w [H He]. split; [|done]. by repeat apply mid_emit.
Qed.

(** Forgetting failures, as demand, spec and admin inputs do. *)
Lemma mid_forget told p it sus now f :
  (∀ s, f s = {| s with committed_to_boot := committed_to_boot (f s);
                        restart_count := restart_count (f s);
                        consecutive_failures := 0; in_backoff := false;
                        completed := false |}) →
  triple (mid_sus told p it sus now) (upd f) (mid_sus told p it sus now).
Proof.
  intros Hf w H. unfold upd. open_mid H; simpl; rewrite Hf; close_mid.
Qed.

(** Fields the invariant does not speak of. *)
Lemma mid_frame told p it sus now f :
  (∀ s, f s = {| s with has_spec := has_spec (f s); has_demand := has_demand (f s);
                        committed_to_boot := committed_to_boot (f s);
                        current_pod_spec := current_pod_spec (f s);
                        pod_worker_id := pod_worker_id (f s);
                        pod_ip := pod_ip (f s); endpoint_id := endpoint_id (f s);
                        last_exit_code := last_exit_code (f s);
                        last_failure_reason := last_failure_reason (f s);
                        respects_demand := respects_demand (f s) |}) →
  triple (mid_sus told p it sus now) (upd f) (mid_sus told p it sus now).
Proof.
  intros Hf w H. unfold upd. open_mid H; simpl; rewrite Hf; close_mid.
Qed.

Lemma want_pod_inv s :
  want_pod s = true →
  in_backoff s = false ∧ consecutive_failures s < max_retries s ∧ completed s = false.
Proof.
  unfold want_pod. rewrite !andb_true_iff, !negb_true_iff, Z.leb_gt. tauto.
Qed.

(** [reconcile] restores the whole invariant. *)
Lemma mid_reconcile told p it now :
  triple (mid_sus told p it now now) reconcile (done_with told p it).
Proof.
  intros w H. unfold reconcile, create_pod, drop_pod, set_pod_ownership_edges,
    set_pod_intent, set_readiness, set_placement.
  open_mid H; unfold reading; simpl; destruct (awaiting_suspend s) eqn:Haw; unfold_act; simpl.
  - split; [close_mid|close_wants].
  - rewrite Hid; simpl.
    destruct (want_pod s) eqn:Hw; simpl; [split; [close_mid|close_wants]|].
    destruct (pod_running s) eqn:Hr; simpl.
    + destruct (suspend_on_idle s) eqn:Hs; simpl; (split; [close_mid|close_wants]).
    + destruct (in_backoff s) eqn:?, (max_retries s <=? consecutive_failures s) eqn:?; simpl;
        (split; [close_mid|close_wants]).
  - exfalso. destruct k_awaiting0 as [[]]; done.
  - rewrite Hid; simpl. destruct (want_pod s) eqn:Hw; simpl.
    + apply want_pod_inv in Hw as (?&?&?).
      destruct (is_some (artifact_port s)) eqn:Hp, (artifact_confirmed s) eqn:Hc; simpl;
        (split; [close_mid|close_wants]).
    + split; [close_mid|close_wants].
Qed.

Lemma done_emit told p it f :
  (∀ c, c_pod_intent (f c) = c_pod_intent c) → (∀ c, c_pod_creates (f c) = c_pod_creates c) →
  triple (done_with told p it) (emit f) (done_with told p it).
Proof.
  intros Hi Hc [s c] [Hk Hw]. split; [|done].
  unfold pod_of in *; simpl in *. by rewrite Hi, Hc.
Qed.

Lemma done_timers told p it : triple (done_with told p it) update_timer_signal (done_with told p it).
Proof. intros w. by apply done_emit. Qed.

Lemma done_status told p it : triple (done_with told p it) update_status_signals (done_with told p it).
Proof. intros w. by apply done_emit. Qed.

Lemma done_settle told p it now :
  triple (mid_sus told p it now now) (reconcile ⨾ update_timer_signal) (done_with told p it).
Proof. eapply triple_seq; [apply mid_reconcile|apply done_timers]. Qed.

(** ** The external inputs *)
Lemma demand_ok told p it now d :
  triple (mid_sus told p it now now) (handle_demand d) (done_with told p it).
Proof.
  apply triple_reading. intros s0. eapply triple_weaken; [|by intros w [H _]; exact H].
  eapply triple_seq; [by apply mid_frame|].
  eapply triple_seq; [by apply triple_keep_when, mid_frame|].
  eapply triple_seq; [by apply triple_keep_when, mid_forget|].
  eapply triple_seq; [by apply triple_keep_when, mid_forget|].
  eapply triple_seq; [by apply mid_emit|]. apply done_settle.
Qed.

Lemma mid_done told p it now w :
  mid_sus told p it now now w → wants_ok w.1 → done_with told p it w.
Proof. intros [Hk _ <- _] Hw. by split. Qed.

(** The part of a handler behind a guard: nothing happens when it is false. *)
Lemma guarded_ok told p it now b f :
  triple (λ w, mid_sus told p it now now w ∧ b w.1 = true) f (done_with told p it) →
  triple (λ w, mid_sus told p it now now w ∧ wants_ok w.1) (when b f) (done_with told p it).
Proof.
  intros Hf. apply triple_when; [|by intros w [] _; eapply mid_done].
  by eapply triple_weaken; [exact Hf|intros w [[]]].
Qed.

Lemma admin_ok told p it now cmd :
  triple (λ w, mid_sus told p it now now w ∧ wants_ok w.1) (handle_admin cmd)
         (done_with told p it).
Proof.
  destruct cmd; simpl.
  - eapply triple_weaken; [|by intros w [H _]; exact H].
    eapply triple_seq; [by apply mid_forget|].
    eapply triple_seq; [apply mid_destroy|].
    eapply (triple_seq _ (mid_sus told p it now now)).
    { intros w [H (Hid & Ha & Hw)]. unfold upd. open_mid H; [done|]. rewrite Ha in *. close_mid. }
    eapply triple_seq; [apply mid_reconcile|].
    eapply triple_seq; [apply done_timers|apply done_status].
  - apply guarded_ok. eapply triple_weaken; [|by intros w [H _]; exact H].
    eapply triple_seq; [by apply mid_forget|].
    eapply triple_seq; [apply mid_clear|].
    eapply triple_seq; [apply mid_destroy|].
    eapply triple_weaken; [|by intros w [H _]; exact H].
    eapply triple_seq; [apply mid_reconcile|].
    eapply triple_seq; [apply done_timers|apply done_status].
Qed.

Lemma artifact_ok told p it now valid :
  triple (λ w, mid_sus told p it now now w ∧ wants_ok w.1 ∧ external w.1 (ArtifactInput valid))
         (handle_artifact valid) (done_with told p it).
Proof.
  eapply (triple_seq _ (done_with told p it));
    [|eapply triple_seq; [apply done_timers|apply done_status]].
  assert (Hdrop : triple (λ w, mid_sus told p it now now w ∧ wants_ok w.1)
    (when (λ s, is_some (artifact_port s))
        (upd (λ s, {| s with artifact_port := None; artifact_confirmed := false |}) ⨾
         set_workload_artifact_ref_edges [] ⨾ set_artifact_ref false ⨾ reconcile))
    (done_with told p it)).
  { apply guarded_ok. eapply triple_seq.
    { intros w [H Ha]. instantiate (1 := mid_sus told p it now now).
      unfold upd. open_mid H; close_mid. }
    eapply triple_seq; [by apply mid_emit|]. eapply triple_seq; [by apply mid_emit|].
    apply mid_reconcile. }
  destruct valid as [[]|];
    [|by eapply triple_weaken; [exact Hdrop|by intros w (?&?&?)]..].
  eapply triple_seq; [|apply mid_reconcile].
  intros w (H & _ & Ha). instantiate (1 := now). simpl in Ha.
  apply is_some_true in Ha. unfold upd. open_mid H; close_mid.
Qed.

Lemma timer_ok told p it now key :
  triple (λ w, mid_sus told p it now now w ∧ wants_ok w.1) (handle_timer_fired key)
         (done_with told p it).
Proof.
  destruct key; simpl; apply guarded_ok.
  - eapply triple_weaken; [|by intros w [H _]; exact H].
    eapply triple_seq; [apply mid_reap|].
    eapply triple_seq; [|apply done_settle].
    intros w H. instantiate (1 := now). unfold upd. open_mid H; close_mid.
  - eapply (triple_seq _ (mid_sus told p it now now)).
    { intros w [H [_ Hc%negb_true_iff]%andb_true_iff]. unfold upd. open_mid H; close_mid. }
    eapply triple_seq; [by apply mid_emit|]. eapply triple_seq; [by apply mid_emit|].
    apply done_settle.
Qed.

Lemma worker_ok told p it now workers :
  triple (λ w, mid_sus told p it now now w ∧ wants_ok w.1) (handle_pod_worker workers)
         (done_with told p it).
Proof.
  apply triple_when; [|by intros w [] _; eapply mid_done].
  eapply (triple_seq _ (done_with told p it)).
  { intros w [[H Hw] _]. apply (mid_done _ _ _ now); [|done].
    by apply (mid_frame told p it now now (λ s, {| s with pod_worker_id := _ |})). }
  eapply triple_seq; [by apply done_emit|].
  apply triple_keep_when, triple_reading. intros s w [H _]. by apply done_emit.
Qed.

(** *** Applying a spec *)
Lemma mid_sync told p it sus now spec :
  triple (mid_sus told p it sus now) (sync_endpoint spec) (mid_sus told p it sus now).
Proof.
  unfold sync_endpoint. destruct (ps_network _) as [n|]; [|apply triple_skip].
  eapply triple_seq; [|by apply mid_emit]. intros [s c] H.
  destruct (is_none (endpoint_id s)); [|done].
  apply (mid_frame told p it sus now (λ s, {| s with endpoint_id := Some (c_next_endpoint c) |})) in H;
    [|done].
  by apply (mid_emit told p it sus now (λ c0, {| c0 with
    c_next_endpoint := u64_add (c_next_endpoint c0) 1;
    c_endpoint_creates := c_endpoint_creates c0 ++
      [(c_next_endpoint c0, EndpointSm.new (wc_respects_demand (ws_config spec)))];
    c_workload_endpoint_ownership := Some [c_next_endpoint c0] |})) in H.
Qed.

Lemma mid_policy told p it sus now new rp s1 :
  triple (λ w, mid_sus told p it sus now w ∧ w.1 = s1)
    (upd (λ s, {| s with suspend_on_idle := new; run_policy := rp |}) ⨾
     when (λ s, bool_decide (run_policy s1 = RunJob) &&
               bool_decide (run_policy s = RunService) && completed s)
      (upd (λ s, {| s with completed := false |})))
    (mid_sus told p it sus new).
Proof.
  intros w [H <-]. unfold seq_act, when, upd; simpl.
  destruct rp; repeat case_bool_decide; try done; simpl;
    destruct (completed w.1) eqn:Hc; open_mid H; simpl; close_mid.
Qed.

(** With its version taken back, the machine of a bumped spec satisfies the
    invariant until the artifact is dropped. *)
Definition unbump : wact :=
  upd (λ s, {| s with spec_version := launched_with_spec_version s |}).

Lemma mid_unbump told p it sus now w :
  mid_sus told p it sus now (unbump w) → artifact_port w.1 = None → mid_sus told p it sus now w.
Proof.
  intros H Ha. unfold unbump, upd in H. destruct w as [s c]; simpl in *.
  destruct H as [[] ? ? ?]. unfold pod_of in *; simpl in *. rewrite Ha in *.
  split; [split|..]; unfold pod_of; simpl; rewrite ?Ha; try done.
Qed.

Lemma spec_changed_ok told p it sus now :
  triple (mid_sus told p it sus now) on_pod_spec_changed (mid_sus told p it sus now).
Proof.
  set (Q := λ w, mid_sus told p it sus now (unbump w)).
  apply (triple_seq _ Q).
  { intros w H. unfold Q, unbump, upd; simpl. open_mid H; close_mid. }
  apply (triple_seq _ Q).
  { intros w H. unfold Q. apply mid_reap in H. unfold reap_retained_pod, when in *.
    change (retained_dead (unbump w).1) with (retained_dead w.1) in H.
    by destruct (retained_dead w.1). }
  apply (triple_seq _ Q).
  { intros w H. unfold Q.
    by apply (mid_forget told p it sus now (λ s, {| s with consecutive_failures := 0;
      restart_count := 0; in_backoff := false; completed := false |})) in H. }
  apply (triple_seq _ (mid_sus told p it sus now)).
  { intros w H. apply mid_clear in H. unfold clear_artifact_ref, when in *.
    change (artifact_port (unbump w).1) with (artifact_port w.1) in H.
    destruct (artifact_port w.1) eqn:Ha; simpl in *; by eapply mid_unbump. }
  apply triple_keep_when. intros w H. by apply mid_destroy.
Qed.

(** Withdrawing the suspension policy discards what it left behind. *)
Lemma mid_withdraw told p it now new :
  triple (mid_sus told p it now new)
    (when (λ s, now && negb (suspend_on_idle s))
      (when awaiting_suspend destroy_current_pod ⨾ clear_artifact_ref))
    (mid_sus told p it new new).
Proof.
  apply triple_when.
  - eapply (triple_seq _ (λ w, mid_sus told p it now new w ∧ awaiting_suspend w.1 = false)).
    { intros w [H _]. unfold when. destruct (awaiting_suspend w.1) eqn:Ha; [|done].
      apply mid_destroy in H as [H (_&_&He)]. done. }
    intros w [H Ha]. pose proof (mid_clear _ _ _ _ _ _ H) as H'. revert H'.
    unfold clear_artifact_ref, when. destruct (artifact_port w.1) eqn:Hp; simpl; intros H';
      destruct w as [s c]; destruct H' as [[] ? ? ?]; simpl in *;
      (split; [split|..]; simpl; try done; try congruence).
    by rewrite Hp.
  - intros w H Hb. rewrite (m_now _ _ _ _ _ _ H) in Hb. destruct H as [[] ? ? ?].
    destruct now, new; try done; (split; [split|..]; simpl; try done; close_field).
Qed.

Lemma apply_spec_ok told p it now spec :
  triple (mid_sus told p it now now) (apply_spec spec)
    (mid_sus told p it (wc_suspend_on_idle (ws_config spec)) (wc_suspend_on_idle (ws_config spec))).
Proof.
  eapply triple_seq; [by apply mid_frame|]. eapply triple_seq; [apply mid_sync|].
  eapply triple_seq; [by apply mid_frame|]. apply triple_reading. intros s1.
  apply (triple_pure _ _ _ (suspend_on_idle s1 = now)); [by intros w [H <-]; apply H|intros ->].
  apply triple_seq_assoc. eapply triple_seq; [apply mid_policy|].
  eapply triple_seq; [|apply mid_withdraw].
  apply triple_reading. intros s2. eapply triple_weaken; [|by intros w [H _]; exact H].
  eapply triple_seq; [by apply mid_frame|]. apply triple_keep_when, spec_changed_ok.
Qed.

(** A workload whose spec is withdrawn is on its way out: only its pod matters. *)
Lemma spec_ok told p it now spec_opt :
  triple (mid_sus told p it now now) (handle_spec spec_opt)
         (λ w, c_self_destruct w.2 = true ∨ done_with told p it w).
Proof.
  eapply triple_seq; [by apply mid_emit|].
  eapply (triple_seq _ (λ w, ∃ v, mid_sus told p it v v w)).
  { destruct spec_opt as [[m spec]|]; intros w H; eexists; [by eapply apply_spec_ok|done]. }
  intros w [v H]. unfold reading. destruct (has_spec w.1 && is_none spec_opt).
  - left. done.
  - right. revert w H. eapply triple_seq; [by apply mid_frame|].
    eapply triple_seq; [apply mid_reconcile|].
    eapply triple_seq; [apply done_timers|apply done_status].
Qed.

(** ** The pod statuses *)

(** What holds when a status is delivered: the invariant of the old status and of
    an empty context. *)
Record entered (old : list PodStatus) (p : option PodStatus) (it : PodIntent) (now : bool)
    (w : WorkloadSm * WorkloadCtx) : Prop := {
  e_core : core old p it now w.1;
  e_now : suspend_on_idle w.1 = now;
  e_creates : c_pod_creates w.2 = [];
  e_intent : c_pod_intent w.2 = None;
}.

Definition set_running (b : bool) : wact := upd (λ s, {| s with pod_running := b |}).

(** The machine a lost pod will leave behind satisfies the invariant. *)
Definition lose : wact :=
  emit (λ c, {| c with c_pod_intent := Some IntentNone |}) ⨾
  upd (λ s, {| s with pod_id := None; awaiting_suspend := false |}).
Definition lost told p it now (w : WorkloadSm * WorkloadCtx) : Prop :=
  mid_sus told p it now now (lose w) ∧ in_backoff w.1 = false.

Lemma lost_enter old told st p it now :
  existsb is_running told = false → is_terminal st = false →
  triple (entered old (Some st) it now) (set_running false) (lost told p it now).
Proof.
  intros Hr Ht [s c] [Hk Hn Hc Hi]. destruct (core_alive _ _ _ _ _ Hk Ht) as (?&?&?).
  destruct Hk. unfold lost, lose, set_running; unfold_act. simpl in *. split; [close_mid|done].
Qed.

Lemma lost_emit told p it now f :
  (∀ c, c_pod_creates (f c) = c_pod_creates c) →
  triple (lost told p it now) (emit f) (lost told p it now).
Proof.
  intros Hc [s c] [[] Hb]. split; [|done]. unfold lose in *; unfold seq_act, emit, upd in *.
  split; simpl in *; try done. by rewrite Hc.
Qed.

Lemma lost_await told p it now :
  triple (lost told p it now) (upd (λ s, {| s with awaiting_suspend := false |}))
         (lost told p it now).
Proof. by intros w [H ?]. Qed.

Lemma lost_clear told p it now :
  triple (lost told p it now) clear_artifact_ref (lost told p it now).
Proof.
  intros w [H Hb]. pose proof (mid_clear _ _ _ _ _ _ H) as H'. revert H'.
  unfold lost, clear_artifact_ref, when.
  change (artifact_port (lose w).1) with (artifact_port w.1).
  by destruct (artifact_port w.1).
Qed.

(** The edge is dropped: the ghost has become the machine. *)
Lemma lost_drop told p it now f :
  (∀ s, f s = {| s with pod_id := None; last_exit_code := last_exit_code (f s) |}) →
  triple (λ w, lost told p it now w ∧ awaiting_suspend w.1 = false)
    (set_pod_intent IntentNone ⨾ upd f)
    (λ w, mid_sus told p it now now w ∧ in_backoff w.1 = false ∧ pod_id w.1 = None).
Proof.
  intros Hf [s c] [[[] Hb] Ha]. unfold lose in *. unfold set_pod_intent; unfold_act.
  simpl in *. destruct m_core0. unfold seq_act, emit, upd, pod_of in *; simpl in *.
  rewrite Hf. split; [close_mid|done].
Qed.

(** The common middle of the ways a pod is lost. *)
Definition losing told p it now (w : WorkloadSm * WorkloadCtx) : Prop :=
  lost told p it now w ∧ awaiting_suspend w.1 = false.

Lemma losing_emit told p it now f :
  (∀ c, c_pod_creates (f c) = c_pod_creates c) →
  triple (losing told p it now) (emit f) (losing told p it now).
Proof. intros Hf w [H ?]. split; [by apply lost_emit|done]. Qed.

Lemma losing_clear told p it now :
  triple (losing told p it now) clear_artifact_ref (losing told p it now).
Proof.
  intros w [H Ha]. split; [by apply lost_clear|].
  unfold clear_artifact_ref, when. by destruct (artifact_port w.1).
Qed.

Lemma displaced_ok old st it now :
  is_terminal st = false →
  triple (entered old (Some st) it now) (set_running false ⨾ on_pod_displaced)
         (done_with [Displaced] (Some Displaced) it).
Proof.
  intros Ht. eapply triple_seq; [by apply (lost_enter _ [Displaced])|].
  eapply (triple_seq _ (losing [Displaced] (Some Displaced) it now)); [by intros w []|].
  do 3 (eapply triple_seq; [by apply losing_emit|]).
  apply triple_seq_assoc. eapply triple_seq; [by apply lost_drop|].
  eapply triple_weaken; [|by intros w [H _]; exact H].
  eapply triple_seq; [by apply triple_keep_when, mid_frame|]. apply done_settle.
Qed.

Lemma finished_ok old st it now e :
  is_terminal st = false →
  triple (entered old (Some st) it now) (set_running false ⨾ on_pod_finished e)
         (done_with [Finished e] (Some (Finished e)) it).
Proof.
  intros Ht. eapply triple_seq; [by apply (lost_enter _ [Finished e])|].
  eapply (triple_seq _ (losing [Finished e] (Some (Finished e)) it now)); [by intros w []|].
  eapply triple_seq; [apply losing_clear|].
  do 3 (eapply triple_seq; [by apply losing_emit|]).
  apply triple_seq_assoc. eapply triple_seq; [by apply lost_drop|].
  eapply triple_seq; [|apply done_settle].
  apply triple_reading. intros s w [(H & Hb & Hid) <-]. case_decide as Hj.
  - instantiate (1 := now). unfold upd. open_mid H; [done|]. close_mid.
  - apply triple_keep_when; [by apply mid_frame|done].
Qed.

(** Only a pod told to suspend suspends, so the policy is on. *)
Lemma suspended_ok old it now a :
  triple (entered old (Some Suspending) it now) (set_running false ⨾ on_pod_suspended a)
         (done_with [Suspended a] (Some (Suspended a)) it).
Proof.
  apply (triple_pure _ _ _ (now = true)).
  { intros w [[] ? ? ?]. by apply k_awaiting0, k_suspending0. }
  intros ->. eapply triple_seq; [by apply (lost_enter _ [Suspended a])|].
  eapply (triple_seq _ (lost [Suspended a] (Some (Suspended a)) it true)).
  { apply triple_when; [|done]. apply (triple_seq _ (lost [Suspended a] (Some (Suspended a)) it true)).
    - intros [s c] [[[[] ? ? ?] Hb] Hv%Z.eqb_eq]. split; [|done].
      unfold lose, seq_act, emit, upd, pod_of in *. simpl in *. close_mid.
    - eapply triple_seq; by apply lost_emit. }
  eapply (triple_seq _ (losing [Suspended a] (Some (Suspended a)) it true)); [by intros w []|].
  do 3 (eapply triple_seq; [by apply losing_emit|]).
  apply triple_seq_assoc. eapply triple_seq; [by apply lost_drop|].
  eapply triple_weaken; [|by intros w [H _]; exact H]. apply mid_reconcile.
Qed.

Lemma failed_enter old st it now e r :
  is_terminal st = false →
  triple (entered old (Some st) it now)
    (set_running false ⨾ upd (λ s, {| s with awaiting_suspend := false |}))
    (λ w, mid_sus [PodFailed e r] (Some (PodFailed e r)) it now now w ∧
          consecutive_failures w.1 < retries ∧ in_backoff w.1 = false ∧
          is_some (pod_id w.1) = true).
Proof.
  intros Ht [s c] [Hk Hn Hc Hi]. destruct (core_alive _ _ _ _ _ Hk Ht) as (?&?&?).
  destruct Hk. unfold set_running; unfold_act. simpl in *.
  destruct (pod_id s) eqn:?; [|done]. split; [|by split]. close_mid.
Qed.

Lemma failed_ok old st it now e r :
  is_terminal st = false →
  triple (entered old (Some st) it now) (set_running false ⨾ on_pod_failed e r)
         (done_with [PodFailed e r] (Some (PodFailed e r)) it).
Proof.
  intros Ht. apply triple_seq_assoc. eapply triple_seq; [by apply failed_enter|].
  set (told := [PodFailed e r]). set (p := Some (PodFailed e r)).
  eapply (triple_seq _ (λ w, mid_sus told p it now now w ∧ consecutive_failures w.1 < retries ∧
                             in_backoff w.1 = false ∧ is_some (pod_id w.1) = true)).
  { intros w (H & ?). split; [by apply mid_clear|].
    unfold clear_artifact_ref, when. by destruct (artifact_port w.1). }
  do 2 (eapply (triple_seq _ (λ w, mid_sus told p it now now w ∧ consecutive_failures w.1 < retries ∧
                             in_backoff w.1 = false ∧ is_some (pod_id w.1) = true));
    [by intros w (H & ?); split; [by apply mid_emit|]|]).
  set (Q := λ w : WorkloadSm * WorkloadCtx,
              mid_sus told p it now now w ∧ is_some (pod_id w.1) = true).
  eapply (triple_seq _ Q).
  { intros w (H & Hf & Hb & Hid). split; [|done]. pose proof (k_failures _ _ _ _ _ (m_core _ _ _ _ _ _ H)).
    unfold upd. rewrite (u32_add_small (consecutive_failures w.1) 1) by lia.
    unfold p, told in *. open_mid H; [|done]. close_mid. }
  do 2 (eapply (triple_seq _ Q);
    [apply triple_keep_when; intros w []; split; [by apply mid_frame|done]|]).
  eapply triple_seq; [|apply done_settle].
  apply triple_reading. intros s w [[H Hid] <-]. destruct (_ && _) eqn:Hw.
  - instantiate (1 := now). unfold upd, p, told in *. open_mid H; [|done]. close_mid.
  - destruct (negb _); [|done]. cbv zeta iota. unfold seq_act. apply mid_reap.
    unfold upd, p, told in *. open_mid H; close_mid.
Qed.

Lemma running_enter old it now :
  triple (entered old (Some Pending) it now)
    (set_running true ⨾ upd (λ s, {| s with committed_to_boot := false;
                                            consecutive_failures := 0 |}) ⨾ clear_artifact_ref)
    (λ w, mid_sus [Running] (Some Running) it now now w ∧ is_some (pod_id w.1) = true).
Proof.
  intros [s c] [Hk Hn Hc Hi]. destruct (core_alive _ _ _ _ _ Hk eq_refl) as (?&?&?).
  destruct Hk. simpl in *. unfold clear_artifact_ref, set_running, seq_act, upd, when; simpl.
  destruct (pod_id s) eqn:?; [|done].
  destruct (artifact_port s) eqn:?; (split; [|done]);
    unfold set_workload_artifact_ref_edges, set_artifact_ref, emit; simpl in *; close_mid.
Qed.

Lemma running_ok old it now :
  triple (entered old (Some Pending) it now) (set_running true ⨾ on_pod_running)
         (done_with [Running] (Some Running) it).
Proof.
  change (set_running true ⨾ on_pod_running) with
    ((set_running true ⨾ upd (λ s, {| s with committed_to_boot := false;
                                             consecutive_failures := 0 |}) ⨾ clear_artifact_ref) ⨾
     reading (λ s,
       if negb (launched_with_spec_version s =? spec_version s) then destroy_current_pod ⨾ reconcile
       else if negb (effective_demand s) then reconcile else update_readiness)).
  eapply triple_seq; [apply running_enter|].
  apply triple_reading. intros s w [[H Hid] Hs]. destruct (negb _).
  { eapply triple_seq; [apply mid_destroy| |exact H]. intros w' [H' _]. by eapply mid_reconcile. }
  destruct (negb _); [by eapply mid_reconcile|].
  apply mid_done with now; [by apply mid_emit|]. intros _ E.
  change (pod_id w.1 = None) in E. by rewrite E in Hid.
Qed.

(** A status that changes nothing but the running flag. *)
Lemma quiet_enter old p st it now :
  (p = Some st ∨ p = Some Running ∧ st = Suspending ∧ it = IntentSuspend) →
  st = Pending ∨ st = Suspending →
  triple (entered old p it now) (set_running false) (mid_sus [st] (Some st) it now now).
Proof.
  intros Hp Hst [s c] [[] Hn Hc Hi]. unfold set_running, upd. simpl in *.
  destruct (pod_id s) eqn:?; destruct Hp as [->|(->&->&->)]; try done;
    [destruct Hst as [-> | ->]|]; close_mid.
Qed.

Lemma quiet_ok told p it now (b : bool) :
  triple (mid_sus told p it now now)
    (if b then set_readiness None ⨾ set_placement None ⨾ reconcile else reconcile)
    (done_with told p it).
Proof.
  destruct b; [|apply mid_reconcile].
  do 2 (eapply triple_seq; [by apply mid_emit|]). apply mid_reconcile.
Qed.

Lemma mid_unintent told p it sus now :
  triple (mid_sus told p it sus now) (set_pod_intent IntentNone) (mid_sus told p it sus now).
Proof. intros w H. unfold set_pod_intent, emit. open_mid H; close_mid. Qed.

Lemma gone_enter old p it now w :
  entered old p it now w →
  mid_sus [] None it now now
    (upd (λ s, {| s with pod_id := None; pod_worker_id := None; awaiting_suspend := false;
                         committed_to_boot := false |}) (set_running false w)).
Proof.
  destruct w as [s c]. intros [[] Hn Hc Hi]. unfold set_running, upd; simpl in *. close_mid.
Qed.

Lemma gone_ok old p it now :
  triple (entered old p it now)
    (set_running false ⨾ when (λ s, is_some (pod_id s)) on_pods_gone)
    (mid_sus [] None it now now).
Proof.
  intros w H. unfold seq_act, when. change (pod_id (set_running false w).1) with (pod_id w.1).
  destruct (pod_id w.1) eqn:Hid; simpl.
  - apply gone_enter in H. unfold on_pods_gone, seq_act.
    by apply mid_emit, mid_emit, mid_unintent, mid_emit.
  - destruct w as [s c], H as [[] Hn Hc Hi]. unfold set_running, upd; simpl in *.
    rewrite Hid in *. destruct p; [done|]. close_mid.
Qed.

(** What a delivered status can be, given the last one. *)
Inductive news (old : list PodStatus) (it : PodIntent) : option PodStatus → option PodStatus → Prop :=
  | news_gone p : news old it p None
  | news_created : news old it (Some Pending) (Some Pending)
  | news_moved st st' : old = [st] → PodSm.lifecycle st st' →
      (st' = Suspending → it = IntentSuspend) → news old it (Some st) (Some st').

Lemma handle_single st w :
  handle_pod_status [st] w =
  update_timer_signal (match st with
    | Suspended a => on_pod_suspended a
    | Running => if negb (pod_running w.1) then on_pod_running else reconcile
    | PodFailed e r => if is_some (pod_id w.1) then on_pod_failed e r
                       else if pod_running w.1 then
                         set_readiness None ⨾ set_placement None ⨾ reconcile else reconcile
    | Displaced => if is_some (pod_id w.1) then on_pod_displaced
                   else if pod_running w.1 then
                     set_readiness None ⨾ set_placement None ⨾ reconcile else reconcile
    | Finished e => if is_some (pod_id w.1) then on_pod_finished e
                    else if pod_running w.1 then
                      set_readiness None ⨾ set_placement None ⨾ reconcile else reconcile
    | _ => if pod_running w.1 then set_readiness None ⨾ set_placement None ⨾ reconcile
           else reconcile
    end (set_running (is_running st) w)).
Proof.
  unfold handle_pod_status, reading, seq_act at 1 2 3, when.
  assert (bool_decide ([st] = []) = false) as -> by by apply bool_decide_eq_false.
  destruct st; simpl; destruct (pod_id w.1), (pod_running w.1); done.
Qed.

Lemma handle_none w :
  handle_pod_status [] w =
  update_timer_signal ((if pod_running w.1 then
      set_readiness None ⨾ set_placement None ⨾ reconcile else reconcile)
    ((set_running false ⨾ when (λ s, is_some (pod_id s)) on_pods_gone) w)).
Proof.
  unfold handle_pod_status, reading, seq_act at 1 2 3. simpl. by destruct (pod_running w.1).
Qed.

Lemma status_ok old it now p p' :
  news old it p p' →
  triple (entered old p it now) (handle_pod_status (option_list p'))
         (done_with (option_list p') p' it).
Proof.
  intros Hn w H. destruct Hn as [p| |st st' -> Hl Hs]; simpl.
  - rewrite handle_none. by eapply done_timers, quiet_ok, gone_ok.
  - rewrite handle_single. simpl. eapply done_timers, quiet_ok, quiet_enter, H; by left.
  - rewrite handle_single. apply done_timers.
    assert (Hid : is_some (pod_id w.1) = true) by apply H.
    assert (Hr : pod_running w.1 = is_running st)
      by (destruct H as [[] _ _ _]; simpl in *; by rewrite orb_false_r in k_running0).
    rewrite Hid, Hr. destruct Hl as [| | |st e r Ht|st e Ht|st Ht];
      cbv beta iota delta [is_running negb].
    + exact (triple_run _ _ _ _ w (running_ok _ _ _) H).
    + eapply (quiet_ok _ _ _ _ true), quiet_enter, H; naive_solver.
    + exact (triple_run _ _ _ _ w (suspended_ok _ _ _ a) H).
    + exact (triple_run _ _ _ _ w (failed_ok _ _ _ _ e r Ht) H).
    + exact (triple_run _ _ _ _ w (finished_ok _ _ _ _ e Ht) H).
    + exact (triple_run _ _ _ _ w (displaced_ok _ _ _ _ Ht) H).
Qed.

(** ** The invariant along every run *)
Lemma external_ok told p it now i :
  match i with PodStatusInput _ => False | _ => True end →
  triple (λ w, mid_sus told p it now now w ∧ wants_ok w.1 ∧ external w.1 i) (handle i)
         (λ w, c_self_destruct w.2 = true ∨ done_with told p it w).
Proof.
  intros Hi w (H & Hw & Hx). destruct i; try done; simpl.
  - right. by eapply done_status, demand_ok.
  - by eapply spec_ok.
  - right. by eapply done_status, worker_ok.
  - right. by eapply admin_ok.
  - right. by eapply done_status, artifact_ok.
  - right. by eapply done_status, timer_ok.
Qed.

Lemma absorb_inv p told g r :
  told = option_list p → c_self_destruct r.2 = true ∨ done_with told p (intent g) r →
  gone (absorb p told g r) = true ∨ inv (absorb p told g r).
Proof.
  intros Ht [?|[Hk Hw]]; [by left|right]. split_and!; [exact Hk|exact Hw|].
  simpl. destruct (pod_id r.1); [|by auto]. destruct (c_pod_creates r.2); auto.
Qed.

Lemma inv_entered g : inv g → entered (seen g) (pod g) (intent g) (suspend_on_idle (sm g))
  (sm g, ctx_new wid (next_pod g) (next_ep g)).
Proof. by intros (? & ? & _). Qed.

Lemma inv_mid g :
  inv g → seen g = option_list (pod g) →
  mid_sus (seen g) (pod g) (intent g) (suspend_on_idle (sm g)) (suspend_on_idle (sm g))
    (sm g, ctx_new wid (next_pod g) (next_ep g)).
Proof.
  intros (Hk & Hw & _) Hs. split; simpl; try done.
  - assert (pod_of (pod g) (sm g, ctx_new wid (next_pod g) (next_ep g)) = pod g) as ->; [|done].
    unfold pod_of; simpl. pose proof (k_pod _ _ _ _ _ Hk). by destruct (pod_id _), (pod g).
  - intros Hr _. rewrite (k_running _ _ _ _ _ Hk), Hs in Hr. by destruct (pod g) as [[]|].
Qed.

Lemma status_step_inv g p :
  inv g → news (seen g) (intent g) (pod g) p → gone (status_step p g) = true ∨ inv (status_step p g).
Proof.
  intros H Hn. apply absorb_inv; [done|]. right.
  by eapply done_status, status_ok, inv_entered.
Qed.

Lemma step_inv g g' : inv g → step g g' → gone g' = true ∨ inv g'.
Proof.
  intros H Hs. destruct Hs as [g i _ Hseen Hx|g _ Hne|g st st' _ Hp Hseen Hl Hi|g st _ Hp Hseen].
  - apply absorb_inv; [done|]. eapply external_ok; [by destruct i|].
    split; [by apply inv_mid|]. split; [apply H|done].
  - apply status_step_inv; [done|]. destruct H as (_ & _ & [?|[->| ->]]); [done|constructor..].
  - apply status_step_inv; [done|]. rewrite Hp. by constructor.
  - apply status_step_inv; [done|]. constructor.
Qed.

Lemma init_inv : inv init.
Proof. split_and!; [split; simpl; try done; lia|done|by left]. Qed.

Lemma reachable_inv g : rtc step init g → gone g = false → inv g.
Proof.
  intros Hr Hg. enough (gone g = true ∨ inv g) as [?|?] by (done || congruence).
  revert Hr. assert (Hi : gone init = true ∨ inv init) by (right; apply init_inv). revert Hi.
  generalize init. intros g0 Hi Hr. induction Hr as [|x y z Hs Hr IH]; [done|].
  apply IH; [done|]. destruct Hi as [Hx|Hx]; [|by eapply step_inv].
  destruct Hs; congruence.
Qed.

(** ** Safety of every reachable workload *)

(** C2: retries are bounded: along every run the failure counter stays within the
    limit, a retry is pending only below it, and backoff or exhausted retries only
    ever coexist with a dead pod, so no pod is launched or kept alive while its
    workload is backing off or failed. *)
Theorem workload_retries_bounded g :
  rtc step init g → gone g = false →
  0 ≤ consecutive_failures (sm g) ≤ retries ∧
  (in_backoff (sm g) = true →
     dead_pod (pod g) = true ∧ consecutive_failures (sm g) < retries) ∧
  (consecutive_failures (sm g) = retries → dead_pod (pod g) = true) ∧
  (pod_running (sm g) = true → consecutive_failures (sm g) = 0).
Proof.
  intros Hr Hg. destruct (reachable_inv g Hr Hg) as [[] _].
  split_and!; [lia|lia|auto| |done]. intros E. apply k_failed0. lia.
Qed.



End World.

(** ** Concrete runs *)
Definition demo_spec (respects suspends : bool) : WorkloadSpec :=
  {| ws_pod_spec := {| ps_image := "img"; ps_network := None; ps_containers := [];
                       ps_resources := None; ps_volumes := [] |};
     ws_config := {| wc_suspend_on_idle := suspends; wc_run_policy := RunService;
                     wc_respects_demand := respects; wc_activation := None |} |}.

Definition demand (n : Z) : WorkloadInput :=
  DemandInput {| demand_count := n; endpoint_ids := [] |}.

Inductive move := Ext (i : WorkloadInput) | Refresh | Move (st : PodStatus).
Definition run1 (g : world) (m : move) : world :=
  match m with
  | Ext i => external_step 7 i g
  | Refresh => status_step 7 (pod g) g
  | Move st => status_step 7 (Some st) g
  end.
Definition allowed (g : world) (m : move) : Prop :=
  gone g = false ∧
  match m with
  | Ext i => seen g = option_list (pod g) ∧ external (sm g) i
  | Refresh => seen g ≠ option_list (pod g)
  | Move st' => ∃ st, pod g = Some st ∧ seen g = [st] ∧ PodSm.lifecycle st st' ∧
                      (st' = Suspending → intent g = IntentSuspend)
  end.
Fixpoint all_allowed (g : world) (l : list move) : Prop :=
  match l with [] => True | m :: l => allowed g m ∧ all_allowed (run1 g m) l end.

Lemma run_reachable l g : all_allowed g l → rtc (step 7) g (foldl run1 g l).
Proof.
  revert g. induction l as [|m l IH]; intros g; simpl; [done|]. intros [Hm Hl].
  eapply rtc_l; [|by apply IH]. destruct Hm as [Hg Hm]. destruct m; simpl.
  - by apply step_external; destruct Hm.
  - by apply step_refresh.
  - destruct Hm as (st' & ? & ? & ? & ?). by eapply step_pod.
Qed.

(** Boot on demand, run, go idle, suspend, wake up, resume from the artifact. *)
Definition suspend_run : list move :=
  [Ext (SpecInput (Some (0, demo_spec true true))); Ext (demand 1); Refresh; Move Running;
   Ext (demand 0); Move Suspending; Move (Suspended 3); Refresh; Ext (ArtifactInput (Some true));
   Ext (demand 1)].
(** An always-on workload fails once. *)
Definition fail_run : list move :=
  [Ext (SpecInput (Some (0, demo_spec false false))); Refresh; Move (PodFailed None "boom")].

Ltac run_allowed :=
  repeat (split; [vm_compute; first [done
    | by split_and!; [..|eexists]
    | split; [done|]; eexists; split_and!; [done|done|constructor|done]]|]); done.

Example suspend_run_ok : all_allowed (init 5) suspend_run.
Proof. run_allowed. Qed.

Lemma workload_retries_bounded_witness :
  consecutive_failures (sm (foldl run1 (init 5) fail_run)) = 1 ∧
  0 ≤ consecutive_failures (sm (foldl run1 (init 5) fail_run)) ≤ 5.
Proof.
  split; [vm_compute; done|]. apply (workload_retries_bounded 7 5); [by vm_compute| |by vm_compute].
  apply run_reachable. run_allowed.
Defined.



(** An always-on workload that is told its demand is zero while it backs off
    forgets the failure but keeps the dead pod: nothing will wake it up again. *)
Example always_on_stuck :
  let g := foldl run1 (init 5) (fail_run ++ [Ext (demand 0)]) in
  rtc (step 7) (init 5) g ∧ seen g = option_list (pod g) ∧
  pod g = Some (PodFailed None "boom") ∧ wants_pod (sm g) = true ∧
  wanted_timers (sm g) = [] ∧ status_of (sm g) = WlLaunching.
Proof. split; [apply run_reachable; run_allowed|by vm_compute]. Qed.

End WorkloadInv.
