(* ===== verification/WorkloadSignals.v ===== *)
(** * What a workload publishes, under arbitrary inputs

    The theorems of this file hold of the workload machine for every sequence of
    inputs, also those its environment never produces: the published status,
    failure count, staleness and wanted timers are those of the state, and a
    workload removes itself exactly when its spec is withdrawn. *)

From S2P Require Import Prelude SmTypes Pod Endpoint Workload.

Module WorkloadSignals.
Import Aggregators WorkloadSm.

Abbreviation wst := (WorkloadSm * WorkloadCtx)%type.

Definition timers_told (w : wst) : Prop :=
  default [] (c_wanted_timers w.2) = wanted_timers w.1.
Definition status_told (w : wst) : Prop :=
  c_status w.2 = Some (status_of w.1) ∧
  c_consecutive_failures w.2 = Some (consecutive_failures w.1) ∧
  c_spec_stale w.2 = Some (spec_stale w.1).
Definition told (w : wst) : Prop :=
  c_self_destruct w.2 = true ∨ timers_told w ∧ status_told w.

(** ** Publishing last publishes what holds *)
Lemma triple_top (P : wst → Prop) f : triple P f (λ _, True).
Proof. by intros w _. Qed.

Lemma timers_published P : triple P update_timer_signal timers_told.
Proof. by intros w _. Qed.

Lemma status_published : triple timers_told update_status_signals told.
Proof. intros w H. right. by split. Qed.

Ltac publish :=
  lazymatch goal with
  | |- triple _ update_timer_signal _ => apply timers_published
  | |- triple _ (update_timer_signal ⨾ update_status_signals) _ =>
      eapply triple_seq; [apply timers_published|apply status_published]
  | |- triple _ (_ ⨾ _) _ => eapply (triple_seq _ (λ _, True)); [apply triple_top|publish]
  | |- triple _ (reading _) _ => apply triple_reading; intros ?; publish
  end.

Lemma demand_timers d : triple (λ _, True) (handle_demand d) timers_told.
Proof. unfold handle_demand. publish. Qed.

Lemma pod_status_timers l : triple (λ _, True) (handle_pod_status l) timers_told.
Proof. unfold handle_pod_status. publish. Qed.

Lemma worker_timers l : triple timers_told (handle_pod_worker l) timers_told.
Proof.
  apply triple_keep_when. do 2 (eapply (triple_seq _ timers_told); [by intros w H|]).
  apply triple_keep_when. by intros w H.
Qed.

Lemma timer_timers key : triple timers_told (handle_timer_fired key) timers_told.
Proof. destruct key; apply triple_when; try done; publish. Qed.

Lemma artifact_timers v : triple (λ _, True) (handle_artifact v) timers_told.
Proof.
  unfold handle_artifact. eapply (triple_seq _ (λ _, True)); [apply triple_top|].
  eapply triple_seq; [apply timers_published|]. by intros w H.
Qed.

Lemma admin_told cmd : triple told (handle_admin cmd) told.
Proof.
  destruct cmd; simpl; [publish|]. apply triple_when; [publish|done].
Qed.

Lemma spec_told o : triple (λ _, True) (handle_spec o) told.
Proof.
  unfold handle_spec. do 2 (eapply (triple_seq _ (λ _, True)); [apply triple_top|]).
  apply triple_reading. intros s. destruct (_ && _); [|publish].
  intros w _. by left.
Qed.

(** ** Self destruction *)
Definition calm (f : wact) : Prop := ∀ w, c_self_destruct (f w).2 = c_self_destruct w.2.

Lemma calm_seq f g : calm f → calm g → calm (f ⨾ g).
Proof. intros Hf Hg w. unfold seq_act. by rewrite Hg. Qed.
Lemma calm_when b f : calm f → calm (when b f).
Proof. intros Hf w. unfold when. destruct (b w.1); [apply Hf|done]. Qed.
Lemma calm_reading k : (∀ s, calm (k s)) → calm (reading k).
Proof. intros Hk w. apply Hk. Qed.
Lemma calm_upd f : calm (upd f).
Proof. done. Qed.
Lemma calm_emit f : (∀ c, c_self_destruct (f c) = c_self_destruct c) → calm (emit f).
Proof. intros Hf w. apply Hf. Qed.

(** Follow the structure of a handler; the leaves are lemmas of [calm]. *)
Create HintDb calm.
Ltac calm :=
  lazymatch goal with
  | |- calm (_ ⨾ _) => apply calm_seq; calm
  | |- calm (when _ _) => apply calm_when; calm
  | |- calm (reading _) => apply calm_reading; intros ?; cbv beta zeta; calm
  | |- calm (match ?x with _ => _ end) => destruct x; calm
  | |- calm (upd _) => apply calm_upd
  | |- calm (emit _) => by apply calm_emit
  | |- calm skip => done
  | |- calm ?f => first [ solve [auto 2 with calm nocore] | progress unfold f; calm
                        | by apply calm_emit | by intros [] ]
  end.

Lemma calm_clear : calm clear_artifact_ref.
Proof. unfold clear_artifact_ref. calm. Qed.
#[local] Hint Resolve calm_clear : calm.
Lemma calm_destroy : calm destroy_current_pod.
Proof. unfold destroy_current_pod. calm. Qed.
Lemma calm_reap : calm reap_retained_pod.
Proof. unfold reap_retained_pod. calm. Qed.
Lemma calm_create p : calm (create_pod p).
Proof. by intros []. Qed.
#[local] Hint Resolve calm_destroy calm_reap calm_create : calm.
Lemma calm_reconcile : calm reconcile.
Proof. unfold reconcile. calm. Qed.
Lemma calm_sync spec : calm (sync_endpoint spec).
Proof.
  unfold sync_endpoint. destruct (ps_network _); [|done]. apply calm_seq; [|by apply calm_emit].
  intros [s c]. by destruct (is_none _).
Qed.
Lemma calm_status : calm update_status_signals.
Proof. by intros w. Qed.
Lemma calm_timers : calm update_timer_signal.
Proof. by intros w. Qed.
Lemma calm_readiness : calm update_readiness.
Proof. by intros w. Qed.
#[local] Hint Resolve calm_reconcile calm_sync calm_status calm_timers calm_readiness : calm.

Lemma calm_demand d : calm (handle_demand d).
Proof. unfold handle_demand. calm. Qed.
Lemma calm_apply_spec spec : calm (apply_spec spec).
Proof. unfold apply_spec, on_pod_spec_changed. calm. Qed.
#[local] Hint Resolve calm_apply_spec : calm.
Lemma calm_pod_status l : calm (handle_pod_status l).
Proof.
  unfold handle_pod_status, on_pods_gone, on_pod_suspended, on_pod_running, on_pod_failed,
    on_pod_displaced, on_pod_finished. calm.
Qed.
Lemma calm_worker l : calm (handle_pod_worker l).
Proof. unfold handle_pod_worker. calm. Qed.
Lemma calm_admin cmd : calm (handle_admin cmd).
Proof. unfold handle_admin. calm. Qed.
Lemma calm_artifact v : calm (handle_artifact v).
Proof. unfold handle_artifact. calm. Qed.
Lemma calm_timer key : calm (handle_timer_fired key).
Proof. unfold handle_timer_fired. calm. Qed.
#[local] Hint Resolve calm_demand calm_pod_status calm_worker calm_admin calm_artifact calm_timer : calm.

Lemma calm_present ms : calm (handle_spec (Some ms)).
Proof.
  unfold handle_spec. destruct ms as [m spec]. apply calm_seq; [by apply calm_emit|].
  apply calm_seq; [apply calm_apply_spec|]. apply calm_reading. intros s.
  change (is_none (Some (m, spec))) with false. rewrite andb_false_r. calm.
Qed.

Lemma handle_spec_removed w :
  handle_spec None w =
  let w' := emit (λ c, {| c with c_pod_launch_spec := Some None |}) w in
  if has_spec w.1 then
    (destroy_current_pod ⨾ upd (λ s, {| s with current_pod_spec := None |}) ⨾ self_destruct) w'
  else (upd (λ s, {| s with has_spec := false |}) ⨾ reconcile ⨾ update_timer_signal ⨾
        update_status_signals) w'.
Proof.
  unfold handle_spec, seq_act, reading, skip; simpl. by destruct (has_spec w.1).
Qed.

Definition removed (i : WorkloadInput) : bool :=
  match i with SpecInput None => true | _ => false end.

Lemma self_destruct_handle i w :
  c_self_destruct (handle i w).2 = c_self_destruct w.2 || (removed i && has_spec w.1).
Proof.
  destruct i as [d|[ms|]|l|l|cmd|v|key]; unfold handle, removed; cbn [andb];
    rewrite ?orb_false_r.
  - apply calm_seq; [apply calm_demand|apply calm_status].
  - apply calm_present.
  - rewrite handle_spec_removed. destruct (has_spec w.1); [by rewrite orb_true_r|].
    rewrite orb_false_r. unfold seq_act. by rewrite calm_status, calm_timers, calm_reconcile.
  - apply calm_seq; [apply calm_pod_status|apply calm_status].
  - apply calm_seq; [apply calm_worker|apply calm_status].
  - apply calm_admin.
  - apply calm_seq; [apply calm_artifact|apply calm_status].
  - apply calm_seq; [apply calm_timer|apply calm_status].
Qed.

Lemma destroy_releases w :
  let w' := destroy_current_pod w in
  pod_id w'.1 = None ∧ artifact_port w'.1 = None ∧ awaiting_suspend w'.1 = false ∧
  (is_some (pod_id w.1) = true →
   c_pod_ownership w'.2 = Some [] ∧ c_pod_intent w'.2 = Some IntentNone) ∧
  c_readiness w'.2 = Some None ∧ c_placement w'.2 = Some None.
Proof.
  destruct w as [s c]. unfold destroy_current_pod, clear_artifact_ref, seq_act, when, upd, emit; simpl.
  destruct (pod_id s) eqn:Hp, (artifact_port s) eqn:Ha; simpl; rewrite ?Ha; simpl; split_and!; done.
Qed.

(** A workload removes itself on the withdrawal of a spec it had, and on no
    other input in no other state; it then lets go of its pod and artifact. *)
Theorem workload_self_destruct_iff i s id np ne :
  let w := handle i (s, ctx_new id np ne) in
  (c_self_destruct w.2 = true ↔ i = SpecInput None ∧ has_spec s = true) ∧
  (c_self_destruct w.2 = true →
   pod_id w.1 = None ∧ artifact_port w.1 = None ∧ awaiting_suspend w.1 = false ∧
   (is_some (pod_id s) = true →
    c_pod_ownership w.2 = Some [] ∧ c_pod_intent w.2 = Some IntentNone)).
Proof.
  intros w. assert (Hiff : c_self_destruct w.2 = true ↔ i = SpecInput None ∧ has_spec s = true).
  { unfold w. rewrite self_destruct_handle. simpl. rewrite andb_true_iff.
    destruct i as [|[]|? | | | |]; naive_solver. }
  split; [done|]. intros [-> Hs]%Hiff. unfold w. simpl handle. rewrite handle_spec_removed.
  cbv zeta. simpl has_spec. rewrite Hs.
  destruct (destroy_releases (emit (λ c, {| c with c_pod_launch_spec := Some None |})
    (s, ctx_new id np ne))) as (?&?&?&?&_). done.
Qed.

(** C4: under every sequence of inputs, after each of them, a workload that is not
    on its way out has published the status, the failure count and the staleness of
    its state, and asks the timer port for exactly the timers its state needs: the
    retry timer while it backs off, the confirmation timer while an artifact is
    unconfirmed. *)
Theorem workload_signals_coherent l id np ne :
  told (deliver l (boot id np ne)).
Proof.
  apply deliver_invariant; [|by right]. clear l. intros i w H.
  destruct H as [H|[Ht Hs]];
    [by left; unfold sm_handle; simpl; rewrite self_destruct_handle, H|].
  destruct i as [d|o|l|l|cmd|v|key].
  - by apply status_published, demand_timers.
  - by apply spec_told.
  - by apply status_published, pod_status_timers.
  - by apply status_published, worker_timers.
  - apply admin_told. by right.
  - by apply status_published, artifact_timers.
  - by apply status_published, timer_timers.
Qed.

End WorkloadSignals.
