(* ===== verification/EdgeMap.v ===== *)
(** * The bidirectional edge map of the signal router
      ([crates/sm-router/src/edge_map.rs])

    [fwd] maps a source to its ordered targets, [rev] a target to the set of its
    sources.  [consistent] says that [rev] is exactly the inverse of [fwd] and that
    neither holds empty entries; every operation keeps it, so the router may use
    either index.  A [BTreeMap] is a [gmap]; where the source collects a [BTreeSet]
    into a vector the model sorts its elements with the order of the targets. *)

From S2P Require Import Prelude.

Module EdgeMap.
Section EdgeMap.
Context `{Countable Src} `{Countable Tgt}.
Context (le : relation Tgt) `{!RelDecision le}.

Record EdgeDiff := { added : list Tgt; removed : list Tgt }.
Definition all_changed (d : EdgeDiff) : list Tgt := removed d ++ added d.

Record EdgeMap := { fwd : gmap Src (list Tgt); rev : gmap Tgt (gset Src) }.

Definition new : EdgeMap := {| fwd := ∅; rev := ∅ |}.
Definition targets (m : EdgeMap) (source : Src) : option (list Tgt) := fwd m !! source.
Definition sources (m : EdgeMap) (target : Tgt) : option (gset Src) := rev m !! target.

(** [rev.entry(tgt).or_default().insert(source)] *)
Definition rev_insert (source : Src) (r : gmap Tgt (gset Src)) (tgt : Tgt) : gmap Tgt (gset Src) :=
  <[tgt := {[source]} ∪ default ∅ (r !! tgt)]> r.
(** [if let Some(sources) = rev.get_mut(tgt) { sources.remove(..); .. }] *)
Definition rev_remove (source : Src) (r : gmap Tgt (gset Src)) (tgt : Tgt) : gmap Tgt (gset Src) :=
  match r !! tgt with
  | Some sources =>
      let sources := sources ∖ {[source]} in
      if decide (sources = ∅) then delete tgt r else <[tgt := sources]> r
  | None => r
  end.

Definition from_fwd (fwd : gmap Src (list Tgt)) : EdgeMap :=
  {| fwd := fwd;
     rev := foldl (λ r p, foldl (rev_insert p.1) r p.2) ∅ (map_to_list fwd) |}.

(** Iterating a [BTreeSet] *)
Definition sorted (X : gset Tgt) : list Tgt := merge_sort le (elements X).

Definition set_edges (source : Src) (new_targets : list Tgt) (m : EdgeMap) :
    option EdgeDiff * EdgeMap :=
  if decide (new_targets = []) then
    match fwd m !! source with
    | Some old_targets =>
        let f := delete source (fwd m) in
        if decide (old_targets = []) then (None, {| fwd := f; rev := rev m |})
        else (Some {| added := []; removed := old_targets |},
              {| fwd := f; rev := foldl (rev_remove source) (rev m) old_targets |})
    | None => (None, m)
    end
  else
    let old_set : gset Tgt := list_to_set (default [] (fwd m !! source)) in
    let new_set : gset Tgt := list_to_set new_targets in
    let removed := sorted (old_set ∖ new_set) in
    let added := sorted (new_set ∖ old_set) in
    if decide (removed = [] ∧ added = []) then (None, m)
    else
      (Some {| added := added; removed := removed |},
       {| fwd := <[source := new_targets]> (fwd m);
          rev := foldl (rev_insert source) (foldl (rev_remove source) (rev m) removed) added |}).

(** [targets.retain(|t| t != target)], dropping an entry that becomes empty *)
Definition retain_target (target : Tgt) (f : gmap Src (list Tgt)) (source_id : Src) :
    gmap Src (list Tgt) :=
  match f !! source_id with
  | Some targets =>
      let targets := filter (.≠ target) targets in
      if decide (targets = []) then delete source_id f else <[source_id := targets]> f
  | None => f
  end.

Definition remove_target (target : Tgt) (m : EdgeMap) : EdgeMap :=
  match rev m !! target with
  | Some sources =>
      {| fwd := foldl (retain_target target) (fwd m) (elements sources);
         rev := delete target (rev m) |}
  | None => m
  end.

(** ** The two indices agree *)
Definition edge (m : EdgeMap) (s : Src) (t : Tgt) : Prop := t ∈ default [] (fwd m !! s).
Definition srcs (r : gmap Tgt (gset Src)) (t : Tgt) : gset Src := default ∅ (r !! t).

Record consistent (m : EdgeMap) : Prop := {
  con_edges : ∀ s t, s ∈ srcs (rev m) t ↔ edge m s t;
  con_rev : ∀ t, rev m !! t ≠ Some ∅;
  con_fwd : ∀ s, fwd m !! s ≠ Some [];
}.

Definition normal (r : gmap Tgt (gset Src)) : Prop := ∀ t, r !! t ≠ Some ∅.

(** *** The reverse index *)
Lemma rev_insert_spec s r t : normal r →
  normal (rev_insert s r t) ∧
  ∀ t', srcs (rev_insert s r t) t' = (if decide (t' = t) then {[s]} else ∅) ∪ srcs r t'.
Proof.
  intros Hn. unfold rev_insert, srcs. split.
  - intros t'. destruct (decide (t = t')) as [->|].
    + rewrite lookup_insert_eq. intros [= E]. set_solver.
    + rewrite lookup_insert_ne by done. apply Hn.
  - intros t'. case_decide; simplify_map_eq; set_solver.
Qed.

Lemma rev_remove_spec s r t : normal r →
  normal (rev_remove s r t) ∧
  ∀ t', srcs (rev_remove s r t) t' = srcs r t' ∖ (if decide (t' = t) then {[s]} else ∅).
Proof.
  intros Hn. unfold rev_remove, srcs. destruct (r !! t) as [ss|] eqn:E.
  2:{ split; [done|]. intros t'. case_decide; simplify_map_eq; set_solver. }
  cbv zeta. split.
  - intros t'. case_decide.
    + destruct (decide (t = t')) as [->|]; simplify_map_eq; [done|apply Hn].
    + destruct (decide (t = t')) as [->|]; simplify_map_eq; [congruence|apply Hn].
  - intros t'. repeat case_decide; simplify_map_eq; simpl; set_solver.
Qed.

Lemma foldl_rev_insert s ts r : normal r →
  normal (foldl (rev_insert s) r ts) ∧
  ∀ t, srcs (foldl (rev_insert s) r ts) t = (if decide (t ∈ ts) then {[s]} else ∅) ∪ srcs r t.
Proof.
  revert r. induction ts as [|t0 ts IH]; intros r Hn; cbn [foldl].
  { split; [done|]. intros t. case_decide; set_solver. }
  destruct (rev_insert_spec s r t0 Hn) as [Hn' Hs]. destruct (IH _ Hn') as [Hn'' Hs'].
  split; [done|]. intros t. rewrite Hs', Hs. repeat case_decide; set_solver.
Qed.

Lemma foldl_rev_remove s ts r : normal r →
  normal (foldl (rev_remove s) r ts) ∧
  ∀ t, srcs (foldl (rev_remove s) r ts) t = srcs r t ∖ (if decide (t ∈ ts) then {[s]} else ∅).
Proof.
  revert r. induction ts as [|t0 ts IH]; intros r Hn; cbn [foldl].
  { split; [done|]. intros t. case_decide; set_solver. }
  destruct (rev_remove_spec s r t0 Hn) as [Hn' Hs]. destruct (IH _ Hn') as [Hn'' Hs'].
  split; [done|]. intros t. rewrite Hs', Hs. repeat case_decide; set_solver.
Qed.

Lemma elem_of_sorted X t : t ∈ sorted X ↔ t ∈ X.
Proof. unfold sorted. rewrite merge_sort_Permutation. set_solver. Qed.

Lemma sorted_nil X : sorted X = [] ↔ X = ∅.
Proof.
  split.
  - intros E. apply set_eq. intros t. rewrite <- elem_of_sorted, E. set_solver.
  - intros ->. done.
Qed.

Lemma elem_rev_insert s s' ts r t : normal r →
  s' ∈ srcs (foldl (rev_insert s) r ts) t ↔ s' = s ∧ t ∈ ts ∨ s' ∈ srcs r t.
Proof. intros Hn. rewrite (proj2 (foldl_rev_insert s ts r Hn)). case_decide; set_solver. Qed.

Lemma elem_rev_remove s s' ts r t : normal r →
  s' ∈ srcs (foldl (rev_remove s) r ts) t ↔ s' ∈ srcs r t ∧ ¬ (s' = s ∧ t ∈ ts).
Proof. intros Hn. rewrite (proj2 (foldl_rev_remove s ts r Hn)). case_decide; set_solver. Qed.

Lemma difference_nil (l1 l2 : list Tgt) :
  sorted (list_to_set l1 ∖ list_to_set l2) = [] ↔ ∀ t, t ∈ l1 → t ∈ l2.
Proof.
  rewrite sorted_nil. split; [|set_solver]. intros E t Ht. destruct (decide (t ∈ l2)); [done|].
  assert (t ∈ (∅ : gset Tgt)) as []%elem_of_empty. rewrite <- E. set_solver.
Qed.

(** *** The forward index *)
Lemma retain_spec t f s s' :
  default [] (retain_target t f s !! s') =
  (if decide (s' = s) then filter (.≠ t) (default [] (f !! s')) else default [] (f !! s')).
Proof.
  unfold retain_target. destruct (f !! s) as [ts|] eqn:E.
  - cbv zeta. repeat case_decide; simplify_map_eq; done.
  - case_decide; simplify_map_eq; done.
Qed.

Lemma retain_normal t f s :
  (∀ s, f !! s ≠ Some []) → ∀ s', retain_target t f s !! s' ≠ Some [].
Proof.
  intros Hn s'. unfold retain_target. destruct (f !! s) as [ts|] eqn:E; [|done].
  cbv zeta. case_decide; destruct (decide (s = s')) as [->|]; simplify_map_eq; try done. congruence.
Qed.

Lemma foldl_retain t ss f s' :
  default [] (foldl (retain_target t) f ss !! s') =
  (if decide (s' ∈ ss) then filter (.≠ t) (default [] (f !! s')) else default [] (f !! s')).
Proof.
  revert f. induction ss as [|s ss IH]; intros f; cbn [foldl]; [by case_decide; [set_solver|]|].
  rewrite IH, retain_spec. repeat case_decide; try set_solver.
  rewrite list_filter_filter. apply list_filter_iff. set_solver.
Qed.

Lemma foldl_retain_normal t ss f :
  (∀ s, f !! s ≠ Some []) → ∀ s', foldl (retain_target t) f ss !! s' ≠ Some [].
Proof.
  revert f. induction ss as [|s ss IH]; intros f Hn; [done|]. by apply IH, retain_normal.
Qed.

(** Two normal reverse indices with the same sources are equal. *)
Lemma normal_ext r1 r2 : normal r1 → normal r2 → (∀ t, srcs r1 t = srcs r2 t) → r1 = r2.
Proof.
  intros H1 H2 He. apply map_eq. intros t. specialize (H1 t). specialize (H2 t).
  specialize (He t). unfold srcs in He.
  destruct (r1 !! t), (r2 !! t); simpl in *; congruence.
Qed.

Lemma from_fwd_srcs (l : list (Src * list Tgt)) r : normal r →
  let r' := foldl (λ r p, foldl (rev_insert p.1) r p.2) r l in
  normal r' ∧ ∀ s t, s ∈ srcs r' t ↔ s ∈ srcs r t ∨ ∃ ts, (s, ts) ∈ l ∧ t ∈ ts.
Proof.
  revert r. induction l as [|[s0 ts0] l IH]; intros r Hn r'; subst r'; cbn [foldl].
  { split; [done|]. set_solver. }
  destruct (foldl_rev_insert s0 ts0 r Hn) as [Hn' Hs]. destruct (IH _ Hn') as [Hn'' Hs'].
  split; [done|]. intros s t. rewrite Hs'. simpl. rewrite Hs. case_decide; set_solver.
Qed.

Lemma from_fwd_consistent f : (∀ s, f !! s ≠ Some []) → consistent (from_fwd f).
Proof.
  intros Hf. destruct (from_fwd_srcs (map_to_list f) ∅) as [Hn Hs]; [by intros t; rewrite lookup_empty|].
  split; [|exact Hn|exact Hf]. intros s t. unfold from_fwd at 1; simpl. rewrite Hs.
  unfold edge, srcs; simpl. rewrite lookup_empty; simpl. setoid_rewrite elem_of_map_to_list.
  destruct (f !! s); simpl; set_solver.
Qed.

Lemma set_edges_consistent s ts m : consistent m → consistent (set_edges s ts m).2.
Proof.
  intros [He Hr Hf]. unfold set_edges. case_decide as Hts.
  - destruct (fwd m !! s) as [old|] eqn:Eo; [|done]. case_decide as Ho; [by subst; destruct (Hf s)|].
    simpl. destruct (foldl_rev_remove s old (rev m) Hr) as [Hn _].
    split; simpl; [|done|].
    + intros s' t. rewrite elem_rev_remove, He by done. unfold edge; simpl.
      destruct (decide (s' = s)) as [->|].
      * rewrite lookup_delete_eq, Eo; simpl. rewrite elem_of_nil. tauto.
      * rewrite lookup_delete_ne by done. tauto.
    + intros s'. destruct (decide (s = s')) as [->|]; simplify_map_eq; [done|apply Hf].
  - cbv zeta. case_decide as Hc; [done|]. simpl.
    destruct (foldl_rev_remove s (sorted (list_to_set (default [] (fwd m !! s)) ∖ list_to_set ts))
      (rev m) Hr) as [Hn1 _].
    split; simpl; [|by apply foldl_rev_insert|].
    + intros s' t. rewrite elem_rev_insert, elem_rev_remove, !elem_of_sorted, He by done.
      rewrite !elem_of_difference, !elem_of_list_to_set. unfold edge; simpl.
      destruct (decide (s' = s)) as [->|].
      * rewrite lookup_insert_eq; simpl. destruct (decide (t ∈ ts)), (decide (t ∈ default [] (fwd m !! s))); tauto.
      * rewrite lookup_insert_ne by done. tauto.
    + intros s'. destruct (decide (s = s')) as [->|]; simplify_map_eq; [congruence|apply Hf].
Qed.

Lemma remove_target_consistent t m : consistent m → consistent (remove_target t m).
Proof.
  intros [He Hr Hf]. unfold remove_target. destruct (rev m !! t) as [ss|] eqn:Et; [|done].
  assert (Hss : ∀ s, s ∈ ss ↔ edge m s t) by (intros s; rewrite <- He; unfold srcs; by rewrite Et).
  split; simpl.
  - intros s t'. unfold edge, srcs; simpl. rewrite foldl_retain.
    destruct (decide (t = t')) as [<-|].
    + rewrite lookup_delete_eq; simpl. case_decide as Hs; rewrite elem_of_elements in Hs;
        [rewrite list_elem_of_filter|rewrite Hss in Hs; unfold edge in Hs];
        (split; [by intros ?%elem_of_empty|tauto]).
    + rewrite lookup_delete_ne by done. fold (srcs (rev m) t'). rewrite He. unfold edge.
      case_decide; [|done]. rewrite list_elem_of_filter.
      split; [by intros ?|by intros []].
  - intros t'. destruct (decide (t = t')) as [<-|]; simplify_map_eq; [done|apply Hr].
  - by apply foldl_retain_normal.
Qed.

(** ** Operations of the router on a map *)
Inductive edge_op := SetEdges (s : Src) (ts : list Tgt) | RemoveTarget (t : Tgt).
Definition run_op (m : EdgeMap) (o : edge_op) : EdgeMap :=
  match o with
  | SetEdges s ts => (set_edges s ts m).2
  | RemoveTarget t => remove_target t m
  end.

Lemma runs_consistent l m : consistent m → consistent (foldl run_op m l).
Proof.
  revert m. induction l as [|[s ts|t] l IH]; intros m Hm; [done|..]; apply IH; simpl;
    eauto using set_edges_consistent, remove_target_consistent.
Qed.

Lemma new_consistent : consistent new.
Proof. split; intros; unfold edge, srcs; simpl; rewrite ?lookup_empty; set_solver. Qed.

(** C40: whatever edges are set and whatever targets are removed, in any order, the
    reverse index is exactly the inverse of the forward one, neither keeps an empty
    entry, and the whole map can be rebuilt from the forward index alone. *)
Theorem edge_map_consistent l :
  let m := foldl run_op new l in consistent m ∧ from_fwd (fwd m) = m.
Proof.
  intros m. assert (Hm : consistent m) by apply runs_consistent, new_consistent.
  split; [done|]. destruct (from_fwd_consistent (fwd m)) as [He Hr _]; [apply Hm|].
  destruct Hm as [He' Hr' _]. destruct m as [f r] eqn:Em. unfold from_fwd in *; simpl in *. f_equal.
  apply normal_ext; [done..|]. intros t. apply set_eq. intros s. by rewrite He, He'.
Qed.

(** [set_edges] makes [ts] the edges of [s] and touches no other source; it
    reports no change exactly when the edge set is unchanged, and otherwise the
    added and removed targets it reports are the two differences of the sets. *)
Theorem set_edges_spec m s ts :
  consistent m →
  let '(d, m') := set_edges s ts m in
  (∀ s' t, edge m' s' t ↔ if decide (s' = s) then t ∈ ts else edge m s' t) ∧
  (d = None ↔ ∀ t, t ∈ ts ↔ edge m s t) ∧
  (∀ diff, d = Some diff → ∀ t,
     (t ∈ added diff ↔ t ∈ ts ∧ ¬ edge m s t) ∧ (t ∈ removed diff ↔ edge m s t ∧ t ∉ ts)).
Proof.
  intros [He Hr Hf]. unfold set_edges, edge. case_decide as Hts.
  - subst ts. destruct (fwd m !! s) as [old|] eqn:Eo.
    + case_decide as Ho; [by subst; destruct (Hf s)|]. simpl. split_and!.
      * intros s' t. case_decide; by simplify_map_eq.
      * split; [done|]. intros Ht. destruct old as [|t old]; [done|]. set_solver.
      * intros diff [= <-]; simpl. set_solver.
    + split_and!; [|split; [|done]|done].
      * intros s' t. case_decide; [subst; by rewrite Eo|done].
      * done.
  - cbv zeta. case_decide as Hc.
    + destruct Hc as [H1 H2]. rewrite difference_nil in H1, H2.
      assert (Hsame : ∀ t, t ∈ ts ↔ t ∈ default [] (fwd m !! s)) by (split; auto).
      split_and!; [|split; [|done]|done]; [|done].
      intros s' t. case_decide; [subst; by rewrite Hsame|done].
    + split_and!.
      * intros s' t. simpl. case_decide; simplify_map_eq; done.
      * split; [done|]. intros Hsame. destruct Hc. rewrite !difference_nil.
        split; intros t; apply Hsame.
      * intros diff [= <-] t; simpl. rewrite !elem_of_sorted. set_solver.
Qed.

(** [remove_target] removes every edge into the target and no other. *)
Theorem remove_target_spec m t :
  consistent m → ∀ s t', edge (remove_target t m) s t' ↔ edge m s t' ∧ t' ≠ t.
Proof.
  intros [He Hr Hf] s t'. unfold remove_target, edge.
  destruct (rev m !! t) as [ss|] eqn:Et; simpl.
  - assert (Hss : ∀ s, s ∈ ss ↔ edge m s t) by (intros s0; rewrite <- He; unfold srcs; by rewrite Et).
    unfold edge in Hss. rewrite foldl_retain.
    case_decide as Hs; rewrite elem_of_elements in Hs; [rewrite list_elem_of_filter; tauto|].
    rewrite Hss in Hs. split; [|by intros []]. intros Ht'. split; [done|]. by intros ->.
  - assert (Hno : ¬ edge m s t) by (rewrite <- He; unfold srcs; rewrite Et; set_solver).
    unfold edge in Hno. set_solver.
Qed.

End EdgeMap.

(** ** Concrete maps *)
Definition demo : EdgeMap (Src:=Z) (Tgt:=Z) := foldl (run_op Z.le) new
  [SetEdges 1 [10; 11]; SetEdges 2 [11]; SetEdges 1 [11; 12]].

Lemma set_edges_spec_witness :
  let '(d, m') := set_edges Z.le 1 [12; 13] demo in
  d = Some {| added := [13]; removed := [11] |} ∧ edge m' 2 11.
Proof.
  pose proof (set_edges_spec Z.le demo 1 [12; 13] (runs_consistent Z.le _ _ new_consistent)) as H.
  destruct (set_edges Z.le 1 [12; 13] demo) as [d m'] eqn:E. split.
  - by vm_compute in E; simplify_eq.
  - apply H. case_decide; [done|]. vm_compute. apply list_elem_of_here.
Defined.

Lemma remove_target_spec_witness : edge (remove_target 11 demo) 1 12.
Proof.
  apply (remove_target_spec demo 11 (runs_consistent Z.le _ _ new_consistent)).
  split; [vm_compute; apply list_elem_of_further, list_elem_of_here|done].
Defined.

End EdgeMap.
