(* ===== verification/Timers.v ===== *)
(** * Timers: from wanted timers to fired ones

    [IncrementalAggregator] and [incremental_diff]
    ([crates/sm-router/src/lib.rs]), the timer aggregators that turn the wanted
    timers of the machines into start and cancel actions
    ([crates/orchestrator/src/adapter/timer/mod.rs]) and the wheel that executes
    them ([crates/orchestrator/src/core/namespace/timer_wheel.rs]).  The theorems
    give the exact effect of a propagation on the armed timers, and show that the
    wheel fires every due timer once, in deadline order, and nothing else. *)

From S2P Require Import Prelude SmTypes Endpoint.

(** ** The incremental aggregation of the router *)
Class IncrementalAggregator (Inp Out : Type) := {
  added : Inp → option Out;
  removed : Inp → option Out;
  changed : Inp → Inp → option Out;
}.

Definition push {O} (outputs : list O) (out : option O) : list O :=
  match out with Some o => outputs ++ [o] | None => outputs end.

Section Diff.
Context {V Inp Out : Type} `{EqDecision V} `{IncrementalAggregator Inp Out}.
Context (make_input : Z → V → Inp).

Definition incremental_diff (current prev : gmap Z V) (outputs : list Out) : list Out :=
  let outputs := foldl (λ outputs p,
    match prev !! p.1 with
    | None => push outputs (added (make_input p.1 p.2))
    | Some old =>
        if decide (old ≠ p.2) then
          push outputs (changed (make_input p.1 old) (make_input p.1 p.2))
        else outputs
    end) outputs (btree_iter current) in
  foldl (λ outputs p,
    if is_none (current !! p.1) then push outputs (removed (make_input p.1 p.2))
    else outputs) outputs (btree_iter prev).
End Diff.

(** ** Identities, actions and requests *)
Inductive TimerIdentity :=
  | TWorkload (id : WorkloadId) (key : WorkloadTimerKey)
  | TEndpoint (id : EndpointId) (key : EndpointTimerKey)
  | TPod (id : PodId) (key : PodTimerKey).

#[global] Instance TimerIdentity_eq : EqDecision TimerIdentity.
Proof. solve_decision. Defined.

(** The derived order: the variants in their order, then the id, then the key. *)
Definition identity_code (i : TimerIdentity) : Z * Z * Z :=
  match i with
  | TWorkload id key => (0, id, match key with RetryBackoff => 0 | ArtifactConfirm => 1 end)
  | TEndpoint id key => (1, id, 0)
  | TPod id key => (2, id, match key with LaunchTimeout => 0 | SuspendTimeout => 1 end)
  end.
Definition identity_decode (c : Z * Z * Z) : option TimerIdentity :=
  let '(v, id, k) := c in
  if v =? 0 then Some (TWorkload id (if k =? 0 then RetryBackoff else ArtifactConfirm))
  else if v =? 1 then Some (TEndpoint id IdleTimeout)
  else Some (TPod id (if k =? 0 then LaunchTimeout else SuspendTimeout)).
#[global] Instance TimerIdentity_countable : Countable TimerIdentity.
Proof. apply (inj_countable identity_code identity_decode). by intros [? []|? []|? []]. Defined.

Inductive TimerAction :=
  | Start (identity : TimerIdentity) (generation : Z) (duration : Duration)
  | Cancel (identity : TimerIdentity).

(** The trait over the three request types.  The law is that of the enum's
    constructors: distinct machines or keys have distinct identities. *)
Class TimerRequestInfo (R Key : Type) `{Countable Key} := {
  key : R → Key;
  generation : R → Z;
  duration : R → Duration;
  make_identity : Z → Key → TimerIdentity;
  make_identity_inj : ∀ s k s' k',
    make_identity s k = make_identity s' k' → s = s' ∧ k = k';
}.

#[global] Instance WorkloadTimerKey_countable : Countable WorkloadTimerKey.
Proof.
  refine (inj_countable' (λ k, match k with RetryBackoff => true | ArtifactConfirm => false end)
            (λ b : bool, if b then RetryBackoff else ArtifactConfirm) _). by intros [].
Defined.
#[global] Instance PodTimerKey_countable : Countable PodTimerKey.
Proof.
  refine (inj_countable' (λ k, match k with LaunchTimeout => true | SuspendTimeout => false end)
            (λ b : bool, if b then LaunchTimeout else SuspendTimeout) _). by intros [].
Defined.
#[global] Instance EndpointTimerKey_countable : Countable EndpointTimerKey.
Proof. refine (inj_countable' (λ _, ()) (λ _, IdleTimeout) _). by intros []. Defined.

#[global] Program Instance workload_requests : TimerRequestInfo TimerRequest WorkloadTimerKey := {|
  key := tr_key; generation := tr_generation; duration := tr_duration;
  make_identity := TWorkload |}.
Next Obligation. by intros; simplify_eq. Qed.
#[global] Program Instance pod_requests : TimerRequestInfo PodTimerRequest PodTimerKey := {|
  key := ptr_key; generation := ptr_generation; duration := ptr_duration;
  make_identity := TPod |}.
Next Obligation. by intros; simplify_eq. Qed.
#[global] Program Instance endpoint_requests :
    TimerRequestInfo EndpointSm.EndpointTimerRequest EndpointTimerKey := {|
  key := EndpointSm.etr_key; generation := EndpointSm.etr_generation;
  duration := EndpointSm.etr_duration; make_identity := TEndpoint |}.
Next Obligation. by intros ? [] ? [] [=]. Qed.

(** ** The timer aggregators *)
Section Aggregator.
Context `{TimerRequestInfo R Key} `{!HashIter Key}.

Definition diff_timer_requests (sm_id : Z) (old new : list R) : list TimerAction :=
  let old_map : gmap Key Z := collect_map ((λ r, (key r, generation r)) <$> old) in
  let new_map : gmap Key (Z * Duration) :=
    collect_map ((λ r, (key r, (generation r, duration r))) <$> new) in
  let cancels := flat_map (λ '(k, g),
    match new_map !! k with
    | None => [Cancel (make_identity sm_id k)]
    | Some (new_generation, _) =>
        if decide (new_generation ≠ g) then [Cancel (make_identity sm_id k)] else []
    end) (hash_iter old_map) in
  let starts := flat_map (λ '(k, (g, dur)),
    match old_map !! k with
    | None => [Start (make_identity sm_id k) g dur]
    | Some old_generation =>
        if decide (old_generation ≠ g) then [Start (make_identity sm_id k) g dur] else []
    end) (hash_iter new_map) in
  cancels ++ starts.

Definition some_unless_empty (actions : list TimerAction) : option (list TimerAction) :=
  match actions with [] => None | _ => Some actions end.

#[global] Instance TimerIncrementalAggregator :
    IncrementalAggregator (Z * list R) (list TimerAction) := {|
  added := λ '(sm_id, requests), some_unless_empty
    ((λ req, Start (make_identity sm_id (key req)) (generation req) (duration req)) <$> requests);
  removed := λ '(sm_id, requests), some_unless_empty
    ((λ req, Cancel (make_identity sm_id (key req))) <$> requests);
  changed := λ '(sm_id, old_reqs) '(_, new_reqs),
    some_unless_empty (diff_timer_requests sm_id old_reqs new_reqs);
|}.
End Aggregator.

(** [TimerAdapter::reconcile]: the actions of the drained inputs, concatenated. *)
Definition reconcile_timers (inputs : list (Z * list TimerAction)) : list TimerAction :=
  flat_map snd (filter (λ i, i.1 = TIMER) inputs).

(** ** The wheel *)
Module TimerWheel.

Record NamespaceTimerWheel := {
  by_deadline : gmap (Duration * TimerIdentity) Z;
  by_identity : gmap TimerIdentity (Z * Duration);
}.
Record FiredTimer := { ft_identity : TimerIdentity; ft_generation : Z }.

Definition new : NamespaceTimerWheel := {| by_deadline := ∅; by_identity := ∅ |}.

Definition absorb1 (now : Duration) (w : NamespaceTimerWheel) (action : TimerAction) :
    NamespaceTimerWheel :=
  match action with
  | Start identity generation duration =>
      let bd := match by_identity w !! identity with
                | Some (_, old_deadline) => delete (old_deadline, identity) (by_deadline w)
                | None => by_deadline w
                end in
      let deadline := now + duration in
      {| by_deadline := <[(deadline, identity) := generation]> bd;
         by_identity := <[identity := (generation, deadline)]> (delete identity (by_identity w)) |}
  | Cancel identity =>
      match by_identity w !! identity with
      | Some (_, deadline) =>
          {| by_deadline := delete (deadline, identity) (by_deadline w);
             by_identity := delete identity (by_identity w) |}
      | None => w
      end
  end.
Definition absorb (actions : list TimerAction) (now : Duration) (w : NamespaceTimerWheel) :
    NamespaceTimerWheel := foldl (absorb1 now) w actions.

(** The lexicographic order of the deadline keys. *)
Definition identity_ltb (i j : TimerIdentity) : bool :=
  let '(a, b, c) := identity_code i in
  let '(a', b', c') := identity_code j in
  (a <? a') || (a =? a') && ((b <? b') || (b =? b') && (c <? c')).
Definition deadline_ltb (x y : Duration * TimerIdentity) : bool :=
  (x.1 <? y.1) || (x.1 =? y.1) && identity_ltb x.2 y.2.
Definition deadline_le (x y : (Duration * TimerIdentity) * Z) : Prop :=
  deadline_ltb y.1 x.1 = false.
#[global] Instance deadline_le_dec : RelDecision deadline_le.
Proof. intros x y. unfold deadline_le. apply _. Defined.

(** Everything below the split key expires; the rest is [split_off]. *)
Definition fire_expired (now : Duration) (w : NamespaceTimerWheel) :
    list FiredTimer * NamespaceTimerWheel :=
  let split_key := (now + from_nanos 1, TWorkload 0 RetryBackoff) in
  let remaining := filter (λ e, deadline_ltb e.1 split_key = false) (by_deadline w) in
  let expired := filter (λ e, deadline_ltb e.1 split_key = true) (by_deadline w) in
  let entries := merge_sort deadline_le (map_to_list expired) in
  ((λ e : (Duration * TimerIdentity) * Z,
      {| ft_identity := e.1.2; ft_generation := e.2 |}) <$> entries,
   {| by_deadline := remaining;
      by_identity := foldl (λ m e, delete e.1.2 m) (by_identity w) entries |}).

Definition next_deadline (w : NamespaceTimerWheel) : option Duration :=
  (λ e : (Duration * TimerIdentity) * Z, e.1.1) <$>
    head (merge_sort deadline_le (map_to_list (by_deadline w))).

(** ** The two indices of the wheel are linked *)
Definition id_of (i : TimerIdentity) : Z :=
  match i with TWorkload id _ | TEndpoint id _ | TPod id _ => id end.

Record linked (w : NamespaceTimerWheel) : Prop := {
  l_index : ∀ i g d, by_identity w !! i = Some (g, d) ↔ by_deadline w !! (d, i) = Some g;
  l_unsigned : ∀ i, is_Some (by_identity w !! i) → 0 ≤ id_of i;
}.

Definition action_identity (a : TimerAction) : TimerIdentity :=
  match a with Start i _ _ | Cancel i => i end.

(** The effect of an action on the armed timers. *)
Definition arm1 (now : Duration) (m : gmap TimerIdentity (Z * Duration)) (a : TimerAction) :
    gmap TimerIdentity (Z * Duration) :=
  match a with
  | Start i g dur => <[i := (g, now + dur)]> m
  | Cancel i => delete i m
  end.

Lemma absorb1_identity now w a : by_identity (absorb1 now w a) = arm1 now (by_identity w) a.
Proof.
  destruct a as [i g dur|i]; simpl; [by rewrite insert_delete_eq|].
  destruct (by_identity w !! i) as [[g d]|] eqn:E; [done|]. by rewrite delete_id.
Qed.

Lemma absorb_identity now l w :
  by_identity (absorb l now w) = foldl (arm1 now) (by_identity w) l.
Proof.
  unfold absorb. revert w. induction l as [|a l IH]; intros w; [done|]; simpl.
  by rewrite IH, absorb1_identity.
Qed.

Lemma absorb1_linked now w a :
  linked w → 0 ≤ id_of (action_identity a) → linked (absorb1 now w a).
Proof.
  intros [Hi Hu] Ha. split.
  2:{ intros i. rewrite absorb1_identity. destruct a as [i0 g dur|i0]; simpl;
      [rewrite lookup_insert_is_Some'|rewrite lookup_delete_is_Some]; intros [?|?] || intros [_ ?];
      subst; eauto. }
  intros i g d. rewrite absorb1_identity. destruct a as [i0 g0 dur|i0]; simpl.
  - destruct (decide (i0 = i)) as [->|Hne].
    + rewrite lookup_insert_eq. destruct (decide ((now + dur, i) = (d, i))) as [E|E].
      * simplify_eq. rewrite lookup_insert_eq. naive_solver.
      * rewrite lookup_insert_ne by done. split; [naive_solver|].
        destruct (by_identity w !! i) as [[g1 d1]|] eqn:E1.
        -- intros [? Hd]%lookup_delete_Some. apply Hi in Hd. congruence.
        -- intros Hd. apply Hi in Hd. congruence.
    + rewrite lookup_insert_ne, lookup_insert_ne by congruence.
      destruct (by_identity w !! i0) as [[g1 d1]|]; [|apply Hi].
      rewrite lookup_delete_ne by congruence. apply Hi.
  - destruct (by_identity w !! i0) as [[g1 d1]|] eqn:E1; simpl.
    + destruct (decide (i0 = i)) as [->|Hne].
      * rewrite lookup_delete_eq. split; [done|]. intros [? Hd]%lookup_delete_Some.
        apply Hi in Hd. congruence.
      * rewrite !lookup_delete_ne by congruence. apply Hi.
    + rewrite delete_id by done. apply Hi.
Qed.

Lemma absorb_linked now l w :
  linked w → Forall (λ a, 0 ≤ id_of (action_identity a)) l → linked (absorb l now w).
Proof.
  unfold absorb. intros Hw Hl. revert w Hw. induction Hl as [|a l Ha Hl IH]; intros w Hw; [done|].
  by apply IH, absorb1_linked.
Qed.

(** ** Firing *)
Lemma expired_iff now d i :
  0 ≤ id_of i → deadline_ltb (d, i) (now + from_nanos 1, TWorkload 0 RetryBackoff) = true ↔ d ≤ now.
Proof.
  intros Hi. unfold deadline_ltb, identity_ltb, from_nanos; simpl.
  rewrite orb_true_iff, andb_true_iff, Z.ltb_lt, Z.eqb_eq.
  assert (Hmin : (let '(a, b, c) := identity_code i in
    (a <? 0) || (a =? 0) && ((b <? 0) || (b =? 0) && (c <? 0))) = false)
    by (destruct i as [? []|? []|? []]; simpl in *; try done;
        apply orb_false_iff; split; try apply andb_false_iff; lia).
  destruct (identity_code i) as [[a b] c]. rewrite Hmin. split; [intros [?|[_ ?]]; [lia|done]|lia].
Qed.

Definition expired_entries (now : Duration) (w : NamespaceTimerWheel) :
    list ((Duration * TimerIdentity) * Z) :=
  merge_sort deadline_le (map_to_list (filter (λ e, deadline_ltb e.1
    (now + from_nanos 1, TWorkload 0 RetryBackoff) = true) (by_deadline w))).

Lemma elem_of_expired now w d i g :
  linked w → ((d, i), g) ∈ expired_entries now w ↔ by_identity w !! i = Some (g, d) ∧ d ≤ now.
Proof.
  intros [Hi Hu]. unfold expired_entries.
  rewrite merge_sort_Permutation, elem_of_map_to_list, map_lookup_filter_Some, <- Hi; simpl.
  split; intros [Hg He]; (split; [done|]); (eapply expired_iff; [|done]); apply Hu; eauto.
Qed.

Lemma expired_identity now w i :
  linked w → i ∈ (λ e : (Duration * TimerIdentity) * Z, e.1.2) <$> expired_entries now w ↔
  ∃ g d, by_identity w !! i = Some (g, d) ∧ d ≤ now.
Proof.
  intros Hw. rewrite list_elem_of_fmap. split.
  - intros ([[d i'] g] & -> & He). apply elem_of_expired in He; [|done]. eauto.
  - intros (g & d & He). exists ((d, i), g). split; [done|]. by apply elem_of_expired.
Qed.

#[global] Instance deadline_le_total : Total deadline_le.
Proof.
  intros [[d i] g] [[d' i'] g']. unfold deadline_le, deadline_ltb, identity_ltb; simpl.
  destruct (identity_code i) as [[a b] c], (identity_code i') as [[a' b'] c'].
  destruct (d' <? d) eqn:E1, (d <? d') eqn:E2, (d' =? d) eqn:E3, (d =? d') eqn:E4; simpl; try lia.
Qed.

Lemma deadline_le_deadline x y : deadline_le x y → x.1.1 ≤ y.1.1.
Proof. unfold deadline_le, deadline_ltb. rewrite orb_false_iff, Z.ltb_ge. tauto. Qed.

Lemma Sorted_fmap {A B} (R : relation A) (R' : relation B) (f : A → B) l :
  (∀ x y, R x y → R' (f x) (f y)) → Sorted R l → Sorted R' (f <$> l).
Proof.
  intros Hf Hl. induction Hl as [|x l Hl IH Hx]; simpl; constructor; [done|].
  destruct Hx; simpl; constructor; auto.
Qed.

Lemma NoDup_expired now w : linked w →
  NoDup ((λ e : (Duration * TimerIdentity) * Z, e.1.2) <$> expired_entries now w).
Proof.
  intros Hw. apply NoDup_fmap_2_strong.
  - intros [[d i] g] [[d' i'] g'] H1 H2; simpl. intros <-.
    apply elem_of_expired in H1 as [H1 _]; [|done]. apply elem_of_expired in H2 as [H2 _]; [|done].
    congruence.
  - unfold expired_entries. rewrite merge_sort_Permutation. apply NoDup_map_to_list.
Qed.

Lemma fired_identity now w i :
  linked w →
  by_identity (fire_expired now w).2 !! i =
  (by_identity w !! i ≫= λ p, if decide (p.2 ≤ now) then None else Some p).
Proof.
  intros Hw. unfold fire_expired. fold (expired_entries now w). simpl.
  rewrite (lookup_foldl_delete (λ e : (Duration * TimerIdentity) * Z, e.1.2)).
  case_decide as Hd; rewrite expired_identity in Hd by done.
  - destruct Hd as (g & d & -> & Hd); simpl. by rewrite decide_True.
  - destruct (by_identity w !! i) as [[g d]|] eqn:E; simpl; [|done].
    rewrite decide_False; [done|]. intros ?. apply Hd; eauto.
Qed.

Lemma fire_linked now w : linked w → linked (fire_expired now w).2.
Proof.
  intros Hw. split.
  - intros i g d. rewrite fired_identity by done. simpl.
    rewrite map_lookup_filter_Some, <- (l_index w Hw); simpl.
    rewrite bind_Some. split.
    + intros ([g' d'] & Hg & Hd). simpl in Hd. case_decide as E; simplify_eq.
      split; [done|]. apply not_true_is_false. rewrite expired_iff; [done|].
      apply (l_unsigned w Hw); eauto.
    + intros [Hg Hd]. exists (g, d). split; [done|]. simpl. rewrite decide_False; [done|].
      intros E. apply (expired_iff now d i) in E; [congruence|]. apply (l_unsigned w Hw); eauto.
  - intros i [p Hp]. rewrite fired_identity in Hp by done. apply bind_Some in Hp as (q & Hq & _).
    apply (l_unsigned w Hw); eauto.
Qed.

(** Firing at [now] returns every armed timer whose deadline has been reached,
    with its generation, once, in the order of the deadlines, and no other; exactly
    the later ones stay armed, and the two indices stay linked. *)
Theorem fire_expired_exact now w :
  linked w →
  let '(fired, w') := fire_expired now w in
  (∀ i g, {| ft_identity := i; ft_generation := g |} ∈ fired ↔
          ∃ d, by_identity w !! i = Some (g, d) ∧ d ≤ now) ∧
  NoDup (ft_identity <$> fired) ∧
  Sorted Z.le ((λ f, from_option snd 0 (by_identity w !! ft_identity f)) <$> fired) ∧
  (∀ i g d, by_identity w' !! i = Some (g, d) ↔ by_identity w !! i = Some (g, d) ∧ now < d) ∧
  linked w'.
Proof.
  intros Hw. destruct (fire_expired now w) as [fired w'] eqn:E.
  assert (Hw' : w' = (fire_expired now w).2) by by rewrite E.
  assert (Hf : fired = (λ e : (Duration * TimerIdentity) * Z,
    {| ft_identity := e.1.2; ft_generation := e.2 |}) <$> expired_entries now w)
    by (by unfold fire_expired in E; simplify_eq).
  subst w'. split_and!.
  - intros i g. rewrite Hf, list_elem_of_fmap. split.
    + intros ([[d i'] g'] & [= -> ->] & He). apply elem_of_expired in He; eauto.
    + intros (d & He). exists ((d, i), g). split; [done|]. by apply elem_of_expired.
  - rewrite Hf, <- list_fmap_compose. by apply NoDup_expired.
  - rewrite Hf, <- list_fmap_compose.
    rewrite (list_fmap_ext _ (λ e : (Duration * TimerIdentity) * Z, e.1.1)).
    + apply (Sorted_fmap deadline_le); [apply deadline_le_deadline|].
      apply Sorted_merge_sort, _.
    + intros k [[d i] g] He%list_elem_of_lookup_2. apply elem_of_expired in He as [He _]; [|done].
      simpl. by rewrite He.
  - intros i g d. rewrite fired_identity, bind_Some by done. split.
    + intros ([g' d'] & Hg & Hd). simpl in Hd. case_decide; simplify_eq. split; [done|lia].
    + intros [Hg Hd]. exists (g, d). split; [done|]. simpl. by rewrite decide_False by lia.
  - by apply fire_linked.
Qed.

End TimerWheel.

(** ** The effect of a propagation on the armed timers *)
Section Propagation.
Context `{TimerRequestInfo R Key} `{!HashIter Key} `{!EqDecision R}.
Import TimerWheel.

(** The generation a machine wants for a key, and the one that is armed. *)
Definition gens (l : list R) : gmap Key Z := collect_map ((λ r, (key r, generation r)) <$> l).
Definition wanted (reqs : gmap Z (list R)) (sm_id : Z) (k : Key) : option Z :=
  gens (default [] (reqs !! sm_id)) !! k.
Definition armed (w : NamespaceTimerWheel) (i : TimerIdentity) : option Z :=
  fst <$> by_identity w !! i.

Definition eff1 (i : TimerIdentity) (o : option Z) (a : TimerAction) : option Z :=
  match a with
  | Start j g _ => if decide (j = i) then Some g else o
  | Cancel j => if decide (j = i) then None else o
  end.

Lemma armed_absorb l now w i : armed (absorb l now w) i = foldl (eff1 i) (armed w i) l.
Proof.
  unfold armed. rewrite absorb_identity. generalize (by_identity w). clear w.
  induction l as [|a l IH]; intros m; [done|]; simpl. rewrite IH. f_equal.
  destruct a as [j g dur|j]; simpl; case_decide; subst;
    [by rewrite lookup_insert_eq|by rewrite lookup_insert_ne
    |by rewrite lookup_delete_eq|by rewrite lookup_delete_ne].
Qed.

Lemma eff_elsewhere l i o : Forall (λ a, action_identity a ≠ i) l → foldl (eff1 i) o l = o.
Proof.
  intros Hl. revert o. induction Hl as [|[j g d|j] l Ha Hl IH]; intros o; simpl in *; [done|..];
    rewrite IH; by rewrite decide_False.
Qed.

(** Of a list of keyed groups of actions only the group of [k] reaches [i]. *)
Lemma eff_flat_map {K V} (f : K * V → list TimerAction) l (k : K) i o :
  NoDup l.*1 → (∀ p, p ∈ l → p.1 ≠ k → Forall (λ a, action_identity a ≠ i) (f p)) →
  (∀ v, (k, v) ∈ l → foldl (eff1 i) o (flat_map f l) = foldl (eff1 i) o (f (k, v))) ∧
  ((∀ v, (k, v) ∉ l) → foldl (eff1 i) o (flat_map f l) = o).
Proof.
  intros Hnd Hf. revert o. induction l as [|[k' v'] l IH]; intros o; simpl.
  { split; [set_solver|done]. }
  apply NoDup_cons in Hnd as [Hk' Hnd]. simpl in *. rewrite foldl_app.
  assert (IH' := IH Hnd ltac:(intros p Hp; apply Hf; set_solver)). clear IH. split.
  - intros v [[= <- <-]|Hv]%elem_of_cons.
    + apply IH'. intros u Hu. apply Hk'. apply list_elem_of_fmap. by exists (k, u).
    + rewrite (eff_elsewhere (f (k', v'))); [by apply IH'|]. apply (Hf (k', v')); [set_solver|].
      simpl. intros ->. apply Hk'. apply list_elem_of_fmap. by exists (k, v).
  - intros Hno. rewrite (eff_elsewhere (f (k', v'))).
    + apply IH'. intros v Hv. apply (Hno v). set_solver.
    + apply (Hf (k', v')); [set_solver|]. simpl. intros ->. apply (Hno v'). set_solver.
Qed.

(** *** The three aggregator methods *)
Lemma collect_snoc {V} (f : R → Key * V) l r :
  collect_map (f <$> l ++ [r]) = <[(f r).1 := (f r).2]> (collect_map (f <$> l)).
Proof. unfold collect_map. by rewrite fmap_app, foldl_app. Qed.

Lemma gens_snoc l r : gens (l ++ [r]) = <[key r := generation r]> (gens l).
Proof. apply collect_snoc. Qed.

Lemma gens_nil k : gens [] !! k = None.
Proof. apply lookup_empty. Qed.

Lemma gens_full l k :
  fst <$> (collect_map ((λ r, (key r, (generation r, duration r))) <$> l) : gmap Key (Z * Duration)) !! k
  = gens l !! k.
Proof.
  induction l as [|r l IH] using rev_ind; [by unfold gens, collect_map; simpl; rewrite !lookup_empty|].
  rewrite gens_snoc, collect_snoc. simpl.
  destruct (decide (key r = k)) as [<-|]; [by rewrite !lookup_insert_eq|].
  by rewrite !lookup_insert_ne.
Qed.

Lemma make_identity_ne sm sm' k k' :
  sm ≠ sm' ∨ k ≠ k' → make_identity sm k ≠ make_identity sm' k'.
Proof. intros Hne E. apply make_identity_inj in E as [-> ->]. naive_solver. Qed.

Lemma eff_added sm reqs k o :
  foldl (eff1 (make_identity sm k)) o
    ((λ r, Start (make_identity sm (key r)) (generation r) (duration r)) <$> reqs) =
  match gens reqs !! k with Some g => Some g | None => o end.
Proof.
  induction reqs as [|r l IH] using rev_ind; [done|].
  rewrite fmap_app, foldl_app, IH, gens_snoc. simpl. destruct (decide (key r = k)) as [<-|Hne].
  - by rewrite decide_True, lookup_insert_eq.
  - rewrite decide_False, lookup_insert_ne by eauto using make_identity_ne. done.
Qed.

Lemma eff_removed sm reqs k o :
  foldl (eff1 (make_identity sm k)) o ((λ r, Cancel (make_identity sm (key r))) <$> reqs) =
  match gens reqs !! k with Some g => None | None => o end.
Proof.
  induction reqs as [|r l IH] using rev_ind; [done|].
  rewrite fmap_app, foldl_app, IH, gens_snoc. simpl. destruct (decide (key r = k)) as [<-|Hne].
  - by rewrite decide_True, lookup_insert_eq.
  - rewrite decide_False, lookup_insert_ne by eauto using make_identity_ne. done.
Qed.

Lemma eff_changed sm old new k o :
  foldl (eff1 (make_identity sm k)) o (diff_timer_requests sm old new) =
  if decide (gens new !! k = gens old !! k) then o else gens new !! k.
Proof.
  unfold diff_timer_requests. fold (gens old). cbv zeta. rewrite foldl_app.
  set (nm := collect_map ((λ r, (key r, (generation r, duration r))) <$> new)).
  assert (Hnm : ∀ k, gens new !! k = fst <$> nm !! k) by (intros; by rewrite <- gens_full).
  rewrite !Hnm.
  assert (Hc := eff_flat_map (λ '(k, g), match nm !! k with
    | None => [Cancel (make_identity sm k)]
    | Some (new_generation, _) =>
        if decide (new_generation ≠ g) then [Cancel (make_identity sm k)] else []
    end) (hash_iter (gens old)) k (make_identity sm k) o (NoDup_fst_hash_iter _)).
  destruct Hc as [Hc1 Hc2].
  { intros [k' g] _ Hne. simpl in *. destruct (nm !! k') as [[]|]; [case_decide|];
      repeat constructor; simpl; eauto using make_identity_ne. }
  assert (Hs := λ o', eff_flat_map (λ '(k, (g, dur)), match gens old !! k with
    | None => [Start (make_identity sm k) g dur]
    | Some old_generation =>
        if decide (old_generation ≠ g) then [Start (make_identity sm k) g dur] else []
    end) (hash_iter nm) k (make_identity sm k) o' (NoDup_fst_hash_iter _)).
  assert (Hloc : ∀ p : Key * (Z * Duration), p ∈ hash_iter nm → p.1 ≠ k →
    Forall (λ a, action_identity a ≠ make_identity sm k) (let '(k, (g, dur)) := p in
      match gens old !! k with
      | None => [Start (make_identity sm k) g dur]
      | Some old_generation =>
          if decide (old_generation ≠ g) then [Start (make_identity sm k) g dur] else []
      end)).
  { intros [k' [g dur]] _ Hne. simpl in *. destruct (gens old !! k'); [case_decide|];
      repeat constructor; simpl; eauto using make_identity_ne. }
  destruct (gens old !! k) as [g|] eqn:Eo.
  - erewrite Hc1 by by apply elem_of_hash_iter. simpl. destruct (nm !! k) as [[g' dur]|] eqn:En.
    + erewrite (proj1 (Hs _ Hloc)) by by apply elem_of_hash_iter. simpl. rewrite Eo.
      repeat case_decide; simplify_eq; simpl; by rewrite ?decide_True.
    + rewrite (proj2 (Hs _ Hloc)) by (intros v ?%elem_of_hash_iter; congruence).
      simpl. by rewrite decide_True.
  - rewrite Hc2 by (intros v ?%elem_of_hash_iter; congruence). destruct (nm !! k) as [[g' dur]|] eqn:En.
    + erewrite (proj1 (Hs _ Hloc)) by by apply elem_of_hash_iter. simpl. rewrite Eo. simpl.
      by rewrite decide_True.
    + rewrite (proj2 (Hs _ Hloc)) by (intros v ?%elem_of_hash_iter; congruence). done.
Qed.

(** *** The whole diff *)
Definition default_acts (o : option (list TimerAction)) : list TimerAction := default [] o.

Lemma concat_push outs o : concat (push outs o) = concat outs ++ default_acts o.
Proof. destruct o; simpl; [by rewrite concat_app; simpl; rewrite app_nil_r|by rewrite app_nil_r]. Qed.

Lemma concat_fold {A} (f : A → option (list TimerAction)) (F : list (list TimerAction) → A → list (list TimerAction)) l outs :
  (∀ outs p, F outs p = push outs (f p)) →
  concat (foldl F outs l) = concat outs ++ flat_map (λ p, default_acts (f p)) l.
Proof.
  intros HF. revert outs. induction l as [|p l IH]; intros outs; simpl; [by rewrite app_nil_r|].
  rewrite IH, HF, concat_push. by rewrite (assoc_L (++)).
Qed.

Lemma some_unless_default l : default_acts (some_unless_empty l) = l.
Proof. by destruct l. Qed.

Definition arrivals (prev : gmap Z (list R)) (p : Z * list R) : list TimerAction :=
  default_acts match prev !! p.1 with
  | None => added p
  | Some old => if decide (old ≠ p.2) then changed (p.1, old) p else None
  end.
Definition departures (cur : gmap Z (list R)) (p : Z * list R) : list TimerAction :=
  default_acts (if is_none (cur !! p.1) then removed p else None).

Lemma incremental_actions cur prev :
  concat (incremental_diff pair cur prev []) =
  flat_map (arrivals prev) (btree_iter cur) ++ flat_map (departures cur) (btree_iter prev).
Proof.
  unfold incremental_diff.
  rewrite (concat_fold (λ p, if is_none (cur !! p.1) then removed p else None))
    by (by intros outs [s l]; simpl; destruct (is_none _)).
  rewrite (concat_fold (λ p, match prev !! p.1 with
    | None => added p
    | Some old => if decide (old ≠ p.2) then changed (p.1, old) p else None end)); [done|].
  intros outs [s l]; simpl. destruct (prev !! s); [by case_decide|done].
Qed.

(** Every action of the group of a machine is about that machine. *)
Lemma diff_local sm old new :
  Forall (λ a, ∃ k, action_identity a = make_identity sm k) (diff_timer_requests sm old new).
Proof.
  unfold diff_timer_requests. apply Forall_app. split; apply Forall_forall; intros a;
    rewrite list_elem_of_In, in_flat_map.
  - intros ([k g] & _ & Ha). destruct (_ !! k) as [[]|]; [case_decide|];
      repeat destruct Ha as [<-|Ha]; try done; by exists k.
  - intros ([k [g d]] & _ & Ha). destruct (_ !! k); [case_decide|];
      repeat destruct Ha as [<-|Ha]; try done; by exists k.
Qed.

Lemma fmap_local sm (reqs : list R) (f : R → TimerAction) :
  (∀ r, action_identity (f r) = make_identity sm (key r)) →
  Forall (λ a, ∃ k, action_identity a = make_identity sm k) (f <$> reqs).
Proof. intros Hf. apply Forall_fmap, Forall_forall. intros r _. simpl. rewrite Hf. eauto. Qed.

Lemma arrivals_local prev p :
  Forall (λ a, ∃ k, action_identity a = make_identity p.1 k) (arrivals prev p).
Proof.
  destruct p as [sm l]. unfold arrivals; simpl. destruct (prev !! sm); [case_decide; [|done]|];
    rewrite some_unless_default; [apply diff_local|by apply fmap_local].
Qed.

Lemma departures_local cur p :
  Forall (λ a, ∃ k, action_identity a = make_identity p.1 k) (departures cur p).
Proof.
  destruct p as [sm l]. unfold departures; simpl. destruct (is_none _); [|done].
  rewrite some_unless_default. by apply fmap_local.
Qed.

Lemma local_elsewhere sm sm' k l :
  sm ≠ sm' → Forall (λ a, ∃ k, action_identity a = make_identity sm k) l →
  Forall (λ a, action_identity a ≠ make_identity sm' k) l.
Proof.
  intros Hne Hl. eapply Forall_impl; [done|]. intros a [k' ->]. by apply make_identity_ne; left.
Qed.

Lemma eff_group (f : Z * list R → list TimerAction) (m : gmap Z (list R)) sm k o :
  (∀ p, Forall (λ a, ∃ k, action_identity a = make_identity p.1 k) (f p)) →
  foldl (eff1 (make_identity sm k)) o (flat_map f (btree_iter m)) =
  match m !! sm with
  | Some l => foldl (eff1 (make_identity sm k)) o (f (sm, l))
  | None => o
  end.
Proof.
  intros Hf.
  destruct (eff_flat_map f (btree_iter m) sm (make_identity sm k) o (NoDup_btree_iter m)) as [H1 H2].
  { intros p _ Hne. by eapply local_elsewhere. }
  destruct (m !! sm) as [l|] eqn:E.
  - apply H1. by apply elem_of_btree_iter.
  - apply H2. intros l Hl%elem_of_btree_iter. congruence.
Qed.

(** When the wanted timers of the machines change from [prev] to [cur], the
    actions the incremental aggregator produces, absorbed by the wheel, rearm or
    cancel exactly the timers whose wanted generation changed: such a timer is armed
    with its new generation or no more, every other timer is left alone, whatever
    the iteration order of the hash maps. *)
Theorem timer_propagation (cur prev : gmap Z (list R)) now w sm k :
  armed (absorb (concat (incremental_diff pair cur prev [])) now w) (make_identity sm k) =
  if decide (wanted cur sm k = wanted prev sm k) then armed w (make_identity sm k)
  else wanted cur sm k.
Proof.
  rewrite armed_absorb, incremental_actions, foldl_app.
  rewrite !eff_group by (apply arrivals_local || apply departures_local).
  unfold wanted. destruct (cur !! sm) as [new|] eqn:Ec, (prev !! sm) as [old|] eqn:Ep; simpl;
    unfold departures, arrivals; simpl; rewrite ?Ec, ?Ep; simpl.
  - destruct (decide (old ≠ new)) as [Hne|Heq]; simpl.
    + by rewrite some_unless_default, eff_changed.
    + apply dec_stable in Heq as ->. by rewrite decide_True.
  - rewrite some_unless_default, eff_added, (gens_nil k). by destruct (gens new !! k).
  - rewrite some_unless_default, eff_removed, (gens_nil k). by destruct (gens old !! k).
  - done.
Qed.

End Propagation.

(** ** Runs of the wheel *)
Module WheelRuns.
Import TimerWheel.

Inductive wheel_op := Absorb (actions : list TimerAction) (now : Duration) | Fire (now : Duration).
Definition run_op (w : NamespaceTimerWheel) (o : wheel_op) : NamespaceTimerWheel :=
  match o with
  | Absorb actions now => absorb actions now w
  | Fire now => (fire_expired now w).2
  end.
Definition op_unsigned (o : wheel_op) : Prop :=
  match o with
  | Absorb actions _ => Forall (λ a, 0 ≤ id_of (action_identity a)) actions
  | Fire _ => True
  end.

Lemma runs_linked l w : linked w → Forall op_unsigned l → linked (foldl run_op w l).
Proof.
  intros Hw Hl. revert w Hw. induction Hl as [|o l Ho Hl IH]; intros w Hw; [done|].
  apply IH. destruct o; simpl; [by apply absorb_linked|by apply fire_linked].
Qed.

Lemma new_linked : linked new.
Proof. split; intros; simpl in *; rewrite ?lookup_empty in *; [done|by destruct H]. Qed.

(** After any sequence of absorbed actions and firings the next deadline is the
    least deadline of the armed timers, so a caller that sleeps until then and fires
    misses no timer; it is absent exactly when nothing is armed. *)
Theorem next_deadline_least l :
  Forall op_unsigned l →
  let w := foldl run_op new l in
  (next_deadline w = None ↔ by_identity w = ∅) ∧
  ∀ d, next_deadline w = Some d →
    (∃ i g, by_identity w !! i = Some (g, d)) ∧
    (∀ i g d', by_identity w !! i = Some (g, d') → d ≤ d').
Proof.
  intros Hl w. assert (Hw : linked w) by by apply runs_linked, Hl; apply new_linked.
  clearbody w. unfold next_deadline.
  set (es := merge_sort deadline_le (map_to_list (by_deadline w))).
  assert (Hes : ∀ d i g, ((d, i), g) ∈ es ↔ by_identity w !! i = Some (g, d)).
  { intros d i g. unfold es. rewrite merge_sort_Permutation, elem_of_map_to_list.
    symmetry. apply (l_index w Hw). }
  assert (Hs : Sorted Z.le ((λ e : (Duration * TimerIdentity) * Z, e.1.1) <$> es)).
  { apply (Sorted_fmap deadline_le); [apply deadline_le_deadline|]. apply Sorted_merge_sort, _. }
  clearbody es. destruct es as [|[[d0 i0] g0] es]; simpl.
  - split; [|done]. split; [|done]. intros _. apply map_empty. intros i.
    apply eq_None_not_Some. intros [[g d] Hg]. apply Hes in Hg. set_solver.
  - split.
    + split; [done|]. intros E. assert (H0 : by_identity w !! i0 = Some (g0, d0)) by (apply Hes; set_solver).
      by rewrite E, lookup_empty in H0.
    + intros d [= <-]. split; [exists i0, g0; apply Hes; set_solver|].
      intros i g d' [[= -> -> ->]|Hin]%Hes%elem_of_cons; [done|].
      simpl in Hs. apply Sorted_StronglySorted in Hs; [|intros ???; lia].
      inversion Hs as [|? ? _ Hall]; subst. rewrite Forall_forall in Hall. apply Hall.
      apply list_elem_of_fmap. by exists ((d', i), g).
Qed.

(** *** Concrete wheels *)
Definition demo_ops : list wheel_op :=
  [Absorb [Start (TPod 4 LaunchTimeout) 1 50; Start (TWorkload 2 RetryBackoff) 3 20;
           Start (TEndpoint 1 IdleTimeout) 9 90] 100;
   Absorb [Start (TPod 4 LaunchTimeout) 2 10; Cancel (TEndpoint 1 IdleTimeout)] 105].

Lemma demo_unsigned : Forall op_unsigned demo_ops.
Proof. repeat constructor; simpl; lia. Qed.

Lemma fire_expired_exact_witness :
  (fire_expired 118 (foldl run_op new demo_ops)).1 =
    [{| ft_identity := TPod 4 LaunchTimeout; ft_generation := 2 |}] ∧
  NoDup (ft_identity <$> (fire_expired 118 (foldl run_op new demo_ops)).1).
Proof.
  split; [by vm_compute|].
  pose proof (fire_expired_exact 118 (foldl run_op new demo_ops)
    (runs_linked _ _ new_linked demo_unsigned)) as H.
  destruct (fire_expired 118 (foldl run_op new demo_ops)) as [fired w']. apply H.
Defined.

Lemma next_deadline_least_witness :
  next_deadline (foldl run_op new demo_ops) = Some 115 ∧
  ∀ i g d', by_identity (foldl run_op new demo_ops) !! i = Some (g, d') → 115 ≤ d'.
Proof.
  split; [by vm_compute|]. by apply (next_deadline_least demo_ops demo_unsigned); vm_compute.
Defined.

End WheelRuns.
