(* ===== verification/IpAlloc.v ===== *)
(** * Addresses of a namespace
      ([crates/orchestrator/src/core/namespace/ip_alloc.rs] and [wg_peers.rs])

    [Ip] is the allocator of workload and service addresses with its automatic and
    manual zones, [Wg] the manager of WireGuard peer addresses, which share the
    subnet.  Addresses and offsets are [u32] values.  The vector used as a free list
    is kept with its end as the head of the list; a [BTreeMap] or [HashMap] is a
    [gmap]: the one place that searches a map ([owner_of]) finds at most one entry. *)

From S2P Require Import Prelude SmTypes.

Inductive IpResourceKey := KWorkload (name : string) | KService (name : string).
#[global] Instance IpResourceKey_eq : EqDecision IpResourceKey.
Proof. solve_decision. Defined.
#[global] Instance IpResourceKey_countable : Countable IpResourceKey.
Proof.
  refine (inj_countable' (λ k, match k with KWorkload n => inl n | KService n => inr n end)
    (λ c : string + string, match c with inl n => KWorkload n | inr n => KService n end) _).
  by intros [].
Defined.
Inductive IpAllocKind := Auto | Manual.
#[global] Instance IpAllocKind_eq : EqDecision IpAllocKind.
Proof. solve_decision. Defined.
Record IpAllocation := { ia_ip : Ipv4Addr; ia_kind : IpAllocKind }.
Record IpAllocResult := {
  workload_ips : gmap string IpAllocation; service_ips : gmap string IpAllocation }.

Module Ip.

Inductive IpAllocError :=
  | AutoZoneExhausted
  | ManualZoneExhausted
  | IpOutsideManualZone (ip : Ipv4Addr)
  | ManualIpCollision (ip : Ipv4Addr) (existing_key : IpResourceKey)
  | KindMigration (key : IpResourceKey) (existing requested : IpAllocKind).

Record NamespaceIpAllocator := {
  subnet_base : Z;
  first_host : Z;
  auto_zone_size : Z;
  manual_zone_start : Z;
  manual_zone_end : Z;
  allocations : gmap IpResourceKey (Z * IpAllocKind);
  occupied_offsets : gset Z;
  next_auto_offset : Z;
  auto_free_list : list Z;
}.

(** [1u32.checked_shl(n)] *)
Definition checked_shl_1 (n : Z) : option Z := if decide (0 ≤ n < 32) then Some (2 ^ n) else None.

Definition new (subnet : Ipv4Addr) (prefix_len wg_reserve : Z) : NamespaceIpAllocator :=
  let total_addrs := default 0 (checked_shl_1 (wrap 32 (32 - prefix_len))) in
  let usable := saturating_sub total_addrs 2 in
  let non_wg := saturating_sub usable wg_reserve in
  let size := non_wg / 2 in
  {| subnet_base := subnet;
     first_host := u32_add subnet 2;
     auto_zone_size := size;
     manual_zone_start := size;
     manual_zone_end := non_wg;
     allocations := ∅;
     occupied_offsets := ∅;
     next_auto_offset := 0;
     auto_free_list := [] |}.

Definition offset_to_ip (a : NamespaceIpAllocator) (offset : Z) : Ipv4Addr :=
  u32_add (first_host a) offset.
Definition ip_to_offset (a : NamespaceIpAllocator) (ip : Ipv4Addr) : option Z :=
  checked_sub ip (first_host a).

Definition record_allocation (key : IpResourceKey) (offset : Z) (kind : IpAllocKind)
    (a : NamespaceIpAllocator) : NamespaceIpAllocator :=
  {| a with occupied_offsets := {[offset]} ∪ occupied_offsets a;
            allocations := <[key := (offset, kind)]> (allocations a) |}.

(** The first free offset of [start .. auto_zone_size]. *)
Definition scan (a : NamespaceIpAllocator) (start : Z) : option Z :=
  head (filter (.∉ occupied_offsets a) (seqZ start (auto_zone_size a - start))).

Definition allocate_auto (key : IpResourceKey) (a : NamespaceIpAllocator) :
    (IpAllocation + IpAllocError) * NamespaceIpAllocator :=
  match auto_free_list a with
  | offset :: rest =>
      let a := {| a with auto_free_list := rest |} in
      (inl {| ia_ip := offset_to_ip a offset; ia_kind := Auto |},
       record_allocation key offset Auto a)
  | [] =>
      let start := next_auto_offset a in
      if auto_zone_size a <=? start then (inr AutoZoneExhausted, a)
      else match scan a start with
           | Some candidate =>
               let a := {| a with next_auto_offset := u32_add candidate 1 |} in
               (inl {| ia_ip := offset_to_ip a candidate; ia_kind := Auto |},
                record_allocation key candidate Auto a)
           | None => (inr AutoZoneExhausted, a)
           end
  end.

Definition owner_of (a : NamespaceIpAllocator) (offset : Z) : option IpResourceKey :=
  fst <$> head (filter (λ e, e.2.1 = offset) (map_to_list (allocations a))).

Definition allocate_manual (key : IpResourceKey) (ip : Ipv4Addr) (a : NamespaceIpAllocator) :
    (IpAllocation + IpAllocError) * NamespaceIpAllocator :=
  match ip_to_offset a ip with
  | None => (inr (IpOutsideManualZone ip), a)
  | Some offset =>
      if (offset <? manual_zone_start a) || (manual_zone_end a <=? offset) then
        (inr (IpOutsideManualZone ip), a)
      else if decide (offset ∈ occupied_offsets a) then
        (inr (ManualIpCollision ip (default key (owner_of a offset))), a)
      else (inl {| ia_ip := ip; ia_kind := Manual |}, record_allocation key offset Manual a)
  end.

Definition allocate (key : IpResourceKey) (explicit_ip : option Ipv4Addr)
    (a : NamespaceIpAllocator) : (IpAllocation + IpAllocError) * NamespaceIpAllocator :=
  let requested_kind := if is_some explicit_ip then Manual else Auto in
  match allocations a !! key with
  | Some (offset, existing_kind) =>
      if decide (existing_kind ≠ requested_kind) then
        (inr (KindMigration key existing_kind requested_kind), a)
      else (inl {| ia_ip := offset_to_ip a offset; ia_kind := existing_kind |}, a)
  | None =>
      match explicit_ip with
      | None => allocate_auto key a
      | Some ip => allocate_manual key ip a
      end
  end.

Definition release (key : IpResourceKey) (a : NamespaceIpAllocator) : NamespaceIpAllocator :=
  match allocations a !! key with
  | Some (offset, kind) =>
      {| a with allocations := delete key (allocations a);
                occupied_offsets := occupied_offsets a ∖ {[offset]};
                auto_free_list := if decide (kind = Auto) then offset :: auto_free_list a
                                  else auto_free_list a |}
  | None => a
  end.

Definition full_snapshot (a : NamespaceIpAllocator) : IpAllocResult :=
  foldl (λ result (e : IpResourceKey * (Z * IpAllocKind)),
    let alloc := {| ia_ip := offset_to_ip a e.2.1; ia_kind := e.2.2 |} in
    match e.1 with
    | KWorkload name => {| result with workload_ips := <[name := alloc]> (workload_ips result) |}
    | KService name => {| result with service_ips := <[name := alloc]> (service_ips result) |}
    end) {| workload_ips := ∅; service_ips := ∅ |} (map_to_list (allocations a)).

Definition ip_to_mac (ip : Ipv4Addr) : list Z :=
  [2; 0; wrap 8 (Z.shiftr ip 24); wrap 8 (Z.shiftr ip 16); wrap 8 (Z.shiftr ip 8); wrap 8 ip].

(** ** The allocator's invariant *)
Record wf (a : NamespaceIpAllocator) : Prop := {
  wf_zones : 0 ≤ auto_zone_size a ∧ manual_zone_start a = auto_zone_size a ∧
             auto_zone_size a ≤ manual_zone_end a ≤ u32_max + 1 - first_host a;
  wf_host : 1 ≤ first_host a;
  wf_next : 0 ≤ next_auto_offset a ≤ auto_zone_size a;
  wf_occupied : ∀ o, o ∈ occupied_offsets a ↔ ∃ k kd, allocations a !! k = Some (o, kd);
  wf_unique : ∀ k k' o kd kd', allocations a !! k = Some (o, kd) →
    allocations a !! k' = Some (o, kd') → k = k';
  wf_auto : ∀ k o, allocations a !! k = Some (o, Auto) → 0 ≤ o < next_auto_offset a;
  wf_manual : ∀ k o, allocations a !! k = Some (o, Manual) →
    manual_zone_start a ≤ o < manual_zone_end a;
  wf_free : NoDup (auto_free_list a);
  wf_free_range : ∀ o, o ∈ auto_free_list a →
    0 ≤ o < next_auto_offset a ∧ o ∉ occupied_offsets a;
  wf_cover : ∀ o, 0 ≤ o < next_auto_offset a → o ∈ occupied_offsets a ∨ o ∈ auto_free_list a;
}.

Lemma offset_bounds a k o kd :
  wf a → allocations a !! k = Some (o, kd) → 0 ≤ o < manual_zone_end a.
Proof.
  intros [] Hk. destruct kd; [apply wf_auto0 in Hk|apply wf_manual0 in Hk]; lia.
Qed.

Lemma offset_to_ip_exact a o :
  wf a → 0 ≤ o < manual_zone_end a → offset_to_ip a o = first_host a + o.
Proof. intros [] Ho. unfold offset_to_ip. apply u32_add_small. lia. Qed.

(** The address of the cursor is always free: the scan takes one step. *)
Lemma scan_next a :
  wf a → next_auto_offset a < auto_zone_size a → scan a (next_auto_offset a) = Some (next_auto_offset a).
Proof.
  intros [] Hlt. unfold scan. rewrite seqZ_cons by lia. rewrite filter_cons_True; [done|].
  intros (k & [] & Hk)%wf_occupied0; [apply wf_auto0 in Hk|apply wf_manual0 in Hk]; lia.
Qed.

(** ** Preservation *)
Lemma wf_record key o kd a a' :
  wf a → allocations a !! key = None → o ∉ occupied_offsets a →
  a' = {| a with auto_free_list := auto_free_list a'; next_auto_offset := next_auto_offset a' |} →
  next_auto_offset a ≤ next_auto_offset a' ≤ auto_zone_size a →
  (match kd with Auto => 0 ≤ o < next_auto_offset a' | Manual =>
     manual_zone_start a ≤ o < manual_zone_end a end) →
  NoDup (auto_free_list a') → (∀ x, x ∈ auto_free_list a' → x ∈ auto_free_list a ∧ x ≠ o) →
  (∀ x, 0 ≤ x < next_auto_offset a' → x = o ∨ x ∈ occupied_offsets a ∨ x ∈ auto_free_list a') →
  wf (record_allocation key o kd a').
Proof.
  intros [] Hkey Ho Ha Hn Hkd Hnd Hfree Hcov. rewrite Ha. unfold record_allocation.
  split; simpl; try done; try lia.
  - intros x. rewrite elem_of_union, elem_of_singleton, wf_occupied0. split.
    + intros [->|(k & kd' & Hk)]; [exists key, kd; by rewrite lookup_insert_eq|].
      exists k, kd'. rewrite lookup_insert_ne; [done|congruence].
    + intros (k & kd' & [[-> ?]|[? ?]]%lookup_insert_Some); simplify_eq; eauto.
  - intros k k' x kd1 kd2 [[<- ?]|[? H1]]%lookup_insert_Some [[<- ?]|[? H2]]%lookup_insert_Some;
      simplify_eq; try done; [| |by eauto];
      destruct Ho; apply wf_occupied0; eauto.
  - intros k x [[<- ?]|[? H1]]%lookup_insert_Some; simplify_eq; [done|]. apply wf_auto0 in H1. lia.
  - intros k x [[<- ?]|[? H1]]%lookup_insert_Some; simplify_eq; [done|]. by eapply wf_manual0.
  - intros x Hx. apply Hfree in Hx as [Hx ?]. apply wf_free_range0 in Hx as [? ?]. set_solver by lia.
  - intros x Hx. destruct (Hcov x Hx) as [->|[?|?]]; set_solver.
Qed.

Lemma allocate_auto_wf key a :
  wf a → allocations a !! key = None → wf (allocate_auto key a).2.
Proof.
  intros Hw Hkey. pose proof Hw as []. unfold allocate_auto.
  destruct (auto_free_list a) as [|o rest] eqn:Ef.
  - destruct (Z.leb_spec (auto_zone_size a) (next_auto_offset a)); [done|].
    rewrite scan_next by done. simpl.
    assert (Hfree : next_auto_offset a ∉ occupied_offsets a).
    { intros (k & [] & Hk)%wf_occupied0; [apply wf_auto0 in Hk|apply wf_manual0 in Hk]; lia. }
    rewrite u32_add_small by lia.
    eapply wf_record; try done; simpl; try lia; rewrite ?Ef; [set_solver|].
    intros x Hx. destruct (decide (x = next_auto_offset a)) as [|Hne]; [by left|right].
    apply wf_cover0. lia.
  - simpl. destruct (wf_free_range0 o) as [Hr Ho]; [set_solver|].
    apply NoDup_cons in wf_free0 as [Hnin Hnd].
    eapply wf_record; try done; simpl; try lia.
    + rewrite Ef. intros x Hx. split; [set_solver|]. intros ->. done.
    + intros x Hx. apply wf_cover0 in Hx. set_solver.
Qed.

Lemma allocate_manual_wf key ip a :
  wf a → allocations a !! key = None → wf (allocate_manual key ip a).2.
Proof.
  intros Hw Hkey. pose proof Hw as []. unfold allocate_manual.
  destruct (ip_to_offset a ip) as [o|]; [|done].
  destruct (_ || _) eqn:Hz; [done|]. apply orb_false_iff in Hz as [?%Z.ltb_ge ?%Z.leb_gt].
  case_decide as Ho; [done|]. simpl. eapply wf_record; try done; simpl; try lia.
  - by destruct a.
  - intros x Hx. split; [done|]. intros ->. apply wf_free_range0 in Hx as [? _]. lia.
  - intros x Hx. right. by apply wf_cover0.
Qed.

Lemma allocate_wf key ip a : wf a → wf (allocate key ip a).2.
Proof.
  intros Hw. unfold allocate. destruct (allocations a !! key) as [[o kd]|] eqn:Ek.
  - by case_decide.
  - destruct ip; [by apply allocate_manual_wf|by apply allocate_auto_wf].
Qed.

Lemma release_wf key a : wf a → wf (release key a).
Proof.
  intros Hw. pose proof Hw as []. unfold release.
  destruct (allocations a !! key) as [[o kd]|] eqn:Ek; [|done].
  assert (Hno : o ∉ auto_free_list a).
  { intros [_ Hf]%wf_free_range0. apply Hf, wf_occupied0. eauto. }
  assert (Ho : 0 ≤ o ∧ (kd = Auto → o < next_auto_offset a) ∧ (kd = Manual → auto_zone_size a ≤ o)).
  { destruct kd; [apply wf_auto0 in Ek|apply wf_manual0 in Ek]; split_and!; intros; lia || done. }
  destruct Ho as (Ho0 & Hauto & Hman).
  split; simpl; try done.
  - intros x. rewrite elem_of_difference, elem_of_singleton, wf_occupied0. split.
    + intros [(k & kd' & Hk) Hne]. exists k, kd'. rewrite lookup_delete_ne; [done|]. congruence.
    + intros (k & kd' & [Hne Hk]%lookup_delete_Some). split; [eauto|].
      intros ->. apply Hne. by eapply wf_unique0.
  - intros k k' x kd1 kd2 [_ ?]%lookup_delete_Some [_ ?]%lookup_delete_Some. eauto.
  - intros k x [_ ?]%lookup_delete_Some. eauto.
  - intros k x [_ ?]%lookup_delete_Some. eauto.
  - case_decide; [by constructor|done].
  - intros x Hx. assert (x = o ∧ kd = Auto ∨ x ∈ auto_free_list a) as [[-> ->]|Hf]
      by (case_decide; set_solver).
    + split; [auto|set_solver].
    + apply wf_free_range0 in Hf as [? ?]. set_solver.
  - intros x Hx. pose proof (wf_cover0 x Hx) as Hc.
    destruct (decide (x = o)) as [->|]; [|case_decide; set_solver].
    right. destruct kd; simpl; [set_solver|]. specialize (Hman eq_refl). lia.
Qed.

(** A subnet with at least a host, whose addresses do not wrap. *)
Definition good_subnet (subnet prefix_len reserve : Z) : Prop :=
  0 ≤ subnet ∧ 1 ≤ prefix_len ≤ 30 ∧ 0 ≤ reserve ∧ subnet + 2 ^ (32 - prefix_len) ≤ 2 ^ 32.

Lemma new_zones subnet p r :
  good_subnet subnet p r →
  first_host (new subnet p r) = subnet + 2 ∧
  manual_zone_end (new subnet p r) = Z.max 0 (2 ^ (32 - p) - 2 - r) ∧
  auto_zone_size (new subnet p r) = manual_zone_end (new subnet p r) / 2 ∧ 4 ≤ 2 ^ (32 - p).
Proof.
  intros (Hs & Hp & Hr & Hfit). unfold new; simpl.
  assert (4 ≤ 2 ^ (32 - p)) by (change 4 with (2 ^ 2); apply Z.pow_le_mono_r; lia).
  rewrite u32_add_small by (unfold u32_max; lia). rewrite wrap_small by lia.
  unfold checked_shl_1. rewrite decide_True by lia. simpl. unfold saturating_sub.
  split_and!; try done. lia.
Qed.

Lemma new_wf subnet p r : good_subnet subnet p r → wf (new subnet p r).
Proof.
  intros Hg. pose proof (new_zones _ _ _ Hg) as (Hh & He & Ha & H4).
  destruct Hg as (Hs & Hp & Hr & Hfit).
  split; try (intros; simpl in *; rewrite ?lookup_empty in *; done || set_solver).
  - split_and!; [rewrite Ha; apply Z.div_pos; lia|done| |].
    + rewrite Ha. apply Z.div_le_upper_bound; lia.
    + rewrite Hh, He. unfold u32_max. lia.
  - rewrite Hh. lia.
  - split; [done|]. change (next_auto_offset _) with 0. rewrite Ha. apply Z.div_pos; lia.

  - simpl. constructor.
  - simpl. intros. lia.
Qed.

(** ** Operations on an allocator *)
Inductive ip_op := Allocate (key : IpResourceKey) (ip : option Ipv4Addr) | Release (key : IpResourceKey).
Definition run_op (a : NamespaceIpAllocator) (o : ip_op) : NamespaceIpAllocator :=
  match o with
  | Allocate key ip => (allocate key ip a).2
  | Release key => release key a
  end.

Lemma runs_wf l a : wf a → wf (foldl run_op a l).
Proof.
  revert a. induction l as [|[key ip|key] l IH]; intros a Ha; [done|..]; apply IH; simpl;
    auto using allocate_wf, release_wf.
Qed.

Lemma runs_zones l a :
  let a' := foldl run_op a l in
  first_host a' = first_host a ∧ auto_zone_size a' = auto_zone_size a ∧
  manual_zone_start a' = manual_zone_start a ∧ manual_zone_end a' = manual_zone_end a.
Proof.
  revert a. induction l as [|o l IH]; intros a; [done|]. simpl. destruct (IH (run_op a o)) as (->&->&->&->).
  destruct o as [key ip|key]; simpl.
  - unfold allocate, allocate_auto, allocate_manual, record_allocation.
    destruct (allocations a !! key) as [[]|]; [by case_decide|]. destruct ip as [ip|].
    + destruct (ip_to_offset a ip); [|done]. destruct (_ || _); [done|]. by case_decide.
    + destruct (auto_free_list a); [|done]. destruct (_ <=? _); [done|]. by destruct (scan _ _).
  - unfold release. by destruct (allocations a !! key) as [[]|].
Qed.

(** The address a key holds. *)
Definition ip_of (a : NamespaceIpAllocator) (key : IpResourceKey) : option Ipv4Addr :=
  (λ e, offset_to_ip a e.1) <$> allocations a !! key.

Lemma ip_of_Some a key ip :
  wf a → ip_of a key = Some ip ↔
  ∃ o kd, allocations a !! key = Some (o, kd) ∧ ip = first_host a + o.
Proof.
  intros Hw. unfold ip_of. rewrite fmap_Some. split.
  - intros ([o kd] & Hk & ->). exists o, kd. split; [done|]. simpl.
    apply offset_to_ip_exact; [done|]. by eapply offset_bounds.
  - intros (o & kd & Hk & ->). exists (o, kd). split; [done|]. simpl. symmetry.
    apply offset_to_ip_exact; [done|]. by eapply offset_bounds.
Qed.

Lemma ip_of_inj a k k' ip : wf a → ip_of a k = Some ip → ip_of a k' = Some ip → k = k'.
Proof.
  intros Hw (o & kd & Hk & ->)%ip_of_Some (o' & kd' & Hk' & E)%ip_of_Some; try done.
  assert (o = o') as <- by lia. by eapply (wf_unique a Hw).
Qed.

Lemma release_holds key a k : ip_of (release key a) k = if decide (k = key) then None else ip_of a k.
Proof.
  unfold release, ip_of. destruct (allocations a !! key) as [[o kd]|] eqn:E; simpl.
  - destruct (decide (k = key)) as [->|]; [by rewrite lookup_delete_eq|by rewrite lookup_delete_ne].
  - destruct (decide (k = key)) as [->|]; [by rewrite E|done].
Qed.

(** Allocating touches the address of no other key; a failure changes nothing. *)
Lemma allocate_holds key ip a :
  wf a →
  (∀ k, k ≠ key → ip_of (allocate key ip a).2 k = ip_of a k) ∧
  (∀ ip', ip_of a key = Some ip' → ip_of (allocate key ip a).2 key = Some ip') ∧
  match (allocate key ip a).1 with
  | inl al => ip_of (allocate key ip a).2 key = Some (ia_ip al)
  | inr _ => (allocate key ip a).2 = a
  end.
Proof.
  intros Hw. unfold allocate. destruct (allocations a !! key) as [[o kd]|] eqn:Ek.
  { case_decide; simpl; split_and!; try done. unfold ip_of. by rewrite Ek. }
  assert (Hnone : ∀ P ip', ip_of a key = Some ip' → P) by (unfold ip_of; by rewrite Ek).
  assert (Hrec : ∀ o kd f nx, let a1 := {| a with auto_free_list := f; next_auto_offset := nx |} in
    (∀ k, k ≠ key → ip_of (record_allocation key o kd a1) k = ip_of a k) ∧
    ip_of (record_allocation key o kd a1) key = Some (offset_to_ip a o)).
  { intros o kd f nx. unfold ip_of, record_allocation. simpl. rewrite lookup_insert_eq. split; [|done].
    intros k Hk. by rewrite lookup_insert_ne. }
  destruct ip as [ip|].
  - unfold allocate_manual. destruct (ip_to_offset a ip) as [o|] eqn:Eo; [|done].
    destruct (_ || _) eqn:Hz; [done|]. case_decide; [done|]. simpl.
    destruct (Hrec o Manual (auto_free_list a) (next_auto_offset a)) as [H1 H2].
    replace {| subnet_base := _ |} with a in H1, H2 by by destruct a.
    split_and!; [done|intros ? Hs; by eapply Hnone|]. rewrite H2. f_equal.
    apply orb_false_iff in Hz as [?%Z.ltb_ge ?%Z.leb_gt]. destruct Hw.
    unfold ip_to_offset, checked_sub in Eo. case_decide; simplify_eq.
    unfold offset_to_ip. rewrite u32_add_small; lia.
  - unfold allocate_auto. destruct (auto_free_list a) as [|o rest] eqn:Ef.
    + destruct (_ <=? _); [done|]. destruct (scan a _) as [c|]; [|done]. simpl.
      destruct (Hrec c Auto (auto_free_list a) (u32_add c 1)) as [H1 H2]. rewrite Ef in H1, H2.
      split_and!; [done|intros ? Hs; by eapply Hnone|done].
    + simpl. destruct (Hrec o Auto rest (next_auto_offset a)) as [H1 H2].
      split_and!; [done|intros ? Hs; by eapply Hnone|done].
Qed.

(** After any sequence of allocations and releases no two resources hold the
    same address; an automatic address lies in the lower half of the subnet below
    the reserve and a manual one in the upper half, never on the network or the
    gateway address and never in the reserve. *)
Theorem ip_allocation_unique subnet p r l :
  good_subnet subnet p r →
  let a := foldl run_op (new subnet p r) l in
  let top := Z.max 0 (2 ^ (32 - p) - 2 - r) in
  (∀ k k' ip, ip_of a k = Some ip → ip_of a k' = Some ip → k = k') ∧
  (∀ k o, allocations a !! k = Some (o, Auto) →
     ip_of a k = Some (subnet + 2 + o) ∧ 0 ≤ o < top / 2) ∧
  (∀ k o, allocations a !! k = Some (o, Manual) →
     ip_of a k = Some (subnet + 2 + o) ∧ top / 2 ≤ o < top).
Proof.
  intros Hg a top. pose proof (new_zones _ _ _ Hg) as (Hh & He & Ha & _).
  assert (Hw : wf a) by by apply runs_wf, new_wf.
  destruct (runs_zones l (new subnet p r)) as (Hh' & Ha' & Hs' & He'). fold a in Hh', Ha', Hs', He'.
  assert (Hip : ∀ k o kd, allocations a !! k = Some (o, kd) → ip_of a k = Some (subnet + 2 + o)).
  { intros k o kd Hk. apply ip_of_Some; [done|]. exists o, kd. split; [done|]. lia. }
  split_and!.
  - intros k k' ip. by apply ip_of_inj.
  - intros k o Hk. split; [by eapply Hip|]. apply (wf_auto a Hw) in Hk.
    pose proof (wf_next a Hw). unfold top. rewrite <- He, <- Ha, <- Ha'. lia.
  - intros k o Hk. split; [by eapply Hip|]. apply (wf_manual a Hw) in Hk.
    rewrite Hs', He' in Hk. unfold top. rewrite <- He, <- Ha. done.
Qed.

(** A new automatic allocation succeeds with an address nobody holds, records
    it and leaves every other resource alone, unless every address of the automatic
    zone is in use: released addresses are never lost. *)
Theorem auto_allocation_complete a key :
  wf a → allocations a !! key = None →
  let '(res, a') := allocate key None a in
  match res with
  | inl al =>
      ia_kind al = Auto ∧ ip_of a' key = Some (ia_ip al) ∧
      (∀ k, ip_of a k ≠ Some (ia_ip al)) ∧ (∀ k, k ≠ key → ip_of a' k = ip_of a k)
  | inr e =>
      e = AutoZoneExhausted ∧ a' = a ∧
      ∀ o, 0 ≤ o < auto_zone_size a → ∃ k, allocations a !! k = Some (o, Auto)
  end.
Proof.
  intros Hw Hkey. pose proof (allocate_auto_wf key a Hw Hkey) as Hw'. revert Hw'.
  unfold allocate. rewrite Hkey. unfold allocate_auto. pose proof Hw as [].
  assert (Hfull : next_auto_offset a = auto_zone_size a → auto_free_list a = [] →
    ∀ o, 0 ≤ o < auto_zone_size a → ∃ k, allocations a !! k = Some (o, Auto)).
  { intros Hn Hf o Ho. rewrite <- Hn in Ho. rewrite Hf in *.
    destruct (wf_cover0 o Ho) as [(k & [] & Hk)%wf_occupied0|?]; [eauto| |set_solver].
    apply wf_manual0 in Hk. lia. }
  assert (Hnew : ∀ o, 0 ≤ o < auto_zone_size a → o ∉ occupied_offsets a →
    ∀ k, ip_of a k ≠ Some (offset_to_ip a o)).
  { intros o Ho Hno k (o' & kd & Hk & E)%ip_of_Some; [|done].
    rewrite offset_to_ip_exact in E by (done || lia). assert (o = o') as <- by lia.
    apply Hno, wf_occupied0. eauto. }
  assert (Hgood : ∀ o a1, a1 = {| a with auto_free_list := auto_free_list a1;
      next_auto_offset := next_auto_offset a1 |} →
    ip_of (record_allocation key o Auto a1) key = Some (offset_to_ip a1 o) ∧
    ∀ k, k ≠ key → ip_of (record_allocation key o Auto a1) k = ip_of a k).
  { intros o a1 ->. unfold ip_of, record_allocation; simpl. rewrite lookup_insert_eq. split; [done|].
    intros k Hk. by rewrite lookup_insert_ne. }
  destruct (auto_free_list a) as [|o rest] eqn:Ef.
  - destruct (Z.leb_spec (auto_zone_size a) (next_auto_offset a)); intros Hw'.
    + split_and!; [done|done|]. apply Hfull; [lia|done].
    + rewrite scan_next in * by done. destruct (Hgood (next_auto_offset a)
        {| a with next_auto_offset := u32_add (next_auto_offset a) 1 |} eq_refl).
      split_and!; [done|done| |done]. apply Hnew; [lia|].
      intros (k & [] & Hk)%wf_occupied0; [apply wf_auto0 in Hk|apply wf_manual0 in Hk]; lia.
  - intros Hw'. destruct (wf_free_range0 o) as [Hr Hno]; [set_solver|].
    destruct (Hgood o {| a with auto_free_list := rest |} eq_refl).
    split_and!; [done|done| |done]. apply Hnew; [lia|done].
Qed.

Lemma owner_of_spec a o :
  wf a → o ∈ occupied_offsets a → ∃ k kd, owner_of a o = Some k ∧ allocations a !! k = Some (o, kd).
Proof.
  intros Hw (k & kd & Hk)%(wf_occupied a Hw). unfold owner_of.
  assert (Hin : (k, (o, kd)) ∈ filter (λ e, e.2.1 = o) (map_to_list (allocations a)))
    by (apply list_elem_of_filter; split; [done|]; by apply elem_of_map_to_list).
  destruct (filter _ _) as [|[k' [o' kd']] l] eqn:E; [by apply elem_of_nil in Hin|].
  assert (Hh : (k', (o', kd')) ∈ filter (λ e, e.2.1 = o) (map_to_list (allocations a)))
    by (rewrite E; set_solver).
  apply list_elem_of_filter in Hh as [Ho' Hh%elem_of_map_to_list]. simpl in *. subst. eauto.
Qed.

(** A new explicit allocation either takes exactly the requested address, which
    is in the manual zone and free, or changes nothing and reports the reason: the
    address is outside the manual zone, or it belongs to the resource named in the
    error. *)
Theorem manual_allocation_exact a key ip :
  wf a → allocations a !! key = None →
  let '(res, a') := allocate key (Some ip) a in
  let in_zone := first_host a + manual_zone_start a ≤ ip < first_host a + manual_zone_end a in
  match res with
  | inl al => al = {| ia_ip := ip; ia_kind := Manual |} ∧ in_zone ∧
      ip_of a' key = Some ip ∧ (∀ k, ip_of a k ≠ Some ip)
  | inr (IpOutsideManualZone ip') => ip' = ip ∧ ¬ in_zone ∧ a' = a
  | inr (ManualIpCollision ip' k) => ip' = ip ∧ in_zone ∧ ip_of a k = Some ip ∧ a' = a
  | inr _ => False
  end.
Proof.
  intros Hw Hkey. pose proof Hw as []. unfold allocate. rewrite Hkey.
  unfold allocate_manual, ip_to_offset, checked_sub. case_decide as Hle.
  2:{ split_and!; [done|lia|done]. }
  destruct (_ || _) eqn:Hz.
  { split_and!; [done| |done]. apply orb_true_iff in Hz as [?%Z.ltb_lt|?%Z.leb_le]; lia. }
  apply orb_false_iff in Hz as [?%Z.ltb_ge ?%Z.leb_gt]. case_decide as Ho; simpl.
  - destruct (owner_of_spec a (ip - first_host a) Hw Ho) as (k & kd & -> & Hk). simpl.
    split_and!; try done; try lia. apply ip_of_Some; [done|]. exists (ip - first_host a), kd.
    split; [done|]. lia.
  - split_and!; try done; try lia.
    + unfold ip_of, record_allocation; simpl. rewrite lookup_insert_eq. simpl. f_equal.
      unfold offset_to_ip; simpl. rewrite u32_add_small; lia.
    + intros k (o & kd & Hk & ->)%ip_of_Some; [|done]. apply Ho, wf_occupied0.
      exists k, kd. rewrite Hk. do 2 f_equal. lia.
Qed.

(** *** Concrete allocators: the /28 of the source's tests *)
Definition demo28 (l : list ip_op) : NamespaceIpAllocator := foldl run_op (new 167772160 28 2) l.
Definition demo_ops : list ip_op :=
  [Allocate (KWorkload "a") None; Allocate (KWorkload "b") None; Allocate (KService "s") (Some 167772170);
   Release (KWorkload "a")].

Lemma demo_good : good_subnet 167772160 28 2.
Proof. unfold good_subnet. lia. Qed.

Lemma ip_allocation_unique_witness :
  ip_of (demo28 demo_ops) (KService "s") = Some (167772160 + 2 + 8) ∧ 12 / 2 ≤ 8 < 12.
Proof.
  apply (ip_allocation_unique 167772160 28 2 demo_ops demo_good). by vm_compute.
Defined.

Lemma auto_allocation_complete_witness :
  (allocate (KWorkload "c") None (demo28 demo_ops)).1 =
    inl {| ia_ip := 167772162; ia_kind := Auto |} ∧
  ip_of (demo28 demo_ops) (KService "s") ≠ Some 167772162.
Proof.
  pose proof (auto_allocation_complete (demo28 demo_ops) (KWorkload "c")
    (runs_wf demo_ops _ (new_wf _ _ _ demo_good)) ltac:(by vm_compute)) as H.
  assert (E : (allocate (KWorkload "c") None (demo28 demo_ops)).1 =
    inl {| ia_ip := 167772162; ia_kind := Auto |}) by by vm_compute.
  split; [done|]. destruct (allocate (KWorkload "c") None (demo28 demo_ops)) as [res a'].
  simpl in E. subst res. apply H.
Defined.

Lemma manual_allocation_exact_witness :
  (allocate (KWorkload "c") (Some 167772170) (demo28 demo_ops)).1 =
    inr (ManualIpCollision 167772170 (KService "s")) ∧
  ip_of (demo28 demo_ops) (KService "s") = Some 167772170.
Proof.
  pose proof (manual_allocation_exact (demo28 demo_ops) (KWorkload "c") 167772170
    (runs_wf demo_ops _ (new_wf _ _ _ demo_good)) ltac:(by vm_compute)) as H.
  assert (E : (allocate (KWorkload "c") (Some 167772170) (demo28 demo_ops)).1 =
    inr (ManualIpCollision 167772170 (KService "s"))) by by vm_compute.
  split; [done|]. destruct (allocate (KWorkload "c") (Some 167772170) (demo28 demo_ops)) as [res a'].
  simpl in E. subst res. exact (proj1 (proj2 (proj2 H))).
Defined.

End Ip.

(** ** WireGuard peers *)
Module Wg.

Record WgPeerInfo := { client_ip : Ipv4Addr }.
Inductive WgPeerOutput :=
  | AddPeer (peer_public_key : list Z) (peer_ip : Ipv4Addr)
  | RemovePeer (peer_public_key : list Z).
Inductive ConnectResult :=
  | ConnectOk (ip : Ipv4Addr) (outputs : list WgPeerOutput)
  | ConnectError (message : string).

Record WireGuardPeerManager := {
  peers : gmap (list Z) WgPeerInfo;
  next_host_offset : Z;
  subnet : Ipv4Addr;
  prefix_len : Z;
}.

Definition new (subnet : Ipv4Addr) (prefix_len : Z) : WireGuardPeerManager :=
  {| peers := ∅; next_host_offset := wrap 16 (wrap 32 (Z.shiftl 1 (32 - prefix_len) - 2));
     subnet := subnet; prefix_len := prefix_len |}.

Definition connect (client_public_key : list Z) (m : WireGuardPeerManager) :
    ConnectResult * WireGuardPeerManager :=
  match peers m !! client_public_key with
  | Some peer => (ConnectOk (client_ip peer) [], m)
  | None =>
      if next_host_offset m <? 2 then
        (ConnectError "no more WireGuard peer IPs available", m)
      else
        let ip := u32_add (subnet m) (next_host_offset m) in
        (ConnectOk ip [AddPeer client_public_key ip],
         {| m with next_host_offset := next_host_offset m - 1;
                   peers := <[client_public_key := {| client_ip := ip |}]> (peers m) |})
  end.

Definition disconnect (client_public_key : list Z) (m : WireGuardPeerManager) :
    list WgPeerOutput * WireGuardPeerManager :=
  match peers m !! client_public_key with
  | Some _ => ([RemovePeer client_public_key],
               {| m with peers := delete client_public_key (peers m) |})
  | None => ([], m)
  end.

Inductive wg_op := Connect (key : list Z) | Disconnect (key : list Z).
Definition run_op (m : WireGuardPeerManager) (o : wg_op) : WireGuardPeerManager :=
  match o with
  | Connect key => (connect key m).2
  | Disconnect key => (disconnect key m).2
  end.

(** The offsets above the cursor have been handed out, each at most once. *)
Record wf (base top : Z) (m : WireGuardPeerManager) : Prop := {
  wf_subnet : subnet m = base;
  wf_cursor : 1 ≤ next_host_offset m ≤ top;
  wf_peers : ∀ k p, peers m !! k = Some p → base + next_host_offset m < client_ip p ≤ base + top;
  wf_unique : ∀ k k' p, peers m !! k = Some p → peers m !! k' = Some p → k = k';
}.

Lemma connect_wf base top k m :
  0 ≤ base → base + top ≤ u32_max → wf base top m → wf base top (connect k m).2.
Proof.
  intros Hb Hfit [<- Hc Hp Hu]. unfold connect. destruct (peers m !! k) as [p|] eqn:Ek; [done|].
  destruct (Z.ltb_spec (next_host_offset m) 2); [done|]. simpl.
  rewrite u32_add_small by lia. split; simpl; [done|lia|..].
  - intros k' p [[<- <-]|[? Hk]]%lookup_insert_Some; simpl; [lia|]. apply Hp in Hk. lia.
  - intros k1 k2 p [[<- <-]|[? H1]]%lookup_insert_Some [[<- E]|[? H2]]%lookup_insert_Some; simpl; try done.
    + apply Hp in H2. simpl in H2. lia.
    + subst p. apply Hp in H1. simpl in H1. lia.
    + by eapply Hu.
Qed.

Lemma disconnect_wf base top k m : wf base top m → wf base top (disconnect k m).2.
Proof.
  intros [<- Hc Hp Hu]. unfold disconnect. destruct (peers m !! k) as [p|] eqn:Ek; [|done]. simpl.
  split; simpl; try done.
  - intros k' p' [_ Hk]%lookup_delete_Some. eauto.
  - intros k1 k2 p' [_ H1]%lookup_delete_Some [_ H2]%lookup_delete_Some. eauto.
Qed.

(** A cursor only moves when a peer is added. *)
Definition is_connect (o : wg_op) : bool := match o with Connect _ => true | _ => false end.
Definition connects (l : list wg_op) : Z := zlen (filter (λ o, is_connect o = true) l).

Lemma connects_cons o l : connects (o :: l) = (if is_connect o then 1 else 0) + connects l.
Proof.
  unfold connects. destruct (is_connect o) eqn:E.
  - rewrite filter_cons_True by done. simpl. lia.
  - rewrite filter_cons_False by congruence. lia.
Qed.

Lemma wg_runs_wf base top l m :
  0 ≤ base → base + top ≤ u32_max → wf base top m →
  wf base top (foldl run_op m l) ∧
  next_host_offset m - connects l ≤ next_host_offset (foldl run_op m l).
Proof.
  intros Hb Hfit. revert m. induction l as [|o l IH]; intros m Hm; cbn [foldl].
  { split; [done|]. unfold connects; simpl. lia. }
  rewrite connects_cons.
  destruct (IH (run_op m o)) as [H1 H2].
  { destruct o; simpl; [by apply connect_wf|by apply disconnect_wf]. }
  split; [done|]. destruct o as [k|k]; simpl in *.
  - assert (next_host_offset m - 1 ≤ next_host_offset (connect k m).2); [|lia].
    unfold connect. destruct (peers m !! k); [simpl; lia|]. destruct (_ <? 2); simpl; lia.
  - assert (next_host_offset (disconnect k m).2 = next_host_offset m); [|lia].
    unfold disconnect. by destruct (peers m !! k).
Qed.

Definition good_subnet (base p : Z) : Prop :=
  0 ≤ base ∧ 16 ≤ p ≤ 30 ∧ base + 2 ^ (32 - p) ≤ 2 ^ 32.

Lemma wg_new_wf base p :
  good_subnet base p →
  wf base (2 ^ (32 - p) - 2) (new base p) ∧ next_host_offset (new base p) = 2 ^ (32 - p) - 2.
Proof.
  intros (Hb & Hp & Hfit).
  assert (4 ≤ 2 ^ (32 - p)) by (change 4 with (2 ^ 2); apply Z.pow_le_mono_r; lia).
  assert (2 ^ (32 - p) ≤ 2 ^ 16) by (apply Z.pow_le_mono_r; lia).
  assert (Hn : next_host_offset (new base p) = 2 ^ (32 - p) - 2).
  { simpl. rewrite Z.shiftl_mul_pow2, Z.mul_1_l by lia. by rewrite (wrap_small 32), (wrap_small 16) by lia. }
  split; [|done]. split; [done|rewrite Hn; lia|..]; simpl; intros; by rewrite lookup_empty in *.
Qed.

(** Peers of a namespace never share an address, and every peer address is a
    host address of the subnet, below the broadcast address and above the gateway. *)
Theorem wg_peer_addresses base p l :
  good_subnet base p →
  let m := foldl run_op (new base p) l in
  (∀ k k' q, peers m !! k = Some q → peers m !! k' = Some q → k = k') ∧
  (∀ k q, peers m !! k = Some q → base + 1 < client_ip q < base + 2 ^ (32 - p) - 1).
Proof.
  intros Hg m. destruct (wg_new_wf base p Hg) as [Hw _]. destruct Hg as (Hb & Hp & Hfit).
  destruct (wg_runs_wf base (2 ^ (32 - p) - 2) l (new base p)) as [[] _]; [lia|unfold u32_max; lia|done|].
  fold m in wf_cursor0, wf_peers0, wf_unique0.
  split; [done|]. intros k q Hk%wf_peers0. clearbody m. lia.
Qed.

(** As long as fewer peers than the reserve have ever connected, no peer address
    is one the allocator of the namespace can hand out, in whatever order the
    operations of the two interleave. *)
Theorem wg_reserve_disjoint base p r l l' :
  good_subnet base p → 0 < r ≤ 2 ^ (32 - p) - 2 → connects l < r →
  let m := foldl run_op (new base p) l in
  let a := foldl Ip.run_op (Ip.new base p r) l' in
  ∀ k q key ip, peers m !! k = Some q → Ip.ip_of a key = Some ip → ip < client_ip q.
Proof.
  intros Hg Hr Hl m a k q key ip Hk Hip. destruct (wg_new_wf base p Hg) as [Hw Hn].
  destruct Hg as (Hb & Hp & Hfit).
  destruct (wg_runs_wf base (2 ^ (32 - p) - 2) l (new base p)) as [Hm Hc]; [lia|unfold u32_max; lia|done|].
  apply (wf_peers _ _ _ Hm) in Hk. rewrite Hn in Hc.
  assert (Hg : Ip.good_subnet base p r) by (unfold Ip.good_subnet; lia).
  destruct (Ip.new_zones _ _ _ Hg) as (Hh & He & _).
  destruct (Ip.runs_zones l' (Ip.new base p r)) as (Hh' & _ & _ & He').
  fold a in Hh', He'. assert (Ha : Ip.wf a) by by apply Ip.runs_wf, Ip.new_wf.
  apply Ip.ip_of_Some in Hip as (o & kd & Ho & ->); [|done]. apply Ip.offset_bounds in Ho; [|done].
  lia.
Qed.

(** *** Concrete managers *)
Definition demo_keys (n : nat) : list wg_op := (λ i, Connect [Z.of_nat i]) <$> seq 0 n.

Lemma wg_peer_addresses_witness :
  2886729728 + 1 < 2886729982 < 2886729728 + 2 ^ (32 - 24) - 1.
Proof.
  apply (proj2 (wg_peer_addresses 2886729728 24 (demo_keys 3) ltac:(unfold good_subnet; lia))
           [0] {| client_ip := 2886729982 |}). by vm_compute.
Defined.

Definition demo_service : list Ip.ip_op :=
  [Ip.Allocate (KService "s") (Some 2886729973)].

Lemma wg_reserve_disjoint_witness : 2886729973 < 2886729974.
Proof.
  apply (wg_reserve_disjoint 2886729728 24 10 (demo_keys 9) demo_service
           ltac:(unfold good_subnet; lia) ltac:(lia) ltac:(by vm_compute)
           [8] {| client_ip := 2886729974 |} (KService "s")); by vm_compute.
Defined.

(** The reserve of ten addresses of a /24 holds nine peers: the tenth peer gets an
    address of the manual zone, here one that a service already holds. *)
Example wg_reserve_off_by_one :
  let a := foldl Ip.run_op (Ip.new 2886729728 24 10) demo_service in
  Ip.ip_of a (KService "s") = Some 2886729973 ∧
  (connect [9] (foldl run_op (new 2886729728 24) (demo_keys 9))).1 =
    ConnectOk 2886729973 [AddPeer [9] 2886729973].
Proof. by vm_compute. Qed.

End Wg.
