(* ===== verification/Pressure.v ===== *)
(** * Pressure bands with hysteresis
      ([crates/orchestrator/src/core/pressure.rs], [types/states.rs])

    Scores are IEEE-754 binary32 values, here the [spec_float] of the Standard
    Library with the comparison it specifies, so that a NaN score behaves as in the
    source (every comparison is false).  The thresholds are the binary32 numbers the
    decimal literals denote. *)

From S2P Require Import Prelude.
From Stdlib Require Import SpecFloat.

Module Pressure.

Inductive PressureBand := Normal | Elevated | High | Critical.
#[global] Instance PressureBand_eq : EqDecision PressureBand.
Proof. solve_decision. Defined.

(** The derived order of the variants. *)
Definition band_rank (b : PressureBand) : Z :=
  match b with Normal => 0 | Elevated => 1 | High => 2 | Critical => 3 end.
Definition band_ltb (a b : PressureBand) : bool := band_rank a <? band_rank b.
Definition band_max (a b : PressureBand) : PressureBand := if band_ltb b a then a else b.

Definition f32 : Type := spec_float.
Definition f32_lit (m : positive) (e : Z) : f32 := S754_finite false m e.
Definition f32_ge (x y : f32) : bool := SFleb y x.
Definition f32_lt (x y : f32) : bool := SFltb x y.

Definition enter_threshold (b : PressureBand) : f32 :=
  match b with
  | Normal => S754_zero false
  | Elevated => f32_lit 8388608 (-24)
  | High => f32_lit 13421773 (-24)
  | Critical => f32_lit 15938355 (-24)
  end.
Definition leave_threshold (b : PressureBand) : f32 :=
  match b with
  | Normal => S754_zero false
  | Elevated => f32_lit 13421773 (-25)
  | High => f32_lit 11744051 (-24)
  | Critical => f32_lit 14260634 (-24)
  end.

Record WorkerPressure := {
  wp_compute : f32; wp_memory : f32; wp_storage : f32; wp_network : f32 }.
Record PressureBands := {
  pb_compute : PressureBand; pb_memory : PressureBand;
  pb_storage : PressureBand; pb_network : PressureBand }.

Definition bands_default : PressureBands :=
  {| pb_compute := Normal; pb_memory := Normal; pb_storage := Normal; pb_network := Normal |}.
Definition max_band (b : PressureBands) : PressureBand :=
  band_max (band_max (band_max (pb_compute b) (pb_memory b)) (pb_storage b)) (pb_network b).

Definition compute_band_with_hysteresis (current : PressureBand) (score : f32) : PressureBand :=
  if f32_ge score (enter_threshold Critical) then Critical
  else if f32_ge score (enter_threshold High) && band_ltb current High then High
  else if f32_ge score (enter_threshold Elevated) && band_ltb current Elevated then Elevated
  else if bool_decide (current = Critical) && f32_lt score (leave_threshold Critical) then
    if f32_ge score (enter_threshold High) then High
    else if f32_ge score (enter_threshold Elevated) then Elevated
    else Normal
  else if bool_decide (current = High) && f32_lt score (leave_threshold High) then
    if f32_ge score (enter_threshold Elevated) then Elevated else Normal
  else if bool_decide (current = Elevated) && f32_lt score (leave_threshold Elevated) then Normal
  else current.

Definition update_bands (p : WorkerPressure) (current : PressureBands) : PressureBands :=
  {| pb_compute := compute_band_with_hysteresis (pb_compute current) (wp_compute p);
     pb_memory := compute_band_with_hysteresis (pb_memory current) (wp_memory p);
     pb_storage := compute_band_with_hysteresis (pb_storage current) (wp_storage p);
     pb_network := compute_band_with_hysteresis (pb_network current) (wp_network p) |}.

(** ** The order of the thresholds *)
Definition lit_le (m : positive) (e : Z) (m' : positive) (e' : Z) : Prop :=
  e < e' ∨ e = e' ∧ (m ≤ m')%positive.

Lemma ge_mono x m e m' e' :
  lit_le m e m' e' → f32_ge x (f32_lit m' e') = true → f32_ge x (f32_lit m e) = true.
Proof.
  unfold f32_ge, f32_lit, SFleb, SFcompare, lit_le. intros Hle.
  destruct x as [|[]| |[] m0 e0]; try done.
  change (Pos.compare_cont Eq m' m0) with (Pos.compare m' m0).
  change (Pos.compare_cont Eq m m0) with (Pos.compare m m0).
  destruct (Z.compare_spec e' e0), (Z.compare_spec e e0); try done; try lia;
    destruct (Pos.compare_spec m' m0), (Pos.compare_spec m m0); done || lia.
Qed.

Lemma lt_not_ge x m e : f32_lt x (f32_lit m e) = true → f32_ge x (f32_lit m e) = false.
Proof.
  unfold f32_lt, f32_ge, f32_lit, SFltb, SFleb, SFcompare.
  destruct x as [|[]| |[] m0 e0]; try done.
  change (Pos.compare_cont Eq m m0) with (Pos.compare m m0).
  change (Pos.compare_cont Eq m0 m) with (Pos.compare m0 m).
  rewrite (Z.compare_antisym e0 e), (Pos.compare_antisym m0 m).
  destruct (e0 ?= e), (m0 ?= m)%positive; done.
Qed.

(** The facts the case analyses need: the enter thresholds are increasing and each
    band is left below the level at which it is entered. *)
Lemma thresholds x :
  (f32_ge x (enter_threshold Critical) = true → f32_ge x (enter_threshold High) = true) ∧
  (f32_ge x (enter_threshold High) = true → f32_ge x (enter_threshold Elevated) = true) ∧
  (f32_lt x (leave_threshold Critical) = true → f32_ge x (enter_threshold Critical) = false) ∧
  (f32_lt x (leave_threshold High) = true → f32_ge x (enter_threshold High) = false) ∧
  (f32_lt x (leave_threshold Elevated) = true → f32_ge x (enter_threshold Elevated) = false).
Proof.
  split_and!; try (apply ge_mono; unfold lit_le; lia);
    intros Hlt%lt_not_ge; apply not_true_is_false; intros Hge;
    apply not_true_iff_false in Hlt; apply Hlt; revert Hge; apply ge_mono; unfold lit_le; lia.
Qed.

#[local] Arguments f32_ge : simpl never.
#[local] Arguments f32_lt : simpl never.
#[local] Arguments enter_threshold : simpl never.
#[local] Arguments leave_threshold : simpl never.

Ltac band_cases :=
  unfold compute_band_with_hysteresis;
  repeat match goal with
         | |- context [f32_ge ?x ?t] => destruct (f32_ge x t) eqn:?; simpl
         | |- context [f32_lt ?x ?t] => destruct (f32_lt x t) eqn:?; simpl
         end.

(** A steady score gives a steady band: recomputing the band from the same
    score, whatever the score (a NaN included), changes nothing. *)
Theorem pressure_band_idempotent current score :
  compute_band_with_hysteresis (compute_band_with_hysteresis current score) score =
  compute_band_with_hysteresis current score.
Proof.
  destruct (thresholds score) as (H1 & H2 & H3 & H4 & H5).
  destruct current; band_cases; try done; intuition congruence.
Qed.

(** A band is only raised to one whose enter threshold the score has reached and
    only lowered when the score is below the leave threshold of the current band,
    which lies below its enter threshold; a critical score is never missed. *)
Theorem pressure_band_hysteresis current score :
  let band := compute_band_with_hysteresis current score in
  (band_rank current < band_rank band → f32_ge score (enter_threshold band) = true) ∧
  (band_rank band < band_rank current →
     f32_lt score (leave_threshold current) = true ∧
     f32_ge score (enter_threshold current) = false) ∧
  (f32_ge score (enter_threshold Critical) = true → band = Critical) ∧
  (∀ b, band_rank current ≤ band_rank b → f32_ge score (enter_threshold b) = true → b ≠ Normal →
     band_rank b ≤ band_rank band).
Proof.
  destruct (thresholds score) as (H1 & H2 & H3 & H4 & H5).
  intros band. unfold band. clear band. split_and!.
  - destruct current; band_cases; try done; simpl; lia.
  - destruct current; band_cases; simpl; try done; try lia; intros _; intuition congruence.
  - intros Hc. unfold compute_band_with_hysteresis. by rewrite Hc.
  - intros b Hb Hge Hn. revert Hge. destruct b; try done; destruct current; simpl in Hb; try lia;
      band_cases; simpl; try done; try lia; intuition congruence.
Qed.

End Pressure.
