(* ===== verification/Protocol.v ===== *)
(** * The worker protocol ([crates/worker-protocol/src/types.rs])

    The commands the orchestrator sends to a worker and the events a worker reports,
    with the data they carry.  The protocol types that a pod spec embeds are in
    [SmTypes].  [NamespaceId] pairs a name with the incarnation number under which
    the orchestrator created it. *)

From S2P Require Import Prelude SmTypes.
From Stdlib Require Import SpecFloat.
#[local] Open Scope Z_scope.

(** ** Identifiers *)
Record NamespaceId := { ns_name : string; ns_id : Z }.
#[global] Instance NamespaceId_eq : EqDecision NamespaceId.
Proof. solve_decision. Defined.
#[global] Instance NamespaceId_countable : Countable NamespaceId.
Proof.
  refine (inj_countable' (λ n, (ns_name n, ns_id n)) (λ '(a, b), {| ns_name := a; ns_id := b |}) _).
  by intros [].
Defined.
Definition ArtifactId : Type := string.
Definition PoolId : Type := string.

(** ** Worker data *)
Record PsiMetrics := {
  some_avg10 : spec_float; some_avg60 : spec_float;
  full_avg10 : spec_float; full_avg60 : spec_float }.
Record PoolInfo := {
  pi_pool_id : PoolId; pi_path : string; pi_capacity_bytes : Z; pi_available_bytes : Z }.
Record WorkerCapabilities := {
  has_kvm : bool; has_containerd : bool; available_adapters : list string;
  max_pods : Z; available_memory_mb : Z; public_endpoint : string; pools : list PoolInfo }.
Record WorkerPeerInfo := {
  wpi_worker_id : WorkerId; wpi_endpoint : string; wpi_public_key : list Z;
  wpi_segments : list Z }.
Inductive TunnelPeerStatus :=
  | TunnelConnected | TunnelDisconnected (error : string) | TunnelHandshakeFailed (error : string).
Inductive MemoryConstraintReason := BalloonExhausted | DeflationStalled.

(** ** Networks, names and endpoints *)
Record NetworkConfig := {
  nc_subnet : Ipv4Addr; nc_gateway : Ipv4Addr; nc_prefix_len : Z; nc_segment_id : option Z }.
Record RegistryEntry := { re_name : string; re_ip : Ipv4Addr }.
Record EndpointPlacement := { epl_worker_id : WorkerId }.
Record EndpointPodBackend := {
  epb_pod_ip : Ipv4Addr; epb_placement : option EndpointPlacement; epb_ready : bool }.
Inductive WireEndpointKind :=
  | KindService (service_id : ServiceId) (policy : ServicePolicy) (backend : option EndpointPodBackend)
  | KindPod (placement : option EndpointPlacement)
  | KindWireGuardPeer (placement : option EndpointPlacement).
Record EndpointSpec := { esp_ip : Ipv4Addr; esp_kind : WireEndpointKind }.

(** ** Commands *)
Module Command.
Inductive WorkerCommand :=
  | CreateNamespace (namespace_id : NamespaceId) (network : NetworkConfig)
  | DestroyNamespace (namespace_id : NamespaceId)
  | RegistrySync (namespace_id : NamespaceId) (entries : list RegistryEntry)
  | RegistryUpdate (namespace_id : NamespaceId) (added : list RegistryEntry) (removed : list string)
  | LaunchPod (namespace_id : NamespaceId) (pod_id : PodId) (network : PodNetworkConfig)
      (containers : list ContainerSpec) (resources : option ResourceRequirements)
      (volumes : list VolumeSpec)
  | StopPod (namespace_id : NamespaceId) (pod_id : PodId) (graceful : bool)
  | AddWireGuardPeer (namespace_id : NamespaceId) (peer_public_key : list Z) (peer_ip : Ipv4Addr)
      (preshared_key : option (list Z))
  | RemoveWireGuardPeer (peer_public_key : list Z)
  | SuspendPod (namespace_id : NamespaceId) (pod_id : PodId) (artifact_id : ArtifactId)
      (pool_id : PoolId)
  | ResumePod (namespace_id : NamespaceId) (pod_id : PodId) (artifact_id : ArtifactId)
      (network : PodNetworkConfig) (pool_id : PoolId)
  | DeleteArtifact (artifact_id : ArtifactId) (pool_id : PoolId)
  | TransferArtifact (transfer_id : Z) (source_artifact_id : ArtifactId) (source_pool_id : PoolId)
      (dest_artifact_id : ArtifactId) (dest_pool_id : PoolId) (dest_endpoint : option string)
  | WorkerRegistrySync (workers : list WorkerPeerInfo)
  | EndpointSync (namespace_id : NamespaceId) (endpoints : list EndpointSpec)
  | EndpointUpdate (namespace_id : NamespaceId) (upserted : list EndpointSpec)
      (removed_ips : list Ipv4Addr)
  | Shutdown.
End Command.
Abbreviation WorkerCommand := Command.WorkerCommand.

(** ** Events *)
Module Event.
Inductive WorkerEvent :=
  | NamespaceCreated (namespace_id : NamespaceId)
  | PodRunning (namespace_id : NamespaceId) (pod_id : PodId)
  | PodExited (namespace_id : NamespaceId) (pod_id : PodId) (exit_code : Z)
  | PodFailed (namespace_id : NamespaceId) (pod_id : PodId) (error : string)
  | NamespaceFailed (namespace_id : NamespaceId) (error : string)
  | ShuttingDown
  | PodLogStreamError (namespace_id : NamespaceId) (pod_id : PodId)
      (container_id phase error : string)
  | PodSuspended (namespace_id : NamespaceId) (pod_id : PodId) (artifact_id : ArtifactId)
      (artifact_size_bytes : Z) (pool_id : PoolId)
  | PodSuspendFailed (namespace_id : NamespaceId) (pod_id : PodId) (error : string)
  | NamespaceDestroyed (namespace_id : NamespaceId)
  | TunnelStatus (peer_worker_id : WorkerId) (status : TunnelPeerStatus)
  | WorkerCondition (key : string) (active : bool) (message : string)
  | PoolCapacityUpdate (pools : list PoolInfo)
  | ArtifactWriteStarted (namespace_id : NamespaceId) (artifact_id : ArtifactId) (pool_id : PoolId)
  | ArtifactWriteCommitted (namespace_id : NamespaceId) (artifact_id : ArtifactId)
      (pool_id : PoolId) (size_bytes : Z)
  | ArtifactTransferReceived (transfer_id : Z) (source_artifact_id : ArtifactId)
      (source_pool_id : PoolId) (dest_artifact_id : ArtifactId) (dest_pool_id : PoolId)
      (size_bytes : Z)
  | TransferFailed (transfer_id : Z) (source_artifact_id : ArtifactId) (source_pool_id : PoolId)
      (dest_artifact_id : ArtifactId) (dest_pool_id : PoolId) (error : string)
  | PressureUpdate (cpu memory io : PsiMetrics)
  | EndpointDemandTraffic (namespace_id : NamespaceId) (ip : Ipv4Addr) (service_id : option ServiceId)
  | EndpointDemandActive (namespace_id : NamespaceId) (ip : Ipv4Addr)
      (service_id : option ServiceId) (active : bool)
  | PodMemoryConstrained (namespace_id : NamespaceId) (pod_id : PodId)
      (reason : MemoryConstraintReason)
  | PodMemoryConstraintCleared (namespace_id : NamespaceId) (pod_id : PodId)
  | PodOomKill (namespace_id : NamespaceId) (pod_id : PodId) (count : Z).
End Event.
Abbreviation WorkerEvent := Event.WorkerEvent.
