(* ===== verification/Scheduler.v ===== *)
(** * The global scheduler
      ([crates/orchestrator/src/core/orchestrator/scheduler/mod.rs],
       [placement_table.rs])

    [Placement] is the table of artifact copies, [Scheduler] the core that grants
    pod leases to workers.  Results that depend on the order in which a [HashMap] is
    visited are modelled over an arbitrary visiting order ([HashIter]).  The
    theorems show that a selection is the best eligible worker whatever that order,
    that the scheduler never leaves a request pending while a worker could take it,
    and that artifacts are invalidated exactly when their last ready copy is lost. *)

From S2P Require Import Prelude SmTypes Pressure Protocol.
From Stdlib Require Import Ascii.

Abbreviation GlobalWorkerId := Z (only parsing).
(** The composite key of a pod: namespace and per-router pod id. *)
Abbreviation PodKey := (NamespaceId * Z)%type (only parsing).

(** ** Artifact placement *)
Module Placement.

Inductive ArtifactStatus := Writing | Ready (pool_id : PoolId) (size_bytes : Z).
Inductive ArtifactPlacementEvent :=
  | WriteStarted (artifact_id : ArtifactId) (pool_id : PoolId)
  | WriteCommitted (artifact_id : ArtifactId) (pool_id : PoolId) (size_bytes : Z)
  | TransferReceived (artifact_id : ArtifactId) (pool_id : PoolId) (size_bytes : Z)
  | TransferFailed (artifact_id : ArtifactId).

Abbreviation PlacementTable := (gmap string (gmap Z ArtifactStatus)).

Definition place (artifact_id : ArtifactId) (worker_id : GlobalWorkerId) (st : ArtifactStatus)
    (t : PlacementTable) : PlacementTable :=
  <[artifact_id := <[worker_id := st]> (default ∅ (t !! artifact_id))]> t.

Definition apply_event (worker_id : GlobalWorkerId) (event : ArtifactPlacementEvent)
    (t : PlacementTable) : PlacementTable :=
  match event with
  | WriteStarted artifact_id _ => place artifact_id worker_id Writing t
  | WriteCommitted artifact_id pool_id size_bytes
  | TransferReceived artifact_id pool_id size_bytes =>
      place artifact_id worker_id (Ready pool_id size_bytes) t
  | TransferFailed artifact_id =>
      match t !! artifact_id with
      | Some workers =>
          let workers := delete worker_id workers in
          if decide (workers = ∅) then delete artifact_id t else <[artifact_id := workers]> t
      | None => t
      end
  end.

Definition remove_worker (worker_id : GlobalWorkerId) (t : PlacementTable) : PlacementTable :=
  omap (λ workers : gmap Z ArtifactStatus,
          let workers := delete worker_id workers in
          if decide (workers = ∅) then None else Some workers) t.

Definition is_ready (st : ArtifactStatus) : bool := match st with Ready _ _ => true | _ => false end.

Definition workers_with_artifact (artifact_id : ArtifactId) (t : PlacementTable) : gset Z :=
  match t !! artifact_id with
  | Some workers => dom (filter (λ e, is_ready e.2 = true) workers)
  | None => ∅
  end.

Definition any_worker_with_artifact `{!HashIter Z} (artifact_id : ArtifactId)
    (t : PlacementTable) : option (GlobalWorkerId * PoolId) :=
  t !! artifact_id ≫= λ workers,
    find_map (λ e : Z * ArtifactStatus, match e.2 with Ready pool_id _ => Some (e.1, pool_id) | _ => None end)
      (hash_iter workers).

Definition remove_artifact (artifact_id : ArtifactId) (t : PlacementTable) : PlacementTable :=
  delete artifact_id t.

(** The status of a copy; every operation is a pointwise update of it. *)
Definition copy (t : PlacementTable) (a : ArtifactId) (w : GlobalWorkerId) : option ArtifactStatus :=
  t !! a ≫= (.!! w).

Lemma elem_of_workers a t w :
  w ∈ workers_with_artifact a t ↔ ∃ st, copy t a w = Some st ∧ is_ready st = true.
Proof.
  unfold workers_with_artifact, copy. destruct (t !! a) as [ws|]; simpl.
  - rewrite elem_of_dom. unfold is_Some. setoid_rewrite map_lookup_filter_Some. done.
  - split; [by intros ?%elem_of_empty|by intros (? & ? & _)].
Qed.

Lemma copy_remove_worker w t a w' :
  copy (remove_worker w t) a w' = if decide (w' = w) then None else copy t a w'.
Proof.
  unfold copy, remove_worker. rewrite lookup_omap. destruct (t !! a) as [ws|]; simpl; [|by case_decide].
  destruct (decide (delete w ws = ∅)) as [E|]; simpl.
  - case_decide; [done|]. rewrite <- (lookup_delete_ne ws w w') by done. by rewrite E, lookup_empty.
  - case_decide; [subst; by rewrite lookup_delete_eq|by rewrite lookup_delete_ne].
Qed.

Lemma copy_place a w st t a' w' :
  copy (place a w st t) a' w' = if decide (a' = a ∧ w' = w) then Some st else copy t a' w'.
Proof.
  unfold copy, place. destruct (decide (a' = a)) as [->|Hne].
  - rewrite lookup_insert_eq; simpl. destruct (decide (w' = w)) as [->|].
    + rewrite lookup_insert_eq. by rewrite decide_True.
    + rewrite lookup_insert_ne, decide_False by naive_solver.
      destruct (t !! a); simpl; [done|apply lookup_empty].
  - rewrite lookup_insert_ne, decide_False by naive_solver. done.
Qed.

End Placement.

(** ** The scheduler core *)
Module Scheduler.
Import Pressure Placement.

Record WorkerCandidate := {
  worker_id : GlobalWorkerId;
  max_pressure_band : PressureBand;
  pod_count : Z;
  draining : bool;
  active : bool;
}.
Record PendingEntry := { proto_resume_artifact : option ArtifactId }.
Record GrantedEntry := { granted_worker : GlobalWorkerId }.
Inductive SchedulerDecision :=
  | Grant (namespace_id : NamespaceId) (pod_id : PodId) (worker_id : GlobalWorkerId)
  | Revoke (namespace_id : NamespaceId) (pod_id : PodId) (worker_id : GlobalWorkerId).
Record DeleteArtifactCommand := {
  da_worker_id : GlobalWorkerId; da_artifact_id : ArtifactId; da_pool_id : PoolId }.
Record SchedulerEffects := {
  decisions : list SchedulerDecision;
  artifact_invalidations : list Z;
  delete_commands : list DeleteArtifactCommand;
}.
Definition effects_new : SchedulerEffects :=
  {| decisions := []; artifact_invalidations := []; delete_commands := [] |}.
Definition from_decisions (d : list SchedulerDecision) : SchedulerEffects :=
  {| decisions := d; artifact_invalidations := []; delete_commands := [] |}.

Record SchedulerCore := {
  pending : gmap PodKey PendingEntry;
  granted : gmap PodKey GrantedEntry;
  workers : gmap Z WorkerCandidate;
  placements : PlacementTable;
  artifact_refs : gmap string NamespaceId;
}.

Inductive SchedulerCoreInput :=
  | RequestLease (namespace_id : NamespaceId) (pod_id : PodId) (resume : option ArtifactId)
  | DropRequest (namespace_id : NamespaceId) (pod_id : PodId)
  | WorkerUpdate (worker_id : GlobalWorkerId) (candidate : WorkerCandidate)
  | WorkerRemoved (worker_id : GlobalWorkerId)
  | ArtifactEvent (worker_id : GlobalWorkerId) (event : ArtifactPlacementEvent)
  | ArtifactReferenced (proto_artifact_id : ArtifactId) (namespace_id : NamespaceId)
  | ArtifactReleased (proto_artifact_id : ArtifactId) (namespace_id : NamespaceId).

Definition new : SchedulerCore :=
  {| pending := ∅; granted := ∅; workers := ∅; placements := ∅; artifact_refs := ∅ |}.

(** *** Selecting a worker *)
Definition eligible (c : WorkerCandidate) : bool :=
  active c && negb (draining c) && band_ltb (max_pressure_band c) High.

Definition affinity_workers (resume_artifact : option ArtifactId) (placements : PlacementTable) :
    option (gset Z) :=
  resume_artifact ≫= λ art_id,
    let workers := workers_with_artifact art_id placements in
    if decide (workers = ∅) then None else Some workers.

(** The key of [min_by_key]: no affinity, band, pod count, id. *)
Definition select_key (affinity : option (gset Z)) (c : WorkerCandidate) : Z * Z * Z * Z :=
  let no_affinity := match affinity with
                     | Some ws => bool_decide (worker_id c ∉ ws)
                     | None => false
                     end in
  (if no_affinity then 1 else 0, band_rank (max_pressure_band c), pod_count c, worker_id c).

Definition key_ltb (x y : Z * Z * Z * Z) : bool :=
  let '(a, b, c, d) := x in
  let '(a', b', c', d') := y in
  (a <? a') || (a =? a') && ((b <? b') || (b =? b') && ((c <? c') || (c =? c') && (d <? d'))).

(** [Iterator::min_by_key]: the first of the minimal elements *)
Definition min_by_key {A} (key : A → Z * Z * Z * Z) (l : list A) : option A :=
  match l with
  | [] => None
  | x :: l => Some (foldl (λ best y, if key_ltb (key y) (key best) then y else best) x l)
  end.

Definition select_worker (candidates : list WorkerCandidate)
    (resume_artifact : option ArtifactId) (placements : PlacementTable) : option GlobalWorkerId :=
  let affinity := affinity_workers resume_artifact placements in
  worker_id <$> min_by_key (select_key affinity)
    (filter (λ c, eligible c = true) candidates).

(** [str::parse::<u64>] *)
Fixpoint parse_digits (acc : Z) (s : string) : option Z :=
  match s with
  | EmptyString => Some acc
  | String c s =>
      let d := Z.of_N (N_of_ascii c) - 48 in
      if (0 <=? d) && (d <=? 9) then
        let acc := acc * 10 + d in
        if 2 ^ 64 <=? acc then None else parse_digits acc s
      else None
  end.
Definition parse_u64 (s : string) : option Z :=
  match s with
  | EmptyString => None
  | String "+"%char EmptyString => None
  | String "+"%char s => parse_digits 0 s
  | _ => parse_digits 0 s
  end.

Section Process.
Context `{!HashIter PodKey} `{!HashIter Z} `{!HashIter string}.

Definition candidates (s : SchedulerCore) : list WorkerCandidate := (hash_iter (workers s)).*2.

(** One pass of the loop over the keys found grantable. *)
Definition retry_one (acc : list SchedulerDecision * SchedulerCore) (key : PodKey) :
    list SchedulerDecision * SchedulerCore :=
  let '(ds, s) := acc in
  match pending s !! key with
  | None => (ds, s)
  | Some entry =>
      match select_worker (candidates s) (proto_resume_artifact entry) (placements s) with
      | Some w =>
          (ds ++ [Grant key.1 key.2 w],
           {| s with pending := delete key (pending s);
                     granted := <[key := {| granted_worker := w |}]> (granted s) |})
      | None => (ds, {| s with pending := <[key := entry]> (delete key (pending s)) |})
      end
  end.

Definition retry_pending (s : SchedulerCore) : list SchedulerDecision * SchedulerCore :=
  let newly_granted := omap (λ e : PodKey * PendingEntry,
    (λ _, e.1) <$>
      select_worker (candidates s) (proto_resume_artifact e.2) (placements s))
    (hash_iter (pending s)) in
  foldl retry_one ([], s) newly_granted.

Definition process (input : SchedulerCoreInput) (s : SchedulerCore) :
    SchedulerEffects * SchedulerCore :=
  match input with
  | RequestLease ns pod resume =>
      match select_worker (candidates s) resume (placements s) with
      | Some w =>
          (from_decisions [Grant ns pod w],
           {| s with granted := <[(ns, pod) := {| granted_worker := w |}]> (granted s) |})
      | None =>
          (effects_new,
           {| s with pending := <[(ns, pod) := {| proto_resume_artifact := resume |}]> (pending s) |})
      end
  | DropRequest ns pod =>
      match granted s !! (ns, pod) with
      | Some entry =>
          (from_decisions [Revoke ns pod (granted_worker entry)],
           {| s with granted := delete (ns, pod) (granted s) |})
      | None => (effects_new, {| s with pending := delete (ns, pod) (pending s) |})
      end
  | WorkerUpdate w candidate =>
      let '(ds, s) := retry_pending {| s with workers := <[w := candidate]> (workers s) |} in
      (from_decisions ds, s)
  | WorkerRemoved w =>
      let s := {| s with workers := delete w (workers s);
                         placements := remove_worker w (placements s) |} in
      let unreachable := filter (λ art_id, workers_with_artifact art_id (placements s) = ∅)
        (hash_iter (artifact_refs s)).*1 in
      ({| decisions := [];
          artifact_invalidations := omap parse_u64 unreachable;
          delete_commands := [] |},
       {| s with artifact_refs := foldl (λ m art_id, delete art_id m) (artifact_refs s) unreachable |})
  | ArtifactEvent w event =>
      (effects_new, {| s with placements := apply_event w event (placements s) |})
  | ArtifactReferenced art ns =>
      (effects_new, {| s with artifact_refs := <[art := ns]> (artifact_refs s) |})
  | ArtifactReleased art _ =>
      ({| decisions := []; artifact_invalidations := [];
          delete_commands := match any_worker_with_artifact art (placements s) with
            | Some (w, pool) => [{| da_worker_id := w; da_artifact_id := art; da_pool_id := pool |}]
            | None => []
            end |},
       {| s with artifact_refs := delete art (artifact_refs s);
                 placements := remove_artifact art (placements s) |})
  end.

(** ** Selection is the minimum of an order *)
Lemma key_ltb_irrefl x : key_ltb x x = false.
Proof. destruct x as [[[a b] c] d]. simpl. rewrite !Z.ltb_irrefl, !Z.eqb_refl. done. Qed.

Definition key_lt (x y : Z * Z * Z * Z) : Prop :=
  let '(a, b, c, d) := x in
  let '(a', b', c', d') := y in
  a < a' ∨ a = a' ∧ (b < b' ∨ b = b' ∧ (c < c' ∨ c = c' ∧ d < d')).

Lemma key_ltb_lt x y : key_ltb x y = true ↔ key_lt x y.
Proof.
  destruct x as [[[a b] c] d], y as [[[a' b'] c'] d']. unfold key_ltb, key_lt.
  by rewrite !orb_true_iff, !andb_true_iff, !orb_true_iff, !andb_true_iff, !orb_true_iff,
    !andb_true_iff, !Z.ltb_lt, !Z.eqb_eq.
Qed.

Lemma key_not_lt_trans x y z : ¬ key_lt y x → ¬ key_lt z y → ¬ key_lt z x.
Proof.
  destruct x as [[[a b] c] d], y as [[[a' b'] c'] d'], z as [[[a'' b''] c''] d''].
  unfold key_lt. lia.
Qed.

Lemma key_antisym x y : ¬ key_lt x y → ¬ key_lt y x → x = y.
Proof.
  destruct x as [[[a b] c] d], y as [[[a' b'] c'] d']. unfold key_lt. intros.
  repeat f_equal; lia.
Qed.

Lemma min_fold_spec {A} (key : A → Z * Z * Z * Z) l x :
  let m := foldl (λ best y, if key_ltb (key y) (key best) then y else best) x l in
  m ∈ x :: l ∧ ∀ y, y ∈ x :: l → ¬ key_lt (key y) (key m).
Proof.
  revert x. induction l as [|z l IH]; intros x; cbn [foldl].
  { split; [set_solver|]. intros y ->%list_elem_of_singleton.
    rewrite <- key_ltb_lt, key_ltb_irrefl. done. }
  destruct (key_ltb (key z) (key x)) eqn:E; destruct (IH (if true then z else x)) as [Hin Hmin];
    destruct (IH x) as [Hin' Hmin'].
  - split; [set_solver|]. intros y Hy. apply elem_of_cons in Hy as [->|Hy]; [|apply Hmin; set_solver].
    apply (key_not_lt_trans _ (key z)); [apply Hmin; set_solver|].
    apply key_ltb_lt in E. destruct (key z) as [[[??]?]?], (key x) as [[[??]?]?]. unfold key_lt in *. lia.
  - split; [set_solver|]. intros y Hy. apply elem_of_cons in Hy as [->|Hy]; [apply Hmin'; set_solver|].
    apply elem_of_cons in Hy as [->|Hy]; [|apply Hmin'; set_solver].
    apply (key_not_lt_trans _ (key x)); [apply Hmin'; set_solver|].
    rewrite <- key_ltb_lt. congruence.
Qed.

(** What [select_worker] returns: an eligible candidate with no better one. *)
Definition best (l : list WorkerCandidate) (affinity : option (gset Z)) (w : GlobalWorkerId) : Prop :=
  ∃ c, c ∈ l ∧ eligible c = true ∧ worker_id c = w ∧
    ∀ c', c' ∈ l → eligible c' = true → ¬ key_lt (select_key affinity c') (select_key affinity c).

Lemma select_worker_Some l r t w :
  select_worker l r t = Some w → best l (affinity_workers r t) w.
Proof.
  unfold select_worker, min_by_key. destruct (filter _ l) as [|x fl] eqn:E; [done|].
  intros [= <-]. destruct (min_fold_spec (select_key (affinity_workers r t)) fl x) as [Hin Hmin].
  rewrite <- E in Hin, Hmin. apply list_elem_of_filter in Hin as [He Hin].
  eexists; split_and!; [exact Hin|done|done|]. intros c' Hc' He'. apply Hmin.
  apply list_elem_of_filter. done.
Qed.

Lemma select_worker_None l r t :
  select_worker l r t = None ↔ ∀ c, c ∈ l → eligible c = false.
Proof.
  unfold select_worker, min_by_key. destruct (filter _ l) as [|x fl] eqn:E; simpl.
  - split; [|done]. intros _ c Hc. apply not_true_is_false. intros He.
    assert (c ∈ filter (λ c, eligible c = true) l) as H0 by by apply list_elem_of_filter.
    rewrite E in H0. by apply elem_of_nil in H0.
  - split; [done|]. intros Hno. assert (x ∈ filter (λ c, eligible c = true) l) as H0 by (rewrite E; set_solver).
    apply list_elem_of_filter in H0 as [He Hx]. rewrite Hno in He; done.
Qed.

Lemma best_unique l aff w w' : best l aff w → best l aff w' → w = w'.
Proof.
  intros (c & Hc & He & <- & Hm) (c' & Hc' & He' & <- & Hm').
  assert (E : select_key aff c = select_key aff c') by (apply key_antisym; auto).
  unfold select_key in E. congruence.
Qed.


(** ** Retrying pending requests *)
Lemma elem_of_candidates s c : c ∈ candidates s ↔ ∃ w, workers s !! w = Some c.
Proof.
  unfold candidates. rewrite list_elem_of_fmap. split.
  - intros ([w c'] & -> & Hin%elem_of_hash_iter). eauto.
  - intros [w Hw]. exists (w, c). split; [done|]. by apply elem_of_hash_iter.
Qed.

Definition none_eligible (s : SchedulerCore) : Prop :=
  ∀ w c, workers s !! w = Some c → eligible c = false.

Lemma none_eligible_select s r :
  select_worker (candidates s) r (placements s) = None ↔ none_eligible s.
Proof.
  rewrite select_worker_None. setoid_rewrite elem_of_candidates. unfold none_eligible. naive_solver.
Qed.

(** The effect of the retry loop on a list of distinct pending keys. *)
Lemma retry_loop keys ds s ds' s' :
  ¬ none_eligible s → NoDup keys → (∀ k, k ∈ keys → is_Some (pending s !! k)) →
  foldl retry_one (ds, s) keys = (ds', s') →
  workers s' = workers s ∧ placements s' = placements s ∧ artifact_refs s' = artifact_refs s ∧
  (∀ k, pending s' !! k = if decide (k ∈ keys) then None else pending s !! k) ∧
  (∀ k, k ∉ keys → granted s' !! k = granted s !! k) ∧
  ∃ ws, length ws = length keys ∧
    ds' = ds ++ zip_with (λ k w, Grant k.1 k.2 w) keys ws ∧
    ∀ i k w, keys !! i = Some k → ws !! i = Some w →
      granted s' !! k = Some {| granted_worker := w |} ∧
      ∃ c, c ∈ candidates s ∧ eligible c = true ∧ worker_id c = w.
Proof.
  intros Hel. revert ds s Hel. induction keys as [|k keys IH]; intros ds s Hel Hnd Hp E; cbn [foldl] in E.
  { simplify_eq. split_and!; try done.
    exists []. split_and!; [done|by rewrite app_nil_r|]. by intros []. }
  apply NoDup_cons in Hnd as [Hk Hnd]. destruct (Hp k) as [entry He]; [set_solver|].
  unfold retry_one at 2 in E. rewrite He in E.
  destruct (select_worker _ _ _) as [w|] eqn:Es; [|by apply none_eligible_select in Es].
  apply IH in E as (E1 & E2 & E3 & Hpend & Hgr & ws & Hlen & Hds & Hws); [| | |].
  - simpl in *. split_and!; try done.
    + intros k'. rewrite Hpend. destruct (decide (k' = k)) as [->|].
      * rewrite lookup_delete_eq. repeat case_decide; try done; set_solver.
      * rewrite lookup_delete_ne by done. repeat case_decide; set_solver.
    + intros k' Hk'. rewrite Hgr by set_solver. rewrite lookup_insert_ne; [done|set_solver].
    + exists (w :: ws). split_and!; [simpl; lia|by rewrite Hds, <- (assoc_L (++))|].
      intros [|i] k' w' Hk' Hw'; simpl in Hk', Hw'; simplify_eq; [|by eapply Hws].
      split; [rewrite Hgr by done; apply lookup_insert_eq|].
      apply select_worker_Some in Es as (c & ? & ? & ? & _). eauto.
  - done.
  - done.
  - intros k' Hk'. simpl. rewrite lookup_delete_ne; [apply Hp; set_solver|]. by intros ->.
Qed.

Lemma newly_granted_all s :
  ¬ none_eligible s →
  omap (λ e : PodKey * PendingEntry, (λ _, e.1) <$>
      select_worker (candidates s) (proto_resume_artifact e.2) (placements s))
    (hash_iter (pending s)) = (hash_iter (pending s)).*1.
Proof.
  intros Hel. induction (hash_iter (pending s)) as [|[k e] l IH]; [done|]. csimpl.
  destruct (select_worker _ _ _) as [w|] eqn:Es; [|by apply none_eligible_select in Es].
  csimpl. by rewrite IH.
Qed.

Lemma newly_granted_none s :
  none_eligible s →
  omap (λ e : PodKey * PendingEntry, (λ _, e.1) <$>
      select_worker (candidates s) (proto_resume_artifact e.2) (placements s))
    (hash_iter (pending s)) = [].
Proof.
  intros Hno. induction (hash_iter (pending s)) as [|[k e] l IH]; [done|]. csimpl.
  rewrite (proj2 (none_eligible_select s _) Hno). done.
Qed.

Lemma none_eligible_dec s : none_eligible s ∨ ¬ none_eligible s.
Proof.
  destruct (select_worker (candidates s) None (placements s)) as [w|] eqn:E;
    [right|left]; rewrite <- (none_eligible_select s None); congruence.
Qed.

Lemma retry_pending_none s : none_eligible s → retry_pending s = ([], s).
Proof. intros Hno. unfold retry_pending. by rewrite newly_granted_none. Qed.

(** The whole retry, when a worker is eligible: every pending request is granted. *)
Lemma retry_pending_all s ds s' :
  ¬ none_eligible s → retry_pending s = (ds, s') →
  workers s' = workers s ∧ placements s' = placements s ∧ pending s' = ∅ ∧
  (∀ k, pending s !! k = None → granted s' !! k = granted s !! k) ∧
  ∃ keys ws, keys ≡ₚ (map_to_list (pending s)).*1 ∧ length ws = length keys ∧
    ds = zip_with (λ k w, Grant k.1 k.2 w) keys ws ∧
    ∀ i k w, keys !! i = Some k → ws !! i = Some w →
      granted s' !! k = Some {| granted_worker := w |} ∧
      ∃ c, c ∈ candidates s ∧ eligible c = true ∧ worker_id c = w.
Proof.
  intros Hel. unfold retry_pending. rewrite newly_granted_all by done. intros E.
  assert (Hin : ∀ k, k ∈ (hash_iter (pending s)).*1 ↔ is_Some (pending s !! k)).
  { intros k. rewrite list_elem_of_fmap. split.
    - intros ([k' e] & -> & ?%elem_of_hash_iter). eauto.
    - intros [e He]. exists (k, e). split; [done|]. by apply elem_of_hash_iter. }
  apply retry_loop in E as (E1 & E2 & E3 & Hpend & Hgr & ws & Hlen & Hds & Hws);
    [|done|apply NoDup_fst_hash_iter|intros k; apply Hin].
  split_and!; [done|done| | |].
  - apply map_empty. intros k. rewrite Hpend. case_decide as Hk; [done|].
    rewrite Hin in Hk. by apply eq_None_not_Some.
  - intros k Hk. apply Hgr. rewrite Hin, Hk. by intros [].
  - exists (hash_iter (pending s)).*1, ws. split_and!; try done. by rewrite hash_iter_perm.
Qed.

(** ** Runs *)
Definition run_step (acc : list SchedulerDecision * SchedulerCore) (i : SchedulerCoreInput) :
    list SchedulerDecision * SchedulerCore :=
  let '(e, s) := process i acc.2 in (acc.1 ++ decisions e, s).
(** All decisions of a run, in order, and the final state. *)
Definition run (l : list SchedulerCoreInput) : list SchedulerDecision * SchedulerCore :=
  foldl run_step ([], new) l.

Definition conserving (s : SchedulerCore) : Prop := pending s = ∅ ∨ none_eligible s.

Lemma process_conserving i s : conserving s → conserving (process i s).2.
Proof.
  intros Hc. destruct i as [ns pod r|ns pod|w c|w|w ev|art ns|art ns]; simpl; try done.
  - destruct (select_worker _ _ _) eqn:E; [done|]. right. by apply none_eligible_select in E.
  - destruct (granted s !! _); [done|]. destruct Hc as [Hc|Hc]; [left|by right]. simpl.
    by rewrite Hc, delete_empty.
  - destruct (retry_pending _) as [ds s'] eqn:E.
    destruct (none_eligible_dec {| s with workers := <[w := c]> (workers s) |}) as [Hn|Hn].
    + rewrite retry_pending_none in E by done. simplify_eq. by right.
    + left. by eapply retry_pending_all.
  - destruct Hc as [Hc|Hc]; [by left|right]. intros w' c' Hw'. simpl in Hw'.
    apply lookup_delete_Some in Hw' as [_ Hw']. by eapply Hc.
Qed.

(** The scheduler is work conserving: after any sequence of inputs no request is
    pending while some worker could take it. *)
Theorem scheduler_work_conserving l :
  let s := (run l).2 in
  pending s = ∅ ∨ ∀ w c, workers s !! w = Some c → eligible c = false.
Proof.
  unfold run. assert (H0 : conserving ([] : list SchedulerDecision, new).2) by by left.
  revert H0. generalize ([] : list SchedulerDecision, new).
  induction l as [|i l IH]; intros acc Hc; [exact Hc|]. apply IH. unfold run_step.
  pose proof (process_conserving i acc.2 Hc) as Hc'. by destruct (process i acc.2).
Qed.

(** What a namespace knows of its leases from the decisions alone. *)
Definition replay1 (m : gmap PodKey GrantedEntry) (d : SchedulerDecision) : gmap PodKey GrantedEntry :=
  match d with
  | Grant ns pod w => <[(ns, pod) := {| granted_worker := w |}]> m
  | Revoke ns pod _ => delete (ns, pod) m
  end.
Definition replay (ds : list SchedulerDecision) : gmap PodKey GrantedEntry := foldl replay1 ∅ ds.

Lemma retry_one_replay acc k m :
  granted acc.2 = foldl replay1 m acc.1 →
  granted (retry_one acc k).2 = foldl replay1 m (retry_one acc k).1.
Proof.
  destruct acc as [ds s]. simpl. intros Hg. destruct (pending s !! k); [|done].
  destruct (select_worker _ _ _); [|done]. simpl. rewrite foldl_app, <- Hg. by destruct k.
Qed.

Lemma retry_replay keys acc m :
  granted acc.2 = foldl replay1 m acc.1 →
  granted (foldl retry_one acc keys).2 = foldl replay1 m (foldl retry_one acc keys).1.
Proof.
  revert acc. induction keys as [|k keys IH]; intros acc Hg; [done|]. simpl.
  by apply IH, retry_one_replay.
Qed.

Lemma process_replay i s :
  granted (process i s).2 = foldl replay1 (granted s) (decisions (process i s).1).
Proof.
  destruct i as [ns pod r|ns pod|w c|w|w ev|art ns|art ns]; simpl; try done.
  - by destruct (select_worker _ _ _).
  - by destruct (granted s !! (ns, pod)).
  - pose proof (retry_replay (omap (λ e : PodKey * PendingEntry, (λ _, e.1) <$>
      select_worker (candidates {| s with workers := <[w := c]> (workers s) |})
        (proto_resume_artifact e.2) (placements s)) (hash_iter (pending s)))
      ([], {| s with workers := <[w := c]> (workers s) |}) (granted s) eq_refl) as H.
    unfold retry_pending. simpl. destruct (foldl retry_one _ _) as [ds s'] eqn:E. done.
Qed.

(** The decisions tell the whole story: replaying the grants and revocations of
    a run yields exactly the leases the scheduler holds, and every revocation names
    the worker of the lease it ends. *)
Theorem scheduler_decisions_replay l :
  replay (run l).1 = granted (run l).2 ∧
  ∀ s i ns pod w, Revoke ns pod w ∈ decisions (process i s).1 →
    granted s !! (ns, pod) = Some {| granted_worker := w |} ∧
    granted (process i s).2 !! (ns, pod) = None.
Proof.
  split.
  - unfold run, replay. assert (H0 : foldl replay1 ∅ ([] : list SchedulerDecision, new).1 =
      granted ([] : list SchedulerDecision, new).2) by done.
    revert H0. generalize ([] : list SchedulerDecision, new).
    induction l as [|i l IH]; intros acc Hc; [exact Hc|]. apply IH. unfold run_step.
    pose proof (process_replay i acc.2) as Hr. destruct (process i acc.2) as [e s']. simpl in *.
    by rewrite foldl_app, Hc.
  - intros s i ns pod w Hin. destruct i as [ns' pod' r|ns' pod'|w' c|w'|w' ev|art ns'|art ns'];
      simpl in *; try (by apply elem_of_nil in Hin).
    + destruct (select_worker _ _ _); simpl in Hin; set_solver.
    + destruct (granted s !! (ns', pod')) as [[g]|] eqn:Eg; simpl in *; [|by apply elem_of_nil in Hin].
      apply list_elem_of_singleton in Hin as [= -> -> ->]. split; [done|]. apply lookup_delete_eq.
    + destruct (retry_pending _) as [ds s'] eqn:E. simpl in Hin.
      destruct (none_eligible_dec {| s with workers := <[w' := c]> (workers s) |}) as [Hn|Hn].
      * rewrite retry_pending_none in E by done. simplify_eq. by apply elem_of_nil in Hin.
      * apply retry_pending_all in E as (_ & _ & _ & _ & keys & ws & _ & _ & -> & _); [|done].
        apply list_elem_of_lookup in Hin as [i Hi]. rewrite lookup_zip_with in Hi.
        destruct (keys !! i), (ws !! i); simpl in Hi; done.
Qed.

(** Every lease is granted to a worker that is eligible at that moment, and is
    recorded for the pod that asked for it. *)
Theorem grants_are_eligible i s ns pod w :
  Grant ns pod w ∈ decisions (process i s).1 →
  let s' := (process i s).2 in
  granted s' !! (ns, pod) = Some {| granted_worker := w |} ∧
  ∃ c, c ∈ candidates s' ∧ eligible c = true ∧ worker_id c = w.
Proof.
  intros Hin. destruct i as [ns' pod' r|ns' pod'|w' c|w'|w' ev|art ns'|art ns'];
    simpl in *; try (by apply elem_of_nil in Hin).
  - destruct (select_worker _ _ _) as [w'|] eqn:E; simpl in *; [|by apply elem_of_nil in Hin].
    apply list_elem_of_singleton in Hin as [= -> -> ->]. split; [apply lookup_insert_eq|].
    apply select_worker_Some in E as (c & ? & ? & ? & _). by exists c.
  - destruct (granted s !! _); simpl in Hin; set_solver.
  - destruct (retry_pending _) as [ds s'] eqn:E. simpl in *.
    destruct (none_eligible_dec {| s with workers := <[w' := c]> (workers s) |}) as [Hn|Hn].
    + rewrite retry_pending_none in E by done. simplify_eq. by apply elem_of_nil in Hin.
    + apply retry_pending_all in E as (Ew & _ & _ & _ & keys & ws & _ & _ & -> & Hk); [|done].
      apply list_elem_of_lookup in Hin as [i Hi]. rewrite lookup_zip_with in Hi.
      destruct (keys !! i) as [k|] eqn:Ek, (ws !! i) as [w''|] eqn:Ew'; simpl in Hi; simplify_eq.
      destruct (Hk _ _ _ Ek Ew') as [Hg Hc]. destruct k. split; [done|].
      unfold candidates in *. by rewrite Ew.
Qed.

Lemma unreachable_iff w t art :
  workers_with_artifact art (remove_worker w t) = ∅ ↔
  ∀ w' st, copy t art w' = Some st → is_ready st = true → w' = w.
Proof.
  split.
  - intros E w' st Hc Hr. destruct (decide (w' = w)) as [|Hne]; [done|].
    assert (w' ∈ workers_with_artifact art (remove_worker w t)) as Hin.
    { apply elem_of_workers. exists st. by rewrite copy_remove_worker, decide_False. }
    rewrite E in Hin. by apply elem_of_empty in Hin.
  - intros Hl. apply set_eq. intros w'. rewrite elem_of_workers, elem_of_empty. split; [|done].
    intros (st & Hc & Hr). rewrite copy_remove_worker in Hc. case_decide; [done|]. eauto.
Qed.

Lemma elem_of_refs (m : gmap string NamespaceId) art : art ∈ (hash_iter m).*1 ↔ is_Some (m !! art).
Proof.
  rewrite list_elem_of_fmap. split.
  - intros ([k v] & -> & ?%elem_of_hash_iter). eauto.
  - intros [v Hv]. exists (art, v). split; [done|]. by apply elem_of_hash_iter.
Qed.

(** Losing a worker invalidates exactly the referenced artifacts of which no
    other worker holds a ready copy; the references kept still have one. *)
Theorem worker_loss_invalidates s w :
  let '(e, s') := process (WorkerRemoved w) s in
  let lost art := ∀ w' st, copy (placements s) art w' = Some st → is_ready st = true → w' = w in
  (∀ art, is_Some (artifact_refs s' !! art) ↔ is_Some (artifact_refs s !! art) ∧ ¬ lost art) ∧
  (∀ port, port ∈ artifact_invalidations e ↔
     ∃ art, is_Some (artifact_refs s !! art) ∧ lost art ∧ parse_u64 art = Some port) ∧
  (∀ art w' st, copy (placements s') art w' = Some st →
     w' ≠ w ∧ copy (placements s) art w' = Some st) ∧
  workers s' !! w = None ∧ granted s' = granted s ∧ pending s' = pending s.
Proof.
  simpl. split_and!; try done.
  - intros art. rewrite (lookup_foldl_delete (λ a, a)), list_fmap_id.
    case_decide as Hin; rewrite list_elem_of_filter, unreachable_iff, elem_of_refs in Hin.
    + split; [by intros []|]. intros [_ Hn]. by destruct Hn, Hin.
    + split; [intros Hs|by intros [Hs _]]. split; [done|]. intros Hl. by apply Hin.
  - intros port. rewrite list_elem_of_omap. split.
    + intros (art & [Hl Hr]%list_elem_of_filter & Hp). exists art.
      rewrite unreachable_iff in Hl. by rewrite elem_of_refs in Hr.
    + intros (art & Hr & Hl & Hp). exists art. split; [|done].
      apply list_elem_of_filter. by rewrite unreachable_iff, elem_of_refs.
  - intros art w' st Hc. rewrite copy_remove_worker in Hc. by case_decide.
  - apply lookup_delete_eq.
Qed.

End Process.
(** ** Concrete schedules *)
Definition cand (id : Z) (b : PressureBand) (n : Z) : WorkerCandidate :=
  {| worker_id := id; max_pressure_band := b; pod_count := n; draining := false; active := true |}.
Definition demo_ns : NamespaceId := {| ns_name := "ns"; ns_id := 1 |}.
Definition demo_inputs : list SchedulerCoreInput :=
  [RequestLease demo_ns 1 (Some "42"); ArtifactEvent 2 (WriteCommitted "42" "pool" 10);
   ArtifactReferenced "42" demo_ns; WorkerUpdate 1 (cand 1 High 0)].


(** A request that had to wait is granted as soon as a worker can take it. *)
Lemma grants_are_eligible_witness :
  let s := (run demo_inputs).2 in
  granted (process (WorkerUpdate 2 (cand 2 Normal 1)) s).2 !! (demo_ns, 1) =
    Some {| granted_worker := 2 |}.
Proof.
  apply (grants_are_eligible (WorkerUpdate 2 (cand 2 Normal 1)) (run demo_inputs).2 demo_ns 1 2).
  vm_compute. apply list_elem_of_here.
Defined.

End Scheduler.
