(* ===== verification/Decimal.v ===== *)
(** * Decimal numbers as text

    [u64::to_string] is the [pretty] of the library; [str::parse::<u64>] is
    [Scheduler.parse_u64].  What the first writes the second reads. *)

From stdpp Require Import pretty.
From Stdlib Require Import Ascii.
From S2P Require Import Prelude SmTypes Protocol Scheduler.

Lemma digit_char d : (d < 10)%N → Z.of_N (N_of_ascii (pretty_N_char d)) - 48 = Z.of_N d.
Proof.
  intros Hd. assert (Hc : d ∈ (N.of_nat <$> seq 0 10)).
  { apply list_elem_of_fmap. exists (N.to_nat d). rewrite N2Nat.id. split; [done|]. apply elem_of_seq. lia. }
  revert Hc. clear Hd. simpl. rewrite !elem_of_cons, elem_of_nil.
  intros Hc. repeat destruct Hc as [->|Hc]; done.
Qed.

Lemma parse_go (x : N) s :
  Z.of_N x < 2 ^ 64 → Scheduler.parse_digits 0 (pretty_N_go x s) = Scheduler.parse_digits (Z.of_N x) s.
Proof.
  revert s. induction (N.lt_wf_0 x) as [x _ IH]; intros s Hx.
  destruct (decide (x = 0)%N) as [->|Hne]; [done|].
  rewrite pretty_N_go_step by lia.
  pose proof (N.div_mod x 10 ltac:(lia)) as Hdm. pose proof (N.mod_lt x 10 ltac:(lia)) as Hm.
  assert (Hlt : (x `div` 10 < x)%N) by (apply N.div_lt; lia).
  generalize dependent (x `mod` 10)%N. generalize dependent (x `div` 10)%N. intros q Hlt m Hdm Hm.
  rewrite IH by (try done; lia). cbn [Scheduler.parse_digits].
  rewrite digit_char by done. assert (Z.of_N q * 10 + Z.of_N m = Z.of_N x) as -> by lia.
  destruct (Z.leb_spec 0 (Z.of_N m)); [|lia]. destruct (Z.leb_spec (Z.of_N m) 9); [|lia]. simpl.
  destruct (Z.leb_spec (2 ^ 64) (Z.of_N x)); [lia|done].
Qed.

Lemma go_digit (x : N) s :
  (0 < x)%N → ∃ d rest, (d < 10)%N ∧ pretty_N_go x s = String (pretty_N_char d) rest.
Proof.
  revert s. induction (N.lt_wf_0 x) as [x _ IH]; intros s Hx.
  rewrite pretty_N_go_step by done.
  destruct (decide (x `div` 10 = 0)%N) as [->|Hne].
  - rewrite pretty_N_go_0. do 2 eexists. split; [|done]. apply N.mod_lt. lia.
  - apply IH; [apply N.div_lt; lia|by apply N.neq_0_lt_0].
Qed.

Lemma parse_digit_string d rest :
  (d < 10)%N → Scheduler.parse_u64 (String (pretty_N_char d) rest) =
  Scheduler.parse_digits 0 (String (pretty_N_char d) rest).
Proof.
  intros Hd. unfold Scheduler.parse_u64. unfold pretty_N_char.
  repeat (case_match; try done).
Qed.

Lemma parse_u64_pretty z : 0 ≤ z < 2 ^ 64 → Scheduler.parse_u64 (pretty z) = Some z.
Proof.
  intros Hz. destruct z as [|p|p]; [done| |lia].
  change (pretty (Z.pos p)) with (pretty_N_go (N.pos p) "").
  destruct (go_digit (N.pos p) "") as (d & rest & Hd & E); [lia|].
  rewrite E, parse_digit_string by done. rewrite <- E, parse_go by lia. done.
Qed.
Lemma parse_digits_range acc s z :
  0 ≤ acc < 2 ^ 64 → Scheduler.parse_digits acc s = Some z → 0 ≤ z < 2 ^ 64.
Proof.
  revert acc. induction s as [|c s IH]; intros acc Ha H; cbn [Scheduler.parse_digits] in H; [by simplify_eq|].
  destruct (_ && _) eqn:Ed; [|done]. destruct (2 ^ 64 <=? _) eqn:Eb; [done|].
  apply IH in H; [done|]. apply andb_true_iff in Ed as [E1 E2]. lia.
Qed.
Lemma parse_u64_range s z : Scheduler.parse_u64 s = Some z → 0 ≤ z < 2 ^ 64.
Proof.
  unfold Scheduler.parse_u64. intros H. repeat case_match; try done; by apply (parse_digits_range 0) in H.
Qed.
