(* ===== verification/Convert.v ===== *)
(** * The wire format of the worker protocol
      ([crates/worker-protocol/src/{convert,codec}.rs], [types.rs])

    Commands and events travel as protobuf messages in frames with a length.  The
    messages of the schema [worker_protocol.proto] are in [Proto]: a message is an
    inductive type with one constructor, a field of message type or [optional] is an
    [option], a [oneof] is a sum.  The conversions to the schema cannot fail; those from
    it are [None] where the source returns an error.

    The protobuf library is a parameter: [Message] is its encoding of a message type, with
    the law that decoding reads what encoding wrote. *)

From stdpp Require Import pretty.
From Stdlib Require Import SpecFloat.
From S2P Require Import Prelude Bytes SmTypes Protocol Scheduler Decimal.

Module Convert.
Import Bytes.

(** ** Types of the handshake and of log streams ([types.rs]) *)
Record WorkerHello := { wh_auth_token : string; wh_capabilities : WorkerCapabilities }.
Inductive AdapterConfig :=
  | AdWireGuard (listen_port : Z)
  | AdReverseProxy (listen_port : Z) (tls_cert tls_key : list Z)
  | AdOsRouting (interface : string).
Record WorkerAccepted := {
  wa_worker_id : WorkerId; wa_adapters : list AdapterConfig; wa_tunnel_encrypted : bool; wa_pools : list PoolInfo }.
Record WorkerReady := {
  wr_tunnel_listen_port : option Z; wr_tunnel_public_key : option (list Z);
  wr_transfer_listen_port : option Z; wr_wireguard_listen_port : option Z;
  wr_wireguard_public_key : option (list Z) }.
Record LogStreamHeader := { lsh_namespace_id : NamespaceId; lsh_pod_id : PodId; lsh_container_id : string }.

(** ** The schema *)
Module Proto.
Inductive NamespaceId := mk_NamespaceId (name : string) (id : Z).
Inductive NetworkConfig := mk_NetworkConfig (subnet gateway prefix_len : Z) (segment_id : option Z).
Inductive PodNetworkConfig := mk_PodNetworkConfig (ip : Z) (mac : list Z) (gateway : Z) (netmask : string).
Inductive OptionalStringList := mk_OptionalStringList (values : list string).
Inductive VolumeMountSpec := mk_VolumeMountSpec (name mount_path : string).
Inductive ContainerConfig :=
  mk_ContainerConfig (command args : option OptionalStringList) (env : list string)
    (working_dir user hostname : string) (capture_output stdin : bool) (volume_mounts : list VolumeMountSpec).
Inductive ConfigDataFile := mk_ConfigDataFile (path content : string) (mode : Z).
Inductive VolumeKind := EmptyDir (size_mb : Z) | ConfigData (files : list ConfigDataFile).
Inductive VolumeSpec := mk_VolumeSpec (name : string) (kind : option VolumeKind).
Inductive ContainerSpec := mk_ContainerSpec (container_id image_ref : string) (config : option ContainerConfig).
Inductive RegistryEntry := mk_RegistryEntry (name : string) (ip : Z).
Inductive ResourceValues := mk_ResourceValues (memory_mib vcpus : Z).
Inductive ResourceRequirements := mk_ResourceRequirements (requests limits : option ResourceValues).
Inductive ActivatorKind := Tcp (max_flows : Z) | Http2.
Inductive ActivatorConfig := mk_ActivatorConfig (kind : option ActivatorKind).
Inductive PortConfig := mk_PortConfig (port target_port : Z) (activator : option ActivatorConfig).
Inductive ServicePolicy := mk_ServicePolicy (buffer_frames timeout_ms : Z) (ports : list PortConfig).
Inductive EndpointPlacement := mk_EndpointPlacement (worker_id : Z).
Inductive EndpointPodBackend :=
  mk_EndpointPodBackend (pod_ip : Z) (placement : option EndpointPlacement) (ready : bool).
Inductive EndpointKind :=
  | Service (service_id : string) (policy : option ServicePolicy) (backend : option EndpointPodBackend)
  | Pod (placement : option EndpointPlacement)
  | WireguardPeer (placement : option EndpointPlacement).
Inductive EndpointSpec := mk_EndpointSpec (ip : Z) (kind : option EndpointKind).
Inductive PoolInfo := mk_PoolInfo (pool_id path : string) (capacity_bytes available_bytes : Z).
Inductive WorkerPeerInfo :=
  mk_WorkerPeerInfo (worker_id : Z) (endpoint : string) (public_key : list Z) (segments : list Z).
Inductive AdapterKind :=
  | Wireguard (listen_port : Z)
  | ReverseProxy (listen_port : Z) (tls_cert tls_key : list Z)
  | OsRouting (interface : string).
Inductive AdapterConfig := mk_AdapterConfig (kind : option AdapterKind).
Inductive PsiMetrics := mk_PsiMetrics (some_avg10 some_avg60 full_avg10 full_avg60 : spec_float).
Inductive WorkerCapabilities :=
  mk_WorkerCapabilities (has_kvm has_containerd : bool) (available_adapters : list string)
    (max_pods available_memory_mb : Z) (public_endpoint : string) (tunnel_listen_port : option Z)
    (tunnel_public_key : option (list Z)) (pools : list PoolInfo).
Inductive WorkerHello := mk_WorkerHello (auth_token : string) (capabilities : option WorkerCapabilities).
Inductive WorkerAccepted :=
  mk_WorkerAccepted (worker_id : Z) (adapters : list AdapterConfig) (tunnel_encrypted : bool) (pools : list PoolInfo).
Inductive WorkerReady :=
  mk_WorkerReady (tunnel_listen_port : option Z) (tunnel_public_key : option (list Z))
    (transfer_listen_port wireguard_listen_port : option Z) (wireguard_public_key : option (list Z)).
Inductive LogStreamHeader := mk_LogStreamHeader (namespace_id : option NamespaceId) (pod_id : Z) (container_id : string).
(** The variants of the [oneof]s of commands and events carry the fields of their
    messages. *)
Inductive Command :=
  | CreateNamespace (namespace_id : option NamespaceId) (network : option NetworkConfig)
  | DestroyNamespace (namespace_id : option NamespaceId)
  | RegistrySync (namespace_id : option NamespaceId) (entries : list RegistryEntry)
  | RegistryUpdate (namespace_id : option NamespaceId) (added : list RegistryEntry) (removed : list string)
  | LaunchPod (namespace_id : option NamespaceId) (pod_id : Z) (network : option PodNetworkConfig)
      (containers : list ContainerSpec) (resources : option ResourceRequirements) (volumes : list VolumeSpec)
  | StopPod (namespace_id : option NamespaceId) (pod_id : Z) (graceful : bool)
  | AddWireguardPeer (namespace_id : option NamespaceId) (peer_public_key : list Z) (peer_ip : Z)
      (preshared_key : option (list Z))
  | RemoveWireguardPeer (peer_public_key : list Z)
  | SuspendPod (namespace_id : option NamespaceId) (pod_id : Z) (artifact_id pool_id : string)
  | ResumePod (namespace_id : option NamespaceId) (pod_id : Z) (artifact_id : string)
      (network : option PodNetworkConfig) (pool_id : string)
  | DeleteArtifact (artifact_id pool_id : string)
  | TransferArtifact (transfer_id : Z)
      (source_artifact_id source_pool_id dest_artifact_id dest_pool_id dest_endpoint : string)
  | WorkerRegistrySync (workers : list WorkerPeerInfo)
  | EndpointSync (namespace_id : option NamespaceId) (endpoints : list EndpointSpec)
  | EndpointUpdate (namespace_id : option NamespaceId) (upserted : list EndpointSpec) (removed_ips : list Z)
  | Shutdown.
Inductive WorkerCommand := mk_WorkerCommand (command : option Command).
Inductive TunnelStatusKind := Connected | Disconnected (error : string) | HandshakeFailed (error : string).
Inductive Event :=
  | NamespaceCreated (namespace_id : option NamespaceId)
  | NamespaceFailed (namespace_id : option NamespaceId) (error : string)
  | NamespaceDestroyed (namespace_id : option NamespaceId)
  | PodRunning (namespace_id : option NamespaceId) (pod_id : Z)
  | PodExited (namespace_id : option NamespaceId) (pod_id exit_code : Z)
  | PodFailed (namespace_id : option NamespaceId) (pod_id : Z) (error : string)
  | ShuttingDown
  | PodLogStreamError (namespace_id : option NamespaceId) (pod_id : Z) (container_id phase error : string)
  | PodSuspended (namespace_id : option NamespaceId) (pod_id : Z) (artifact_id : string)
      (artifact_size_bytes : Z) (pool_id : string)
  | PodSuspendFailed (namespace_id : option NamespaceId) (pod_id : Z) (error : string)
  | TunnelStatus (peer_worker_id : Z) (status : option TunnelStatusKind)
  | WorkerCondition (key : string) (active : bool) (message : string)
  | PoolCapacityUpdate (pools : list PoolInfo)
  | ArtifactWriteStarted (namespace_id : option NamespaceId) (artifact_id pool_id : string)
  | ArtifactWriteCommitted (namespace_id : option NamespaceId) (artifact_id pool_id : string) (size_bytes : Z)
  | ArtifactTransferReceived (transfer_id : Z)
      (source_artifact_id source_pool_id dest_artifact_id dest_pool_id : string) (size_bytes : Z)
  | TransferFailed (transfer_id : Z)
      (source_artifact_id source_pool_id dest_artifact_id dest_pool_id error : string)
  | PressureUpdate (cpu memory io : option PsiMetrics)
  | EndpointDemandTraffic (namespace_id : option NamespaceId) (ip : Z) (service_id : option Z)
  | EndpointDemandActive (namespace_id : option NamespaceId) (ip : Z) (service_id : option Z) (active : bool)
  | PodMemoryConstrained (namespace_id : option NamespaceId) (pod_id reason : Z)
  | PodMemoryConstraintCleared (namespace_id : option NamespaceId) (pod_id : Z)
  | PodOomKill (namespace_id : option NamespaceId) (pod_id count : Z).
Inductive WorkerEvent := mk_WorkerEvent (event : option Event).
End Proto.

(** ** Conversions of the parts *)

(** An address goes through its four octets. *)
Definition ipv4_to_u32 (addr : Ipv4Addr) : Z :=
  match to_be32 addr with [a; b; c; d] => be32 a b c d | _ => 0 end.
Definition u32_to_ipv4 (raw : Z) : Ipv4Addr :=
  match to_be32 raw with [a; b; c; d] => be32 a b c d | _ => 0 end.
Definition mac_to_bytes (mac : list Z) : list Z := mac.
Definition bytes_to_mac (bytes : list Z) : option (list Z) :=
  if decide (length bytes = 6%nat) then Some bytes else None.
Definition bytes_to_key32 (bytes : list Z) : option (list Z) :=
  if decide (length bytes = 32%nat) then Some bytes else None.
(** [unwrap_or_default] of an optional string and the test that reads it back *)
Definition unwrap_or_default (s : option string) : string := default EmptyString s.
Definition non_empty (s : string) : option string := if decide (s = EmptyString) then None else Some s.
(** [Option::transpose] after a fallible [map] *)
Definition transpose {A B} (f : A → option B) (o : option A) : option (option B) :=
  match o with Some x => Some <$> f x | None => Some None end.

Definition ns_to_proto (ns : NamespaceId) : Proto.NamespaceId := Proto.mk_NamespaceId (ns_name ns) (ns_id ns).
Definition ns_from_proto (ns : option Proto.NamespaceId) : option NamespaceId :=
  '(Proto.mk_NamespaceId name id) ← ns; Some {| ns_name := name; ns_id := id |}.

Definition network_config_to_proto (val : NetworkConfig) : Proto.NetworkConfig :=
  Proto.mk_NetworkConfig (ipv4_to_u32 (nc_subnet val)) (ipv4_to_u32 (nc_gateway val)) (nc_prefix_len val)
    (nc_segment_id val).
Definition network_config_from_proto (val : option Proto.NetworkConfig) : option NetworkConfig :=
  '(Proto.mk_NetworkConfig subnet gateway prefix_len segment_id) ← val;
  Some {| nc_subnet := u32_to_ipv4 subnet; nc_gateway := u32_to_ipv4 gateway;
          nc_prefix_len := wrap 8 prefix_len; nc_segment_id := wrap 16 <$> segment_id |}.

Definition pod_network_to_proto (val : PodNetworkConfig) : Proto.PodNetworkConfig :=
  Proto.mk_PodNetworkConfig (ipv4_to_u32 (pnc_ip val)) (mac_to_bytes (pnc_mac val)) (ipv4_to_u32 (pnc_gateway val))
    (pnc_netmask val).
Definition pod_network_from_proto (val : option Proto.PodNetworkConfig) : option PodNetworkConfig :=
  '(Proto.mk_PodNetworkConfig ip mac gateway netmask) ← val;
  mac ← bytes_to_mac mac;
  Some {| pnc_ip := u32_to_ipv4 ip; pnc_mac := mac; pnc_gateway := u32_to_ipv4 gateway; pnc_netmask := netmask |}.

Definition volume_mount_to_proto (m : VolumeMountSpec) : Proto.VolumeMountSpec :=
  Proto.mk_VolumeMountSpec (vms_name m) (vms_mount_path m).
Definition volume_mount_from_proto (m : Proto.VolumeMountSpec) : VolumeMountSpec :=
  let '(Proto.mk_VolumeMountSpec name mount_path) := m in {| vms_name := name; vms_mount_path := mount_path |}.
Definition list_values (l : Proto.OptionalStringList) : list string :=
  let '(Proto.mk_OptionalStringList values) := l in values.
Definition container_config_to_proto (val : ContainerConfig) : Proto.ContainerConfig :=
  Proto.mk_ContainerConfig (Proto.mk_OptionalStringList <$> cc_command val)
    (Proto.mk_OptionalStringList <$> cc_args val) (cc_env val) (unwrap_or_default (cc_working_dir val))
    (unwrap_or_default (cc_user val)) (unwrap_or_default (cc_hostname val)) (cc_capture_output val) (cc_stdin val)
    (volume_mount_to_proto <$> cc_volume_mounts val).
Definition container_config_from_proto (val : option Proto.ContainerConfig) : option ContainerConfig :=
  '(Proto.mk_ContainerConfig command args env working_dir user hostname capture_output stdin volume_mounts) ← val;
  Some {| cc_command := list_values <$> command; cc_args := list_values <$> args; cc_env := env;
          cc_working_dir := non_empty working_dir; cc_user := non_empty user; cc_hostname := non_empty hostname;
          cc_capture_output := capture_output; cc_stdin := stdin;
          cc_volume_mounts := volume_mount_from_proto <$> volume_mounts |}.

Definition config_file_to_proto (f : ConfigDataFile) : Proto.ConfigDataFile :=
  Proto.mk_ConfigDataFile (cdf_path f) (cdf_content f) (cdf_mode f).
Definition config_file_from_proto (f : Proto.ConfigDataFile) : ConfigDataFile :=
  let '(Proto.mk_ConfigDataFile path content mode) := f in
  {| cdf_path := path; cdf_content := content; cdf_mode := mode |}.
Definition volume_spec_to_proto (val : VolumeSpec) : Proto.VolumeSpec :=
  let kind :=
    match vs_volume_type val with
    | EmptyDir size_mb => Proto.EmptyDir size_mb
    | ConfigData files => Proto.ConfigData (config_file_to_proto <$> files)
    end in
  Proto.mk_VolumeSpec (vs_name val) (Some kind).
Definition volume_spec_from_proto (val : Proto.VolumeSpec) : option VolumeSpec :=
  let '(Proto.mk_VolumeSpec name kind) := val in
  kind ← kind;
  let volume_type :=
    match kind with
    | Proto.EmptyDir size_mb => EmptyDir size_mb
    | Proto.ConfigData files => ConfigData (config_file_from_proto <$> files)
    end in
  Some {| vs_name := name; vs_volume_type := volume_type |}.

Definition container_spec_to_proto (val : ContainerSpec) : Proto.ContainerSpec :=
  Proto.mk_ContainerSpec (cs_container_id val) (cs_image_ref val) (Some (container_config_to_proto (cs_config val))).
Definition container_spec_from_proto (val : Proto.ContainerSpec) : option ContainerSpec :=
  let '(Proto.mk_ContainerSpec container_id image_ref config) := val in
  config ← container_config_from_proto config;
  Some {| cs_container_id := container_id; cs_image_ref := image_ref; cs_config := config |}.

Definition registry_entry_to_proto (val : RegistryEntry) : Proto.RegistryEntry :=
  Proto.mk_RegistryEntry (re_name val) (ipv4_to_u32 (re_ip val)).
Definition registry_entry_from_proto (val : Proto.RegistryEntry) : RegistryEntry :=
  let '(Proto.mk_RegistryEntry name ip) := val in {| re_name := name; re_ip := u32_to_ipv4 ip |}.

Definition resource_values_to_proto (val : ResourceValues) : Proto.ResourceValues :=
  Proto.mk_ResourceValues (rv_memory_mib val) (rv_vcpus val).
Definition resource_values_from_proto (val : Proto.ResourceValues) : ResourceValues :=
  let '(Proto.mk_ResourceValues memory_mib vcpus) := val in {| rv_memory_mib := memory_mib; rv_vcpus := vcpus |}.
Definition resource_requirements_to_proto (val : ResourceRequirements) : Proto.ResourceRequirements :=
  Proto.mk_ResourceRequirements (resource_values_to_proto <$> rr_requests val)
    (resource_values_to_proto <$> rr_limits val).
Definition resource_requirements_from_proto (val : Proto.ResourceRequirements) : ResourceRequirements :=
  let '(Proto.mk_ResourceRequirements requests limits) := val in
  {| rr_requests := resource_values_from_proto <$> requests; rr_limits := resource_values_from_proto <$> limits |}.

Definition activator_config_to_proto (val : ActivatorConfig) : Proto.ActivatorConfig :=
  Proto.mk_ActivatorConfig (Some match val with ActTcp max_flows => Proto.Tcp max_flows | ActHttp2 => Proto.Http2 end).
Definition activator_config_from_proto (val : Proto.ActivatorConfig) : option ActivatorConfig :=
  let '(Proto.mk_ActivatorConfig kind) := val in
  kind ← kind;
  Some match kind with Proto.Tcp max_flows => ActTcp max_flows | Proto.Http2 => ActHttp2 end.
Definition port_config_to_proto (val : PortConfig) : Proto.PortConfig :=
  Proto.mk_PortConfig (pc_port val) (pc_target_port val) (activator_config_to_proto <$> pc_activator val).
Definition port_config_from_proto (val : Proto.PortConfig) : option PortConfig :=
  let '(Proto.mk_PortConfig port target_port activator) := val in
  activator ← transpose activator_config_from_proto activator;
  Some {| pc_port := wrap 16 port; pc_target_port := wrap 16 target_port; pc_activator := activator |}.
Definition service_policy_to_proto (val : ServicePolicy) : Proto.ServicePolicy :=
  Proto.mk_ServicePolicy (sp_buffer_frames val) (sp_timeout_ms val) (port_config_to_proto <$> sp_ports val).
Definition service_policy_from_proto (val : option Proto.ServicePolicy) : option ServicePolicy :=
  '(Proto.mk_ServicePolicy buffer_frames timeout_ms ports) ← val;
  ports ← mapM port_config_from_proto ports;
  Some {| sp_ports := ports; sp_buffer_frames := buffer_frames; sp_timeout_ms := timeout_ms |}.

Definition endpoint_placement_to_proto (val : EndpointPlacement) : Proto.EndpointPlacement :=
  Proto.mk_EndpointPlacement (epl_worker_id val).
Definition endpoint_placement_from_proto (val : Proto.EndpointPlacement) : EndpointPlacement :=
  let '(Proto.mk_EndpointPlacement worker_id) := val in {| epl_worker_id := worker_id |}.
Definition endpoint_pod_backend_to_proto (val : EndpointPodBackend) : Proto.EndpointPodBackend :=
  Proto.mk_EndpointPodBackend (ipv4_to_u32 (epb_pod_ip val)) (endpoint_placement_to_proto <$> epb_placement val)
    (epb_ready val).
Definition endpoint_pod_backend_from_proto (val : Proto.EndpointPodBackend) : EndpointPodBackend :=
  let '(Proto.mk_EndpointPodBackend pod_ip placement ready) := val in
  {| epb_pod_ip := u32_to_ipv4 pod_ip; epb_placement := endpoint_placement_from_proto <$> placement;
     epb_ready := ready |}.
(** The service id travels as decimal text. *)
Definition endpoint_spec_to_proto (val : EndpointSpec) : Proto.EndpointSpec :=
  let kind :=
    match esp_kind val with
    | KindService service_id policy backend =>
        Proto.Service (pretty service_id) (Some (service_policy_to_proto policy))
          (endpoint_pod_backend_to_proto <$> backend)
    | KindPod placement => Proto.Pod (endpoint_placement_to_proto <$> placement)
    | KindWireGuardPeer placement => Proto.WireguardPeer (endpoint_placement_to_proto <$> placement)
    end in
  Proto.mk_EndpointSpec (ipv4_to_u32 (esp_ip val)) (Some kind).
Definition endpoint_spec_from_proto (val : Proto.EndpointSpec) : option EndpointSpec :=
  let '(Proto.mk_EndpointSpec ip kind) := val in
  kind ← kind;
  kind ← match kind with
         | Proto.Service service_id policy backend =>
             service_id ← Scheduler.parse_u64 service_id;
             policy ← service_policy_from_proto policy;
             Some (KindService service_id policy (endpoint_pod_backend_from_proto <$> backend))
         | Proto.Pod placement => Some (KindPod (endpoint_placement_from_proto <$> placement))
         | Proto.WireguardPeer placement => Some (KindWireGuardPeer (endpoint_placement_from_proto <$> placement))
         end;
  Some {| esp_ip := u32_to_ipv4 ip; esp_kind := kind |}.

Definition pool_info_to_proto (val : PoolInfo) : Proto.PoolInfo :=
  Proto.mk_PoolInfo (pi_pool_id val) (pi_path val) (pi_capacity_bytes val) (pi_available_bytes val).
Definition pool_info_from_proto (val : Proto.PoolInfo) : PoolInfo :=
  let '(Proto.mk_PoolInfo pool_id path capacity_bytes available_bytes) := val in
  {| pi_pool_id := pool_id; pi_path := path; pi_capacity_bytes := capacity_bytes;
     pi_available_bytes := available_bytes |}.

Definition worker_peer_info_to_proto (val : WorkerPeerInfo) : Proto.WorkerPeerInfo :=
  Proto.mk_WorkerPeerInfo (wpi_worker_id val) (wpi_endpoint val) (wpi_public_key val) (wpi_segments val).
Definition worker_peer_info_from_proto (val : Proto.WorkerPeerInfo) : option WorkerPeerInfo :=
  let '(Proto.mk_WorkerPeerInfo worker_id endpoint public_key segments) := val in
  public_key ← bytes_to_key32 public_key;
  Some {| wpi_worker_id := worker_id; wpi_endpoint := endpoint; wpi_public_key := public_key;
          wpi_segments := wrap 16 <$> segments |}.

Definition adapter_config_to_proto (val : AdapterConfig) : Proto.AdapterConfig :=
  let kind :=
    match val with
    | AdWireGuard listen_port => Proto.Wireguard listen_port
    | AdReverseProxy listen_port tls_cert tls_key => Proto.ReverseProxy listen_port tls_cert tls_key
    | AdOsRouting interface => Proto.OsRouting interface
    end in
  Proto.mk_AdapterConfig (Some kind).
Definition adapter_config_from_proto (val : Proto.AdapterConfig) : option AdapterConfig :=
  let '(Proto.mk_AdapterConfig kind) := val in
  kind ← kind;
  Some match kind with
       | Proto.Wireguard listen_port => AdWireGuard (wrap 16 listen_port)
       | Proto.ReverseProxy listen_port tls_cert tls_key => AdReverseProxy (wrap 16 listen_port) tls_cert tls_key
       | Proto.OsRouting interface => AdOsRouting interface
       end.

Definition psi_metrics_to_proto (val : PsiMetrics) : Proto.PsiMetrics :=
  Proto.mk_PsiMetrics (some_avg10 val) (some_avg60 val) (full_avg10 val) (full_avg60 val).
(** [PsiMetrics::default()] *)
Definition psi_metrics_default : PsiMetrics :=
  {| some_avg10 := S754_zero false; some_avg60 := S754_zero false;
     full_avg10 := S754_zero false; full_avg60 := S754_zero false |}.
Definition psi_metrics_from_proto (val : option Proto.PsiMetrics) : PsiMetrics :=
  match val with
  | Some (Proto.mk_PsiMetrics a b c d) =>
      {| some_avg10 := a; some_avg60 := b; full_avg10 := c; full_avg60 := d |}
  | None => psi_metrics_default
  end.

(** ** The handshake *)
Definition worker_capabilities_to_proto (val : WorkerCapabilities) : Proto.WorkerCapabilities :=
  Proto.mk_WorkerCapabilities (has_kvm val) (has_containerd val) (available_adapters val) (max_pods val)
    (available_memory_mb val) (public_endpoint val) None None (pool_info_to_proto <$> pools val).
Definition worker_capabilities_from_proto (val : Proto.WorkerCapabilities) : option WorkerCapabilities :=
  let '(Proto.mk_WorkerCapabilities kvm containerd adapters max_pods memory endpoint _ _ pools) := val in
  Some {| has_kvm := kvm; has_containerd := containerd; available_adapters := adapters; max_pods := max_pods;
          available_memory_mb := memory; public_endpoint := endpoint; pools := pool_info_from_proto <$> pools |}.
Definition worker_hello_to_proto (val : WorkerHello) : Proto.WorkerHello :=
  Proto.mk_WorkerHello (wh_auth_token val) (Some (worker_capabilities_to_proto (wh_capabilities val))).
Definition worker_hello_from_proto (val : Proto.WorkerHello) : option WorkerHello :=
  let '(Proto.mk_WorkerHello auth_token capabilities) := val in
  capabilities ← capabilities;
  capabilities ← worker_capabilities_from_proto capabilities;
  Some {| wh_auth_token := auth_token; wh_capabilities := capabilities |}.
Definition worker_accepted_to_proto (val : WorkerAccepted) : Proto.WorkerAccepted :=
  Proto.mk_WorkerAccepted (wa_worker_id val) (adapter_config_to_proto <$> wa_adapters val)
    (wa_tunnel_encrypted val) (pool_info_to_proto <$> wa_pools val).
Definition worker_accepted_from_proto (val : Proto.WorkerAccepted) : option WorkerAccepted :=
  let '(Proto.mk_WorkerAccepted worker_id adapters tunnel_encrypted pools) := val in
  adapters ← mapM adapter_config_from_proto adapters;
  Some {| wa_worker_id := worker_id; wa_adapters := adapters; wa_tunnel_encrypted := tunnel_encrypted;
          wa_pools := pool_info_from_proto <$> pools |}.
Definition worker_ready_to_proto (val : WorkerReady) : Proto.WorkerReady :=
  Proto.mk_WorkerReady (wr_tunnel_listen_port val) (wr_tunnel_public_key val) (wr_transfer_listen_port val)
    (wr_wireguard_listen_port val) (wr_wireguard_public_key val).
(** A key of another length is dropped here, not refused. *)
Definition worker_ready_from_proto (val : Proto.WorkerReady) : WorkerReady :=
  let '(Proto.mk_WorkerReady tunnel_port tunnel_key transfer_port wireguard_port wireguard_key) := val in
  {| wr_tunnel_listen_port := wrap 16 <$> tunnel_port;
     wr_tunnel_public_key := tunnel_key ≫= bytes_to_key32;
     wr_transfer_listen_port := wrap 16 <$> transfer_port;
     wr_wireguard_listen_port := wrap 16 <$> wireguard_port;
     wr_wireguard_public_key := wireguard_key ≫= bytes_to_key32 |}.
Definition log_stream_header_to_proto (val : LogStreamHeader) : Proto.LogStreamHeader :=
  Proto.mk_LogStreamHeader (Some (ns_to_proto (lsh_namespace_id val))) (lsh_pod_id val) (lsh_container_id val).
Definition log_stream_header_from_proto (val : Proto.LogStreamHeader) : option LogStreamHeader :=
  let '(Proto.mk_LogStreamHeader namespace_id pod_id container_id) := val in
  namespace_id ← ns_from_proto namespace_id;
  Some {| lsh_namespace_id := namespace_id; lsh_pod_id := pod_id; lsh_container_id := container_id |}.

(** ** Commands *)
Definition worker_command_to_proto (cmd : WorkerCommand) : Proto.WorkerCommand :=
  let command :=
    match cmd with
    | Command.CreateNamespace namespace_id network =>
        Proto.CreateNamespace (Some (ns_to_proto namespace_id)) (Some (network_config_to_proto network))
    | Command.DestroyNamespace namespace_id => Proto.DestroyNamespace (Some (ns_to_proto namespace_id))
    | Command.RegistrySync namespace_id entries =>
        Proto.RegistrySync (Some (ns_to_proto namespace_id)) (registry_entry_to_proto <$> entries)
    | Command.RegistryUpdate namespace_id added removed =>
        Proto.RegistryUpdate (Some (ns_to_proto namespace_id)) (registry_entry_to_proto <$> added) removed
    | Command.LaunchPod namespace_id pod_id network containers resources volumes =>
        Proto.LaunchPod (Some (ns_to_proto namespace_id)) pod_id (Some (pod_network_to_proto network))
          (container_spec_to_proto <$> containers) (resource_requirements_to_proto <$> resources)
          (volume_spec_to_proto <$> volumes)
    | Command.StopPod namespace_id pod_id graceful =>
        Proto.StopPod (Some (ns_to_proto namespace_id)) pod_id graceful
    | Command.AddWireGuardPeer namespace_id peer_public_key peer_ip preshared_key =>
        Proto.AddWireguardPeer (Some (ns_to_proto namespace_id)) peer_public_key (ipv4_to_u32 peer_ip) preshared_key
    | Command.RemoveWireGuardPeer peer_public_key => Proto.RemoveWireguardPeer peer_public_key
    | Command.SuspendPod namespace_id pod_id artifact_id pool_id =>
        Proto.SuspendPod (Some (ns_to_proto namespace_id)) pod_id artifact_id pool_id
    | Command.ResumePod namespace_id pod_id artifact_id network pool_id =>
        Proto.ResumePod (Some (ns_to_proto namespace_id)) pod_id artifact_id (Some (pod_network_to_proto network))
          pool_id
    | Command.DeleteArtifact artifact_id pool_id => Proto.DeleteArtifact artifact_id pool_id
    | Command.TransferArtifact transfer_id source_artifact_id source_pool_id dest_artifact_id dest_pool_id
        dest_endpoint =>
        Proto.TransferArtifact transfer_id source_artifact_id source_pool_id dest_artifact_id dest_pool_id
          (unwrap_or_default dest_endpoint)
    | Command.WorkerRegistrySync workers => Proto.WorkerRegistrySync (worker_peer_info_to_proto <$> workers)
    | Command.EndpointSync namespace_id endpoints =>
        Proto.EndpointSync (Some (ns_to_proto namespace_id)) (endpoint_spec_to_proto <$> endpoints)
    | Command.EndpointUpdate namespace_id upserted removed_ips =>
        Proto.EndpointUpdate (Some (ns_to_proto namespace_id)) (endpoint_spec_to_proto <$> upserted)
          (ipv4_to_u32 <$> removed_ips)
    | Command.Shutdown => Proto.Shutdown
    end in
  Proto.mk_WorkerCommand (Some command).

Definition worker_command_from_proto (msg : Proto.WorkerCommand) : option WorkerCommand :=
  let '(Proto.mk_WorkerCommand command) := msg in
  command ← command;
  match command with
  | Proto.CreateNamespace namespace_id network =>
      namespace_id ← ns_from_proto namespace_id;
      network ← network_config_from_proto network;
      Some (Command.CreateNamespace namespace_id network)
  | Proto.DestroyNamespace namespace_id =>
      namespace_id ← ns_from_proto namespace_id; Some (Command.DestroyNamespace namespace_id)
  | Proto.RegistrySync namespace_id entries =>
      namespace_id ← ns_from_proto namespace_id;
      Some (Command.RegistrySync namespace_id (registry_entry_from_proto <$> entries))
  | Proto.RegistryUpdate namespace_id added removed =>
      namespace_id ← ns_from_proto namespace_id;
      Some (Command.RegistryUpdate namespace_id (registry_entry_from_proto <$> added) removed)
  | Proto.LaunchPod namespace_id pod_id network containers resources volumes =>
      containers ← mapM container_spec_from_proto containers;
      volumes ← mapM volume_spec_from_proto volumes;
      namespace_id ← ns_from_proto namespace_id;
      network ← pod_network_from_proto network;
      Some (Command.LaunchPod namespace_id pod_id network containers
              (resource_requirements_from_proto <$> resources) volumes)
  | Proto.StopPod namespace_id pod_id graceful =>
      namespace_id ← ns_from_proto namespace_id; Some (Command.StopPod namespace_id pod_id graceful)
  | Proto.AddWireguardPeer namespace_id peer_public_key peer_ip preshared_key =>
      namespace_id ← ns_from_proto namespace_id;
      peer_public_key ← bytes_to_key32 peer_public_key;
      preshared_key ← transpose bytes_to_key32 preshared_key;
      Some (Command.AddWireGuardPeer namespace_id peer_public_key (u32_to_ipv4 peer_ip) preshared_key)
  | Proto.RemoveWireguardPeer peer_public_key =>
      peer_public_key ← bytes_to_key32 peer_public_key; Some (Command.RemoveWireGuardPeer peer_public_key)
  | Proto.SuspendPod namespace_id pod_id artifact_id pool_id =>
      namespace_id ← ns_from_proto namespace_id; Some (Command.SuspendPod namespace_id pod_id artifact_id pool_id)
  | Proto.ResumePod namespace_id pod_id artifact_id network pool_id =>
      namespace_id ← ns_from_proto namespace_id;
      network ← pod_network_from_proto network;
      Some (Command.ResumePod namespace_id pod_id artifact_id network pool_id)
  | Proto.DeleteArtifact artifact_id pool_id => Some (Command.DeleteArtifact artifact_id pool_id)
  | Proto.TransferArtifact transfer_id source_artifact_id source_pool_id dest_artifact_id dest_pool_id
      dest_endpoint =>
      Some (Command.TransferArtifact transfer_id source_artifact_id source_pool_id dest_artifact_id dest_pool_id
              (non_empty dest_endpoint))
  | Proto.WorkerRegistrySync workers =>
      workers ← mapM worker_peer_info_from_proto workers; Some (Command.WorkerRegistrySync workers)
  | Proto.EndpointSync namespace_id endpoints =>
      endpoints ← mapM endpoint_spec_from_proto endpoints;
      namespace_id ← ns_from_proto namespace_id;
      Some (Command.EndpointSync namespace_id endpoints)
  | Proto.EndpointUpdate namespace_id upserted removed_ips =>
      upserted ← mapM endpoint_spec_from_proto upserted;
      namespace_id ← ns_from_proto namespace_id;
      Some (Command.EndpointUpdate namespace_id upserted (u32_to_ipv4 <$> removed_ips))
  | Proto.Shutdown => Some Command.Shutdown
  end.

(** ** Events *)
Definition memory_reason_to_proto (reason : MemoryConstraintReason) : Z :=
  match reason with BalloonExhausted => 1 | DeflationStalled => 2 end.
(** [MemoryConstraintReason::try_from] of the number of the schema's enum *)
Definition memory_reason_from_proto (reason : Z) : option MemoryConstraintReason :=
  if reason =? 1 then Some BalloonExhausted else if reason =? 2 then Some DeflationStalled else None.
Definition tunnel_status_to_proto (status : TunnelPeerStatus) : Proto.TunnelStatusKind :=
  match status with
  | TunnelConnected => Proto.Connected
  | TunnelDisconnected error => Proto.Disconnected error
  | TunnelHandshakeFailed error => Proto.HandshakeFailed error
  end.
Definition tunnel_status_from_proto (status : Proto.TunnelStatusKind) : TunnelPeerStatus :=
  match status with
  | Proto.Connected => TunnelConnected
  | Proto.Disconnected error => TunnelDisconnected error
  | Proto.HandshakeFailed error => TunnelHandshakeFailed error
  end.

Definition worker_event_to_proto (event : WorkerEvent) : Proto.WorkerEvent :=
  let evt :=
    match event with
    | Event.NamespaceCreated namespace_id => Proto.NamespaceCreated (Some (ns_to_proto namespace_id))
    | Event.NamespaceFailed namespace_id error => Proto.NamespaceFailed (Some (ns_to_proto namespace_id)) error
    | Event.NamespaceDestroyed namespace_id => Proto.NamespaceDestroyed (Some (ns_to_proto namespace_id))
    | Event.PodRunning namespace_id pod_id => Proto.PodRunning (Some (ns_to_proto namespace_id)) pod_id
    | Event.PodExited namespace_id pod_id exit_code =>
        Proto.PodExited (Some (ns_to_proto namespace_id)) pod_id exit_code
    | Event.PodFailed namespace_id pod_id error => Proto.PodFailed (Some (ns_to_proto namespace_id)) pod_id error
    | Event.ShuttingDown => Proto.ShuttingDown
    | Event.PodLogStreamError namespace_id pod_id container_id phase error =>
        Proto.PodLogStreamError (Some (ns_to_proto namespace_id)) pod_id container_id phase error
    | Event.PodSuspended namespace_id pod_id artifact_id artifact_size_bytes pool_id =>
        Proto.PodSuspended (Some (ns_to_proto namespace_id)) pod_id artifact_id artifact_size_bytes pool_id
    | Event.PodSuspendFailed namespace_id pod_id error =>
        Proto.PodSuspendFailed (Some (ns_to_proto namespace_id)) pod_id error
    | Event.TunnelStatus peer_worker_id status =>
        Proto.TunnelStatus peer_worker_id (Some (tunnel_status_to_proto status))
    | Event.WorkerCondition key active message => Proto.WorkerCondition key active message
    | Event.PoolCapacityUpdate pools => Proto.PoolCapacityUpdate (pool_info_to_proto <$> pools)
    | Event.ArtifactWriteStarted namespace_id artifact_id pool_id =>
        Proto.ArtifactWriteStarted (Some (ns_to_proto namespace_id)) artifact_id pool_id
    | Event.ArtifactWriteCommitted namespace_id artifact_id pool_id size_bytes =>
        Proto.ArtifactWriteCommitted (Some (ns_to_proto namespace_id)) artifact_id pool_id size_bytes
    | Event.ArtifactTransferReceived transfer_id source_artifact_id source_pool_id dest_artifact_id dest_pool_id
        size_bytes =>
        Proto.ArtifactTransferReceived transfer_id source_artifact_id source_pool_id dest_artifact_id dest_pool_id
          size_bytes
    | Event.TransferFailed transfer_id source_artifact_id source_pool_id dest_artifact_id dest_pool_id error =>
        Proto.TransferFailed transfer_id source_artifact_id source_pool_id dest_artifact_id dest_pool_id error
    | Event.PressureUpdate cpu memory io =>
        Proto.PressureUpdate (Some (psi_metrics_to_proto cpu)) (Some (psi_metrics_to_proto memory))
          (Some (psi_metrics_to_proto io))
    | Event.EndpointDemandTraffic namespace_id ip service_id =>
        Proto.EndpointDemandTraffic (Some (ns_to_proto namespace_id)) (ipv4_to_u32 ip) service_id
    | Event.EndpointDemandActive namespace_id ip service_id active =>
        Proto.EndpointDemandActive (Some (ns_to_proto namespace_id)) (ipv4_to_u32 ip) service_id active
    | Event.PodMemoryConstrained namespace_id pod_id reason =>
        Proto.PodMemoryConstrained (Some (ns_to_proto namespace_id)) pod_id (memory_reason_to_proto reason)
    | Event.PodMemoryConstraintCleared namespace_id pod_id =>
        Proto.PodMemoryConstraintCleared (Some (ns_to_proto namespace_id)) pod_id
    | Event.PodOomKill namespace_id pod_id count =>
        Proto.PodOomKill (Some (ns_to_proto namespace_id)) pod_id count
    end in
  Proto.mk_WorkerEvent (Some evt).

Definition worker_event_from_proto (msg : Proto.WorkerEvent) : option WorkerEvent :=
  let '(Proto.mk_WorkerEvent event) := msg in
  event ← event;
  match event with
  | Proto.NamespaceCreated namespace_id =>
      namespace_id ← ns_from_proto namespace_id; Some (Event.NamespaceCreated namespace_id)
  | Proto.NamespaceFailed namespace_id error =>
      namespace_id ← ns_from_proto namespace_id; Some (Event.NamespaceFailed namespace_id error)
  | Proto.NamespaceDestroyed namespace_id =>
      namespace_id ← ns_from_proto namespace_id; Some (Event.NamespaceDestroyed namespace_id)
  | Proto.PodRunning namespace_id pod_id =>
      namespace_id ← ns_from_proto namespace_id; Some (Event.PodRunning namespace_id pod_id)
  | Proto.PodExited namespace_id pod_id exit_code =>
      namespace_id ← ns_from_proto namespace_id; Some (Event.PodExited namespace_id pod_id exit_code)
  | Proto.PodFailed namespace_id pod_id error =>
      namespace_id ← ns_from_proto namespace_id; Some (Event.PodFailed namespace_id pod_id error)
  | Proto.ShuttingDown => Some Event.ShuttingDown
  | Proto.PodLogStreamError namespace_id pod_id container_id phase error =>
      namespace_id ← ns_from_proto namespace_id;
      Some (Event.PodLogStreamError namespace_id pod_id container_id phase error)
  | Proto.PodSuspended namespace_id pod_id artifact_id artifact_size_bytes pool_id =>
      namespace_id ← ns_from_proto namespace_id;
      Some (Event.PodSuspended namespace_id pod_id artifact_id artifact_size_bytes pool_id)
  | Proto.PodSuspendFailed namespace_id pod_id error =>
      namespace_id ← ns_from_proto namespace_id; Some (Event.PodSuspendFailed namespace_id pod_id error)
  | Proto.TunnelStatus peer_worker_id status =>
      status ← status; Some (Event.TunnelStatus peer_worker_id (tunnel_status_from_proto status))
  | Proto.WorkerCondition key active message => Some (Event.WorkerCondition key active message)
  | Proto.PoolCapacityUpdate pools => Some (Event.PoolCapacityUpdate (pool_info_from_proto <$> pools))
  | Proto.ArtifactWriteStarted namespace_id artifact_id pool_id =>
      namespace_id ← ns_from_proto namespace_id;
      Some (Event.ArtifactWriteStarted namespace_id artifact_id pool_id)
  | Proto.ArtifactWriteCommitted namespace_id artifact_id pool_id size_bytes =>
      namespace_id ← ns_from_proto namespace_id;
      Some (Event.ArtifactWriteCommitted namespace_id artifact_id pool_id size_bytes)
  | Proto.ArtifactTransferReceived transfer_id source_artifact_id source_pool_id dest_artifact_id dest_pool_id
      size_bytes =>
      Some (Event.ArtifactTransferReceived transfer_id source_artifact_id source_pool_id dest_artifact_id
              dest_pool_id size_bytes)
  | Proto.TransferFailed transfer_id source_artifact_id source_pool_id dest_artifact_id dest_pool_id error =>
      Some (Event.TransferFailed transfer_id source_artifact_id source_pool_id dest_artifact_id dest_pool_id error)
  | Proto.PressureUpdate cpu memory io =>
      Some (Event.PressureUpdate (psi_metrics_from_proto cpu) (psi_metrics_from_proto memory)
              (psi_metrics_from_proto io))
  | Proto.EndpointDemandTraffic namespace_id ip service_id =>
      namespace_id ← ns_from_proto namespace_id;
      Some (Event.EndpointDemandTraffic namespace_id (u32_to_ipv4 ip) service_id)
  | Proto.EndpointDemandActive namespace_id ip service_id active =>
      namespace_id ← ns_from_proto namespace_id;
      Some (Event.EndpointDemandActive namespace_id (u32_to_ipv4 ip) service_id active)
  | Proto.PodMemoryConstrained namespace_id pod_id reason =>
      reason ← memory_reason_from_proto reason;
      namespace_id ← ns_from_proto namespace_id;
      Some (Event.PodMemoryConstrained namespace_id pod_id reason)
  | Proto.PodMemoryConstraintCleared namespace_id pod_id =>
      namespace_id ← ns_from_proto namespace_id; Some (Event.PodMemoryConstraintCleared namespace_id pod_id)
  | Proto.PodOomKill namespace_id pod_id count =>
      namespace_id ← ns_from_proto namespace_id; Some (Event.PodOomKill namespace_id pod_id count)
  end.

End Convert.
