(* ===== verification/Codec.v ===== *)
(** * Framing and round trips of the worker protocol
      ([crates/worker-protocol/src/codec.rs])

    [Wire A P] is what a conversion of [Convert] promises: a value that [fits] comes back
    from the schema as it was, and what comes from the schema fits.  Fitting is executable
    and says what the casts of the conversions lose: an address of 32 bits, ports of 16, keys
    of 32 bytes, and no optional text that is empty.

    The codec frames a message with its length.  A [Stream] holds the bytes that will still
    arrive and whether it then fails instead of ending; [Write] is the interface of the
    asynchronous writer, [Message] that of the protobuf library. *)

From stdpp Require Import pretty.
From Stdlib Require Import SpecFloat.
From S2P Require Import Prelude Bytes SmTypes Protocol Scheduler Decimal Convert.

Module Codec.
Import Bytes Convert.

#[local] Arguments u32_to_ipv4 : simpl never.
#[local] Arguments ipv4_to_u32 : simpl never.
#[local] Arguments be32 : simpl never.

(** ** What fits *)
Definition fits_bits (w z : Z) : bool := (0 <=? z) && (z <? 2 ^ w).
Definition fits_len (n : nat) (l : list Z) : bool := bool_decide (length l = n).
Definition fits_text (s : option string) : bool := bool_decide (s ≠ Some EmptyString).
Definition fits_opt {A} (f : A → bool) (o : option A) : bool := match o with Some x => f x | None => true end.
#[local] Arguments fits_bits : simpl never.
#[local] Arguments fits_len : simpl never.

Definition fits_network (c : NetworkConfig) : bool :=
  fits_bits 32 (nc_subnet c) && fits_bits 32 (nc_gateway c) && fits_bits 8 (nc_prefix_len c) &&
  fits_opt (fits_bits 16) (nc_segment_id c).
Definition fits_pod_network (c : PodNetworkConfig) : bool :=
  fits_bits 32 (pnc_ip c) && fits_len 6 (pnc_mac c) && fits_bits 32 (pnc_gateway c).
Definition fits_container (c : ContainerSpec) : bool :=
  fits_text (cc_working_dir (cs_config c)) && fits_text (cc_user (cs_config c)) &&
  fits_text (cc_hostname (cs_config c)).
Definition fits_entry (e : RegistryEntry) : bool := fits_bits 32 (re_ip e).
Definition fits_port (p : PortConfig) : bool := fits_bits 16 (pc_port p) && fits_bits 16 (pc_target_port p).
Definition fits_backend (b : EndpointPodBackend) : bool := fits_bits 32 (epb_pod_ip b).
Definition fits_kind (k : WireEndpointKind) : bool :=
  match k with
  | KindService service_id policy backend =>
      fits_bits 64 service_id && forallb fits_port (sp_ports policy) && fits_opt fits_backend backend
  | KindPod _ | KindWireGuardPeer _ => true
  end.
Definition fits_endpoint (e : EndpointSpec) : bool := fits_bits 32 (esp_ip e) && fits_kind (esp_kind e).
Definition fits_peer (p : WorkerPeerInfo) : bool :=
  fits_len 32 (wpi_public_key p) && forallb (fits_bits 16) (wpi_segments p).
Definition fits_adapter (a : AdapterConfig) : bool :=
  match a with
  | AdWireGuard listen_port | AdReverseProxy listen_port _ _ => fits_bits 16 listen_port
  | AdOsRouting _ => true
  end.
Definition fits_accepted (a : WorkerAccepted) : bool := forallb fits_adapter (wa_adapters a).
Definition fits_ready (r : WorkerReady) : bool :=
  fits_opt (fits_bits 16) (wr_tunnel_listen_port r) && fits_opt (fits_len 32) (wr_tunnel_public_key r) &&
  fits_opt (fits_bits 16) (wr_transfer_listen_port r) && fits_opt (fits_bits 16) (wr_wireguard_listen_port r) &&
  fits_opt (fits_len 32) (wr_wireguard_public_key r).
Definition fits_command (c : WorkerCommand) : bool :=
  match c with
  | Command.CreateNamespace _ network => fits_network network
  | Command.RegistrySync _ entries => forallb fits_entry entries
  | Command.RegistryUpdate _ added _ => forallb fits_entry added
  | Command.LaunchPod _ _ network containers _ _ => fits_pod_network network && forallb fits_container containers
  | Command.AddWireGuardPeer _ key ip psk => fits_len 32 key && fits_bits 32 ip && fits_opt (fits_len 32) psk
  | Command.RemoveWireGuardPeer key => fits_len 32 key
  | Command.ResumePod _ _ _ network _ => fits_pod_network network
  | Command.TransferArtifact _ _ _ _ _ dest_endpoint => fits_text dest_endpoint
  | Command.WorkerRegistrySync workers => forallb fits_peer workers
  | Command.EndpointSync _ endpoints => forallb fits_endpoint endpoints
  | Command.EndpointUpdate _ upserted removed => forallb fits_endpoint upserted && forallb (fits_bits 32) removed
  | _ => true
  end.
Definition fits_event (e : WorkerEvent) : bool :=
  match e with
  | Event.EndpointDemandTraffic _ ip _ | Event.EndpointDemandActive _ ip _ _ => fits_bits 32 ip
  | _ => true
  end.

(** The promise of a pair of conversions *)
Class Wire (A P : Type) := {
  to_proto : A → P;
  from_proto : P → option A;
  fits : A → bool;
  from_to : ∀ a, fits a = true → from_proto (to_proto a) = Some a;
  from_fits : ∀ p a, from_proto p = Some a → fits a = true }.

(** ** Generic lemmas *)
Lemma fits_bits_spec w z : fits_bits w z = true ↔ 0 ≤ z < 2 ^ w.
Proof. unfold fits_bits. rewrite andb_true_iff, Z.leb_le, Z.ltb_lt. done. Qed.
Lemma wrap_fits w z : 0 ≤ w → fits_bits w (wrap w z) = true.
Proof. intros Hw. apply fits_bits_spec, Z.mod_pos_bound. by apply Z.pow_pos_nonneg. Qed.
Lemma wrap_same w z : fits_bits w z = true → wrap w z = z.
Proof. intros H%fits_bits_spec. by apply Z.mod_small. Qed.
Lemma ip_same z : fits_bits 32 z = true → u32_to_ipv4 (ipv4_to_u32 z) = z.
Proof.
  intros H%fits_bits_spec. pose proof (be32_to_be32 z H) as E.
  unfold u32_to_ipv4, ipv4_to_u32, to_be32. rewrite E. exact E.
Qed.
Lemma ip_fits z : fits_bits 32 (u32_to_ipv4 z) = true.
Proof.
  apply fits_bits_spec. unfold u32_to_ipv4, to_be32, be32. unfold wrap.
  pose proof (Z.mod_pos_bound (Z.shiftr z 24) (2 ^ 8)). pose proof (Z.mod_pos_bound (Z.shiftr z 16) (2 ^ 8)).
  pose proof (Z.mod_pos_bound (Z.shiftr z 8) (2 ^ 8)). pose proof (Z.mod_pos_bound z (2 ^ 8)). lia.
Qed.
Lemma mac_same l : fits_len 6 l = true → bytes_to_mac l = Some l.
Proof. unfold fits_len, bytes_to_mac. intros H%bool_decide_eq_true. by rewrite decide_True. Qed.
Lemma key_same l : fits_len 32 l = true → bytes_to_key32 l = Some l.
Proof. unfold fits_len, bytes_to_key32. intros H%bool_decide_eq_true. by rewrite decide_True. Qed.
Lemma mac_fits l k : bytes_to_mac l = Some k → fits_len 6 k = true.
Proof. unfold bytes_to_mac, fits_len. case_decide; intros ?; simplify_eq. by apply bool_decide_eq_true. Qed.
Lemma key_fits l k : bytes_to_key32 l = Some k → fits_len 32 k = true.
Proof. unfold bytes_to_key32, fits_len. case_decide; intros ?; simplify_eq. by apply bool_decide_eq_true. Qed.
Lemma text_same s : fits_text s = true → non_empty (unwrap_or_default s) = s.
Proof.
  unfold fits_text, non_empty, unwrap_or_default. intros H%bool_decide_eq_true.
  destruct s as [s|]; simpl; [|done]. rewrite decide_False; [done|naive_solver].
Qed.
Lemma text_fits s : fits_text (non_empty s) = true.
Proof. unfold fits_text, non_empty. apply bool_decide_eq_true. case_decide; naive_solver. Qed.

Lemma fmap_same {A B} (f : B → A) (g : A → B) (ok : A → bool) l :
  (∀ x, ok x = true → f (g x) = x) → forallb ok l = true → f <$> (g <$> l) = l.
Proof.
  intros H Hl. induction l as [|x l IH]; [done|]. simpl in Hl. apply andb_true_iff in Hl as [Hx Hl].
  rewrite !fmap_cons, (H x Hx), IH by done. done.
Qed.
Lemma fmap_fits {A B} (f : B → A) (ok : A → bool) l :
  (∀ x, ok (f x) = true) → forallb ok (f <$> l) = true.
Proof. intros H. induction l as [|x l IH]; [done|]. rewrite fmap_cons. cbn [forallb]. by rewrite H. Qed.
Lemma option_same {A B} (f : B → A) (g : A → B) (ok : A → bool) o :
  (∀ x, ok x = true → f (g x) = x) → fits_opt ok o = true → f <$> (g <$> o) = o.
Proof. intros H. destruct o as [x|]; [|done]. intros Hx. simpl. by rewrite H. Qed.
Lemma option_fits {A B} (f : B → A) (ok : A → bool) o : (∀ x, ok (f x) = true) → fits_opt ok (f <$> o) = true.
Proof. intros H. destruct o; [apply H|done]. Qed.
Lemma mapM_same {A B} (f : B → option A) (g : A → B) (ok : A → bool) l :
  (∀ x, ok x = true → f (g x) = Some x) → forallb ok l = true → mapM f (g <$> l) = Some l.
Proof.
  intros H Hl. apply mapM_Some, Forall2_fmap_l. induction l as [|x l IH]; [constructor|].
  simpl in Hl. apply andb_true_iff in Hl as [Hx Hl]. constructor; [by apply H|by apply IH].
Qed.
Lemma mapM_fits {A B} (f : B → option A) (ok : A → bool) l k :
  (∀ x y, f x = Some y → ok y = true) → mapM f l = Some k → forallb ok k = true.
Proof.
  intros H Hk. apply mapM_Some in Hk. induction Hk as [|x y l k Hxy _ IH]; [done|]. simpl.
  by rewrite (H x y Hxy), IH.
Qed.
Lemma forallb_const {A} (l : list A) : forallb (λ _, true) l = true.
Proof. by induction l. Qed.
Lemma opt_const {A} (o : option A) : fits_opt (λ _, true) o = true.
Proof. by destruct o. Qed.

(** ** Round trips of the parts *)
Ltac split_fits :=
  repeat match goal with H : _ && _ = true |- _ => apply andb_true_iff in H as [? ?] end.
Lemma ns_same ns : ns_from_proto (Some (ns_to_proto ns)) = Some ns.
Proof. by destruct ns. Qed.
Lemma network_same c : fits_network c = true → network_config_from_proto (Some (network_config_to_proto c)) = Some c.
Proof.
  destruct c as [s g p i]. unfold fits_network. simpl. intros H. split_fits.
  rewrite !ip_same, wrap_same by done. destruct i as [i|]; simpl in *; [|done]. by rewrite wrap_same.
Qed.
Lemma pod_network_same c : fits_pod_network c = true → pod_network_from_proto (Some (pod_network_to_proto c)) = Some c.
Proof.
  destruct c as [i m g n]. unfold fits_pod_network, mac_to_bytes. simpl. intros H. split_fits.
  unfold mac_to_bytes. rewrite mac_same by done. simpl. by rewrite !ip_same.
Qed.
Lemma mounts_same (l : list VolumeMountSpec) : volume_mount_from_proto <$> (volume_mount_to_proto <$> l) = l.
Proof. apply (fmap_same _ _ (λ _, true)); [by intros []|apply forallb_const]. Qed.
Lemma values_same (o : option (list string)) : list_values <$> (Proto.mk_OptionalStringList <$> o) = o.
Proof. by destruct o. Qed.
Lemma container_same c : fits_container c = true → container_spec_from_proto (container_spec_to_proto c) = Some c.
Proof.
  destruct c as [i r [cmd args env wd us hn co si vm]]. unfold fits_container. simpl. intros H. split_fits.
  by rewrite !values_same, !text_same, mounts_same.
Qed.
Lemma volume_same v : volume_spec_from_proto (volume_spec_to_proto v) = Some v.
Proof.
  destruct v as [n [s|fs]]; [done|]. unfold volume_spec_to_proto, volume_spec_from_proto. simpl.
  rewrite (fmap_same _ _ (λ _, true)); [done|by intros []|apply forallb_const].
Qed.
Lemma entry_same e : fits_entry e = true → registry_entry_from_proto (registry_entry_to_proto e) = e.
Proof. destruct e as [n i]. unfold fits_entry. simpl. intros H. by rewrite ip_same. Qed.
Lemma resources_same (r : option ResourceRequirements) :
  resource_requirements_from_proto <$> (resource_requirements_to_proto <$> r) = r.
Proof. by destruct r as [[[[]|] [[]|]]|]. Qed.
Lemma port_same p : fits_port p = true → port_config_from_proto (port_config_to_proto p) = Some p.
Proof.
  destruct p as [a b c]. unfold fits_port. simpl. intros H. split_fits.
  by destruct c as [[f|]|]; simpl; rewrite !wrap_same.
Qed.
Lemma policy_same p :
  forallb fits_port (sp_ports p) = true → service_policy_from_proto (Some (service_policy_to_proto p)) = Some p.
Proof.
  destruct p as [ps b t]. simpl. intros H. rewrite (mapM_same _ _ fits_port); [done|exact port_same|done].
Qed.
Lemma placement_same (p : option EndpointPlacement) :
  endpoint_placement_from_proto <$> (endpoint_placement_to_proto <$> p) = p.
Proof. by destruct p as [[]|]. Qed.
Lemma backend_same b : fits_backend b = true → endpoint_pod_backend_from_proto (endpoint_pod_backend_to_proto b) = b.
Proof. destruct b as [i p r]. unfold fits_backend. simpl. intros H. by rewrite ip_same, placement_same. Qed.
Lemma endpoint_same e : fits_endpoint e = true → endpoint_spec_from_proto (endpoint_spec_to_proto e) = Some e.
Proof.
  destruct e as [i [sid p b|p|p]]; unfold fits_endpoint, endpoint_spec_from_proto, endpoint_spec_to_proto;
    cbn [esp_ip esp_kind fits_kind]; intros H; split_fits.
  - cbn [mbind option_bind]. rewrite parse_u64_pretty by (by apply fits_bits_spec).
    cbn [mbind option_bind]. rewrite policy_same by done. cbn [mbind option_bind].
    by rewrite ip_same, (option_same _ _ fits_backend) by (done || exact backend_same).
  - cbn [mbind option_bind]. by rewrite ip_same, placement_same.
  - cbn [mbind option_bind]. by rewrite ip_same, placement_same.
Qed.
Lemma pools_same (l : list PoolInfo) : pool_info_from_proto <$> (pool_info_to_proto <$> l) = l.
Proof. apply (fmap_same _ _ (λ _, true)); [by intros []|apply forallb_const]. Qed.
Lemma peer_same p : fits_peer p = true → worker_peer_info_from_proto (worker_peer_info_to_proto p) = Some p.
Proof.
  destruct p as [w e k s]. unfold fits_peer. simpl. intros H. split_fits. rewrite key_same by done. simpl.
  rewrite <- (list_fmap_id s) at 1. rewrite (fmap_same _ id (fits_bits 16)); [done| |done].
  intros x Hx. by apply wrap_same.
Qed.
Lemma adapter_same a : fits_adapter a = true → adapter_config_from_proto (adapter_config_to_proto a) = Some a.
Proof. destruct a; simpl; intros H; by rewrite ?wrap_same. Qed.
Lemma psi_same p : psi_metrics_from_proto (Some (psi_metrics_to_proto p)) = p.
Proof. by destruct p. Qed.
Lemma reason_same r : memory_reason_from_proto (memory_reason_to_proto r) = Some r.
Proof. by destruct r. Qed.
Lemma tunnel_same s : tunnel_status_from_proto (tunnel_status_to_proto s) = s.
Proof. by destruct s. Qed.
#[local] Arguments ns_to_proto : simpl never.
#[local] Arguments ns_from_proto : simpl never.
#[local] Arguments pod_network_to_proto : simpl never.
#[local] Arguments pod_network_from_proto : simpl never.
#[local] Arguments network_config_to_proto : simpl never.
#[local] Arguments network_config_from_proto : simpl never.

(** What the conversions produce fits. *)
Create HintDb wire.
#[local] Hint Resolve ip_fits mac_fits key_fits text_fits : wire.
Ltac decoded :=
  repeat match goal with
    | H : mbind _ ?o = Some _ |- _ => destruct o eqn:?; [cbn [mbind option_bind] in H|discriminate H]
    | H : Some _ = Some _ |- _ => injection H as H; try subst
    | H : context [match ?x with _ => _ end] |- _ => is_var x; destruct x
    | H : None = Some _ |- _ => discriminate H
    end.
Lemma network_fits p c : network_config_from_proto p = Some c → fits_network c = true.
Proof.
  unfold network_config_from_proto. intros H. decoded. unfold fits_network. cbn [nc_subnet nc_gateway nc_prefix_len nc_segment_id].
  rewrite !ip_fits, wrap_fits by lia. apply option_fits. intros x. by apply wrap_fits.
Qed.
Lemma pod_network_fits p c : pod_network_from_proto p = Some c → fits_pod_network c = true.
Proof.
  unfold pod_network_from_proto. intros H. decoded. unfold fits_pod_network. cbn [pnc_ip pnc_mac pnc_gateway].
  rewrite !ip_fits, andb_true_r. eauto with wire.
Qed.
Lemma container_fits p c : container_spec_from_proto p = Some c → fits_container c = true.
Proof.
  unfold container_spec_from_proto, container_config_from_proto. intros H. decoded. unfold fits_container.
  cbn [cs_config cc_working_dir cc_user cc_hostname].
  by rewrite !text_fits.
Qed.
Lemma entry_fits p : fits_entry (registry_entry_from_proto p) = true.
Proof. destruct p. apply ip_fits. Qed.
Lemma port_fits p c : port_config_from_proto p = Some c → fits_port c = true.
Proof.
  unfold port_config_from_proto. intros H. decoded. unfold fits_port. cbn [pc_port pc_target_port]. by rewrite !wrap_fits.
Qed.
Lemma policy_fits p c : service_policy_from_proto p = Some c → forallb fits_port (sp_ports c) = true.
Proof.
  unfold service_policy_from_proto. intros H. decoded. simpl. by eapply mapM_fits; [apply port_fits|].
Qed.
Lemma backend_fits b : fits_backend (endpoint_pod_backend_from_proto b) = true.
Proof. destruct b. apply ip_fits. Qed.
Lemma endpoint_fits p c : endpoint_spec_from_proto p = Some c → fits_endpoint c = true.
Proof.
  unfold endpoint_spec_from_proto. intros H. decoded; unfold fits_endpoint; cbn [esp_ip esp_kind fits_kind];
    rewrite ip_fits; try done.
  match goal with H : Scheduler.parse_u64 _ = Some _ |- _ => apply parse_u64_range in H end.
  match goal with H : service_policy_from_proto _ = Some _ |- _ => apply policy_fits in H as -> end.
  rewrite (proj2 (fits_bits_spec 64 _)) by done. apply option_fits, backend_fits.
Qed.
Lemma peer_fits p c : worker_peer_info_from_proto p = Some c → fits_peer c = true.
Proof.
  unfold worker_peer_info_from_proto. intros H. decoded. unfold fits_peer. cbn [wpi_public_key wpi_segments].
  erewrite key_fits by done. apply fmap_fits. intros x. by apply wrap_fits.
Qed.
Lemma adapter_fits p c : adapter_config_from_proto p = Some c → fits_adapter c = true.
Proof. unfold adapter_config_from_proto. intros H. decoded.
  match goal with a : Proto.AdapterKind |- _ => destruct a end; cbn [fits_adapter]; (done || by apply wrap_fits).
Qed.
Lemma ready_fits p : fits_ready (worker_ready_from_proto p) = true.
Proof.
  destruct p as [a b c d e]. unfold fits_ready. cbn [worker_ready_from_proto wr_tunnel_listen_port
    wr_tunnel_public_key wr_transfer_listen_port wr_wireguard_listen_port wr_wireguard_public_key].
  assert (Hk : ∀ o : option (list Z), fits_opt (fits_len 32) (o ≫= bytes_to_key32) = true).
  { intros [k|]; [|done]. simpl. destruct (bytes_to_key32 k) eqn:E; [|done]. by apply key_fits in E. }
  by rewrite !Hk, !option_fits by (intros x; by apply wrap_fits).
Qed.
#[local] Hint Resolve network_fits pod_network_fits container_fits entry_fits endpoint_fits peer_fits
  adapter_fits fmap_fits mapM_fits : wire.

Lemma command_decoded p c : worker_command_from_proto p = Some c → fits_command c = true.
Proof.
  destruct p as [[q|]]; [|done]. destruct q; unfold worker_command_from_proto; cbn [mbind option_bind];
    intros H; decoded; cbn [fits_command]; eauto with wire.
  - rewrite andb_true_iff. eauto with wire.
  - rewrite ip_fits, andb_true_r, andb_true_iff. split; [by eauto with wire|].
    match goal with H : transpose _ ?o = Some _ |- _ => destruct o; simpl in H; [|by simplify_eq] end.
    match goal with H : _ <$> ?o = Some _ |- _ => destruct o eqn:?; simplify_eq/= end. eauto with wire.
  - rewrite andb_true_iff. eauto with wire.
Qed.
Lemma event_decoded p e : worker_event_from_proto p = Some e → fits_event e = true.
Proof.
  destruct p as [[q|]]; [|done]. destruct q; unfold worker_event_from_proto; cbn [mbind option_bind];
    intros H; decoded; cbn [fits_event]; eauto with wire.
Qed.

(** Rewriting with what comes back *)
Ltac same := repeat first
  [ rewrite ns_same | rewrite network_same by done | rewrite pod_network_same by done
  | rewrite key_same by done | rewrite ip_same by done | rewrite text_same by done
  | rewrite resources_same | rewrite pools_same | rewrite psi_same | rewrite reason_same | rewrite tunnel_same
  | rewrite (fmap_same _ _ fits_entry) by (done || exact entry_same)
  | rewrite (mapM_same _ _ fits_container) by (done || exact container_same)
  | rewrite (mapM_same _ _ (λ _, true)) by (apply forallb_const || intros ? _; exact (volume_same _))
  | rewrite (mapM_same _ _ fits_peer) by (done || exact peer_same)
  | rewrite (mapM_same _ _ fits_endpoint) by (done || exact endpoint_same)
  | rewrite (mapM_same _ _ fits_adapter) by (done || exact adapter_same)
  | rewrite (fmap_same _ _ (fits_bits 32)) by (done || exact ip_same)
  | progress cbn [mbind option_bind] ].
Lemma transpose_same (o : option (list Z)) : fits_opt (fits_len 32) o = true → transpose bytes_to_key32 o = Some o.
Proof. destruct o as [k|]; [|done]. simpl. intros H. by rewrite key_same. Qed.
Lemma command_same c : fits_command c = true → worker_command_from_proto (worker_command_to_proto c) = Some c.
Proof.
  destruct c; unfold worker_command_to_proto, worker_command_from_proto; cbn [fits_command]; intros H; split_fits;
    cbn [mbind option_bind]; same; try done.
  by rewrite transpose_same by done.
Qed.
Lemma event_same e : fits_event e = true → worker_event_from_proto (worker_event_to_proto e) = Some e.
Proof.
  destruct e; unfold worker_event_to_proto, worker_event_from_proto; cbn [fits_event]; intros H;
    cbn [mbind option_bind]; same; done.
Qed.

(** ** The conversions keep their promise *)
#[global] Program Instance command_wire : Wire WorkerCommand Proto.WorkerCommand := {|
  to_proto := worker_command_to_proto; from_proto := worker_command_from_proto; fits := fits_command;
  from_to := command_same; from_fits := command_decoded |}.
#[global] Program Instance event_wire : Wire WorkerEvent Proto.WorkerEvent := {|
  to_proto := worker_event_to_proto; from_proto := worker_event_from_proto; fits := fits_event;
  from_to := event_same; from_fits := event_decoded |}.
#[global] Program Instance hello_wire : Wire WorkerHello Proto.WorkerHello := {|
  to_proto := worker_hello_to_proto; from_proto := worker_hello_from_proto; fits := λ _, true |}.
Next Obligation.
  intros [t [k c a m am e ps]] _. unfold worker_hello_from_proto, worker_hello_to_proto,
    worker_capabilities_to_proto, worker_capabilities_from_proto. cbn. by rewrite pools_same.
Qed.
Next Obligation. done. Qed.
#[global] Program Instance accepted_wire : Wire WorkerAccepted Proto.WorkerAccepted := {|
  to_proto := worker_accepted_to_proto; from_proto := worker_accepted_from_proto; fits := fits_accepted |}.
Next Obligation.
  intros [w a t ps]. unfold fits_accepted, worker_accepted_from_proto, worker_accepted_to_proto.
  cbn [wa_worker_id wa_adapters wa_tunnel_encrypted wa_pools]. intros H. same. done.
Qed.
Next Obligation.
  intros [w a t ps] c. unfold worker_accepted_from_proto. intros H. decoded. unfold fits_accepted.
  cbn [wa_adapters]. eauto with wire.
Qed.
#[global] Program Instance ready_wire : Wire WorkerReady Proto.WorkerReady := {|
  to_proto := worker_ready_to_proto; from_proto := λ p, Some (worker_ready_from_proto p); fits := fits_ready |}.
Next Obligation.
  assert (Hp : ∀ o, fits_opt (fits_bits 16) o = true → wrap 16 <$> o = o).
  { intros [z|]; [|done]. simpl. intros H. by rewrite wrap_same. }
  assert (Hk : ∀ o, fits_opt (fits_len 32) o = true → o ≫= bytes_to_key32 = o).
  { intros [k|]; [|done]. simpl. intros H. by rewrite key_same. }
  intros [a b c d e]. unfold fits_ready, worker_ready_from_proto, worker_ready_to_proto.
  cbn [wr_tunnel_listen_port wr_tunnel_public_key wr_transfer_listen_port wr_wireguard_listen_port
    wr_wireguard_public_key]. intros H. split_fits. by rewrite !Hp, !Hk.
Qed.
Next Obligation. intros p a [= <-]. apply ready_fits. Qed.
#[global] Program Instance header_wire : Wire LogStreamHeader Proto.LogStreamHeader := {|
  to_proto := log_stream_header_to_proto; from_proto := log_stream_header_from_proto; fits := λ _, true |}.
Next Obligation. by intros [[] p c]. Qed.
Next Obligation. done. Qed.

(** ** The codec *)
Definition MAX_MESSAGE_SIZE : Z := 16 * 1024 * 1024.
Definition LOG_FRAME_HEADER_SIZE : nat := 12.

(** [prost::Message]: a value its type can hold ([representable]: integers within the
    width of their field, text in UTF-8) is decoded as it was encoded. *)
Class Message (M : Type) := {
  encode_to_vec : M → list Z;
  decode : list Z → option M;
  representable : M → Prop;
  decode_encode : ∀ m, representable m → decode (encode_to_vec m) = Some m }.

(** The asynchronous writer: [write_all] appends every byte or fails. *)
Class Write (W : Type) := {
  written : W → list Z;
  write_all : W → list Z → option W;
  flush : W → option W;
  write_all_written : ∀ w b w', write_all w b = Some w' → written w' = written w ++ b;
  flush_written : ∀ w w', flush w = Some w' → written w' = written w }.

(** The reader: the bytes to come, and whether the stream then fails instead of ending *)
Record Stream := { st_bytes : list Z; st_fails : bool }.
Inductive ReadError := UnexpectedEof | IoError.
Definition read_exact (n : nat) (s : Stream) : ReadError + list Z * Stream :=
  if decide (n ≤ length (st_bytes s))%nat
  then inr (take n (st_bytes s), {| st_bytes := drop n (st_bytes s); st_fails := st_fails s |})
  else inl (if st_fails s then IoError else UnexpectedEof).

Fixpoint to_le (n : nat) (v : Z) : list Z :=
  match n with O => [] | S n => wrap 8 v :: to_le n (Z.shiftr v 8) end.
Fixpoint from_le (l : list Z) : Z := match l with [] => 0 | b :: l => b + 2 ^ 8 * from_le l end.

Inductive RecvError := ReadLength | TooLarge (len : Z) | ReadPayload | DecodeMessage | ConvertMessage.

Definition send_proto_msg `{Write W, Message M} (writer : W) (msg : M) : option W :=
  let payload := encode_to_vec msg in
  w ← write_all writer (to_le 4 (wrap 32 (zlen payload)));
  w ← write_all w payload;
  flush w.
Definition recv_proto_msg `{Message M} (reader : Stream) : RecvError + M * Stream :=
  match read_exact 4 reader with
  | inl _ => inl ReadLength
  | inr (len_buf, reader) =>
      let len := from_le len_buf in
      if MAX_MESSAGE_SIZE <? len then inl (TooLarge len)
      else match read_exact (Z.to_nat len) reader with
           | inl _ => inl ReadPayload
           | inr (buf, reader) =>
               match decode buf with Some m => inr (m, reader) | None => inl DecodeMessage end
           end
  end.
(** [recv_proto_msg(reader).await?] and a conversion that can fail *)
Definition recv_with `{Message P} {A} (f : P → option A) (reader : Stream) : RecvError + A * Stream :=
  match recv_proto_msg reader with
  | inl e => inl e
  | inr (proto_msg, reader) => match f proto_msg with Some a => inr (a, reader) | None => inl ConvertMessage end
  end.

Section Functions.
Context `{Write W, Message Proto.WorkerCommand, Message Proto.WorkerEvent, Message Proto.LogStreamHeader,
  Message Proto.WorkerHello, Message Proto.WorkerAccepted, Message Proto.WorkerReady}.
Definition send_worker_command (writer : W) (cmd : WorkerCommand) : option W :=
  send_proto_msg writer (worker_command_to_proto cmd).
Definition recv_worker_command (reader : Stream) : RecvError + WorkerCommand * Stream :=
  recv_with worker_command_from_proto reader.
Definition send_worker_event (writer : W) (event : WorkerEvent) : option W :=
  send_proto_msg writer (worker_event_to_proto event).
Definition recv_worker_event (reader : Stream) : RecvError + WorkerEvent * Stream :=
  recv_with worker_event_from_proto reader.
Definition send_log_header (writer : W) (header : LogStreamHeader) : option W :=
  send_proto_msg writer (log_stream_header_to_proto header).
Definition recv_log_header (reader : Stream) : RecvError + LogStreamHeader * Stream :=
  recv_with log_stream_header_from_proto reader.
Definition send_worker_hello (writer : W) (hello : WorkerHello) : option W :=
  send_proto_msg writer (worker_hello_to_proto hello).
Definition recv_worker_hello (reader : Stream) : RecvError + WorkerHello * Stream :=
  recv_with worker_hello_from_proto reader.
Definition send_worker_accepted (writer : W) (accepted : WorkerAccepted) : option W :=
  send_proto_msg writer (worker_accepted_to_proto accepted).
Definition recv_worker_accepted (reader : Stream) : RecvError + WorkerAccepted * Stream :=
  recv_with worker_accepted_from_proto reader.
Definition send_worker_ready (writer : W) (ready : WorkerReady) : option W :=
  send_proto_msg writer (worker_ready_to_proto ready).
Definition recv_worker_ready (reader : Stream) : RecvError + WorkerReady * Stream :=
  recv_with (λ p, Some (worker_ready_from_proto p)) reader.

(** Log data: [[seq: u64 LE][length: u32 LE][payload]] *)
Definition send_log_frame (writer : W) (seq : Z) (payload : list Z) : option W :=
  w ← write_all writer (to_le 8 seq ++ to_le 4 (wrap 32 (zlen payload)));
  write_all w payload.
Definition recv_log_frame (reader : Stream) : RecvError + option (Z * list Z) * Stream :=
  match read_exact LOG_FRAME_HEADER_SIZE reader with
  | inl UnexpectedEof => inr (None, {| st_bytes := []; st_fails := st_fails reader |})
  | inl IoError => inl ReadLength
  | inr (header, reader) =>
      let seq := from_le (take 8 header) in
      let len := from_le (drop 8 header) in
      if MAX_MESSAGE_SIZE <? len then inl (TooLarge len)
      else if 0 <? len then
        match read_exact (Z.to_nat len) reader with
        | inl _ => inl ReadPayload
        | inr (payload, reader) => inr (Some (seq, payload), reader)
        end
      else inr (Some (seq, []), reader)
  end.
End Functions.

(** ** Sequences of messages *)
Definition rbind {A B} (m : RecvError + A * Stream) (f : A → Stream → RecvError + B * Stream) :
    RecvError + B * Stream :=
  match m with inl e => inl e | inr (a, s) => f a s end.
Fixpoint send_each {W A} (send : W → A → option W) (w : W) (l : list A) : option W :=
  match l with [] => Some w | a :: l => w ← send w a; send_each send w l end.
Fixpoint recv_each {A} (recv : Stream → RecvError + A * Stream) (n : nat) (s : Stream) :
    RecvError + list A * Stream :=
  match n with
  | O => inr ([], s)
  | S n => rbind (recv s) (λ a s, rbind (recv_each recv n s) (λ l s, inr (a :: l, s)))
  end.

(** [Delivers send recv a]: where [send] accepts [a], [recv] reads it from the bytes that
    [send] wrote and leaves the rest of the stream. *)
Section Delivery.
Context `{Write W}.
Definition more (b : list Z) (s : Stream) : Stream := {| st_bytes := b ++ st_bytes s; st_fails := st_fails s |}.
Definition Delivers {A} (send : W → option W) (recv : Stream → RecvError + A * Stream) (a : A) : Prop :=
  ∀ w w', send w = Some w' → ∃ b, written w' = written w ++ b ∧ ∀ s, recv (more b s) = inr (a, s).

Lemma more_app b c s : more (b ++ c) s = more b (more c s).
Proof. unfold more. simpl. by rewrite <- app_assoc. Qed.
Lemma more_nil s : more [] s = s.
Proof. by destruct s. Qed.
Lemma delivers_bind {A B C} (send1 send2 : W → option W) (recv1 : Stream → RecvError + A * Stream)
    (recv2 : Stream → RecvError + B * Stream) (k : A → B → C) a b :
  Delivers send1 recv1 a → Delivers send2 recv2 b →
  Delivers (λ w, w ← send1 w; send2 w) (λ s, rbind (recv1 s) (λ a s, rbind (recv2 s) (λ b s, inr (k a b, s))))
    (k a b).
Proof.
  intros H1 H2 w w' Hs. destruct (send1 w) as [w1|] eqn:E1; [|done]. simpl in Hs.
  destruct (H1 w w1 E1) as (b1 & W1 & R1). destruct (H2 w1 w' Hs) as (b2 & W2 & R2).
  exists (b1 ++ b2). split; [by rewrite W2, W1, app_assoc|].
  intros s. rewrite more_app, R1. simpl. by rewrite R2.
Qed.
Lemma delivers_each {A} (send : W → A → option W) (recv : Stream → RecvError + A * Stream) l :
  Forall (λ a, Delivers (λ w, send w a) recv a) l →
  Delivers (λ w, send_each send w l) (λ s, recv_each recv (length l) s) l.
Proof.
  induction 1 as [|a l Ha _ IH].
  - intros w w' [= <-]. exists []. split; [by rewrite app_nil_r|]. intros s. by rewrite more_nil.
  - exact (delivers_bind (λ w, send w a) _ recv _ cons a l Ha IH).
Qed.
End Delivery.

Lemma length_to_le n v : length (to_le n v) = n.
Proof. revert v. induction n as [|n IH]; intros v; [done|]. simpl. by rewrite IH. Qed.
Lemma from_to_le n v : 0 ≤ v < 2 ^ (8 * Z.of_nat n) → from_le (to_le n v) = v.
Proof.
  revert v. induction n as [|n IH]; intros v Hv; [simpl in *; lia|]. cbn [to_le from_le].
  rewrite Z.shiftr_div_pow2 by lia. unfold wrap.
  rewrite IH; [pose proof (Z.div_mod v (2 ^ 8)); lia|].
  split; [apply Z.div_pos; lia|]. apply Z.div_lt_upper_bound; [lia|].
  rewrite <- Z.pow_add_r by lia. replace (8 + 8 * Z.of_nat n) with (8 * Z.of_nat (S n)) by lia. apply Hv.
Qed.
Lemma read_exact_more n b s : length b = n → read_exact n (more b s) = inr (b, s).
Proof.
  intros <-. unfold read_exact, more. simpl. rewrite decide_True by (rewrite length_app; lia).
  rewrite take_app_length, drop_app_length. by destruct s.
Qed.
Lemma size_small (l : list Z) : zlen l ≤ MAX_MESSAGE_SIZE → wrap 32 (zlen l) = zlen l.
Proof. intros H. apply Z.mod_small. unfold MAX_MESSAGE_SIZE in H. lia. Qed.
Lemma small_not_large (l : list Z) : zlen l ≤ MAX_MESSAGE_SIZE → (MAX_MESSAGE_SIZE <? zlen l) = false.
Proof. intros H. apply Z.ltb_ge, H. Qed.
Lemma length_read (l : list Z) : zlen l ≤ MAX_MESSAGE_SIZE → from_le (to_le 4 (wrap 32 (zlen l))) = zlen l.
Proof. intros H. rewrite size_small by done. apply from_to_le. unfold MAX_MESSAGE_SIZE in H. lia. Qed.

(** The bytes of a message on the stream *)
Definition frame (payload : list Z) : list Z := to_le 4 (wrap 32 (zlen payload)) ++ payload.
Lemma send_written `{Write W, Message M} (m : M) (w w' : W) :
  send_proto_msg w m = Some w' → written w' = written w ++ frame (encode_to_vec m).
Proof.
  unfold send_proto_msg, frame. destruct (write_all w _) as [w1|] eqn:E1; [|done]. cbn [mbind option_bind].
  destruct (write_all w1 _) as [w2|] eqn:E2; [|done]. cbn [mbind option_bind]. intros E3.
  apply write_all_written in E1, E2. apply flush_written in E3. by rewrite E3, E2, E1, app_assoc.
Qed.

(** A value that can be sent: it fits, its message is one of the schema, and the encoding
    is at most 16 MiB. *)
Definition sendable `{Wire A P, Message P} (a : A) : Prop :=
  fits a = true ∧ representable (to_proto a) ∧ zlen (encode_to_vec (to_proto a)) ≤ MAX_MESSAGE_SIZE.

Lemma frame_delivered `{Write W, Wire A P, Message P} (a : A) :
  sendable a → Delivers (λ w : W, send_proto_msg w (to_proto a)) (recv_with from_proto) a.
Proof.
  intros (Hf & Hr & Hs) w w' E%send_written. eexists. split; [exact E|].
  intros s. unfold recv_with, recv_proto_msg, frame. rewrite more_app, read_exact_more by apply length_to_le. rewrite length_read, small_not_large by done.
  rewrite read_exact_more by lia. rewrite decode_encode by done. by rewrite from_to.
Qed.

(** ** A session

    On the control stream the worker sends its hello, its ready message and then events;
    the orchestrator sends the acceptance and then commands. *)
Section Session.
Context `{Write W, Message Proto.WorkerCommand, Message Proto.WorkerEvent, Message Proto.LogStreamHeader,
  Message Proto.WorkerHello, Message Proto.WorkerAccepted, Message Proto.WorkerReady}.
Definition worker_sends (w : W) (hello : WorkerHello) (ready : WorkerReady) (events : list WorkerEvent) : option W :=
  w ← send_worker_hello w hello;
  w ← send_worker_ready w ready;
  send_each send_worker_event w events.
Definition orchestrator_reads (n : nat) (s : Stream) :
    RecvError + (WorkerHello * (WorkerReady * list WorkerEvent)) * Stream :=
  rbind (recv_worker_hello s) (λ hello s,
    rbind (rbind (recv_worker_ready s) (λ ready s,
             rbind (recv_each recv_worker_event n s) (λ events s, inr ((ready, events), s))))
      (λ rest s, inr ((hello, rest), s))).
Definition orchestrator_sends (w : W) (accepted : WorkerAccepted) (cmds : list WorkerCommand) : option W :=
  w ← send_worker_accepted w accepted;
  send_each send_worker_command w cmds.
Definition worker_reads (n : nat) (s : Stream) : RecvError + (WorkerAccepted * list WorkerCommand) * Stream :=
  rbind (recv_worker_accepted s) (λ accepted s,
    rbind (recv_each recv_worker_command n s) (λ cmds s, inr ((accepted, cmds), s))).

(** C20: Everything the two sides of a control stream send arrives as it was sent and in
    order: the orchestrator reads the hello, the ready message and the events from the bytes
    that the worker wrote, the worker reads the acceptance and the commands, and nothing of
    the stream after them is consumed.  The values must fit their fields and their encodings
    the limit of 16 MiB. *)
Theorem session_exact hello ready events accepted cmds :
  sendable hello → sendable ready → Forall sendable events → sendable accepted → Forall sendable cmds →
  (∀ w w', worker_sends w hello ready events = Some w' →
     ∃ b, written w' = written w ++ b ∧
       ∀ s, orchestrator_reads (length events) (more b s) = inr ((hello, (ready, events)), s)) ∧
  (∀ w w', orchestrator_sends w accepted cmds = Some w' →
     ∃ b, written w' = written w ++ b ∧
       ∀ s, worker_reads (length cmds) (more b s) = inr ((accepted, cmds), s)).
Proof.
  intros Hh Hr He Ha Hc. split.
  - apply (delivers_bind _ (λ w, w ← send_worker_ready w ready; send_each send_worker_event w events)
             recv_worker_hello _ pair); [exact (frame_delivered hello Hh)|].
    apply (delivers_bind _ _ recv_worker_ready _ pair); [exact (frame_delivered ready Hr)|].
    apply delivers_each. eapply Forall_impl; [exact He|]. intros e Hs. exact (frame_delivered e Hs).
  - apply (delivers_bind _ _ recv_worker_accepted _ pair); [exact (frame_delivered accepted Ha)|].
    apply delivers_each. eapply Forall_impl; [exact Hc|]. intros c Hs. exact (frame_delivered c Hs).
Qed.

(** A command or event that was decoded from any message, also one of another version
    or a hostile one, fits; sending it on gives the same value again, so that what a
    conversion loses it loses once. *)
Theorem decoding_normalises (p : Proto.WorkerCommand) (q : Proto.WorkerEvent) :
  (∀ c, worker_command_from_proto p = Some c →
     fits_command c = true ∧ worker_command_from_proto (worker_command_to_proto c) = Some c) ∧
  (∀ e, worker_event_from_proto q = Some e →
     fits_event e = true ∧ worker_event_from_proto (worker_event_to_proto e) = Some e).
Proof.
  split; intros x Hx.
  - pose proof (command_decoded p x Hx). by split; [|apply command_same].
  - pose proof (event_decoded q x Hx). by split; [|apply event_same].
Qed.

(** The sender does not check the limit: what is too large is sent and refused by the
    other side, which loses the stream. *)
Lemma oversize_refused `{Message M} (m : M) (w w' : W) :
  MAX_MESSAGE_SIZE < zlen (encode_to_vec m) < 2 ^ 32 → send_proto_msg w m = Some w' →
  ∃ b, written w' = written w ++ b ∧
    ∀ s, recv_proto_msg (M := M) (more b s) = inl (TooLarge (zlen (encode_to_vec m))).
Proof.
  intros Hl E%send_written. eexists. split; [exact E|]. intros s. unfold recv_proto_msg, frame.
  rewrite more_app, read_exact_more by apply length_to_le. unfold wrap. rewrite Z.mod_small by lia.
  rewrite from_to_le by lia. by rewrite (proj2 (Z.ltb_lt _ _)) by lia.
Qed.
End Session.

(** ** Log streams *)
Section Logs.
Context `{Write W}.
(** The loop that reads the frames of a stream: it stops at the end or at an error.  One
    frame has at least the 12 bytes of its header, so that fuel for every byte is enough. *)
Fixpoint recv_log_frames (fuel : nat) (s : Stream) : list (Z * list Z) * option RecvError :=
  match fuel with
  | O => ([], None)
  | S fuel =>
      match recv_log_frame s with
      | inl e => ([], Some e)
      | inr (None, _) => ([], None)
      | inr (Some frame, s) => let '(l, e) := recv_log_frames fuel s in (frame :: l, e)
      end
  end.
Definition read_log (s : Stream) : list (Z * list Z) * option RecvError :=
  recv_log_frames (S (length (st_bytes s))) s.

Definition frame_ok (f : Z * list Z) : Prop := 0 ≤ f.1 < 2 ^ 64 ∧ zlen f.2 ≤ MAX_MESSAGE_SIZE.
Definition log_frame (f : Z * list Z) : list Z := to_le 8 f.1 ++ to_le 4 (wrap 32 (zlen f.2)) ++ f.2.
Definition log_bytes (l : list (Z * list Z)) : list Z := l ≫= log_frame.

Lemma send_log_written (w w' : W) f : send_log_frame w f.1 f.2 = Some w' → written w' = written w ++ log_frame f.
Proof.
  unfold send_log_frame, log_frame. destruct (write_all w _) as [w1|] eqn:E1; [|done]. cbn [mbind option_bind]. intros E2.
  apply write_all_written in E1, E2. by rewrite E2, E1, <- !app_assoc.
Qed.
Lemma send_logs_written (w w' : W) l :
  send_each (λ w f, send_log_frame w f.1 f.2) w l = Some w' → written w' = written w ++ log_bytes l.
Proof.
  revert w. induction l as [|f l IH]; intros w E; cbn [send_each] in E.
  - injection E as ->. unfold log_bytes. by rewrite app_nil_r.
  - destruct (send_log_frame w f.1 f.2) as [w1|] eqn:E1; [|done]. cbn [mbind option_bind] in E.
    apply send_log_written in E1. rewrite (IH w1 E), E1. unfold log_bytes. by rewrite bind_cons, app_assoc.
Qed.

Lemma read_exact_short n s :
  (length (st_bytes s) < n)%nat → read_exact n s = inl (if st_fails s then IoError else UnexpectedEof).
Proof. intros Hn. unfold read_exact. rewrite decide_False by lia. done. Qed.
Lemma read_log_header f r fails :
  frame_ok f → let s := {| st_bytes := r; st_fails := fails |} in
  recv_log_frame (more (to_le 8 f.1 ++ to_le 4 (wrap 32 (zlen f.2))) s) =
  match read_exact (length f.2) s with
  | inl _ => inl ReadPayload
  | inr (payload, s) => inr (Some (f.1, payload), s)
  end.
Proof.
  intros [Hs Hl] s. unfold recv_log_frame, LOG_FRAME_HEADER_SIZE.
  rewrite read_exact_more by (rewrite length_app, !length_to_le; done).
  rewrite (take_app_length' _ _ 8) by (by rewrite length_to_le). rewrite (drop_app_length' _ _ 8) by (by rewrite length_to_le).
  rewrite (from_to_le 8), length_read, small_not_large by done. rewrite Nat2Z.id.
  destruct f.2 as [|x p]; [by destruct s|].
  rewrite (proj2 (Z.ltb_lt _ _)) by (rewrite length_cons; lia). done.
Qed.
(** A stream that was cut: whole frames are read, a piece of a frame is not. *)
Lemma cut_frame f k r fails :
  frame_ok f →
  recv_log_frame {| st_bytes := take k (log_frame f ++ r); st_fails := fails |} =
  if decide (length (log_frame f) ≤ k)%nat
  then inr (Some f, {| st_bytes := take (k - length (log_frame f)) r; st_fails := fails |})
  else if decide (12 ≤ k)%nat then inl ReadPayload
  else if fails then inl ReadLength else inr (None, {| st_bytes := []; st_fails := false |}).
Proof.
  intros Hf. pose proof (read_log_header f) as Hr. pose proof (length_to_le 8 f.1) as L8.
  pose proof (length_to_le 4 (wrap 32 (zlen f.2))) as L4. unfold log_frame. rewrite (app_assoc (to_le 8 f.1)).
  assert (Lh : length (to_le 8 f.1 ++ to_le 4 (wrap 32 (zlen f.2))) = 12%nat) by (rewrite length_app; lia).
  generalize dependent (to_le 8 f.1 ++ to_le 4 (wrap 32 (zlen f.2))). clear L8 L4. intros h Hr Lh.
  rewrite length_app, Lh. destruct (decide (12 ≤ k)%nat) as [Hk|Hk].
  - rewrite <- app_assoc, take_app, (take_ge h) by lia. specialize (Hr (take (k - length h) (f.2 ++ r)) fails Hf).
    unfold more in Hr. cbn [st_bytes st_fails] in Hr. rewrite Hr, Lh. unfold read_exact. cbn [st_bytes st_fails].
    rewrite length_take, length_app.
    destruct (decide (12 + length f.2 ≤ k)%nat).
    + rewrite decide_True by lia. rewrite take_take, Nat.min_l, take_app_length by lia.
      rewrite skipn_firstn_comm, drop_app_length, <- Nat.sub_add_distr. by destruct f.
    + by rewrite decide_False by lia.
  - rewrite decide_False by lia. unfold recv_log_frame, LOG_FRAME_HEADER_SIZE.
    rewrite read_exact_short by (simpl; rewrite length_take; lia). by destruct fails.
Qed.
Lemma frame_bytes f : (12 ≤ length (log_frame f))%nat.
Proof. unfold log_frame. rewrite !length_app, !length_to_le. lia. Qed.
Lemma read_cut l k fails fuel :
  Forall frame_ok l → (length (take k (log_bytes l)) < fuel)%nat →
  ∃ m e, recv_log_frames fuel {| st_bytes := take k (log_bytes l); st_fails := fails |} = (take m l, e) ∧
    (length (log_bytes l) ≤ k → take m l = l ∧ e = if fails then Some ReadLength else None)%nat.
Proof.
  intros Hl. revert k fuel. induction Hl as [|f l Hf Hl IH]; intros k fuel Hfuel.
  - exists 0%nat. destruct fuel as [|fuel]; [lia|]. unfold log_bytes. simpl. rewrite take_nil.
    destruct fails; eexists; (split; [reflexivity|done]).
  - destruct fuel as [|fuel]; [lia|]. unfold log_bytes in *. rewrite bind_cons in *.
    cbn [recv_log_frames]. rewrite cut_frame by done.
    destruct (decide (length (log_frame f) ≤ k)%nat) as [Hk|Hk].
    + destruct (IH (k - length (log_frame f))%nat fuel) as (m & e & E & Hall).
      { pose proof (frame_bytes f). rewrite !length_take in *. rewrite length_app in Hfuel. lia. }
      exists (S m), e. rewrite E. split; [done|]. intros Hk'. rewrite length_app in Hk'.
      destruct Hall as [Hm ->]; [lia|]. split; [|done]. simpl. f_equal. exact Hm.
    + exists 0%nat. repeat case_decide; destruct fails; eexists; (split; [reflexivity|]);
        intros Hk'; rewrite length_app in Hk'; lia.
Qed.

(** What the reader takes from a log stream is a prefix of the frames that were sent, in
    order and with their sequence numbers, wherever the stream is cut; from the whole stream
    it takes all of them, and it reports no error when the stream then ends. *)
Theorem log_stream_prefix (w w' : W) l k fails :
  Forall frame_ok l → send_each (λ w f, send_log_frame w f.1 f.2) w l = Some w' →
  ∃ b, written w' = written w ++ b ∧
    let r := read_log {| st_bytes := take k b; st_fails := fails |} in
    r.1 `prefix_of` l ∧ (k ≥ length b → r = (l, if fails then Some ReadLength else None))%nat.
Proof.
  intros Hl E%send_logs_written. eexists. split; [exact E|]. unfold read_log.
  destruct (read_cut l k fails _ Hl (Nat.lt_succ_diag_r _)) as (m & e & Em & Hall).
  cbv zeta. cbn [st_bytes]. rewrite Em. cbn [fst]. split; [exists (drop m l); by rewrite take_drop|]. intros Hk. by destruct (Hall Hk) as [-> ->].
Qed.
End Logs.

(** ** Witnesses and examples *)
(** A writer that keeps its bytes in memory *)
#[local] Program Instance vec_write : Write (list Z) := {|
  written := λ w, w; write_all := λ w b, Some (w ++ b); flush := λ w, Some w |}.
Next Obligation. simpl. congruence. Qed.
Next Obligation. simpl. congruence. Qed.
(** An encoding of one value of a message type, and one of commands that stop the worker
    or a pod of the namespace [demo_ns] *)
Program Definition single {M} (m : M) : Message M := {|
  encode_to_vec := λ _, [7; 7]; decode := λ _, Some m; representable := λ x, x = m |}.
Next Obligation. intros M m x Hx. by rewrite Hx. Qed.
Definition demo_ns : NamespaceId := {| ns_name := "ns"; ns_id := 4 |}.
Definition demo_encode (m : Proto.WorkerCommand) : list Z :=
  match m with
  | Proto.mk_WorkerCommand (Some (Proto.StopPod _ pod graceful)) => [1; pod; Z.b2z graceful]
  | _ => []
  end.
Definition demo_decode (b : list Z) : option Proto.WorkerCommand :=
  match b with
  | [1; pod; g] => Some (Proto.mk_WorkerCommand (Some (Proto.StopPod (Some (ns_to_proto demo_ns)) pod (g =? 1))))
  | [] => Some (Proto.mk_WorkerCommand (Some Proto.Shutdown))
  | _ => None
  end.
Program Definition demo_commands : Message Proto.WorkerCommand := {|
  encode_to_vec := demo_encode; decode := demo_decode;
  representable := λ m, m = Proto.mk_WorkerCommand (Some Proto.Shutdown) ∨
    ∃ pod g, m = Proto.mk_WorkerCommand (Some (Proto.StopPod (Some (ns_to_proto demo_ns)) pod g)) |}.
Next Obligation. simpl. by intros m [->|(pod & [] & ->)]. Qed.
Definition demo_caps : WorkerCapabilities :=
  {| has_kvm := true; has_containerd := false; available_adapters := []; max_pods := 8; available_memory_mb := 4096;
     public_endpoint := "w1:7000"; pools := [] |}.
Definition demo_hello : WorkerHello := {| wh_auth_token := "t"; wh_capabilities := demo_caps |}.
Definition demo_ready : WorkerReady :=
  {| wr_tunnel_listen_port := Some 7001; wr_tunnel_public_key := Some (replicate 32 9);
     wr_transfer_listen_port := None; wr_wireguard_listen_port := None; wr_wireguard_public_key := None |}.
Definition demo_accepted : WorkerAccepted :=
  {| wa_worker_id := 3; wa_adapters := [AdWireGuard 51820]; wa_tunnel_encrypted := true; wa_pools := [] |}.
Definition demo_event : WorkerEvent := Event.EndpointDemandTraffic demo_ns 167772161 (Some 5).

#[local] Instance demo_commands_msg : Message Proto.WorkerCommand := demo_commands.
#[local] Instance demo_hello_msg : Message Proto.WorkerHello := single (worker_hello_to_proto demo_hello).
#[local] Instance demo_ready_msg : Message Proto.WorkerReady := single (worker_ready_to_proto demo_ready).
#[local] Instance demo_accepted_msg : Message Proto.WorkerAccepted := single (worker_accepted_to_proto demo_accepted).
#[local] Instance demo_event_msg : Message Proto.WorkerEvent := single (worker_event_to_proto demo_event).

Lemma session_exact_witness :
  (∃ b, written (W := list Z) (b : list Z) = written [] ++ b ∧
     ∀ s, worker_reads 2 (more b s) =
       inr ((demo_accepted, [Command.StopPod demo_ns 6 true; Command.Shutdown]), s)) ∧
  orchestrator_sends [] demo_accepted [Command.StopPod demo_ns 6 true; Command.Shutdown] =
    Some [2; 0; 0; 0; 7; 7; 3; 0; 0; 0; 1; 6; 1; 0; 0; 0; 0].
Proof.
  split; [|by vm_compute].
  assert (Hs : Forall sendable [Command.StopPod demo_ns 6 true; Command.Shutdown]).
  { repeat apply List.Forall_cons; [| |apply List.Forall_nil].
    - split; [done|]. split; [right; by exists 6, true|]. by vm_compute.
    - split; [done|]. split; [by left|]. by vm_compute. }
  assert (He : Forall sendable [demo_event; demo_event]).
  { repeat apply List.Forall_cons; [| |apply List.Forall_nil]; (split; [by vm_compute|]; by split; vm_compute). }
  destruct (session_exact demo_hello demo_ready [demo_event; demo_event] demo_accepted
    [Command.StopPod demo_ns 6 true; Command.Shutdown]) as [_ Hw];
    [by split; [|split; vm_compute]|by split; [vm_compute|split; vm_compute]|exact He
    |by split; [vm_compute|split; vm_compute]|exact Hs|].
  destruct (Hw [] [2; 0; 0; 0; 7; 7; 3; 0; 0; 0; 1; 6; 1; 0; 0; 0; 0] ltac:(by vm_compute)) as (b & Eb & Hb).
  by exists b.
Defined.

Lemma log_stream_prefix_witness :
  ∃ b, written (W := list Z) [1; 0; 0; 0; 0; 0; 0; 0; 2; 0; 0; 0; 65; 66; 2; 0; 0; 0; 0; 0; 0; 0; 1; 0; 0; 0; 67] =
    written [] ++ b ∧
    let r := read_log {| st_bytes := take 20 b; st_fails := false |} in
    r.1 `prefix_of` [(1, [65; 66]); (2, [67])] ∧
    ((20 ≥ length b)%nat → r = ([(1, [65; 66]); (2, [67])], None)).
Proof.
  apply (log_stream_prefix (W := list Z) [] _ [(1, [65; 66]); (2, [67])] 20 false).
  - repeat apply List.Forall_cons; [| |apply List.Forall_nil]; by vm_compute.
  - by vm_compute.
Defined.

(** The end of the stream inside the header of a frame is reported as a clean end. *)
Example truncated_header_is_clean_end :
  read_log {| st_bytes := [1; 0; 0; 0; 0; 0; 0; 0; 2; 0; 0; 0; 65; 66; 2; 0; 0]; st_fails := false |} =
    ([(1, [65; 66])], None).
Proof. by vm_compute. Qed.
(** An optional text that is empty, and a key of 31 bytes in the ready
    message: both are lost without an error. *)
Example empty_text_lost :
  worker_command_from_proto (worker_command_to_proto (Command.TransferArtifact 1 "a" "p" "b" "q" (Some EmptyString))) =
    Some (Command.TransferArtifact 1 "a" "p" "b" "q" None).
Proof. by vm_compute. Qed.
Example short_key_dropped :
  wr_tunnel_public_key (worker_ready_from_proto
    (Proto.mk_WorkerReady (Some 7001) (Some (replicate 31 9)) None None None)) = None.
Proof. by vm_compute. Qed.
(** Ports come back modulo 2^16. *)
Example port_truncated :
  adapter_config_from_proto (Proto.mk_AdapterConfig (Some (Proto.Wireguard (65536 + 53)))) = Some (AdWireGuard 53).
Proof. by vm_compute. Qed.

End Codec.
