(* ===== verification/WorkerState.v ===== *)
(** * Tracked worker state
      ([crates/orchestrator/src/core/orchestrator/worker_state.rs])

    The orchestrator's view of its workers.  Every event yields updates for the
    scheduler and possibly a broadcast of the worker registry.  The theorems show
    that a scheduler fed with the updates always holds exactly the candidates of the
    tracked workers, and that the registry the workers were sent last is current.
    The PSI averages are binary64 numbers; [as f32], the division and the clamp are
    those of [SpecFloat] at the two precisions. *)

From S2P Require Import Prelude SmTypes Pressure Protocol Scheduler.
From stdpp Require Import pretty.
From Stdlib Require Import SpecFloat.
#[local] Open Scope Z_scope.

Module WorkerState.
Import Pressure.

Record WorkerTunnelInfo := { ti_listen_port : Z; ti_public_key : list Z }.
Record WireguardAdapterInfo := { wg_listen_port : Z; wg_public_key : list Z }.
Record WorkerPsi := { psi_cpu : PsiMetrics; psi_memory : PsiMetrics; psi_io : PsiMetrics }.
Record TrackedWorkerStateCore := {
  pressure_bands : PressureBands;
  pressure : WorkerPressure;
  psi : option WorkerPsi;
  capabilities : WorkerCapabilities;
  conditions : gmap string bool;
  pod_count : Z;
  tunnel_info : option WorkerTunnelInfo;
  wireguard_info : option WireguardAdapterInfo;
  proto_worker_id : WorkerId;
  segments : gset Z;
}.

Definition f32_zero : f32 := S754_zero false.
Definition f32_one : f32 := f32_lit 8388608 (-23).
Definition f32_hundred : f32 := f32_lit 13107200 (-17).

(** [x as f32] of an [f64] *)
Definition f64_as_f32 (x : spec_float) : f32 :=
  match x with
  | S754_finite s m e => binary_normalize 24 128 (cond_Zopp s (Zpos m)) e s
  | _ => x
  end.
Definition f32_clamp (x lo hi : f32) : f32 :=
  if f32_lt x lo then lo else if f32_lt hi x then hi else x.
Definition psi_score (m : PsiMetrics) : f32 :=
  f32_clamp (SFdiv 24 128 (f64_as_f32 (some_avg10 m)) f32_hundred) f32_zero f32_one.

Definition tracked_new (caps : WorkerCapabilities) (tunnel : option WorkerTunnelInfo)
    (wg : option WireguardAdapterInfo) (proto : WorkerId) : TrackedWorkerStateCore :=
  {| pressure_bands := bands_default;
     pressure := {| wp_compute := f32_zero; wp_memory := f32_zero;
                    wp_storage := f32_zero; wp_network := f32_zero |};
     psi := None; capabilities := caps; conditions := ∅; pod_count := 0;
     tunnel_info := tunnel; wireguard_info := wg; proto_worker_id := proto; segments := ∅ |}.

Definition to_candidate (s : TrackedWorkerStateCore) (worker_id : GlobalWorkerId) :
    Scheduler.WorkerCandidate :=
  {| Scheduler.worker_id := worker_id;
     Scheduler.max_pressure_band := max_band (pressure_bands s);
     Scheduler.pod_count := pod_count s;
     Scheduler.draining := default false (conditions s !! "draining");
     Scheduler.active := true |}.

Definition recompute_pressure_from_psi (s : TrackedWorkerStateCore) : TrackedWorkerStateCore :=
  match psi s with
  | None => s
  | Some p =>
      let pr := {| wp_compute := psi_score (psi_cpu p); wp_memory := psi_score (psi_memory p);
                   wp_storage := psi_score (psi_io p); wp_network := f32_zero |} in
      {| s with pressure := pr; pressure_bands := update_bands pr (pressure_bands s) |}
  end.

Record WorkerQueryInfo := {
  qi_worker_id : GlobalWorkerId; qi_max_pods : Z; qi_available_memory_mb : Z;
  qi_active_pods : Z; qi_conditions : gmap string bool }.

Record WorkerStateCore := {
  workers : gmap Z TrackedWorkerStateCore;
  namespace_segments : gmap NamespaceId Z;
}.
Definition new : WorkerStateCore := {| workers := ∅; namespace_segments := ∅ |}.

Inductive WorkerStateCoreEvent :=
  | PressureUpdate (worker_id : GlobalWorkerId) (cpu memory io : PsiMetrics)
  | PoolCapacityUpdate (worker_id : GlobalWorkerId) (pools : list PoolInfo)
  | ConditionUpdate (worker_id : GlobalWorkerId) (key : string) (active : bool) (message : string)
  | Connected (worker_id : GlobalWorkerId) (caps : WorkerCapabilities)
      (tunnel : option WorkerTunnelInfo) (wg : option WireguardAdapterInfo) (proto : WorkerId)
  | Disconnected (worker_id : GlobalWorkerId)
  | NamespaceAssigned (worker_id : GlobalWorkerId) (namespace_id : NamespaceId)
  | NamespaceUnassigned (worker_id : GlobalWorkerId) (namespace_id : NamespaceId)
  | RegisterNamespaceSegment (namespace_id : NamespaceId) (segment_id : Z)
  | UnregisterNamespaceSegment (namespace_id : NamespaceId)
  | PodCountChange (worker_id : GlobalWorkerId) (delta : Z).

Section Process.
Context `{!HashIter Z}.

Record WorkerStateEffects := {
  scheduler_updates : list Scheduler.SchedulerCoreInput;
  worker_registry_broadcast : option WorkerCommand;
}.
Definition effects_default : WorkerStateEffects :=
  {| scheduler_updates := []; worker_registry_broadcast := None |}.

Definition to_peer_info (s : TrackedWorkerStateCore) : option WorkerPeerInfo :=
  tunnel_info s ≫= λ tunnel,
    if decide (public_endpoint (capabilities s) = "") then None
    else Some {| wpi_worker_id := proto_worker_id s;
                 wpi_endpoint := (public_endpoint (capabilities s) +:+ ":" +:+
                                  pretty (ti_listen_port tunnel))%string;
                 wpi_public_key := ti_public_key tunnel;
                 wpi_segments := (hash_iter (gset_to_gmap () (segments s))).*1 |}.

Definition build_worker_registry (c : WorkerStateCore) : list WorkerPeerInfo :=
  omap to_peer_info (hash_iter (workers c)).*2.
Definition build_worker_registry_command (c : WorkerStateCore) : WorkerCommand :=
  Command.WorkerRegistrySync (build_worker_registry c).

(** [if let Some(state) = self.workers.get_mut(&id)]: update the worker and tell
    the scheduler. *)
Definition update_worker (w : GlobalWorkerId) (f : TrackedWorkerStateCore → TrackedWorkerStateCore)
    (c : WorkerStateCore) : WorkerStateEffects * WorkerStateCore :=
  match workers c !! w with
  | Some state =>
      let state := f state in
      ({| scheduler_updates := [Scheduler.WorkerUpdate w (to_candidate state w)];
          worker_registry_broadcast := None |},
       {| c with workers := <[w := state]> (workers c) |})
  | None => (effects_default, c)
  end.

(** Change the segments of a worker; broadcast when they did change. *)
Definition update_segments (w : GlobalWorkerId) (ns : NamespaceId)
    (f : Z → gset Z → gset Z) (c : WorkerStateCore) : WorkerStateEffects * WorkerStateCore :=
  match workers c !! w, namespace_segments c !! ns with
  | Some state, Some segment =>
      if decide (f segment (segments state) = segments state) then (effects_default, c)
      else
        let c := {| c with workers :=
          <[w := {| state with segments := f segment (segments state) |}]> (workers c) |} in
        ({| scheduler_updates := []; worker_registry_broadcast := Some (build_worker_registry_command c) |}, c)
  | _, _ => (effects_default, c)
  end.

Definition process (event : WorkerStateCoreEvent) (c : WorkerStateCore) :
    WorkerStateEffects * WorkerStateCore :=
  match event with
  | PressureUpdate w cpu memory io =>
      update_worker w (λ s, recompute_pressure_from_psi
        {| s with psi := Some {| psi_cpu := cpu; psi_memory := memory; psi_io := io |} |}) c
  | PoolCapacityUpdate w ps =>
      match workers c !! w with
      | Some state =>
          let caps := capabilities state in
          (effects_default,
           {| c with workers := <[w := {| state with capabilities :=
                {| caps with pools := ps |} |}]> (workers c) |})
      | None => (effects_default, c)
      end
  | ConditionUpdate w key act _ =>
      update_worker w (λ s, {| s with conditions := <[key := act]> (conditions s) |}) c
  | Connected w caps tunnel wg proto =>
      let state := tracked_new caps tunnel wg proto in
      let c := {| c with workers := <[w := state]> (workers c) |} in
      ({| scheduler_updates := [Scheduler.WorkerUpdate w (to_candidate state w)];
          worker_registry_broadcast := Some (build_worker_registry_command c) |}, c)
  | Disconnected w =>
      let c := {| c with workers := delete w (workers c) |} in
      ({| scheduler_updates := [Scheduler.WorkerRemoved w];
          worker_registry_broadcast := Some (build_worker_registry_command c) |}, c)
  | NamespaceAssigned w ns => update_segments w ns (λ seg segs, {[seg]} ∪ segs) c
  | NamespaceUnassigned w ns => update_segments w ns (λ seg segs, segs ∖ {[seg]}) c
  | RegisterNamespaceSegment ns seg =>
      (effects_default, {| c with namespace_segments := <[ns := seg]> (namespace_segments c) |})
  | UnregisterNamespaceSegment ns =>
      (effects_default, {| c with namespace_segments := delete ns (namespace_segments c) |})
  | PodCountChange w delta =>
      update_worker w (λ s, recompute_pressure_from_psi
        {| s with pod_count := Z.max (i32_add (as_i32 (pod_count s)) delta) 0 |}) c
  end.

Definition find_wireguard_worker (c : WorkerStateCore) :
    option (GlobalWorkerId * WireguardAdapterInfo * string) :=
  find_map (λ e : Z * TrackedWorkerStateCore,
    match wireguard_info e.2 with
    | Some wg =>
        if decide (public_endpoint (capabilities e.2) = "") then None
        else Some (e.1, wg, public_endpoint (capabilities e.2))
    | None => None
    end) (hash_iter (workers c)).

Definition query_info (id : GlobalWorkerId) (s : TrackedWorkerStateCore) : WorkerQueryInfo :=
  {| qi_worker_id := id; qi_max_pods := max_pods (capabilities s);
     qi_available_memory_mb := available_memory_mb (capabilities s);
     qi_active_pods := wrap 32 (pod_count s); qi_conditions := conditions s |}.
Definition query_worker (c : WorkerStateCore) (id : GlobalWorkerId) : option WorkerQueryInfo :=
  query_info id <$> workers c !! id.
Definition query_all_workers (c : WorkerStateCore) : list WorkerQueryInfo :=
  (λ e : Z * TrackedWorkerStateCore, query_info e.1 e.2) <$> hash_iter (workers c).

(** ** The scheduler's table mirrors the tracked workers *)
Context `{!HashIter PodKey} `{!HashIter string}.

Definition mirrors (c : WorkerStateCore) (s : Scheduler.SchedulerCore) : Prop :=
  ∀ w, Scheduler.workers s !! w = (λ st, to_candidate st w) <$> workers c !! w.

Definition feed (s : Scheduler.SchedulerCore) (us : list Scheduler.SchedulerCoreInput) :
    Scheduler.SchedulerCore := foldl (λ s u, (Scheduler.process u s).2) s us.

Lemma process_workers i s :
  Scheduler.workers (Scheduler.process i s).2 =
  match i with
  | Scheduler.WorkerUpdate w c => <[w := c]> (Scheduler.workers s)
  | Scheduler.WorkerRemoved w => delete w (Scheduler.workers s)
  | _ => Scheduler.workers s
  end.
Proof.
  destruct i as [ns pod r|ns pod|w c|w|w ev|art ns|art ns]; simpl; try done.
  - by destruct (Scheduler.select_worker _ _ _).
  - by destruct (Scheduler.granted s !! _).
  - destruct (Scheduler.retry_pending _) as [ds s'] eqn:E.
    destruct (Scheduler.none_eligible_dec {| s with Scheduler.workers := <[w := c]> (Scheduler.workers s) |}).
    + rewrite Scheduler.retry_pending_none in E by done. by simplify_eq.
    + apply Scheduler.retry_pending_all in E as (E & _); done.
Qed.

(** Storing a worker and sending its candidate keeps the mirror. *)
Lemma mirrors_insert c s w st ns :
  mirrors c s →
  mirrors {| workers := <[w := st]> (workers c); namespace_segments := ns |}
    (feed s [Scheduler.WorkerUpdate w (to_candidate st w)]).
Proof.
  intros Hm w'. unfold feed; cbn [foldl]. rewrite process_workers; simpl.
  destruct (decide (w = w')) as [<-|]; [by rewrite !lookup_insert_eq|].
  by rewrite !lookup_insert_ne.
Qed.

(** A change the candidate does not show needs no update. *)
Lemma mirrors_quiet c s w st st' :
  mirrors c s → workers c !! w = Some st → to_candidate st' w = to_candidate st w →
  mirrors {| c with workers := <[w := st']> (workers c) |} s.
Proof.
  intros Hm Hw Hc w'. simpl. destruct (decide (w = w')) as [<-|].
  - rewrite lookup_insert_eq, Hm, Hw. simpl. by rewrite Hc.
  - by rewrite lookup_insert_ne.
Qed.

Lemma process_mirrors e c s :
  mirrors c s → mirrors (process e c).2 (feed s (scheduler_updates (process e c).1)).
Proof.
  intros Hm.
  assert (Hu : ∀ w f, mirrors (update_worker w f c).2 (feed s (scheduler_updates (update_worker w f c).1))).
  { intros w f. unfold update_worker. destruct (workers c !! w); [|done]. by apply mirrors_insert. }
  assert (Hs : ∀ w ns f, mirrors (update_segments w ns f c).2
                           (feed s (scheduler_updates (update_segments w ns f c).1))).
  { intros w ns f. unfold update_segments. destruct (workers c !! w) eqn:Ew; [|done].
    destruct (namespace_segments c !! ns); [|done]. case_decide; [done|].
    by apply (mirrors_quiet _ _ _ _ _ Hm Ew). }
  destruct e as [w cpu mem io|w ps|w k a m|w caps tn wg pr|w|w ns|w ns|ns seg|ns|w d]; simpl; try done; auto.
  - destruct (workers c !! w) eqn:Ew; [|done].
    by apply (mirrors_quiet _ _ _ _ _ Hm Ew).
  - by apply mirrors_insert.
  - intros w'. simpl. destruct (decide (w = w')) as [<-|]; [by rewrite !lookup_delete_eq|].
    by rewrite !lookup_delete_ne.
Qed.

(** The orchestrator interleaves worker events with the other scheduler inputs. *)
Inductive orch_input :=
  | FromWorker (e : WorkerStateCoreEvent)
  | FromNamespace (i : Scheduler.SchedulerCoreInput).
Definition from_namespace (i : Scheduler.SchedulerCoreInput) : bool :=
  match i with Scheduler.WorkerUpdate _ _ | Scheduler.WorkerRemoved _ => false | _ => true end.
Definition orch_step (a : WorkerStateCore * Scheduler.SchedulerCore) (i : orch_input) :
    WorkerStateCore * Scheduler.SchedulerCore :=
  match i with
  | FromWorker e =>
      let '(eff, c) := process e a.1 in (c, feed a.2 (scheduler_updates eff))
  | FromNamespace i => (a.1, (Scheduler.process i a.2).2)
  end.

(** A scheduler that is fed the updates of the worker state, interleaved with
    any requests of the namespaces, always schedules on exactly the tracked workers,
    each with its current pressure band, pod count and draining condition. *)
Theorem scheduler_mirrors_workers l :
  Forall (λ i, match i with FromNamespace i => from_namespace i = true | _ => True end) l →
  let '(c, s) := foldl orch_step (new, Scheduler.new) l in
  ∀ w, Scheduler.workers s !! w = (λ st, to_candidate st w) <$> workers c !! w.
Proof.
  intros Hl. assert (H0 : mirrors (new, Scheduler.new).1 (new, Scheduler.new).2)
    by (intros w; simpl; by rewrite !lookup_empty).
  revert H0. generalize (new, Scheduler.new).
  induction Hl as [|i l Hi Hl IH]; intros a Hm; [by destruct a|]. cbn [foldl]. apply IH.
  destruct i as [e|i]; simpl.
  - pose proof (process_mirrors e a.1 a.2 Hm). by destruct (process e a.1).
  - intros w. rewrite process_workers. rewrite <- (Hm w). by destruct i.
Qed.

(** The registry the workers hold is current: an event either broadcasts the
    registry of the new state or changes no worker's entry in it. *)
Theorem registry_broadcast_current e c :
  let '(eff, c') := process e c in
  match worker_registry_broadcast eff with
  | Some r => r = build_worker_registry_command c'
  | None => ∀ w, to_peer_info <$> workers c' !! w = to_peer_info <$> workers c !! w
  end.
Proof.
  assert (Hq : ∀ w st st', workers c !! w = Some st → to_peer_info st' = to_peer_info st →
    ∀ w', to_peer_info <$> <[w := st']> (workers c) !! w' = to_peer_info <$> workers c !! w').
  { intros w st st' Hw He w'. destruct (decide (w = w')) as [<-|].
    - rewrite lookup_insert_eq, Hw. simpl. by rewrite He.
    - by rewrite lookup_insert_ne. }
  assert (Hu : ∀ w f, (∀ st, to_peer_info (f st) = to_peer_info st) →
    let '(eff, c') := update_worker w f c in match worker_registry_broadcast eff with
      | Some r => r = build_worker_registry_command c'
      | None => ∀ w, to_peer_info <$> workers c' !! w = to_peer_info <$> workers c !! w end).
  { intros w f Hf. unfold update_worker. destruct (workers c !! w) eqn:Ew; [|done]. simpl. by eapply Hq. }
  assert (Hs : ∀ w ns f, let '(eff, c') := update_segments w ns f c in
    match worker_registry_broadcast eff with
      | Some r => r = build_worker_registry_command c'
      | None => ∀ w, to_peer_info <$> workers c' !! w = to_peer_info <$> workers c !! w end).
  { intros w ns f. unfold update_segments. destruct (workers c !! w); [|done].
    destruct (namespace_segments c !! ns); [|done]. by case_decide. }
  assert (Hr : ∀ st, to_peer_info (recompute_pressure_from_psi st) = to_peer_info st).
  { intros st. unfold recompute_pressure_from_psi. by destruct (psi st). }
  destruct e as [w cpu mem io|w ps|w k a m|w caps tn wg pr|w|w ns|w ns|ns seg|ns|w d]; simpl; try done;
    lazymatch goal with
    | |- context [update_worker] => apply Hu; intros; try rewrite Hr; done
    | |- context [update_segments] => apply Hs
    | _ => idtac
    end.
  destruct (workers c !! w) as [st|] eqn:Ew; [|done]. simpl. by eapply Hq.
Qed.

End Process.

(** ** Concrete workers *)
Definition demo_caps : WorkerCapabilities :=
  {| has_kvm := true; has_containerd := true; available_adapters := []; max_pods := 8;
     available_memory_mb := 1024; public_endpoint := "h"; pools := [] |}.
(** 90.0 as a binary64 number *)
Definition psi_of (m : positive) (e : Z) : PsiMetrics :=
  {| some_avg10 := S754_finite false m e; some_avg60 := S754_zero false;
     full_avg10 := S754_zero false; full_avg60 := S754_zero false |}.
Definition demo_events : list orch_input :=
  [FromWorker (Connected 3 demo_caps (Some {| ti_listen_port := 51820; ti_public_key := [1] |}) None 3);
   FromNamespace (Scheduler.RequestLease Scheduler.demo_ns 1 None);
   FromWorker (PodCountChange 3 1);
   FromWorker (PressureUpdate 3 (psi_of 6333186975989760 (-46)) (psi_of 1 0) (psi_of 1 0))].

Lemma scheduler_mirrors_workers_witness :
  Scheduler.workers (foldl orch_step (new, Scheduler.new) demo_events).2 !! 3 =
  Some {| Scheduler.worker_id := 3; Scheduler.max_pressure_band := High;
          Scheduler.pod_count := 1; Scheduler.draining := false; Scheduler.active := true |}.
Proof.
  pose proof (scheduler_mirrors_workers demo_events ltac:(repeat constructor)) as H.
  destruct (foldl orch_step (new, Scheduler.new) demo_events) as [c s] eqn:E.
  simpl. rewrite H.
  assert (Ec : c = (foldl orch_step (new, Scheduler.new) demo_events).1) by by rewrite E.
  rewrite Ec. by vm_compute.
Defined.

End WorkerState.
