(* ===== verification/CoreTypes.v ===== *)
(** * Messages of the orchestrator core
      ([crates/orchestrator/src/core/mod.rs], [core/types.rs], [core/worker_event.rs],
       [id_registry.rs])

    What the orchestrator core, the namespaces and the shell exchange, the registry
    that resolves router ids to names, and the classification of the events a worker
    reports: into a namespace event, which goes to the namespace it names under the id
    of the reporting worker, a worker-state event or an artifact placement. *)

From S2P Require Import Prelude SmTypes IpAlloc Pressure Protocol Scheduler WorkerState.

(** ** Messages *)
Inductive EndpointDemandSignal := DemandTraffic | DemandActive (active : bool).

Module NsEvent.
Inductive WorkerNamespaceEventKind :=
  | PodRunning (pod_id : PodId)
  | PodExited (pod_id : PodId) (exit_code : Z)
  | PodFailed (pod_id : PodId) (error : string)
  | PodSuspended (pod_id : PodId) (artifact_id : ArtifactId)
  | PodSuspendFailed (pod_id : PodId)
  | EndpointDemand (ip : Ipv4Addr) (service_id : option ServiceId) (signal : EndpointDemandSignal)
  | PodMemoryConstrained (pod_id : PodId) (reason : MemoryConstraintReason)
  | PodMemoryConstraintCleared (pod_id : PodId)
  | PodOomKill (pod_id : PodId) (count : Z)
  | NamespaceCreated
  | NamespaceFailed (error : string).
End NsEvent.
Abbreviation WorkerNamespaceEventKind := NsEvent.WorkerNamespaceEventKind.

Record WorkerNamespaceEvent := {
  wne_worker_id : GlobalWorkerId; wne_event : WorkerNamespaceEventKind }.

Inductive ClientCommand :=
  | AdminRestart (workload_name : string)
  | ScavengeWorkload (workload_name : string)
  | ActivateService (service_name : string) (active : bool)
  | Connect (client_public_key : list Z) (worker_id : WorkerId)
  | Disconnect (client_public_key : list Z).

Inductive ClientError :=
  | NamespaceNotFound | NamespaceAlreadyExists | NoTunnelWorker | IpExhausted
  | WorkerNotFound | IpAllocationFailed (e : Ip.IpAllocError) | ShellGone.

Inductive SchedulerMessage :=
  | MsgRequestLease (namespace_id : NamespaceId) (pod_id : PodId) (resume : option ArtifactId)
  | MsgDropRequest (namespace_id : NamespaceId) (pod_id : PodId)
  | MsgArtifactReferenced (namespace_id : NamespaceId) (artifact_id : ArtifactId)
  | MsgArtifactReleased (namespace_id : NamespaceId) (artifact_id : ArtifactId).
Inductive NamespaceToOrchestrator := ToScheduler (msg : SchedulerMessage).

Module ToNs.
Inductive OrchestratorToNamespace :=
  | WorkerConnected (worker_id : GlobalWorkerId) (proto_worker_id : WorkerId) (info : WorkerInfo)
  | WorkerDisconnected (worker_id : GlobalWorkerId)
  | SchedulerDecision (decision : Scheduler.SchedulerDecision)
  | ArtifactInvalidated (artifact_port_id : ArtifactPortId)
  | WorkerEvent (event : WorkerNamespaceEvent)
  | ClientCommand (command : ClientCommand).
End ToNs.
Abbreviation OrchestratorToNamespace := ToNs.OrchestratorToNamespace.

Record WorkerConnectedInfo := {
  wci_worker_id : GlobalWorkerId; wci_capabilities : WorkerCapabilities;
  wci_tunnel_info : option WorkerState.WorkerTunnelInfo;
  wci_wireguard_info : option WorkerState.WireguardAdapterInfo;
  wci_proto_worker_id : WorkerId }.
Record CreateNamespaceInfo := { cni_namespace_name : string; cni_network : NetworkConfig }.
Record DirectWorkerCommand := { dwc_worker_id : GlobalWorkerId; dwc_command : WorkerCommand }.
Record ConnectedWorkerSummary := {
  cws_worker_id : GlobalWorkerId; cws_proto_worker_id : WorkerId; cws_max_pods : Z;
  cws_default_pool : option PoolId }.

Record OrchestratorOutput := {
  to_namespaces : list (NamespaceId * OrchestratorToNamespace);
  worker_commands : list (GlobalWorkerId * WorkerCommand);
  direct_worker_commands : list DirectWorkerCommand;
  global_broadcasts : list WorkerCommand }.
Definition output_default : OrchestratorOutput :=
  {| to_namespaces := []; worker_commands := []; direct_worker_commands := [];
     global_broadcasts := [] |}.
Definition output_merge (a b : OrchestratorOutput) : OrchestratorOutput :=
  {| to_namespaces := to_namespaces a ++ to_namespaces b;
     worker_commands := worker_commands a ++ worker_commands b;
     direct_worker_commands := direct_worker_commands a ++ direct_worker_commands b;
     global_broadcasts := global_broadcasts a ++ global_broadcasts b |}.

Inductive OrchestratorInputNew :=
  | WorkerStateEvent (event : WorkerState.WorkerStateCoreEvent)
  | SchedulerEvent (input : Scheduler.SchedulerCoreInput)
  | FromNamespace (namespace_id : NamespaceId) (message : NamespaceToOrchestrator).

Record TimerConfig := {
  tc_retry_backoff : Duration; tc_launch_timeout : Duration;
  tc_suspend_timeout : Duration; tc_idle_timeout : Duration }.

(** ** Names of router ids *)
Module IdRegistry.

Inductive EndpointOwner := OwnerService (id : ServiceId) | OwnerWorkload (id : WorkloadId).
Record Inner := {
  workload_names : gmap Z string;
  service_names : gmap Z string;
  owners : gmap Z EndpointOwner;
  pod_to_workload : gmap Z WorkloadId;
}.
Definition new : Inner :=
  {| workload_names := ∅; service_names := ∅; owners := ∅; pod_to_workload := ∅ |}.

Definition register_workload (id : WorkloadId) (name : string) (r : Inner) : Inner :=
  {| r with workload_names := <[id := name]> (workload_names r) |}.
Definition owned_by_workload (id : WorkloadId) (o : EndpointOwner) : bool :=
  match o with OwnerWorkload w => bool_decide (w = id) | _ => false end.
Definition owned_by_service (id : ServiceId) (o : EndpointOwner) : bool :=
  match o with OwnerService s => bool_decide (s = id) | _ => false end.
Definition unregister_workload (id : WorkloadId) (r : Inner) : Inner :=
  {| r with workload_names := delete id (workload_names r);
            pod_to_workload := filter (λ e, e.2 ≠ id) (pod_to_workload r);
            owners := filter (λ e, owned_by_workload id e.2 = false) (owners r) |}.
Definition register_service (id : ServiceId) (name : string) (r : Inner) : Inner :=
  {| r with service_names := <[id := name]> (service_names r) |}.
Definition unregister_service (id : ServiceId) (r : Inner) : Inner :=
  {| r with service_names := delete id (service_names r);
            owners := filter (λ e, owned_by_service id e.2 = false) (owners r) |}.
Definition register_service_endpoint (e : EndpointId) (s : ServiceId) (r : Inner) : Inner :=
  {| r with owners := <[e := OwnerService s]> (owners r) |}.
Definition register_workload_endpoint (e : EndpointId) (w : WorkloadId) (r : Inner) : Inner :=
  {| r with owners := <[e := OwnerWorkload w]> (owners r) |}.
Definition register_pod (p : PodId) (w : WorkloadId) (r : Inner) : Inner :=
  {| r with pod_to_workload := <[p := w]> (pod_to_workload r) |}.
Definition unregister_pod (p : PodId) (r : Inner) : Inner :=
  {| r with pod_to_workload := delete p (pod_to_workload r) |}.
Definition unregister_endpoint (e : EndpointId) (r : Inner) : Inner :=
  {| r with owners := delete e (owners r) |}.

Definition workload_name (r : Inner) (id : WorkloadId) : option string := workload_names r !! id.
Definition service_name (r : Inner) (id : ServiceId) : option string := service_names r !! id.
Definition endpoint_owner (r : Inner) (e : EndpointId) : option EndpointOwner := owners r !! e.
Definition endpoint_service_id (r : Inner) (e : EndpointId) : option ServiceId :=
  match owners r !! e with Some (OwnerService s) => Some s | _ => None end.
Definition endpoint_service_name (r : Inner) (e : EndpointId) : option string :=
  match owners r !! e with Some (OwnerService s) => service_names r !! s | _ => None end.
Definition endpoint_workload_name (r : Inner) (e : EndpointId) : option string :=
  match owners r !! e with Some (OwnerWorkload w) => workload_names r !! w | _ => None end.
Definition pod_workload_id (r : Inner) (p : PodId) : option WorkloadId := pod_to_workload r !! p.
Definition pod_workload_name (r : Inner) (p : PodId) : option string :=
  pod_to_workload r !! p ≫= λ w, workload_names r !! w.

(** The registries of all namespaces.  A registry is a shared handle; the map hands
    out the same handle for a namespace every time, so the namespace itself names
    the shared object. *)
Definition IdRegistryMap : Type := gmap NamespaceId Inner.
Definition get_or_create (m : IdRegistryMap) (ns : NamespaceId) : Inner * IdRegistryMap :=
  match m !! ns with
  | Some r => (r, m)
  | None => (new, <[ns := new]> m)
  end.

Definition get (m : IdRegistryMap) (ns : NamespaceId) : option Inner := m !! ns.
Definition remove (m : IdRegistryMap) (ns : NamespaceId) : IdRegistryMap := delete ns m.

(** No pod or endpoint of the registry belongs to a workload that was unregistered. *)
Lemma unregister_workload_forgets w r p e :
  pod_workload_id (unregister_workload w r) p ≠ Some w ∧
  endpoint_owner (unregister_workload w r) e ≠ Some (OwnerWorkload w).
Proof.
  unfold pod_workload_id, endpoint_owner, unregister_workload. simpl. split.
  - intros [_ Hne]%map_lookup_filter_Some. done.
  - intros [_ Hf]%map_lookup_filter_Some. simpl in Hf.
    rewrite bool_decide_eq_false in Hf. done.
Qed.

End IdRegistry.

Record NamespaceCreationInfo := {
  nci_namespace_id : NamespaceId; nci_network : NetworkConfig;
  nci_id_registry : IdRegistry.Inner; nci_timer_config : TimerConfig;
  nci_connected_workers : list ConnectedWorkerSummary }.

(** ** Classifying worker events *)
Module Classify.
Inductive ClassifiedWorkerEvent :=
  | Namespace (namespace_id : NamespaceId) (event : OrchestratorToNamespace)
  | WorkerState (event : WorkerState.WorkerStateCoreEvent)
  | Scheduler (input : Scheduler.SchedulerCoreInput)
  | Ignored.

Definition ns_event (ns : NamespaceId) (w : GlobalWorkerId) (kind : WorkerNamespaceEventKind) :
    ClassifiedWorkerEvent :=
  Namespace ns (ToNs.WorkerEvent {| wne_worker_id := w; wne_event := kind |}).
Definition artifact_event (w : GlobalWorkerId) (e : Placement.ArtifactPlacementEvent) :
    ClassifiedWorkerEvent :=
  Scheduler (Scheduler.ArtifactEvent w e).

Definition classify (w : GlobalWorkerId) (event : WorkerEvent) : ClassifiedWorkerEvent :=
  match event with
  | Event.PodRunning ns pod => ns_event ns w (NsEvent.PodRunning pod)
  | Event.PodExited ns pod code => ns_event ns w (NsEvent.PodExited pod code)
  | Event.PodFailed ns pod error => ns_event ns w (NsEvent.PodFailed pod error)
  | Event.PodSuspended ns pod art _ _ => ns_event ns w (NsEvent.PodSuspended pod art)
  | Event.PodSuspendFailed ns pod _ => ns_event ns w (NsEvent.PodSuspendFailed pod)
  | Event.NamespaceCreated ns => ns_event ns w NsEvent.NamespaceCreated
  | Event.NamespaceFailed ns error => ns_event ns w (NsEvent.NamespaceFailed error)
  | Event.NamespaceDestroyed _ => Ignored
  | Event.EndpointDemandTraffic ns ip svc =>
      ns_event ns w (NsEvent.EndpointDemand ip svc DemandTraffic)
  | Event.EndpointDemandActive ns ip svc active =>
      ns_event ns w (NsEvent.EndpointDemand ip svc (DemandActive active))
  | Event.ArtifactWriteStarted _ art pool => artifact_event w (Placement.WriteStarted art pool)
  | Event.ArtifactWriteCommitted _ art pool size =>
      artifact_event w (Placement.WriteCommitted art pool size)
  | Event.ArtifactTransferReceived _ _ _ art pool size =>
      artifact_event w (Placement.TransferReceived art pool size)
  | Event.TransferFailed _ art _ _ _ _ => artifact_event w (Placement.TransferFailed art)
  | Event.PressureUpdate cpu memory io => WorkerState (WorkerState.PressureUpdate w cpu memory io)
  | Event.PoolCapacityUpdate pools => WorkerState (WorkerState.PoolCapacityUpdate w pools)
  | Event.WorkerCondition key active message =>
      WorkerState (WorkerState.ConditionUpdate w key active message)
  | Event.PodMemoryConstrained ns pod reason =>
      ns_event ns w (NsEvent.PodMemoryConstrained pod reason)
  | Event.PodMemoryConstraintCleared ns pod =>
      ns_event ns w (NsEvent.PodMemoryConstraintCleared pod)
  | Event.PodOomKill ns pod count => ns_event ns w (NsEvent.PodOomKill pod count)
  | Event.ShuttingDown | Event.TunnelStatus _ _ | Event.PodLogStreamError _ _ _ _ _ => Ignored
  end.
End Classify.
