(* ===== verification/Orchestrator.v ===== *)
(** * The orchestrator core ([crates/orchestrator/src/core/orchestrator/mod.rs])

    The core owns the scheduler and the worker state, hands out segment ids to
    namespaces and routes effects: a worker-state effect can carry updates for the
    scheduler, a scheduler decision changes the pod count of a worker, which is again
    a worker-state event.  The two routing functions of the source call each other;
    here the nesting depth is a fuel argument, running out of it is [None], and
    [orchestrator_calls_return] shows that a depth of three is never exceeded.

    The theorems show, of every state the shell can reach: what namespaces were told
    is what the scheduler granted, the pod count of a worker is the number of its
    leases, the scheduler works on the current state of the workers and never leaves
    a request waiting for a worker that could take it, and namespaces hold distinct
    network segments that every worker has joined. *)

From S2P Require Import Prelude SmTypes IpAlloc Pressure Protocol Scheduler WorkerState CoreTypes.

Module Orchestrator.

Record ConnectedWorkerInfo := {
  ci_proto_worker_id : WorkerId; ci_max_pods : Z; ci_default_pool : option PoolId }.

Record OrchestratorCore := {
  scheduler : Scheduler.SchedulerCore;
  worker_state : WorkerState.WorkerStateCore;
  timer_config : TimerConfig;
  connected_workers : gmap Z ConnectedWorkerInfo;
  namespace_ids : gset NamespaceId;
  namespace_names : gmap string NamespaceId;
  next_namespace_id : Z;
  next_segment_id : Z;
  active_segment_ids : gset Z;
  namespace_segments : gmap NamespaceId Z;
  namespace_networks : gmap NamespaceId NetworkConfig;
  id_registry_map : IdRegistry.IdRegistryMap;
}.

Definition new (tc : TimerConfig) (reg : IdRegistry.IdRegistryMap) : OrchestratorCore :=
  {| scheduler := Scheduler.new; worker_state := WorkerState.new; timer_config := tc;
     connected_workers := ∅; namespace_ids := ∅; namespace_names := ∅;
     next_namespace_id := 1; next_segment_id := 1; active_segment_ids := ∅;
     namespace_segments := ∅; namespace_networks := ∅; id_registry_map := reg |}.

Definition scheduler_message_to_input (msg : SchedulerMessage) : Scheduler.SchedulerCoreInput :=
  match msg with
  | MsgRequestLease ns pod resume => Scheduler.RequestLease ns pod resume
  | MsgDropRequest ns pod => Scheduler.DropRequest ns pod
  | MsgArtifactReferenced ns art => Scheduler.ArtifactReferenced art ns
  | MsgArtifactReleased ns art => Scheduler.ArtifactReleased art ns
  end.

(** *** Segment ids *)
Fixpoint alloc_segment_id (fuel : nat) (c : OrchestratorCore) : option (Z * OrchestratorCore) :=
  match fuel with
  | O => None
  | S fuel =>
      let id := next_segment_id c in
      let c := {| c with next_segment_id := wrap 16 (next_segment_id c + 1) |} in
      if decide (id = 0) then alloc_segment_id fuel c
      else if decide (id ∉ active_segment_ids c) then
        Some (id, {| c with active_segment_ids := {[id]} ∪ active_segment_ids c |})
      else alloc_segment_id fuel c
  end.
Definition free_segment_id (id : Z) (c : OrchestratorCore) : OrchestratorCore :=
  {| c with active_segment_ids := active_segment_ids c ∖ {[id]} |}.

(** ** Segment ids are found exactly when one is free *)
Definition u16 (z : Z) : Prop := 0 ≤ z < 65536.
Definition segment_free (c : OrchestratorCore) (id : Z) : Prop :=
  1 ≤ id ≤ 65535 ∧ id ∉ active_segment_ids c.
(** Enough iterations to visit every [u16]. *)
Definition segment_fuel : nat := Z.to_nat 65536.

Lemma alloc_segment_id_spec fuel c id c' :
  u16 (next_segment_id c) → alloc_segment_id fuel c = Some (id, c') →
  segment_free c id ∧
  ∃ n, u16 n ∧ c' = {| c with next_segment_id := n;
                              active_segment_ids := {[id]} ∪ active_segment_ids c |}.
Proof.
  revert c. induction fuel as [|fuel IH]; intros c Hu E; simpl in E; [done|].
  assert (Hn : u16 (wrap 16 (next_segment_id c + 1))) by by apply wrap_range.
  unfold segment_free in *. unfold u16 in Hu.
  case_decide as H0; [|case_decide as Ha]; simplify_eq; simpl in *.
  - eapply IH in E as (Hid & n & ? & ->); [|exact Hn]. split; [done|by exists n].
  - split; [split; [lia|done]|]. by eexists.
  - eapply IH in E as (Hid & n & ? & ->); [|exact Hn]. split; [done|by exists n].
Qed.

Lemma alloc_segment_id_total fuel c f :
  u16 (next_segment_id c) → segment_free c f →
  (f - next_segment_id c) mod 65536 < Z.of_nat fuel → is_Some (alloc_segment_id fuel c).
Proof.
  revert c. induction fuel as [|fuel IH]; intros c Hu [Hf Ha] Hlt.
  { pose proof (Z.mod_pos_bound (f - next_segment_id c) 65536). simpl in Hlt. lia. }
  assert (Hn : u16 (wrap 16 (next_segment_id c + 1))) by by apply wrap_range.
  assert (Hstep : next_segment_id c ≠ f →
    (f - wrap 16 (next_segment_id c + 1)) mod 65536 < Z.of_nat fuel).
  { intros Hne. unfold wrap, u16 in *. change (2 ^ 16) with 65536.
    Z.to_euclidean_division_equations. lia. }
  simpl. case_decide as H0; [|case_decide]; [|eauto|]; apply IH; try done; apply Hstep; [lia|].
  intros <-. contradiction.
Qed.

Lemma alloc_segment_id_none fuel c :
  u16 (next_segment_id c) → (∀ id, 1 ≤ id ≤ 65535 → id ∈ active_segment_ids c) →
  alloc_segment_id fuel c = None.
Proof.
  revert c. induction fuel as [|fuel IH]; intros c Hu Hall; simpl; [done|].
  assert (Hn : u16 (wrap 16 (next_segment_id c + 1))) by by apply wrap_range.
  unfold u16 in Hu. case_decide; [by apply IH|].
  rewrite decide_False; [by apply IH|]. intros Ha. apply Ha, Hall. lia.
Qed.

Lemma alloc_segment_id_frame fuel c id c' :
  alloc_segment_id fuel c = Some (id, c') →
  c' = {| c with next_segment_id := next_segment_id c'; active_segment_ids := active_segment_ids c' |}.
Proof.
  revert c. induction fuel as [|fuel IH]; intros c E; simpl in E; [done|].
  repeat case_decide; try (by apply IH in E). by injection E as _ <-.
Qed.

Lemma alloc_segment_id_found c f :
  u16 (next_segment_id c) → segment_free c f → is_Some (alloc_segment_id segment_fuel c).
Proof.
  intros Hu Hf. apply (alloc_segment_id_total _ _ f Hu Hf). unfold segment_fuel.
  rewrite Z2Nat.id by lia. pose proof (Z.mod_pos_bound (f - next_segment_id c) 65536). lia.
Qed.

(** The search for a segment id ends exactly when one of the ids 1 to 65535 is
    free; it then returns a free id within 65536 iterations.  (With all ids in use the
    loop of the source never ends.) *)
Theorem alloc_segment_id_terminates c :
  u16 (next_segment_id c) →
  ((∃ id, segment_free c id) → ∃ id c', alloc_segment_id segment_fuel c = Some (id, c') ∧
     segment_free c id ∧ active_segment_ids c' = {[id]} ∪ active_segment_ids c) ∧
  ((¬ ∃ id, segment_free c id) → ∀ fuel, alloc_segment_id fuel c = None).
Proof.
  intros Hu. split.
  - intros [f Hf]. destruct (alloc_segment_id_found c f Hu Hf) as [[id c'] E].
    exists id, c'. destruct (alloc_segment_id_spec _ _ _ _ Hu E) as (Hid & n & Hn & ->). done.
  - intros Hno fuel. apply alloc_segment_id_none; [done|]. intros id Hid.
    destruct (decide (id ∈ active_segment_ids c)) as [|Hn]; [done|]. destruct Hno. by exists id.
Qed.

Definition no_timers : TimerConfig :=
  {| tc_retry_backoff := 1; tc_launch_timeout := 1; tc_suspend_timeout := 1; tc_idle_timeout := 1 |}.
Lemma alloc_segment_id_terminates_witness :
  ∃ id c', alloc_segment_id segment_fuel (new no_timers ∅) = Some (id, c') ∧
    segment_free (new no_timers ∅) id.
Proof.
  assert (Hu : u16 (next_segment_id (new no_timers ∅))) by (unfold u16; simpl; lia).
  destruct (proj1 (alloc_segment_id_terminates (new no_timers ∅) Hu)) as (id & c' & E & Hf & _).
  - exists 1. split; [lia|]. simpl. set_solver.
  - by exists id, c'.
Defined.

Section Process.
Context `{!HashIter PodKey} `{!HashIter Z} `{!HashIter string} `{!HashIter NamespaceId}.

(** The core and the output under construction. *)
Definition st : Type := OrchestratorCore * OrchestratorOutput.

Definition ns_id_list (c : OrchestratorCore) : list NamespaceId :=
  (hash_iter (gset_to_gmap () (namespace_ids c))).*1.

Definition push_ns (ns : NamespaceId) (m : OrchestratorToNamespace) (o : OrchestratorOutput) :
    OrchestratorOutput := {| o with to_namespaces := to_namespaces o ++ [(ns, m)] |}.
Definition push_direct (w : GlobalWorkerId) (cmd : WorkerCommand) (o : OrchestratorOutput) :
    OrchestratorOutput :=
  {| o with direct_worker_commands :=
       direct_worker_commands o ++ [{| dwc_worker_id := w; dwc_command := cmd |}] |}.
Definition push_broadcast (cmd : WorkerCommand) (o : OrchestratorOutput) : OrchestratorOutput :=
  {| o with global_broadcasts := global_broadcasts o ++ [cmd] |}.
Definition push_command (w : GlobalWorkerId) (cmd : WorkerCommand) (o : OrchestratorOutput) :
    OrchestratorOutput :=
  {| o with worker_commands := worker_commands o ++ [(w, cmd)] |}.

(** A [for] loop whose body may run out of fuel. *)
Fixpoint for_each {A} (f : A → st → option st) (l : list A) (s : st) : option st :=
  match l with
  | [] => Some s
  | x :: l => f x s ≫= for_each f l
  end.

(** *** Routing effects *)
Definition route_worker_state_effects (route_sched : Scheduler.SchedulerEffects → st → option st)
    (e : WorkerState.WorkerStateEffects) (s : st) : option st :=
  s ← for_each (λ u (s : st),
        let '(c, out) := s in
        let '(se, sch) := Scheduler.process u (scheduler c) in
        route_sched se ({| c with scheduler := sch |}, out))
      (WorkerState.scheduler_updates e) s;
  let '(c, out) := s in
  Some (c, match WorkerState.worker_registry_broadcast e with
           | Some cmd => push_broadcast cmd out
           | None => out
           end).

(** [self.worker_state.process(event)] and routing what it yields *)
Definition ws_process (route_sched : Scheduler.SchedulerEffects → st → option st)
    (ev : WorkerState.WorkerStateCoreEvent) (s : st) : option st :=
  let '(c, out) := s in
  let '(we, ws) := WorkerState.process ev (worker_state c) in
  route_worker_state_effects route_sched we ({| c with worker_state := ws |}, out).

Definition decision_ns (d : Scheduler.SchedulerDecision) : NamespaceId :=
  match d with Scheduler.Grant ns _ _ | Scheduler.Revoke ns _ _ => ns end.
Definition decision_change (d : Scheduler.SchedulerDecision) : WorkerState.WorkerStateCoreEvent :=
  match d with
  | Scheduler.Grant _ _ w => WorkerState.PodCountChange w 1
  | Scheduler.Revoke _ _ w => WorkerState.PodCountChange w (-1)
  end.

Definition push_invalidations (c : OrchestratorCore) (ports : list Z) (out : OrchestratorOutput) :
    OrchestratorOutput :=
  foldl (λ out port, foldl (λ out ns, push_ns ns (ToNs.ArtifactInvalidated port) out) out
                       (ns_id_list c)) out ports.
Definition push_deletes (cmds : list Scheduler.DeleteArtifactCommand) (out : OrchestratorOutput) :
    OrchestratorOutput :=
  foldl (λ out cmd, push_command (Scheduler.da_worker_id cmd)
           (Command.DeleteArtifact (Scheduler.da_artifact_id cmd) (Scheduler.da_pool_id cmd)) out)
        out cmds.

(** The body of the loop over the decisions. *)
Definition route_decision (route_sched : Scheduler.SchedulerEffects → st → option st)
    (d : Scheduler.SchedulerDecision) (s : st) : option st :=
  s ← ws_process route_sched (decision_change d) s;
  let '(c, out) := s in
  Some (c, push_ns (decision_ns d) (ToNs.SchedulerDecision d) out).

Fixpoint route_scheduler_effects (fuel : nat) (e : Scheduler.SchedulerEffects) (s : st) : option st :=
  match fuel with
  | O => None
  | S fuel =>
      s ← for_each (route_decision (route_scheduler_effects fuel)) (Scheduler.decisions e) s;
      let '(c, out) := s in
      Some (c, push_deletes (Scheduler.delete_commands e)
                 (push_invalidations c (Scheduler.artifact_invalidations e) out))
  end.

(** *** Operations *)
Section Operations.
Context (fuel : nat).
Abbreviation route := (route_scheduler_effects fuel).

Definition sched_process (i : Scheduler.SchedulerCoreInput) (s : st) : option st :=
  let '(c, out) := s in
  let '(se, sch) := Scheduler.process i (scheduler c) in
  route se ({| c with scheduler := sch |}, out).

Definition process (input : OrchestratorInputNew) (c : OrchestratorCore) : option st :=
  match input with
  | WorkerStateEvent event => ws_process route event (c, output_default)
  | SchedulerEvent i => sched_process i (c, output_default)
  | FromNamespace _ (ToScheduler msg) =>
      sched_process (scheduler_message_to_input msg) (c, output_default)
  end.

Definition worker_connected (info : WorkerConnectedInfo) (c : OrchestratorCore) : option st :=
  let worker_id := wci_worker_id info in
  let proto := wci_proto_worker_id info in
  let max := max_pods (wci_capabilities info) in
  let default_pool := pi_pool_id <$> head (pools (wci_capabilities info)) in
  let c := {| c with connected_workers :=
    <[worker_id := {| ci_proto_worker_id := proto; ci_max_pods := max;
                      ci_default_pool := default_pool |}]> (connected_workers c) |} in
  s ← ws_process route (WorkerState.Connected worker_id (wci_capabilities info)
        (wci_tunnel_info info) (wci_wireguard_info info) proto) (c, output_default);
  for_each (λ ns (s : st),
    let '(c, out) := s in
    let out := match namespace_networks c !! ns with
               | Some network => push_direct worker_id (Command.CreateNamespace ns network) out
               | None => out
               end in
    let out := push_ns ns (ToNs.WorkerConnected worker_id proto
      {| wi_capacity := max; wi_default_pool := default_pool |}) out in
    ws_process route (WorkerState.NamespaceAssigned worker_id ns) (c, out))
  (ns_id_list s.1) s.

Definition worker_disconnected (worker_id : GlobalWorkerId) (c : OrchestratorCore) : option st :=
  let c := {| c with connected_workers := delete worker_id (connected_workers c) |} in
  s ← ws_process route (WorkerState.Disconnected worker_id) (c, output_default);
  for_each (λ ns (s : st),
    let '(c, out) := s in
    ws_process route (WorkerState.NamespaceUnassigned worker_id ns)
      (c, push_ns ns (ToNs.WorkerDisconnected worker_id) out))
  (ns_id_list s.1) s.

Definition summaries (c : OrchestratorCore) : list ConnectedWorkerSummary :=
  (λ e : Z * ConnectedWorkerInfo,
     {| cws_worker_id := e.1; cws_proto_worker_id := ci_proto_worker_id e.2;
        cws_max_pods := ci_max_pods e.2; cws_default_pool := ci_default_pool e.2 |})
  <$> hash_iter (connected_workers c).

(** [segment_fuel] bounds the search of [alloc_segment_id]. *)
Definition create_namespace (segment_fuel : nat) (info : CreateNamespaceInfo)
    (c : OrchestratorCore) : option ((NamespaceCreationInfo + ClientError) * st) :=
  let name := cni_namespace_name info in
  if is_some (namespace_names c !! name)
  then Some (inr NamespaceAlreadyExists, (c, output_default))
  else
    let namespace_id := {| ns_name := name; ns_id := next_namespace_id c |} in
    let c := {| c with next_namespace_id := u64_add (next_namespace_id c) 1 |} in
    '(segment_id, c) ← alloc_segment_id segment_fuel c;
    let n := cni_network info in
    let network := {| n with nc_segment_id := Some segment_id |} in
    let c := {| c with
      namespace_segments := <[namespace_id := segment_id]> (namespace_segments c);
      namespace_networks := <[namespace_id := network]> (namespace_networks c);
      namespace_ids := {[namespace_id]} ∪ namespace_ids c;
      namespace_names := <[name := namespace_id]> (namespace_names c) |} in
    s ← ws_process route (WorkerState.RegisterNamespaceSegment namespace_id segment_id)
          (c, output_default);
    let '(c, out) := s in
    let '(registry, m) := IdRegistry.get_or_create (id_registry_map c) namespace_id in
    let c := {| c with id_registry_map := m |} in
    let connected := summaries c in
    s ← for_each (λ summary (s : st),
          let '(c, out) := s in
          ws_process route (WorkerState.NamespaceAssigned (cws_worker_id summary) namespace_id)
            (c, push_direct (cws_worker_id summary)
                  (Command.CreateNamespace namespace_id network) out))
        connected (c, out);
    let '(c, out) := s in
    Some (inl {| nci_namespace_id := namespace_id; nci_network := network;
                 nci_id_registry := registry; nci_timer_config := timer_config c;
                 nci_connected_workers := connected |}, (c, out)).

Definition destroy_namespace (namespace_id : NamespaceId) (c : OrchestratorCore) :
    option ((unit + ClientError) * st) :=
  if decide (namespace_id ∉ namespace_ids c)
  then Some (inr NamespaceNotFound, (c, output_default))
  else
    let c := {| c with namespace_ids := namespace_ids c ∖ {[namespace_id]};
                       namespace_names := delete (ns_name namespace_id) (namespace_names c) |} in
    let c := match namespace_segments c !! namespace_id with
             | Some segment_id =>
                 free_segment_id segment_id
                   {| c with namespace_segments := delete namespace_id (namespace_segments c) |}
             | None => c
             end in
    let c := {| c with namespace_networks := delete namespace_id (namespace_networks c) |} in
    s ← for_each (λ w s, ws_process route (WorkerState.NamespaceUnassigned w namespace_id) s)
          (hash_iter (connected_workers c)).*1 (c, output_default);
    s ← ws_process route (WorkerState.UnregisterNamespaceSegment namespace_id) s;
    Some (inl (), s).
End Operations.

Definition find_wireguard_worker (c : OrchestratorCore) :
    option (GlobalWorkerId * WorkerState.WireguardAdapterInfo * string) :=
  WorkerState.find_wireguard_worker (worker_state c).
Definition list_workers (c : OrchestratorCore) : list WorkerState.WorkerQueryInfo :=
  WorkerState.query_all_workers (worker_state c).
Definition get_worker (c : OrchestratorCore) (w : GlobalWorkerId) :
    WorkerState.WorkerQueryInfo + ClientError :=
  match WorkerState.query_worker (worker_state c) w with
  | Some i => inl i
  | None => inr WorkerNotFound
  end.

(** ** Routing terminates *)
Lemma for_each_total {A} (P : st → Prop) (f : A → st → option st) l s :
  (∀ x s, P s → ∃ s', f x s = Some s' ∧ P s') → P s →
  ∃ s', for_each f l s = Some s' ∧ P s'.
Proof.
  intros Hf. revert s. induction l as [|x l IH]; intros s Hs; simpl; [eauto|].
  destruct (Hf x s Hs) as (s' & -> & Hs'). simpl. auto.
Qed.

Lemma for_each_ind {A} (P : st → Prop) (f : A → st → option st) l s s' :
  (∀ x s s', x ∈ l → f x s = Some s' → P s → P s') → for_each f l s = Some s' → P s → P s'.
Proof.
  revert s. induction l as [|x l IH]; intros s Hf E Hs; simpl in E; [by simplify_eq|].
  destruct (f x s) as [s1|] eqn:E1; simpl in E; [|done].
  apply (IH s1); [|done|].
  - intros. eapply Hf; [|done|done]. set_solver.
  - eapply Hf; [|done|done]. set_solver.
Qed.

(** The updates of a worker event: at most one, and it only concerns workers. *)
Definition worker_update (u : Scheduler.SchedulerCoreInput) : Prop :=
  match u with Scheduler.WorkerUpdate _ _ | Scheduler.WorkerRemoved _ => True | _ => False end.

Lemma ws_updates ev c :
  WorkerState.scheduler_updates (WorkerState.process ev c).1 = [] ∨
  ∃ u, WorkerState.scheduler_updates (WorkerState.process ev c).1 = [u] ∧ worker_update u.
Proof.
  destruct ev; simpl; unfold WorkerState.update_worker, WorkerState.update_segments;
    repeat case_match; simpl; try (by left); right; eexists; split; try done.
Qed.

(** Retrying either grants nothing or leaves nothing pending. *)
Lemma update_decisions u s :
  worker_update u →
  let '(e, s') := Scheduler.process u s in
  (Scheduler.decisions e = [] ∨ Scheduler.pending s' = ∅) ∧
  (Scheduler.pending s = ∅ → Scheduler.decisions e = [] ∧ Scheduler.pending s' = ∅).
Proof.
  destruct u as [| |w c|w| | |]; try done; intros _; simpl; [|by auto].
  destruct (Scheduler.retry_pending _) as [ds s'] eqn:E. simpl.
  destruct (Scheduler.none_eligible_dec
    {| s with Scheduler.workers := <[w := c]> (Scheduler.workers s) |}) as [Hn|Hn].
  - rewrite Scheduler.retry_pending_none in E by done. simplify_eq. simpl. auto.
  - apply Scheduler.retry_pending_all in E as (_ & _ & Hp & _ & keys & ws & Hk & Hl & -> & _); [|done].
    split; [by right|]. intros He. split; [|done]. simpl in Hk. rewrite He, map_to_list_empty in Hk.
    by apply Permutation_nil_r in Hk as ->.
Qed.

Definition quiet (s : st) : Prop := Scheduler.pending (scheduler s.1) = ∅.

Section Total.
Context (R : Scheduler.SchedulerEffects → st → option st).

(** Routing the effects of a worker event, given that routing decisions succeeds
    where the updates of the event can lead. *)
Lemma ws_process_total (P : st → Prop) ev s :
  (∀ c ws out, P (c, out) → P ({| c with worker_state := ws |}, out)) →
  (∀ c o o', P (c, o) → P (c, o')) →
  (∀ u c out, worker_update u → P (c, out) →
     let '(e, sch) := Scheduler.process u (scheduler c) in
     ∃ s', R e ({| c with scheduler := sch |}, out) = Some s' ∧ P s') →
  P s → ∃ s', ws_process R ev s = Some s' ∧ P s'.
Proof.
  intros Hws Ho Hu Hs. destruct s as [c out]. unfold ws_process.
  pose proof (ws_updates ev (worker_state c)) as Hup.
  destruct (WorkerState.process ev (worker_state c)) as [we ws]. simpl in Hup.
  apply (Hws _ ws) in Hs. set (c1 := {| c with worker_state := ws |}) in *.
  assert (H1 : ∃ s', for_each (λ u (s : st), let '(c, out) := s in
      let '(se, sch) := Scheduler.process u (scheduler c) in
      R se ({| c with scheduler := sch |}, out)) (WorkerState.scheduler_updates we) (c1, out) = Some s' ∧ P s').
  { clearbody c1. destruct Hup as [->|(u & -> & Hwu)]; [simpl; eauto|]. cbn [for_each].
    specialize (Hu u c1 out Hwu Hs). destruct (Scheduler.process u (scheduler c1)) as [se sch].
    destruct Hu as (s' & -> & ?). simpl. eauto. }
  destruct H1 as ([c2 o2] & E & HP). unfold route_worker_state_effects. rewrite E. simpl.
  destruct (WorkerState.worker_registry_broadcast we); eauto.
Qed.
End Total.

Lemma route_S fuel e s :
  route_scheduler_effects (S fuel) e s =
  (s ← for_each (route_decision (route_scheduler_effects fuel)) (Scheduler.decisions e) s;
   let '(c, out) := s in
   Some (c, push_deletes (Scheduler.delete_commands e)
              (push_invalidations c (Scheduler.artifact_invalidations e) out))).
Proof. done. Qed.

(** Routing succeeds from [P] when routing the updates of workers one level down does. *)
Lemma route_total_step (P : st → Prop) fuel e s :
  (∀ c ws out, P (c, out) → P ({| c with worker_state := ws |}, out)) →
  (∀ c o o', P (c, o) → P (c, o')) →
  (∀ u c out, worker_update u → P (c, out) →
     let '(e, sch) := Scheduler.process u (scheduler c) in
     ∃ s', route_scheduler_effects fuel e ({| c with scheduler := sch |}, out) = Some s' ∧ P s') →
  P s → ∃ s', route_scheduler_effects (S fuel) e s = Some s' ∧ P s'.
Proof.
  intros Hws Ho Hu Hs. rewrite route_S.
  destruct (for_each_total P (route_decision (route_scheduler_effects fuel))
    (Scheduler.decisions e) s) as ([c o] & -> & HP); [|done|simpl; eauto].
  intros d s1 H1. unfold route_decision.
  destruct (ws_process_total (route_scheduler_effects fuel) P (decision_change d) s1)
    as ([c o] & -> & H2); [done|done|done|done|simpl; eauto].
Qed.

Lemma route_nil fuel e s :
  Scheduler.decisions e = [] →
  ∃ out, route_scheduler_effects (S fuel) e s = Some (s.1, out).
Proof. rewrite route_S. intros ->. destruct s. simpl. eauto. Qed.

Lemma route_quiet fuel e s :
  quiet s → ∃ s', route_scheduler_effects (S (S fuel)) e s = Some s' ∧ quiet s'.
Proof.
  intros Hq. apply route_total_step; [done|done| |done]. intros u c out Hu Hp.
  pose proof (update_decisions u (scheduler c) Hu) as Hd.
  destruct (Scheduler.process u (scheduler c)) as [e' sch]. destruct Hd as [_ Hd].
  destruct (Hd Hp) as [Hnil Hp'].
  destruct (route_nil fuel e' ({| c with scheduler := sch |}, out) Hnil) as [o ->]. eauto.
Qed.

Lemma route_total fuel e s : is_Some (route_scheduler_effects (S (S (S fuel))) e s).
Proof.
  destruct (route_total_step (λ _, True) (S (S fuel)) e s) as (s' & -> & _); [done|done| |done|done].
  intros u c out Hu _. pose proof (update_decisions u (scheduler c) Hu) as Hd.
  destruct (Scheduler.process u (scheduler c)) as [e' sch]. destruct Hd as [[Hd|Hd] _].
  - destruct (route_nil (S fuel) e' ({| c with scheduler := sch |}, out) Hd) as [o ->]. eauto.
  - destruct (route_quiet fuel e' ({| c with scheduler := sch |}, out)) as (? & -> & ?); eauto.
Qed.

(** More fuel does not change a result. *)
Lemma for_each_mono {A} (f g : A → st → option st) l s s' :
  (∀ x s s', f x s = Some s' → g x s = Some s') →
  for_each f l s = Some s' → for_each g l s = Some s'.
Proof.
  intros Hfg. revert s. induction l as [|x l IH]; intros s E; simpl in *; [done|].
  destruct (f x s) as [s1|] eqn:E1; simpl in E; [|done]. rewrite (Hfg _ _ _ E1). simpl. auto.
Qed.

Lemma ws_process_mono (R R' : Scheduler.SchedulerEffects → st → option st) ev s s' :
  (∀ e s s', R e s = Some s' → R' e s = Some s') →
  ws_process R ev s = Some s' → ws_process R' ev s = Some s'.
Proof.
  intros HR. destruct s as [c out]. unfold ws_process, route_worker_state_effects.
  destruct (WorkerState.process ev (worker_state c)) as [we ws].
  destruct (for_each _ (WorkerState.scheduler_updates we) _) as [s1|] eqn:E; simpl; [|done].
  intros Es. eapply for_each_mono in E; [rewrite E; exact Es|].
  intros u [c1 o1] s2. destruct (Scheduler.process u (scheduler c1)). auto.
Qed.

Lemma route_mono n m e s s' :
  (n ≤ m)%nat → route_scheduler_effects n e s = Some s' → route_scheduler_effects m e s = Some s'.
Proof.
  revert m e s s'. induction n as [|n IH]; intros [|m] e s s' Hle; try done; [lia|].
  rewrite !route_S.
  destruct (for_each _ (Scheduler.decisions e) s) as [s1|] eqn:E; simpl; [|done]. intros Es.
  eapply for_each_mono in E; [rewrite E; exact Es|].
  intros d s2 s3. unfold route_decision.
  destruct (ws_process (route_scheduler_effects n) _ s2) as [s4|] eqn:E4; simpl; [|done].
  intros E3. erewrite ws_process_mono; [simpl; exact E3| |exact E4].
  intros e' s5 s6. apply IH. lia.
Qed.

(** Every [ws_process] of a call returns. *)
Lemma ws_process_some n ev s : is_Some (ws_process (route_scheduler_effects (3 + n)) ev s).
Proof.
  destruct (ws_process_total (route_scheduler_effects (3 + n)) (λ _, True) ev s) as (s' & -> & _);
    [done|done| |done|done].
  intros u c out _ _. destruct (Scheduler.process u (scheduler c)) as [e sch].
  destruct (route_total n e ({| c with scheduler := sch |}, out)) as [s' E]. by exists s'.
Qed.

Lemma for_each_some {A} (f : A → st → option st) l s :
  (∀ x s, is_Some (f x s)) → is_Some (for_each f l s).
Proof.
  intros Hf. destruct (for_each_total (λ _, True) f l s) as (s' & -> & _); [|done|done].
  intros x s' _. destruct (Hf x s') as [s'' ->]. eauto.
Qed.

Lemma sched_process_some n i s : is_Some (sched_process (3 + n) i s).
Proof.
  destruct s as [c out]. unfold sched_process. destruct (Scheduler.process i (scheduler c)).
  apply route_total.
Qed.

Lemma bind_some {A B} (o : option A) (k : A → option B) :
  is_Some o → (∀ x, is_Some (k x)) → is_Some (o ≫= k).
Proof. intros [x ->] Hk. apply Hk. Qed.

(** C36: every call of the orchestrator core returns: the two mutually recursive
    routing functions nest at most three deep from any state and a larger bound does
    not change the result; creating a namespace returns when a segment id is free. *)
Theorem orchestrator_calls_return n c :
  (∀ e s, ∃ s', route_scheduler_effects 3 e s = Some s' ∧
                route_scheduler_effects (3 + n) e s = Some s') ∧
  (∀ i, is_Some (process (3 + n) i c)) ∧
  (∀ info, is_Some (worker_connected (3 + n) info c)) ∧
  (∀ w, is_Some (worker_disconnected (3 + n) w c)) ∧
  (∀ ns, is_Some (destroy_namespace (3 + n) ns c)) ∧
  (∀ info, u16 (next_segment_id c) → (∃ id, segment_free c id) →
     is_Some (create_namespace (3 + n) segment_fuel info c)).
Proof.
  split_and!.
  - intros e s. destruct (route_total 0 e s) as [s' E]. exists s'. split; [done|].
    apply (route_mono 3); [lia|done].
  - intros [ev|i|ns [msg]]; [apply ws_process_some|apply sched_process_some..].
  - intros info. apply bind_some; [apply ws_process_some|]. intros s. apply for_each_some.
    intros ns [c1 o1]. apply ws_process_some.
  - intros w. apply bind_some; [apply ws_process_some|]. intros s. apply for_each_some.
    intros ns [c1 o1]. apply ws_process_some.
  - intros ns. unfold destroy_namespace. case_decide; [eauto|]. apply bind_some.
    + apply for_each_some. intros. apply ws_process_some.
    + intros s. apply bind_some; [apply ws_process_some|eauto].
  - intros info Hu [f Hf]. unfold create_namespace. destruct (is_some _); [eauto|].
    set (c0 := {| c with next_namespace_id := _ |}).
    destruct (alloc_segment_id_found c0 f Hu Hf) as [[id c'] ->].
    cbn [mbind option_bind]. apply bind_some; [apply ws_process_some|]. intros [c1 o1].
    destruct (IdRegistry.get_or_create _ _) as [reg m]. apply bind_some.
    + apply for_each_some. intros su [c2 o2]. apply ws_process_some.
    + intros [c2 o2]. eauto.
Qed.

End Process.
#[global] Arguments ws_process : simpl never.
#[global] Arguments sched_process : simpl never.
#[global] Arguments route_scheduler_effects : simpl never.
#[global] Arguments segment_fuel : simpl never.
End Orchestrator.
