(* ===== verification/OrchestratorInv.v ===== *)
(** * Invariants of the orchestrator core

    [shell_step] is one call of the shell on the core ([process], [worker_connected],
    [worker_disconnected], [create_namespace], [destroy_namespace]) under the
    conditions the shell and the namespaces guarantee; [reach] collects the decisions
    that were sent to namespaces along the way.  [route_inv] is the induction
    principle for the nested routing: an invariant speaks of the decisions still to be
    processed, of those processed but not yet sent, and of those sent. *)

From S2P Require Import Prelude SmTypes IpAlloc Pressure Protocol Scheduler WorkerState.
From S2P Require Import CoreTypes Orchestrator.

Module OrchestratorInv.
Import Orchestrator.
Abbreviation Decision := Scheduler.SchedulerDecision.

(** ** Decisions and the leases they add up to *)
Definition key (d : Decision) : PodKey :=
  match d with Scheduler.Grant ns p _ | Scheduler.Revoke ns p _ => (ns, p) end.
Definition outcome (d : Decision) : option Scheduler.GrantedEntry :=
  match d with
  | Scheduler.Grant _ _ w => Some {| Scheduler.granted_worker := w |}
  | Scheduler.Revoke _ _ _ => None
  end.
Definition net1 (w : Z) (d : Decision) : Z :=
  match d with
  | Scheduler.Grant _ _ w' => if decide (w' = w) then 1 else 0
  | Scheduler.Revoke _ _ w' => if decide (w' = w) then -1 else 0
  end.
Fixpoint net (w : Z) (ds : list Decision) : Z :=
  match ds with [] => 0 | d :: ds => net1 w d + net w ds end.
Fixpoint grants (w : Z) (ds : list Decision) : Z :=
  match ds with [] => 0 | d :: ds => Z.max 0 (net1 w d) + grants w ds end.
Fixpoint revokes (ds : list Decision) : Z :=
  match ds with
  | [] => 0
  | Scheduler.Revoke _ _ _ :: ds => 1 + revokes ds
  | _ :: ds => revokes ds
  end.

(** The number of leases a worker holds. *)
Definition leases (m : gmap PodKey Scheduler.GrantedEntry) (w : Z) : Z :=
  Z.of_nat (size (filter (λ e, Scheduler.granted_worker e.2 = w) m)).

Abbreviation replays := (foldl Scheduler.replay1).

Lemma net_app w l1 l2 : net w (l1 ++ l2) = net w l1 + net w l2.
Proof. induction l1; simpl; lia. Qed.
Lemma grants_app w l1 l2 : grants w (l1 ++ l2) = grants w l1 + grants w l2.
Proof. induction l1; simpl; lia. Qed.
Lemma revokes_app l1 l2 : revokes (l1 ++ l2) = revokes l1 + revokes l2.
Proof. induction l1 as [|[] l1 IH]; simpl; lia. Qed.
Lemma revokes_pos l : 0 ≤ revokes l.
Proof. induction l as [|[] l IH]; simpl; lia. Qed.
Lemma grants_pos w l : 0 ≤ grants w l.
Proof. induction l; simpl; lia. Qed.
Lemma net_bounds w l : grants w l - revokes l ≤ net w l ≤ grants w l.
Proof. induction l as [|[] l IH]; simpl; try case_decide; lia. Qed.
Lemma leases_pos m w : 0 ≤ leases m w.
Proof. unfold leases. lia. Qed.
Lemma leases_le m w : leases m w ≤ Z.of_nat (size m).
Proof.
  unfold leases. apply Nat2Z.inj_le.
  change (size (filter (λ e, Scheduler.granted_worker e.2 = w) m) ≤ size m)%nat.
  apply map_subseteq_size, map_filter_subseteq.
Qed.

Lemma leases_insert m k g w :
  m !! k = None →
  leases (<[k := g]> m) w = leases m w + if decide (Scheduler.granted_worker g = w) then 1 else 0.
Proof.
  intros Hk. unfold leases. rewrite map_filter_insert.
  case_decide as H1; simpl in H1; case_decide; try done.
  - rewrite map_size_insert_None; [lia|]. apply map_lookup_filter_None. auto.
  - rewrite delete_id by done. lia.
Qed.

Lemma leases_delete m k g w :
  m !! k = Some g →
  leases (delete k m) w = leases m w - if decide (Scheduler.granted_worker g = w) then 1 else 0.
Proof.
  intros Hk. rewrite <- (insert_delete_id m k g Hk) at 2.
  rewrite leases_insert by apply lookup_delete_eq. lia.
Qed.

(** A decision that takes effect: the pod had no lease, or had exactly that one. *)
Definition valid (m : gmap PodKey Scheduler.GrantedEntry) (d : Decision) : Prop :=
  match d with
  | Scheduler.Grant _ _ _ => m !! key d = None
  | Scheduler.Revoke _ _ w => m !! key d = Some {| Scheduler.granted_worker := w |}
  end.

Lemma lookup_replay1 m d k :
  Scheduler.replay1 m d !! k = if decide (k = key d) then outcome d else m !! k.
Proof.
  destruct d as [ns p w|ns p w]; simpl; case_decide; subst.
  - apply lookup_insert_eq.
  - by rewrite lookup_insert_ne.
  - apply lookup_delete_eq.
  - by rewrite lookup_delete_ne.
Qed.

Lemma replay_lookup_ne ds m k : k ∉ key <$> ds → replays m ds !! k = m !! k.
Proof.
  revert m. induction ds as [|d ds IH]; intros m Hk; simpl; [done|].
  rewrite IH by set_solver. rewrite lookup_replay1, decide_False; [done|]. set_solver.
Qed.

Lemma replay_lookup_eq ds m d :
  NoDup (key <$> ds) → d ∈ ds → replays m ds !! key d = outcome d.
Proof.
  revert m. induction ds as [|d' ds IH]; intros m Hnd Hin; [by apply elem_of_nil in Hin|].
  apply NoDup_cons in Hnd as [Hd' Hnd]. simpl. apply elem_of_cons in Hin as [->|Hin]; [|auto].
  rewrite replay_lookup_ne by done. by rewrite lookup_replay1, decide_True.
Qed.

Lemma leases_replay ds m w :
  NoDup (key <$> ds) → (∀ d, d ∈ ds → valid m d) → leases (replays m ds) w = leases m w + net w ds.
Proof.
  revert m. induction ds as [|d ds IH]; intros m Hnd Hv; simpl; [lia|].
  apply NoDup_cons in Hnd as [Hd Hnd]. rewrite IH; [|done|].
  - assert (Hvd : valid m d) by (apply Hv; set_solver).
    assert (leases (Scheduler.replay1 m d) w = leases m w + net1 w d); [|lia].
    destruct d as [ns p w'|ns p w']; simpl in *.
    + rewrite leases_insert by done. simpl. lia.
    + rewrite (leases_delete _ _ _ _ Hvd). simpl. case_decide; lia.
  - intros d' Hd'. assert (Hv' : valid m d') by (apply Hv; set_solver).
    assert (key d' ≠ key d). { intros E. apply Hd. rewrite <- E. by apply list_elem_of_fmap_2. }
    destruct d'; unfold valid in *; rewrite lookup_replay1, decide_False; done.
Qed.

Lemma size_replay ds m :
  Z.of_nat (size (replays m ds)) ≤ Z.of_nat (size m) + Z.of_nat (length ds).
Proof.
  revert m. induction ds as [|d ds IH]; intros m; simpl; [lia|]. specialize (IH (Scheduler.replay1 m d)).
  assert (size (Scheduler.replay1 m d) ≤ S (size m))%nat; [|lia]. destruct d as [ns p w|ns p w]; simpl.
  - rewrite map_size_insert. case_match; unfold id; lia.
  - rewrite map_size_delete. case_match; unfold id; lia.
Qed.

Section Inv.
Context `{!HashIter PodKey} `{!HashIter Z} `{!HashIter string} `{!HashIter NamespaceId}.

(** ** Induction over the nested routing *)

(** The decisions an output carries to namespaces. *)
Definition sent (out : OrchestratorOutput) : list Decision :=
  omap (λ m : NamespaceId * OrchestratorToNamespace,
    match m.2 with ToNs.SchedulerDecision d => Some d | _ => None end) (to_namespaces out).

Lemma sent_push_decision ns d out : sent (push_ns ns (ToNs.SchedulerDecision d) out) = sent out ++ [d].
Proof. unfold sent, push_ns. simpl. by rewrite omap_app. Qed.

Lemma sent_push_other ns m out :
  (∀ d, m ≠ ToNs.SchedulerDecision d) → sent (push_ns ns m out) = sent out.
Proof.
  intros Hm. unfold sent, push_ns. simpl. rewrite omap_app. simpl.
  destruct m; simpl; rewrite ?app_nil_r; try done. by destruct (Hm decision).
Qed.

Lemma sent_foldl {A} (f : OrchestratorOutput → A → OrchestratorOutput) l out :
  (∀ o x, sent (f o x) = sent o) → sent (foldl f out l) = sent out.
Proof. intros Hf. revert out. induction l as [|x l IH]; intros out; simpl; [done|]. by rewrite IH, Hf. Qed.

Lemma sent_finish c ports cmds out :
  sent (push_deletes cmds (push_invalidations c ports out)) = sent out.
Proof.
  unfold push_deletes, push_invalidations. rewrite sent_foldl by done. apply sent_foldl.
  intros o x. apply sent_foldl. intros o' ns. by apply sent_push_other.
Qed.

(** A worker event with the scheduler update it causes, before its decisions are
    routed. *)
Definition bump (ev : WorkerState.WorkerStateCoreEvent) (c : OrchestratorCore) :
    list Decision * OrchestratorCore :=
  let '(we, ws) := WorkerState.process ev (worker_state c) in
  let c := {| c with worker_state := ws |} in
  match WorkerState.scheduler_updates we with
  | [] => ([], c)
  | u :: _ =>
      let '(se, sch) := Scheduler.process u (scheduler c) in
      (Scheduler.decisions se, {| c with scheduler := sch |})
  end.

Section Route.
Context (I : list Decision → list Decision → list Decision → OrchestratorCore → Prop).

Definition routed (R : Scheduler.SchedulerEffects → st → option st) : Prop :=
  ∀ e s s' todo stack, R e s = Some s' →
    I (Scheduler.decisions e ++ todo) stack (sent s.2) s.1 → I todo stack (sent s'.2) s'.1.

Lemma ws_process_inv R ev s s' todo stack :
  routed R → ws_process R ev s = Some s' →
  I ((bump ev s.1).1 ++ todo) stack (sent s.2) (bump ev s.1).2 → I todo stack (sent s'.2) s'.1.
Proof.
  intros HR. destruct s as [c out]. unfold ws_process, route_worker_state_effects, bump. cbn [fst snd].
  pose proof (ws_updates ev (worker_state c)) as Hup.
  destruct (WorkerState.process ev (worker_state c)) as [we ws]. cbn [fst snd] in Hup.
  set (c1 := {| c with worker_state := ws |}). clearbody c1.
  assert (Hout : ∀ (s1 : st), I todo stack (sent s1.2) s1.1 →
    (let '(c, out) := s1 in Some (c, match WorkerState.worker_registry_broadcast we with
           | Some cmd => push_broadcast cmd out | None => out end)) = Some s' →
    I todo stack (sent s'.2) s'.1).
  { intros [c2 o2] HI E. simplify_eq. simpl in *. by case_match. }
  destruct Hup as [->|(u & -> & Hwu)]; cbn [for_each mbind option_bind].
  - intros E HI. by apply (Hout (c1, out)).
  - destruct (Scheduler.process u (scheduler c1)) as [se sch].
    destruct (R se _) as [s1|] eqn:ER; simpl; [|done]. intros E HI.
    apply (Hout s1); [|done]. by apply (HR _ _ _ todo stack ER).
Qed.

Hypothesis bump_inv : ∀ d todo stack told c,
  I (d :: todo) stack told c →
  I ((bump (decision_change d) c).1 ++ todo) (d :: stack) told (bump (decision_change d) c).2.
Hypothesis push_inv : ∀ d todo stack told c,
  I todo (d :: stack) told c → I todo stack (told ++ [d]) c.

Lemma decisions_inv R ds s s' todo stack :
  routed R → for_each (route_decision R) ds s = Some s' →
  I (ds ++ todo) stack (sent s.2) s.1 → I todo stack (sent s'.2) s'.1.
Proof.
  intros HR. revert s. induction ds as [|d ds IH]; intros s E HI; simpl in E; [by simplify_eq|].
  destruct (route_decision R d s) as [s1|] eqn:Ed; simpl in E; [|done].
  unfold route_decision in Ed. destruct (ws_process R _ s) as [[c1 o1]|] eqn:E1; simplify_eq/=.
  apply (IH _ E).
  simpl. rewrite sent_push_decision. apply push_inv.
  apply (ws_process_inv _ _ _ _ _ _ HR E1). by apply bump_inv.
Qed.

Lemma route_inv fuel : routed (route_scheduler_effects fuel).
Proof.
  induction fuel as [|fuel IH]; intros e s s' todo stack; [done|]. rewrite route_S.
  destruct (for_each _ _ s) as [[c1 o1]|] eqn:E; simpl; [|done]. intros [= <-] HI. simpl.
  rewrite sent_finish. by apply (decisions_inv _ _ _ _ _ _ IH E).
Qed.
End Route.

(** ** The scheduler side *)
Definition max_leases : Z := 2 ^ 31 - 2.

(** The scheduler while [todo] and [stack] are under way and [told] was sent. *)
Record SInv (todo stack told : list Decision) (s : Scheduler.SchedulerCore) : Prop := {
  s_out : ∀ d, d ∈ todo ++ stack →
    Scheduler.granted s !! key d = outcome d ∧ Scheduler.pending s !! key d = None;
  s_rest : ∀ k, k ∉ key <$> (todo ++ stack) → Scheduler.granted s !! k = Scheduler.replay told !! k;
  s_nodup : NoDup (key <$> (todo ++ stack));
  s_disj : ∀ k, is_Some (Scheduler.pending s !! k) → Scheduler.granted s !! k = None;
  s_size : Z.of_nat (size (Scheduler.pending s)) + Z.of_nat (size (Scheduler.granted s))
             + revokes todo ≤ max_leases;
  s_grants : ∀ w, grants w todo ≤ leases (Scheduler.granted s) w;
  s_conserving : Scheduler.conserving s;
}.

(** What an update of the workers does to requests and leases. *)
Lemma update_spec u s :
  worker_update u →
  let '(e, s') := Scheduler.process u s in
  let ds := Scheduler.decisions e in
  NoDup (key <$> ds) ∧ revokes ds = 0 ∧
  (∀ d, d ∈ ds → is_Some (Scheduler.pending s !! key d) ∧
     Scheduler.pending s' !! key d = None ∧ is_Some (outcome d)) ∧
  (∀ k, is_Some (Scheduler.pending s' !! k) → is_Some (Scheduler.pending s !! k)) ∧
  (length ds + size (Scheduler.pending s') ≤ size (Scheduler.pending s))%nat.
Proof.
  destruct u as [| |w c|w| | |]; try done; intros _; simpl.
  2: { split_and!; [constructor|done|by intros d ?%elem_of_nil|done|lia]. }
  destruct (Scheduler.retry_pending _) as [ds s'] eqn:E. simpl.
  destruct (Scheduler.none_eligible_dec
    {| s with Scheduler.workers := <[w := c]> (Scheduler.workers s) |}) as [Hn|Hn].
  - rewrite Scheduler.retry_pending_none in E by done. simplify_eq. simpl.
    split_and!; [constructor|done|by intros d ?%elem_of_nil|done|lia].
  - apply Scheduler.retry_pending_all in E as (_ & _ & Hp & _ & keys & ws & Hk & Hl & -> & _); [|done].
    simpl in Hk. rewrite Hp. assert (Hkeys : key <$> zip_with (λ k w, Scheduler.Grant k.1 k.2 w) keys ws = keys).
    { clear -Hl. revert ws Hl. induction keys as [|[a b] keys IH]; intros [|w ws] Hl; try done.
      csimpl. f_equal. apply IH. by injection Hl. }
    split_and!.
    + rewrite Hkeys, Hk. apply NoDup_fst_map_to_list.
    + clear. revert ws. induction keys as [|k keys IH]; intros [|w ws]; simpl; auto.
    + intros d Hd. assert (Hin : key d ∈ keys) by (rewrite <- Hkeys; by apply list_elem_of_fmap_2).
      rewrite Hk in Hin. apply list_elem_of_fmap in Hin as ([k e] & Ek & Hin%elem_of_map_to_list).
      simpl in Ek. rewrite Ek. split_and!; [eauto|apply lookup_empty|].
      apply list_elem_of_lookup in Hd as [i Hi]. rewrite lookup_zip_with in Hi.
      destruct (keys !! i), (ws !! i); simpl in Hi; simplify_eq; simpl; eauto.
    + intros k [? Hs]. by rewrite lookup_empty in Hs.
    + assert (Hlen : length keys = size (Scheduler.pending s)).
      { rewrite Hk, length_fmap. apply length_map_to_list. }
      rewrite length_zip_with, map_size_empty. lia.
Qed.

Lemma SInv_update u todo stack told s :
  SInv todo stack told s → worker_update u →
  let '(e, s') := Scheduler.process u s in
  SInv (Scheduler.decisions e ++ todo) stack told s' ∧
  ∀ w, leases (Scheduler.granted s') w - net w (Scheduler.decisions e ++ todo) =
       leases (Scheduler.granted s) w - net w todo.
Proof.
  intros HI Hu. pose proof (update_spec u s Hu) as Hspec.
  pose proof (Scheduler.process_replay u s) as Hg.
  pose proof (Scheduler.process_conserving u s (s_conserving _ _ _ _ HI)) as Hcons.
  destruct (Scheduler.process u s) as [e s']. cbn [fst snd] in *.
  remember (Scheduler.decisions e) as ds eqn:Eds. clear Eds.
  destruct Hspec as (Hnd & Hrev & Hds & Hpend & Hsize).
  destruct HI as [Hout Hrest Hndo Hdisj Hsz Hgr _].
  assert (Hnew : ∀ d d', d ∈ ds → d' ∈ todo ++ stack → key d ≠ key d').
  { intros d d' Hd Hd' E. destruct (Hds d Hd) as [Hp _]. rewrite E in Hp.
    destruct (Hout d' Hd') as [_ Hn]. rewrite Hn in Hp. by destruct Hp. }
  assert (Hnew' : ∀ d, d ∈ todo ++ stack → key d ∉ key <$> ds).
  { intros d Hd (d' & E & Hd')%list_elem_of_fmap. by apply (Hnew d' d). }
  assert (Hvalid : ∀ d, d ∈ ds → valid (Scheduler.granted s) d).
  { intros d Hd. destruct (Hds d Hd) as (Hp & _ & Ho). destruct d; [by apply Hdisj|].
    by destruct Ho. }
  assert (Hleases : ∀ w, leases (Scheduler.granted s') w = leases (Scheduler.granted s) w + net w ds)
    by (intros w; rewrite Hg; by apply leases_replay).
  assert (Hnet : ∀ w, net w ds = grants w ds) by (intros w; pose proof (net_bounds w ds); lia).
  split; [split|].
  - intros d. rewrite <- (assoc_L (++)). intros [Hd|Hd]%elem_of_app.
    + split; [rewrite Hg; by apply replay_lookup_eq|]. by apply Hds.
    + destruct (Hout d Hd) as [Ho Hp]. split.
      * rewrite Hg, replay_lookup_ne by by apply Hnew'. done.
      * apply eq_None_not_Some. intros Hs. apply Hpend in Hs. rewrite Hp in Hs. by destruct Hs.
  - intros k. rewrite <- (assoc_L (++)), fmap_app, not_elem_of_app. intros [Hk1 Hk2].
    rewrite Hg, replay_lookup_ne by done. by apply Hrest.
  - rewrite <- (assoc_L (++)), fmap_app. apply NoDup_app. split_and!; [done| |done].
    intros k (d & -> & Hd)%list_elem_of_fmap (d' & E & Hd')%list_elem_of_fmap.
    by apply (Hnew d d').
  - intros k Hs. rewrite Hg, replay_lookup_ne; [by apply Hdisj, Hpend|].
    intros (d & -> & Hd)%list_elem_of_fmap. destruct (Hds d Hd) as (_ & Hn & _).
    rewrite Hn in Hs. by destruct Hs.
  - rewrite revokes_app, Hrev. pose proof (size_replay ds (Scheduler.granted s)) as Hsr.
    rewrite <- Hg in Hsr. lia.
  - intros w. rewrite grants_app, Hleases, Hnet. specialize (Hgr w). lia.
  - done.
  - intros w. rewrite net_app, Hleases. lia.
Qed.

Lemma SInv_shift d todo stack told s :
  SInv (d :: todo) stack told s → SInv todo (d :: stack) told s.
Proof.
  assert (Hp : todo ++ d :: stack ≡ₚ (d :: todo) ++ stack) by (symmetry; apply Permutation_middle).
  intros [Hout Hrest Hnd Hdisj Hsz Hgr Hc]. split; try done.
  - intros d'. rewrite Hp. apply Hout.
  - intros k. rewrite Hp. apply Hrest.
  - by rewrite Hp.
  - destruct d; simpl in Hsz; lia.
  - intros w. specialize (Hgr w). simpl in Hgr. lia.
Qed.

Lemma SInv_push d todo stack told s :
  SInv todo (d :: stack) told s → SInv todo stack (told ++ [d]) s.
Proof.
  assert (Hp : todo ++ d :: stack ≡ₚ d :: todo ++ stack) by (symmetry; apply Permutation_middle).
  intros [Hout Hrest Hnd Hdisj Hsz Hgr Hc]. split; try done.
  - intros d' Hd'. apply Hout. rewrite Hp. set_solver.
  - intros k Hk. unfold Scheduler.replay. rewrite foldl_app. simpl. rewrite lookup_replay1.
    case_decide as E; [|apply Hrest; rewrite Hp; set_solver].
    subst. apply Hout. rewrite Hp. set_solver.
  - rewrite Hp in Hnd. by apply NoDup_cons in Hnd as [_ Hnd].
Qed.

(** A request, a withdrawal or an artifact message while nothing is under way.  A
    request must be for a pod that neither waits nor holds a lease. *)
Definition admissible (s : Scheduler.SchedulerCore) (i : Scheduler.SchedulerCoreInput) : Prop :=
  match i with
  | Scheduler.RequestLease ns pod _ =>
      Scheduler.pending s !! (ns, pod) = None ∧ Scheduler.granted s !! (ns, pod) = None ∧
      Z.of_nat (size (Scheduler.pending s)) + Z.of_nat (size (Scheduler.granted s)) < max_leases
  | Scheduler.WorkerUpdate _ _ | Scheduler.WorkerRemoved _ => False
  | _ => True
  end.

(** The scheduler took one decision [d]. *)
Lemma SInv_one d told s s' :
  SInv [] [] told s → valid (Scheduler.granted s) d → Scheduler.conserving s' →
  Scheduler.granted s' = Scheduler.replay1 (Scheduler.granted s) d →
  Scheduler.pending s' = Scheduler.pending s → Scheduler.pending s !! key d = None →
  Z.of_nat (size (Scheduler.pending s')) + Z.of_nat (size (Scheduler.granted s')) +
    revokes [d] ≤ max_leases →
  SInv [d] [] told s' ∧
  ∀ w, leases (Scheduler.granted s') w - net w [d] = leases (Scheduler.granted s) w.
Proof.
  intros [Hout Hrest Hnd Hdisj Hsz Hgr Hc] Hv Hc' Hg Hp Hk Hs.
  assert (Hl : ∀ w, leases (Scheduler.granted s') w = leases (Scheduler.granted s) w + net w [d]).
  { intros w. rewrite Hg. apply (leases_replay [d]); [apply NoDup_singleton|].
    by intros d' ->%list_elem_of_singleton. }
  split; [split|]; simpl.
  - intros d' ->%list_elem_of_singleton. rewrite Hg, lookup_replay1, decide_True, Hp by done. done.
  - intros k Hk'. rewrite Hg, lookup_replay1, decide_False by set_solver. apply Hrest. set_solver.
  - apply NoDup_singleton.
  - intros k. rewrite Hg, lookup_replay1, Hp. intros Hs'. case_decide; [|by apply Hdisj].
    subst. rewrite Hk in Hs'. by destruct Hs'.
  - done.
  - intros w. rewrite Hl. pose proof (leases_pos (Scheduler.granted s) w). simpl.
    destruct d as [ns p w'|ns p w']; simpl; case_decide; try lia.
    simpl in Hv. pose proof (leases_pos (delete (ns, p) (Scheduler.granted s)) w) as Hd.
    rewrite (leases_delete _ _ _ _ Hv) in Hd. simpl in Hd. case_decide; lia.
  - done.
  - intros w. rewrite Hl. simpl. lia.
Qed.

Lemma SInv_input i told s :
  SInv [] [] told s → admissible s i →
  let '(e, s') := Scheduler.process i s in
  SInv (Scheduler.decisions e) [] told s' ∧
  ∀ w, leases (Scheduler.granted s') w - net w (Scheduler.decisions e) = leases (Scheduler.granted s) w.
Proof.
  intros HI Ha. pose proof (Scheduler.process_conserving i s (s_conserving _ _ _ _ HI)) as Hc'.
  pose proof HI as [Hout Hrest Hnd Hdisj Hsz Hgr Hc].
  destruct i as [ns pod r|ns pod|w c|w|w ev|art ns|art ns]; simpl in Ha, Hc' |- *; try done.
  - destruct Ha as (Hp & Hg & Hlt). destruct (Scheduler.select_worker _ _ _) as [w|]; simpl in *.
    + apply (SInv_one (Scheduler.Grant ns pod w) _ s); try done. simpl. rewrite map_size_insert_None by done. lia.
    + split; [|intros; lia]. split; try done; simpl.
      * by intros d ?%elem_of_nil.
      * intros k Hk. destruct (decide (k = (ns, pod))) as [->|]; [done|]. apply Hdisj.
        by rewrite lookup_insert_ne in Hk.
      * rewrite map_size_insert_None by done. simpl in Hsz. lia.
  - destruct (Scheduler.granted s !! (ns, pod)) as [[w]|] eqn:Eg; simpl in *.
    + assert (Scheduler.pending s !! (ns, pod) = None).
      { apply eq_None_not_Some. intros Hs. apply Hdisj in Hs. by pose proof (eq_trans (eq_sym Eg) Hs). }
      apply (SInv_one (Scheduler.Revoke ns pod w) _ s); try done. simpl. simpl in Hsz.
      assert (size (Scheduler.granted s) ≠ 0%nat).
      { intros E. apply map_size_empty_inv in E. rewrite E, lookup_empty in Eg. done. }
      assert (size (delete (ns, pod) (Scheduler.granted s)) = pred (size (Scheduler.granted s)))
        by (apply map_size_delete_Some; eauto). lia.
    + split; [|intros; lia]. split; try done; simpl.
      * by intros d ?%elem_of_nil.
      * intros k [e [_ Hk]%lookup_delete_Some]. apply Hdisj. eauto.
      * rewrite map_size_delete. case_match; unfold id; simpl in Hsz; lia.
  - split; [|intros; lia]. by split.
  - split; [|intros; lia]. by split.
  - split; [|intros; lia]. by split.
Qed.

(** ** The whole core *)
Record Inv (todo stack told : list Decision) (sch : Scheduler.SchedulerCore)
    (ws : WorkerState.WorkerStateCore) : Prop := {
  i_sched : SInv todo stack told sch;
  i_count : ∀ w t, WorkerState.workers ws !! w = Some t →
    WorkerState.pod_count t = leases (Scheduler.granted sch) w - net w todo;
  i_mirror : WorkerState.mirrors ws sch;
}.
Abbreviation CInv todo stack told c := (Inv todo stack told (scheduler c) (worker_state c)).

Lemma Inv_bump ev todo stack told c :
  SInv todo stack told (scheduler c) → WorkerState.mirrors (worker_state c) (scheduler c) →
  (∀ w t, WorkerState.workers (WorkerState.process ev (worker_state c)).2 !! w = Some t →
     WorkerState.pod_count t = leases (Scheduler.granted (scheduler c)) w - net w todo) →
  CInv ((bump ev c).1 ++ todo) stack told (bump ev c).2.
Proof.
  intros HS Hm Hc. unfold bump.
  pose proof (WorkerState.process_mirrors ev (worker_state c) (scheduler c) Hm) as Hm'.
  pose proof (ws_updates ev (worker_state c)) as Hup.
  destruct (WorkerState.process ev (worker_state c)) as [we ws]. cbn [fst snd] in *.
  destruct Hup as [E|(u & E & Hu)]; rewrite E in *; [by split|].
  unfold WorkerState.feed in Hm'. cbn [foldl] in Hm'. cbn [scheduler].
  pose proof (SInv_update u todo stack told (scheduler c) HS Hu) as Hs.
  destruct (Scheduler.process u (scheduler c)) as [se sch]. destruct Hs as [HS' Hl].
  split; [done| |done]. intros w t Hw. cbn [fst snd scheduler]. rewrite Hl. by apply Hc.
Qed.

Lemma i32_step pc d :
  0 ≤ pc ≤ max_leases → -1 ≤ d ≤ 1 → 0 ≤ pc + d → Z.max (i32_add (as_i32 pc) d) 0 = pc + d.
Proof.
  unfold max_leases, i32_add, as_i32, wrap. intros Hpc Hd Hs.
  rewrite (Z.mod_small pc) by lia. rewrite (proj2 (Z.ltb_lt pc (2 ^ 31))) by lia.
  rewrite (Z.mod_small (pc + d)) by lia. rewrite (proj2 (Z.ltb_lt (pc + d) (2 ^ 31))) by lia. lia.
Qed.

Lemma pod_count_recompute t :
  WorkerState.pod_count (WorkerState.recompute_pressure_from_psi t) = WorkerState.pod_count t.
Proof. unfold WorkerState.recompute_pressure_from_psi. by destruct (WorkerState.psi t). Qed.

Lemma pod_count_change w d ws w' t :
  WorkerState.workers (WorkerState.process (WorkerState.PodCountChange w d) ws).2 !! w' = Some t →
  ∃ t0, WorkerState.workers ws !! w' = Some t0 ∧ WorkerState.pod_count t =
    if decide (w' = w) then Z.max (i32_add (as_i32 (WorkerState.pod_count t0)) d) 0
    else WorkerState.pod_count t0.
Proof.
  simpl. unfold WorkerState.update_worker.
  destruct (WorkerState.workers ws !! w) as [t0|] eqn:E; simpl.
  - destruct (decide (w' = w)) as [->|].
    + rewrite lookup_insert_eq. intros [= <-]. exists t0. by rewrite pod_count_recompute.
    + rewrite lookup_insert_ne by done. eauto.
  - intros Hw. exists t. case_decide; subst; [congruence|done].
Qed.

Lemma Inv_decision d todo stack told c :
  CInv (d :: todo) stack told c →
  CInv ((bump (decision_change d) c).1 ++ todo) (d :: stack) told (bump (decision_change d) c).2.
Proof.
  intros [HS Hcount Hm]. apply Inv_bump; [by apply SInv_shift|done|].
  intros w' t Hw. assert (exists w δ, decision_change d = WorkerState.PodCountChange w δ ∧
    -1 ≤ δ ≤ 1 ∧ revokes [d] = (if decide (δ = -1) then 1 else 0) ∧ (δ = 1 ∨ δ = -1) ∧
    ∀ x, net1 x d = if decide (x = w) then δ else 0) as (w & δ & E & Hδ & Hr & Hδ' & Hn).
  { destruct d as [ns p w|ns p w]; exists w; eexists; split_and!; try done; try lia;
      intros x; simpl; repeat case_decide; congruence || done. }
  rewrite E in Hw. apply pod_count_change in Hw as (t0 & Hw & ->).
  specialize (Hcount _ _ Hw). simpl in Hcount. rewrite Hn in Hcount.
  destruct (decide (w' = w)) as [->|Hne]; [|lia].
  pose proof (s_size _ _ _ _ HS) as Hsz. pose proof (s_grants _ _ _ _ HS w) as Hg. simpl in Hg.
  rewrite Hn, decide_True in Hg by done.
  assert (revokes (d :: todo) = revokes [d] + revokes todo) as Hrv by (destruct d; simpl; lia).
  rewrite Hrv, Hr in Hsz. pose proof (leases_le (Scheduler.granted (scheduler c)) w).
  pose proof (net_bounds w todo). pose proof (revokes_pos todo). pose proof (grants_pos w todo).
  rewrite i32_step; [lia| |done|]; destruct Hδ' as [-> | ->]; simpl in *; try lia.
Qed.

Lemma Inv_route told fuel :
  routed (λ todo stack snt c, CInv todo stack (told ++ snt) c) (route_scheduler_effects fuel).
Proof.
  apply route_inv.
  - intros d todo stack snt c. apply Inv_decision.
  - intros d todo stack snt c [HS Hc Hm]. rewrite (assoc_L (++)). split; [by apply SInv_push|done|done].
Qed.

(** ** Calls of the shell *)

(** The routing depth used by the calls, see [routing_terminates]. *)
Definition depth : nat := 3.

(** One call of the shell.  A worker reports through [classify]; a namespace requests
    a lease only for a pod that has none and asked for none; a worker id is used for
    one connection only. *)
Inductive shell_step (c : OrchestratorCore) : st → Prop :=
  | step_worker_state w ev e s :
      Classify.classify w ev = Classify.WorkerState e →
      process depth (WorkerStateEvent e) c = Some s → shell_step c s
  | step_scheduler w ev i s :
      Classify.classify w ev = Classify.Scheduler i →
      process depth (SchedulerEvent i) c = Some s → shell_step c s
  | step_namespace ns msg s :
      admissible (scheduler c) (scheduler_message_to_input msg) →
      process depth (FromNamespace ns (ToScheduler msg)) c = Some s → shell_step c s
  | step_connect info s :
      WorkerState.workers (worker_state c) !! wci_worker_id info = None →
      leases (Scheduler.granted (scheduler c)) (wci_worker_id info) = 0 →
      worker_connected depth info c = Some s → shell_step c s
  | step_disconnect w s :
      worker_disconnected depth w c = Some s → shell_step c s
  | step_create info r s :
      create_namespace depth segment_fuel info c = Some (r, s) → shell_step c s
  | step_destroy ns r s :
      destroy_namespace depth ns c = Some (r, s) → shell_step c s.

(** The cores that calls of the shell lead to, with all decisions sent so far. *)
Inductive reach : OrchestratorCore → list Decision → Prop :=
  | reach_new tc reg : reach (new tc reg) []
  | reach_step c told c' out :
      reach c told → shell_step c (c', out) → reach c' (told ++ sent out).

(** *** Preservation *)
Section Preserve.
Context (told : list Decision).
Abbreviation SI s := (CInv [] [] (told ++ sent s.2) s.1).

Lemma sched_step i s s' :
  sched_process depth i s = Some s' → admissible (scheduler s.1) i → SI s → SI s'.
Proof.
  destruct s as [c out]. unfold sched_process. intros E Ha [HS Hc Hm]. cbn [fst snd] in *.
  pose proof (SInv_input i _ _ HS Ha) as Hs. pose proof (WorkerState.process_workers i (scheduler c)) as Hw.
  destruct (Scheduler.process i (scheduler c)) as [se sch]. destruct Hs as [HS' Hl].
  eapply (Inv_route told depth _ _ _ [] []) in E; [exact E|]. cbn [fst snd scheduler worker_state].
  rewrite app_nil_r. split; [done| |].
  - intros w t Ht. rewrite Hl, (Hc _ _ Ht). simpl. lia.
  - intros w. cbn [snd] in Hw. rewrite Hw, <- (Hm w). by destruct i.
Qed.

(** A worker event that sets no pod count. *)
Definition quiet_event (ev : WorkerState.WorkerStateCoreEvent) : Prop :=
  match ev with
  | WorkerState.Connected _ _ _ _ _ | WorkerState.PodCountChange _ _ => False
  | _ => True
  end.

Lemma quiet_event_counts ev ws w t :
  quiet_event ev → WorkerState.workers (WorkerState.process ev ws).2 !! w = Some t →
  ∃ t0, WorkerState.workers ws !! w = Some t0 ∧ WorkerState.pod_count t = WorkerState.pod_count t0.
Proof.
  assert (Hins : ∀ w' t0 t1, WorkerState.workers ws !! w' = Some t0 →
    WorkerState.pod_count t1 = WorkerState.pod_count t0 →
    <[w' := t1]> (WorkerState.workers ws) !! w = Some t →
    ∃ t0, WorkerState.workers ws !! w = Some t0 ∧ WorkerState.pod_count t = WorkerState.pod_count t0).
  { intros w' t0 t1 Hw' Hp Hl. destruct (decide (w' = w)) as [<-|].
    - rewrite lookup_insert_eq in Hl. simplify_eq. eauto.
    - rewrite lookup_insert_ne in Hl by done. eauto. }
  destruct ev as [w' cpu mem io|w' ps|w' k a m|w' caps tn wg pr|w'|w' ns|w' ns|ns seg|ns|w' d];
    try done; intros _; simpl; unfold WorkerState.update_worker, WorkerState.update_segments.
  - destruct (WorkerState.workers ws !! w') eqn:E; simpl; [|eauto]. eapply Hins; [done|].
    by rewrite pod_count_recompute.
  - destruct (WorkerState.workers ws !! w') eqn:E; simpl; [|eauto]. by eapply Hins.
  - destruct (WorkerState.workers ws !! w') eqn:E; simpl; [|eauto]. by eapply Hins.
  - intros [_ ?]%lookup_delete_Some. eauto.
  - destruct (WorkerState.workers ws !! w') eqn:E; simpl; [|eauto].
    destruct (WorkerState.namespace_segments ws !! ns); simpl; [|eauto].
    case_decide; simpl; [eauto|]. by eapply Hins.
  - destruct (WorkerState.workers ws !! w') eqn:E; simpl; [|eauto].
    destruct (WorkerState.namespace_segments ws !! ns); simpl; [|eauto].
    case_decide; simpl; [eauto|]. by eapply Hins.
  - eauto.
  - eauto.
Qed.

Lemma ws_step ev s s' :
  ws_process (route_scheduler_effects depth) ev s = Some s' →
  (∀ w t, WorkerState.workers (WorkerState.process ev (worker_state s.1)).2 !! w = Some t →
     WorkerState.pod_count t = leases (Scheduler.granted (scheduler s.1)) w) →
  SI s → SI s'.
Proof.
  intros E Hc [HS _ Hm].
  eapply (ws_process_inv _ _ _ _ _ [] [] (Inv_route told depth)) in E; [exact E|].
  apply Inv_bump; [done|done|]. intros w t Ht. rewrite (Hc w t Ht). simpl. lia.
Qed.

Lemma ws_step_quiet ev s s' :
  ws_process (route_scheduler_effects depth) ev s = Some s' → quiet_event ev → SI s → SI s'.
Proof.
  intros E Hq HI. eapply ws_step; [exact E| |exact HI]. intros w t Ht.
  destruct (quiet_event_counts _ _ _ _ Hq Ht) as (t0 & Ht0 & ->).
  rewrite (i_count _ _ _ _ _ HI w t0 Ht0). simpl. lia.
Qed.

(** A loop of the source whose body ends with a worker event. *)
Lemma loop_step {A} (f : A → st → option st) l s s' :
  (∀ x s s', f x s = Some s' → SI s → SI s') → for_each f l s = Some s' → SI s → SI s'.
Proof. intros Hf. apply (for_each_ind (λ s, SI s)). eauto. Qed.

Lemma shell_step_inv c s : shell_step c s → SI (c, output_default) → SI s.
Proof.
  intros Hst HI. destruct Hst as [w ev e s He E|w ev i s He E|ns msg s Ha E|info s Hw Hl E|w s E
    |info r s E|ns r s E].
  - apply (ws_step_quiet _ _ _ E); [|done]. destruct ev; simpl in He; simplify_eq; done.
  - apply (sched_step _ _ _ E); [|done]. destruct ev; simpl in He; unfold Classify.artifact_event in He;
      simplify_eq; done.
  - by apply (sched_step _ _ _ E).
  - unfold worker_connected in E.
    destruct (ws_process _ (WorkerState.Connected _ _ _ _ _) _) as [s1|] eqn:E1; simpl in E; [|done].
    eapply loop_step; [|exact E|].
    + intros ns [c1 o1] s2 E2 [HS Hc Hm]. apply (ws_step_quiet _ _ _ E2); [done|]. cbn [fst snd] in *.
      rewrite sent_push_other by done. by destruct (namespace_networks c1 !! ns).
    + eapply ws_step; [exact E1| |by destruct HI]. cbn [fst worker_state scheduler].
      intros w t Ht. simpl in Ht. destruct (decide (w = wci_worker_id info)) as [->|Hne].
      * rewrite lookup_insert_eq in Ht. simplify_eq. by rewrite Hl.
      * rewrite lookup_insert_ne in Ht by done. rewrite (i_count _ _ _ _ _ HI _ _ Ht). simpl. lia.
  - unfold worker_disconnected in E.
    destruct (ws_process _ (WorkerState.Disconnected _) _) as [s1|] eqn:E1; simpl in E; [|done].
    eapply loop_step; [|exact E|].
    + intros ns [c1 o1] s2 E2 [HS Hc Hm]. apply (ws_step_quiet _ _ _ E2); [done|]. cbn [fst snd] in *.
      by rewrite sent_push_other.
    + by apply (ws_step_quiet _ _ _ E1); [|destruct HI].
  - unfold create_namespace in E. destruct (is_some _); [by simplify_eq|].
    destruct (alloc_segment_id _ _) as [[seg c1]|] eqn:Ea; cbn [mbind option_bind] in E; [|done].
    destruct (ws_process _ (WorkerState.RegisterNamespaceSegment _ _) _) as [[c2 o2]|] eqn:E1;
      cbn [mbind option_bind] in E; [|done].
    destruct (IdRegistry.get_or_create _ _) as [reg m].
    destruct (for_each _ _ _) as [[c3 o3]|] eqn:E3; cbn [mbind option_bind] in E; [|done].
    apply (inj Some) in E as [= _ <-].
    eapply (loop_step _ _ _ (c3, o3)); [|exact E3|].
    + intros su [c4 o4] s5 E5 [HS Hc Hm]. by apply (ws_step_quiet _ _ _ E5).
    + assert (SI (c2, o2)) as [HS Hc Hm]; [|by split].
      apply (ws_step_quiet _ _ _ E1); [done|]. cbn [fst scheduler worker_state].
      assert (scheduler c1 = scheduler c ∧ worker_state c1 = worker_state c) as [-> ->]; [|by destruct HI].
      by rewrite (alloc_segment_id_frame _ _ _ _ Ea).
  - unfold destroy_namespace in E. case_decide; [by simplify_eq|].
    destruct (for_each _ _ _) as [s1|] eqn:E1; simpl in E; [|done].
    destruct (ws_process _ (WorkerState.UnregisterNamespaceSegment _) s1) as [s2|] eqn:E2;
      simpl in E; [|done]. simplify_eq.
    apply (ws_step_quiet _ _ _ E2); [done|]. eapply loop_step; [|exact E1|].
    + intros w s3 s4 E4. by apply (ws_step_quiet _ _ _ E4).
    + cbn [fst snd scheduler worker_state]. destruct HI as [HS Hc Hm]. simpl.
      destruct (namespace_segments c !! ns); by split.
Qed.
End Preserve.

Lemma reach_inv c told : reach c told → CInv [] [] told c.
Proof.
  induction 1 as [tc reg|c told c' out Hr IH Hst].
  - split.
    + split; simpl; try done.
      * by intros d ?%elem_of_nil.
      * constructor.
      * by left.
    + intros w t Hw. simpl in Hw. by rewrite lookup_empty in Hw.
    + intros w. simpl. by rewrite !lookup_empty.
  - apply (shell_step_inv told c (c', out) Hst). cbn [fst snd]. by rewrite app_nil_r.
Qed.


(** C7: accounting is exact: in every state the shell can reach, the pod count the
    core keeps for a worker is the number of leases granted to it, and no pod both
    waits for a lease and holds one. *)
Theorem pod_counts_exact c told :
  reach c told →
  (∀ w t, WorkerState.workers (worker_state c) !! w = Some t →
     WorkerState.pod_count t = leases (Scheduler.granted (scheduler c)) w) ∧
  (∀ k, Scheduler.pending (scheduler c) !! k = None ∨ Scheduler.granted (scheduler c) !! k = None).
Proof.
  intros Hr. destruct (reach_inv _ _ Hr) as [HS Hc _]. split.
  - intros w t Hw. rewrite (Hc w t Hw). simpl. lia.
  - intros k. destruct (Scheduler.pending (scheduler c) !! k) eqn:E; [right|by left].
    apply (s_disj _ _ _ _ HS). eauto.
Qed.

(** C8: the orchestrator is work conserving: in every state the shell can reach, the
    scheduler's table is the current state of the tracked workers (pressure, pod
    count, draining), and no request waits while one of them could take it. *)
Theorem orchestrator_conserving c told :
  reach c told →
  (∀ w, Scheduler.workers (scheduler c) !! w =
        (λ t, WorkerState.to_candidate t w) <$> WorkerState.workers (worker_state c) !! w) ∧
  (Scheduler.pending (scheduler c) = ∅ ∨
   ∀ w t, WorkerState.workers (worker_state c) !! w = Some t →
     Scheduler.eligible (WorkerState.to_candidate t w) = false).
Proof.
  intros Hr. destruct (reach_inv _ _ Hr) as [HS _ Hm]. split; [done|].
  destruct (s_conserving _ _ _ _ HS) as [Hp|Hn]; [by left|right]. intros w t Hw.
  apply (Hn w). by rewrite (Hm w), Hw.
Qed.

End Inv.

(** ** A concrete run *)
Definition demo_timers : TimerConfig :=
  {| tc_retry_backoff := 1; tc_launch_timeout := 1; tc_suspend_timeout := 1; tc_idle_timeout := 1 |}.
Definition demo_net : NetworkConfig :=
  {| nc_subnet := 167772160; nc_gateway := 167772161; nc_prefix_len := 16; nc_segment_id := None |}.
Definition demo_worker (w : Z) : WorkerConnectedInfo :=
  {| wci_worker_id := w; wci_capabilities := WorkerState.demo_caps;
     wci_tunnel_info := Some {| WorkerState.ti_listen_port := 51820; WorkerState.ti_public_key := [1] |};
     wci_wireguard_info := None; wci_proto_worker_id := w |}.
Definition demo_request (p : Z) : OrchestratorInputNew :=
  FromNamespace Scheduler.demo_ns (ToScheduler (MsgRequestLease Scheduler.demo_ns p None)).

(** Two requests wait, then a worker connects, then a namespace is created and a
    lease withdrawn. *)
Definition get_st (o : option st) : st := default (new demo_timers ∅, output_default) o.
Definition demo_1 : st := get_st (process depth (demo_request 1) (new demo_timers ∅)).
Definition demo_2 : st := get_st (process depth (demo_request 2) demo_1.1).
Definition demo_3 : st := get_st (worker_connected depth (demo_worker 7) demo_2.1).
Definition demo_4 : st :=
  (default (inr ShellGone, (new demo_timers ∅, output_default))
     (create_namespace depth segment_fuel
        {| cni_namespace_name := "a"; cni_network := demo_net |} demo_3.1)).2.
Definition demo_drop : OrchestratorInputNew :=
  FromNamespace Scheduler.demo_ns (ToScheduler (MsgDropRequest Scheduler.demo_ns 1)).
Definition demo_5 : st := get_st (process depth demo_drop demo_4.1).
Definition demo_told : list Decision :=
  ((([] ++ sent demo_1.2) ++ sent demo_2.2) ++ sent demo_3.2) ++ sent demo_4.2 ++ sent demo_5.2.

Lemma demo_reach : reach demo_5.1 demo_told.
Proof.
  unfold demo_told. rewrite (assoc_L (++)).
  eapply (reach_step demo_4.1); [eapply (reach_step demo_3.1); [eapply (reach_step demo_2.1);
    [eapply (reach_step demo_1.1); [eapply (reach_step (new demo_timers ∅)); [apply reach_new|]|]|]|]|].
  - eapply (step_namespace _ Scheduler.demo_ns (MsgRequestLease Scheduler.demo_ns 1 None));
      [by vm_compute|]. rewrite <- surjective_pairing. by vm_compute.
  - eapply (step_namespace _ Scheduler.demo_ns (MsgRequestLease Scheduler.demo_ns 2 None));
      [by vm_compute|]. rewrite <- surjective_pairing. by vm_compute.
  - eapply (step_connect _ (demo_worker 7)); [by vm_compute..|].
    rewrite <- surjective_pairing. by vm_compute.
  - eapply (step_create _ {| cni_namespace_name := "a"; cni_network := demo_net |}).
    rewrite <- surjective_pairing. by vm_compute.
  - eapply (step_namespace _ Scheduler.demo_ns (MsgDropRequest Scheduler.demo_ns 1)); [done|].
    rewrite <- surjective_pairing. by vm_compute.
Qed.

Lemma pod_counts_exact_witness :
  WorkerState.pod_count <$> WorkerState.workers (worker_state demo_5.1) !! 7 = Some 1 ∧
  leases (Scheduler.granted (scheduler demo_5.1)) 7 = 1.
Proof.
  destruct (pod_counts_exact _ _ demo_reach) as [H _]. split; [|by vm_compute].
  destruct (WorkerState.workers (worker_state demo_5.1) !! 7) as [t|] eqn:E; [|by vm_compute in E].
  simpl. rewrite (H 7 t E). by vm_compute.
Defined.


Lemma orchestrator_conserving_witness :
  Scheduler.pod_count <$> Scheduler.workers (scheduler demo_5.1) !! 7 = Some 1.
Proof.
  pose proof (proj1 (orchestrator_conserving _ _ demo_reach) 7) as H.
  etransitivity; [exact (f_equal (fmap Scheduler.pod_count) H)|]. by vm_compute.
Defined.

(** ** Behaviours worth knowing *)

(** Artifact ids are counted per namespace, but the scheduler knows them by id alone:
    when a second namespace releases its artifact "1", the copy of the first
    namespace's artifact "1" is deleted from the worker and forgotten. *)
Example artifact_ids_shared_across_namespaces :
  let ns_b := {| ns_name := "b"; ns_id := 2 |} in
  let i := [Scheduler.ArtifactEvent 3 (Placement.WriteCommitted "1" "pool" 10);
            Scheduler.ArtifactReferenced "1" Scheduler.demo_ns;
            Scheduler.ArtifactReferenced "1" ns_b] in
  let '(e, s) := Scheduler.process (Scheduler.ArtifactReleased "1" ns_b) (Scheduler.run i).2 in
  Scheduler.delete_commands e =
    [{| Scheduler.da_worker_id := 3; Scheduler.da_artifact_id := "1"; Scheduler.da_pool_id := "pool" |}] ∧
  Scheduler.artifact_refs s !! "1" = None.
Proof. by vm_compute. Qed.

(** A worker reports a failed transfer under the id of the source artifact; the
    orchestrator then forgets the intact copy the source worker still has. *)
Example failed_transfer_forgets_source :
  let t := Placement.apply_event 3 (Placement.WriteCommitted "1" "pool" 10) ∅ in
  ∃ w e, Classify.classify 3 (Event.TransferFailed 1 "1" "pool" "9" "other" "refused") =
         Classify.Scheduler (Scheduler.ArtifactEvent w e) ∧
    Placement.copy t "1" 3 = Some (Placement.Ready "pool" 10) ∧
    Placement.copy (Placement.apply_event w e t) "1" 3 = None.
Proof. by do 2 eexists. Qed.

(** Destroying a namespace leaves its leases with the scheduler: the worker keeps
    counting the pods of a namespace that is gone. *)
Example destroyed_namespace_keeps_leases :
  let ns := {| ns_name := "a"; ns_id := 1 |} in
  let s := get_st (process depth
    (FromNamespace ns (ToScheduler (MsgRequestLease ns 5 None))) demo_5.1) in
  let d := (default (inr ShellGone, (new demo_timers ∅, output_default))
              (destroy_namespace depth ns s.1)).2 in
  (ns ∉ namespace_ids d.1) ∧
  leases (Scheduler.granted (scheduler d.1)) 7 = 2 ∧
  WorkerState.pod_count <$> WorkerState.workers (worker_state d.1) !! 7 = Some 2.
Proof.
  split; [|by vm_compute]. apply (bool_decide_unpack _). by vm_compute.
Qed.

End OrchestratorInv.
