(* ===== verification/OrchestratorNet.v ===== *)
(** * Namespaces and their network segments in the orchestrator core

    The part of the core that routing does not touch ([erase]) together with the
    segments of the tracked workers ([segmap]) evolves deterministically with each
    call; [NInv] is its invariant.  The theorem shows that live namespaces have
    distinct names and distinct segment ids, that the ids in use are exactly theirs,
    and that every connected worker has joined exactly their segments. *)

From S2P Require Import Prelude SmTypes IpAlloc Pressure Protocol Scheduler WorkerState.
From S2P Require Import CoreTypes Orchestrator OrchestratorInv.

Module OrchestratorNet.
Import Orchestrator OrchestratorInv.

(** ** What routing leaves alone *)
Abbreviation ws_segments := WorkerState.namespace_segments.

Definition erase (c : OrchestratorCore) : OrchestratorCore :=
  {| c with scheduler := Scheduler.new;
            worker_state := {| WorkerState.workers := ∅;
                               WorkerState.namespace_segments := ws_segments (worker_state c) |} |}.
Definition segmap (ws : WorkerState.WorkerStateCore) : gmap Z (gset Z) :=
  WorkerState.segments <$> WorkerState.workers ws.
Definition view : Type := OrchestratorCore * gmap Z (gset Z).
Definition view_of (c : OrchestratorCore) : view := (erase c, segmap (worker_state c)).

Definition set_ws_segments (f : gmap NamespaceId Z → gmap NamespaceId Z) (e : OrchestratorCore) :
    OrchestratorCore :=
  {| e with worker_state := {| WorkerState.workers := ∅;
                               WorkerState.namespace_segments := f (ws_segments (worker_state e)) |} |}.

(** The effect of a worker event on the view. *)
Definition on_segment (e : OrchestratorCore) (ns : NamespaceId) (w : Z)
    (f : Z → gset Z → gset Z) (m : gmap Z (gset Z)) : gmap Z (gset Z) :=
  match ws_segments (worker_state e) !! ns with Some seg => alter (f seg) w m | None => m end.
Definition event_view (ev : WorkerState.WorkerStateCoreEvent) (v : view) : view :=
  let '(e, m) := v in
  match ev with
  | WorkerState.Connected w _ _ _ _ => (e, <[w := ∅]> m)
  | WorkerState.Disconnected w => (e, delete w m)
  | WorkerState.NamespaceAssigned w ns => (e, on_segment e ns w (λ seg segs, {[seg]} ∪ segs) m)
  | WorkerState.NamespaceUnassigned w ns => (e, on_segment e ns w (λ seg segs, segs ∖ {[seg]}) m)
  | WorkerState.RegisterNamespaceSegment ns seg => (set_ws_segments <[ns := seg]> e, m)
  | WorkerState.UnregisterNamespaceSegment ns => (set_ws_segments (delete ns) e, m)
  | _ => (e, m)
  end.

Section Net.
Context `{!HashIter PodKey} `{!HashIter Z} `{!HashIter string} `{!HashIter NamespaceId}.

Lemma segmap_quiet ws w t t' :
  WorkerState.workers ws !! w = Some t → WorkerState.segments t' = WorkerState.segments t →
  WorkerState.segments <$> <[w := t']> (WorkerState.workers ws) = segmap ws.
Proof.
  intros Hw Hs. unfold segmap. rewrite fmap_insert, Hs. apply insert_id.
  by rewrite lookup_fmap, Hw.
Qed.

Lemma update_worker_view w f ws :
  (∀ t, WorkerState.segments (f t) = WorkerState.segments t) →
  segmap (WorkerState.update_worker w f ws).2 = segmap ws ∧
  ws_segments (WorkerState.update_worker w f ws).2 = ws_segments ws.
Proof.
  intros Hf. unfold WorkerState.update_worker.
  destruct (WorkerState.workers ws !! w) as [t|] eqn:E; simpl; [|done]. split; [|done].
  by apply (segmap_quiet _ _ t).
Qed.

Lemma update_segments_view w ns f ws :
  segmap (WorkerState.update_segments w ns f ws).2 =
    match ws_segments ws !! ns with Some seg => alter (f seg) w (segmap ws) | None => segmap ws end ∧
  ws_segments (WorkerState.update_segments w ns f ws).2 = ws_segments ws.
Proof.
  unfold WorkerState.update_segments.
  destruct (WorkerState.workers ws !! w) as [t|] eqn:E; [|split; [|done]].
  - destruct (ws_segments ws !! ns) as [seg|]; [|done].
    assert (Ha : alter (f seg) w (segmap ws) = <[w := f seg (WorkerState.segments t)]> (segmap ws)).
    { apply map_eq. intros w'. destruct (decide (w' = w)) as [->|].
      - rewrite lookup_alter_eq, lookup_insert_eq. unfold segmap. by rewrite lookup_fmap, E.
      - by rewrite lookup_alter_ne, lookup_insert_ne. }
    rewrite Ha. case_decide as Hd; simpl; split; try done.
    + rewrite Hd. symmetry. apply insert_id. unfold segmap. by rewrite lookup_fmap, E.
    + unfold segmap at 1. simpl. by rewrite fmap_insert.
  - case_match; [|done]. symmetry. apply alter_id. unfold segmap. intros segs. simpl.
    by rewrite lookup_fmap, E.
Qed.

Lemma process_view ev c :
  view_of {| c with worker_state := (WorkerState.process ev (worker_state c)).2 |} =
  event_view ev (view_of c).
Proof.
  assert (Hr : ∀ t, WorkerState.segments (WorkerState.recompute_pressure_from_psi t) = WorkerState.segments t).
  { intros t. unfold WorkerState.recompute_pressure_from_psi. by destruct (WorkerState.psi t). }
  assert (Hq : ∀ ws', segmap ws' = segmap (worker_state c) →
    ws_segments ws' = ws_segments (worker_state c) →
    view_of {| c with worker_state := ws' |} = view_of c).
  { intros ws' H1 H2. unfold view_of, erase. simpl. by rewrite H1, H2. }
  assert (Hs : ∀ w ns f, view_of {| c with worker_state :=
      (WorkerState.update_segments w ns f (worker_state c)).2 |} =
      (erase c, on_segment (erase c) ns w f (segmap (worker_state c)))).
  { intros w ns f. destruct (update_segments_view w ns f (worker_state c)) as [H1 H2].
    unfold view_of, erase. simpl. by rewrite H1, H2. }
  destruct ev as [w cpu mem io|w ps|w k a msg|w caps tn wg pr|w|w ns|w ns|ns seg|ns|w d]; simpl.
  - apply Hq; apply update_worker_view; intros; by rewrite Hr.
  - apply Hq; destruct (WorkerState.workers (worker_state c) !! w) eqn:E; simpl; try done.
    by eapply segmap_quiet.
  - by apply Hq; apply update_worker_view.
  - unfold view_of, erase. simpl. f_equal. unfold segmap. simpl. by rewrite fmap_insert.
  - unfold view_of, erase. simpl. f_equal. unfold segmap. simpl. by rewrite fmap_delete.
  - apply Hs.
  - apply Hs.
  - done.
  - done.
  - apply Hq; apply update_worker_view; intros; by rewrite Hr.
Qed.

(** Routing keeps the view, so a whole [ws_process] changes it as the event does. *)
Lemma bump_view ev c : view_of (bump ev c).2 = event_view ev (view_of c).
Proof.
  rewrite <- process_view. unfold bump.
  destruct (WorkerState.process ev (worker_state c)) as [we ws].
  destruct (WorkerState.scheduler_updates we) as [|u l]; [done|]. cbn [scheduler].
  by destruct (Scheduler.process u (scheduler c)).
Qed.

Lemma route_view v fuel : routed (λ _ _ _ c, view_of c = v) (route_scheduler_effects fuel).
Proof.
  apply route_inv; [|done]. intros d _ _ _ c Hv. rewrite bump_view, Hv.
  by destruct v, d.
Qed.

Lemma ws_process_view fuel ev s s' :
  ws_process (route_scheduler_effects fuel) ev s = Some s' →
  view_of s'.1 = event_view ev (view_of s.1).
Proof.
  intros E. apply (ws_process_inv _ _ _ _ _ [] [] (route_view _ fuel) E). apply bump_view.
Qed.

Lemma sched_process_view fuel i s s' :
  sched_process fuel i s = Some s' → view_of s'.1 = view_of s.1.
Proof.
  destruct s as [c out]. unfold sched_process.
  destruct (Scheduler.process i (scheduler c)) as [se sch]. intros E.
  by apply (route_view (view_of c) fuel _ _ _ [] [] E).
Qed.

(** A loop changes the view by one step for each element. *)
Lemma for_each_view {A} (g : A → view → view) (f : A → st → option st) l s s' :
  (∀ x s s', f x s = Some s' → view_of s'.1 = g x (view_of s.1)) →
  for_each f l s = Some s' → view_of s'.1 = foldl (λ v x, g x v) (view_of s.1) l.
Proof.
  intros Hf. revert s. induction l as [|x l IH]; intros s E; simpl in E; [by simplify_eq|].
  destruct (f x s) as [s1|] eqn:E1; simpl in E; [|done].
  rewrite (IH _ E). simpl. by rewrite (Hf _ _ _ E1).
Qed.

(** ** The invariant *)
(** The segment ids in use. *)
Definition in_use (m : gmap NamespaceId Z) (seg : Z) : Prop := ∃ ns, m !! ns = Some seg.

Record NInv (v : view) : Prop := {
  n_segments : dom (namespace_segments v.1) = namespace_ids v.1;
  n_networks : dom (namespace_networks v.1) = namespace_ids v.1;
  n_names : ∀ name ns, namespace_names v.1 !! name = Some ns ↔
    ns ∈ namespace_ids v.1 ∧ ns_name ns = name;
  n_active : ∀ seg, seg ∈ active_segment_ids v.1 ↔ in_use (namespace_segments v.1) seg;
  n_range : ∀ seg, in_use (namespace_segments v.1) seg → 1 ≤ seg ≤ 65535;
  n_inj : ∀ ns ns' seg, namespace_segments v.1 !! ns = Some seg →
    namespace_segments v.1 !! ns' = Some seg → ns = ns';
  n_config : ∀ ns net, namespace_networks v.1 !! ns = Some net →
    nc_segment_id net = namespace_segments v.1 !! ns;
  n_next : u16 (next_segment_id v.1);
  n_registered : ws_segments (worker_state v.1) = namespace_segments v.1;
  n_connected : dom (connected_workers v.1) = dom v.2;
  n_joined : ∀ w segs, v.2 !! w = Some segs →
    ∀ seg, seg ∈ segs ↔ in_use (namespace_segments v.1) seg;
}.

(** Joining and leaving the segment of a namespace. *)
Definition join (seg : Z) (segs : gset Z) : gset Z := {[seg]} ∪ segs.
Definition leave (seg : Z) (segs : gset Z) : gset Z := segs ∖ {[seg]}.
Definition touch (f : Z → gset Z → gset Z) (ns : NamespaceId) (w : Z) (v : view) : view :=
  (v.1, on_segment v.1 ns w f v.2).

Lemma touch_event w ns v :
  event_view (WorkerState.NamespaceAssigned w ns) v = touch join ns w v ∧
  event_view (WorkerState.NamespaceUnassigned w ns) v = touch leave ns w v.
Proof. by destruct v. Qed.

(** Assigning a list of namespaces to a worker, and a namespace to a list of workers. *)
Lemma assign_all w l e m :
  let v := foldl (λ v ns, touch join ns w v) (e, m) l in
  v.1 = e ∧ dom v.2 = dom m ∧
  ∀ w' segs', v.2 !! w' = Some segs' → ∃ segs, m !! w' = Some segs ∧
    ∀ seg, seg ∈ segs' ↔ seg ∈ segs ∨ w' = w ∧ ∃ ns, ns ∈ l ∧ ws_segments (worker_state e) !! ns = Some seg.
Proof.
  revert m. induction l as [|ns l IH]; intros m; cbn [foldl].
  { split_and!; [done|done|]. intros w' segs' Hw'. exists segs'. split; [done|]. set_solver. }
  change (touch join ns w (e, m)) with (e, on_segment e ns w join m). unfold on_segment.
  destruct (ws_segments (worker_state e) !! ns) as [sg|] eqn:Eg.
  - destruct (IH (alter (join sg) w m)) as (H1 & H2 & H3).
    split_and!; [done|by rewrite H2, dom_alter_L|]. intros w' segs' Hw'.
    destruct (H3 _ _ Hw') as (segs & Hs & Hseg). destruct (decide (w' = w)) as [->|].
    + rewrite lookup_alter_eq in Hs. destruct (m !! w) as [s0|] eqn:E0; simpl in Hs; [|done].
      simplify_eq. exists s0. split; [done|]. intros seg. rewrite Hseg. unfold join. set_solver.
    + rewrite lookup_alter_ne in Hs by done. exists segs. split; [done|]. intros seg.
      rewrite Hseg. naive_solver.
  - destruct (IH m) as (H1 & H2 & H3). split_and!; [done|done|]. intros w' segs' Hw'.
    destruct (H3 _ _ Hw') as (segs & Hs & Hseg). exists segs. split; [done|]. intros seg.
    rewrite Hseg. set_solver.
Qed.

Lemma touch_all f ns seg l e m :
  NoDup l → ws_segments (worker_state e) !! ns = Some seg →
  let v := foldl (λ v w, touch f ns w v) (e, m) l in
  v.1 = e ∧ dom v.2 = dom m ∧
  ∀ w segs', v.2 !! w = Some segs' → ∃ segs, m !! w = Some segs ∧
    segs' = if decide (w ∈ l) then f seg segs else segs.
Proof.
  intros Hnd Hseg. revert m. induction Hnd as [|w l Hw Hnd IH]; intros m; cbn [foldl].
  { split_and!; [done|done|]. intros w segs' Hs. exists segs'. split; [done|].
    rewrite decide_False; [done|]. set_solver. }
  change (touch f ns w (e, m)) with (e, on_segment e ns w f m). unfold on_segment. rewrite Hseg.
  destruct (IH (alter (f seg) w m)) as (H1 & H2 & H3).
  split_and!; [done|by rewrite H2, dom_alter_L|]. intros w' segs' Hw'.
  destruct (H3 _ _ Hw') as (segs & Hs & ->). destruct (decide (w' = w)) as [->|].
  - rewrite lookup_alter_eq in Hs. destruct (m !! w) as [s0|] eqn:E0; simpl in Hs; [|done].
    simplify_eq. exists s0. split; [done|]. rewrite decide_False by done.
    rewrite decide_True; [done|]. set_solver.
  - rewrite lookup_alter_ne in Hs by done. exists segs. split; [done|].
    repeat case_decide; try done; set_solver.
Qed.

Lemma unassign_absent w l e m :
  m !! w = None →
  foldl (λ v ns, touch leave ns w v) (e, m) l = (e, m).
Proof.
  intros Hw. induction l as [|ns l IH]; [done|]. cbn [foldl].
  change (touch leave ns w (e, m)) with (e, on_segment e ns w leave m). unfold on_segment.
  destruct (ws_segments (worker_state e) !! ns); [|done]. by rewrite alter_id'.
Qed.

Lemma elem_of_ns_ids c ns : ns ∈ ns_id_list c ↔ ns ∈ namespace_ids c.
Proof.
  unfold ns_id_list. rewrite list_elem_of_fmap. split.
  - intros ([k []] & -> & Hin%elem_of_hash_iter). by apply lookup_gset_to_gmap_Some in Hin as [? _].
  - intros Hin. exists (ns, ()). split; [done|]. apply elem_of_hash_iter.
    by apply lookup_gset_to_gmap_Some.
Qed.

(** ** Preservation *)
Lemma NInv_new tc reg : NInv (view_of (new tc reg)).
Proof.
  split; simpl; try set_solver.
  - intros seg. split; [set_solver|]. intros [ns Hns]. by rewrite lookup_empty in Hns.
  - intros seg [ns Hns]. by rewrite lookup_empty in Hns.
  - unfold u16. lia.
Qed.

Lemma NInv_connect e m w info :
  NInv (e, m) →
  let e' := {| e with connected_workers := <[w := info]> (connected_workers e) |} in
  ∀ l, (∀ ns, ns ∈ l ↔ ns ∈ namespace_ids e) →
  NInv (foldl (λ v ns, touch join ns w v) (e', <[w := ∅]> m) l).
Proof.
  intros HI e' l Hl. destruct (assign_all w l e' (<[w := ∅]> m)) as (H1 & H2 & H3).
  destruct (foldl _ _ _) as [e1 m1]. cbn [fst snd] in *. subst e1.
  destruct HI as [Hs Hn Hnm Ha Hr Hi Hc Hx Hreg Hcon Hj]. split; try done; cbn [fst snd] in *.
  - simpl. rewrite H2, !dom_insert_L, Hcon. done.
  - intros w' segs' Hw' seg. destruct (H3 _ _ Hw') as (segs & Hsg & ->). simpl.
    destruct (decide (w' = w)) as [->|].
    + rewrite lookup_insert_eq in Hsg. simplify_eq. rewrite Hreg. split.
      * intros [?%elem_of_empty|(_ & ns & _ & Hns)]; [done|by exists ns].
      * intros [ns Hns]. right. split; [done|]. exists ns. split; [|done].
        rewrite Hl, <- Hs. by apply elem_of_dom_2 in Hns.
    + rewrite lookup_insert_ne in Hsg by done. rewrite (Hj _ _ Hsg). naive_solver.
Qed.

Lemma NInv_disconnect e m w :
  NInv (e, m) →
  NInv ({| e with connected_workers := delete w (connected_workers e) |}, delete w m).
Proof.
  intros [Hs Hn Hnm Ha Hr Hi Hc Hx Hreg Hcon Hj]. split; try done; cbn [fst snd] in *.
  - simpl. by rewrite !dom_delete_L, Hcon.
  - intros w' segs [_ Hw']%lookup_delete_Some. exact (Hj _ _ Hw').
Qed.

Lemma in_use_insert m ns seg s :
  m !! ns = None → in_use (<[ns := seg]> m) s ↔ s = seg ∨ in_use m s.
Proof.
  intros Hns. split.
  - intros [ns' [[-> ->]|[_ Hl]]%lookup_insert_Some]; [by left|right; by exists ns'].
  - intros [->|[ns' Hl]]; [exists ns; apply lookup_insert_eq|]. exists ns'.
    rewrite lookup_insert_ne; [done|]. congruence.
Qed.

Lemma in_use_delete m ns seg s :
  (∀ ns ns' seg, m !! ns = Some seg → m !! ns' = Some seg → ns = ns') → m !! ns = Some seg →
  in_use (delete ns m) s ↔ in_use m s ∧ s ≠ seg.
Proof.
  intros Hi Hns. split.
  - intros [ns' [Hne Hl]%lookup_delete_Some]. split; [by exists ns'|]. intros ->.
    by destruct Hne; apply (Hi _ _ seg).
  - intros [[ns' Hl] Hne]. exists ns'. rewrite lookup_delete_ne; [done|]. congruence.
Qed.

(** The core with a new namespace entered, its segment registered. *)
Definition with_namespace (e : OrchestratorCore) (ns : NamespaceId) (seg next nid : Z)
    (net : NetworkConfig) (reg : IdRegistry.IdRegistryMap) : OrchestratorCore :=
  set_ws_segments <[ns := seg]>
    {| e with next_namespace_id := nid; next_segment_id := next;
       active_segment_ids := {[seg]} ∪ active_segment_ids e;
       namespace_segments := <[ns := seg]> (namespace_segments e);
       namespace_networks := <[ns := net]> (namespace_networks e);
       namespace_ids := {[ns]} ∪ namespace_ids e;
       namespace_names := <[ns_name ns := ns]> (namespace_names e);
       id_registry_map := reg |}.

Lemma NInv_create e m ns seg next nid net reg l :
  NInv (e, m) → namespace_names e !! ns_name ns = None → segment_free e seg → u16 next →
  nc_segment_id net = Some seg →
  NoDup l → (∀ w, w ∈ l ↔ w ∈ dom (connected_workers e)) →
  NInv (foldl (λ v w, touch join ns w v) (with_namespace e ns seg next nid net reg, m) l).
Proof.
  intros [Hs Hn Hnm Ha Hr Hi Hc Hx Hreg Hcon Hj] Hname [Hrange Hfree] Hnext Hnet Hnd Hl.
  cbn [fst snd] in *. set (e' := with_namespace e ns seg next nid net reg).
  assert (Hids : ns ∉ namespace_ids e).
  { intros Hin. assert (namespace_names e !! ns_name ns = Some ns) by by apply Hnm. congruence. }
  assert (Hnone : namespace_segments e !! ns = None) by (apply not_elem_of_dom; by rewrite Hs).
  assert (Hunused : ¬ in_use (namespace_segments e) seg) by by rewrite <- Ha.
  assert (Hws : ws_segments (worker_state e') !! ns = Some seg) by apply lookup_insert_eq.
  destruct (touch_all join ns seg l e' m Hnd Hws) as (H1 & H2 & H3).
  destruct (foldl _ _ _) as [e1 m1]. cbn [fst snd] in *. subst e1. split; cbn [fst snd]; simpl.
  - by rewrite dom_insert_L, Hs.
  - by rewrite dom_insert_L, Hn.
  - intros name ns'. destruct (decide (name = ns_name ns)) as [->|Hne].
    + rewrite lookup_insert_eq. split; [intros [= <-]; set_solver|]. intros [Hin Heq].
      apply elem_of_union in Hin as [->%elem_of_singleton|Hin]; [done|].
      assert (namespace_names e !! ns_name ns = Some ns') by by apply Hnm. congruence.
    + rewrite lookup_insert_ne by done. rewrite Hnm. set_solver.
  - intros s'. rewrite in_use_insert by done. rewrite <- Ha. set_solver.
  - intros s'. rewrite in_use_insert by done. intros [->|?]; [done|by apply Hr].
  - intros n1 n2 s' [[<- <-]|[Hn1 Hl1]]%lookup_insert_Some [[<- E2]|[Hn2 Hl2]]%lookup_insert_Some;
      try done; try (destruct Hunused; subst; eexists; done). by apply (Hi _ _ s').
  - intros n' net' [[<- <-]|[Hne Hl']]%lookup_insert_Some.
    + by rewrite lookup_insert_eq.
    + rewrite lookup_insert_ne by done. by apply Hc.
  - done.
  - by rewrite Hreg.
  - by rewrite H2.
  - intros w segs' Hw' s'. destruct (H3 _ _ Hw') as (segs & Hsg & ->).
    rewrite decide_True by (rewrite Hl, Hcon; by apply elem_of_dom_2 in Hsg).
    rewrite in_use_insert by done. rewrite <- (Hj _ _ Hsg). unfold join. set_solver.
Qed.

(** The core with a namespace removed, before its segment is unregistered. *)
Definition without_namespace (e : OrchestratorCore) (ns : NamespaceId) (seg : Z) : OrchestratorCore :=
  {| e with namespace_ids := namespace_ids e ∖ {[ns]};
     namespace_names := delete (ns_name ns) (namespace_names e);
     namespace_segments := delete ns (namespace_segments e);
     active_segment_ids := active_segment_ids e ∖ {[seg]};
     namespace_networks := delete ns (namespace_networks e) |}.

Lemma NInv_destroy e m ns seg l :
  NInv (e, m) → namespace_segments e !! ns = Some seg →
  NoDup l → (∀ w, w ∈ l ↔ w ∈ dom (connected_workers e)) →
  let v := foldl (λ v w, touch leave ns w v) (without_namespace e ns seg, m) l in
  NInv (set_ws_segments (delete ns) v.1, v.2).
Proof.
  intros [Hs Hn Hnm Ha Hr Hi Hc Hx Hreg Hcon Hj] Hns Hnd Hl. cbn [fst snd] in *.
  set (e' := without_namespace e ns seg).
  assert (Hws : ws_segments (worker_state e') !! ns = Some seg) by (simpl; by rewrite Hreg).
  assert (Hin : ns ∈ namespace_ids e) by (rewrite <- Hs; by apply elem_of_dom_2 in Hns).
  destruct (touch_all leave ns seg l e' m Hnd Hws) as (H1 & H2 & H3).
  destruct (foldl _ _ _) as [e1 m1]. cbn [fst snd] in *. subst e1. split; cbn [fst snd]; simpl.
  - by rewrite dom_delete_L, Hs.
  - by rewrite dom_delete_L, Hn.
  - intros name ns'. rewrite lookup_delete_Some, Hnm. split; [set_solver|].
    intros [Hi' <-]. apply elem_of_difference in Hi' as [Hi' Hne]. split_and!; try done.
    intros Heq. assert (namespace_names e !! ns_name ns = Some ns) as E1 by by apply Hnm.
    assert (namespace_names e !! ns_name ns = Some ns') as E2 by by apply Hnm. set_solver.
  - intros s'. rewrite (in_use_delete _ _ _ _ Hi Hns), <- Ha. set_solver.
  - intros s' [Hu _]%(in_use_delete _ _ _ _ Hi Hns). by apply Hr.
  - intros n1 n2 s' [_ Hl1]%lookup_delete_Some [_ Hl2]%lookup_delete_Some. by apply (Hi _ _ s').
  - intros n' net' [Hne Hl']%lookup_delete_Some. rewrite lookup_delete_ne by done. by apply Hc.
  - done.
  - by rewrite Hreg.
  - by rewrite H2.
  - intros w segs' Hw' s'. destruct (H3 _ _ Hw') as (segs & Hsg & ->).
    rewrite decide_True by (rewrite Hl, Hcon; by apply elem_of_dom_2 in Hsg).
    rewrite (in_use_delete _ _ _ _ Hi Hns), <- (Hj _ _ Hsg). unfold leave. set_solver.
Qed.

(** *** Calls *)
Lemma classified_view w ev e v :
  Classify.classify w ev = Classify.WorkerState e → event_view e v = v.
Proof. destruct v, ev; simpl; intros; simplify_eq; done. Qed.

Lemma connect_net fuel info c s :
  NInv (view_of c) → worker_connected fuel info c = Some s → NInv (view_of s.1).
Proof.
  intros HI E. unfold worker_connected in E.
  destruct (ws_process _ (WorkerState.Connected _ _ _ _ _) _) as [s1|] eqn:E1; simpl in E; [|done].
  apply ws_process_view in E1. eapply (for_each_view (λ ns v, touch join ns _ v)) in E.
  2: { intros ns [c1 o1] s2 E2%ws_process_view. rewrite E2. by rewrite (proj1 (touch_event _ _ _)). }
  rewrite E, E1. cbn [fst]. apply (NInv_connect (erase c) (segmap (worker_state c)) _ _ HI).
  intros ns. rewrite elem_of_ns_ids. change (namespace_ids s1.1) with (namespace_ids (view_of s1.1).1).
  by rewrite E1.
Qed.

Lemma disconnect_net fuel w c s :
  NInv (view_of c) → worker_disconnected fuel w c = Some s → NInv (view_of s.1).
Proof.
  intros HI E. unfold worker_disconnected in E.
  destruct (ws_process _ (WorkerState.Disconnected _) _) as [s1|] eqn:E1; simpl in E; [|done].
  apply ws_process_view in E1. eapply (for_each_view (λ ns v, touch leave ns w v)) in E.
  2: { intros ns [c1 o1] s2 E2%ws_process_view. rewrite E2. by rewrite (proj2 (touch_event _ _ _)). }
  rewrite E, E1. cbn [fst]. unfold view_of at 1. cbn [event_view].
  rewrite unassign_absent by apply lookup_delete_eq.
  apply (NInv_disconnect (erase c) (segmap (worker_state c)) _ HI).
Qed.

Lemma connected_ids c :
  NoDup (hash_iter (connected_workers c)).*1 ∧
  ∀ w, w ∈ (hash_iter (connected_workers c)).*1 ↔ w ∈ dom (connected_workers c).
Proof.
  split; [apply NoDup_fst_hash_iter|]. intros w. rewrite list_elem_of_fmap, elem_of_dom. split.
  - intros ([k i] & -> & Hin%elem_of_hash_iter). eauto.
  - intros [i Hi]. exists (w, i). split; [done|]. by apply elem_of_hash_iter.
Qed.

Lemma foldl_summaries c ns v :
  foldl (λ v su, touch join ns (cws_worker_id su) v) v (summaries c) =
  foldl (λ v w, touch join ns w v) v (hash_iter (connected_workers c)).*1.
Proof. unfold summaries. by rewrite !foldl_fmap. Qed.

Lemma create_net fuel info c r s :
  NInv (view_of c) → create_namespace fuel segment_fuel info c = Some (r, s) → NInv (view_of s.1).
Proof.
  intros HI E. unfold create_namespace in E.
  destruct (is_some _) eqn:En; [by simplify_eq|]. apply is_some_false in En.
  destruct (alloc_segment_id _ _) as [[seg c1]|] eqn:Ea; cbn [mbind option_bind] in E; [|done].
  destruct (ws_process _ (WorkerState.RegisterNamespaceSegment _ _) _) as [[c2 o2]|] eqn:E1;
    cbn [mbind option_bind] in E; [|done].
  destruct (IdRegistry.get_or_create _ _) as [reg m].
  destruct (for_each _ _ _) as [[c3 o3]|] eqn:E3; cbn [mbind option_bind] in E; [|done].
  apply (inj Some) in E as [= _ <-]. cbn [fst].
  apply alloc_segment_id_spec in Ea as (Hfree & next & Hnext & ->); [|apply (n_next _ HI)].
  set (ns := {| ns_name := cni_namespace_name info; ns_id := next_namespace_id c |}) in *.
  apply ws_process_view in E1. cbn [fst] in E1.
  eapply (for_each_view (λ su v, touch join ns (cws_worker_id su) v)) in E3.
  2: { intros su [c4 o4] s5 E5%ws_process_view. rewrite E5. by rewrite (proj1 (touch_event _ _ _)). }
  cbn [fst] in E3. rewrite E3, foldl_summaries.
  destruct (connected_ids c2) as [Hnd Hin]. cbn [connected_workers].
  assert (Hv : view_of {| c2 with id_registry_map := m |} =
    (with_namespace (erase c) ns seg next (u64_add (next_namespace_id c) 1)
       (let n := cni_network info in {| n with nc_segment_id := Some seg |}) m, segmap (worker_state c))).
  { pose proof (f_equal fst E1) as H1. pose proof (f_equal snd E1) as H2. cbn [fst snd view_of] in H1, H2.
    change (view_of {| c2 with id_registry_map := m |}) with
      (let e := erase c2 in {| e with id_registry_map := m |}, segmap (worker_state c2)).
    rewrite H1. f_equal. exact H2. }
  rewrite Hv. apply NInv_create; try done.
  intros w. rewrite Hin. change (connected_workers c2) with (connected_workers (view_of c2).1).
  by rewrite E1.
Qed.

Lemma destroy_net fuel ns c r s :
  NInv (view_of c) → destroy_namespace fuel ns c = Some (r, s) → NInv (view_of s.1).
Proof.
  intros HI E. unfold destroy_namespace in E. case_decide as Hns; [by simplify_eq|].
  assert (Hin : ns ∈ namespace_ids c) by (by destruct (decide (ns ∈ namespace_ids c))).
  destruct (namespace_segments c !! ns) as [seg|] eqn:Es.
  2: { apply not_elem_of_dom in Es. pose proof (n_segments _ HI) as Hd. simpl in Hd. set_solver. }
  simpl in E. rewrite Es in E.
  destruct (for_each _ _ _) as [s1|] eqn:E1; cbn [mbind option_bind] in E; [|done].
  destruct (ws_process _ (WorkerState.UnregisterNamespaceSegment _) s1) as [s2|] eqn:E2;
    cbn [mbind option_bind] in E; [|done]. apply (inj Some) in E as [= _ <-].
  apply ws_process_view in E2.
  eapply (for_each_view (λ w v, touch leave ns w v)) in E1.
  2: { intros w s3 s4 E4%ws_process_view. rewrite E4. by rewrite (proj2 (touch_event _ _ _)). }
  destruct (connected_ids c) as [Hnd Hl]. rewrite E2.
  pose proof (NInv_destroy (erase c) (segmap (worker_state c)) ns seg _ HI Es Hnd Hl) as Hfin.
  cbv zeta in Hfin.
  change (view_of s1.1 = foldl (λ v w, touch leave ns w v)
    (without_namespace (erase c) ns seg, segmap (worker_state c)) (hash_iter (connected_workers c)).*1) in E1.
  rewrite <- E1 in Hfin. by destruct (view_of s1.1).
Qed.

Lemma shell_step_net c s : shell_step c s → NInv (view_of c) → NInv (view_of s.1).
Proof.
  intros Hst HI. destruct Hst as [w ev e s He E|w ev i s He E|ns msg s Ha E|info s Hw Hl E|w s E
    |info r s E|ns r s E].
  - rewrite (ws_process_view _ _ _ _ E). cbn [fst]. by rewrite (classified_view _ _ _ _ He).
  - by rewrite (sched_process_view _ _ _ _ E).
  - by rewrite (sched_process_view _ _ _ _ E).
  - by eapply connect_net.
  - by eapply disconnect_net.
  - by eapply create_net.
  - by eapply destroy_net.
Qed.

Lemma reach_net c told : reach c told → NInv (view_of c).
Proof.
  induction 1 as [tc reg|c told c' out Hr IH Hst]; [apply NInv_new|].
  exact (shell_step_net c (c', out) Hst IH).
Qed.


End Net.


End OrchestratorNet.
