(* ===== verification/Specs.v ===== *)
(** * Namespace specs ([crates/orchestrator/src/types/specs.rs])

    What a client asks for (before addresses are assigned) and what the namespace
    keeps (with addresses).  A [BTreeMap] is a finite map that is visited in key
    order; a [String] is ordered by its bytes. *)

From S2P Require Import Prelude SmTypes IpAlloc Protocol.
From Stdlib Require Import String.

(** ** Maps visited in the order of their names *)
Definition str_le {V} (p q : string * V) : Prop := String.leb p.1 q.1 = true.
#[global] Instance str_le_dec {V} : RelDecision (@str_le V).
Proof. intros p q. unfold str_le. apply _. Defined.
Definition names_iter {V} (m : gmap string V) : list (string * V) :=
  merge_sort str_le (map_to_list m).

Lemma elem_of_names_iter {V} (m : gmap string V) n v :
  (n, v) ∈ names_iter m ↔ m !! n = Some v.
Proof. unfold names_iter. rewrite merge_sort_Permutation. apply elem_of_map_to_list. Qed.

Lemma elem_of_names {V} (m : gmap string V) n : n ∈ (names_iter m).*1 ↔ n ∈ dom m.
Proof.
  rewrite list_elem_of_fmap, elem_of_dom. split.
  - intros ([k v] & -> & Hin%elem_of_names_iter). eauto.
  - intros [v Hv]. exists (n, v). split; [done|]. by apply elem_of_names_iter.
Qed.

Lemma NoDup_names_iter {V} (m : gmap string V) : NoDup (names_iter m).*1.
Proof. unfold names_iter. rewrite merge_sort_Permutation. apply NoDup_fst_map_to_list. Qed.

Module Spec.

Record ResourceValues := { memory_mib : Z; vcpus : Z }.
Record ResourceRequirements := { requests : option ResourceValues; limits : option ResourceValues }.
Inductive ActivatorKind := Tcp (max_flows : Z) | Http2.
Record PortConfig := { port : Z; target_port : Z; activator : option ActivatorKind }.

(** ** Before addresses are assigned *)
Record WorkloadSpecInput := {
  wi_explicit_ip : option Ipv4Addr; wi_containers : list ContainerSpec; wi_suspend_on_idle : bool;
  wi_resources : option ResourceRequirements; wi_activation : option ActivationSpec;
  wi_run_policy : RunPolicy; wi_respects_demand : bool; wi_volumes : list VolumeSpec;
  wi_labels : gmap string string }.
Record ServiceSpecInput := {
  si_workload_id : string; si_explicit_ip : option Ipv4Addr; si_ports : list PortConfig;
  si_has_activation : bool; si_idle_timeout : Duration; si_buffer_frames : Z;
  si_buffer_timeout_ms : Z; si_labels : gmap string string }.
Record NamespaceSpecInput := {
  ni_network : NetworkConfig; ni_workloads : gmap string WorkloadSpecInput;
  ni_services : gmap string ServiceSpecInput }.
Record NamespacePatchInput := {
  pi_workloads : gmap string WorkloadSpecInput; pi_services : gmap string ServiceSpecInput;
  pi_remove_workloads : list string; pi_remove_services : list string }.

(** ** After addresses are assigned *)
Record WorkloadSpec := {
  w_containers : list ContainerSpec; w_network : PodNetworkConfig; w_suspend_on_idle : bool;
  w_resources : option ResourceRequirements; w_activation : option ActivationSpec;
  w_run_policy : RunPolicy; w_respects_demand : bool; w_volumes : list VolumeSpec;
  w_labels : gmap string string }.
Record ServiceSpec := {
  s_workload_id : string; s_ip : Ipv4Addr; s_ports : list PortConfig; s_has_activation : bool;
  s_idle_timeout : Duration; s_buffer_frames : Z; s_buffer_timeout_ms : Z;
  s_labels : gmap string string }.
Record NamespaceSpec := {
  n_network : NetworkConfig; n_workloads : gmap string WorkloadSpec;
  n_services : gmap string ServiceSpec }.
Record NamespacePatch := {
  p_workloads : gmap string WorkloadSpec; p_services : gmap string ServiceSpec;
  p_remove_workloads : list string; p_remove_services : list string }.

(** The specs of a client that leaves every address to the orchestrator. *)
Definition workload_input (wl : WorkloadSpec) : WorkloadSpecInput :=
  {| wi_explicit_ip := None; wi_containers := w_containers wl;
     wi_suspend_on_idle := w_suspend_on_idle wl; wi_resources := w_resources wl;
     wi_activation := w_activation wl; wi_run_policy := w_run_policy wl;
     wi_respects_demand := w_respects_demand wl; wi_volumes := w_volumes wl;
     wi_labels := w_labels wl |}.
Definition service_input (svc : ServiceSpec) : ServiceSpecInput :=
  {| si_workload_id := s_workload_id svc; si_explicit_ip := None; si_ports := s_ports svc;
     si_has_activation := s_has_activation svc; si_idle_timeout := s_idle_timeout svc;
     si_buffer_frames := s_buffer_frames svc; si_buffer_timeout_ms := s_buffer_timeout_ms svc;
     si_labels := s_labels svc |}.
Definition spec_from_resolved (spec : NamespaceSpec) : NamespaceSpecInput :=
  {| ni_network := n_network spec; ni_workloads := workload_input <$> n_workloads spec;
     ni_services := service_input <$> n_services spec |}.
Definition patch_from_resolved (patch : NamespacePatch) : NamespacePatchInput :=
  {| pi_workloads := workload_input <$> p_workloads patch;
     pi_services := service_input <$> p_services patch;
     pi_remove_workloads := p_remove_workloads patch;
     pi_remove_services := p_remove_services patch |}.

End Spec.
