(* ===== verification/Adapters.v ===== *)
(** * Adapters between the signal router and the outside
      ([crates/orchestrator/src/adapter/*/mod.rs])

    Each adapter drains the inputs the router collected for one port and turns them
    into actions.  Most of them only replay what an [IncrementalAggregator] found to
    have changed; [Replay] proves once that such a replay reproduces the signals that
    were published, and the adapters are instances of it.  The DNS registry is keyed
    by name rather than by source: its theorem states when the orchestrator's cache
    and the registries of the workers agree, an example shows when they do not.  The
    adapters that write to the router are modelled over the operations of the
    generated router ([RouterOps]). *)

From S2P Require Import Prelude SmTypes Endpoint Timers Protocol Scheduler CoreTypes.

(** ** What a diff reports *)
Module Replay.

Section Diff.
Context {V Inp Out : Type} `{EqDecision V} `{IncrementalAggregator Inp Out}.
Context (mk : Z → V → Inp).
Implicit Types cur prev : gmap Z V.

Definition arrive prev (p : Z * V) : option Out :=
  match prev !! p.1 with
  | None => added (mk p.1 p.2)
  | Some old => if decide (old ≠ p.2) then changed (mk p.1 old) (mk p.1 p.2) else None
  end.
Definition depart cur (p : Z * V) : option Out :=
  if is_none (cur !! p.1) then removed (mk p.1 p.2) else None.

Lemma foldl_push {A} (f : A → option Out) (F : list Out → A → list Out) l outs :
  (∀ outs p, F outs p = push outs (f p)) → foldl F outs l = outs ++ omap f l.
Proof.
  intros HF. revert outs. induction l as [|p l IH]; intros outs; simpl; [by rewrite app_nil_r|].
  rewrite IH, HF. unfold push. destruct (f p); simpl; [|done]. by rewrite <- (assoc_L (++)).
Qed.

Lemma diff_outputs cur prev outs :
  incremental_diff mk cur prev outs =
  outs ++ omap (arrive prev) (btree_iter cur) ++ omap (depart cur) (btree_iter prev).
Proof.
  unfold incremental_diff. rewrite (foldl_push (depart cur))
    by (intros outs' p; unfold depart; by destruct (is_none _)).
  rewrite (foldl_push (arrive prev)); [by rewrite <- (assoc_L (++))|].
  intros outs' p. unfold arrive. destruct (prev !! p.1); [|done]. by case_decide.
Qed.

Lemma diff_app cur prev outs :
  incremental_diff mk cur prev outs = outs ++ incremental_diff mk cur prev [].
Proof. by rewrite !diff_outputs. Qed.

Lemma elem_of_diff cur prev o :
  o ∈ incremental_diff mk cur prev [] ↔
  (∃ i v, cur !! i = Some v ∧ arrive prev (i, v) = Some o) ∨
  (∃ i v, prev !! i = Some v ∧ cur !! i = None ∧ removed (mk i v) = Some o).
Proof.
  rewrite diff_outputs. simpl. rewrite elem_of_app, !list_elem_of_omap. split.
  - intros [([i v] & Hin%elem_of_btree_iter & Ho)|([i v] & Hin%elem_of_btree_iter & Ho)]; [left; eauto|].
    right. exists i, v. unfold depart, is_none in Ho. simpl in Ho.
    destruct (cur !! i); simpl in Ho; done.
  - intros [(i & v & Hc & Ho)|(i & v & Hp & Hc & Ho)]; [left|right]; exists (i, v).
    + by rewrite elem_of_btree_iter.
    + rewrite elem_of_btree_iter. split; [done|]. unfold depart. simpl. by rewrite Hc.
Qed.

(** Outputs that mean nothing to a state leave it alone. *)
Lemma replay_neutral {S} (step : S → Out → S) cur prev s :
  (∀ i v o s, added (mk i v) = Some o → step s o = s) →
  (∀ i v v' o s, changed (mk i v) (mk i v') = Some o → step s o = s) →
  (∀ i v o s, removed (mk i v) = Some o → step s o = s) →
  foldl step s (incremental_diff mk cur prev []) = s.
Proof.
  intros Ha Hc Hr.
  assert (Hq : ∀ l, (∀ o, o ∈ l → ∀ s, step s o = s) → foldl step s l = s).
  { induction l as [|o l IH]; intros Hl; simpl; [done|]. rewrite Hl by set_solver. apply IH.
    intros. apply Hl. set_solver. }
  apply Hq. intros o Ho s'. apply elem_of_diff in Ho as [(i & v & _ & Ho)|(i & v & _ & _ & Ho)];
    [|by eapply Hr]. unfold arrive in Ho. simpl in Ho. destruct (prev !! i) as [old|]; [|by eapply Ha].
  case_decide; [by eapply Hc|done].
Qed.

(** *** Replaying the outputs onto a map keyed by source *)
Section Keyed.
Context {W : Type} (step : gmap Z W → Out → gmap Z W) (f : V → option W).

Definition step_opt (m : gmap Z W) (o : option Out) : gmap Z W :=
  match o with Some o => step m o | None => m end.

(** The three methods have the effect of their name on the entry of the source. *)
Class Tracks : Prop := {
  track_added i v m : m !! i = None → step_opt m (added (mk i v)) = partial_alter (λ _, f v) i m;
  track_changed i v v' m :
    v ≠ v' → m !! i = f v → step_opt m (changed (mk i v) (mk i v')) = partial_alter (λ _, f v') i m;
  track_removed i v m : m !! i = f v → step_opt m (removed (mk i v)) = delete i m;
}.

Lemma foldl_omap (h : Z * V → option Out) l m :
  foldl step m (omap h l) = foldl (λ m p, step_opt m (h p)) m l.
Proof.
  revert m. induction l as [|p l IH]; intros m; simpl; [done|].
  destruct (h p); simpl; apply IH.
Qed.

Lemma fold_keyed (h : Z * V → option Out) (g : Z * V → option W) l m :
  NoDup l.*1 →
  (∀ p m', p ∈ l → m' !! p.1 = m !! p.1 → step_opt m' (h p) = partial_alter (λ _, g p) p.1 m') →
  (∀ i v, (i, v) ∈ l → foldl (λ m p, step_opt m (h p)) m l !! i = g (i, v)) ∧
  (∀ i, i ∉ l.*1 → foldl (λ m p, step_opt m (h p)) m l !! i = m !! i).
Proof.
  revert m. induction l as [|p l IH]; intros m Hnd Hh; cbn [foldl].
  { split; [by intros i v ?%elem_of_nil|done]. }
  apply NoDup_cons in Hnd as [Hp Hnd]. rewrite (Hh p m); [|set_solver|done].
  destruct (IH (partial_alter (λ _, g p) p.1 m) Hnd) as [H1 H2].
  { intros q m' Hq Hm'. apply Hh; [set_solver|]. rewrite Hm', lookup_partial_alter_ne; [done|].
    intros E. apply Hp. rewrite E. by apply list_elem_of_fmap_2. }
  split.
  - intros i v [<-|Hq]%elem_of_cons; [|by apply H1]. cbn [fst] in *. rewrite H2 by done.
    by rewrite lookup_partial_alter_eq.
  - intros i Hi. rewrite H2 by set_solver. rewrite lookup_partial_alter_ne; [done|]. set_solver.
Qed.

(** Replaying the diff of two signal maps turns the view of the old one into the view
    of the new one. *)
Lemma replay_diff `{!Tracks} cur prev :
  foldl step (omap f prev) (incremental_diff mk cur prev []) = omap f cur.
Proof.
  rewrite diff_outputs, app_nil_l, foldl_app, !foldl_omap.
  destruct (fold_keyed (arrive prev) (λ p, f p.2) (btree_iter cur) (omap f prev)) as [A1 A2].
  { apply NoDup_btree_iter. }
  { intros [i v] m' Hin Hm'. simpl in *. unfold arrive. simpl. rewrite lookup_omap in Hm'.
    destruct (prev !! i) as [old|] eqn:E; simpl in Hm'.
    - case_decide as Hne; [by apply track_changed|].
      destruct (decide (old = v)) as [->|]; [|done]. simpl. rewrite <- Hm'. symmetry.
      by apply partial_alter_self.
    - by apply track_added. }
  set (m1 := foldl _ (omap f prev) (btree_iter cur)) in *. clearbody m1.
  destruct (fold_keyed (depart cur) (λ p, if is_none (cur !! p.1) then None else m1 !! p.1)
              (btree_iter prev) m1) as [D1 D2].
  { apply NoDup_btree_iter. }
  { intros [i v] m' Hin Hm'. simpl in *. unfold depart, is_none. simpl.
    destruct (cur !! i) as [v'|] eqn:E; simpl.
    - rewrite <- Hm'. symmetry. by apply partial_alter_self.
    - apply track_removed. rewrite Hm', A2.
      + apply elem_of_btree_iter in Hin. by rewrite lookup_omap, Hin.
      + intros ([i' v'] & -> & Hin')%list_elem_of_fmap. apply elem_of_btree_iter in Hin'.
        simpl in E. congruence. }
  apply map_eq. intros i. rewrite lookup_omap. destruct (cur !! i) as [v|] eqn:Ec; simpl.
  - assert (Hv : m1 !! i = f v) by (apply (A1 i v); by apply elem_of_btree_iter).
    destruct (prev !! i) as [v'|] eqn:Ep.
    + rewrite (D1 i v') by by apply elem_of_btree_iter. simpl. unfold is_none. by rewrite Ec.
    + rewrite D2; [done|]. intros ([i' v'] & -> & Hin')%list_elem_of_fmap.
      apply elem_of_btree_iter in Hin'. simpl in Ep. congruence.
  - destruct (prev !! i) as [v'|] eqn:Ep.
    + rewrite (D1 i v') by by apply elem_of_btree_iter. simpl. unfold is_none. by rewrite Ec.
    + rewrite D2.
      * rewrite A2; [by rewrite lookup_omap, Ep|]. intros ([i' v'] & -> & Hin')%list_elem_of_fmap.
        apply elem_of_btree_iter in Hin'. simpl in Ec. congruence.
      * intros ([i' v'] & -> & Hin')%list_elem_of_fmap. apply elem_of_btree_iter in Hin'.
        simpl in Ep. congruence.
Qed.
End Keyed.
End Diff.
End Replay.

#[global] Instance PodScheduleRequest_eq : EqDecision PodScheduleRequest.
Proof. solve_decision. Defined.

(** ** Schedule requests ([adapter/schedule_request/mod.rs]) *)
Module ScheduleRequest.
Import Replay.

Inductive ScheduleRequestDelta :=
  | Request (pod_id : PodId) (request : PodScheduleRequest)
  | Drop (pod_id : PodId).

#[global] Instance ScheduleRequestIncrementalAggregator :
    IncrementalAggregator (PodId * PodScheduleRequest) ScheduleRequestDelta := {|
  added := λ '(pod_id, request), Some (Request pod_id request);
  removed := λ '(pod_id, _), Some (Drop pod_id);
  changed := λ _ _, None;
|}.

(** The drained deltas of the one schedule-request port. *)
Definition reconcile (inputs : list (Z * ScheduleRequestDelta)) : list ScheduleRequestDelta * bool :=
  (snd <$> filter (λ i, i.1 = SCHEDULE_REQUEST) inputs, false).

(** The pods with an outstanding request, as the deltas tell it. *)
Definition outstanding1 (m : gmap Z ()) (d : ScheduleRequestDelta) : gmap Z () :=
  match d with Request p _ => <[p := ()]> m | Drop p => delete p m end.

#[global] Instance schedule_tracks : Tracks (W := ()) pair outstanding1 (λ _ : PodScheduleRequest, Some ()).
Proof.
  split; simpl; intros.
  - done.
  - symmetry. by rewrite <- H0, partial_alter_self.
  - done.
Qed.
End ScheduleRequest.

(** ** Pod assignments of a worker ([adapter/pod_assignment/mod.rs]) *)
Module PodAssignment.
Import Replay.

Inductive PodAssignmentDelta :=
  | DLaunch (pod_id : PodId) (request : PodScheduleRequest) (spec : option WorkloadSpec)
  | DResume (pod_id : PodId) (artifact_id : ArtifactPortId) (spec : option WorkloadSpec)
  | DStop (pod_id : PodId)
  | DSuspend (pod_id : PodId).
Inductive PodAssignmentAction :=
  | Launch (worker_id : WorkerId) (pod_id : PodId) (request : PodScheduleRequest)
      (spec : option WorkloadSpec)
  | Resume (worker_id : WorkerId) (pod_id : PodId) (artifact_id : ArtifactPortId)
      (spec : option WorkloadSpec)
  | Stop (worker_id : WorkerId) (pod_id : PodId)
  | Suspend (worker_id : WorkerId) (pod_id : PodId).

#[global] Instance PodAssignmentIncrementalAggregator :
    IncrementalAggregator (PodId * PodScheduleRequest) PodAssignmentDelta := {|
  added := λ '(pod_id, request),
    match psr_resume_artifact request with
    | Some artifact_id => Some (DResume pod_id artifact_id (psr_spec request))
    | None => Some (DLaunch pod_id request (psr_spec request))
    end;
  removed := λ '(pod_id, _), Some (DStop pod_id);
  changed := λ '(_, old_req) '(pod_id, new_req),
    if psr_suspend new_req && negb (psr_suspend old_req) then Some (DSuspend pod_id) else None;
|}.

Definition to_action (worker_id : WorkerId) (d : PodAssignmentDelta) : PodAssignmentAction :=
  match d with
  | DLaunch pod_id request spec => Launch worker_id pod_id request spec
  | DResume pod_id artifact_id spec => Resume worker_id pod_id artifact_id spec
  | DStop pod_id => Stop worker_id pod_id
  | DSuspend pod_id => Suspend worker_id pod_id
  end.
Definition reconcile (inputs : list (WorkerId * PodAssignmentDelta)) :
    list PodAssignmentAction * bool :=
  ((λ i, to_action i.1 i.2) <$> inputs, false).

(** The pods a worker was told to run and not told to stop. *)
Definition running1 (m : gmap Z ()) (d : PodAssignmentDelta) : gmap Z () :=
  match d with
  | DLaunch p _ _ | DResume p _ _ => <[p := ()]> m
  | DStop p => delete p m
  | DSuspend _ => m
  end.

#[global] Instance assignment_tracks : Tracks pair running1 (λ _ : PodScheduleRequest, Some ()).
Proof.
  split; simpl; intros.
  - by destruct (psr_resume_artifact v).
  - destruct (psr_suspend v' && negb (psr_suspend v)); simpl; by rewrite <- H0, partial_alter_self.
  - done.
Qed.

(** Schedule requests and pod assignments are tracked exactly: after a
    propagation the pods with an outstanding request are those that publish one, and
    the pods a worker was told to run and not to stop are those assigned to it. *)
Theorem pod_deltas_exact (cur prev : gmap Z PodScheduleRequest) :
  let all m := omap (λ _, Some ()) m : gmap Z () in
  foldl ScheduleRequest.outstanding1 (all prev)
    (ScheduleRequest.reconcile (pair SCHEDULE_REQUEST <$> incremental_diff pair cur prev [])).1 = all cur ∧
  foldl running1 (all prev) (incremental_diff pair cur prev []) = all cur.
Proof.
  simpl. split; [|apply replay_diff, _].
  assert (Hf : ∀ l : list ScheduleRequest.ScheduleRequestDelta,
    (filter (λ i : Z * _, i.1 = SCHEDULE_REQUEST) (pair SCHEDULE_REQUEST <$> l)).*2 = l).
  { induction l as [|d l IH]; [done|]. rewrite fmap_cons, filter_cons_True by done. simpl. by f_equal. }
  rewrite Hf. apply replay_diff, _.
Qed.
End PodAssignment.

(** ** Fabric endpoints ([adapter/endpoint/mod.rs]) *)
Definition WireGuardPeerId : Type := Z.
Record WireGuardPeerEndpointInfo := {
  wpe_peer_ip : Ipv4Addr; wpe_worker_id : WorkerId; wpe_peer_public_key : list Z }.
#[global] Instance WireGuardPeerEndpointInfo_eq : EqDecision WireGuardPeerEndpointInfo.
Proof. solve_decision. Defined.
#[global] Instance EndpointBackendInfo_eq : EqDecision EndpointBackendInfo.
Proof. solve_decision. Defined.
#[global] Instance EndpointKind_eq : EqDecision EndpointSm.EndpointKind.
Proof. solve_decision. Defined.
#[global] Instance EndpointInfo_eq : EqDecision EndpointSm.EndpointInfo.
Proof. solve_decision. Defined.

Module EndpointAdapter.
Import Replay EndpointSm.

Inductive EndpointAction :=
  | Update (endpoint_id : EndpointId) (info : EndpointInfo)
  | Remove (endpoint_id : EndpointId) (old_info : EndpointInfo)
  | WireGuardPeerUpdate (peer_id : WireGuardPeerId) (info : WireGuardPeerEndpointInfo)
  | WireGuardPeerRemove (peer_id : WireGuardPeerId) (old_info : WireGuardPeerEndpointInfo).
(** The source enum generated for an input with two kinds of sources. *)
Inductive EndpointsInputSource :=
  | FromEndpoint (id : EndpointId) (info : option EndpointInfo)
  | FromPeer (id : WireGuardPeerId) (info : option WireGuardPeerEndpointInfo).

#[global] Instance EndpointIncrementalAggregator :
    IncrementalAggregator EndpointsInputSource (list EndpointAction) := {|
  added := λ i, match i with
    | FromEndpoint id (Some info) => Some [Update id info]
    | FromPeer id (Some info) => Some [WireGuardPeerUpdate id info]
    | _ => None
    end;
  removed := λ i, match i with
    | FromEndpoint id (Some old) => Some [Remove id old]
    | FromPeer id (Some old) => Some [WireGuardPeerRemove id old]
    | _ => None
    end;
  changed := λ old new, match old, new with
    | FromEndpoint _ old_info, FromEndpoint id new_info =>
        match old_info, new_info with
        | _, Some info => Some [Update id info]
        | Some old, None => Some [Remove id old]
        | None, None => None
        end
    | FromPeer _ old_info, FromPeer id new_info =>
        match old_info, new_info with
        | _, Some info => Some [WireGuardPeerUpdate id info]
        | Some old, None => Some [WireGuardPeerRemove id old]
        | None, None => None
        end
    | _, _ => None
    end;
|}.

Record EndpointAdapter := {
  endpoint_cache : gmap Z EndpointInfo;
  wg_peer_cache : gmap Z WireGuardPeerEndpointInfo;
}.
Definition new : EndpointAdapter := {| endpoint_cache := ∅; wg_peer_cache := ∅ |}.

Definition cache1 (a : EndpointAdapter) (action : EndpointAction) : EndpointAdapter :=
  match action with
  | Update id info => {| a with endpoint_cache := <[id := info]> (endpoint_cache a) |}
  | Remove id _ => {| a with endpoint_cache := delete id (endpoint_cache a) |}
  | WireGuardPeerUpdate id info => {| a with wg_peer_cache := <[id := info]> (wg_peer_cache a) |}
  | WireGuardPeerRemove id _ => {| a with wg_peer_cache := delete id (wg_peer_cache a) |}
  end.
Definition reconcile (inputs : list (Z * list EndpointAction)) (a : EndpointAdapter) :
    list EndpointAction * bool * EndpointAdapter :=
  let actions := concat (snd <$> filter (λ i, i.1 = FABRIC_ENDPOINT) inputs) in
  (actions, false, foldl cache1 a actions).

Section Sync.
Context `{!HashIter Z}.
Definition build_endpoint_sync (a : EndpointAdapter) : list (EndpointId * EndpointInfo) :=
  hash_iter (endpoint_cache a).
Definition build_wg_peer_sync (a : EndpointAdapter) :
    list (WireGuardPeerId * WireGuardPeerEndpointInfo) := hash_iter (wg_peer_cache a).
End Sync.

(** One propagation into the port: the generated code diffs the two sources in turn. *)
Definition propagate (cur_ep prev_ep : gmap Z (option EndpointInfo))
    (cur_wg prev_wg : gmap Z (option WireGuardPeerEndpointInfo)) : list (list EndpointAction) :=
  incremental_diff FromPeer cur_wg prev_wg (incremental_diff FromEndpoint cur_ep prev_ep []).

Definition ep_step (m : gmap Z EndpointInfo) (l : list EndpointAction) : gmap Z EndpointInfo :=
  foldl (λ m a, match a with Update id info => <[id := info]> m | Remove id _ => delete id m | _ => m end) m l.
Definition wg_step (m : gmap Z WireGuardPeerEndpointInfo) (l : list EndpointAction) :
    gmap Z WireGuardPeerEndpointInfo :=
  foldl (λ m a, match a with
    | WireGuardPeerUpdate id info => <[id := info]> m
    | WireGuardPeerRemove id _ => delete id m
    | _ => m end) m l.

#[global] Instance endpoint_tracks : Tracks FromEndpoint ep_step (λ i : option EndpointInfo, i).
Proof.
  split; intros i.
  - intros [info|] m Hm; simpl; [done|]. rewrite <- Hm. by rewrite partial_alter_self.
  - intros [o|] [n|] m Hne Hm; simpl; try done.
  - intros [info|] m Hm; simpl; [done|]. by rewrite delete_id.
Qed.
#[global] Instance peer_tracks : Tracks FromPeer wg_step (λ i : option WireGuardPeerEndpointInfo, i).
Proof.
  split; intros i.
  - intros [info|] m Hm; simpl; [done|]. rewrite <- Hm. by rewrite partial_alter_self.
  - intros [o|] [n|] m Hne Hm; simpl; try done.
  - intros [info|] m Hm; simpl; [done|]. by rewrite delete_id.
Qed.

Lemma cache_split a l :
  endpoint_cache (foldl cache1 a l) = ep_step (endpoint_cache a) l ∧
  wg_peer_cache (foldl cache1 a l) = wg_step (wg_peer_cache a) l.
Proof.
  revert a. induction l as [|x l IH]; intros a; [done|]. cbn [foldl].
  destruct (IH (cache1 a x)) as [-> ->]. by destruct x.
Qed.

Lemma foldl_concat {A B} (step : A → B → A) (ll : list (list B)) a :
  foldl step a (concat ll) = foldl (foldl step) a ll.
Proof. revert a. induction ll as [|l ll IH]; intros a; simpl; [done|]. by rewrite foldl_app, IH. Qed.

(** The actions of one source leave the cache of the other alone. *)
Lemma diff_other_wg (cur prev : gmap Z (option EndpointInfo)) m :
  foldl wg_step m (incremental_diff FromEndpoint cur prev []) = m.
Proof.
  apply replay_neutral; [intros i [] o m'|intros i [] [] o m'|intros i [] o m']; simpl;
    intros [= <-] || done; done.
Qed.
Lemma diff_other_ep (cur prev : gmap Z (option WireGuardPeerEndpointInfo)) m :
  foldl ep_step m (incremental_diff FromPeer cur prev []) = m.
Proof.
  apply replay_neutral; [intros i [] o m'|intros i [] [] o m'|intros i [] o m']; simpl;
    intros [= <-] || done; done.
Qed.

(** C38: the endpoint caches, from which a worker that joins gets its first sync, hold
    exactly what the endpoints and peers publish: if they did before a propagation
    they do after it, whatever appeared, changed or disappeared. *)
Theorem endpoint_caches_exact cur_ep prev_ep cur_wg prev_wg a :
  endpoint_cache a = omap (λ i, i) prev_ep → wg_peer_cache a = omap (λ i, i) prev_wg →
  let inputs := pair FABRIC_ENDPOINT <$> propagate cur_ep prev_ep cur_wg prev_wg in
  let '(_, _, a') := reconcile inputs a in
  endpoint_cache a' = omap (λ i, i) cur_ep ∧ wg_peer_cache a' = omap (λ i, i) cur_wg.
Proof.
  intros He Hw. simpl. unfold propagate.
  assert (Hf : ∀ ll : list (list EndpointAction),
    (filter (λ i : Z * list EndpointAction, i.1 = FABRIC_ENDPOINT) (pair FABRIC_ENDPOINT <$> ll)).*2 = ll).
  { induction ll as [|l ll IH]; [done|]. rewrite fmap_cons, filter_cons_True by done. simpl. by f_equal. }
  rewrite Hf. destruct (cache_split a (concat (incremental_diff FromPeer cur_wg prev_wg
    (incremental_diff FromEndpoint cur_ep prev_ep [])))) as [-> ->].
  rewrite He, Hw. unfold ep_step at 1, wg_step at 1. rewrite !foldl_concat, diff_app, !foldl_app.
  split.
  - change (foldl ep_step (foldl ep_step (omap (λ i, i) prev_ep)
      (incremental_diff FromEndpoint cur_ep prev_ep [])) (incremental_diff FromPeer cur_wg prev_wg []) =
      omap (λ i, i) cur_ep).
    by rewrite (replay_diff FromEndpoint ep_step (λ i, i)), diff_other_ep.
  - change (foldl wg_step (foldl wg_step (omap (λ i, i) prev_wg)
      (incremental_diff FromEndpoint cur_ep prev_ep [])) (incremental_diff FromPeer cur_wg prev_wg []) =
      omap (λ i, i) cur_wg).
    by rewrite diff_other_wg, (replay_diff FromPeer wg_step (λ i, i)).
Qed.

End EndpointAdapter.

(** ** The DNS registry ([adapter/dns_registry/mod.rs]) and its copy on a worker
       ([crates/worker/src/worker/namespace.rs]) *)
#[global] Instance DnsEntryInfo_eq : EqDecision DnsEntryInfo.
Proof. solve_decision. Defined.

Module DnsRegistry.
Import Replay.

Inductive DnsRegistryAction := Add (name : string) (ip : Ipv4Addr) | Remove (name : string).
#[global] Instance DnsRegistryAction_eq : EqDecision DnsRegistryAction.
Proof. solve_decision. Defined.

Definition dns_added (info : option DnsEntryInfo) : option (list DnsRegistryAction) :=
  (λ e, [Add (dns_name e) (dns_ip e)]) <$> info.
Definition dns_removed (info : option DnsEntryInfo) : option (list DnsRegistryAction) :=
  (λ e, [Remove (dns_name e)]) <$> info.
Definition dns_changed (old_info new_info : option DnsEntryInfo) : option (list DnsRegistryAction) :=
  match old_info, new_info with
  | Some old, Some new =>
      let actions := if decide (dns_name old ≠ dns_name new) then [Remove (dns_name old)] else [] in
      Some (actions ++ [Add (dns_name new) (dns_ip new)])
  | Some old, None => Some [Remove (dns_name old)]
  | None, Some new => Some [Add (dns_name new) (dns_ip new)]
  | None, None => None
  end.

(** [EndpointDnsIncrementalAggregator] and [WorkloadDnsIncrementalAggregator] *)
#[global] Instance DnsIncrementalAggregator :
    IncrementalAggregator (Z * option DnsEntryInfo) (list DnsRegistryAction) := {|
  added := λ '(_, info), dns_added info;
  removed := λ '(_, info), dns_removed info;
  changed := λ '(_, old_info) '(_, new_info), dns_changed old_info new_info;
|}.

Abbreviation DnsRegistryAdapter := (gmap string Z).
Definition cache1 (cache : gmap string Z) (action : DnsRegistryAction) : gmap string Z :=
  match action with Add name ip => <[name := ip]> cache | Remove name => delete name cache end.
Definition reconcile (inputs : list (Z * list DnsRegistryAction)) (cache : DnsRegistryAdapter) :
    list DnsRegistryAction * bool * DnsRegistryAdapter :=
  let actions := concat (snd <$> filter (λ i, i.1 = DNS_REGISTRY) inputs) in
  (actions, false, foldl cache1 cache actions).
Definition build_sync `{!HashIter string} (cache : DnsRegistryAdapter) : list (string * Ipv4Addr) :=
  hash_iter cache.

(** How the namespace core splits the actions into one command. *)
Definition added_entries (actions : list DnsRegistryAction) : list RegistryEntry :=
  omap (λ a, match a with Add n ip => Some {| re_name := n; re_ip := ip |} | Remove _ => None end) actions.
Definition removed_names (actions : list DnsRegistryAction) : list string :=
  omap (λ a, match a with Remove n => Some n | Add _ _ => None end) actions.

(** The registry a worker keeps for a namespace. *)
Definition insert_entry (m : gmap string Z) (e : RegistryEntry) : gmap string Z :=
  <[re_name e := re_ip e]> m.
Definition registry_sync (entries : list RegistryEntry) (_ : gmap string Z) :
    gmap string Z := foldl insert_entry ∅ entries.
Definition registry_update (added : list RegistryEntry) (removed : list string)
    (m : gmap string Z) : gmap string Z :=
  foldl insert_entry (foldl (λ m name, delete name m) m removed) added.

(** One propagation: the endpoint input, then the workload input. *)
Definition propagate (cur_e prev_e cur_w prev_w : gmap Z (option DnsEntryInfo)) :
    list (list DnsRegistryAction) :=
  incremental_diff pair cur_e prev_e [] ++ incremental_diff pair cur_w prev_w [].

(** *** Order does not matter when no name is both added and removed *)
Definition consistent (l : list DnsRegistryAction) : Prop :=
  ∀ n ip, Add n ip ∈ l → (Remove n ∉ l) ∧ ∀ ip', Add n ip' ∈ l → ip' = ip.

Lemma replay_dns l m n :
  consistent l →
  (∀ ip, Add n ip ∈ l → foldl cache1 m l !! n = Some ip) ∧
  (Remove n ∈ l → foldl cache1 m l !! n = None) ∧
  ((∀ ip, Add n ip ∉ l) → Remove n ∉ l → foldl cache1 m l !! n = m !! n).
Proof.
  induction l as [|a l IH] using rev_ind; intros Hc.
  { split_and!; [by intros ip ?%elem_of_nil|by intros ?%elem_of_nil|done]. }
  assert (Hc' : consistent l).
  { intros n' ip' Hin. destruct (Hc n' ip') as [Hr Ha]; [set_solver|]. set_solver. }
  destruct (IH Hc') as (H1 & H2 & H3). rewrite foldl_app. simpl.
  assert (Hother : (∀ ip, a ≠ Add n ip) → a ≠ Remove n →
    cache1 (foldl cache1 m l) a !! n = foldl cache1 m l !! n).
  { intros Ha Hr. destruct a as [n' ip'|n']; simpl; [rewrite lookup_insert_ne|rewrite lookup_delete_ne];
      try done; intros ->; [by apply (Ha ip')|done]. }
  split_and!.
  - intros ip Hin. destruct (Hc n ip Hin) as [Hr Hu]. destruct a as [n' ip'|n'].
    + destruct (decide (n' = n)) as [->|Hne].
      * simpl. rewrite lookup_insert_eq. f_equal. apply Hu. set_solver.
      * rewrite Hother by congruence. apply H1. set_solver.
    + rewrite Hother by (intros; set_solver). apply H1. set_solver.
  - intros Hin. destruct a as [n' ip'|n'].
    + rewrite Hother; [apply H2; set_solver| |done]. intros ip [= -> ->].
      destruct (Hc n ip) as [Hr _]; set_solver.
    + destruct (decide (n' = n)) as [->|Hne]; [apply lookup_delete_eq|].
      rewrite Hother by congruence. apply H2. set_solver.
  - intros Ha Hr. rewrite Hother; [apply H3; set_solver| |set_solver]. intros ip ->. apply (Ha ip). set_solver.
Qed.

Lemma elem_of_added n ip l : Add n ip ∈ l ↔ {| re_name := n; re_ip := ip |} ∈ added_entries l.
Proof.
  unfold added_entries. rewrite list_elem_of_omap. split; [intros; by exists (Add n ip)|].
  intros ([n' ip'|n'] & Hin & E); by simplify_eq.
Qed.
Lemma elem_of_removed n l : Remove n ∈ l ↔ n ∈ removed_names l.
Proof.
  unfold removed_names. rewrite list_elem_of_omap. split; [intros; by exists (Remove n)|].
  intros ([n' ip'|n'] & Hin & E); by simplify_eq.
Qed.

Definition adds (n : string) (a : DnsRegistryAction) : bool :=
  match a with Add n' _ => bool_decide (n' = n) | Remove _ => false end.

(** The command of the split actions is their replay in another order. *)
Lemma update_reorders l m :
  registry_update (added_entries l) (removed_names l) m =
  foldl cache1 m ((Remove <$> removed_names l) ++ ((λ e, Add (re_name e) (re_ip e)) <$> added_entries l)).
Proof. unfold registry_update. rewrite foldl_app, !foldl_fmap. done. Qed.

Lemma update_agrees l m :
  consistent l → registry_update (added_entries l) (removed_names l) m = foldl cache1 m l.
Proof.
  intros Hc. rewrite update_reorders.
  set (l' := (Remove <$> removed_names l) ++ ((λ e, Add (re_name e) (re_ip e)) <$> added_entries l)).
  assert (Hin : ∀ a, a ∈ l' ↔ a ∈ l).
  { intros a. unfold l'. rewrite elem_of_app, !list_elem_of_fmap. split.
    - intros [(n & -> & Hn)|([n ip] & -> & He)]; [by apply elem_of_removed|by apply elem_of_added].
    - destruct a as [n ip|n]; intros Ha.
      + right. exists {| re_name := n; re_ip := ip |}. split; [done|]. by apply elem_of_added.
      + left. exists n. split; [done|]. by apply elem_of_removed. }
  assert (Hc' : consistent l').
  { intros n ip Ha. rewrite Hin in Ha. destruct (Hc n ip Ha) as [Hr Hu]. rewrite Hin. split; [done|].
    intros ip' Ha'. apply Hu. by rewrite <- Hin. }
  apply map_eq. intros n. destruct (replay_dns l m n Hc) as (A1 & A2 & A3).
  destruct (replay_dns l' m n Hc') as (B1 & B2 & B3).
  destruct (decide (Remove n ∈ l)) as [Hr|Hr]; [rewrite A2, B2; [done|by apply Hin|done]|].
  destruct (list_find (λ a, adds n a = true) l) as [[i a]|] eqn:E.
  - apply list_find_Some in E as (Hi & Ha & _). destruct a as [n' ip|]; [|done].
    apply bool_decide_eq_true in Ha as ->.
    apply list_elem_of_lookup_2 in Hi. rewrite (A1 ip Hi), (B1 ip); [done|by apply Hin].
  - apply list_find_None in E. assert (Hno : ∀ ip, Add n ip ∉ l).
    { intros ip Ha. rewrite Forall_forall in E. apply (E (Add n ip) Ha). by apply bool_decide_eq_true. }
    rewrite A3, B3; [done| | |done|done]; intros; rewrite Hin; done.
Qed.

(** *** Names that stay with their source *)
(** The entry of a source, an endpoint or a workload, in a pair of signal maps. *)
Definition entry (m : gmap Z (option DnsEntryInfo) * gmap Z (option DnsEntryInfo)) (s : bool * Z) :
    option DnsEntryInfo := (if s.1 then m.1 !! s.2 else m.2 !! s.2) ≫= λ i, i.

(** The registry the signals ask for. *)
Definition published m (n : string) (ip : Ipv4Addr) : Prop :=
  ∃ s e, entry m s = Some e ∧ dns_name e = n ∧ dns_ip e = ip.

(** No name belongs to two sources, nor moves from one to another. *)
Definition stable cur prev : Prop :=
  ∀ s s' e e', (entry cur s = Some e ∨ entry prev s = Some e) →
    (entry cur s' = Some e' ∨ entry prev s' = Some e') → dns_name e = dns_name e' → s = s'.

Lemma elem_of_input (cur prev : gmap Z (option DnsEntryInfo)) a :
  a ∈ concat (incremental_diff pair cur prev []) ↔
  ∃ i, cur !! i ≠ prev !! i ∧
    a ∈ default [] (dns_changed (prev !! i ≫= λ x, x) (cur !! i ≫= λ x, x)).
Proof.
  rewrite list_elem_of_In, in_concat. setoid_rewrite <- list_elem_of_In. setoid_rewrite elem_of_diff.
  split.
  - intros (l & [(i & v & Hc & Ho)|(i & v & Hp & Hc & Ho)] & Ha); exists i.
    + unfold arrive in Ho. simpl in Ho. rewrite Hc. destruct (prev !! i) as [old|]; simpl.
      * case_decide; [|done]. rewrite Ho. split; [congruence|done].
      * destruct v; simplify_eq/=. done.
    + rewrite Hc, Hp. destruct v; simplify_eq/=. done.
  - intros (i & Hne & Ha). destruct (cur !! i) as [v|] eqn:Ec; simpl in Ha.
    + destruct (prev !! i) as [old|] eqn:Ep; simpl in Ha.
      * destruct (dns_changed old v) as [l|] eqn:El; [|by apply elem_of_nil in Ha]. exists l.
        split; [|done]. left. exists i, v. split; [done|]. unfold arrive. simpl.
        rewrite Ep. rewrite decide_True; [done|congruence].
      * destruct v as [e|]; [|by apply elem_of_nil in Ha]. eexists. split; [|exact Ha].
        left. exists i, (Some e). split; [done|]. unfold arrive. simpl. by rewrite Ep.
    + destruct (prev !! i) as [[old|]|] eqn:Ep; simpl in Ha; try by apply elem_of_nil in Ha.
      eexists. split; [|exact Ha]. right. by exists i, (Some old).
Qed.

Lemma elem_of_propagate cur prev a :
  a ∈ concat (propagate cur.1 prev.1 cur.2 prev.2) ↔
  ∃ s : bool * Z, (if s.1 then cur.1 !! s.2 ≠ prev.1 !! s.2 else cur.2 !! s.2 ≠ prev.2 !! s.2) ∧
    a ∈ default [] (dns_changed (entry prev s) (entry cur s)).
Proof.
  unfold propagate. rewrite concat_app, elem_of_app, !elem_of_input. split.
  - intros [(i & Hne & Ha)|(i & Hne & Ha)]; [by exists (true, i)|by exists (false, i)].
  - intros ([[] i] & Hne & Ha); [left|right]; by exists i.
Qed.

Lemma add_in_propagate cur prev n ip :
  Add n ip ∈ concat (propagate cur.1 prev.1 cur.2 prev.2) →
  ∃ s e, entry cur s = Some e ∧ dns_name e = n ∧ dns_ip e = ip.
Proof.
  intros (s & _ & Ha)%elem_of_propagate. exists s. unfold dns_changed in Ha.
  destruct (entry prev s), (entry cur s) as [e|]; simpl in Ha; try case_decide; simpl in Ha;
    set_unfold; exists e || idtac; naive_solver.
Qed.

Lemma remove_in_propagate cur prev n :
  Remove n ∈ concat (propagate cur.1 prev.1 cur.2 prev.2) →
  ∃ s e, entry prev s = Some e ∧ dns_name e = n ∧ ∀ e', entry cur s = Some e' → dns_name e' ≠ n.
Proof.
  intros (s & _ & Ha)%elem_of_propagate. exists s. unfold dns_changed in Ha.
  destruct (entry prev s) as [e|], (entry cur s) as [e'|]; simpl in Ha; try case_decide; simpl in Ha;
    set_unfold; exists e || idtac; naive_solver.
Qed.

Lemma stable_consistent cur prev :
  stable cur prev → consistent (concat (propagate cur.1 prev.1 cur.2 prev.2)).
Proof.
  intros Hst n ip Ha. apply add_in_propagate in Ha as (s & e & He & Hn & Hip). split.
  - intros Hr. apply remove_in_propagate in Hr as (s' & e' & He' & Hn' & Hno).
    assert (s = s') as <- by (apply (Hst s s' e e'); [by left|by right|congruence]).
    by apply (Hno e).
  - intros ip' Ha'. apply add_in_propagate in Ha' as (s' & e' & He' & Hn' & Hip').
    assert (s = s') as <- by (apply (Hst s s' e e'); [by left|by left|congruence]). congruence.
Qed.

(** A source whose entry changed reports it. *)
Lemma change_reported cur prev s e :
  entry cur s = Some e → entry prev s ≠ Some e →
  Add (dns_name e) (dns_ip e) ∈ concat (propagate cur.1 prev.1 cur.2 prev.2).
Proof.
  intros He Hne. apply elem_of_propagate. exists s. split.
  - unfold entry in *. destruct s as [[] i]; simpl in *; congruence.
  - rewrite He. unfold dns_changed. destruct (entry prev s); simpl; set_solver.
Qed.
Lemma loss_reported cur prev s e :
  entry prev s = Some e → (∀ e', entry cur s = Some e' → dns_name e' ≠ dns_name e) →
  Remove (dns_name e) ∈ concat (propagate cur.1 prev.1 cur.2 prev.2).
Proof.
  intros He Hno. apply elem_of_propagate. exists s. split.
  - intros. unfold entry in *. destruct s as [[] i]; simpl in *; intros E; rewrite E in Hno; by apply (Hno e).
  - rewrite He. unfold dns_changed. destruct (entry cur s) as [e'|]; simpl; [|set_solver].
    rewrite decide_True; [set_solver|]. intros E. by apply (Hno e').
Qed.

(** The DNS registries agree: as long as no name belongs to two sources or moves
    between them, the orchestrator's cache holds exactly the published names after
    every propagation, and a worker that applies the resulting update to the same
    registry ends up with exactly the same. *)
Theorem dns_registries_agree cur prev cache :
  stable cur prev →
  (∀ n ip, cache !! n = Some ip ↔ published prev n ip) →
  let '(actions, _, cache') :=
    reconcile (pair DNS_REGISTRY <$> propagate cur.1 prev.1 cur.2 prev.2) cache in
  (∀ n ip, cache' !! n = Some ip ↔ published cur n ip) ∧
  registry_update (added_entries actions) (removed_names actions) cache = cache'.
Proof.
  intros Hst Hcache. unfold reconcile.
  assert (Hf : ∀ l : list (list DnsRegistryAction),
    (filter (λ i : Z * _, i.1 = DNS_REGISTRY) (pair DNS_REGISTRY <$> l)).*2 = l).
  { induction l as [|d l IH]; [done|]. rewrite fmap_cons, filter_cons_True by done. simpl. by f_equal. }
  rewrite Hf. set (A := concat _). pose proof (stable_consistent cur prev Hst) as Hc. fold A in Hc.
  split; [|by apply update_agrees].
  intros n ip. destruct (replay_dns A cache n Hc) as (R1 & R2 & R3). split.
  - intros Hl. destruct (decide (Add n ip ∈ A)) as [Ha|Ha]; [by apply add_in_propagate in Ha|].
    assert (Hno : ∀ ip', Add n ip' ∉ A).
    { intros ip' Ha'. rewrite (R1 ip' Ha') in Hl. by simplify_eq. }
    assert (Hr : Remove n ∉ A) by (intros Hr; by rewrite (R2 Hr) in Hl).
    rewrite (R3 Hno Hr) in Hl. apply Hcache in Hl as (s & e & He & <- & <-).
    exists s, e. split_and!; [|done|done]. destruct (decide (entry cur s = Some e)) as [|Hne]; [done|].
    destruct (entry cur s) as [e'|] eqn:Ee.
    + destruct (decide (dns_name e' = dns_name e)) as [Hn|Hn].
      * destruct (Hno (dns_ip e')). rewrite <- Hn. apply (change_reported _ _ s); congruence.
      * destruct Hr. apply (loss_reported _ _ s); [done|]. intros e'' ?. by simplify_eq.
    + destruct Hr. apply (loss_reported _ _ s); [done|]. congruence.
  - intros (s & e & He & <- & <-). destruct (decide (entry prev s = Some e)) as [Hp|Hp].
    + rewrite R3; [apply Hcache; by exists s, e| |].
      * intros ip' Ha. pose proof Ha as Ha'. apply add_in_propagate in Ha as (s' & e' & He' & Hn' & Hip').
        assert (s = s') as <- by (apply (Hst s s' e e'); [by left|by left|congruence]).
        apply elem_of_propagate in Ha' as (s2 & Hne & Hin).
        assert (s2 = s) as ->.
        { unfold dns_changed in Hin. destruct (entry cur s2) as [e2|] eqn:E2.
          - apply (Hst s2 s e2 e); [by left|by left|]. destruct (entry prev s2); simpl in Hin;
              try case_decide; set_solver.
          - destruct (entry prev s2); simpl in Hin; set_solver. }
        unfold entry in He, Hp. destruct s as [[] i]; simpl in *;
          destruct (cur.1 !! i), (prev.1 !! i), (cur.2 !! i), (prev.2 !! i); simpl in *; congruence.
      * intros Hr. apply remove_in_propagate in Hr as (s' & e' & He' & Hn' & Hno).
        assert (s = s') as <- by (apply (Hst s s' e e'); [by left|by right|congruence]).
        by apply (Hno e).
    + apply R1, (change_reported _ _ s); done.
Qed.

End DnsRegistry.

(** ** References to artifacts ([adapter/artifact/mod.rs]) *)
Module ArtifactRef.
Inductive ArtifactRefDelta := Referenced (workload_id : WorkloadId) | Released (workload_id : WorkloadId).
Inductive ArtifactAction := ActReferenced (port_id : ArtifactPortId) | ActReleased (port_id : ArtifactPortId).

#[global] Instance ArtifactRefIncrementalAggregator :
    IncrementalAggregator (WorkloadId * bool) ArtifactRefDelta := {|
  added := λ '(workload_id, _), Some (Referenced workload_id);
  removed := λ '(workload_id, _), Some (Released workload_id);
  changed := λ _ _, None;
|}.
End ArtifactRef.

(** ** Observability events ([adapter/observability/mod.rs]) *)
Module Observability.

Inductive PodEventKind :=
  | Created
  | PodStatusChanged (old new : PodStatus)
  | WorkerChanged (old new : option WorkerId)
  | Reaped (last_status : PodStatus)
  | MemoryConstrained (reason : MemoryConstraintReason)
  | MemoryConstraintCleared
  | OomKill (count : Z).
Inductive WorkloadEventKind := WlStatusChanged (old new : WlStatus).
Inductive EndpointEventKind :=
  | EpStatusChanged (old new : EndpointSm.EndpointStatus)
  | IdleTimerChanged (active : bool).
Inductive ObservabilityEvent :=
  | Pod (pod_id : PodId) (event : PodEventKind)
  | Workload (workload_id : WorkloadId) (event : WorkloadEventKind)
  | Endpoint (endpoint_id : EndpointId) (event : EndpointEventKind).

Definition PodStatusObsAggregator : IncrementalAggregator (PodId * PodStatus) ObservabilityEvent := {|
  added := λ '(pod_id, _), Some (Pod pod_id Created);
  removed := λ '(pod_id, last_status), Some (Pod pod_id (Reaped last_status));
  changed := λ '(pod_id, old) '(_, new), Some (Pod pod_id (PodStatusChanged old new));
|}.
Definition PodWorkerObsAggregator :
    IncrementalAggregator (PodId * option WorkerId) ObservabilityEvent := {|
  added := λ _, None;
  removed := λ _, None;
  changed := λ '(pod_id, old) '(_, new), Some (Pod pod_id (WorkerChanged old new));
|}.
Definition WorkloadStatusObsAggregator :
    IncrementalAggregator (WorkloadId * WlStatus) ObservabilityEvent := {|
  added := λ _, None;
  removed := λ _, None;
  changed := λ '(workload_id, old) '(_, new), Some (Workload workload_id (WlStatusChanged old new));
|}.
Definition EndpointStatusObsAggregator :
    IncrementalAggregator (EndpointId * EndpointSm.EndpointStatus) ObservabilityEvent := {|
  added := λ _, None;
  removed := λ _, None;
  changed := λ '(endpoint_id, old) '(_, new), Some (Endpoint endpoint_id (EpStatusChanged old new));
|}.
Definition EndpointIdleTimerObsAggregator :
    IncrementalAggregator (EndpointId * bool) ObservabilityEvent := {|
  added := λ _, None;
  removed := λ _, None;
  changed := λ _ '(endpoint_id, new), Some (Endpoint endpoint_id (IdleTimerChanged new));
|}.

Definition reconcile (inputs : list (Z * ObservabilityEvent)) : list ObservabilityEvent :=
  snd <$> filter (λ i, i.1 = OBSERVABILITY) inputs.
End Observability.

(** ** Concrete propagations *)
Definition demo_ep (ip : Z) : EndpointSm.EndpointInfo :=
  {| EndpointSm.ei_kind := EndpointSm.KWorkload; EndpointSm.ei_ip := ip; EndpointSm.ei_backend := None |}.

Lemma endpoint_caches_exact_witness :
  let '(_, _, a) := EndpointAdapter.reconcile (pair FABRIC_ENDPOINT <$>
    EndpointAdapter.propagate {[1 := Some (demo_ep 8); 2 := None]} {[1 := Some (demo_ep 7); 3 := Some (demo_ep 9)]}
      ∅ ∅)
    {| EndpointAdapter.endpoint_cache := {[1 := demo_ep 7; 3 := demo_ep 9]};
       EndpointAdapter.wg_peer_cache := ∅ |} in
  EndpointAdapter.endpoint_cache a = {[1 := demo_ep 8]}.
Proof.
  pose proof (EndpointAdapter.endpoint_caches_exact
    {[1 := Some (demo_ep 8); 2 := None]} {[1 := Some (demo_ep 7); 3 := Some (demo_ep 9)]} ∅ ∅
    {| EndpointAdapter.endpoint_cache := {[1 := demo_ep 7; 3 := demo_ep 9]};
       EndpointAdapter.wg_peer_cache := ∅ |} ltac:(by vm_compute) ltac:(by vm_compute)) as H.
  cbv zeta in H. destruct (EndpointAdapter.reconcile _ _) as [[acts b] a]. destruct H as [-> _].
  by vm_compute.
Defined.

Definition demo_name (n : string) (ip : Z) : option DnsEntryInfo := Some {| dns_name := n; dns_ip := ip |}.
Definition names_prev : gmap Z (option DnsEntryInfo) * gmap Z (option DnsEntryInfo) :=
  ({[1 := demo_name "db" 5]}, ∅).
Definition names_cur : gmap Z (option DnsEntryInfo) * gmap Z (option DnsEntryInfo) :=
  ({[1 := demo_name "db2" 6]}, ∅).

Lemma entry_singleton n ip s e :
  DnsRegistry.entry ({[1 := demo_name n ip]}, ∅) s = Some e →
  s = (true, 1) ∧ e = {| dns_name := n; dns_ip := ip |}.
Proof.
  unfold DnsRegistry.entry, demo_name. destruct s as [[] i]; simpl; [|by rewrite lookup_empty].
  destruct (decide (i = 1)) as [->|]; [rewrite lookup_singleton_eq|by rewrite lookup_singleton_ne].
  simpl. intros [= <-]. done.
Qed.

Lemma dns_registries_agree_witness :
  let '(_, _, cache) := DnsRegistry.reconcile (pair DNS_REGISTRY <$>
     DnsRegistry.propagate names_cur.1 names_prev.1 names_cur.2 names_prev.2) {["db" := 5]} in
  cache !! "db2" = Some 6 ∧
  DnsRegistry.registry_update [{| re_name := "db2"; re_ip := 6 |}] ["db"] {["db" := 5]} = cache.
Proof.
  pose proof (DnsRegistry.dns_registries_agree names_cur names_prev {["db" := 5]}) as H.
  destruct (DnsRegistry.reconcile _ _) as [[acts b] cache] eqn:E. destruct H as [H1 H2].
  - intros s s' e e' [Hs|Hs]%(or_comm _ _) [Hs'|Hs']%(or_comm _ _) _;
      apply entry_singleton in Hs as [-> _], Hs' as [-> _]; done.
  - intros n ip. split.
    + intros [<- <-]%lookup_singleton_Some. exists (true, 1), {| dns_name := "db"; dns_ip := 5 |}.
      by vm_compute.
    + intros (s & e & [_ ->]%entry_singleton & <- & <-). by vm_compute.
  - split; [|revert H2; vm_compute in E; injection E as <- _ _; done].
    apply H1. exists (true, 1), {| dns_name := "db2"; dns_ip := 6 |}. by vm_compute.
Defined.

(** A name that moves from one endpoint to another in a single propagation is added
    for the new owner before it is removed for the old one: the cache loses it, the
    workers keep it. *)
Example dns_name_moves :
  let prev := {[2 := demo_name "db" 5]} : gmap Z (option DnsEntryInfo) in
  let cur := {[1 := demo_name "db" 6]} : gmap Z (option DnsEntryInfo) in
  let '(actions, _, cache) :=
    DnsRegistry.reconcile (pair DNS_REGISTRY <$> DnsRegistry.propagate cur prev ∅ ∅) {["db" := 5]} in
  cache !! "db" = None ∧
  DnsRegistry.registry_update (DnsRegistry.added_entries actions) (DnsRegistry.removed_names actions)
    {["db" := 5]} !! "db" = Some 6.
Proof. by vm_compute. Qed.
