(* ===== verification/RouterOps.v ===== *)
(** * The operations of the generated signal router

    [crates/orchestrator/src/sm/mod.rs] declares the topology of the signal graph; the
    macro of [crates/sm-router-macros] generates the type [DRouter] with one method
    per node kind, signal, edge and event.  The namespace core and its adapters use
    the router only through these methods: [RouterOps] lists the ones they call, as a
    class over the router's type.  [create_*] methods without an id return the id the
    router chose. *)

From S2P Require Import Prelude SmTypes Pod Endpoint Workload Timers Adapters.

Class RouterOps (R : Type) := {
  (** an empty router with a depth limit, and its singleton ports *)
  new_router : Z → R;
  create_timer : Z → R → R;
  create_schedule_request : Z → R → R;
  create_fabric_endpoint : Z → R → R;
  create_dns_registry : Z → R → R;
  create_observability : Z → R → R;
  (** management ports *)
  create_management : R → ManagementId * R;
  destroy_management : ManagementId → R → R;
  create_workload : WorkloadId → R → R;
  create_service : ServiceId → R → R;
  set_workload_config_edges : ManagementId → list WorkloadId → R → R;
  set_management_wl_spec : ManagementId → WorkloadSpec → R → R;
  set_service_config_edges : ManagementId → list ServiceId → R → R;
  set_management_svc_spec : ManagementId → ServiceSpec → R → R;
  router_admin_command : ManagementId → WorkloadId → AdminCmd → R → R;
  router_activate_service : ManagementId → ServiceId → bool → R → R;
  (** reading the state machines and their signals *)
  get_workload : R → WorkloadId → option WorkloadSm.WorkloadSm;
  get_service : R → ServiceId → option ServiceSm.ServiceSm;
  get_pod : R → PodId → option PodSm.PodSm;
  get_endpoint : R → EndpointId → option EndpointSm.EndpointSm;
  iter_endpoint : R → list (EndpointId * EndpointSm.EndpointSm);
  iter_pod : R → list (PodId * PodSm.PodSm);
  signal_workload_status : R → WorkloadId → option WlStatus;
  signal_endpoint_status : R → EndpointId → option EndpointSm.EndpointStatus;
  signal_endpoint_current_backend_need : R → EndpointId → option BackendNeed;
  (** endpoint demand ports *)
  create_endpoint_demand : R → EndpointDemandId * R;
  set_endpoint_port_demand_edges : EndpointDemandId → list EndpointId → R → R;
  set_endpoint_demand_active : EndpointDemandId → bool → R → R;
  send_endpoint_demand_traffic : EndpointDemandId → EndpointId → R → R;
  destroy_endpoint_demand : EndpointDemandId → R → R;
  (** artifact ports *)
  create_artifact : ArtifactPortId → R → R;
  destroy_artifact : ArtifactPortId → R → R;
  set_artifact_validity_edges : ArtifactPortId → list WorkloadId → R → R;
  set_artifact_valid : ArtifactPortId → bool → R → R;
  (** worker and lease ports *)
  create_worker : WorkerId → R → R;
  set_worker_info : WorkerId → WorkerInfo → R → R;
  destroy_worker : WorkerId → R → R;
  set_worker_assignment_edges : WorkerId → list PodId → R → R;
  create_schedule_lease : R → ScheduleLeaseId * R;
  set_schedule_lease_lease : ScheduleLeaseId → LeaseInfo → R → R;
  set_pod_lease_edges : ScheduleLeaseId → list PodId → R → R;
  destroy_schedule_lease : ScheduleLeaseId → R → R;
  send_notify_pod_status : WorkerId → PodId → PodStatus → R → R;
  send_notify_pod_suspended : WorkerId → PodId → ArtifactPortId → R → R;
  (** WireGuard peer ports *)
  create_wire_guard_peer : R → WireGuardPeerId * R;
  set_wire_guard_peer_endpoint_info : WireGuardPeerId → option WireGuardPeerEndpointInfo → R → R;
  set_wire_guard_peer_endpoints_edges : WireGuardPeerId → list Z → R → R;
  destroy_wire_guard_peer : WireGuardPeerId → R → R;
  (** timers *)
  send_workload_timer_fired : Z → WorkloadId → WorkloadTimerKey → R → R;
  send_endpoint_timer_fired : Z → EndpointId → EndpointTimerKey → R → R;
  send_pod_timer_fired : Z → PodId → PodTimerKey → R → R;
  (** propagation and the inputs it leaves at the ports *)
  propagate : R → R;
  drain_timer_inputs : R → list (Z * list TimerAction) * R;
  drain_schedule_request_inputs : R → list (Z * ScheduleRequest.ScheduleRequestDelta) * R;
  drain_worker_inputs : R → list (WorkerId * PodAssignment.PodAssignmentDelta) * R;
  drain_fabric_endpoint_inputs : R → list (Z * list EndpointAdapter.EndpointAction) * R;
  drain_dns_registry_inputs : R → list (Z * list DnsRegistry.DnsRegistryAction) * R;
  drain_artifact_inputs : R → list (ArtifactPortId * ArtifactRef.ArtifactRefDelta) * R;
  drain_observability_inputs : R → list (Z * Observability.ObservabilityEvent) * R;
}.
