(* ===== verification/Management.v ===== *)
(** * Adapters that write to the router
      ([adapter/endpoint_demand/mod.rs], [adapter/artifact/mod.rs],
       [adapter/management/mod.rs], [adapter/timer/mod.rs])

    [Management] applies a namespace spec: it creates, updates and removes the
    machines of workloads and services and keeps the names of router ids.  Its theorem
    shows that after every application the adapter holds exactly the names of the
    spec, in two-way agreement with the ids and the registry, and that a name keeps its
    id; indexing a map that lacks the key panics in the source and is [None] here.
    [Artifact] settles the artifact ports of a cycle: every port is reported exactly
    once. *)

From S2P Require Import Prelude SmTypes IpAlloc Pod Endpoint Workload Timers Protocol.
From S2P Require Import Scheduler CoreTypes Specs Adapters RouterOps.

(** A loop whose body can panic. *)
Fixpoint fold_opt {A S} (f : S → A → option S) (s : S) (l : list A) : option S :=
  match l with
  | [] => Some s
  | x :: l => f s x ≫= λ s, fold_opt f s l
  end.

Lemma fold_opt_inv {A S} (P : list A → S → Prop) (f : S → A → option S) l s :
  P l s → (∀ x l s, P (x :: l) s → ∃ s', f s x = Some s' ∧ P l s') →
  ∃ s', fold_opt f s l = Some s' ∧ P [] s'.
Proof.
  intros Hs Hf. revert s Hs. induction l as [|x l IH]; intros s Hs; simpl; [eauto|].
  destruct (Hf _ _ _ Hs) as (s' & -> & Hs'). simpl. auto.
Qed.

Lemma fold_opt_preserve {A S} (I : S → Prop) (f : S → A → option S) l s s' :
  fold_opt f s l = Some s' → (∀ s x s', f s x = Some s' → I s → I s') → I s → I s'.
Proof.
  revert s. induction l as [|x l IH]; intros s Hl Hf Hs; simpl in Hl; [by simplify_eq|].
  destruct (f s x) as [s1|] eqn:E; simpl in Hl; [|done]. eauto.
Qed.

Section Timer.
Context `{RouterOps R}.
(** [TimerAdapter::fire] *)
Definition fire_timer_event (identity : TimerIdentity) (r : R) : R :=
  match identity with
  | TWorkload wl_id key => send_workload_timer_fired TIMER wl_id key r
  | TEndpoint ep_id key => send_endpoint_timer_fired TIMER ep_id key r
  | TPod pod_id key => send_pod_timer_fired TIMER pod_id key r
  end.
End Timer.

(** ** Endpoint demand *)
Module EndpointDemand.
(** (worker, endpoint) ↦ demand port *)
Abbreviation EndpointDemandAdapter := (gmap (Z * Z) Z).

Section Demand.
Context `{RouterOps R} `{!HashIter (Z * Z)}.

Definition push_demand (worker_id : WorkerId) (endpoint_id : EndpointId)
    (signal : EndpointDemandSignal) (s : EndpointDemandAdapter * R) : EndpointDemandAdapter * R :=
  let '(ports, r) := s in
  let '(port_id, ports, r) :=
    match ports !! (worker_id, endpoint_id) with
    | Some id => (id, ports, r)
    | None =>
        let '(id, r) := create_endpoint_demand r in
        let r := set_endpoint_port_demand_edges id [endpoint_id] r in
        (id, <[(worker_id, endpoint_id) := id]> ports, r)
    end in
  match signal with
  | DemandActive active => (ports, set_endpoint_demand_active port_id active r)
  | DemandTraffic => (ports, send_endpoint_demand_traffic port_id endpoint_id r)
  end.

Definition remove_worker (worker_id : WorkerId) (s : EndpointDemandAdapter * R) :
    EndpointDemandAdapter * R :=
  let to_remove := filter (λ k, k.1 = worker_id) (hash_iter s.1).*1 in
  foldl (λ '(ports, r) k,
    match ports !! k with
    | Some port_id => (delete k ports, destroy_endpoint_demand port_id r)
    | None => (ports, r)
    end) s to_remove.

(** Removing a worker removes its ports and no others. *)
Lemma remove_worker_ports w s k :
  (remove_worker w s).1 !! k = if decide (k.1 = w) then None else s.1 !! k.
Proof.
  unfold remove_worker.
  assert (Hl : ∀ l (s : EndpointDemandAdapter * R),
    (foldl (λ '(ports, r) k, match ports !! k with
       | Some port_id => (delete k ports, destroy_endpoint_demand port_id r)
       | None => (ports, r) end) s l).1 !! k = if decide (k ∈ l) then None else s.1 !! k).
  { induction l as [|k' l IH]; intros [ports r]; cbn [foldl]; [by rewrite decide_False by set_solver|].
    rewrite IH. destruct (ports !! k') eqn:E; simpl.
    - destruct (decide (k' = k)) as [->|]; [rewrite lookup_delete_eq|rewrite lookup_delete_ne by done];
        repeat case_decide; try done; set_solver.
    - destruct (decide (k' = k)) as [->|]; [rewrite E|]; repeat case_decide; try done; set_solver. }
  rewrite Hl. destruct (decide (k.1 = w)) as [Hw|Hw].
  - case_decide as Hin; [done|]. apply eq_None_not_Some. intros [p Hp]. apply Hin.
    apply list_elem_of_filter. split; [done|]. apply list_elem_of_fmap. exists (k, p).
    split; [done|]. by apply elem_of_hash_iter.
  - rewrite decide_False; [done|]. rewrite list_elem_of_filter. tauto.
Qed.
End Demand.
End EndpointDemand.

(** ** Artifact ports *)
Module Artifact.
Import ArtifactRef.
Section Artifact.
Context `{RouterOps R} `{!HashIter Z}.

Record ArtifactAdapter := {
  pending_ports : gset Z;
  settled : gmap Z ArtifactAction;
}.
Definition new : ArtifactAdapter := {| pending_ports := ∅; settled := ∅ |}.
Definition register_pending (port_id : ArtifactPortId) (a : ArtifactAdapter) : ArtifactAdapter :=
  {| a with pending_ports := {[port_id]} ∪ pending_ports a |}.

Definition reconcile1 (s : ArtifactAdapter * R) (input : ArtifactPortId * ArtifactRefDelta) :
    ArtifactAdapter * R :=
  let '(a, r) := s in
  let '(port_id, delta) := input in
  match delta with
  | Referenced workload_id =>
      let r := set_artifact_validity_edges port_id [workload_id] r in
      let r := set_artifact_valid port_id true r in
      ({| a with settled := <[port_id := ActReferenced port_id]> (settled a) |}, r)
  | Released _ =>
      let r := destroy_artifact port_id r in
      ({| a with settled := <[port_id := ActReleased port_id]> (settled a) |}, r)
  end.
Definition reconcile (s : ArtifactAdapter * R) : bool * (ArtifactAdapter * R) :=
  let '(a, r) := s in
  let '(inputs, r) := drain_artifact_inputs r in
  match inputs with
  | [] => (false, (a, r))
  | _ => (true, foldl reconcile1 (a, r) inputs)
  end.

Definition finalize (s : ArtifactAdapter * R) : list ArtifactAction * (ArtifactAdapter * R) :=
  let '(a, r) := s in
  let entries := hash_iter (settled a) in
  let a' := {| pending_ports := foldl (λ p e, p ∖ {[e.1]}) (pending_ports a) entries; settled := ∅ |} in
  let orphans := filter (λ p, settled a !! p = None)
    (hash_iter (gset_to_gmap () (pending_ports a'))).*1 in
  (entries.*2 ++ (ActReleased <$> orphans),
   ({| a' with pending_ports := foldl (λ p o, p ∖ {[o]}) (pending_ports a') orphans |},
    foldl (λ r o, destroy_artifact o r) r orphans)).

Definition action_port (a : ArtifactAction) : Z :=
  match a with ActReferenced p | ActReleased p => p end.

(** Every settled action is filed under its own port. *)
Definition filed (a : ArtifactAdapter) : Prop :=
  ∀ p act, settled a !! p = Some act → action_port act = p.

Lemma reconcile1_filed s i : filed s.1 → filed (reconcile1 s i).1.
Proof.
  destruct s as [a r], i as [p d]. intros Hf p' act'. destruct d; simpl; intros Hl;
    (destruct (decide (p' = p)) as [->|];
      [rewrite lookup_insert_eq in Hl; by simplify_eq|rewrite lookup_insert_ne in Hl by done; by apply Hf]).
Qed.

Lemma reconcile_filed s : filed s.1 → filed (reconcile s).2.1.
Proof.
  destruct s as [a r]. unfold reconcile. intros Hf. destruct (drain_artifact_inputs r) as [inputs r'].
  assert (Hl : ∀ l (s : ArtifactAdapter * R), filed s.1 → filed (foldl reconcile1 s l).1).
  { induction l as [|i l IH]; intros s Hs; [done|]. apply IH. by apply reconcile1_filed. }
  destruct inputs; [done|]. by apply Hl.
Qed.

Lemma foldl_remove {A} (f : A → Z) l (p : gset Z) x :
  x ∈ foldl (λ p e, p ∖ {[f e]}) p l ↔ x ∈ p ∧ x ∉ f <$> l.
Proof.
  revert p. induction l as [|e l IH]; intros p; cbn [foldl]; [set_solver|]. rewrite IH. set_solver.
Qed.

(** A cycle settles every artifact port exactly once: finalizing reports one action
    for each port that was registered as pending or referenced or released in the
    cycle (the last one wins, a port nobody referenced is released) and leaves nothing
    pending. *)
Theorem artifact_ports_settled (a : ArtifactAdapter) (r : R) :
  filed a →
  let '(actions, (a', _)) := finalize (a, r) in
  (∀ p, p ∈ action_port <$> actions ↔ p ∈ pending_ports a ∨ is_Some (settled a !! p)) ∧
  NoDup (action_port <$> actions) ∧
  (∀ act, act ∈ actions → settled a !! action_port act = Some act ∨
     settled a !! action_port act = None ∧ act = ActReleased (action_port act)) ∧
  pending_ports a' = ∅ ∧ settled a' = ∅.
Proof.
  intros Hf. simpl. set (entries := hash_iter (settled a)).
  set (pend := foldl (λ p e, p ∖ {[e.1]}) (pending_ports a) entries).
  set (orphans := filter (λ p, settled a !! p = None) (hash_iter (gset_to_gmap () pend)).*1).
  assert (Hin : ∀ p, p ∈ entries.*1 ↔ is_Some (settled a !! p)).
  { intros p. unfold entries. rewrite list_elem_of_fmap. split.
    - intros ([k v] & -> & Hk%elem_of_hash_iter). eauto.
    - intros [v Hv]. exists (p, v). split; [done|]. by apply elem_of_hash_iter. }
  assert (Hports : action_port <$> entries.*2 = entries.*1).
  { rewrite <- list_fmap_compose. apply list_fmap_ext. intros i [p act] Hi. simpl. apply Hf.
    apply list_elem_of_lookup_2 in Hi. by apply elem_of_hash_iter in Hi. }
  assert (Hp : ∀ p, p ∈ pend ↔ p ∈ pending_ports a ∧ settled a !! p = None).
  { intros p. unfold pend. rewrite (foldl_remove fst), Hin, <- eq_None_not_Some. done. }
  assert (Ho : ∀ p, p ∈ orphans ↔ p ∈ pending_ports a ∧ settled a !! p = None).
  { intros p. unfold orphans. rewrite list_elem_of_filter, list_elem_of_fmap, <- Hp. split.
    - intros [_ ([k []] & -> & Hk%elem_of_hash_iter)]. by apply lookup_gset_to_gmap_Some in Hk as [? _].
    - intros Hk. split; [by apply (Hp p)|]. exists (p, ()). split; [done|].
      apply elem_of_hash_iter. by apply lookup_gset_to_gmap_Some. }
  assert (Horph : action_port <$> (ActReleased <$> orphans) = orphans).
  { rewrite <- list_fmap_compose. rewrite <- (list_fmap_id orphans) at 2. by apply list_fmap_ext. }
  split_and!.
  - intros p. rewrite fmap_app, Hports, Horph, elem_of_app, Hin, Ho.
    destruct (settled a !! p) eqn:E; [|naive_solver]. split; eauto.
  - rewrite fmap_app, Hports, Horph. apply NoDup_app. split_and!.
    + apply NoDup_fst_hash_iter.
    + intros p Hp1 Hp2. apply Ho in Hp2 as [_ Hn]. apply Hin in Hp1. rewrite Hn in Hp1. by destruct Hp1.
    + apply NoDup_filter, NoDup_fst_hash_iter.
  - intros act [Hk|Hk]%elem_of_app; apply list_elem_of_fmap in Hk;
      [destruct Hk as ([p act'] & -> & Hk)|destruct Hk as (p & -> & Hk)].
    + left. simpl. apply elem_of_hash_iter in Hk. by rewrite (Hf _ _ Hk).
    + right. simpl. apply Ho in Hk. tauto.
  - apply set_eq. intros p. pose proof (foldl_remove (λ o, o) orphans pend p) as Hr.
    rewrite Hr, list_fmap_id, Ho, Hp. set_solver.
  - done.
Qed.

End Artifact.
End Artifact.

(** ** Workloads and services by name *)
Module Management.
Section Management.
Context `{RouterOps R}.

Record ManagementAdapter := {
  next_workload_id : Z;
  next_service_id : Z;
  proto_to_router_wl : gmap string WorkloadId;
  router_to_proto_wl : gmap Z string;
  proto_to_router_svc : gmap string ServiceId;
  router_to_proto_svc : gmap Z string;
  workload_mgmt : gmap Z ManagementId;
  service_mgmt : gmap Z ManagementId;
  id_registry : IdRegistry.Inner;
}.
Definition new (reg : IdRegistry.Inner) : ManagementAdapter :=
  {| next_workload_id := 1; next_service_id := 1; proto_to_router_wl := ∅; router_to_proto_wl := ∅;
     proto_to_router_svc := ∅; router_to_proto_svc := ∅; workload_mgmt := ∅; service_mgmt := ∅;
     id_registry := reg |}.

Definition to_resource_values (v : Spec.ResourceValues) : ResourceValues :=
  {| rv_memory_mib := Spec.memory_mib v; rv_vcpus := Spec.vcpus v |}.
Definition to_sm_workload_spec (spec : Spec.WorkloadSpec) : WorkloadSpec :=
  {| ws_pod_spec :=
       {| ps_image := default "" (cs_image_ref <$> head (Spec.w_containers spec));
          ps_network := Some (Spec.w_network spec);
          ps_containers := Spec.w_containers spec;
          ps_resources := (λ r, {| rr_requests := to_resource_values <$> Spec.requests r;
                                   rr_limits := to_resource_values <$> Spec.limits r |})
                          <$> Spec.w_resources spec;
          ps_volumes := Spec.w_volumes spec |};
     ws_config :=
       {| wc_suspend_on_idle := Spec.w_suspend_on_idle spec; wc_run_policy := Spec.w_run_policy spec;
          wc_respects_demand := Spec.w_respects_demand spec;
          wc_activation := Spec.w_activation spec |} |}.

Definition to_activator (a : Spec.ActivatorKind) : ActivatorConfig :=
  match a with Spec.Tcp max_flows => ActTcp max_flows | Spec.Http2 => ActHttp2 end.
Definition to_sm_service_spec (m : ManagementAdapter) (name : string) (spec : Spec.ServiceSpec) :
    ServiceSpec :=
  {| ss_workload := default 0 (proto_to_router_wl m !! Spec.s_workload_id spec);
     ss_has_activation := Spec.s_has_activation spec;
     ss_idle_timeout := Spec.s_idle_timeout spec;
     ss_dns_name := Some name;
     ss_dns_ip := Some (Spec.s_ip spec);
     ss_ip := Spec.s_ip spec;
     ss_policy :=
       {| sp_ports := (λ p, {| pc_port := Spec.port p; pc_target_port := Spec.target_port p;
                               pc_activator := to_activator <$> Spec.activator p |})
                      <$> Spec.s_ports spec;
          sp_buffer_frames := Spec.s_buffer_frames spec;
          sp_timeout_ms := Spec.s_buffer_timeout_ms spec |} |}.

(** *** Applying a spec *)
Definition upsert_workload (s : ManagementAdapter * R) (e : string * Spec.WorkloadSpec) :
    option (ManagementAdapter * R) :=
  let '(m, r) := s in
  let '(name, spec) := e in
  match proto_to_router_wl m !! name with
  | Some router_id =>
      mgmt_id ← workload_mgmt m !! router_id;
      Some (m, set_management_wl_spec mgmt_id (to_sm_workload_spec spec) r)
  | None =>
      let router_id := next_workload_id m in
      let '(mgmt_id, r) := create_management r in
      let r := create_workload router_id r in
      let r := set_workload_config_edges mgmt_id [router_id] r in
      let r := set_management_wl_spec mgmt_id (to_sm_workload_spec spec) r in
      Some ({| m with
               next_workload_id := u64_add (next_workload_id m) 1;
               proto_to_router_wl := <[name := router_id]> (proto_to_router_wl m);
               router_to_proto_wl := <[router_id := name]> (router_to_proto_wl m);
               workload_mgmt := <[router_id := mgmt_id]> (workload_mgmt m);
               id_registry := IdRegistry.register_workload router_id name (id_registry m) |}, r)
  end.

Definition remove_workload (new : gmap string Spec.WorkloadSpec) (s : ManagementAdapter * R)
    (name : string) : ManagementAdapter * R :=
  let '(m, r) := s in
  if is_some (new !! name) then (m, r)
  else
    match proto_to_router_wl m !! name with
    | None => (m, r)
    | Some router_id =>
        ({| m with proto_to_router_wl := delete name (proto_to_router_wl m);
                   router_to_proto_wl := delete router_id (router_to_proto_wl m);
                   id_registry := IdRegistry.unregister_workload router_id (id_registry m);
                   workload_mgmt := delete router_id (workload_mgmt m) |},
         match workload_mgmt m !! router_id with
         | Some mgmt_id => destroy_management mgmt_id r
         | None => r
         end)
    end.

Definition upsert_service (s : ManagementAdapter * R) (e : string * Spec.ServiceSpec) :
    option (ManagementAdapter * R) :=
  let '(m, r) := s in
  let '(name, spec) := e in
  match proto_to_router_svc m !! name with
  | Some router_id =>
      mgmt_id ← service_mgmt m !! router_id;
      Some (m, set_management_svc_spec mgmt_id (to_sm_service_spec m name spec) r)
  | None =>
      let router_id := next_service_id m in
      let '(mgmt_id, r) := create_management r in
      let r := create_service router_id r in
      let r := set_service_config_edges mgmt_id [router_id] r in
      let r := set_management_svc_spec mgmt_id (to_sm_service_spec m name spec) r in
      Some ({| m with
               next_service_id := u64_add (next_service_id m) 1;
               proto_to_router_svc := <[name := router_id]> (proto_to_router_svc m);
               router_to_proto_svc := <[router_id := name]> (router_to_proto_svc m);
               service_mgmt := <[router_id := mgmt_id]> (service_mgmt m);
               id_registry := IdRegistry.register_service router_id name (id_registry m) |}, r)
  end.

Definition remove_service (new : gmap string Spec.ServiceSpec) (s : ManagementAdapter * R)
    (name : string) : ManagementAdapter * R :=
  let '(m, r) := s in
  if is_some (new !! name) then (m, r)
  else
    match proto_to_router_svc m !! name with
    | None => (m, r)
    | Some router_id =>
        ({| m with proto_to_router_svc := delete name (proto_to_router_svc m);
                   router_to_proto_svc := delete router_id (router_to_proto_svc m);
                   id_registry := IdRegistry.unregister_service router_id (id_registry m);
                   service_mgmt := delete router_id (service_mgmt m) |},
         match service_mgmt m !! router_id with
         | Some mgmt_id => destroy_management mgmt_id r
         | None => r
         end)
    end.

Definition apply_namespace_spec (old : option Spec.NamespaceSpec) (new : Spec.NamespaceSpec)
    (s : ManagementAdapter * R) : option (ManagementAdapter * R) :=
  let old_workloads := default ∅ (Spec.n_workloads <$> old) in
  let old_services := default ∅ (Spec.n_services <$> old) in
  s ← fold_opt upsert_workload s (names_iter (Spec.n_workloads new));
  let s := foldl (remove_workload (Spec.n_workloads new)) s (names_iter old_workloads).*1 in
  s ← fold_opt upsert_service s (names_iter (Spec.n_services new));
  Some (foldl (remove_service (Spec.n_services new)) s (names_iter old_services).*1).

Definition lookup_workload (m : ManagementAdapter) (name : string) : option WorkloadId :=
  proto_to_router_wl m !! name.
Definition lookup_service (m : ManagementAdapter) (name : string) : option ServiceId :=
  proto_to_router_svc m !! name.
Definition workload_proto_name (m : ManagementAdapter) (id : WorkloadId) : option string :=
  router_to_proto_wl m !! id.
Definition service_proto_name (m : ManagementAdapter) (id : ServiceId) : option string :=
  router_to_proto_svc m !! id.

Definition send_admin_command (workload_name : string) (cmd : AdminCmd) (m : ManagementAdapter)
    (r : R) : R :=
  match proto_to_router_wl m !! workload_name with
  | Some router_id =>
      match workload_mgmt m !! router_id with
      | Some mgmt_id => router_admin_command mgmt_id router_id cmd r
      | None => r
      end
  | None => r
  end.
Definition send_activate_service (service_name : string) (active : bool) (m : ManagementAdapter)
    (r : R) : R :=
  match proto_to_router_svc m !! service_name with
  | Some router_id =>
      match service_mgmt m !! router_id with
      | Some mgmt_id => router_activate_service mgmt_id router_id active r
      | None => r
      end
  | None => r
  end.

Section Hash.
Context `{!HashIter string}.
Definition iter_workloads (m : ManagementAdapter) : list (string * WorkloadId) :=
  hash_iter (proto_to_router_wl m).
Definition iter_services (m : ManagementAdapter) : list (string * ServiceId) :=
  hash_iter (proto_to_router_svc m).

Definition sync_dynamic_ids (r : R) (m : ManagementAdapter) : ManagementAdapter :=
  let reg := foldl (λ reg '(_, svc_id),
    match get_service r svc_id ≫= ServiceSm.endpoint_id with
    | Some ep_id => IdRegistry.register_service_endpoint ep_id svc_id reg
    | None => reg
    end) (id_registry m) (iter_services m) in
  let reg := foldl (λ reg '(_, wl_id),
    match get_workload r wl_id ≫= WorkloadSm.endpoint_id with
    | Some ep_id => IdRegistry.register_workload_endpoint ep_id wl_id reg
    | None => reg
    end) reg (iter_workloads m) in
  let reg := foldl (λ reg '(_, wl_id),
    match get_workload r wl_id ≫= WorkloadSm.pod_id with
    | Some pod_id => IdRegistry.register_pod pod_id wl_id reg
    | None => reg
    end) reg (iter_workloads m) in
  {| m with id_registry := reg |}.
End Hash.

(** *** Two-way names *)
(** One direction of the books: names, ids, management ports and registered names of
    one kind of machine, with the ids below [next]. *)
Record books (next : Z) (fwd : gmap string Z) (bwd : gmap Z string) (mgmt : gmap Z Z)
    (reg : gmap Z string) : Prop := {
  b_bij : ∀ n id, fwd !! n = Some id ↔ bwd !! id = Some n;
  b_mgmt : dom mgmt = dom bwd;
  b_reg : reg = bwd;
  b_fresh : ∀ id, is_Some (bwd !! id) → 1 ≤ id < next;
  b_next : 1 ≤ next < 2 ^ 64;
}.

Lemma books_insert next fwd bwd mgmt reg n mid :
  books next fwd bwd mgmt reg → fwd !! n = None → next + 1 < 2 ^ 64 →
  books (u64_add next 1) (<[n := next]> fwd) (<[next := n]> bwd) (<[next := mid]> mgmt) (<[next := n]> reg).
Proof.
  intros [Hb Hm Hr Hf Hn] Hnone Hlt. assert (Hfresh : bwd !! next = None).
  { apply eq_None_not_Some. intros Hs. apply Hf in Hs. lia. }
  assert (u64_add next 1 = next + 1) as -> by (unfold u64_add; apply wrap_small; lia). split.
  - intros n' id. destruct (decide (n' = n)) as [->|Hne].
    + rewrite lookup_insert_eq. destruct (decide (id = next)) as [->|].
      * rewrite lookup_insert_eq. done.
      * rewrite lookup_insert_ne by done. split; [congruence|]. intros Hl. apply Hb in Hl. congruence.
    + rewrite lookup_insert_ne by done. destruct (decide (id = next)) as [->|].
      * rewrite lookup_insert_eq. split; [|congruence]. intros Hl. apply Hb in Hl. congruence.
      * rewrite lookup_insert_ne by done. apply Hb.
  - by rewrite !dom_insert_L, Hm.
  - by rewrite Hr.
  - intros id [<-|[_ Hs]]%lookup_insert_is_Some; [lia|]. apply Hf in Hs. lia.
  - lia.
Qed.

Lemma books_delete next fwd bwd mgmt reg n id :
  books next fwd bwd mgmt reg → fwd !! n = Some id →
  books next (delete n fwd) (delete id bwd) (delete id mgmt) (delete id reg).
Proof.
  intros [Hb Hm Hr Hf Hn] Hid. split.
  - intros n' id'. rewrite !lookup_delete_Some, Hb. pose proof (proj1 (Hb n id) Hid) as Hbn.
    split; intros [Hne Hl]; (split; [|done]); intros ->.
    + congruence.
    + apply Hb in Hl. congruence.
  - by rewrite !dom_delete_L, Hm.
  - by rewrite Hr.
  - intros id' [_ Hs]%lookup_delete_is_Some. by apply Hf.
  - done.
Qed.

Definition wl_books (m : ManagementAdapter) : Prop :=
  books (next_workload_id m) (proto_to_router_wl m) (router_to_proto_wl m) (workload_mgmt m)
    (IdRegistry.workload_names (id_registry m)).
Definition svc_books (m : ManagementAdapter) : Prop :=
  books (next_service_id m) (proto_to_router_svc m) (router_to_proto_svc m) (service_mgmt m)
    (IdRegistry.service_names (id_registry m)).

(** The names after some were entered and after some were struck, with the ids of the
    others kept. *)
Definition entered (ns : list string) (fwd fwd' : gmap string Z) : Prop :=
  dom fwd' = list_to_set ns ∪ dom fwd ∧ ∀ n id, fwd !! n = Some id → fwd' !! n = Some id.
Definition struck (P : string → Prop) (fwd fwd' : gmap string Z) : Prop :=
  ∀ n id, fwd' !! n = Some id ↔ fwd !! n = Some id ∧ ¬ P n.

Lemma entered_nil fwd : entered [] fwd fwd.
Proof. split; [set_solver|done]. Qed.

Lemma entered_cons n ns fwd fwd1 fwd2 :
  entered [n] fwd fwd1 → entered ns fwd1 fwd2 → entered (n :: ns) fwd fwd2.
Proof. intros [D1 K1] [D2 K2]. split; [rewrite D2, D1; set_solver|eauto]. Qed.

Lemma upsert_workload_step m r n spec :
  wl_books m → svc_books m → next_workload_id m + 1 < 2 ^ 64 →
  ∃ m' r', upsert_workload (m, r) (n, spec) = Some (m', r') ∧ wl_books m' ∧ svc_books m' ∧
    entered [n] (proto_to_router_wl m) (proto_to_router_wl m') ∧
    proto_to_router_svc m' = proto_to_router_svc m ∧
    next_workload_id m' ≤ next_workload_id m + 1 ∧ next_service_id m' = next_service_id m.
Proof.
  intros Hw Hs Hn. simpl. destruct (proto_to_router_wl m !! n) as [id|] eqn:E.
  - destruct (b_bij _ _ _ _ _ Hw n id) as [Hb _]. specialize (Hb E).
    assert (Hd : id ∈ dom (workload_mgmt m))
      by (rewrite (b_mgmt _ _ _ _ _ Hw); by apply elem_of_dom_2 in Hb).
    apply elem_of_dom in Hd as [mid ->]. simpl. exists m. eexists. split_and!; try done; [|lia].
    split; [|done]. apply elem_of_dom_2 in E. set_solver.
  - destruct (create_management r) as [mid r1]. do 2 eexists. split; [done|]. split_and!; try done.
    + apply books_insert; [exact Hw|done|lia].
    + split; simpl; [set_solver|]. intros n' id Hl. rewrite lookup_insert_ne; [done|congruence].
    + simpl. pose proof (b_next _ _ _ _ _ Hw).
      unfold u64_add. rewrite wrap_small by lia. lia.
Qed.

Lemma upsert_service_step m r n spec :
  wl_books m → svc_books m → next_service_id m + 1 < 2 ^ 64 →
  ∃ m' r', upsert_service (m, r) (n, spec) = Some (m', r') ∧ wl_books m' ∧ svc_books m' ∧
    entered [n] (proto_to_router_svc m) (proto_to_router_svc m') ∧
    proto_to_router_wl m' = proto_to_router_wl m ∧
    next_service_id m' ≤ next_service_id m + 1.
Proof.
  intros Hw Hs Hn. simpl. destruct (proto_to_router_svc m !! n) as [id|] eqn:E.
  - destruct (b_bij _ _ _ _ _ Hs n id) as [Hb _]. specialize (Hb E).
    assert (Hd : id ∈ dom (service_mgmt m))
      by (rewrite (b_mgmt _ _ _ _ _ Hs); by apply elem_of_dom_2 in Hb).
    apply elem_of_dom in Hd as [mid ->]. simpl. exists m. eexists. split_and!; try done; [|lia].
    split; [|done]. apply elem_of_dom_2 in E. set_solver.
  - destruct (create_management r) as [mid r1]. do 2 eexists. split; [done|]. split_and!; try done.
    + apply books_insert; [exact Hs|done|lia].
    + split; simpl; [set_solver|]. intros n' id Hl. rewrite lookup_insert_ne; [done|congruence].
    + simpl. pose proof (b_next _ _ _ _ _ Hs).
      unfold u64_add. rewrite wrap_small by lia. lia.
Qed.

Lemma upsert_workloads m r l :
  wl_books m → svc_books m → next_workload_id m + zlen l < 2 ^ 64 →
  ∃ m' r', fold_opt upsert_workload (m, r) l = Some (m', r') ∧ wl_books m' ∧ svc_books m' ∧
    entered l.*1 (proto_to_router_wl m) (proto_to_router_wl m') ∧
    proto_to_router_svc m' = proto_to_router_svc m ∧ next_service_id m' = next_service_id m.
Proof.
  revert m r. induction l as [|[n spec] l IH]; intros m r Hw Hs Hn; cbn [fold_opt].
  { exists m, r. split_and!; try done. apply entered_nil. }
  simpl in Hn. destruct (upsert_workload_step m r n spec) as (m1 & r1 & -> & Hw1 & Hs1 & He & Hp & Hn1 & Hsn);
    [done|done|lia|].
  destruct (IH m1 r1) as (m2 & r2 & E & Hw2 & Hs2 & He2 & Hp2 & Hsn2); [done|done|lia|].
  exists m2, r2. split_and!; try done; [|congruence|congruence]. by eapply entered_cons.
Qed.

Lemma upsert_services m r l :
  wl_books m → svc_books m → next_service_id m + zlen l < 2 ^ 64 →
  ∃ m' r', fold_opt upsert_service (m, r) l = Some (m', r') ∧ wl_books m' ∧ svc_books m' ∧
    entered l.*1 (proto_to_router_svc m) (proto_to_router_svc m') ∧
    proto_to_router_wl m' = proto_to_router_wl m.
Proof.
  revert m r. induction l as [|[n spec] l IH]; intros m r Hw Hs Hn; cbn [fold_opt].
  { exists m, r. split_and!; try done. apply entered_nil. }
  simpl in Hn. destruct (upsert_service_step m r n spec) as (m1 & r1 & -> & Hw1 & Hs1 & He & Hp & Hn1);
    [done|done|lia|].
  destruct (IH m1 r1) as (m2 & r2 & E & Hw2 & Hs2 & He2 & Hp2); [done|done|lia|].
  exists m2, r2. split_and!; try done; [|congruence]. by eapply entered_cons.
Qed.

Lemma struck_step (new : list string) (Q : string → Prop) n fwd fwd1 fwd2 :
  struck (λ x, x = n ∧ Q n) fwd fwd1 → struck (λ x, x ∈ new ∧ Q x) fwd1 fwd2 →
  struck (λ x, x ∈ n :: new ∧ Q x) fwd fwd2.
Proof. intros H1 H2 x id. rewrite (H2 x id), (H1 x id). set_solver. Qed.

Lemma remove_workloads new l m r :
  wl_books m → svc_books m →
  let s := foldl (remove_workload new) (m, r) l in
  wl_books s.1 ∧ svc_books s.1 ∧
  struck (λ n, n ∈ l ∧ new !! n = None) (proto_to_router_wl m) (proto_to_router_wl s.1) ∧
  proto_to_router_svc s.1 = proto_to_router_svc m ∧ next_service_id s.1 = next_service_id m.
Proof.
  revert m r. induction l as [|n l IH]; intros m r Hw Hs; cbn [foldl].
  { split_and!; try done. intros x id. set_solver. }
  assert (Hstep : ∃ m1 r1, remove_workload new (m, r) n = (m1, r1) ∧ wl_books m1 ∧ svc_books m1 ∧
    struck (λ x, x = n ∧ new !! n = None) (proto_to_router_wl m) (proto_to_router_wl m1) ∧
    proto_to_router_svc m1 = proto_to_router_svc m ∧ next_service_id m1 = next_service_id m).
  { simpl. destruct (is_some (new !! n)) eqn:En.
    - exists m, r. split_and!; try done. intros x id. apply is_some_true in En as [? En].
      rewrite En. naive_solver.
    - apply is_some_false in En. destruct (proto_to_router_wl m !! n) as [id|] eqn:E.
      + do 2 eexists. split; [done|]. split_and!; try done.
        * by apply (books_delete _ _ _ _ _ n id Hw).
        * intros x id'. simpl. rewrite lookup_delete_Some. naive_solver.
      + exists m, r. split_and!; try done. intros x id. naive_solver. }
  destruct Hstep as (m1 & r1 & -> & Hw1 & Hs1 & Hst & Hp & Hn).
  destruct (IH m1 r1 Hw1 Hs1) as (Hw2 & Hs2 & Hst2 & Hp2 & Hn2).
  split_and!; try done; [|congruence|congruence].
  apply (struck_step l (λ n, new !! n = None) n _ (proto_to_router_wl m1)); done.
Qed.

Lemma remove_services new l m r :
  wl_books m → svc_books m →
  let s := foldl (remove_service new) (m, r) l in
  wl_books s.1 ∧ svc_books s.1 ∧
  struck (λ n, n ∈ l ∧ new !! n = None) (proto_to_router_svc m) (proto_to_router_svc s.1) ∧
  proto_to_router_wl s.1 = proto_to_router_wl m.
Proof.
  revert m r. induction l as [|n l IH]; intros m r Hw Hs; cbn [foldl].
  { split_and!; try done. intros x id. set_solver. }
  assert (Hstep : ∃ m1 r1, remove_service new (m, r) n = (m1, r1) ∧ wl_books m1 ∧ svc_books m1 ∧
    struck (λ x, x = n ∧ new !! n = None) (proto_to_router_svc m) (proto_to_router_svc m1) ∧
    proto_to_router_wl m1 = proto_to_router_wl m).
  { simpl. destruct (is_some (new !! n)) eqn:En.
    - exists m, r. split_and!; try done. intros x id. apply is_some_true in En as [? En].
      rewrite En. naive_solver.
    - apply is_some_false in En. destruct (proto_to_router_svc m !! n) as [id|] eqn:E.
      + do 2 eexists. split; [done|]. split_and!; try done.
        * by apply (books_delete _ _ _ _ _ n id Hs).
        * intros x id'. simpl. rewrite lookup_delete_Some. naive_solver.
      + exists m, r. split_and!; try done. intros x id. naive_solver. }
  destruct Hstep as (m1 & r1 & -> & Hw1 & Hs1 & Hst & Hp).
  destruct (IH m1 r1 Hw1 Hs1) as (Hw2 & Hs2 & Hst2 & Hp2).
  split_and!; try done; [|congruence].
  apply (struck_step l (λ n, new !! n = None) n _ (proto_to_router_svc m1)); done.
Qed.

(** Entering the new names and striking the old ones that are gone leaves the new. *)
Lemma entered_struck {V} (old new : gmap string V) fwd fwd1 fwd2 :
  dom fwd = dom old → entered (names_iter new).*1 fwd fwd1 →
  struck (λ n, n ∈ (names_iter old).*1 ∧ new !! n = None) fwd1 fwd2 →
  dom fwd2 = dom new ∧
  ∀ n id, fwd !! n = Some id → n ∈ dom new → fwd2 !! n = Some id.
Proof.
  intros Hd [D1 K1] Hst. split.
  - apply set_eq. intros n. rewrite elem_of_dom. unfold is_Some, struck in *. setoid_rewrite (Hst n).
    assert (Hn1 : n ∈ dom fwd1 ↔ n ∈ dom new ∨ n ∈ dom old).
    { rewrite D1, elem_of_union, elem_of_list_to_set, elem_of_names, Hd. done. }
    pose proof (elem_of_names old n) as Ho. pose proof (not_elem_of_dom new n) as Hnew.
    rewrite elem_of_dom in Hn1. split.
    + intros (id & Hl & Hno). assert (is_Some (fwd1 !! n)) by eauto.
      destruct (decide (n ∈ dom new)); [done|]. tauto.
    + intros Hin. destruct (proj2 Hn1 (or_introl Hin)) as [id Hl]. exists id. split; [done|]. tauto.
  - intros n id Hl Hin. apply Hst. split; [by apply K1|]. rewrite <- not_elem_of_dom. tauto.
Qed.

(** The adapter holds exactly the names of a spec. *)
Definition mirrors (m : ManagementAdapter) (spec : option Spec.NamespaceSpec) : Prop :=
  wl_books m ∧ svc_books m ∧
  dom (proto_to_router_wl m) = dom (default ∅ (Spec.n_workloads <$> spec)) ∧
  dom (proto_to_router_svc m) = dom (default ∅ (Spec.n_services <$> spec)).

Lemma zlen_names_iter {V} (l : gmap string V) : zlen (names_iter l) = Z.of_nat (size l).
Proof. unfold names_iter. rewrite merge_sort_Permutation. by rewrite length_map_to_list. Qed.

Lemma apply_spec_mirrors old new m r :
  mirrors m old →
  next_workload_id m + Z.of_nat (size (Spec.n_workloads new)) < 2 ^ 64 →
  next_service_id m + Z.of_nat (size (Spec.n_services new)) < 2 ^ 64 →
  ∃ m' r', apply_namespace_spec old new (m, r) = Some (m', r') ∧ mirrors m' (Some new) ∧
    (∀ n id, lookup_workload m n = Some id → n ∈ dom (Spec.n_workloads new) →
       lookup_workload m' n = Some id) ∧
    (∀ n id, lookup_service m n = Some id → n ∈ dom (Spec.n_services new) →
       lookup_service m' n = Some id).
Proof.
  intros (Hw & Hs & Hdw & Hds) Hlw Hls. unfold apply_namespace_spec.
  destruct (upsert_workloads m r (names_iter (Spec.n_workloads new)))
    as (m1 & r1 & -> & Hw1 & Hs1 & He1 & Hp1 & Hn1); [done|done|by rewrite zlen_names_iter|]. simpl.
  destruct (remove_workloads (Spec.n_workloads new)
    (names_iter (default ∅ (Spec.n_workloads <$> old))).*1 m1 r1 Hw1 Hs1) as (Hw2 & Hs2 & Hst2 & Hp2 & Hn2).
  destruct (foldl (remove_workload _) _ _) as [m2 r2]. cbn [fst] in *.
  destruct (upsert_services m2 r2 (names_iter (Spec.n_services new)))
    as (m3 & r3 & -> & Hw3 & Hs3 & He3 & Hp3); [done|done|rewrite zlen_names_iter; lia|]. simpl.
  destruct (remove_services (Spec.n_services new)
    (names_iter (default ∅ (Spec.n_services <$> old))).*1 m3 r3 Hw3 Hs3) as (Hw4 & Hs4 & Hst4 & Hp4).
  destruct (foldl (remove_service _) _ _) as [m4 r4]. cbn [fst] in *.
  destruct (entered_struck _ _ _ _ _ Hdw He1 Hst2) as [Dw Kw].
  rewrite Hp2, Hp1 in He3.
  destruct (entered_struck _ _ _ _ _ Hds He3 Hst4) as [Ds Ks].
  exists m4, r4. unfold mirrors, lookup_workload, lookup_service. rewrite Hp4, Hp3.
  split_and!; try done.
Qed.

(** Registering endpoints and pods leaves the names alone. *)
Lemma sync_dynamic_ids_mirrors `{!HashIter string} r m spec :
  mirrors m spec → mirrors (sync_dynamic_ids r m) spec.
Proof.
  set (names reg := (IdRegistry.workload_names reg, IdRegistry.service_names reg)).
  assert (Hl : ∀ {A} (f : IdRegistry.Inner → A → IdRegistry.Inner) l reg nm,
    (∀ reg x, names (f reg x) = names reg) → names reg = nm → names (foldl f reg l) = nm).
  { intros A f l. induction l as [|x l IH]; intros reg nm Hf Hr; [done|]. apply IH; [done|]. by rewrite Hf. }
  assert (E : names (id_registry (sync_dynamic_ids r m)) = names (id_registry m)).
  { unfold sync_dynamic_ids. cbn [id_registry].
    do 3 (apply Hl; [intros ? [? ?]; by destruct (_ ≫= _)|]). done. }
  unfold names in E. apply pair_equal_spec in E as [E1 E2]. unfold mirrors, wl_books, svc_books. by rewrite E1, E2.
Qed.

(** Applying a spec never panics and leaves the adapter with exactly the workloads
    and services of the spec: names and router ids are in two-way agreement with each
    other, with the management ports and with the registry, ids are fresh, and a name
    that stays keeps its id. *)
Theorem management_mirrors_spec old new m r :
  mirrors m old →
  next_workload_id m + Z.of_nat (size (Spec.n_workloads new)) < 2 ^ 64 →
  next_service_id m + Z.of_nat (size (Spec.n_services new)) < 2 ^ 64 →
  ∃ m' r', apply_namespace_spec old new (m, r) = Some (m', r') ∧ mirrors m' (Some new) ∧
    (∀ n id, lookup_workload m n = Some id → n ∈ dom (Spec.n_workloads new) →
       lookup_workload m' n = Some id) ∧
    (∀ n id, lookup_service m n = Some id → n ∈ dom (Spec.n_services new) →
       lookup_service m' n = Some id).
Proof. apply apply_spec_mirrors. Qed.

End Management.
End Management.
