(* ===== verification/NamespaceCore.v ===== *)
(** * The namespace core ([core/namespace/inner.rs], [core/namespace/mod.rs])

    A namespace owns the router with the state machines of its workloads, services,
    pods and endpoints, the adapters around it, the workers that joined it and the
    addresses it handed out.  Every message runs one cycle: the message is written to
    the router, then the router propagates and the adapters turn what changed into
    effects until nothing writes to the router any more.

    [expect], [unwrap] and indexing panic in the source: the functions that can panic
    return an [option].  The cycle is a loop that only the router can end, so it takes
    fuel; [run] tells a panic from running out of it. *)

From stdpp Require Import pretty.
From S2P Require Import Prelude SmTypes IpAlloc Pod Endpoint Workload Timers Protocol.
From S2P Require Import Scheduler CoreTypes Specs Adapters RouterOps Management.

(** ** Outcomes of a loop that can panic *)
Inductive run (A : Type) := Done (a : A) | Panicked | OutOfFuel.
Arguments Done {A} a.
Arguments Panicked {A}.
Arguments OutOfFuel {A}.
Definition run_bind {A B} (m : run A) (f : A → run B) : run B :=
  match m with Done a => f a | Panicked => Panicked | OutOfFuel => OutOfFuel end.
Definition of_option {A} (o : option A) : run A :=
  match o with Some a => Done a | None => Panicked end.
Declare Scope run_scope.
Delimit Scope run_scope with run.
Notation "x <- m ;; f" := (run_bind m (λ x, f))
  (at level 100, m at next level, right associativity) : run_scope.

(** ** Text *)
(** [u64::to_string], [i32::to_string] *)
Definition to_string (z : Z) : string := pretty z.
(** [Ipv4Addr::to_string] *)
Definition ip_to_string (ip : Ipv4Addr) : string :=
  to_string (wrap 8 (Z.shiftr ip 24)) +:+ "." +:+ to_string (wrap 8 (Z.shiftr ip 16)) +:+ "." +:+
  to_string (wrap 8 (Z.shiftr ip 8)) +:+ "." +:+ to_string (wrap 8 ip).

Definition default_pod_network : PodNetworkConfig :=
  {| pnc_ip := 0; pnc_mac := [0; 0; 0; 0; 0; 0]; pnc_gateway := 0; pnc_netmask := "" |}.

(** The subtraction is a [u8] one; a shift of a [u32] uses five bits of its count. *)
Definition netmask_bits (prefix_len : Z) : Z :=
  if prefix_len =? 0 then 0
  else wrap 32 (Z.shiftl u32_max (Z.land (wrap 8 (32 - prefix_len)) 31)).
Definition prefix_len_to_netmask (prefix_len : Z) : string :=
  ip_to_string (netmask_bits prefix_len).

(** ** Effects *)
Record NamespaceEffects := {
  timer_actions : list TimerAction;
  scheduler_messages : list SchedulerMessage;
  ns_worker_commands : list (GlobalWorkerId * WorkerCommand);
  broadcast_commands : list WorkerCommand;
  observability_events : list Observability.ObservabilityEvent;
}.
Definition effects_default : NamespaceEffects :=
  {| timer_actions := []; scheduler_messages := []; ns_worker_commands := [];
     broadcast_commands := []; observability_events := [] |}.
Definition effects_is_empty (e : NamespaceEffects) : bool :=
  match timer_actions e, scheduler_messages e, ns_worker_commands e, broadcast_commands e with
  | [], [], [], [] => true
  | _, _, _, _ => false
  end.

Definition push_worker_command (w : GlobalWorkerId) (cmd : WorkerCommand) (e : NamespaceEffects) :
    NamespaceEffects :=
  {| e with ns_worker_commands := ns_worker_commands e ++ [(w, cmd)] |}.
Definition push_broadcast_command (cmd : WorkerCommand) (e : NamespaceEffects) : NamespaceEffects :=
  {| e with broadcast_commands := broadcast_commands e ++ [cmd] |}.
Definition push_scheduler_message (m : SchedulerMessage) (e : NamespaceEffects) : NamespaceEffects :=
  {| e with scheduler_messages := scheduler_messages e ++ [m] |}.
Definition push_observability (o : Observability.ObservabilityEvent) (e : NamespaceEffects) :
    NamespaceEffects :=
  {| e with observability_events := observability_events e ++ [o] |}.

Record NamespaceOutput := {
  to_orchestrator : list NamespaceToOrchestrator;
  no_worker_commands : list (GlobalWorkerId * WorkerCommand);
  no_broadcast_commands : list WorkerCommand;
  no_observability_events : list Observability.ObservabilityEvent;
}.
Definition ns_output_default : NamespaceOutput :=
  {| to_orchestrator := []; no_worker_commands := []; no_broadcast_commands := [];
     no_observability_events := [] |}.
Definition ns_output_merge (a b : NamespaceOutput) : NamespaceOutput :=
  {| to_orchestrator := to_orchestrator a ++ to_orchestrator b;
     no_worker_commands := no_worker_commands a ++ no_worker_commands b;
     no_broadcast_commands := no_broadcast_commands a ++ no_broadcast_commands b;
     no_observability_events := no_observability_events a ++ no_observability_events b |}.

(** ** Status reports ([types/client.rs], [types/states.rs]) *)
Module Status.
Inductive PodStatus :=
  | Launching | Running | Suspending | Suspended | Resuming
  | Finished (exit_code : Z) | Failed (exit_code : option Z) (reason : string) | Displaced.
Inductive WorkloadStatus :=
  | WDormant | WWaitingForSpec | WLaunching | WRunning | WSuspending | WSuspended | WRetryBackoff
  | WFailed (exit_code : option Z) (reason : string) | WCompleted (exit_code : Z).
Inductive ServiceStatus := SPending | SIdle | SNeedBackend | SActive.
Inductive NamespaceStatus := Creating | Active | Destroying.
Record WorkloadStatusReport := {
  wr_state : WorkloadStatus; wr_pod_id : option PodId; wr_ip : string; wr_restart_count : Z;
  wr_conditions : gmap string string; wr_labels : gmap string string }.
Record ServiceStatusReport := {
  sr_workload_id : string; sr_service_state : ServiceStatus; sr_backend_need : option BackendNeed;
  sr_activation_enabled : bool; sr_ip : string;
  sr_conditions : gmap string string; sr_labels : gmap string string }.
Record PodStatusReport := {
  pr_pod_id : PodId; pr_workload_id : string; pr_worker_id : WorkerId; pr_ip : string;
  pr_state : PodStatus }.
Record NamespaceStatusReport := {
  nr_namespace_id : NamespaceId; nr_status : NamespaceStatus;
  nr_workloads : gmap string WorkloadStatusReport; nr_services : gmap string ServiceStatusReport;
  nr_pods : gmap Z PodStatusReport }.
End Status.

Definition sm_wl_status_to_client (s : WlStatus) : Status.WorkloadStatus :=
  match s with
  | WlDormant => Status.WDormant
  | WlWaitingForSpec => Status.WWaitingForSpec
  | WlLaunching => Status.WLaunching
  | WlRunning => Status.WRunning
  | WlSuspending => Status.WSuspending
  | WlSuspended => Status.WSuspended
  | WlRetryBackoff => Status.WRetryBackoff
  | WlFailed exit_code reason => Status.WFailed exit_code reason
  | WlCompleted exit_code => Status.WCompleted exit_code
  end.
Definition sm_endpoint_status_to_client (s : EndpointSm.EndpointStatus) : Status.ServiceStatus :=
  match s with
  | EndpointSm.StIdle => Status.SIdle
  | EndpointSm.StNeedBackend => Status.SNeedBackend
  | EndpointSm.StActive => Status.SActive
  end.
Definition sm_pod_status_to_client (s : PodStatus) : Status.PodStatus :=
  match s with
  | Pending => Status.Launching
  | Running => Status.Running
  | Suspending => Status.Suspending
  | Suspended _ => Status.Suspended
  | Finished exit_code => Status.Finished exit_code
  | PodFailed exit_code reason => Status.Failed exit_code reason
  | Displaced => Status.Displaced
  end.

(** ** The namespace *)
Module Namespace.
Import Management.

(** A worker that joined the namespace and has not confirmed its creation; one that has. *)
Record PendingWorker := { pw_info : WorkerInfo }.
Record ActiveWorkerInfo := { default_pool : option PoolId }.
Record ResolvedPatch := {
  rp_workloads : gmap string Spec.WorkloadSpec; rp_services : gmap string Spec.ServiceSpec }.
(** The adapters that keep state; those for timers, pod assignments, schedule requests
    and observability keep none. *)
Record Adapters := {
  management : ManagementAdapter;
  endpoint_demand : EndpointDemand.EndpointDemandAdapter;
  endpoint : EndpointAdapter.EndpointAdapter;
  dns_registry : DnsRegistry.DnsRegistryAdapter;
  artifact : Artifact.ArtifactAdapter;
}.
Record ReconcileActions := {
  ra_timer_actions : list TimerAction;
  ra_schedule_deltas : list ScheduleRequest.ScheduleRequestDelta;
  ra_pod_actions : list PodAssignment.PodAssignmentAction;
  ra_endpoint_actions : list EndpointAdapter.EndpointAction;
  ra_dns_registry_actions : list DnsRegistry.DnsRegistryAction;
  ra_observability_events : list Observability.ObservabilityEvent;
}.

Section Namespace.
Context `{RouterOps R} `{!HashIter Z} `{!HashIter (Z * Z)} `{!HashIter string}.

Record Namespace := {
  namespace_id : NamespaceId;
  router : R;
  adapters : Adapters;
  leases : gmap Z ScheduleLeaseId;
  worker_pod_edges : gmap Z (gset Z);
  pod_worker : gmap Z WorkerId;
  current_spec : option Spec.NamespaceSpec;
  ip_allocator : Ip.NamespaceIpAllocator;
  wg_peer_mgr : Wg.WireGuardPeerManager;
  wg_peer_ports : gmap (list Z) WireGuardPeerId;
  pending_workers : gmap Z PendingWorker;
  active_workers : gmap Z ActiveWorkerInfo;
  deferred_grants : list (PodId * GlobalWorkerId);
  buffered_worker_commands : gmap Z (list WorkerCommand);
  next_artifact_counter : Z;
}.

Definition new (ns : NamespaceId) (network : NetworkConfig) (reg : IdRegistry.Inner) : Namespace :=
  let router := new_router 16 in
  let router := create_timer TIMER router in
  let router := create_schedule_request SCHEDULE_REQUEST router in
  let router := create_fabric_endpoint FABRIC_ENDPOINT router in
  let router := create_dns_registry DNS_REGISTRY router in
  let router := create_observability OBSERVABILITY router in
  {| namespace_id := ns;
     router := router;
     adapters := {| management := Management.new reg; endpoint_demand := ∅;
                    endpoint := EndpointAdapter.new; dns_registry := ∅; artifact := Artifact.new |};
     leases := ∅; worker_pod_edges := ∅; pod_worker := ∅; current_spec := None;
     ip_allocator := Ip.new (nc_subnet network) (nc_prefix_len network) 10;
     wg_peer_mgr := Wg.new (nc_subnet network) (nc_prefix_len network);
     wg_peer_ports := ∅; pending_workers := ∅; active_workers := ∅; deferred_grants := [];
     buffered_worker_commands := ∅; next_artifact_counter := 0 |}.

Abbreviation st := (Namespace * NamespaceEffects)%type.

Definition on_router (f : R → R) (n : Namespace) : Namespace := {| n with router := f (router n) |}.
Definition with_adapters (f : Adapters → Adapters) (n : Namespace) : Namespace :=
  {| n with adapters := f (adapters n) |}.

(** *** Pods on workers *)
Definition pod_list (pods : gset Z) : list Z := (hash_iter (gset_to_gmap () pods)).*1.

Definition add_pod_to_worker (worker_id : WorkerId) (pod_id : PodId) (n : Namespace) : Namespace :=
  let pods := {[pod_id]} ∪ default ∅ (worker_pod_edges n !! worker_id) in
  on_router (set_worker_assignment_edges worker_id (pod_list pods))
    {| n with pod_worker := <[pod_id := worker_id]> (pod_worker n);
              worker_pod_edges := <[worker_id := pods]> (worker_pod_edges n) |}.

Definition remove_pod_from_worker (pod_id : PodId) (n : Namespace) : Namespace :=
  match pod_worker n !! pod_id with
  | None => n
  | Some worker_id =>
      let n := {| n with pod_worker := delete pod_id (pod_worker n) |} in
      match worker_pod_edges n !! worker_id with
      | None => n
      | Some pods =>
          let pods := pods ∖ {[pod_id]} in
          on_router (set_worker_assignment_edges worker_id (pod_list pods))
            {| n with worker_pod_edges := <[worker_id := pods]> (worker_pod_edges n) |}
      end
  end.

(** [worker_pod_edges.remove] with the reverse entries of the pods *)
Definition forget_worker_pods (worker_id : WorkerId) (n : Namespace) : Namespace :=
  match worker_pod_edges n !! worker_id with
  | None => n
  | Some pods =>
      {| n with worker_pod_edges := delete worker_id (worker_pod_edges n);
                pod_worker := foldl (λ m p, delete p m) (pod_worker n) (pod_list pods) |}
  end.

Definition apply_grant (worker_id : WorkerId) (n : Namespace) (pod_id : PodId) : Namespace :=
  match get_pod (router n) pod_id with
  | None => n
  | Some _ =>
      let '(lease_id, r) := create_schedule_lease (router n) in
      let r := set_schedule_lease_lease lease_id {| li_worker_id := worker_id |} r in
      let r := set_pod_lease_edges lease_id [pod_id] r in
      add_pod_to_worker worker_id pod_id
        {| n with router := r; leases := <[pod_id := lease_id]> (leases n) |}
  end.

Definition retain_grants (worker_id : WorkerId) (l : list (PodId * GlobalWorkerId)) :
    list (PodId * GlobalWorkerId) := filter (λ g, g.2 ≠ worker_id) l.

Definition worker_connected (worker_id : GlobalWorkerId) (info : WorkerInfo) (n : Namespace) :
    Namespace :=
  let n := on_router (set_worker_info worker_id info) (on_router (create_worker worker_id) n) in
  let n := {| n with pending_workers := <[worker_id := {| pw_info := info |}]> (pending_workers n) |} in
  let deferred := (filter (λ g, g.2 = worker_id) (deferred_grants n)).*1 in
  let n := {| n with deferred_grants := retain_grants worker_id (deferred_grants n) |} in
  foldl (apply_grant worker_id) n deferred.

Definition worker_disconnected (worker_id : GlobalWorkerId) (n : Namespace) : Namespace :=
  let was_active := is_some (active_workers n !! worker_id) in
  let was_pending := is_some (pending_workers n !! worker_id) in
  let n := {| n with active_workers := delete worker_id (active_workers n);
                     pending_workers := delete worker_id (pending_workers n);
                     deferred_grants := retain_grants worker_id (deferred_grants n);
                     buffered_worker_commands := delete worker_id (buffered_worker_commands n) |} in
  if was_active || was_pending then
    let n := forget_worker_pods worker_id n in
    let n := if was_active then
        let '(d, r) := EndpointDemand.remove_worker worker_id (endpoint_demand (adapters n), router n) in
        on_router (λ _, r) (with_adapters (λ a, {| a with endpoint_demand := d |}) n)
      else n in
    on_router (destroy_worker worker_id) n
  else n.

Definition scheduler_decision (decision : Scheduler.SchedulerDecision) (n : Namespace) : Namespace :=
  match decision with
  | Scheduler.Grant _ pod_id worker_id =>
      if is_some (active_workers n !! worker_id) || is_some (pending_workers n !! worker_id) then
        apply_grant worker_id n pod_id
      else {| n with deferred_grants := deferred_grants n ++ [(pod_id, worker_id)] |}
  | Scheduler.Revoke _ pod_id _ =>
      let n := match leases n !! pod_id with
        | Some lease_id =>
            on_router (destroy_schedule_lease lease_id)
              {| n with leases := delete pod_id (leases n) |}
        | None => n
        end in
      remove_pod_from_worker pod_id n
  end.

(** *** Commands *)
Definition fill_network_from_namespace (n : Namespace) (network : PodNetworkConfig) :
    PodNetworkConfig :=
  match current_spec n with
  | Some spec =>
      {| network with pnc_gateway := nc_gateway (Spec.n_network spec);
                      pnc_netmask := prefix_len_to_netmask (nc_prefix_len (Spec.n_network spec)) |}
  | None => network
  end.

Definition pod_network (n : Namespace) (spec : option WorkloadSpec) : PodNetworkConfig :=
  fill_network_from_namespace n
    (default default_pod_network (spec ≫= λ s, ps_network (ws_pod_spec s))).

Definition build_launch_command (n : Namespace) (pod_id : PodId) (spec : option WorkloadSpec) :
    WorkerCommand :=
  Command.LaunchPod (namespace_id n) pod_id (pod_network n spec)
    (default [] ((λ s, ps_containers (ws_pod_spec s)) <$> spec))
    (spec ≫= λ s, ps_resources (ws_pod_spec s))
    (default [] ((λ s, ps_volumes (ws_pod_spec s)) <$> spec)).

(** The pool of an active worker that has one; the callers [expect] it. *)
Definition worker_pool (n : Namespace) (worker_id : GlobalWorkerId) : option PoolId :=
  active_workers n !! worker_id ≫= default_pool.

Definition build_resume_command (n : Namespace) (worker_id : GlobalWorkerId) (pod_id : PodId)
    (artifact_id : ArtifactId) (spec : option WorkloadSpec) : option WorkerCommand :=
  pool_id ← worker_pool n worker_id;
  Some (Command.ResumePod (namespace_id n) pod_id artifact_id (pod_network n spec) pool_id).

Definition placement_of (b : EndpointBackendInfo) : EndpointPlacement :=
  {| epl_worker_id := eb_worker_id b |}.
Definition service_backend (b : EndpointBackendInfo) : option EndpointPodBackend :=
  pod_ip ← eb_ip b;
  Some {| epb_pod_ip := pod_ip; epb_placement := Some (placement_of b); epb_ready := true |}.

Definition build_endpoint_spec_from_info (info : EndpointSm.EndpointInfo) : option EndpointSpec :=
  match EndpointSm.ei_kind info with
  | EndpointSm.KService service_id policy =>
      backend ← match EndpointSm.ei_backend info with
                | None => Some None
                | Some b => Some <$> service_backend b
                end;
      Some {| esp_ip := EndpointSm.ei_ip info; esp_kind := KindService service_id policy backend |}
  | EndpointSm.KWorkload =>
      Some {| esp_ip := EndpointSm.ei_ip info;
              esp_kind := KindPod (placement_of <$> EndpointSm.ei_backend info) |}
  end.
Definition wg_endpoint_spec (info : WireGuardPeerEndpointInfo) : EndpointSpec :=
  {| esp_ip := wpe_peer_ip info;
     esp_kind := KindWireGuardPeer (Some {| epl_worker_id := wpe_worker_id info |}) |}.
Definition add_wg_peer (n : Namespace) (info : WireGuardPeerEndpointInfo) : WorkerCommand :=
  Command.AddWireGuardPeer (namespace_id n) (wpe_peer_public_key info) (wpe_peer_ip info) None.

Definition build_endpoint_command (n : Namespace) (action : EndpointAdapter.EndpointAction) :
    option WorkerCommand :=
  match action with
  | EndpointAdapter.Update _ info =>
      endpoint_spec ← build_endpoint_spec_from_info info;
      Some (Command.EndpointUpdate (namespace_id n) [endpoint_spec] [])
  | EndpointAdapter.Remove _ old_info =>
      Some (Command.EndpointUpdate (namespace_id n) [] [EndpointSm.ei_ip old_info])
  | EndpointAdapter.WireGuardPeerUpdate _ info =>
      Some (Command.EndpointUpdate (namespace_id n) [wg_endpoint_spec info] [])
  | EndpointAdapter.WireGuardPeerRemove _ old_info =>
      Some (Command.EndpointUpdate (namespace_id n) [] [wpe_peer_ip old_info])
  end.

(** *** Worker events *)
Definition handle_namespace_created (worker_id : GlobalWorkerId) (s : st) : option st :=
  let '(n, e) := s in
  match pending_workers n !! worker_id with
  | None => Some (n, e)
  | Some pending =>
      let n := {| n with pending_workers := delete worker_id (pending_workers n);
                         active_workers :=
                           <[worker_id := {| default_pool := wi_default_pool (pw_info pending) |}]>
                             (active_workers n) |} in
      let sync_entries := DnsRegistry.build_sync (dns_registry (adapters n)) in
      let e := match sync_entries with
        | [] => e
        | _ => push_worker_command worker_id
                 (Command.RegistrySync (namespace_id n)
                    ((λ '(name, ip), {| re_name := name; re_ip := ip |}) <$> sync_entries)) e
        end in
      let wg_peers := EndpointAdapter.build_wg_peer_sync (endpoint (adapters n)) in
      eps ← mapM (λ x, build_endpoint_spec_from_info x.2)
              (EndpointAdapter.build_endpoint_sync (endpoint (adapters n)));
      let endpoints := eps ++ ((λ x, wg_endpoint_spec x.2) <$> wg_peers) in
      let e := match endpoints with
        | [] => e
        | _ => push_worker_command worker_id (Command.EndpointSync (namespace_id n) endpoints) e
        end in
      let e := foldl (λ e x,
        if decide (wpe_worker_id x.2 = worker_id) then
          push_worker_command worker_id (add_wg_peer n x.2) e
        else e) e wg_peers in
      let e := foldl (λ e cmd, push_worker_command worker_id cmd e) e
        (default [] (buffered_worker_commands n !! worker_id)) in
      Some ({| n with buffered_worker_commands := delete worker_id (buffered_worker_commands n) |}, e)
  end.

Definition notify_status (worker_id : WorkerId) (pod_id : PodId) (status : PodStatus)
    (n : Namespace) : Namespace :=
  match get_pod (router n) pod_id with
  | Some _ => on_router (send_notify_pod_status worker_id pod_id status) n
  | None => n
  end.
Definition exit_status (exit_code : Z) : PodStatus :=
  if exit_code =? 0 then Finished exit_code
  else PodFailed (Some exit_code) ("process exited with code " +:+ to_string exit_code).

Definition dispatch_active_worker_event (worker_id : WorkerId) (event : WorkerNamespaceEventKind)
    (s : st) : option st :=
  let '(n, e) := s in
  match event with
  | NsEvent.PodRunning pod_id => Some (notify_status worker_id pod_id Running n, e)
  | NsEvent.PodExited pod_id exit_code =>
      Some (notify_status worker_id pod_id (exit_status exit_code) n, e)
  | NsEvent.PodFailed pod_id error =>
      Some (notify_status worker_id pod_id (PodFailed None error) n, e)
  | NsEvent.PodSuspended pod_id artifact_id =>
      match get_pod (router n) pod_id with
      | None => Some (n, e)
      | Some _ =>
          artifact_port_id ← Scheduler.parse_u64 artifact_id;
          let n := on_router (create_artifact artifact_port_id) n in
          let n := with_adapters (λ a,
            {| a with artifact := Artifact.register_pending artifact_port_id (artifact a) |}) n in
          Some (on_router (send_notify_pod_suspended worker_id pod_id artifact_port_id) n, e)
      end
  | NsEvent.PodSuspendFailed pod_id =>
      Some (notify_status worker_id pod_id (PodFailed None "suspend failed") n, e)
  | NsEvent.EndpointDemand ip _ signal =>
      match find_map (λ x, if decide (EndpointSm.ip x.2 = ip) then Some x.1 else None)
              (iter_endpoint (router n)) with
      | None => Some (n, e)
      | Some endpoint_id =>
          let '(d, r) := EndpointDemand.push_demand worker_id endpoint_id signal
                           (endpoint_demand (adapters n), router n) in
          Some (on_router (λ _, r) (with_adapters (λ a, {| a with endpoint_demand := d |}) n), e)
      end
  | NsEvent.PodMemoryConstrained pod_id reason =>
      Some (n, push_observability (Observability.Pod pod_id (Observability.MemoryConstrained reason)) e)
  | NsEvent.PodMemoryConstraintCleared pod_id =>
      Some (n, push_observability (Observability.Pod pod_id Observability.MemoryConstraintCleared) e)
  | NsEvent.PodOomKill pod_id count =>
      Some (n, push_observability (Observability.Pod pod_id (Observability.OomKill count)) e)
  | NsEvent.NamespaceCreated | NsEvent.NamespaceFailed _ => None
  end.

Definition namespace_failed (worker_id : GlobalWorkerId) (n : Namespace) : Namespace :=
  let n := {| n with pending_workers := delete worker_id (pending_workers n);
                     deferred_grants := retain_grants worker_id (deferred_grants n);
                     buffered_worker_commands := delete worker_id (buffered_worker_commands n) |} in
  on_router (destroy_worker worker_id) (forget_worker_pods worker_id n).

Definition handle_worker_event (worker_id : GlobalWorkerId) (event : WorkerNamespaceEventKind)
    (s : st) : option st :=
  match event with
  | NsEvent.NamespaceCreated => handle_namespace_created worker_id s
  | NsEvent.NamespaceFailed _ => Some (namespace_failed worker_id s.1, s.2)
  | _ =>
      if is_some (active_workers s.1 !! worker_id) then
        dispatch_active_worker_event worker_id event s
      else Some s
  end.

(** *** WireGuard peers and client commands *)
Definition wg_output (worker_id : WorkerId) (n : Namespace) (output : Wg.WgPeerOutput) : Namespace :=
  match output with
  | Wg.AddPeer key ip =>
      let '(port, r) := create_wire_guard_peer (router n) in
      let r := set_wire_guard_peer_endpoint_info port
        (Some {| wpe_peer_ip := ip; wpe_worker_id := worker_id; wpe_peer_public_key := key |}) r in
      let r := set_wire_guard_peer_endpoints_edges port [FABRIC_ENDPOINT] r in
      {| n with router := r; wg_peer_ports := <[key := port]> (wg_peer_ports n) |}
  | Wg.RemovePeer _ => n
  end.
Definition handle_wg_connect (client_public_key : list Z) (worker_id : WorkerId) (n : Namespace) :
    Namespace :=
  let '(result, mgr) := Wg.connect client_public_key (wg_peer_mgr n) in
  let n := {| n with wg_peer_mgr := mgr |} in
  match result with
  | Wg.ConnectOk _ outputs => foldl (wg_output worker_id) n outputs
  | Wg.ConnectError _ => n
  end.
Definition wg_removed (n : Namespace) (output : Wg.WgPeerOutput) : Namespace :=
  match output with
  | Wg.RemovePeer key =>
      match wg_peer_ports n !! key with
      | Some port =>
          on_router (destroy_wire_guard_peer port)
            {| n with wg_peer_ports := delete key (wg_peer_ports n) |}
      | None => n
      end
  | Wg.AddPeer _ _ => n
  end.
Definition handle_wg_disconnect (client_public_key : list Z) (n : Namespace) : Namespace :=
  let '(outputs, mgr) := Wg.disconnect client_public_key (wg_peer_mgr n) in
  foldl wg_removed {| n with wg_peer_mgr := mgr |} outputs.

Definition handle_client_command (cmd : ClientCommand) (n : Namespace) : Namespace :=
  match cmd with
  | AdminRestart name => on_router (send_admin_command name Restart (management (adapters n))) n
  | ScavengeWorkload name => on_router (send_admin_command name Scavenge (management (adapters n))) n
  | ActivateService name active =>
      on_router (send_activate_service name active (management (adapters n))) n
  | Connect key worker_id => handle_wg_connect key worker_id n
  | Disconnect key => handle_wg_disconnect key n
  end.

(** *** Dispatch *)
Definition push_event (event : OrchestratorToNamespace) (s : st) : option st :=
  let '(n, e) := s in
  match event with
  | ToNs.WorkerConnected worker_id _ info => Some (worker_connected worker_id info n, e)
  | ToNs.WorkerDisconnected worker_id => Some (worker_disconnected worker_id n, e)
  | ToNs.WorkerEvent ev => handle_worker_event (wne_worker_id ev) (wne_event ev) s
  | ToNs.SchedulerDecision decision => Some (scheduler_decision decision n, e)
  | ToNs.ClientCommand cmd => Some (handle_client_command cmd n, e)
  | ToNs.ArtifactInvalidated port => Some (on_router (destroy_artifact port) n, e)
  end.

(** *** Reconciling the adapters *)
Definition reconcile (n : Namespace) : ReconcileActions * bool * Namespace :=
  let a := adapters n in
  let '(timers, r) := drain_timer_inputs (router n) in
  let '(sched, r) := drain_schedule_request_inputs r in
  let '(schedule_deltas, sched_mut) := ScheduleRequest.reconcile sched in
  let '(pods, r) := drain_worker_inputs r in
  let '(pod_actions, pod_mut) := PodAssignment.reconcile pods in
  let '(eps, r) := drain_fabric_endpoint_inputs r in
  let '(endpoint_actions, ep_mut, ep) := EndpointAdapter.reconcile eps (endpoint a) in
  let '(dns, r) := drain_dns_registry_inputs r in
  let '(dns_actions, dns_mut, reg) := DnsRegistry.reconcile dns (dns_registry a) in
  let '(artifact_mut, (art, r)) := Artifact.reconcile (artifact a, r) in
  let '(obs, r) := drain_observability_inputs r in
  let mgmt := sync_dynamic_ids r (management a) in
  ({| ra_timer_actions := reconcile_timers timers;
      ra_schedule_deltas := schedule_deltas;
      ra_pod_actions := pod_actions;
      ra_endpoint_actions := endpoint_actions;
      ra_dns_registry_actions := dns_actions;
      ra_observability_events := Observability.reconcile obs |},
   false || sched_mut || pod_mut || ep_mut || dns_mut || artifact_mut,
   {| n with router := r;
             adapters := {| a with management := mgmt; endpoint := ep; dns_registry := reg;
                                   artifact := art |} |}).

(** *** Effects of the actions *)
Definition artifact_name (port : ArtifactPortId) : ArtifactId := to_string port.

Definition schedule_message (n : Namespace) (d : ScheduleRequest.ScheduleRequestDelta) :
    SchedulerMessage :=
  match d with
  | ScheduleRequest.Request pod_id request =>
      MsgRequestLease (namespace_id n) pod_id (artifact_name <$> psr_resume_artifact request)
  | ScheduleRequest.Drop pod_id => MsgDropRequest (namespace_id n) pod_id
  end.

Definition send_or_buffer (worker_id : GlobalWorkerId) (cmd : WorkerCommand) (s : st) : st :=
  let '(n, e) := s in
  if is_some (active_workers n !! worker_id) then (n, push_worker_command worker_id cmd e)
  else
    let commands := default [] (buffered_worker_commands n !! worker_id) in
    ({| n with buffered_worker_commands :=
                 <[worker_id := commands ++ [cmd]]> (buffered_worker_commands n) |}, e).

Definition alloc_artifact_id (n : Namespace) : ArtifactPortId * Namespace :=
  let id := u64_add (next_artifact_counter n) 1 in
  (id, {| n with next_artifact_counter := id |}).

Definition pod_action (s : st) (action : PodAssignment.PodAssignmentAction) : option st :=
  let '(n, e) := s in
  match action with
  | PodAssignment.Launch worker_id pod_id _ spec =>
      Some (send_or_buffer worker_id (build_launch_command n pod_id spec) s)
  | PodAssignment.Resume worker_id pod_id artifact_id spec =>
      cmd ← build_resume_command n worker_id pod_id (artifact_name artifact_id) spec;
      Some (send_or_buffer worker_id cmd s)
  | PodAssignment.Stop worker_id pod_id =>
      Some (n, push_worker_command worker_id (Command.StopPod (namespace_id n) pod_id true) e)
  | PodAssignment.Suspend worker_id pod_id =>
      pool_id ← worker_pool n worker_id;
      let '(port, n) := alloc_artifact_id n in
      Some (n, push_worker_command worker_id
                 (Command.SuspendPod (namespace_id n) pod_id (artifact_name port) pool_id) e)
  end.

Definition endpoint_action (n : Namespace) (e : NamespaceEffects)
    (action : EndpointAdapter.EndpointAction) : option NamespaceEffects :=
  cmd ← build_endpoint_command n action;
  let e := push_broadcast_command cmd e in
  Some match action with
       | EndpointAdapter.WireGuardPeerUpdate _ info =>
           push_worker_command (wpe_worker_id info) (add_wg_peer n info) e
       | EndpointAdapter.WireGuardPeerRemove _ old_info =>
           push_broadcast_command (Command.RemoveWireGuardPeer (wpe_peer_public_key old_info)) e
       | _ => e
       end.

Definition dns_effects (n : Namespace) (actions : list DnsRegistry.DnsRegistryAction)
    (e : NamespaceEffects) : NamespaceEffects :=
  match DnsRegistry.added_entries actions, DnsRegistry.removed_names actions with
  | [], [] => e
  | added, removed =>
      push_broadcast_command (Command.RegistryUpdate (namespace_id n) added removed) e
  end.

Definition collect_effects (actions : ReconcileActions) (s : st) : option st :=
  let '(n, e) := s in
  let e := {| e with timer_actions := timer_actions e ++ ra_timer_actions actions |} in
  let e := foldl (λ e d, push_scheduler_message (schedule_message n d) e) e
             (ra_schedule_deltas actions) in
  s ← fold_opt pod_action (n, e) (ra_pod_actions actions);
  let '(n, e) := s in
  e ← fold_opt (endpoint_action n) e (ra_endpoint_actions actions);
  let e := dns_effects n (ra_dns_registry_actions actions) e in
  Some (n, {| e with observability_events :=
                       observability_events e ++ ra_observability_events actions |}).

(** *** Cycles *)
Definition artifact_message (n : Namespace) (action : ArtifactRef.ArtifactAction) : SchedulerMessage :=
  match action with
  | ArtifactRef.ActReferenced port => MsgArtifactReferenced (namespace_id n) (artifact_name port)
  | ArtifactRef.ActReleased port => MsgArtifactReleased (namespace_id n) (artifact_name port)
  end.

(** The loop: reconcile and collect until a round does not write to the router. *)
Fixpoint cycle_loop (fuel : nat) (s : st) : run st :=
  match fuel with
  | O => OutOfFuel
  | S fuel =>
      let '(actions, mutated, n) := reconcile s.1 in
      (s <- of_option (collect_effects actions (n, s.2)) ;;
       if mutated then cycle_loop fuel (on_router propagate s.1, s.2) else Done s)%run
  end.

Definition finish_cycle (s : st) : st :=
  let '(n, e) := s in
  let '(actions, (art, r)) := Artifact.finalize (artifact (adapters n), router n) in
  let n := on_router (λ _, r) (with_adapters (λ a, {| a with artifact := art |}) n) in
  (n, foldl (λ e action, push_scheduler_message (artifact_message n action) e) e actions).

Definition run_cycle (fuel : nat) (s : st) : run st :=
  (s <- cycle_loop fuel (on_router propagate s.1, s.2) ;; Done (finish_cycle s))%run.

Definition process_event (fuel : nat) (event : OrchestratorToNamespace) (n : Namespace) : run st :=
  (s <- of_option (push_event event (n, effects_default)) ;; run_cycle fuel s)%run.
Definition fire_timer (fuel : nat) (identity : TimerIdentity) (n : Namespace) : run st :=
  run_cycle fuel (on_router (fire_timer_event identity) n, effects_default).

(** *** Specs *)
Definition resolved_workload (i : Spec.WorkloadSpecInput) (ip : Ipv4Addr) : Spec.WorkloadSpec :=
  {| Spec.w_containers := Spec.wi_containers i;
     Spec.w_network := {| pnc_ip := ip; pnc_mac := Ip.ip_to_mac ip; pnc_gateway := 0;
                          pnc_netmask := "" |};
     Spec.w_suspend_on_idle := Spec.wi_suspend_on_idle i;
     Spec.w_resources := Spec.wi_resources i;
     Spec.w_activation := Spec.wi_activation i;
     Spec.w_run_policy := Spec.wi_run_policy i;
     Spec.w_respects_demand := Spec.wi_respects_demand i;
     Spec.w_volumes := Spec.wi_volumes i;
     Spec.w_labels := Spec.wi_labels i |}.
Definition resolved_service (i : Spec.ServiceSpecInput) (ip : Ipv4Addr) : Spec.ServiceSpec :=
  {| Spec.s_workload_id := Spec.si_workload_id i; Spec.s_ip := ip; Spec.s_ports := Spec.si_ports i;
     Spec.s_has_activation := Spec.si_has_activation i;
     Spec.s_idle_timeout := Spec.si_idle_timeout i;
     Spec.s_buffer_frames := Spec.si_buffer_frames i;
     Spec.s_buffer_timeout_ms := Spec.si_buffer_timeout_ms i;
     Spec.s_labels := Spec.si_labels i |}.

(** The loops over the workloads and over the services: allocate, then build; the
    first error ends the loop and the allocations made so far stay. *)
Fixpoint resolve_all {I O} (key : string → IpResourceKey) (explicit_ip : I → option Ipv4Addr)
    (build : I → Ipv4Addr → O) (l : list (string * I)) (acc : gmap string O)
    (a : Ip.NamespaceIpAllocator) : (gmap string O + ClientError) * Ip.NamespaceIpAllocator :=
  match l with
  | [] => (inl acc, a)
  | (name, input) :: l =>
      match Ip.allocate (key name) (explicit_ip input) a with
      | (inr error, a) => (inr (IpAllocationFailed error), a)
      | (inl alloc, a) =>
          resolve_all key explicit_ip build l (<[name := build input (ia_ip alloc)]> acc) a
      end
  end.
Definition resolve_workloads (m : gmap string Spec.WorkloadSpecInput) :=
  resolve_all KWorkload Spec.wi_explicit_ip resolved_workload (names_iter m) ∅.
Definition resolve_services (m : gmap string Spec.ServiceSpecInput) :=
  resolve_all KService Spec.si_explicit_ip resolved_service (names_iter m) ∅.

(** Workloads first, then services. *)
Definition resolve_both (wls : gmap string Spec.WorkloadSpecInput)
    (svcs : gmap string Spec.ServiceSpecInput) (a : Ip.NamespaceIpAllocator) :
    (ResolvedPatch + ClientError) * Ip.NamespaceIpAllocator :=
  match resolve_workloads wls a with
  | (inr error, a) => (inr error, a)
  | (inl workloads, a) =>
      match resolve_services svcs a with
      | (inr error, a) => (inr error, a)
      | (inl services, a) => (inl {| rp_workloads := workloads; rp_services := services |}, a)
      end
  end.
Definition resolve_spec_input (input : Spec.NamespaceSpecInput) (a : Ip.NamespaceIpAllocator) :
    (Spec.NamespaceSpec + ClientError) * Ip.NamespaceIpAllocator :=
  match resolve_both (Spec.ni_workloads input) (Spec.ni_services input) a with
  | (inr error, a) => (inr error, a)
  | (inl p, a) =>
      (inl {| Spec.n_network := Spec.ni_network input; Spec.n_workloads := rp_workloads p;
              Spec.n_services := rp_services p |}, a)
  end.
Definition resolve_patch_input (input : Spec.NamespacePatchInput) (a : Ip.NamespaceIpAllocator) :
    (ResolvedPatch + ClientError) * Ip.NamespaceIpAllocator :=
  resolve_both (Spec.pi_workloads input) (Spec.pi_services input) a.

Definition release_all (key : string → IpResourceKey) (names : list string)
    (a : Ip.NamespaceIpAllocator) : Ip.NamespaceIpAllocator :=
  foldl (λ a name, Ip.release (key name) a) a names.

(** The names of the current spec that the new one lacks give up their addresses. *)
Definition release_dropped (current : option Spec.NamespaceSpec) (input : Spec.NamespaceSpecInput)
    (a : Ip.NamespaceIpAllocator) : Ip.NamespaceIpAllocator :=
  match current with
  | None => a
  | Some spec =>
      release_all KService
        (filter (λ name, Spec.ni_services input !! name = None) (names_iter (Spec.n_services spec)).*1)
        (release_all KWorkload
          (filter (λ name, Spec.ni_workloads input !! name = None)
             (names_iter (Spec.n_workloads spec)).*1) a)
  end.

(** Hand the new spec to the management adapter and run a cycle. *)
Definition install_spec (fuel : nat) (new_spec : Spec.NamespaceSpec) (n : Namespace) :
    run (st * IpAllocResult) :=
  (mr <- of_option (apply_namespace_spec (current_spec n) new_spec
                      (management (adapters n), router n)) ;;
   s <- run_cycle fuel
          (let a := adapters n in
           {| n with router := mr.2; adapters := {| a with management := mr.1 |};
                     current_spec := Some new_spec |}, effects_default) ;;
   Done (s, Ip.full_snapshot (ip_allocator s.1)))%run.

(** A failed call returns the error and the namespace as it left it. *)
Definition apply_full_spec (fuel : nat) (input : Spec.NamespaceSpecInput) (n : Namespace) :
    run ((st * IpAllocResult) + (ClientError * Namespace)) :=
  match resolve_spec_input input (release_dropped (current_spec n) input (ip_allocator n)) with
  | (inr error, a) => Done (inr (error, {| n with ip_allocator := a |}))
  | (inl new_spec, a) =>
      (r <- install_spec fuel new_spec {| n with ip_allocator := a |} ;; Done (inl r))%run
  end.

Definition patched (patch : Spec.NamespacePatchInput) (resolved : ResolvedPatch)
    (spec : Spec.NamespaceSpec) : Spec.NamespaceSpec :=
  {| Spec.n_network := Spec.n_network spec;
     Spec.n_workloads := rp_workloads resolved ∪
       foldl (λ m name, delete name m) (Spec.n_workloads spec) (Spec.pi_remove_workloads patch);
     Spec.n_services := rp_services resolved ∪
       foldl (λ m name, delete name m) (Spec.n_services spec) (Spec.pi_remove_services patch) |}.

Definition apply_patch (fuel : nat) (input : Spec.NamespacePatchInput) (n : Namespace) :
    run ((st * IpAllocResult) + (ClientError * Namespace)) :=
  match current_spec n with
  | None => Done (inr (NamespaceNotFound, n))
  | Some spec =>
      let a := release_all KService (Spec.pi_remove_services input)
                 (release_all KWorkload (Spec.pi_remove_workloads input) (ip_allocator n)) in
      match resolve_patch_input input a with
      | (inr error, a) => Done (inr (error, {| n with ip_allocator := a |}))
      | (inl resolved, a) =>
          (r <- install_spec fuel (patched input resolved spec) {| n with ip_allocator := a |} ;;
           Done (inl r))%run
      end
  end.

(** *** Accessors and the status report *)
Definition active_worker_ids (n : Namespace) : list GlobalWorkerId :=
  (hash_iter (active_workers n)).*1.

Definition workload_report (n : Namespace) (name : string) (id : WorkloadId) :
    Status.WorkloadStatusReport :=
  let wl_sm := get_workload (router n) id in
  {| Status.wr_state :=
       default Status.WDormant (sm_wl_status_to_client <$> signal_workload_status (router n) id);
     Status.wr_pod_id := wl_sm ≫= WorkloadSm.pod_id;
     Status.wr_ip := default "" ((λ ep, ip_to_string (EndpointSm.ip ep)) <$>
       ((wl_sm ≫= WorkloadSm.endpoint_id) ≫= get_endpoint (router n)));
     Status.wr_restart_count := default 0 (WorkloadSm.restart_count <$> wl_sm);
     Status.wr_conditions := ∅;
     Status.wr_labels := default ∅ (Spec.w_labels <$>
       (current_spec n ≫= λ spec, Spec.n_workloads spec !! name)) |}.

Definition service_report (n : Namespace) (name : string) (id : ServiceId) :
    Status.ServiceStatusReport :=
  let ep_id := get_service (router n) id ≫= ServiceSm.endpoint_id in
  let ep_sm := ep_id ≫= get_endpoint (router n) in
  let svc_spec := current_spec n ≫= λ spec, Spec.n_services spec !! name in
  {| Status.sr_workload_id := default "" (Spec.s_workload_id <$> svc_spec);
     Status.sr_service_state := default Status.SPending
       (sm_endpoint_status_to_client <$> (ep_id ≫= signal_endpoint_status (router n)));
     Status.sr_backend_need := ep_id ≫= signal_endpoint_current_backend_need (router n);
     Status.sr_activation_enabled := default false (EndpointSm.has_activation <$> ep_sm);
     Status.sr_ip := ip_to_string (default UNSPECIFIED (EndpointSm.ip <$> ep_sm));
     Status.sr_conditions := ∅;
     Status.sr_labels := default ∅ (Spec.s_labels <$> svc_spec) |}.

Definition pod_report (n : Namespace) (pod_id : PodId) (pod : PodSm.PodSm) (wl : WorkloadId) :
    Status.PodStatusReport :=
  {| Status.pr_pod_id := pod_id;
     Status.pr_workload_id := default "" (workload_proto_name (management (adapters n)) wl);
     Status.pr_worker_id := default 0 (PodSm.worker_id pod);
     Status.pr_ip := default "" ((λ net, ip_to_string (pnc_ip net)) <$>
       (PodSm.launch_spec pod ≫= λ s, ps_network (ws_pod_spec s)));
     Status.pr_state := sm_pod_status_to_client (PodSm.status pod) |}.

Definition status_report (n : Namespace) : Status.NamespaceStatusReport :=
  {| Status.nr_namespace_id := namespace_id n;
     Status.nr_status := Status.Active;
     Status.nr_workloads := foldl (λ m '(name, id), <[name := workload_report n name id]> m) ∅
       (iter_workloads (management (adapters n)));
     Status.nr_services := foldl (λ m '(name, id), <[name := service_report n name id]> m) ∅
       (iter_services (management (adapters n)));
     Status.nr_pods := foldl (λ m '(pod_id, pod),
       match PodSm.workload_id pod with
       | None => m
       | Some wl => <[pod_id := pod_report n pod_id pod wl]> m
       end) ∅ (iter_pod (router n)) |}.

End Namespace.
Arguments Namespace R : clear implicits.
End Namespace.

(** ** A namespace with its timers ([core/namespace/mod.rs]) *)
Module NamespaceUnit.
Import Namespace.
Section Unit.
Context `{RouterOps R} `{!HashIter Z} `{!HashIter (Z * Z)} `{!HashIter string}.

Record NamespaceUnit := {
  namespace : Namespace R;
  timer_wheel : TimerWheel.NamespaceTimerWheel;
}.
Definition new (ns : NamespaceId) (network : NetworkConfig) (reg : IdRegistry.Inner) : NamespaceUnit :=
  {| namespace := Namespace.new ns network reg; timer_wheel := TimerWheel.new |}.

Definition convert_effects (effects : NamespaceEffects) (now : Duration) (u : NamespaceUnit) :
    NamespaceOutput * NamespaceUnit :=
  ({| to_orchestrator := ToScheduler <$> scheduler_messages effects;
      no_worker_commands := ns_worker_commands effects;
      no_broadcast_commands := broadcast_commands effects;
      no_observability_events := observability_events effects |},
   {| u with timer_wheel := TimerWheel.absorb (timer_actions effects) now (timer_wheel u) |}).

Definition process (fuel : nat) (input : OrchestratorToNamespace) (now : Duration)
    (u : NamespaceUnit) : run (NamespaceOutput * NamespaceUnit) :=
  (s <- process_event fuel input (namespace u) ;;
   Done (convert_effects s.2 now {| u with namespace := s.1 |}))%run.

(** The timers of one round, in the order in which they fired. *)
Fixpoint fire_all (fuel : nat) (now : Duration) (fired : list TimerWheel.FiredTimer)
    (s : NamespaceOutput * NamespaceUnit) : run (NamespaceOutput * NamespaceUnit) :=
  match fired with
  | [] => Done s
  | f :: fired =>
      let '(output, u) := s in
      (t <- fire_timer fuel (TimerWheel.ft_identity f) (namespace u) ;;
       let '(o, u) := convert_effects t.2 now {| u with namespace := t.1 |} in
       fire_all fuel now fired (ns_output_merge output o, u))%run
  end.
(** Rounds until no timer is due. *)
Fixpoint advance_loop (rounds fuel : nat) (now : Duration) (s : NamespaceOutput * NamespaceUnit) :
    run (NamespaceOutput * NamespaceUnit) :=
  match rounds with
  | O => OutOfFuel
  | S rounds =>
      let '(output, u) := s in
      let '(expired, wheel) := TimerWheel.fire_expired now (timer_wheel u) in
      let u := {| u with timer_wheel := wheel |} in
      match expired with
      | [] => Done (output, u)
      | _ => (s <- fire_all fuel now expired (output, u) ;; advance_loop rounds fuel now s)%run
      end
  end.
Definition advance_to (rounds fuel : nat) (now : Duration) (u : NamespaceUnit) :
    run (NamespaceOutput * NamespaceUnit) :=
  advance_loop rounds fuel now (ns_output_default, u).
Definition next_deadline (u : NamespaceUnit) : option Duration :=
  TimerWheel.next_deadline (timer_wheel u).

(** [apply_full_spec] and [apply_patch] of the unit *)
Definition convert_result (now : Duration)
    (r : ((Namespace R * NamespaceEffects) * IpAllocResult) + (ClientError * Namespace R))
    (u : NamespaceUnit) : (NamespaceOutput * IpAllocResult + ClientError) * NamespaceUnit :=
  match r with
  | inl ((n, e), alloc) =>
      let '(output, u) := convert_effects e now {| u with namespace := n |} in
      (inl (output, alloc), u)
  | inr (error, n) => (inr error, {| u with namespace := n |})
  end.
Definition apply_full_spec (fuel : nat) (input : Spec.NamespaceSpecInput) (now : Duration)
    (u : NamespaceUnit) : run ((NamespaceOutput * IpAllocResult + ClientError) * NamespaceUnit) :=
  (r <- Namespace.apply_full_spec fuel input (namespace u) ;; Done (convert_result now r u))%run.
Definition apply_patch (fuel : nat) (input : Spec.NamespacePatchInput) (now : Duration)
    (u : NamespaceUnit) : run ((NamespaceOutput * IpAllocResult + ClientError) * NamespaceUnit) :=
  (r <- Namespace.apply_patch fuel input (namespace u) ;; Done (convert_result now r u))%run.
End Unit.
Arguments NamespaceUnit R : clear implicits.
End NamespaceUnit.
