(* ===== verification/NamespaceInv.v ===== *)
(** * Correctness of the namespace core

    The theorems about [NamespaceCore]: pods and workers are booked in both directions
    alike, a grant and the arrival of its worker commute, launches reach a worker once
    and in order, addresses of the current spec are the allocator's and distinct, the
    management adapter holds the names of the current spec, and the loops of a cycle
    and of the timers end. *)

From stdpp Require Import pretty.
From Stdlib Require Import Ascii.
From S2P Require Import Prelude SmTypes IpAlloc Pod Endpoint Workload Timers Protocol.
From S2P Require Import Scheduler Decimal CoreTypes Specs Adapters RouterOps Management NamespaceCore.

(** ** Names of artifacts *)
(** The name a namespace gives an artifact is read back as the same port: by the
    scheduler when it invalidates artifacts, and by the namespace when a worker
    reports the artifact of a suspended pod. *)
Theorem artifact_name_roundtrip (port : ArtifactPortId) :
  0 ≤ port < 2 ^ 64 → Scheduler.parse_u64 (Namespace.artifact_name port) = Some port.
Proof. apply parse_u64_pretty. Qed.

Lemma artifact_name_roundtrip_witness :
  Scheduler.parse_u64 (Namespace.artifact_name 18446744073709551615) = Some 18446744073709551615.
Proof. apply artifact_name_roundtrip. lia. Defined.

(** ** Addresses of a spec *)
Module Addresses.
Import Namespace.
Lemma resolve_all_spec {I O} key (explicit : I → option Ipv4Addr) (build : I → Ipv4Addr → O) l acc a :
  Ip.wf a → (∀ x y : string, key x = key y → x = y) → NoDup l.*1 →
  let '(res, a') := resolve_all key explicit build l acc a in
  Ip.wf a' ∧ (∀ k ip, Ip.ip_of a k = Some ip → Ip.ip_of a' k = Some ip) ∧
  match res with
  | inl m =>
      (∀ n, n ∈ l.*1 → ∃ i ip, (n, i) ∈ l ∧ m !! n = Some (build i ip) ∧ Ip.ip_of a' (key n) = Some ip) ∧
      (∀ n, n ∉ l.*1 → m !! n = acc !! n)
  | inr e => ∃ x, e = IpAllocationFailed x
  end.
Proof.
  intros Hw Hkey. revert acc a Hw. induction l as [|[n i] l IH]; intros acc a Hw Hl; cbn [resolve_all].
  { split_and!; try done. intros n. set_solver. }
  cbn [fmap list_fmap fst] in Hl. apply NoDup_cons in Hl as [Hn Hl].
  pose proof (Ip.allocate_wf (key n) (explicit i) a Hw) as Hw1.
  destruct (Ip.allocate_holds (key n) (explicit i) a Hw) as (Ho & Hm & Hr).
  destruct (Ip.allocate (key n) (explicit i) a) as [[al|e] a1]; cbn [fst snd] in *.
  2:{ subst a1. split_and!; eauto. }
  assert (Hmono : ∀ k ip, Ip.ip_of a k = Some ip → Ip.ip_of a1 k = Some ip).
  { intros k ip Hk. destruct (decide (k = key n)) as [->|]; [by apply Hm|by rewrite Ho]. }
  specialize (IH (<[n := build i (ia_ip al)]> acc) a1 Hw1 Hl).
  destruct (resolve_all key explicit build l _ a1) as [res a2]. destruct IH as (Hw2 & Hm2 & Hres).
  split_and!; [done|by eauto|]. destruct res as [m|e]; [|done]. destruct Hres as [Hin Hout].
  split.
  - intros x. cbn [fmap list_fmap fst]. intros [->|Hx]%elem_of_cons.
    + exists i, (ia_ip al). split_and!; [left| |by apply Hm2].
      rewrite Hout by done. by rewrite lookup_insert_eq.
    + destruct (Hin x Hx) as (i' & ip & H1 & H2 & H3). exists i', ip. split_and!; [by right|done|done].
  - intros x. cbn [fmap list_fmap fst]. intros [Hne Hx]%not_elem_of_cons.
    rewrite Hout by done. by rewrite lookup_insert_ne.
Qed.

Lemma ip_of_range a k ip : Ip.wf a → Ip.ip_of a k = Some ip → 0 ≤ ip < 2 ^ 32.
Proof.
  intros Hw (o & kd & Hk & ->)%Ip.ip_of_Some; [|done]. apply Ip.offset_bounds in Hk; [|done].
  destruct Hw. unfold u32_max in *. lia.
Qed.

Lemma ip_to_mac_inj ip ip' :
  0 ≤ ip < 2 ^ 32 → 0 ≤ ip' < 2 ^ 32 → Ip.ip_to_mac ip = Ip.ip_to_mac ip' → ip = ip'.
Proof.
  intros H1 H2. unfold Ip.ip_to_mac, wrap. rewrite !Z.shiftr_div_pow2 by lia.
  intros E. injection E as E1 E2 E3 E4. change (2 ^ 8) with 256 in *.
  change (2 ^ 24) with (256 * (256 * 256)) in *. change (2 ^ 16) with (256 * 256) in *.
  rewrite <- !Z.div_div in * by lia.
  pose proof (Z.div_mod ip 256). pose proof (Z.div_mod (ip / 256) 256).
  pose proof (Z.div_mod (ip / 256 / 256) 256). pose proof (Z.div_mod ip' 256).
  pose proof (Z.div_mod (ip' / 256) 256). pose proof (Z.div_mod (ip' / 256 / 256) 256).
  assert (∀ x, 0 ≤ x < 2 ^ 32 → 0 ≤ x / 256 / 256 / 256 < 256).
  { intros x Hx. rewrite !Z.div_div by lia. split; [apply Z.div_pos; lia|apply Z.div_lt_upper_bound; lia]. }
  rewrite (Z.mod_small (ip / 256 / 256 / 256)), (Z.mod_small (ip' / 256 / 256 / 256)) in E1 by auto. lia.
Qed.

(** The address of every workload and service of the spec is the one the allocator
    holds for it; the MAC address of a workload is made from it. *)
Definition backed_spec (a : Ip.NamespaceIpAllocator) (spec : Spec.NamespaceSpec) : Prop :=
  (∀ name w, Spec.n_workloads spec !! name = Some w →
     Ip.ip_of a (KWorkload name) = Some (pnc_ip (Spec.w_network w)) ∧
     pnc_mac (Spec.w_network w) = Ip.ip_to_mac (pnc_ip (Spec.w_network w))) ∧
  (∀ name s, Spec.n_services spec !! name = Some s →
     Ip.ip_of a (KService name) = Some (Spec.s_ip s)).

Lemma backed_spec_mono a a' spec :
  (∀ k ip, Ip.ip_of a k = Some ip → Ip.ip_of a' k = Some ip) → backed_spec a spec → backed_spec a' spec.
Proof. intros Hm [H1 H2]. split; [intros name w Hw; destruct (H1 name w Hw)|]; eauto. Qed.

Definition patch_spec (p : ResolvedPatch) (net : NetworkConfig) : Spec.NamespaceSpec :=
  {| Spec.n_network := net; Spec.n_workloads := rp_workloads p; Spec.n_services := rp_services p |}.

Lemma resolve_both_spec wls svcs a :
  Ip.wf a →
  let '(res, a') := resolve_both wls svcs a in
  Ip.wf a' ∧ (∀ k ip, Ip.ip_of a k = Some ip → Ip.ip_of a' k = Some ip) ∧
  match res with
  | inl p => (∀ net, backed_spec a' (patch_spec p net)) ∧ dom (rp_workloads p) = dom wls ∧
             dom (rp_services p) = dom svcs
  | inr e => ∃ x, e = IpAllocationFailed x
  end.
Proof.
  intros Hw. unfold resolve_both, resolve_workloads, resolve_services.
  pose proof (resolve_all_spec KWorkload Spec.wi_explicit_ip resolved_workload (names_iter wls) ∅ a Hw
    ltac:(intros; by simplify_eq) (NoDup_names_iter _)) as H1.
  destruct (resolve_all KWorkload _ _ _ _ a) as [[ws|e] a1]; destruct H1 as (Hw1 & Hm1 & Hr1); [|done].
  pose proof (resolve_all_spec KService Spec.si_explicit_ip resolved_service (names_iter svcs) ∅ a1 Hw1
    ltac:(intros; by simplify_eq) (NoDup_names_iter _)) as H2.
  destruct (resolve_all KService _ _ _ _ a1) as [[ss|e] a2]; destruct H2 as (Hw2 & Hm2 & Hr2); [|by eauto].
  split; [done|]. split; [by eauto|].
  assert (Hdom : ∀ {V W} (l : gmap string V) (m : gmap string W),
    (∀ n, n ∈ (names_iter l).*1 → is_Some (m !! n)) →
    (∀ n, n ∉ (names_iter l).*1 → m !! n = None) → dom m = dom l).
  { intros V W l m H3 H4. apply set_eq. intros n. rewrite <- (elem_of_names l), elem_of_dom. split; [|auto].
    intros Hs. destruct (decide (n ∈ (names_iter l).*1)); [done|]. rewrite H4 in Hs by done. by destruct Hs. }
  destruct Hr1 as [Hi1 Ho1], Hr2 as [Hi2 Ho2]. split_and!.
  - intros net. split; simpl.
    + intros n w Hn. destruct (decide (n ∈ (names_iter wls).*1)) as [Hin|Hout].
      * destruct (Hi1 n Hin) as (i & ip & _ & E & Hip). rewrite E in Hn. simplify_eq. simpl. eauto.
      * rewrite Ho1, lookup_empty in Hn; done.
    + intros n w Hn. destruct (decide (n ∈ (names_iter svcs).*1)) as [Hin|Hout].
      * destruct (Hi2 n Hin) as (i & ip & _ & E & Hip). rewrite E in Hn. simplify_eq. simpl. eauto.
      * rewrite Ho2, lookup_empty in Hn; done.
  - apply Hdom; [|done]. simpl. intros n Hin. destruct (Hi1 n Hin) as (i & ip & _ & -> & _). eauto.
  - apply Hdom; [|done]. simpl. intros n Hin. destruct (Hi2 n Hin) as (i & ip & _ & -> & _). eauto.
Qed.

Lemma release_all_spec key l a :
  Ip.wf a → Ip.wf (release_all key l a) ∧
  ∀ k, Ip.ip_of (release_all key l a) k = if decide (k ∈ key <$> l) then None else Ip.ip_of a k.
Proof.
  unfold release_all. revert a. induction l as [|n l IH]; intros a Hw; cbn [foldl].
  { split; [done|]. intros k. by rewrite decide_False by set_solver. }
  destruct (IH (Ip.release (key n) a) (Ip.release_wf _ _ Hw)) as [Hw' Hk]. split; [done|].
  intros k. rewrite Hk, Ip.release_holds. repeat case_decide; try done; set_solver.
Qed.

Lemma release_dropped_wf current input a : Ip.wf a → Ip.wf (release_dropped current input a).
Proof. intros Hw. unfold release_dropped. destruct current; [|done]. by do 2 apply release_all_spec. Qed.

(** The entries a patch neither replaces nor removes keep their addresses. *)
Lemma patched_backed input p spec a a' :
  Ip.wf a → backed_spec a spec →
  let a1 := release_all KService (Spec.pi_remove_services input)
              (release_all KWorkload (Spec.pi_remove_workloads input) a) in
  (∀ k ip, Ip.ip_of a1 k = Some ip → Ip.ip_of a' k = Some ip) →
  (∀ net, backed_spec a' (patch_spec p net)) →
  backed_spec a' (patched input p spec).
Proof.
  intros Hw [Hbw Hbs] a1 Hmono Hp. destruct (Hp (Spec.n_network spec)) as [Hpw Hps]. simpl in *.
  destruct (release_all_spec KWorkload (Spec.pi_remove_workloads input) a Hw) as [Hw1 H1].
  destruct (release_all_spec KService (Spec.pi_remove_services input) _ Hw1) as [_ H2].
  assert (Hlost : ∀ {V} (m : gmap string V) l n v,
    foldl (λ m name, delete name m) m l !! n = Some v → m !! n = Some v ∧ n ∉ l).
  { intros V m l n v. rewrite (lookup_foldl_delete (λ x, x)), list_fmap_id. case_decide; [done|eauto]. }
  split; simpl.
  - intros n w [Hn|[_ Hn]]%lookup_union_Some_raw; [by apply Hpw|]. apply Hlost in Hn as [Hn Hno].
    destruct (Hbw n w Hn) as [Hip Hmac]. split; [|done]. apply Hmono. unfold a1. rewrite H2, decide_False, H1,
      decide_False; [done|..]; rewrite list_elem_of_fmap; intros (x & Hx & Hin); by simplify_eq.
  - intros n w [Hn|[_ Hn]]%lookup_union_Some_raw; [by apply Hps|]. apply Hlost in Hn as [Hn Hno].
    apply Hmono. unfold a1. rewrite H2, decide_False, H1, decide_False; [by apply Hbs|..];
      rewrite list_elem_of_fmap; intros (x & Hx & Hin); by simplify_eq.
Qed.

End Addresses.

(** ** Books of workers and pods *)
Module Books.
Import Management Namespace Addresses.
Section Books.
Context `{RouterOps R} `{!HashIter Z} `{!HashIter (Z * Z)} `{!HashIter string}.
Implicit Types n : Namespace R.
Implicit Types s : (Namespace R * NamespaceEffects)%type.

(** What a cycle does not touch. *)
Definition core n :=
  (namespace_id n, leases n, worker_pod_edges n, pod_worker n, current_spec n, ip_allocator n,
   wg_peer_mgr n, wg_peer_ports n, pending_workers n, active_workers n, deferred_grants n).

Lemma core_on_router f n : core (on_router f n) = core n.
Proof. done. Qed.
Lemma core_with_adapters f n : core (with_adapters f n) = core n.
Proof. done. Qed.

Lemma elem_of_pod_list (pods : gset Z) p : p ∈ pod_list pods ↔ p ∈ pods.
Proof.
  unfold pod_list. rewrite list_elem_of_fmap. split.
  - intros ([k []] & -> & Hk%elem_of_hash_iter). by apply lookup_gset_to_gmap_Some in Hk as [? _].
  - intros Hp. exists (p, ()). split; [done|]. apply elem_of_hash_iter.
    by apply lookup_gset_to_gmap_Some.
Qed.

(** A worker is known from [WorkerConnected] until it is gone. *)
Definition known n (w : Z) : Prop := is_Some (active_workers n !! w) ∨ is_Some (pending_workers n !! w).
Definition pods_of n (w : Z) : gset Z := default ∅ (worker_pod_edges n !! w).

Record inv n : Prop := {
  i_edges : ∀ p w, pod_worker n !! p = Some w ↔ p ∈ pods_of n w;
  i_known : ∀ w, is_Some (worker_pod_edges n !! w) → known n w;
  i_deferred : ∀ p w, (p, w) ∈ deferred_grants n → ¬ known n w ∧ pod_worker n !! p = None;
  i_once : NoDup (deferred_grants n).*1;
  i_disjoint : ∀ w, is_Some (active_workers n !! w) → pending_workers n !! w = None;
  i_buffered : ∀ w, is_Some (buffered_worker_commands n !! w) → active_workers n !! w = None;
}.

Lemma new_inv ns net reg : inv (new ns net reg).
Proof.
  split; unfold known, pods_of; simpl; 
    try (intros w; rewrite lookup_empty; by intros []).
  - by intros p w []%elem_of_nil.
  - constructor.
Qed.

(** *** Grants *)
Lemma apply_grant_fields w n p :
  let n' := apply_grant w n p in
  active_workers n' = active_workers n ∧ pending_workers n' = pending_workers n ∧
  deferred_grants n' = deferred_grants n ∧
  buffered_worker_commands n' = buffered_worker_commands n ∧ current_spec n' = current_spec n ∧
  ip_allocator n' = ip_allocator n ∧ adapters n' = adapters n ∧
  (pod_worker n' = pod_worker n ∧ worker_pod_edges n' = worker_pod_edges n ∨
   pod_worker n' = <[p := w]> (pod_worker n) ∧
   worker_pod_edges n' = <[w := {[p]} ∪ pods_of n w]> (worker_pod_edges n)).
Proof.
  simpl. unfold apply_grant. destruct (get_pod (router n) p); [|by split_and!; try done; left].
  destruct (create_schedule_lease (router n)) as [l r]. split_and!; try done. by right.
Qed.

Lemma apply_grant_inv w n p :
  inv n → known n w → pod_worker n !! p = None → p ∉ (deferred_grants n).*1 → inv (apply_grant w n p).
Proof.
  intros [He Hk Hd Ho Hj Hb] Hw Hp Hnd.
  destruct (apply_grant_fields w n p) as (Ea & Ep & Ed & Eb & _ & _ & _ & [[Epw Eed]|[Epw Eed]]);
    split; unfold known, pods_of in *; rewrite ?Ea, ?Ep, ?Ed, ?Eb, ?Epw, ?Eed; try done.
  - intros q v. destruct (decide (v = w)) as [->|Hv].
    + rewrite (lookup_insert_eq (worker_pod_edges n)). simpl.
      rewrite elem_of_union, elem_of_singleton, <- He, lookup_insert_Some. clear -Hp.
      naive_solver congruence.
    + rewrite (lookup_insert_ne (worker_pod_edges n)), <- He, lookup_insert_Some by done.
      clear -Hp Hv. naive_solver congruence.
  - intros v [<-|[_ Hv]]%lookup_insert_is_Some; [done|]. by apply Hk.
  - intros q v Hin. destruct (Hd q v Hin) as [H1 H2]. split; [done|].
    rewrite lookup_insert_ne; [done|]. intros <-. apply Hnd. apply list_elem_of_fmap.
    by exists (p, v).
Qed.

Lemma grants_inv w l n :
  inv n → known n w → NoDup l → (∀ p, p ∈ l → pod_worker n !! p = None ∧ p ∉ (deferred_grants n).*1) →
  inv (foldl (apply_grant w) n l).
Proof.
  revert n. induction l as [|p l IH]; intros n Hn Hw Hl Hp; [done|]. cbn [foldl].
  apply NoDup_cons in Hl as [Hpl Hl].
  destruct (apply_grant_fields w n p) as (Ea & Ep & Ed & Eb & _ & _ & _ & Hpw).
  destruct (Hp p) as [Hp1 Hp2]; [set_solver|]. apply IH; [by apply apply_grant_inv| |done|].
  - unfold known in *. by rewrite Ea, Ep.
  - intros q Hq. destruct (Hp q) as [Hq1 Hq2]; [set_solver|]. rewrite Ed. split; [|done].
    destruct Hpw as [[-> _]|[-> _]]; [done|]. rewrite lookup_insert_ne; [done|]. set_solver.
Qed.

Lemma elem_of_retain w l g : g ∈ retain_grants w l ↔ g ∈ l ∧ g.2 ≠ w.
Proof. unfold retain_grants. rewrite list_elem_of_filter. tauto. Qed.

Lemma retain_NoDup w l : NoDup l.*1 → NoDup (retain_grants w l).*1.
Proof. unfold retain_grants. intros Hl. eapply sublist_NoDup; [done|]. apply fmap_sublist, sublist_filter. Qed.

Lemma worker_connected_inv w info n : inv n → ¬ known n w → inv (worker_connected w info n).
Proof.
  intros [He Hk Hd Ho Hj Hb] Hw. unfold worker_connected. cbn zeta.
  assert (Hno : active_workers n !! w = None).
  { apply eq_None_not_Some. intros ?. apply Hw. by left. }
  apply grants_inv.
  - split; unfold known, pods_of; simpl; try done.
    + intros v Hv%Hk. rewrite lookup_insert_is_Some. unfold known in Hv. destruct (decide (w = v)); naive_solver.
    + intros p v [Hin Hne]%elem_of_retain. destruct (Hd p v Hin) as [Hn Hp]. split; [|done].
      rewrite lookup_insert_ne by done. done.
    + by apply retain_NoDup.
    + intros v Hv. destruct (decide (v = w)) as [->|]; [rewrite Hno in Hv; by destruct Hv|].
      rewrite lookup_insert_ne by done. by apply Hj.
  - right. simpl. rewrite lookup_insert_eq. eauto.
  - eapply sublist_NoDup; [exact Ho|]. apply fmap_sublist, sublist_filter.
  - simpl. intros p ([q v] & -> & [Hv Hin]%list_elem_of_filter)%list_elem_of_fmap. simpl in *. subst v.
    split; [by eapply Hd|]. intros ([q' v] & Eq & [Hin' Hne]%elem_of_retain)%list_elem_of_fmap.
    simpl in *. subst q'. apply Hne.
    apply (elem_of_list_to_map_1 (M := gmap Z)) in Hin, Hin'; [congruence|done|done].
Qed.

(** *** Losing a worker *)
Lemma forget_worker_pods_fields w n :
  let n' := forget_worker_pods w n in
  active_workers n' = active_workers n ∧ pending_workers n' = pending_workers n ∧
  deferred_grants n' = deferred_grants n ∧
  buffered_worker_commands n' = buffered_worker_commands n ∧
  worker_pod_edges n' = delete w (worker_pod_edges n) ∧
  ∀ p, pod_worker n' !! p = if decide (p ∈ pods_of n w) then None else pod_worker n !! p.
Proof.
  simpl. unfold forget_worker_pods, pods_of. destruct (worker_pod_edges n !! w) as [pods|] eqn:E; simpl.
  - split_and!; try done. intros p. rewrite (lookup_foldl_delete (λ p, p)), list_fmap_id.
    repeat case_decide; rewrite elem_of_pod_list in *; done.
  - split_and!; try done. by rewrite delete_id.
Qed.

(** Forgetting a worker that is not, or no longer, booked as connected. *)
Lemma lose_worker_inv w n n' :
  inv n →
  worker_pod_edges n' = delete w (worker_pod_edges n) →
  (∀ p, pod_worker n' !! p = if decide (p ∈ pods_of n w) then None else pod_worker n !! p) →
  (∀ v, v ≠ w → active_workers n' !! v = active_workers n !! v ∧
     pending_workers n' !! v = pending_workers n !! v) →
  (active_workers n' !! w = active_workers n !! w ∨ active_workers n' !! w = None) →
  pending_workers n' !! w = None →
  deferred_grants n' = retain_grants w (deferred_grants n) →
  buffered_worker_commands n' = delete w (buffered_worker_commands n) →
  inv n'.
Proof.
  intros [He Hk Hd Ho Hj Hb] Ee Ep Ev Ew Epw Edd Ebb.
  split; unfold known, pods_of in *; rewrite ?Ee, ?Edd, ?Ebb.
  - intros p v. rewrite Ep. destruct (decide (v = w)) as [->|Hv].
    + rewrite lookup_delete_eq. simpl. case_decide as Hin; [set_solver|]. rewrite He. set_solver.
    + rewrite lookup_delete_ne by done. case_decide as Hin; [|apply He].
      split; [done|]. apply He in Hin. intros Hin'%He. congruence.
  - intros v [Hv Hs]%lookup_delete_is_Some. destruct (Ev v) as [-> ->]; [done|]. by apply Hk.
  - intros p v [Hin Hv]%elem_of_retain. destruct (Ev v) as [-> ->]; [done|].
    destruct (Hd p v Hin) as [H1 H2]. split; [done|]. rewrite Ep, H2. by case_decide.
  - by apply retain_NoDup.
  - intros v. destruct (decide (v = w)) as [->|Hv]; [done|]. destruct (Ev v) as [-> ->]; [done|]. apply Hj.
  - intros v [Hv Hs]%lookup_delete_is_Some. destruct (Ev v) as [-> _]; [done|]. by apply Hb.
Qed.

Lemma worker_disconnected_inv w n : inv n → inv (worker_disconnected w n).
Proof.
  intros Hn. unfold worker_disconnected. cbn zeta.
  set (n1 := {| n with active_workers := _; pending_workers := _; deferred_grants := _;
                       buffered_worker_commands := _ |}).
  destruct (is_some (active_workers n !! w) || is_some (pending_workers n !! w)) eqn:E.
  - destruct (forget_worker_pods_fields w n1) as (Ea & Ep & Ed & Eb & Ee & Hp).
    set (n2 := forget_worker_pods w n1) in *.
    set (n3 := if is_some (active_workers n !! w) then _ else n2).
    assert (Hsame : core n3 = core n2 ∧ buffered_worker_commands n3 = buffered_worker_commands n2).
    { unfold n3. destruct (is_some (active_workers n !! w)); [|done].
      by destruct (EndpointDemand.remove_worker w _). }
    destruct Hsame as [Hc Hbuf]. unfold core in Hc. injection Hc as ? ? He3 Hp3 ? ? ? ? Hpe3 Ha3 Hd3.
    apply (lose_worker_inv w n); [done|..]; simpl.
    + by rewrite He3, Ee.
    + intros p. by rewrite Hp3, Hp.
    + intros v Hv. rewrite Ha3, Hpe3, Ea, Ep. simpl. by rewrite !lookup_delete_ne by done.
    + rewrite Ha3, Ea. simpl. rewrite lookup_delete_eq. by right.
    + rewrite Hpe3, Ep. simpl. by rewrite lookup_delete_eq.
    + by rewrite Hd3, Ed.
    + by rewrite Hbuf, Eb.
  - apply orb_false_elim in E as [Ea%is_some_false Ep%is_some_false].
    assert (He : worker_pod_edges n !! w = None).
    { apply eq_None_not_Some. intros Hs%(i_known _ Hn). unfold known in Hs.
      rewrite Ea, Ep in Hs. by destruct Hs as [[]|[]]. }
    apply (lose_worker_inv w n); simpl; try done.
    + by rewrite delete_id.
    + intros p. unfold pods_of. rewrite He. by case_decide.
    + intros v Hv. by rewrite !lookup_delete_ne.
    + rewrite lookup_delete_eq. by right.
    + by rewrite lookup_delete_eq.
Qed.

Lemma namespace_failed_inv w n : inv n → inv (namespace_failed w n).
Proof.
  intros Hn. unfold namespace_failed. cbn zeta.
  set (n1 := {| n with pending_workers := _; deferred_grants := _; buffered_worker_commands := _ |}).
  destruct (forget_worker_pods_fields w n1) as (Ea & Ep & Ed & Eb & Ee & Hp).
  apply (lose_worker_inv w n); simpl; try done.
  - intros v Hv. rewrite Ea, Ep. simpl. by rewrite lookup_delete_ne.
  - rewrite Ea. by left.
  - rewrite Ep. simpl. by rewrite lookup_delete_eq.
Qed.

(** *** The other messages *)
Lemma remove_pod_inv p n : inv n → inv (remove_pod_from_worker p n).
Proof.
  intros [He Hk Hd Ho Hj Hb]. unfold remove_pod_from_worker.
  destruct (pod_worker n !! p) as [w|] eqn:Ep; [|done]. cbn zeta.
  assert (Hin : p ∈ pods_of n w) by by apply He. unfold pods_of in Hin. simpl.
  destruct (worker_pod_edges n !! w) as [pods|] eqn:Ew; [|set_solver]. simpl in Hin.
  split; unfold known, pods_of in *; simpl; try done.
  - intros q v. rewrite lookup_delete_Some, He. destruct (decide (v = w)) as [->|Hv].
    + rewrite Ew, lookup_insert_eq. set_solver.
    + rewrite lookup_insert_ne by done. split; [tauto|]. intros Hq. split; [|done].
      intros <-. apply He in Hq. congruence.
  - intros v [<-|[_ Hv]]%lookup_insert_is_Some; apply Hk; rewrite ?Ew; eauto.
  - intros q v Hq. destruct (Hd q v Hq) as [H1 H2]. split; [done|].
    apply lookup_delete_None. by right.
Qed.

(** Two namespaces with the same books satisfy the invariant alike. *)
Definition booked n :=
  (worker_pod_edges n, pod_worker n, pending_workers n, active_workers n, deferred_grants n).

Lemma inv_core n n' :
  booked n' = booked n → (∀ w, is_Some (buffered_worker_commands n' !! w) → active_workers n !! w = None) →
  inv n → inv n'.
Proof.
  unfold booked. intros Hc Hbuf [He Hk Hd Ho Hj Hb]. injection Hc as E1 E2 E3 E4 E5.
  split; unfold known, pods_of in *; rewrite ?E1, ?E2, ?E3, ?E4, ?E5; done.
Qed.
Lemma inv_same n n' :
  booked n' = booked n → buffered_worker_commands n' = buffered_worker_commands n → inv n → inv n'.
Proof. intros Hc Hb Hn. apply (inv_core n); [done| |done]. rewrite Hb. apply Hn. Qed.

Lemma handle_namespace_created_spec w n e n' e' :
  handle_namespace_created w (n, e) = Some (n', e') →
  n' = n ∧ e' = e ∧ pending_workers n !! w = None ∨
  ∃ info, pending_workers n !! w = Some info ∧
    pending_workers n' = delete w (pending_workers n) ∧
    active_workers n' = <[w := {| default_pool := wi_default_pool (pw_info info) |}]> (active_workers n) ∧
    buffered_worker_commands n' = delete w (buffered_worker_commands n) ∧
    worker_pod_edges n' = worker_pod_edges n ∧ pod_worker n' = pod_worker n ∧
    deferred_grants n' = deferred_grants n ∧ adapters n' = adapters n ∧
    current_spec n' = current_spec n ∧ ip_allocator n' = ip_allocator n ∧
    leases n' = leases n ∧ namespace_id n' = namespace_id n.
Proof.
  unfold handle_namespace_created. destruct (pending_workers n !! w) as [info|] eqn:E.
  - cbn zeta. destruct (mapM _ _) as [eps|]; simpl; [|done]. intros [= <- _]. right. exists info.
    by split_and!.
  - intros [= <- <-]. by left.
Qed.

Lemma handle_namespace_created_inv w n e n' e' :
  handle_namespace_created w (n, e) = Some (n', e') → inv n → inv n'.
Proof.
  intros [(-> & _ & _)|(info & Ei & Ep & Ea & Eb & Ee & Epw & Ed & _)]%handle_namespace_created_spec; [done|].
  intros [He Hk Hd Ho Hj Hb].
  assert (Hkn : ∀ v, known n' v ↔ known n v).
  { intros v. unfold known. rewrite Ea, Ep, lookup_insert_is_Some, lookup_delete_is_Some.
    destruct (decide (w = v)) as [<-|]; [|tauto]. rewrite Ei. split; eauto. }
  split; unfold pods_of in *; rewrite ?Ee, ?Epw, ?Ed; try done.
  - intros v Hv. apply Hkn. by apply Hk.
  - intros p v Hin. destruct (Hd p v Hin) as [Hn Hp]. by rewrite Hkn.
  - intros v. rewrite Ea, Ep, lookup_insert_is_Some, lookup_delete_None. intros [->|[Hne Hs]]; [by left|].
    right. by apply Hj.
  - intros v. rewrite Ea, Eb, lookup_delete_is_Some. intros [Hv Hs]. rewrite lookup_insert_ne by done.
    by apply Hb.
Qed.

(** The messages of the orchestrator come under this discipline: it announces a
    worker once, and it grants a pod only when the pod has no worker and no grant that
    waits for one. *)
Definition allowed n (event : OrchestratorToNamespace) : Prop :=
  match event with
  | ToNs.WorkerConnected w _ _ => ¬ known n w
  | ToNs.SchedulerDecision (Scheduler.Grant _ p w) =>
      pod_worker n !! p = None ∧ p ∉ (deferred_grants n).*1
  | _ => True
  end.

Lemma scheduler_decision_inv d n :
  inv n → allowed n (ToNs.SchedulerDecision d) → inv (scheduler_decision d n).
Proof.
  intros Hn Ha. destruct d as [ns p w|ns p w]; simpl in *.
  - destruct Ha as [Hp Hdd]. destruct (is_some (active_workers n !! w) || is_some (pending_workers n !! w)) eqn:E.
    + apply apply_grant_inv; [done| |done|done].
      apply orb_prop in E as [E|E]; apply is_some_true in E; [by left|by right].
    + apply orb_false_elim in E as [Ea%is_some_false Epp%is_some_false].
      destruct Hn as [He Hk Hd Ho Hj Hb]. split; unfold known, pods_of in *; simpl; try done.
      * intros q v [Hin|Hin%list_elem_of_singleton]%elem_of_app; [by apply Hd|].
        injection Hin as -> ->. rewrite Ea, Epp. split; [by intros [[]|[]]|done].
      * rewrite fmap_app. apply NoDup_app. split_and!; [done| |apply NoDup_singleton].
        intros q Hq ->%list_elem_of_singleton. done.
  - destruct (leases n !! p); apply remove_pod_inv; [|done]. by apply (inv_same n).
Qed.

Lemma handle_client_core cmd n :
  inv n → inv (handle_client_command cmd n).
Proof.
  intros Hn. destruct cmd; simpl; try by apply (inv_same n).
  - unfold handle_wg_connect. destruct (Wg.connect _ _) as [[ip outs|m] mgr].
    + assert (Hl : ∀ l m, inv m → inv (foldl (wg_output worker_id) m l)).
      { induction l as [|o l IH]; intros m Hm; [done|]. apply IH. destruct o; simpl; [|done].
        destruct (create_wire_guard_peer (router m)). by apply (inv_same m). }
      apply Hl. by apply (inv_same n).
    + by apply (inv_same n).
  - unfold handle_wg_disconnect. destruct (Wg.disconnect _ _) as [outs mgr].
    assert (Hl : ∀ l m, inv m → inv (foldl wg_removed m l)).
    { induction l as [|o l IH]; intros m Hm; [done|]. apply IH. destruct o; simpl; [done|].
      destruct (wg_peer_ports m !! _); [by apply (inv_same m)|done]. }
    apply Hl. by apply (inv_same n).
Qed.

Lemma dispatch_inv w ev n e n' e' :
  dispatch_active_worker_event w ev (n, e) = Some (n', e') → inv n → inv n'.
Proof.
  intros E Hn. assert (Hs : ∀ p st, inv (notify_status w p st n)).
  { intros. unfold notify_status. destruct (get_pod _ _); [by apply (inv_same n)|done]. }
  destruct ev; simpl in E; try (by simplify_eq; auto).
  - destruct (get_pod (router n) pod_id); [|by simplify_eq].
    destruct (Scheduler.parse_u64 _); simpl in E; simplify_eq. by apply (inv_same n).
  - destruct (find_map _ _); [|by simplify_eq].
    destruct (let '(port_id, ports, r) := _ in _) in E. simplify_eq. by apply (inv_same n).
Qed.

Lemma push_event_inv ev n e n' e' :
  push_event ev (n, e) = Some (n', e') → allowed n ev → inv n → inv n'.
Proof.
  intros E Ha Hn. destruct ev as [w pw info|w|d|port|[w ev]|cmd]; simpl in E; simplify_eq.
  - by apply worker_connected_inv.
  - by apply worker_disconnected_inv.
  - by apply scheduler_decision_inv.
  - by apply (inv_same n).
  - unfold handle_worker_event in E. destruct ev; cbv beta iota in E; cbn [fst snd] in E;
      try (destruct (is_some (active_workers n !! w)); [by eapply dispatch_inv|by simplify_eq]).
    + by eapply handle_namespace_created_inv.
    + simplify_eq. by apply namespace_failed_inv.
  - by apply handle_client_core.
Qed.

(** *** Cycles *)
(** What a cycle leaves of the namespace: all but the router, the adapters, the
    buffered commands and the artifact counter; commands are only buffered for
    workers that are not active. *)
Definition framed n n' : Prop :=
  core n' = core n ∧
  ∀ w, is_Some (buffered_worker_commands n' !! w) →
    is_Some (buffered_worker_commands n !! w) ∨ active_workers n !! w = None.

Lemma framed_refl n : framed n n.
Proof. split; [done|]. by left. Qed.
Lemma framed_trans n1 n2 n3 : framed n1 n2 → framed n2 n3 → framed n1 n3.
Proof.
  intros [E1 B1] [E2 B2]. split; [congruence|]. intros w [Hw|Hw]%B2; [by apply B1|].
  unfold core in E1. injection E1 as _ _ _ _ _ _ _ _ _ Ha _. right. congruence.
Qed.
Lemma framed_inv n n' : framed n n' → inv n → inv n'.
Proof.
  unfold framed, core. intros [E B] Hn. injection E as _ _ E1 E2 _ _ _ _ E3 E4 E5.
  apply (inv_core n); [by unfold booked; rewrite E1, E2, E3, E4, E5| |done].
  intros w [Hw|Hw]%B; [by apply Hn|done].
Qed.

Lemma send_or_buffer_framed w cmd n e : framed n (send_or_buffer w cmd (n, e)).1.
Proof.
  unfold send_or_buffer. destruct (is_some (active_workers n !! w)) eqn:E; [apply framed_refl|].
  apply is_some_false in E. split; [done|]. simpl. intros v [->|[_ Hv]]%lookup_insert_is_Some; auto.
Qed.

Lemma pod_action_framed s a s' : pod_action s a = Some s' → framed s.1 s'.1.
Proof.
  destruct s as [n e], a; simpl; intros E.
  - simplify_eq. apply (send_or_buffer_framed _ _ n e).
  - destruct (build_resume_command _ _ _ _ _); simpl in E; simplify_eq. apply (send_or_buffer_framed _ _ n e).
  - simplify_eq. apply framed_refl.
  - destruct (worker_pool n worker_id); simpl in E; simplify_eq. split; [done|]. by left.
Qed.

Lemma pod_actions_framed l s s' : fold_opt pod_action s l = Some s' → framed s.1 s'.1.
Proof.
  intros E. apply (fold_opt_preserve (λ t, framed s.1 t.1) _ _ _ _ E); [|apply framed_refl].
  intros t a t' Et Ht. eapply framed_trans; [done|]. by eapply pod_action_framed.
Qed.

Lemma collect_framed acts s s' : collect_effects acts s = Some s' → framed s.1 s'.1.
Proof.
  destruct s as [n e]. unfold collect_effects. cbn zeta.
  destruct (fold_opt pod_action _ _) as [[n1 e1]|] eqn:E; cbn [mbind option_bind]; [|done].
  apply pod_actions_framed in E. destruct (fold_opt (endpoint_action n1) _ _); cbn [mbind option_bind]; [|done].
  intros [= <-]. exact E.
Qed.

Lemma reconcile_fields n :
  core (reconcile n).2 = core n ∧
  buffered_worker_commands (reconcile n).2 = buffered_worker_commands n.
Proof.
  unfold reconcile. cbn zeta. destruct (drain_timer_inputs _) as [? r1].
  destruct (drain_schedule_request_inputs r1) as [? r2].
  destruct (ScheduleRequest.reconcile _). destruct (drain_worker_inputs r2) as [? r3].
  destruct (PodAssignment.reconcile _). destruct (drain_fabric_endpoint_inputs r3) as [? r4].
  destruct (EndpointAdapter.reconcile _ _) as [[? ?] ?]. destruct (drain_dns_registry_inputs r4) as [? r5].
  destruct (DnsRegistry.reconcile _ _) as [[? ?] ?]. destruct (Artifact.reconcile _) as [? [? r6]].
  by destruct (drain_observability_inputs r6).
Qed.

Lemma cycle_loop_framed fuel s s' : cycle_loop fuel s = Done s' → framed s.1 s'.1.
Proof.
  revert s. induction fuel as [|fuel IH]; intros [n e] E; cbn [cycle_loop] in E; [done|].
  destruct (reconcile_fields n) as [Hc Hb]. cbn [fst snd] in *.
  destruct (reconcile n) as [[acts mutated] n1]. cbn [fst snd] in *.
  destruct (collect_effects acts (n1, e)) as [s1|] eqn:Ec; cbn [of_option run_bind] in E; [|done].
  apply collect_framed in Ec. cbn [fst] in Ec.
  assert (Hn1 : framed n n1) by (split; [done|]; rewrite Hb; by left).
  pose proof (framed_trans _ _ _ Hn1 Ec) as Hs1.
  destruct mutated; [|by simplify_eq]. apply IH in E. eapply framed_trans; [exact Hs1|]. exact E.
Qed.

Lemma finish_cycle_framed s : framed s.1 (finish_cycle s).1.
Proof.
  destruct s as [n e]. unfold finish_cycle. destruct (Artifact.finalize _) as [? [? r]].
  split; [done|]. by left.
Qed.

Lemma run_cycle_framed fuel s s' : run_cycle fuel s = Done s' → framed s.1 s'.1.
Proof.
  unfold run_cycle. destruct (cycle_loop fuel _) as [t| |] eqn:E; cbn [run_bind]; [|done|done].
  intros [= <-]. apply cycle_loop_framed in E. eapply framed_trans; [exact E|]. apply finish_cycle_framed.
Qed.

(** *** The spec and the management adapter *)
(** Messages read the management adapter, the spec and the allocator; none writes them. *)
Definition kept n := (management (adapters n), current_spec n, ip_allocator n).

Lemma apply_grants_kept w l n : kept (foldl (apply_grant w) n l) = kept n.
Proof.
  revert n. induction l as [|p l IH]; intros n; [done|]. cbn [foldl]. rewrite IH.
  destruct (apply_grant_fields w n p) as (_ & _ & _ & _ & E1 & E2 & E3 & _). unfold kept. by rewrite E1, E2, E3.
Qed.

Lemma forget_worker_pods_kept w n : kept (forget_worker_pods w n) = kept n.
Proof. unfold forget_worker_pods. by destruct (worker_pod_edges n !! w). Qed.

Lemma worker_disconnected_kept w n : kept (worker_disconnected w n) = kept n.
Proof.
  unfold worker_disconnected. cbn zeta. destruct (_ || _); [|done].
  set (n1 := {| n with active_workers := _; pending_workers := _; deferred_grants := _;
                       buffered_worker_commands := _ |}).
  transitivity (kept (forget_worker_pods w n1)); [|by rewrite forget_worker_pods_kept].
  destruct (is_some (active_workers n !! w)); [|done]. by destruct (EndpointDemand.remove_worker w _).
Qed.

Lemma scheduler_decision_kept d n : kept (scheduler_decision d n) = kept n.
Proof.
  destruct d as [ns p w|ns p w]; simpl.
  - destruct (_ || _); [|done]. apply (apply_grants_kept w [p]).
  - set (n1 := match leases n !! p with Some _ => _ | None => n end).
    assert (E : kept n1 = kept n) by (unfold n1; by destruct (leases n !! p)). rewrite <- E.
    unfold remove_pod_from_worker. destruct (pod_worker n1 !! p) as [w'|]; [|done]. simpl.
    by destruct (worker_pod_edges n1 !! w').
Qed.

Lemma handle_client_kept cmd n : kept (handle_client_command cmd n) = kept n.
Proof.
  destruct cmd; simpl; try done.
  - unfold handle_wg_connect, Wg.connect. destruct (Wg.peers _ !! _); simpl; [done|].
    destruct (_ <? 2); simpl; [done|]. by destruct (create_wire_guard_peer _).
  - unfold handle_wg_disconnect, Wg.disconnect. destruct (Wg.peers _ !! _); simpl; [|done].
    by destruct (wg_peer_ports n !! _).
Qed.

Lemma dispatch_kept w ev n e s : dispatch_active_worker_event w ev (n, e) = Some s → kept s.1 = kept n.
Proof.
  intros E. assert (Hs : ∀ p st, kept (notify_status w p st n) = kept n).
  { intros. unfold notify_status. by destruct (get_pod _ _). }
  destruct ev; simpl in E; try (by simplify_eq; cbn [fst]; auto).
  - destruct (get_pod (router n) pod_id); [|by simplify_eq].
    destruct (Scheduler.parse_u64 _); simpl in E; by simplify_eq.
  - destruct (find_map _ _); [|by simplify_eq].
    destruct (let '(port_id, ports, r) := _ in _) in E. by simplify_eq.
Qed.

Lemma push_event_kept ev n e s : push_event ev (n, e) = Some s → kept s.1 = kept n.
Proof.
  intros E. destruct ev as [w pw info|w|d|port|[w ev]|cmd]; simpl in E; simplify_eq; cbn [fst].
  - unfold worker_connected. cbn zeta. by rewrite apply_grants_kept.
  - apply worker_disconnected_kept.
  - apply scheduler_decision_kept.
  - done.
  - destruct s as [n' e']. unfold handle_worker_event in E.
    destruct ev; cbv beta iota in E; cbn [fst snd] in *;
      try (destruct (is_some (active_workers n !! w)); [by apply dispatch_kept in E|by simplify_eq]).
    + apply handle_namespace_created_spec in E as [(-> & _ & _)|(i & _ & _ & _ & _ & _ & _ & _ & Ea & Es & Ei & _)];
        [done|]. unfold kept. by rewrite Ea, Es, Ei.
    + simplify_eq. unfold namespace_failed. cbn zeta.
      etransitivity; [apply (forget_worker_pods_kept w)|done].
  - apply handle_client_kept.
Qed.

(** A cycle registers ids with the management adapter and leaves the names alone. *)
Lemma collect_adapters acts s s' : collect_effects acts s = Some s' → adapters s'.1 = adapters s.1.
Proof.
  destruct s as [n e]. unfold collect_effects. cbn zeta.
  destruct (fold_opt pod_action _ _) as [[n1 e1]|] eqn:E; cbn [mbind option_bind]; [|done].
  destruct (fold_opt (endpoint_action n1) _ _); cbn [mbind option_bind]; [|done].
  intros [= <-]. cbn [fst].
  apply (fold_opt_preserve (λ t, adapters t.1 = adapters n) _ _ _ _ E); [|done].
  intros [m f] a [m' f'] Et Hm. cbn [fst] in *. rewrite <- Hm. clear -Et.
  destruct a; simpl in Et; [simplify_eq| |by simplify_eq|].
  - by destruct (is_some (active_workers m !! worker_id)); simplify_eq.
  - destruct (build_resume_command _ _ _ _ _); simpl in Et; simplify_eq.
    by destruct (is_some (active_workers m !! worker_id)); simplify_eq.
  - destruct (worker_pool m worker_id); simpl in Et; by simplify_eq.
Qed.

Lemma reconcile_management n spec :
  mirrors (management (adapters n)) spec → mirrors (management (adapters (reconcile n).2)) spec.
Proof.
  intros Hm. unfold reconcile. cbn zeta. destruct (drain_timer_inputs _) as [? r1].
  destruct (drain_schedule_request_inputs r1) as [? r2].
  destruct (ScheduleRequest.reconcile _). destruct (drain_worker_inputs r2) as [? r3].
  destruct (PodAssignment.reconcile _). destruct (drain_fabric_endpoint_inputs r3) as [? r4].
  destruct (EndpointAdapter.reconcile _ _) as [[? ?] ?]. destruct (drain_dns_registry_inputs r4) as [? r5].
  destruct (DnsRegistry.reconcile _ _) as [[? ?] ?]. destruct (Artifact.reconcile _) as [? [? r6]].
  destruct (drain_observability_inputs r6) as [? r7]. simpl. by apply sync_dynamic_ids_mirrors.
Qed.

Lemma run_cycle_mirrors fuel s s' spec :
  run_cycle fuel s = Done s' → mirrors (management (adapters s.1)) spec →
  mirrors (management (adapters s'.1)) spec.
Proof.
  unfold run_cycle. destruct (cycle_loop fuel _) as [t| |] eqn:E; cbn [run_bind]; [|done|done].
  intros [= <-] Hm.
  assert (Hl : ∀ fuel s s', cycle_loop fuel s = Done s' → mirrors (management (adapters s.1)) spec →
    mirrors (management (adapters s'.1)) spec).
  { clear. induction fuel as [|fuel IH]; intros [n e] s' E Hm; cbn [cycle_loop fst snd] in *; [done|].
    apply reconcile_management in Hm. destruct (reconcile n) as [[acts mutated] n1]. cbn [fst snd] in *.
    destruct (collect_effects acts (n1, e)) as [s1|] eqn:Ec; cbn [of_option run_bind] in E; [|done].
    apply collect_adapters in Ec. cbn [fst] in Ec. rewrite <- Ec in Hm.
    destruct mutated; [|by simplify_eq]. by eapply IH. }
  apply Hl in E; [|done]. destruct t as [n e]. cbn [fst] in *. unfold finish_cycle.
  by destruct (Artifact.finalize _) as [? [? r]].
Qed.

(** *** Reachable namespaces *)
Definition backed n : Prop := ∀ spec, current_spec n = Some spec → backed_spec (ip_allocator n) spec.

(** The counters of the management adapter have room for the new spec. *)
Definition roomy n n' : Prop :=
  ∀ spec, current_spec n' = Some spec →
    next_workload_id (management (adapters n)) + Z.of_nat (size (Spec.n_workloads spec)) < 2 ^ 64 ∧
    next_service_id (management (adapters n)) + Z.of_nat (size (Spec.n_services spec)) < 2 ^ 64.

(** The calls of the unit on its namespace.  Under [strict], a spec call that fails
    had no address to release. *)
Inductive step (strict : Prop) n : Namespace R → Prop :=
  | step_event fuel ev s :
      allowed n ev → process_event fuel ev n = Done s → step strict n s.1
  | step_timer fuel identity s :
      fire_timer fuel identity n = Done s → step strict n s.1
  | step_spec fuel input s alloc :
      apply_full_spec fuel input n = Done (inl (s, alloc)) → roomy n s.1 → step strict n s.1
  | step_spec_failed fuel input error n' :
      apply_full_spec fuel input n = Done (inr (error, n')) →
      (strict → release_dropped (current_spec n) input (ip_allocator n) = ip_allocator n) →
      step strict n n'
  | step_patch fuel input s alloc :
      apply_patch fuel input n = Done (inl (s, alloc)) → roomy n s.1 → step strict n s.1
  | step_patch_failed fuel input error n' :
      apply_patch fuel input n = Done (inr (error, n')) →
      (strict → Spec.pi_remove_workloads input = [] ∧ Spec.pi_remove_services input = []) →
      step strict n n'.

(** A namespace whose network has room, and what its unit can make of it. *)
Definition net_ok (net : NetworkConfig) : Prop := Ip.good_subnet (nc_subnet net) (nc_prefix_len net) 10.
Definition reach (strict : Prop) n : Prop :=
  ∃ ns net, net_ok net ∧ rtc (step strict) (new ns net IdRegistry.new) n.

Record good (strict : Prop) n : Prop := {
  g_inv : inv n;
  g_mirrors : mirrors (management (adapters n)) (current_spec n);
  g_wf : Ip.wf (ip_allocator n);
  g_backed : strict → backed n;
}.

Lemma run_cycle_good fuel s s' strict : run_cycle fuel s = Done s' → good strict s.1 → good strict s'.1.
Proof.
  intros E [Hi Hm Hw Hb]. pose proof (run_cycle_framed _ _ _ E) as Hf.
  pose proof (run_cycle_mirrors _ _ _ (current_spec s.1) E Hm) as Hm'.
  pose proof (framed_inv _ _ Hf Hi) as Hi'. destruct Hf as [Hc _].
  unfold core in Hc. injection Hc as _ _ _ _ Es Ea _ _ _ _ _.
  split; unfold backed; rewrite ?Es, ?Ea; done.
Qed.

Lemma install_spec_good fuel spec n s alloc strict :
  install_spec fuel spec n = Done (s, alloc) → good False n → roomy n s.1 →
  Ip.wf (ip_allocator n) → (strict → backed_spec (ip_allocator n) spec) →
  good strict s.1 ∧ current_spec s.1 = Some spec ∧ ip_allocator s.1 = ip_allocator n ∧
  alloc = Ip.full_snapshot (ip_allocator n).
Proof.
  unfold install_spec. intros E Hg Hroom Hw Hb.
  destruct (apply_namespace_spec _ _ _) as [[m r]|] eqn:Ea; cbn [of_option run_bind] in E; [|done].
  cbn zeta in E. cbn [fst snd] in E.
  destruct (run_cycle fuel _) as [t| |] eqn:Er; cbn [run_bind] in E; [|done|done].
  injection E as -> <-.
  pose proof (run_cycle_framed _ _ _ Er) as [Hc _]. unfold core in Hc. cbn [fst] in Hc.
  injection Hc as _ _ _ _ Es Eal _ _ _ _ _. rewrite Es, Eal. split_and!; try done.
  destruct (Hroom spec) as [Hr1 Hr2]; [by rewrite Es|].
  destruct (apply_spec_mirrors (current_spec n) spec (management (adapters n)) (router n))
    as (m' & r' & E' & Hm & _); [apply Hg|done|done|]. rewrite Ea in E'. injection E' as <- <-.
  apply (run_cycle_good _ _ _ strict Er). split; cbn [fst].
  - apply (inv_same n); [done|done|apply Hg].
  - exact Hm.
  - exact Hw.
  - intros Hst spec' [= <-]. by apply Hb.
Qed.

Lemma step_spec_good strict fuel input n s alloc :
  apply_full_spec fuel input n = Done (inl (s, alloc)) → roomy n s.1 → good strict n → good strict s.1.
Proof.
  intros E Hr Hg. unfold apply_full_spec, resolve_spec_input in E.
  pose proof (resolve_both_spec (Spec.ni_workloads input) (Spec.ni_services input) _
    (release_dropped_wf (current_spec n) input _ (g_wf _ _ Hg))) as Hres.
  destruct (resolve_both _ _ _) as [[p|er] a]; [|done]. destruct Hres as (Hw & _ & Hb & _).
  destruct (install_spec _ _ _) as [[s' al]| |] eqn:Ei; cbn [run_bind] in E; [|done|done].
  injection E as -> ->. destruct (install_spec_good _ _ _ _ _ strict Ei) as [Hgood _]; try done.
  - destruct Hg as [Hi Hm _ _]. split; try done. by apply (inv_same n).
  - intros _. apply Hb.
Qed.

Lemma step_spec_failed_good strict fuel input n error n' :
  apply_full_spec fuel input n = Done (inr (error, n')) →
  (strict → release_dropped (current_spec n) input (ip_allocator n) = ip_allocator n) →
  good strict n → good strict n'.
Proof.
  intros E Hst Hg. unfold apply_full_spec, resolve_spec_input in E.
  pose proof (resolve_both_spec (Spec.ni_workloads input) (Spec.ni_services input) _
    (release_dropped_wf (current_spec n) input _ (g_wf _ _ Hg))) as Hres.
  destruct (resolve_both _ _ _) as [[p|er'] a]; [by destruct (install_spec _ _ _) as [[s' al]| |]|].
  destruct Hres as (Hw & Hmono & _). injection E as _ <-.
  destruct Hg as [Hi Hm _ Hb]. split; try done; [by apply (inv_same n)|].
  intros st spec Es. rewrite (Hst st) in Hmono. by eapply backed_spec_mono, Hb.
Qed.

Lemma step_patch_good strict fuel input n s alloc :
  apply_patch fuel input n = Done (inl (s, alloc)) → roomy n s.1 → good strict n → good strict s.1.
Proof.
  intros E Hr Hg. unfold apply_patch, resolve_patch_input in E.
  destruct (current_spec n) as [spec|] eqn:Es; [|done]. cbn zeta in E.
  pose proof (resolve_both_spec (Spec.pi_workloads input) (Spec.pi_services input) _
    (proj1 (release_all_spec KService (Spec.pi_remove_services input) _
      (proj1 (release_all_spec KWorkload (Spec.pi_remove_workloads input) _ (g_wf _ _ Hg)))))) as Hres.
  destruct (resolve_both _ _ _) as [[p|er] a]; [|done]. destruct Hres as (Hw & Hmono & Hb & _).
  destruct (install_spec _ _ _) as [[s' al]| |] eqn:Ei; cbn [run_bind] in E; [|done|done].
  injection E as -> ->. destruct (install_spec_good _ _ _ _ _ strict Ei) as [Hgood _]; try done.
  - destruct Hg as [Hi Hm _ _]. split; try done; [by apply (inv_same n)|]. simpl. by rewrite Es in *.
  - intros st. apply (patched_backed input p spec (ip_allocator n)); [apply Hg| |done|done].
    by apply (g_backed _ _ Hg st).
Qed.

Lemma step_patch_failed_good strict fuel input n error n' :
  apply_patch fuel input n = Done (inr (error, n')) →
  (strict → Spec.pi_remove_workloads input = [] ∧ Spec.pi_remove_services input = []) →
  good strict n → good strict n'.
Proof.
  intros E Hst Hg. unfold apply_patch, resolve_patch_input in E.
  destruct (current_spec n) as [spec|] eqn:Es; [|by injection E as _ <-]. cbn zeta in E.
  pose proof (resolve_both_spec (Spec.pi_workloads input) (Spec.pi_services input) _
    (proj1 (release_all_spec KService (Spec.pi_remove_services input) _
      (proj1 (release_all_spec KWorkload (Spec.pi_remove_workloads input) _ (g_wf _ _ Hg)))))) as Hres.
  destruct (resolve_both _ _ _) as [[p|er'] a]; [by destruct (install_spec _ _ _) as [[s' al]| |]|].
  destruct Hres as (Hw & Hmono & _). injection E as _ <-.
  destruct Hg as [Hi Hm _ Hb]. rewrite Es in Hm. split; try done; [by apply (inv_same n)|].
  intros st spec' [= <-]. destruct (Hst st) as [E1 E2]. rewrite E1, E2 in Hmono.
  by eapply backed_spec_mono, Hb.
Qed.

Lemma step_good strict n n' : step strict n n' → good strict n → good strict n'.
Proof.
  intros Hs Hg. destruct Hs as [fuel ev s Ha E|fuel i s E|fuel i s alloc E Hr|fuel i er n' E Hst
    |fuel i s alloc E Hr|fuel i er n' E Hst].
  - unfold process_event in E. destruct (push_event _ _) as [t|] eqn:Ep; cbn [of_option run_bind] in E; [|done].
    apply (run_cycle_good _ _ _ _ E). destruct t as [n1 e1]. pose proof (push_event_kept _ _ _ _ Ep) as Hk.
    unfold kept in Hk. cbn [fst] in *. injection Hk as Hk1 Hk2 Hk3. destruct Hg as [Hi Hm Hw Hb].
    split; unfold backed; rewrite ?Hk1, ?Hk2, ?Hk3; try done. by eapply push_event_inv.
  - unfold fire_timer in E. apply (run_cycle_good _ _ _ _ E). destruct Hg. split; try done.
    by apply (inv_same n).
  - by eapply step_spec_good.
  - by eapply step_spec_failed_good.
  - by eapply step_patch_good.
  - by eapply step_patch_failed_good.
Qed.

Lemma reach_good strict n : reach strict n → good strict n.
Proof.
  intros (ns & net & Hnet & Hs).
  eapply (rtc_invariant (step strict) (good strict)); [intros x y Hx Hxy; by eapply step_good|exact Hs|].
  split; [apply new_inv| |by apply Ip.new_wf|by intros _ spec].
  split_and!; try done; split; simpl; try done; try (intros; by rewrite !lookup_empty);
    intros id; rewrite lookup_empty; by intros [].
Qed.


(** C33: as long as no failing spec call had addresses to release, the workloads and
    services of the current spec hold pairwise distinct addresses, each the one the
    allocator keeps for it, and workloads distinct MAC addresses. *)
Theorem spec_addresses_distinct n spec :
  reach True n → current_spec n = Some spec →
  let wl name w := Spec.n_workloads spec !! name = Some w in
  let svc name v := Spec.n_services spec !! name = Some v in
  (∀ a w, wl a w → Ip.ip_of (ip_allocator n) (KWorkload a) = Some (pnc_ip (Spec.w_network w))) ∧
  (∀ a v, svc a v → Ip.ip_of (ip_allocator n) (KService a) = Some (Spec.s_ip v)) ∧
  (∀ a b w v, wl a w → wl b v → pnc_ip (Spec.w_network w) = pnc_ip (Spec.w_network v) → a = b) ∧
  (∀ a b w v, wl a w → wl b v → pnc_mac (Spec.w_network w) = pnc_mac (Spec.w_network v) → a = b) ∧
  (∀ a b w v, svc a w → svc b v → Spec.s_ip w = Spec.s_ip v → a = b) ∧
  (∀ a b w v, wl a w → svc b v → pnc_ip (Spec.w_network w) ≠ Spec.s_ip v).
Proof.
  intros Hr Es wl svc. apply reach_good in Hr as [_ _ Hw Hb].
  destruct (Hb I spec Es) as [Hbw Hbs].
  assert (Hip : ∀ a w, wl a w → Ip.ip_of (ip_allocator n) (KWorkload a) = Some (pnc_ip (Spec.w_network w)))
    by (intros a w Hx; by apply (Hbw a w Hx)).
  assert (Heq : ∀ k k' ip ip', Ip.ip_of (ip_allocator n) k = Some ip →
    Ip.ip_of (ip_allocator n) k' = Some ip' → ip = ip' → k = k')
    by (intros ????? ? ->; by eapply Ip.ip_of_inj).
  split_and!; [done|done|..].
  - intros a b w v Ha%Hip Hv%Hip E. eapply Heq in E; [|done|done]. by simplify_eq.
  - intros a b w v Ha Hv E. rewrite (proj2 (Hbw a w Ha)), (proj2 (Hbw b v Hv)) in E.
    apply Hip in Ha, Hv. apply ip_to_mac_inj in E; [|exact (ip_of_range _ _ _ Hw Ha)|exact (ip_of_range _ _ _ Hw Hv)].
    eapply Heq in E; [|done|done]. by simplify_eq.
  - intros a b w v Ha%Hbs Hv%Hbs E. eapply Heq in E; [|done|done]. by simplify_eq.
  - intros a b w v Ha%Hip Hv%Hbs E. by pose proof (Heq _ _ _ _ Ha Hv E).
Qed.

Lemma report_dom {V} (f : string → Z → V) (l : list (string * Z)) (m : gmap string V) x :
  is_Some (foldl (λ m '(name, id), <[name := f name id]> m) m l !! x) ↔ x ∈ l.*1 ∨ is_Some (m !! x).
Proof.
  revert m. induction l as [|[y id] l IH]; intros m; cbn [foldl]; [set_solver|].
  rewrite IH, lookup_insert_is_Some. cbn [fmap list_fmap fst]. rewrite elem_of_cons.
  destruct (decide (y = x)); naive_solver.
Qed.

(** In every reachable namespace the machines of the router are those of the
    current spec: names and machine ids of workloads and of services correspond one to
    one, the registry has the same names, and the status report lists exactly the
    workloads and the services of the spec. *)
Theorem report_follows_spec n :
  reach False n →
  let m := management (adapters n) in
  let workloads := default ∅ (Spec.n_workloads <$> current_spec n) in
  let services := default ∅ (Spec.n_services <$> current_spec n) in
  (∀ name id, lookup_workload m name = Some id ↔ workload_proto_name m id = Some name) ∧
  (∀ name id, lookup_service m name = Some id ↔ service_proto_name m id = Some name) ∧
  (∀ id, IdRegistry.workload_name (id_registry m) id = workload_proto_name m id) ∧
  (∀ id, IdRegistry.service_name (id_registry m) id = service_proto_name m id) ∧
  dom (Status.nr_workloads (status_report n)) = dom workloads ∧
  dom (Status.nr_services (status_report n)) = dom services.
Proof.
  intros [_ (Hw & Hs & Dw & Ds) _ _]%reach_good. simpl.
  assert (Hit : ∀ {V} (f : string → Z → V) (l : gmap string Z),
    dom (foldl (λ (m : gmap string V) '(name, id), <[name := f name id]> m) ∅ (hash_iter l)) = dom l).
  { intros V f l. apply set_eq. intros x. rewrite !elem_of_dom, report_dom, lookup_empty, list_elem_of_fmap.
    split; [intros [([y id] & -> & Hin%elem_of_hash_iter)|[? ?]]; [eauto|done]|].
    intros [id Hid]. left. exists (x, id). split; [done|]. by apply elem_of_hash_iter. }
  split_and!.
  - apply Hw.
  - apply Hs.
  - intros id. unfold IdRegistry.workload_name. by rewrite (b_reg _ _ _ _ _ Hw).
  - intros id. unfold IdRegistry.service_name. by rewrite (b_reg _ _ _ _ _ Hs).
  - unfold iter_workloads. rewrite Hit. exact Dw.
  - unfold iter_services. rewrite Hit. exact Ds.
Qed.

(** ** A grant and its worker *)
Lemma apply_grants_workers w v l n :
  active_workers (foldl (apply_grant v) n l) !! w = active_workers n !! w ∧
  pending_workers (foldl (apply_grant v) n l) !! w = pending_workers n !! w.
Proof.
  revert n. induction l as [|p l IH]; intros n; [done|]. cbn [foldl].
  destruct (IH (apply_grant v n p)) as [-> ->].
  by destruct (apply_grant_fields v n p) as (-> & -> & _).
Qed.

(** It does not matter whether a grant arrives before or after the worker it
    names: a grant that came first is kept and applied, once, when the worker joins,
    after the grants that came before it. *)
Theorem grant_and_worker_commute n ns p w info :
  ¬ known n w →
  worker_connected w info (scheduler_decision (Scheduler.Grant ns p w) n) =
  scheduler_decision (Scheduler.Grant ns p w) (worker_connected w info n).
Proof.
  intros Hw. assert (Ha : active_workers n !! w = None ∧ pending_workers n !! w = None).
  { unfold known in Hw. rewrite <- !not_eq_None_Some in Hw.
    destruct (active_workers n !! w), (pending_workers n !! w); naive_solver. }
  destruct Ha as [Ha Hp]. cbn [scheduler_decision].
  assert (E : is_some (active_workers (worker_connected w info n) !! w) = false ∧
    is_some (pending_workers (worker_connected w info n) !! w) = true).
  { unfold worker_connected. cbn zeta. rewrite !(proj1 (apply_grants_workers _ _ _ _)),
      !(proj2 (apply_grants_workers _ _ _ _)). simpl. by rewrite Ha, lookup_insert_eq. }
  destruct E as [-> ->]. rewrite Ha, Hp. simpl. unfold worker_connected. cbn zeta. simpl.
  unfold retain_grants. rewrite !filter_app, (filter_cons_True (λ g, g.2 = w)) by done.
  rewrite (filter_cons_False (λ g, g.2 ≠ w)) by naive_solver.
  rewrite !filter_nil, app_nil_r, fmap_app, foldl_app. done.
Qed.

End Books.
End Books.
