(* ===== verification/NamespaceRuns.v ===== *)
(** * What a namespace sends, when it panics and that its loops end

    About [NamespaceCore]: launches reach a worker once and in order, the inputs on
    which a message or a round panics are exactly the ones listed, the loop of a cycle
    ends when the router settles, and the timer loop takes two rounds. *)

From S2P Require Import Prelude SmTypes IpAlloc Pod Endpoint Workload Timers Protocol.
From S2P Require Import Scheduler CoreTypes Specs Adapters RouterOps Management NamespaceCore.
From S2P Require Import NamespaceInv.

Module Launches.
Import Management Namespace Books.
Section Launches.
Context `{RouterOps R} `{!HashIter Z} `{!HashIter (Z * Z)} `{!HashIter string}.
Implicit Types n : Namespace R.

(** The commands for one worker among the effects, and those that wait for it. *)
Definition mail (w : Z) (e : NamespaceEffects) : list WorkerCommand :=
  (filter (λ c, c.1 = w) (ns_worker_commands e)).*2.
Definition buffer (w : Z) n : list WorkerCommand := default [] (buffered_worker_commands n !! w).
Definition is_launch (cmd : WorkerCommand) : bool :=
  match cmd with Command.LaunchPod _ _ _ _ _ _ | Command.ResumePod _ _ _ _ _ => true | _ => false end.
Definition launches (l : list WorkerCommand) : list WorkerCommand := filter (λ c, is_launch c = true) l.

(** The launches and resumes that the actions ask of one worker. *)
Definition issued1 n (w : Z) (a : PodAssignment.PodAssignmentAction) : list WorkerCommand :=
  match a with
  | PodAssignment.Launch w' p _ spec => if decide (w' = w) then [build_launch_command n p spec] else []
  | PodAssignment.Resume w' p art spec =>
      if decide (w' = w) then
        option_list (build_resume_command n w' p (artifact_name art) spec)
      else []
  | _ => []
  end.
Definition issued n (w : Z) (l : list PodAssignment.PodAssignmentAction) : list WorkerCommand :=
  l ≫= issued1 n w.

(** Only launches wait, and only for workers that are not active. *)
Definition waiting_ok n : Prop :=
  ∀ w, launches (buffer w n) = buffer w n ∧ (is_Some (active_workers n !! w) → buffer w n = []).

Lemma mail_push v cmd e w :
  mail w (push_worker_command v cmd e) = mail w e ++ (if decide (v = w) then [cmd] else []).
Proof.
  unfold mail. simpl. rewrite filter_app, fmap_app. f_equal. case_decide as Hv.
  - by rewrite filter_cons_True.
  - by rewrite filter_cons_False.
Qed.
Lemma launches_app l l' : launches (l ++ l') = launches l ++ launches l'.
Proof. apply filter_app. Qed.
Lemma launches_launch cmd : is_launch cmd = true → launches [cmd] = [cmd].
Proof. intros Hc. unfold launches. by rewrite filter_cons_True. Qed.
Lemma launches_other cmd : is_launch cmd = false → launches [cmd] = [].
Proof. intros Hc. unfold launches. rewrite filter_cons_False; [done|congruence]. Qed.

Lemma mail_other w v cmd e :
  is_launch cmd = false → launches (mail w (push_worker_command v cmd e)) = launches (mail w e).
Proof.
  intros Hc. rewrite mail_push, launches_app. case_decide; [|by rewrite app_nil_r].
  by rewrite launches_other, app_nil_r.
Qed.

(** Launches sent and waiting, for one worker. *)
Definition account (w : Z) (s : Namespace R * NamespaceEffects) : list WorkerCommand :=
  launches (mail w s.2) ++ buffer w s.1.

Lemma push_other w v cmd n e :
  is_launch cmd = false → account w (n, push_worker_command v cmd e) = account w (n, e).
Proof. intros Hc. unfold account. cbn [fst snd]. by rewrite mail_other. Qed.

Lemma send_or_buffer_account w v cmd n e :
  is_launch cmd = true → waiting_ok n →
  account w (send_or_buffer v cmd (n, e)) = account w (n, e) ++ (if decide (v = w) then [cmd] else []) ∧
  waiting_ok (send_or_buffer v cmd (n, e)).1.
Proof.
  intros Hc Hok. unfold send_or_buffer. destruct (is_some (active_workers n !! v)) eqn:E.
  - split; [|done]. unfold account. simpl. rewrite mail_push, launches_app. case_decide as Hv.
    + subst w. apply is_some_true in E. rewrite (proj2 (Hok v) E), !app_nil_r. by rewrite launches_launch.
    + by rewrite !app_nil_r.
  - apply is_some_false in E. assert (Hbuf : ∀ u, buffer u {| n with buffered_worker_commands :=
      <[v := default [] (buffered_worker_commands n !! v) ++ [cmd]]> (buffered_worker_commands n) |} =
      buffer u n ++ (if decide (v = u) then [cmd] else [])).
    { intros u. unfold buffer. simpl. case_decide as Hu.
      - subst u. by rewrite lookup_insert_eq.
      - by rewrite lookup_insert_ne, app_nil_r. }
    split.
    + unfold account. cbn [fst snd]. rewrite Hbuf. by rewrite (assoc_L (++)).
    + intros u. cbn [fst]. rewrite Hbuf. simpl. split.
      * rewrite launches_app, (proj1 (Hok u)). f_equal. case_decide; [by apply launches_launch|done].
      * intros Hu. rewrite (proj2 (Hok u) Hu). case_decide; [|done]. subst. rewrite E in Hu. by destruct Hu.
Qed.

Lemma resume_is_launch n w p art spec cmd :
  build_resume_command n w p art spec = Some cmd → is_launch cmd = true.
Proof. unfold build_resume_command. destruct (worker_pool n w); simpl; [|done]. by intros [= <-]. Qed.

Lemma pod_action_account w n e a s :
  pod_action (n, e) a = Some s → waiting_ok n →
  account w s = account w (n, e) ++ issued1 n w a ∧ waiting_ok s.1.
Proof.
  intros E Hok. destruct a; simpl in E.
  - injection E as <-. by apply send_or_buffer_account.
  - destruct (build_resume_command _ _ _ _ _) as [cmd|] eqn:Ec; cbn [mbind option_bind] in E; [|done].
    injection E as <-. simpl. rewrite Ec. apply send_or_buffer_account; [|done]. by eapply resume_is_launch.
  - injection E as <-. simpl. rewrite app_nil_r. split; [by apply push_other|done].
  - destruct (worker_pool n worker_id); cbn [mbind option_bind] in E; [|done]. injection E as <-.
    simpl. rewrite app_nil_r. split; [|done]. etransitivity; [by apply push_other|done].
Qed.

Lemma issued1_core n n' w a : core n' = core n → issued1 n' w a = issued1 n w a.
Proof.
  unfold core. intros E. injection E as Ei _ _ _ Es _ _ _ _ Ea _.
  destruct a; simpl; try done; unfold build_launch_command, build_resume_command, pod_network,
    fill_network_from_namespace, worker_pool; by rewrite Ei, Es, ?Ea.
Qed.

Lemma pod_actions_account w l n e s :
  fold_opt pod_action (n, e) l = Some s → waiting_ok n →
  account w s = account w (n, e) ++ issued n w l ∧ waiting_ok s.1.
Proof.
  revert n e. induction l as [|a l IH]; intros n e E Hok; cbn [fold_opt] in E.
  { injection E as <-. unfold issued. simpl. by rewrite app_nil_r. }
  destruct (pod_action (n, e) a) as [[n1 e1]|] eqn:Ea; cbn [mbind option_bind] in E; [|done].
  destruct (pod_action_account w _ _ _ _ Ea Hok) as [E1 Hok1].
  apply pod_action_framed in Ea as [Hc _]. cbn [fst] in *.
  destruct (IH _ _ E Hok1) as [E2 Hok2]. split; [|done]. rewrite E2, E1. unfold issued. simpl.
  rewrite (assoc_L (++)). f_equal. apply list_bind_ext; [|done]. intros b. by apply issued1_core.
Qed.

Lemma endpoint_action_account w n e a e' :
  endpoint_action n e a = Some e' → account w (n, e') = account w (n, e).
Proof.
  unfold endpoint_action. destruct (build_endpoint_command n a); cbn [mbind option_bind]; [|done].
  intros [= <-]. destruct a; try done. etransitivity; [by apply push_other|done].
Qed.

Lemma collect_account w acts n e s :
  collect_effects acts (n, e) = Some s → waiting_ok n →
  account w s = account w (n, e) ++ issued n w (ra_pod_actions acts) ∧ waiting_ok s.1.
Proof.
  unfold collect_effects. cbn zeta. intros E Hok.
  set (e0 := foldl _ _ (ra_schedule_deltas acts)) in E.
  assert (He0 : ns_worker_commands e0 = ns_worker_commands e).
  { unfold e0. generalize (ra_schedule_deltas acts). intros l.
    set (e1 := {| e with timer_actions := _ |}). change (ns_worker_commands e) with (ns_worker_commands e1).
    generalize e1. induction l as [|d l IH]; intros f; [done|]. cbn [foldl]. by rewrite IH. }
  destruct (fold_opt pod_action _ _) as [[n1 e1]|] eqn:Ep; cbn [mbind option_bind] in E; [|done].
  destruct (pod_actions_account w _ _ _ _ Ep Hok) as [E1 Hok1].
  destruct (fold_opt (endpoint_action n1) _ _) as [e2|] eqn:Ee; cbn [mbind option_bind] in E; [|done].
  injection E as <-. split; [|done].
  assert (E2 : account w (n1, e2) = account w (n1, e1)).
  { apply (fold_opt_preserve (λ e, account w (n1, e) = account w (n1, e1)) _ _ _ _ Ee); [|done].
    intros f a f' Ef Hf. rewrite <- Hf. by eapply endpoint_action_account. }
  transitivity (account w (n1, e2)).
  - unfold account, mail, dns_effects. simpl. by destruct (DnsRegistry.added_entries _), (DnsRegistry.removed_names _).
  - rewrite E2, E1. unfold account, mail. cbn [fst snd]. by rewrite He0.
Qed.

Lemma flush_account w v l e :
  launches l = l →
  launches (mail w (foldl (λ e cmd, push_worker_command v cmd e) e l)) =
  launches (mail w e) ++ (if decide (v = w) then l else []).
Proof.
  revert e. induction l as [|c l IH]; intros e Hl; cbn [foldl]; [by case_decide; rewrite app_nil_r|].
  assert (Hc : is_launch c = true).
  { assert (Hin : c ∈ launches (c :: l)) by (rewrite Hl; left). by apply list_elem_of_filter in Hin as [? _]. }
  unfold launches in Hl. rewrite filter_cons_True in Hl by done. injection Hl as Hl.
  rewrite IH, mail_push, launches_app by done. case_decide; [|by rewrite !app_nil_r].
  by rewrite launches_launch, <- (assoc_L (++)).
Qed.

Lemma created_account w v n e s :
  handle_namespace_created v (n, e) = Some s → waiting_ok n →
  account w s = account w (n, e) ∧ waiting_ok s.1.
Proof.
  unfold handle_namespace_created. intros E Hok.
  destruct (pending_workers n !! v) as [i|]; [|by injection E as <-]. cbn zeta in E.
  destruct (mapM _ _) as [eps|]; cbn [mbind option_bind] in E; [|done]. injection E as <-.
  set (e1 := match DnsRegistry.build_sync _ with [] => e | _ => _ end).
  set (e2 := match eps ++ _ with [] => e1 | _ => _ end).
  set (e3 := foldl _ e2 _).
  assert (H1 : launches (mail w e1) = launches (mail w e)).
  { unfold e1. destruct (DnsRegistry.build_sync _); [done|]. by rewrite mail_other. }
  assert (H2 : launches (mail w e2) = launches (mail w e1)).
  { unfold e2. destruct (eps ++ _); [done|]. by rewrite mail_other. }
  assert (H3 : launches (mail w e3) = launches (mail w e2)).
  { unfold e3. generalize e2. generalize (EndpointAdapter.build_wg_peer_sync (endpoint (adapters n))).
    intros l. induction l as [|x l IH]; intros f; [done|]. cbn [foldl]. rewrite IH.
    case_decide; [by rewrite mail_other|done]. }
  split.
  - unfold account. cbn [fst snd]. change (default [] _) with (buffer v n).
    rewrite flush_account by apply Hok. rewrite H3, H2, H1. rewrite <- (assoc_L (++)). f_equal.
    unfold buffer. simpl. case_decide as Hv.
    + subst w. by rewrite lookup_delete_eq, app_nil_r.
    + by rewrite lookup_delete_ne.
  - intros u. unfold buffer. simpl. destruct (decide (u = v)) as [->|Hu].
    + by rewrite lookup_delete_eq.
    + rewrite lookup_delete_ne, lookup_insert_ne by done. apply Hok.
Qed.

(** Messages only ever empty a buffer. *)
Definition emptied n n' : Prop := ∀ w, buffer w n' = buffer w n ∨ buffer w n' = [].
Lemma emptied_same n n' : buffered_worker_commands n' = buffered_worker_commands n → emptied n n'.
Proof. intros E w. left. unfold buffer. by rewrite E. Qed.
Lemma emptied_delete v n n' :
  buffered_worker_commands n' = delete v (buffered_worker_commands n) → emptied n n'.
Proof.
  intros E w. unfold buffer. rewrite E. destruct (decide (w = v)) as [->|].
  - right. by rewrite lookup_delete_eq.
  - left. by rewrite lookup_delete_ne.
Qed.

Lemma apply_grants_buffered v l n :
  buffered_worker_commands (foldl (apply_grant v) n l) = buffered_worker_commands n.
Proof.
  revert n. induction l as [|p l IH]; intros n; [done|]. cbn [foldl]. rewrite IH.
  by destruct (apply_grant_fields v n p) as (_ & _ & _ & -> & _).
Qed.

Lemma push_event_emptied ev n e s : push_event ev (n, e) = Some s → emptied n s.1.
Proof.
  intros E. destruct ev as [w pw info|w|d|port|[w ev]|cmd]; simpl in E; simplify_eq; cbn [fst].
  - apply emptied_same. unfold worker_connected. cbn zeta. by rewrite apply_grants_buffered.
  - apply (emptied_delete w). unfold worker_disconnected. cbn zeta. destruct (_ || _); [|done].
    set (n1 := {| n with active_workers := _; pending_workers := _; deferred_grants := _;
                         buffered_worker_commands := _ |}).
    destruct (forget_worker_pods_fields w n1) as (_ & _ & _ & Eb & _). simpl.
    destruct (is_some (active_workers n !! w)); [|done]. destruct (EndpointDemand.remove_worker w _). done.
  - apply emptied_same. destruct d as [ns p w|ns p w]; simpl.
    + destruct (_ || _); [|done]. apply (apply_grants_buffered w [p]).
    + destruct (leases n !! p); unfold remove_pod_from_worker; simpl;
        destruct (pod_worker n !! p) as [w'|]; try done; simpl; by destruct (worker_pod_edges n !! w').
  - by apply emptied_same.
  - destruct s as [n' e']. unfold handle_worker_event in E. cbn [fst].
    destruct ev; cbv beta iota in E; cbn [fst snd] in *;
      try (destruct (is_some (active_workers n !! w)); [|by simplify_eq; apply emptied_same];
           apply emptied_same).
    all: try (simpl in E; simplify_eq; unfold notify_status; by destruct (get_pod _ _)).
    all: try (simpl in E; by simplify_eq).
    + simpl in E. destruct (get_pod (router n) pod_id); [|by simplify_eq].
      destruct (Scheduler.parse_u64 _); simpl in E; by simplify_eq.
    + simpl in E. destruct (find_map _ _); [|by simplify_eq].
      destruct (let '(port_id, ports, r) := _ in _) in E. by simplify_eq.
    + apply handle_namespace_created_spec in E as [(-> & _ & _)|(i & _ & _ & _ & Eb & _)];
        [by apply emptied_same|by apply (emptied_delete w)].
    + simplify_eq. apply (emptied_delete w). unfold namespace_failed. cbn zeta. simpl.
      unfold forget_worker_pods. simpl. by destruct (worker_pod_edges n !! w).
  - apply emptied_same. destruct cmd; simpl; try done.
    + unfold handle_wg_connect, Wg.connect. destruct (Wg.peers _ !! _); simpl; [done|].
      destruct (_ <? 2); simpl; [done|]. by destruct (create_wire_guard_peer _).
    + unfold handle_wg_disconnect, Wg.disconnect. destruct (Wg.peers _ !! _); simpl; [|done].
      by destruct (wg_peer_ports n !! _).
Qed.

Definition only_launches n : Prop := ∀ w, launches (buffer w n) = buffer w n.
Lemma emptied_launches n n' : emptied n n' → only_launches n → only_launches n'.
Proof. intros He Hn w. destruct (He w) as [->| ->]; [apply Hn|done]. Qed.

Lemma inv_waiting n : inv n → only_launches n → waiting_ok n.
Proof.
  intros Hi Hl w. split; [apply Hl|]. intros Ha. unfold buffer.
  destruct (buffered_worker_commands n !! w) eqn:E; [|done].
  rewrite (i_buffered _ Hi w) in Ha by eauto. by destruct Ha.
Qed.

Lemma run_cycle_launches fuel (s s' : Namespace R * NamespaceEffects) :
  run_cycle fuel s = Done s' → waiting_ok s.1 → only_launches s'.1.
Proof.
  unfold run_cycle. destruct (cycle_loop fuel _) as [t| |] eqn:E; cbn [run_bind]; [|done|done].
  intros [= <-] Hok.
  assert (Hl : ∀ fuel (s s' : Namespace R * NamespaceEffects),
    cycle_loop fuel s = Done s' → waiting_ok s.1 → waiting_ok s'.1).
  { clear. induction fuel as [|fuel IH]; intros [n e] s' E Hok; cbn [cycle_loop fst snd] in *; [done|].
    destruct (reconcile_fields n) as [Hc Hb]. destruct (reconcile n) as [[acts mutated] n1].
    cbn [fst snd] in *. unfold core in Hc. injection Hc as _ _ _ _ _ _ _ _ _ Ha _.
    destruct (collect_effects acts (n1, e)) as [s1|] eqn:Ec; cbn [of_option run_bind] in E; [|done].
    destruct (collect_account 0 _ _ _ _ Ec) as [_ Hs1].
    { intros w. unfold buffer. rewrite Hb, Ha. apply Hok. }
    destruct mutated; [|by simplify_eq]. by eapply IH. }
  apply Hl in E; [|done]. destruct t as [n e]. unfold finish_cycle.
  destruct (Artifact.finalize _) as [? [? r]]. intros w. apply E.
Qed.

Lemma step_launches strict n n' : step strict n n' → good False n → only_launches n → only_launches n'.
Proof.
  intros Hs Hg Hl. pose proof (inv_waiting _ (g_inv _ _ Hg) Hl) as Hw.
  destruct Hs as [fuel ev s Ha E|fuel i s E|fuel i s alloc E Hr|fuel i er n' E Hst
    |fuel i s alloc E Hr|fuel i er n' E Hst].
  - unfold process_event in E. destruct (push_event _ _) as [[n1 e1]|] eqn:Ep; cbn [of_option run_bind] in E; [|done].
    apply (run_cycle_launches _ _ _ E). apply inv_waiting.
    + eapply push_event_inv; [exact Ep|done|apply Hg].
    + eapply emptied_launches; [by eapply push_event_emptied|done].
  - by eapply (run_cycle_launches _ _ _ E).
  - unfold apply_full_spec in E. destruct (resolve_spec_input _ _) as [[spec|er] a]; [|done].
    unfold install_spec in E. destruct (apply_namespace_spec _ _ _); cbn [of_option run_bind] in E; [|done].
    destruct (run_cycle _ _) eqn:Er; cbn [run_bind] in E; [|done|done]. simplify_eq.
    by eapply (run_cycle_launches _ _ _ Er).
  - unfold apply_full_spec in E. destruct (resolve_spec_input _ _) as [[spec|er'] a];
      [by destruct (install_spec _ _ _) as [[]| |]|]. by simplify_eq.
  - unfold apply_patch in E. destruct (current_spec n); [|done]. cbn zeta in E.
    destruct (resolve_patch_input _ _) as [[spec|er] a]; [|done].
    unfold install_spec in E. destruct (apply_namespace_spec _ _ _); cbn [of_option run_bind] in E; [|done].
    destruct (run_cycle _ _) eqn:Er; cbn [run_bind] in E; [|done|done]. simplify_eq.
    by eapply (run_cycle_launches _ _ _ Er).
  - unfold apply_patch in E. destruct (current_spec n); [|by simplify_eq]. cbn zeta in E.
    destruct (resolve_patch_input _ _) as [[spec|er'] a];
      [by destruct (install_spec _ _ _) as [[]| |]|]. by simplify_eq.
Qed.

Lemma reach_waiting n : reach False n → waiting_ok n.
Proof.
  intros Hr. apply inv_waiting; [apply (reach_good False), Hr|].
  destruct Hr as (ns & net & Hnet & Hs).
  assert (Hg : good False (new ns net IdRegistry.new) ∧ only_launches (new ns net IdRegistry.new)).
  { split; [|by intros w]. apply reach_good. exists ns, net. by split; [|apply rtc_refl]. }
  revert Hg. generalize dependent (new ns net IdRegistry.new). intros n0 Hs.
  induction Hs as [x|x y z Hxy Hyz IH]; intros [Hg Hl]; [done|]. apply IH.
  split; [by eapply step_good|by eapply step_launches].
Qed.

End Launches.
End Launches.

(** ** Panics *)
Module Panics.
Import Management Namespace.
Section Panics.
Context `{RouterOps R} `{!HashIter Z} `{!HashIter (Z * Z)} `{!HashIter string}.
Implicit Types n : Namespace R.

(** An entry of the fabric as some endpoint machine published it. *)
Definition published (info : EndpointSm.EndpointInfo) : Prop :=
  ∃ sm, EndpointSm.endpoint_info sm = Some info.

Lemma published_spec info : published info → is_Some (build_endpoint_spec_from_info info).
Proof.
  intros [sm E]. unfold EndpointSm.endpoint_info in E. unfold build_endpoint_spec_from_info.
  destruct (EndpointSm.state sm), (EndpointSm.kind sm) as [[]|]; simplify_eq; simpl; eauto;
    destruct (EndpointSm.has_activation sm); simplify_eq; simpl; eauto.
Qed.

(** The worker whose pool an action needs. *)
Definition needs_pool (a : PodAssignment.PodAssignmentAction) : option WorkerId :=
  match a with
  | PodAssignment.Resume w _ _ _ | PodAssignment.Suspend w _ => Some w
  | _ => None
  end.

Lemma pod_action_panics n e a :
  pod_action (n, e) a = None ↔ ∃ w, needs_pool a = Some w ∧ worker_pool n w = None.
Proof.
  destruct a; simpl; [naive_solver| |naive_solver|]; unfold build_resume_command;
    destruct (worker_pool n worker_id) eqn:E; simpl; naive_solver.
Qed.

Lemma worker_pool_core n n' w : Books.core n' = Books.core n → worker_pool n' w = worker_pool n w.
Proof. unfold Books.core, worker_pool. intros E. by injection E as _ _ _ _ _ _ _ _ _ -> _. Qed.

Lemma pod_actions_panic l n e :
  fold_opt pod_action (n, e) l = None ↔
  ∃ a w, a ∈ l ∧ needs_pool a = Some w ∧ worker_pool n w = None.
Proof.
  revert n e. induction l as [|a l IH]; intros n e; cbn [fold_opt].
  { split; [done|]. by intros (a & w & []%elem_of_nil & _). }
  destruct (pod_action (n, e) a) as [[n1 e1]|] eqn:Ea; cbn [mbind option_bind].
  - assert (Hno : ¬ ∃ w, needs_pool a = Some w ∧ worker_pool n w = None).
    { intros Hp. apply (pod_action_panics n e) in Hp. congruence. }
    apply Books.pod_action_framed in Ea as [Hc _]. rewrite IH.
    setoid_rewrite (λ w, worker_pool_core _ _ w Hc). split.
    + intros (b & w & Hb & ?). exists b, w. split; [by right|done].
    + intros (b & w & [->|Hb]%elem_of_cons & Hp); [|eauto]. destruct Hno. eauto.
  - split; [|done]. intros _. apply pod_action_panics in Ea as (w & Hw & Hp). exists a, w.
    split; [left|done].
Qed.

Lemma endpoint_actions_total n l e :
  (∀ id info, EndpointAdapter.Update id info ∈ l → published info) →
  is_Some (fold_opt (endpoint_action n) e l).
Proof.
  revert e. induction l as [|a l IH]; intros e Hp; cbn [fold_opt]; [eauto|].
  assert (Ha : is_Some (endpoint_action n e a)).
  { unfold endpoint_action. destruct a; simpl; eauto.
    destruct (published_spec info) as [sp ->]; [by eapply Hp; left|]. simpl. eauto. }
  destruct Ha as [e1 ->]. cbn [mbind option_bind]. apply IH. intros id info Hin. eapply Hp. by right.
Qed.

End Panics.
End Panics.

(** ** Loops *)
Module Loops.
Import Management Namespace NamespaceUnit.
Section Loops.
Context `{RouterOps R} `{!HashIter Z} `{!HashIter (Z * Z)} `{!HashIter string}.
Implicit Types n : Namespace R.

(** What one round does to the router: it drains every port, and writes back only for
    the artifact ports that reported something. *)
Definition round_router (r : R) : bool * R :=
  let '(_, r) := drain_timer_inputs r in
  let '(_, r) := drain_schedule_request_inputs r in
  let '(_, r) := drain_worker_inputs r in
  let '(_, r) := drain_fabric_endpoint_inputs r in
  let '(_, r) := drain_dns_registry_inputs r in
  let '(mutated, (_, r)) := Artifact.reconcile (Artifact.new, r) in
  (mutated, (drain_observability_inputs r).2).

(** The router stops reporting artifacts within [k] more propagations. *)
Fixpoint settles (k : nat) (r : R) : bool :=
  let '(mutated, r) := round_router r in
  if mutated then match k with O => false | S k => settles k (propagate r) end else true.

Lemma artifact_reconcile_router a a' (r : R) :
  (Artifact.reconcile (a, r)).1 = (Artifact.reconcile (a', r)).1 ∧
  (Artifact.reconcile (a, r)).2.2 = (Artifact.reconcile (a', r)).2.2.
Proof.
  unfold Artifact.reconcile. destruct (drain_artifact_inputs r) as [l r1].
  assert (Hl : ∀ l a a' r, (foldl Artifact.reconcile1 (a, r) l).2 = (foldl Artifact.reconcile1 (a', r) l).2).
  { clear. induction l as [|[p d] l IH]; intros a a' r; [done|]. cbn [foldl]. destruct d; simpl; apply IH. }
  destruct l as [|i l]; [done|]. split; [done|]. cbn [snd]. apply Hl.
Qed.

Lemma reconcile_router n :
  (reconcile n).1.2 = (round_router (router n)).1 ∧
  router (reconcile n).2 = (round_router (router n)).2.
Proof.
  unfold reconcile, round_router. cbn zeta. destruct (drain_timer_inputs _) as [? r1].
  destruct (drain_schedule_request_inputs r1) as [? r2]. destruct (drain_worker_inputs r2) as [? r3].
  destruct (drain_fabric_endpoint_inputs r3) as [? r4]. destruct (drain_dns_registry_inputs r4) as [? r5].
  destruct (artifact_reconcile_router (artifact (adapters n)) Artifact.new r5) as [E1 E2].
  unfold ScheduleRequest.reconcile, PodAssignment.reconcile, EndpointAdapter.reconcile, DnsRegistry.reconcile.
  destruct (Artifact.reconcile (artifact (adapters n), r5)) as [m1 [a1 r6]].
  destruct (Artifact.reconcile (Artifact.new, r5)) as [m2 [a2 r7]]. cbn [fst snd] in E1, E2. subst.
  by destruct (drain_observability_inputs r7).
Qed.

Lemma collect_router acts (s s' : Namespace R * NamespaceEffects) :
  collect_effects acts s = Some s' → router s'.1 = router s.1.
Proof.
  destruct s as [n e]. unfold collect_effects. cbn zeta.
  destruct (fold_opt pod_action _ _) as [[n1 e1]|] eqn:E; cbn [mbind option_bind]; [|done].
  destruct (fold_opt (endpoint_action n1) _ _); cbn [mbind option_bind]; [|done].
  intros [= <-]. cbn [fst].
  apply (fold_opt_preserve (λ t : Namespace R * NamespaceEffects, router t.1 = router n) _ _ _ _ E); [|done].
  intros [m f] a [m' f'] Et Hm. cbn [fst] in *. rewrite <- Hm. clear -Et.
  destruct a; simpl in Et; [simplify_eq| |by simplify_eq|].
  - by destruct (is_some (active_workers m !! worker_id)); simplify_eq.
  - destruct (build_resume_command _ _ _ _ _); simpl in Et; simplify_eq.
    by destruct (is_some (active_workers m !! worker_id)); simplify_eq.
  - destruct (worker_pool m worker_id); simpl in Et; by simplify_eq.
Qed.

Lemma cycle_loop_S fuel (s : Namespace R * NamespaceEffects) :
  cycle_loop (S fuel) s =
  (let '(actions, mutated, n) := reconcile s.1 in
   s <- of_option (collect_effects actions (n, s.2)) ;;
   if mutated then cycle_loop fuel (on_router propagate s.1, s.2) else Done s)%run.
Proof. done. Qed.

Lemma cycle_loop_settles k fuel (s : Namespace R * NamespaceEffects) :
  settles k (router s.1) = true → (k < fuel)%nat →
  cycle_loop fuel s ≠ OutOfFuel ∧ cycle_loop fuel s = cycle_loop (S k) s.
Proof.
  revert fuel s. induction k as [|k IH]; intros fuel [n e] Hs Hf; (destruct fuel as [|fuel]; [lia|]);
    rewrite (cycle_loop_S fuel), (cycle_loop_S _ (n, e)); cbn [settles fst snd] in Hs |- *;
    destruct (reconcile_router n) as [E1 E2]; destruct (round_router (router n)) as [mut r];
    destruct (reconcile n) as [[acts m] n1]; cbn [fst snd] in E1, E2; subst m.
  - destruct mut; [done|]. by destruct (collect_effects acts (n1, e)).
  - destruct (collect_effects acts (n1, e)) as [s1|] eqn:Ec; cbn [of_option run_bind]; [|done].
    destruct mut; [|done]. apply collect_router in Ec. cbn [fst] in Ec.
    apply (IH fuel (on_router propagate s1.1, s1.2)); [|lia]. simpl. by rewrite Ec, E2.
Qed.


(** *** Timers *)
(** A timer action that starts a timer in the future, on a machine id of type [u64]. *)
Definition future (a : TimerAction) : Prop :=
  match a with Start i _ d => 0 < d ∧ 0 ≤ TimerWheel.id_of i | Cancel _ => True end.
(** Every deadline of the wheel is after [now]. *)
Definition ahead (now : Z) (w : TimerWheel.NamespaceTimerWheel) : Prop :=
  ∀ d i g, TimerWheel.by_deadline w !! (d, i) = Some g → now < d ∧ 0 ≤ TimerWheel.id_of i.
Definition unsigned (w : TimerWheel.NamespaceTimerWheel) : Prop :=
  ∀ d i g, TimerWheel.by_deadline w !! (d, i) = Some g → 0 ≤ TimerWheel.id_of i.

Lemma absorb_ahead now l w :
  Forall future l → ahead now w → ahead now (TimerWheel.absorb l now w).
Proof.
  unfold TimerWheel.absorb. revert w. induction l as [|a l IH]; intros w Hl Hw; [done|].
  apply Forall_cons in Hl as [Ha Hl]. apply IH; [done|]. destruct a as [i g d|i]; unfold ahead; simpl.
  - intros d' i' g' [[Hk <-]|[_ Hd]]%lookup_insert_Some; [simplify_eq; simpl in Ha; lia|].
    destruct (TimerWheel.by_identity w !! i) as [[? od]|]; [apply lookup_delete_Some in Hd as [_ Hd]|]; eauto.
  - destruct (TimerWheel.by_identity w !! i) as [[? od]|]; simpl; [|by apply Hw].
    intros d' i' g' [_ Hd]%lookup_delete_Some. eauto.
Qed.

Lemma fire_ahead now w : unsigned w → ahead now (TimerWheel.fire_expired now w).2.
Proof.
  intros Hu d i g Hd. simpl in Hd. apply map_lookup_filter_Some in Hd as [Hd Hf].
  pose proof (Hu _ _ _ Hd). split; [|done]. simpl in Hf.
  destruct (decide (d ≤ now)) as [Hle|]; [|lia]. exfalso.
  apply not_true_iff_false in Hf. apply Hf. by apply TimerWheel.expired_iff.
Qed.

Lemma ahead_quiet now w : ahead now w → (TimerWheel.fire_expired now w).1 = [].
Proof.
  intros Ha. simpl. assert (E : filter (λ e, TimerWheel.deadline_ltb e.1
    (now + from_nanos 1, TWorkload 0 RetryBackoff) = true) (TimerWheel.by_deadline w) = ∅).
  { apply map_empty. intros [d i]. apply map_lookup_filter_None. right. intros g Hd Ht.
    destruct (Ha _ _ _ Hd) as [Hlt Hid]. apply TimerWheel.expired_iff in Ht; [lia|done]. }
  by rewrite E, map_to_list_empty.
Qed.

(** Timer actions come from the timer port only. *)
Lemma collect_timers acts (s s' : Namespace R * NamespaceEffects) :
  collect_effects acts s = Some s' → timer_actions s'.2 = timer_actions s.2 ++ ra_timer_actions acts.
Proof.
  destruct s as [n e]. unfold collect_effects. cbn zeta. set (e0 := foldl _ _ (ra_schedule_deltas acts)).
  assert (He0 : timer_actions e0 = timer_actions e ++ ra_timer_actions acts).
  { unfold e0. set (e1 := {| e with timer_actions := _ |}).
    change (timer_actions e ++ ra_timer_actions acts) with (timer_actions e1). generalize e1.
    induction (ra_schedule_deltas acts) as [|d l IH]; intros f; [done|]. cbn [foldl]. by rewrite IH. }
  destruct (fold_opt pod_action _ _) as [[n1 e1]|] eqn:E; cbn [mbind option_bind]; [|done].
  assert (He1 : timer_actions e1 = timer_actions e0).
  { apply (fold_opt_preserve (λ t : Namespace R * NamespaceEffects, timer_actions t.2 = timer_actions e0)
      _ _ _ _ E); [|done]. intros [m f] a [m' f'] Et Hm. cbn [snd] in *. rewrite <- Hm. clear -Et.
    destruct a; simpl in Et; [simplify_eq| |by simplify_eq|].
    - by destruct (is_some (active_workers m !! worker_id)); simplify_eq.
    - destruct (build_resume_command _ _ _ _ _); simpl in Et; simplify_eq.
      by destruct (is_some (active_workers m !! worker_id)); simplify_eq.
    - destruct (worker_pool m worker_id); simpl in Et; by simplify_eq. }
  destruct (fold_opt (endpoint_action n1) _ _) as [e2|] eqn:Ee; cbn [mbind option_bind]; [|done].
  assert (He2 : timer_actions e2 = timer_actions e1).
  { apply (fold_opt_preserve (λ f, timer_actions f = timer_actions e1) _ _ _ _ Ee); [|done].
    intros f a f' Ef Hf. rewrite <- Hf. unfold endpoint_action in Ef.
    destruct (build_endpoint_command n1 a); cbn [mbind option_bind] in Ef; [|done]. by destruct a; simplify_eq. }
  intros [= <-]. cbn [snd]. rewrite <- He0, <- He1, <- He2. unfold dns_effects. simpl.
  by destruct (DnsRegistry.added_entries _), (DnsRegistry.removed_names _).
Qed.

Section Timed.
(** The router settles within [k] propagations, and its machines ask for timers of
    positive duration. *)
Context (k : nat) (Hsettles : ∀ r : R, settles k r = true).
Context (Hfuture : ∀ r : R, Forall (λ i, Forall future i.2) (drain_timer_inputs r).1).

Lemma reconcile_future n : Forall future (ra_timer_actions (reconcile n).1.1).
Proof.
  unfold reconcile. cbn zeta. pose proof (Hfuture (router n)) as Hf.
  destruct (drain_timer_inputs _) as [timers r1].
  destruct (drain_schedule_request_inputs r1) as [? r2]. destruct (ScheduleRequest.reconcile _).
  destruct (drain_worker_inputs r2) as [? r3]. destruct (PodAssignment.reconcile _).
  destruct (drain_fabric_endpoint_inputs r3) as [? r4]. destruct (EndpointAdapter.reconcile _ _) as [[? ?] ?].
  destruct (drain_dns_registry_inputs r4) as [? r5]. destruct (DnsRegistry.reconcile _ _) as [[? ?] ?].
  destruct (Artifact.reconcile _) as [? [? r6]]. destruct (drain_observability_inputs r6). simpl.
  unfold reconcile_timers. apply Forall_forall. intros x Hx.
  apply list_elem_of_In, in_flat_map in Hx as (i & Hi & Hx).
  apply list_elem_of_In, list_elem_of_filter in Hi as [_ Hi]. apply list_elem_of_In in Hx.
  rewrite Forall_forall in Hf. specialize (Hf i Hi). rewrite Forall_forall in Hf. auto.
Qed.

Lemma run_cycle_future fuel (s s' : Namespace R * NamespaceEffects) :
  run_cycle fuel s = Done s' → Forall future (timer_actions s.2) → Forall future (timer_actions s'.2).
Proof.
  unfold run_cycle. destruct (cycle_loop fuel _) as [t| |] eqn:E; cbn [run_bind]; [|done|done].
  intros [= <-] Hs.
  assert (Hl : ∀ fuel (s s' : Namespace R * NamespaceEffects), cycle_loop fuel s = Done s' →
    Forall future (timer_actions s.2) → Forall future (timer_actions s'.2)).
  { clear s t E Hs fuel. induction fuel as [|fuel IH]; intros [n e] s' E Hs; [done|].
    rewrite cycle_loop_S in E. cbn [fst snd] in E. pose proof (reconcile_future n) as Hr.
    destruct (reconcile n) as [[acts mutated] n1]. cbn [fst snd] in Hr.
    destruct (collect_effects acts (n1, e)) as [s1|] eqn:Ec; cbn [of_option run_bind] in E; [|done].
    apply collect_timers in Ec. cbn [snd] in Ec, Hs.
    assert (Hs1 : Forall future (timer_actions s1.2)) by (rewrite Ec; by apply Forall_app).
    destruct mutated; [|by simplify_eq]. by eapply IH. }
  apply Hl in E; [|done]. destruct t as [n e]. unfold finish_cycle.
  destruct (Artifact.finalize _) as [acts [? r]]. cbn [snd] in *.
  revert E. generalize e. induction acts as [|x l IH]; intros f Hf; [done|]. by apply IH.
Qed.

Lemma fire_all_ahead fuel now l (s : NamespaceOutput * NamespaceUnit R) :
  (k < fuel)%nat → ahead now (timer_wheel s.2) →
  fire_all fuel now l s ≠ OutOfFuel ∧
  ∀ s', fire_all fuel now l s = Done s' → ahead now (timer_wheel s'.2).
Proof.
  intros Hf. revert s. induction l as [|f l IH]; intros [o u] Ha; cbn [fire_all].
  { split; [done|]. by intros s' [= <-]. }
  destruct (fire_timer fuel (TimerWheel.ft_identity f) (namespace u)) as [t| |] eqn:E; cbn [run_bind];
    [|done|].
  - assert (Ht : Forall future (timer_actions t.2)) by (by eapply run_cycle_future).
    cbn [convert_effects]. apply IH. cbn [snd timer_wheel] in *. by apply absorb_ahead.
  - exfalso. revert E. unfold fire_timer, run_cycle. cbn [fst snd].
    destruct (cycle_loop_settles k fuel (on_router propagate (on_router
      (fire_timer_event (TimerWheel.ft_identity f)) (namespace u)), effects_default)) as [Hn _];
      [apply Hsettles|done|]. by destruct (cycle_loop fuel _).
Qed.

(** Advancing a namespace to a point in time ends after at most two rounds of the
    timer wheel, however many timers are due: the first fires every timer that is due
    and starts only timers that are not.  No timer is due when it returns. *)
Theorem advance_terminates fuel now (u : NamespaceUnit R) :
  (k < fuel)%nat → unsigned (timer_wheel u) →
  advance_to 2 fuel now u ≠ OutOfFuel ∧
  ∀ o u', advance_to 2 fuel now u = Done (o, u') →
    ahead now (timer_wheel u') ∧ (TimerWheel.fire_expired now (timer_wheel u')).1 = [].
Proof.
  intros Hf Hu. unfold advance_to. cbn [advance_loop].
  pose proof (fire_ahead now _ Hu) as Ha. pose proof (ahead_quiet now _ Ha) as Hq.
  destruct (TimerWheel.fire_expired now (timer_wheel u)) as [expired wheel]. cbn [snd] in Ha, Hq.
  destruct expired as [|f l]; [split; [done|]; by intros o u' [= <- <-]|].
  destruct (fire_all_ahead fuel now (f :: l) (ns_output_default, {| u with timer_wheel := wheel |}) Hf Ha)
    as [Hn Hd].
  destruct (fire_all fuel now (f :: l) _) as [[o1 u1]| |]; cbn [run_bind]; [|done|done].
  pose proof (Hd _ eq_refl) as Ha1. cbn [snd] in Ha1.
  assert (Hu1 : unsigned (timer_wheel u1)) by (intros d i g Hg; by apply (Ha1 d i g)).
  pose proof (ahead_quiet now _ Ha1) as Hq1. pose proof (fire_ahead now _ Hu1) as Ha2.
  destruct (TimerWheel.fire_expired now (timer_wheel u1)) as [ex2 w2]. cbn [fst snd] in Hq1, Ha2. subst ex2.
  split; [done|]. intros o u' [= <- <-]. split; [done|]. by apply ahead_quiet.
Qed.
End Timed.
End Loops.
End Loops.
