(* ===== verification/NamespaceDemo.v ===== *)
(** * Concrete namespaces

    A small router that satisfies the interface of [RouterOps]: it hands out ids from
    a counter, knows the pods 1 to 9, tells a worker to launch a pod when the pod is
    assigned to it and to stop it when the assignment ends, and starts a timer again
    when it fires.  The theorems about the adapters and the namespace are applied to
    namespaces over it, and the examples show the behaviours that the findings of the
    development describe. *)

From S2P Require Import Prelude SmTypes IpAlloc Pod Endpoint Workload Timers Protocol.
From S2P Require Import Scheduler CoreTypes Specs Adapters RouterOps Management NamespaceCore.
From S2P Require Import NamespaceInv NamespaceRuns.

Record DemoRouter := {
  d_next : Z;
  d_assigned : gmap Z (list Z);
  d_deltas : list (Z * PodAssignment.PodAssignmentDelta);
  d_fired : list Z;
}.

Definition demo_fresh (r : DemoRouter) : Z * DemoRouter :=
  (d_next r, {| r with d_next := d_next r + 1 |}).
Definition demo_request : PodScheduleRequest :=
  {| psr_resume_artifact := None; psr_suspend := false; psr_spec := None |}.
Definition demo_assign (w : Z) (pods : list Z) (r : DemoRouter) : DemoRouter :=
  let old := default [] (d_assigned r !! w) in
  let started := filter (λ p, p ∉ old) pods in
  let stopped := filter (λ p, p ∉ pods) old in
  {| r with d_assigned := <[w := pods]> (d_assigned r);
            d_deltas := d_deltas r ++ ((λ p, (w, PodAssignment.DLaunch p demo_request None)) <$> started)
                          ++ ((λ p, (w, PodAssignment.DStop p)) <$> stopped) |}.

#[global] Instance demo_router : RouterOps DemoRouter := {|
  new_router := λ _, {| d_next := 1; d_assigned := ∅; d_deltas := []; d_fired := [] |};
  create_timer := λ _ r, r; create_schedule_request := λ _ r, r; create_fabric_endpoint := λ _ r, r;
  create_dns_registry := λ _ r, r; create_observability := λ _ r, r;
  create_management := demo_fresh; destroy_management := λ _ r, r;
  create_workload := λ _ r, r; create_service := λ _ r, r;
  set_workload_config_edges := λ _ _ r, r; set_management_wl_spec := λ _ _ r, r;
  set_service_config_edges := λ _ _ r, r; set_management_svc_spec := λ _ _ r, r;
  router_admin_command := λ _ _ _ r, r; router_activate_service := λ _ _ _ r, r;
  get_workload := λ _ _, None; get_service := λ _ _, None;
  get_pod := λ _ p, if decide (1 ≤ p ≤ 9) then Some PodSm.new else None;
  get_endpoint := λ _ _, None; iter_endpoint := λ _, []; iter_pod := λ _, [];
  signal_workload_status := λ _ _, None; signal_endpoint_status := λ _ _, None;
  signal_endpoint_current_backend_need := λ _ _, None;
  create_endpoint_demand := demo_fresh; set_endpoint_port_demand_edges := λ _ _ r, r;
  set_endpoint_demand_active := λ _ _ r, r; send_endpoint_demand_traffic := λ _ _ r, r;
  destroy_endpoint_demand := λ _ r, r;
  create_artifact := λ _ r, r; destroy_artifact := λ _ r, r;
  set_artifact_validity_edges := λ _ _ r, r; set_artifact_valid := λ _ _ r, r;
  create_worker := λ _ r, r; set_worker_info := λ _ _ r, r;
  destroy_worker := λ w r, {| r with d_assigned := delete w (d_assigned r) |};
  set_worker_assignment_edges := demo_assign;
  create_schedule_lease := demo_fresh; set_schedule_lease_lease := λ _ _ r, r;
  set_pod_lease_edges := λ _ _ r, r; destroy_schedule_lease := λ _ r, r;
  send_notify_pod_status := λ _ _ _ r, r; send_notify_pod_suspended := λ _ _ _ r, r;
  create_wire_guard_peer := demo_fresh; set_wire_guard_peer_endpoint_info := λ _ _ r, r;
  set_wire_guard_peer_endpoints_edges := λ _ _ r, r; destroy_wire_guard_peer := λ _ r, r;
  send_workload_timer_fired := λ _ _ _ r, r; send_endpoint_timer_fired := λ _ _ _ r, r;
  send_pod_timer_fired := λ _ p _ r, {| r with d_fired := d_fired r ++ [p] |};
  propagate := λ r, r;
  drain_timer_inputs := λ r,
    ((λ p, (TIMER, [Start (TPod (Z.abs p) LaunchTimeout) 2 5])) <$> d_fired r, {| r with d_fired := [] |});
  drain_schedule_request_inputs := λ r, ([], r);
  drain_worker_inputs := λ r, (d_deltas r, {| r with d_deltas := [] |});
  drain_fabric_endpoint_inputs := λ r, ([], r);
  drain_dns_registry_inputs := λ r, ([], r);
  drain_artifact_inputs := λ r, ([], r);
  drain_observability_inputs := λ r, ([], r);
|}.

(** ** Adapters *)
Definition demo_artifacts : Artifact.ArtifactAdapter :=
  {| Artifact.pending_ports := {[7; 8]}; Artifact.settled := {[8 := ArtifactRef.ActReferenced 8]} |}.

Lemma artifact_ports_settled_witness :
  Artifact.filed demo_artifacts ∧
  NoDup (Artifact.action_port <$> (Artifact.finalize (demo_artifacts, new_router 16)).1).
Proof.
  assert (Hf : Artifact.filed demo_artifacts).
  { intros p act Hl. unfold demo_artifacts in Hl. simpl in Hl. by apply lookup_singleton_Some in Hl as [<- <-]. }
  split; [done|]. exact (proj1 (proj2 (Artifact.artifact_ports_settled demo_artifacts (new_router 16) Hf))).
Defined.

Definition demo_network : NetworkConfig :=
  {| nc_subnet := 2886729728; nc_gateway := 2886729729; nc_prefix_len := 24; nc_segment_id := Some 1 |}.
Definition demo_workload (ip : option Z) : Spec.WorkloadSpecInput :=
  {| Spec.wi_explicit_ip := ip; Spec.wi_containers := []; Spec.wi_suspend_on_idle := false;
     Spec.wi_resources := None; Spec.wi_activation := None; Spec.wi_run_policy := RunService;
     Spec.wi_respects_demand := true; Spec.wi_volumes := []; Spec.wi_labels := ∅ |}.
Definition demo_service (wl : string) : Spec.ServiceSpecInput :=
  {| Spec.si_workload_id := wl; Spec.si_explicit_ip := None; Spec.si_ports := [];
     Spec.si_has_activation := true; Spec.si_idle_timeout := 0; Spec.si_buffer_frames := 0;
     Spec.si_buffer_timeout_ms := 0; Spec.si_labels := ∅ |}.
Definition demo_input (wls : list (string * option Z)) (svcs : list (string * string)) :
    Spec.NamespaceSpecInput :=
  {| Spec.ni_network := demo_network;
     Spec.ni_workloads := list_to_map ((λ x, (x.1, demo_workload x.2)) <$> wls);
     Spec.ni_services := list_to_map ((λ x, (x.1, demo_service x.2)) <$> svcs) |}.
Definition demo_spec (wls : list (string * Z)) : Spec.NamespaceSpec :=
  {| Spec.n_network := demo_network;
     Spec.n_workloads :=
       list_to_map ((λ x, (x.1, Namespace.resolved_workload (demo_workload None) x.2)) <$> wls);
     Spec.n_services := ∅ |}.

Lemma management_mirrors_spec_witness :
  ∃ m' r', Management.apply_namespace_spec None (demo_spec [("a"%string, 1); ("b"%string, 2)])
    (Management.new IdRegistry.new, new_router 16) = Some (m', r') ∧
    Management.mirrors m' (Some (demo_spec [("a"%string, 1); ("b"%string, 2)])).
Proof.
  destruct (Management.management_mirrors_spec None (demo_spec [("a"%string, 1); ("b"%string, 2)])
    (Management.new IdRegistry.new) (new_router 16)) as (m' & r' & E & Hm & _); [|by vm_compute..|].
  - split_and!; try done; split; simpl; try done; try (intros; by rewrite !lookup_empty);
      intros id; rewrite lookup_empty; by intros [].
  - by exists m', r'.
Defined.

(** ** Runs of a namespace *)
Module Demo.
Import Namespace Books Launches.

Abbreviation NS := (Namespace DemoRouter).
Definition ns0 : NamespaceId := {| ns_name := "demo"; ns_id := 1 |}.
Definition start : NS := new ns0 demo_network IdRegistry.new.
(** The namespace after a call that returns. *)
Definition after (m : run (NS * NamespaceEffects)) (d : NS) : NS :=
  match m with Done s => s.1 | _ => d end.
Definition sent (m : run (NS * NamespaceEffects)) (w : Z) : list WorkerCommand :=
  match m with Done s => mail w s.2 | _ => [] end.

Definition joined (w : Z) : OrchestratorToNamespace :=
  ToNs.WorkerConnected w w {| wi_capacity := 4; wi_default_pool := Some "pool"%string |}.
Definition granted (p w : Z) : OrchestratorToNamespace :=
  ToNs.SchedulerDecision (Scheduler.Grant ns0 p w).
Definition revoked (p w : Z) : OrchestratorToNamespace :=
  ToNs.SchedulerDecision (Scheduler.Revoke ns0 p w).
Definition reported (w : Z) (ev : WorkerNamespaceEventKind) : OrchestratorToNamespace :=
  ToNs.WorkerEvent {| wne_worker_id := w; wne_event := ev |}.

Definition n1 : NS := Eval vm_compute in after (process_event 1 (joined 1) start) start.
Definition n2 : NS := Eval vm_compute in after (process_event 1 (granted 5 1) n1) n1.
Definition n3 : NS := Eval vm_compute in after (process_event 1 (reported 1 NsEvent.NamespaceCreated) n2) n2.
Definition spec_ab : Spec.NamespaceSpecInput :=
  demo_input [("a"%string, None); ("b"%string, None)] [("s"%string, "a"%string)].
Definition after_spec (m : run ((NS * NamespaceEffects) * IpAllocResult + ClientError * NS)) (d : NS) : NS :=
  match m with Done (inl (s, _)) => s.1 | Done (inr (_, n)) => n | _ => d end.
Definition spec_result : (NS * NamespaceEffects) * IpAllocResult := Eval vm_compute in
  match apply_full_spec 1 spec_ab n3 with
  | Done (inl r) => r
  | _ => ((n3, effects_default), Ip.full_snapshot (ip_allocator n3))
  end.
Definition n4 : NS := spec_result.1.1.
Definition spec4 : Spec.NamespaceSpec := Eval vm_compute in default (demo_spec []) (current_spec n4).

Lemma demo_net : net_ok demo_network.
Proof. unfold net_ok, Ip.good_subnet; simpl. lia. Qed.

Lemma unknown_start : ¬ known start 1.
Proof. unfold known, start. simpl. rewrite !lookup_empty. by intros [[]|[]]. Qed.

Lemma reach_n2 strict : reach strict n2.
Proof.
  exists ns0, demo_network. split; [apply demo_net|].
  eapply rtc_l; [|eapply rtc_l; [|apply rtc_refl]].
  - apply (step_event _ _ 1 (joined 1) (n1, effects_default)); [apply unknown_start|by vm_compute].
  - apply (step_event _ _ 1 (granted 5 1) (n2, effects_default)); [split; [done|apply not_elem_of_nil]|by vm_compute].
Qed.
Lemma step_n3 strict : step strict n2 n3.
Proof.
  destruct (process_event 1 (reported 1 NsEvent.NamespaceCreated) n2) as [s| |] eqn:E; [|by vm_compute in E..].
  replace n3 with s.1 by (vm_compute in E; by simplify_eq).
  by apply (step_event _ _ 1 (reported 1 NsEvent.NamespaceCreated)).
Qed.

Lemma current_n4 : current_spec n4 = Some spec4.
Proof. by vm_compute. Qed.

Lemma step_n4 strict : step strict n3 n4.
Proof.
  apply (step_spec _ _ 1 spec_ab spec_result.1 spec_result.2); [by vm_compute|].
  intros spec Hs. change (current_spec n4 = Some spec) in Hs. rewrite current_n4 in Hs.
  injection Hs as <-. split; by vm_compute.
Qed.

Lemma reach_n4 strict : reach strict n4.
Proof.
  destruct (reach_n2 strict) as (ns & net & Hnet & Hs). exists ns, net. split; [done|].
  eapply rtc_r; [eapply rtc_r; [exact Hs|apply step_n3]|apply step_n4].
Qed.


(** Two workloads and a service hold three addresses. *)
Lemma spec_addresses_distinct_witness :
  ∃ w s, Spec.n_workloads spec4 !! "a"%string = Some w ∧
    Spec.n_services spec4 !! "s"%string = Some s ∧ pnc_ip (Spec.w_network w) ≠ Spec.s_ip s.
Proof.
  destruct (spec_addresses_distinct n4 spec4 (reach_n4 True) current_n4) as (_ & _ & _ & _ & _ & Hd).
  do 2 eexists. split; [by vm_compute|]. split; [by vm_compute|].
  eapply (Hd "a"%string "s"%string); by vm_compute.
Defined.

Lemma report_follows_spec_witness :
  dom (Status.nr_workloads (status_report n4)) = {["a"; "b"]}%string.
Proof.
  destruct (report_follows_spec n4 (reach_n4 False)) as (_ & _ & _ & _ & Hd & _).
  rewrite Hd. by vm_compute.
Defined.

Lemma grant_and_worker_commute_witness :
  worker_connected 1 {| wi_capacity := 4; wi_default_pool := None |}
    (scheduler_decision (Scheduler.Grant ns0 5 1) start) =
  scheduler_decision (Scheduler.Grant ns0 5 1)
    (worker_connected 1 {| wi_capacity := 4; wi_default_pool := None |} start).
Proof. apply grant_and_worker_commute, unknown_start. Defined.

(** A launch waits for the worker and is sent when it confirms the namespace. *)
Example launch_waits :
  buffer 1 n2 = [Command.LaunchPod ns0 5 default_pod_network [] None []] ∧
  sent (process_event 1 (reported 1 NsEvent.NamespaceCreated) n2) 1 =
    [Command.LaunchPod ns0 5 default_pod_network [] None []] ∧ buffer 1 n3 = [].
Proof. by vm_compute. Qed.


Lemma demo_settles (r : DemoRouter) : Loops.settles 0 r = true.
Proof. done. Qed.
Lemma demo_future (r : DemoRouter) : Forall (λ i, Forall Loops.future i.2) (drain_timer_inputs r).1.
Proof.
  apply Forall_fmap, Forall_forall. intros p _. repeat constructor; simpl; lia.
Qed.


(** A launch timer of pod 5 that is due at 100 is started again for 105. *)
Definition timed : NamespaceUnit.NamespaceUnit DemoRouter :=
  {| NamespaceUnit.namespace := n3;
     NamespaceUnit.timer_wheel :=
       TimerWheel.absorb [Start (TPod 5 LaunchTimeout) 1 7] 90 TimerWheel.new |}.
Definition advanced : NamespaceOutput * NamespaceUnit.NamespaceUnit DemoRouter := Eval vm_compute in
  match NamespaceUnit.advance_to 2 1 100 timed with Done s => s | _ => (ns_output_default, timed) end.
Lemma advance_terminates_witness :
  NamespaceUnit.advance_to 2 1 100 timed = Done (advanced.1, advanced.2) ∧
  NamespaceUnit.next_deadline advanced.2 = Some 105 ∧
  (TimerWheel.fire_expired 100 (NamespaceUnit.timer_wheel advanced.2)).1 = [].
Proof.
  assert (Hu : Loops.unsigned (NamespaceUnit.timer_wheel timed)).
  { intros d i g Hd. simpl in Hd. apply lookup_insert_Some in Hd as [[[= <- <-] _]|[_ Hd]]; [simpl; lia|].
    by vm_compute in Hd; destruct d. }
  assert (E : NamespaceUnit.advance_to 2 1 100 timed = Done (advanced.1, advanced.2)) by by vm_compute.
  split; [exact E|]. split; [by vm_compute|].
  exact (proj2 (proj2 (Loops.advance_terminates 0 demo_settles demo_future 1 100 timed
    ltac:(lia) Hu) _ _ E)).
Defined.

(** ** Behaviours of the code that its comments do not expect *)
(** A stop is sent at once and overtakes a launch that waits: the worker is told to
    stop pod 5, and when it confirms the namespace it is told to launch it. *)
Example stop_overtakes_launch :
  let m := process_event 1 (revoked 5 1) n2 in
  sent m 1 = [Command.StopPod ns0 5 true] ∧
  sent (process_event 1 (reported 1 NsEvent.NamespaceCreated) (after m n2)) 1 =
    [Command.LaunchPod ns0 5 default_pod_network [] None []].
Proof. by vm_compute. Qed.

(** A revoke does not cancel a grant that waits for its worker. *)
Example revoked_grant_is_applied :
  let n := after (process_event 1 (granted 5 1) start) start in
  let n := after (process_event 1 (revoked 5 1) n) n in
  let n := after (process_event 1 (joined 1) n) n in
  pod_worker n !! 5 = Some 1.
Proof. by vm_compute. Qed.

(** A spec that is refused has already given up the addresses of the names it drops:
    the next workload gets the address of a service that is still in the current spec. *)
Example refused_spec_frees_addresses :
  let n := after_spec (apply_full_spec 1 (demo_input [("c"%string, Some 1)] []) n4) n4 in
  let patch := {| Spec.pi_workloads := {["d"%string := demo_workload None]}; Spec.pi_services := ∅;
                  Spec.pi_remove_workloads := []; Spec.pi_remove_services := [] |} in
  let spec := current_spec (after_spec (apply_patch 1 patch n) n) in
  current_spec n = current_spec n4 ∧
  (λ w, pnc_ip (Spec.w_network w)) <$> (spec ≫= λ s, Spec.n_workloads s !! "d"%string) = Some 2886729732 ∧
  Spec.s_ip <$> (spec ≫= λ s, Spec.n_services s !! "s"%string) = Some 2886729732.
Proof. by vm_compute. Qed.

(** A worker whose namespace failed after it had confirmed it loses its port and stays
    active: later grants are applied to a port that no longer exists. *)
Example failed_worker_stays_active :
  let n := after (process_event 1 (reported 1 (NsEvent.NamespaceFailed "fabric")) n3) n3 in
  is_Some (active_workers n !! 1) ∧
  pod_worker (after (process_event 1 (granted 6 1) n) n) !! 6 = Some 1.
Proof. vm_compute. eauto. Qed.
End Demo.
