(* ===== verification/Checksum.v ===== *)
(** * Internet checksums ([crates/worker/src/packet/checksum.rs], [packet/mod.rs])

    Bytes are integers below 256, 16-bit words and 32-bit accumulators are kept at
    their width.  The reference is the one's-complement sum: [sum16] of the data,
    whose residue modulo 65535 the folding loop computes.  Packets are lists of
    bytes indexed by [nat]; every index the source uses is in range behind its
    length checks, so reads are total lookups. *)

From S2P Require Import Prelude.

Module Checksum.

Definition FABRIC_HDR_SZ : nat := 3.
Definition FLAG_NEEDS_CSUM : Z := 1.
Definition IP_PROTO_TCP : Z := 6.
Definition IP_PROTO_UDP : Z := 17.

Definition is_byte (b : Z) : Prop := 0 ≤ b < 256.
Abbreviation bytes := (Forall is_byte).
Definition be16 (hi lo : Z) : Z := hi * 256 + lo.
Definition not16 (w : Z) : Z := 65535 - w.
Definition hi8 (w : Z) : Z := wrap 8 (Z.shiftr w 8).
Definition lo8 (w : Z) : Z := wrap 8 w.

(** [while sum >> 16 != 0 { sum = (sum & 0xFFFF) + (sum >> 16); }] *)
Fixpoint fold_loop (fuel : nat) (sum : Z) : Z :=
  if Z.shiftr sum 16 =? 0 then sum
  else match fuel with
       | O => sum
       | S fuel => fold_loop fuel (Z.land sum 65535 + Z.shiftr sum 16)
       end.
(** Two rounds reach a fixpoint from any [u32]: see [fold_spec]. *)
Definition fold (sum : Z) : Z := fold_loop 2 sum.

(** The accumulation loop, two bytes at a time, with its odd tail. *)
Fixpoint sum_loop (sum : Z) (data : list Z) : Z :=
  match data with
  | a :: b :: rest => sum_loop (u32_add sum (be16 a b)) rest
  | [a] => u32_add sum (Z.shiftl a 8)
  | [] => sum
  end.

Definition internet_checksum (data : list Z) : Z := not16 (fold (sum_loop 0 data)).

Definition incremental_csum_update (old_csum old_word new_word : Z) : Z :=
  not16 (fold (not16 old_csum + not16 old_word + new_word)).

Definition incremental_partial_update (old_partial old_word new_word : Z) : Z :=
  fold (old_partial + not16 old_word + new_word).

(** The checksum field of the transport header. *)
Definition csum_offset_of (protocol : Z) : option nat :=
  if protocol =? IP_PROTO_TCP then Some 16%nat
  else if protocol =? IP_PROTO_UDP then Some 6%nat
  else None.

(** [(frame[ip_start] & 0x0f) as usize * 4] *)
Definition ihl_of (first : Z) : nat := (Z.to_nat (Z.land first 15) * 4)%nat.

Definition complete_checksum (frame : list Z) : list Z :=
  if decide (length frame < FABRIC_HDR_SZ + 20)%nat then frame
  else
    let flags := frame !!! 0%nat in
    if Z.land flags FLAG_NEEDS_CSUM =? 0 then frame
    else
      let ip_start := FABRIC_HDR_SZ in
      let ihl := ihl_of (frame !!! ip_start) in
      match csum_offset_of (frame !!! (ip_start + 9)%nat) with
      | None => frame
      | Some csum_offset =>
          let abs_start := (ip_start + ihl)%nat in
          let abs_csum := (abs_start + csum_offset)%nat in
          if decide (length frame < abs_csum + 2 ∨ length frame < abs_start)%nat then frame
          else
            let checksum := internet_checksum (drop abs_start frame) in
            <[0%nat := Z.land flags (255 - FLAG_NEEDS_CSUM)]>
              (<[(abs_csum + 1)%nat := Z.land checksum 255]>
                (<[abs_csum := wrap 8 (Z.shiftr checksum 8)]> frame))
      end.

(** ** One's-complement sums *)
Fixpoint sum16 (l : list Z) : Z :=
  match l with
  | a :: b :: rest => be16 a b + sum16 rest
  | [a] => a * 256
  | [] => 0
  end.

(** Induction two bytes at a time. *)
Lemma pair_ind (P : list Z → Prop) :
  P [] → (∀ a, P [a]) → (∀ a b l, P l → P (a :: b :: l)) → ∀ l, P l.
Proof.
  intros H0 H1 H2. fix IH 1. intros [|a [|b l]]; [done|apply H1|]. apply H2, IH.
Qed.

Lemma sum16_bounds l : bytes l → 0 ≤ sum16 l ≤ 65535 * zlen l.
Proof.
  induction l as [|a|a b l IH] using pair_ind; intros Hb; [simpl; lia| |].
  - apply Forall_cons in Hb as [Ha _]. unfold is_byte in Ha. simpl. lia.
  - apply Forall_cons in Hb as [Ha [Hb Hl]%Forall_cons]. specialize (IH Hl).
    unfold is_byte in *. cbn [sum16 length]. unfold be16. lia.
Qed.

(** *** Folding *)
Lemma land_ffff s : 0 ≤ s → Z.land s 65535 = s mod 65536.
Proof. intros. change 65535 with (Z.ones 16). rewrite Z.land_ones by lia. done. Qed.

Lemma shiftr_16 s : Z.shiftr s 16 = s / 65536.
Proof. by rewrite Z.shiftr_div_pow2 by lia. Qed.

Lemma fold_step s :
  0 ≤ s → let s' := Z.land s 65535 + Z.shiftr s 16 in
  s' mod 65535 = s mod 65535 ∧ (0 < s → 0 < s') ∧ 0 ≤ s' ≤ 65535 + s / 65536.
Proof.
  intros Hs s'. unfold s'. rewrite land_ffff, shiftr_16 by done.
  pose proof (Z.div_mod s 65536 ltac:(lia)) as E.
  pose proof (Z.mod_pos_bound s 65536 ltac:(lia)).
  assert (0 ≤ s / 65536) by (apply Z.div_pos; lia).
  split_and!; try lia.
  rewrite E at 3. replace (65536 * (s / 65536) + s mod 65536)
    with (s mod 65536 + s / 65536 + (s / 65536) * 65535) by lia.
  by rewrite Z.mod_add by lia.
Qed.

(** The representative of a residue that folding yields: zero only for zero. *)
Definition norm (s : Z) : Z := if s =? 0 then 0 else (s - 1) mod 65535 + 1.

Lemma norm_unique s r :
  0 ≤ s → 0 ≤ r ≤ 65535 → r mod 65535 = s mod 65535 → (0 < s → 0 < r) → (s = 0 → r = 0) → r = norm s.
Proof.
  intros Hs Hr Hm Hp Hz. unfold norm. destruct (Z.eqb_spec s 0) as [->|Hne]; [auto|].
  specialize (Hp ltac:(lia)). rewrite Zminus_mod, <- Hm, <- Zminus_mod.
  rewrite Z.mod_small; lia.
Qed.

Lemma fold_spec s : 0 ≤ s < 2 ^ 32 → fold s = norm s.
Proof.
  intros Hs. unfold fold. cbn [fold_loop]. rewrite shiftr_16.
  destruct (Z.eqb_spec (s / 65536) 0) as [E|E].
  { apply Z.div_small_iff in E; [|lia]. apply norm_unique; lia. }
  assert (s ≠ 0) by by intros ->.
  destruct (fold_step s) as (Hm & Hp & Hb); [lia|].
  assert (s / 65536 < 65536) by (apply Z.div_lt_upper_bound; lia).
  assert (1 ≤ s / 65536) by (assert (0 ≤ s / 65536) by (apply Z.div_pos; lia); lia).
  set (s1 := Z.land s 65535 + s / 65536) in *.
  rewrite shiftr_16 in Hm, Hp, Hb. fold s1 in Hm, Hp, Hb.
  clearbody s1. rewrite !shiftr_16. destruct (Z.eqb_spec (s1 / 65536) 0) as [E1|E1].
  { apply Z.div_small_iff in E1; [|lia]. apply norm_unique; lia. }
  destruct (fold_step s1) as (Hm1 & Hp1 & Hb1); [lia|].
  assert (Hq : s1 / 65536 = 1).
  { assert (s1 / 65536 < 2) by (apply Z.div_lt_upper_bound; lia).
    assert (0 ≤ s1 / 65536) by (apply Z.div_pos; lia). lia. }
  pose proof (Z.div_mod s1 65536 ltac:(lia)) as Hd. rewrite Hq in Hd.
  pose proof (Z.mod_pos_bound s1 65536 ltac:(lia)).
  assert (Hr : Z.land s1 65535 = s1 - 65536) by (rewrite land_ffff; lia).
  rewrite Hq, Hr. assert (E2 : (s1 - 65536 + 1) / 65536 = 0) by (apply Z.div_small; lia).
  rewrite E2. simpl. rewrite shiftr_16, Hq, Hr in Hm1, Hp1.
  apply norm_unique; try lia.
Qed.

Lemma norm_bounds s : 0 ≤ s → 0 ≤ norm s ≤ 65535.
Proof.
  intros. unfold norm. destruct (s =? 0); [lia|]. pose proof (Z.mod_pos_bound (s - 1) 65535). lia.
Qed.

Lemma norm_mod s : 0 ≤ s → norm s mod 65535 = s mod 65535.
Proof.
  intros. unfold norm. destruct (Z.eqb_spec s 0) as [->|]; [done|].
  rewrite Zplus_mod_idemp_l. f_equal. lia.
Qed.

Lemma norm_ffff s : 0 ≤ s → norm s = 65535 ↔ 0 < s ∧ s mod 65535 = 0.
Proof.
  intros Hs. pose proof (norm_mod s Hs) as Hm. pose proof (norm_bounds s Hs) as Hb. split.
  - intros E. rewrite E in Hm. split; [|by rewrite <- Hm].
    unfold norm in E. destruct (Z.eqb_spec s 0); lia.
  - intros [Hp H0]. rewrite H0 in Hm. assert (0 < norm s).
    { unfold norm. destruct (Z.eqb_spec s 0); [lia|]. pose proof (Z.mod_pos_bound (s - 1) 65535). lia. }
    apply Z.mod_divide in Hm as [k Hk]; lia.
Qed.

(** *** The checksum of a list of bytes *)
Lemma sum_loop_spec data sum :
  bytes data → 0 ≤ sum → sum + 65535 * zlen data < 2 ^ 32 → sum_loop sum data = sum + sum16 data.
Proof.
  revert sum. induction data as [|a|a b l IH] using pair_ind; intros sum Hb Hs Hlt; cbn [sum_loop sum16].
  - lia.
  - apply Forall_cons in Hb as [Ha _]. unfold is_byte in Ha. simpl in Hlt.
    rewrite Z.shiftl_mul_pow2 by lia. rewrite u32_add_small; [done|unfold u32_max; lia].
  - apply Forall_cons in Hb as [Ha [Hb Hl]%Forall_cons]. unfold is_byte, be16 in *. cbn [length] in Hlt.
    rewrite u32_add_small by (unfold u32_max; lia). rewrite IH by (done || lia). lia.
Qed.

Definition fits (data : list Z) : Prop := bytes data ∧ zlen data ≤ 65537.

Lemma internet_checksum_spec data :
  fits data → internet_checksum data = 65535 - norm (sum16 data).
Proof.
  intros [Hb Hl]. unfold internet_checksum. pose proof (sum16_bounds data Hb).
  rewrite sum_loop_spec by (done || lia). rewrite Z.add_0_l, fold_spec; [done|lia].
Qed.

(** A receiver accepts data whose sum is a positive multiple of 65535. *)
Lemma checksum_verifies data :
  fits data → internet_checksum data = 0 ↔ 0 < sum16 data ∧ sum16 data mod 65535 = 0.
Proof.
  intros Hf. rewrite internet_checksum_spec by done. pose proof (sum16_bounds data (proj1 Hf)).
  rewrite <- norm_ffff by lia. lia.
Qed.

(** *** Incremental updates *)
Definition is_word (w : Z) : Prop := 0 ≤ w ≤ 65535.

Lemma partial_update_spec p m m' :
  is_word p → is_word m → is_word m' →
  is_word (incremental_partial_update p m m') ∧
  incremental_partial_update p m m' mod 65535 = (p - m + m') mod 65535.
Proof.
  unfold is_word, incremental_partial_update, not16. intros Hp Hm Hm'.
  rewrite fold_spec by lia. split; [apply norm_bounds; lia|]. rewrite norm_mod by lia.
  replace (p + (65535 - m) + m') with (p - m + m' + 1 * 65535) by lia. by rewrite Z.mod_add by lia.
Qed.

Lemma csum_update_spec hc m m' :
  is_word hc → is_word m → is_word m' →
  is_word (incremental_csum_update hc m m') ∧
  incremental_csum_update hc m m' mod 65535 = (hc + m - m') mod 65535.
Proof.
  unfold is_word, incremental_csum_update, not16. intros Hp Hm Hm'.
  set (t := 65535 - hc + (65535 - m) + m'). assert (0 ≤ t < 2 ^ 32) by (unfold t; lia).
  rewrite fold_spec by done. pose proof (norm_bounds t ltac:(lia)). split; [lia|].
  rewrite Zminus_mod, norm_mod, <- Zminus_mod by lia. unfold t.
  replace (65535 - (65535 - hc + (65535 - m) + m')) with (hc + m - m' + (-1) * 65535) by lia.
  by rewrite Z.mod_add by lia.
Qed.

(** *** Overwriting a byte *)
Definition weight (i : nat) : Z := if Nat.even i then 256 else 1.

Lemma sum16_insert l i x :
  (i < length l)%nat → sum16 (<[i := x]> l) = sum16 l + weight i * (x - l !!! i).
Proof.
  revert i. induction l as [|a|a b l IH] using pair_ind; intros i Hi; simpl in Hi; [lia| |].
  - destruct i as [|i]; [|lia]. simpl. unfold weight. simpl. lia.
  - destruct i as [|[|i]]; cbn [insert list_insert sum16]; unfold be16, weight; simpl; try lia.
    rewrite IH by lia. unfold weight. simpl. lia.
Qed.

Lemma bytes_insert l i x : bytes l → is_byte x → bytes (<[i := x]> l).
Proof. intros. by apply Forall_insert. Qed.

Lemma bytes_lookup l i : bytes l → is_byte (l !!! i).
Proof.
  intros Hl. destruct (l !! i) as [x|] eqn:E.
  - rewrite (list_lookup_total_correct _ _ _ E). by eapply Forall_lookup_1.
  - rewrite list_lookup_total_alt, E. simpl. unfold is_byte, inhabitant; simpl. lia.
Qed.

Lemma hi_lo w : is_word w → is_byte (hi8 w) ∧ is_byte (lo8 w) ∧ be16 (hi8 w) (lo8 w) = w.
Proof.
  unfold is_word, is_byte, hi8, lo8, be16. intros Hw. rewrite Z.shiftr_div_pow2 by lia.
  pose proof (wrap_range 8 (w / 2 ^ 8) ltac:(lia)). pose proof (wrap_range 8 w ltac:(lia)).
  split_and!; try lia. rewrite (wrap_small 8 (w / 2 ^ 8)).
  - unfold wrap. change (2 ^ 8) with 256. pose proof (Z.div_mod w 256). lia.
  - split; [apply Z.div_pos; lia|]. apply Z.div_lt_upper_bound; lia.
Qed.

(** *** Overwriting a word *)
Definition word_at (l : list Z) (pos : nat) : Z := be16 (l !!! pos) (l !!! (pos + 1)%nat).
Definition write16 (pos : nat) (w : Z) (l : list Z) : list Z :=
  <[(pos + 1)%nat := lo8 w]> (<[pos := hi8 w]> l).

Lemma word_at_word l pos : bytes l → is_word (word_at l pos).
Proof.
  intros Hl. pose proof (bytes_lookup l pos Hl). pose proof (bytes_lookup l (pos + 1) Hl).
  unfold is_byte, is_word, word_at, be16 in *. lia.
Qed.

Lemma write16_bytes l pos w : bytes l → is_word w → bytes (write16 pos w l).
Proof. intros Hl Hw. destruct (hi_lo w Hw) as (? & ? & _). by repeat apply bytes_insert. Qed.

Lemma write16_length l pos w : length (write16 pos w l) = length l.
Proof. unfold write16. by rewrite !length_insert. Qed.

Lemma sum16_write16 l pos w :
  Nat.even pos = true → (pos + 1 < length l)%nat → is_word w →
  sum16 (write16 pos w l) = sum16 l - word_at l pos + w.
Proof.
  intros He Hp Hw. destruct (hi_lo w Hw) as (_ & _ & E). unfold write16.
  rewrite !sum16_insert by (rewrite ?length_insert; lia).
  rewrite list_lookup_total_insert_ne by lia.
  assert (weight pos = 256) as -> by (unfold weight; by rewrite He).
  assert (weight (pos + 1) = 1) as -> by (unfold weight; by rewrite Nat.even_add, He).
  unfold word_at, be16 in *. lia.
Qed.

Lemma word_at_write16_ne l pos pos' w :
  (pos + 1 < pos' ∨ pos' + 1 < pos)%nat → word_at (write16 pos w l) pos' = word_at l pos'.
Proof. intros Hne. unfold word_at, write16. by rewrite !list_lookup_total_insert_ne by lia. Qed.

(** The incremental update keeps a header valid: when data that a receiver
    accepts has one 16-bit word replaced and its checksum field updated with
    [incremental_csum_update], the receiver accepts the new data (RFC 1624), without
    any other byte being read. *)
Theorem rfc1624_update_valid data c p w :
  fits data → Nat.even c = true → Nat.even p = true → c ≠ p →
  (c + 1 < length data)%nat → (p + 1 < length data)%nat → is_word w →
  internet_checksum data = 0 →
  let data' := write16 c (incremental_csum_update (word_at data c) (word_at data p) w)
                 (write16 p w data) in
  0 < sum16 data' → internet_checksum data' = 0.
Proof.
  intros [Hb Hl] Hc Hp Hne Hcl Hpl Hw Hok data' Hpos.
  assert (Hcw := word_at_word data c Hb). assert (Hpw := word_at_word data p Hb).
  destruct (csum_update_spec _ _ _ Hcw Hpw Hw) as [Huw Hum].
  assert (Hsep : (p + 1 < c ∨ c + 1 < p)%nat).
  { apply Nat.even_spec in Hc as [? ->]. apply Nat.even_spec in Hp as [? ->]. lia. }
  apply checksum_verifies; [split|split; [done|]].
  - by apply write16_bytes, Huw; apply write16_bytes.
  - unfold data'. by rewrite !write16_length.
  - apply checksum_verifies in Hok as [_ Hok]; [|done]. unfold data'.
    rewrite sum16_write16 by (rewrite ?write16_length; done).
    rewrite word_at_write16_ne, sum16_write16 by done.
    rewrite Zplus_mod, Hum, <- Zplus_mod.
    replace (sum16 data - word_at data p + w - word_at data c + (word_at data c + word_at data p - w))
      with (sum16 data) by lia. done.
Qed.

(** ** Completing an offloaded checksum *)
Lemma land_255 w : 0 ≤ w → Z.land w 255 = lo8 w.
Proof. intros. change 255 with (Z.ones 8). by rewrite Z.land_ones by lia. Qed.

(** The position of the transport header and of its checksum field, for a frame
    that carries one. *)
Definition transport_at (frame : list Z) : option (nat * nat) :=
  if decide (length frame < FABRIC_HDR_SZ + 20)%nat then None
  else match csum_offset_of (frame !!! (FABRIC_HDR_SZ + 9)%nat) with
       | None => None
       | Some off =>
           let start := (FABRIC_HDR_SZ + ihl_of (frame !!! FABRIC_HDR_SZ))%nat in
           if decide (length frame < start + off + 2)%nat then None else Some (start, (start + off)%nat)
       end.

Lemma complete_checksum_eq frame start pos :
  bytes frame → zlen frame ≤ 65537 → transport_at frame = Some (start, pos) →
  Z.land (frame !!! 0%nat) FLAG_NEEDS_CSUM ≠ 0 →
  (3 ≤ start)%nat ∧ (start ≤ pos)%nat ∧ (pos + 1 < length frame)%nat ∧ Nat.even (pos - start) = true ∧
  complete_checksum frame =
    <[0%nat := Z.land (frame !!! 0%nat) 254]>
      (write16 pos (internet_checksum (drop start frame)) frame).
Proof.
  unfold transport_at, complete_checksum. intros Hb Hl Ht Hf. case_decide; [done|].
  destruct (Z.eqb_spec (Z.land (frame !!! 0%nat) FLAG_NEEDS_CSUM) 0); [done|].
  assert (Hoff : ∀ off, csum_offset_of (frame !!! (FABRIC_HDR_SZ + 9)%nat) = Some off → Nat.even off = true).
  { unfold csum_offset_of. intros off. destruct (_ =? _); [by intros [= <-]|].
    destruct (_ =? _); [by intros [= <-]|done]. }
  destruct (csum_offset_of _) as [off|] eqn:E; [|done]. specialize (Hoff _ eq_refl).
  case_decide as Hd; [done|]. injection Ht as <- <-. rewrite decide_False by lia.
  split_and!; [unfold FABRIC_HDR_SZ in *; lia..| |].
  - rewrite <- Hoff. f_equal. lia.
  - unfold write16. rewrite land_255; [done|]. rewrite internet_checksum_spec.
    + pose proof (norm_bounds (sum16 (drop (FABRIC_HDR_SZ + ihl_of (frame !!! FABRIC_HDR_SZ)) frame))) as Hn.
      assert (0 ≤ sum16 (drop (FABRIC_HDR_SZ + ihl_of (frame !!! FABRIC_HDR_SZ)) frame))
        by (apply sum16_bounds; by apply Forall_drop). lia.
    + split; [by apply Forall_drop|]. rewrite length_drop. lia.
Qed.

Lemma drop_write16 n pos w l :
  (n ≤ pos)%nat → drop n (write16 pos w l) = write16 (pos - n) w (drop n l).
Proof.
  intros Hn. unfold write16. rewrite !drop_insert_ge by lia. do 2 f_equal. lia.
Qed.

Lemma word_at_drop n pos l : (n ≤ pos)%nat → word_at (drop n l) (pos - n) = word_at l pos.
Proof.
  intros Hn. unfold word_at. rewrite !list_lookup_total_alt, !lookup_drop.
  by replace (n + (pos - n))%nat with pos by lia;
    replace (n + (pos - n + 1))%nat with (pos + 1)%nat by lia.
Qed.

(** Completing an offloaded checksum is sound: if the checksum field of a frame
    flagged [NEEDS_CSUM] holds the one's-complement partial sum of a pseudo header,
    then afterwards pseudo header and segment together sum to zero as a receiver
    demands, the flag is cleared, and no byte but the flag and the field changed. *)
Theorem complete_checksum_sound frame start pos pseudo :
  bytes frame → zlen frame ≤ 65537 → transport_at frame = Some (start, pos) →
  Z.land (frame !!! 0%nat) FLAG_NEEDS_CSUM ≠ 0 →
  word_at frame pos mod 65535 = pseudo mod 65535 →
  let frame' := complete_checksum frame in
  (pseudo + sum16 (drop start frame')) mod 65535 = 0 ∧
  Z.land (frame' !!! 0%nat) FLAG_NEEDS_CSUM = 0 ∧ length frame' = length frame ∧
  ∀ i, i ≠ 0%nat → i ≠ pos → i ≠ (pos + 1)%nat → frame' !! i = frame !! i.
Proof.
  intros Hb Hl Ht Hf Hp frame'.
  destruct (complete_checksum_eq _ _ _ Hb Hl Ht Hf) as (H3 & Hsp & Hlen & Hev & E).
  assert (Hd : fits (drop start frame)) by (split; [by apply Forall_drop|rewrite length_drop; lia]).
  pose proof (internet_checksum_spec _ Hd) as Hc.
  pose proof (sum16_bounds _ (proj1 Hd)) as Hs0.
  pose proof (norm_bounds _ (proj1 Hs0)) as Hn. pose proof (norm_mod _ (proj1 Hs0)) as Hnm.
  assert (Hw : is_word (internet_checksum (drop start frame))) by (rewrite Hc; unfold is_word; lia).
  unfold frame'. rewrite E. split_and!.
  - rewrite drop_insert_lt by lia. rewrite drop_write16 by done.
    rewrite sum16_write16 by (rewrite ?length_drop; done || lia).
    rewrite word_at_drop by done. rewrite Hc.
    replace (pseudo + (sum16 (drop start frame) - word_at frame pos +
      (65535 - norm (sum16 (drop start frame)))))
      with ((pseudo - word_at frame pos) + (sum16 (drop start frame) - norm (sum16 (drop start frame))) + 1 * 65535) by lia.
    rewrite Z.mod_add by lia. rewrite Zplus_mod, (Zminus_mod pseudo), (Zminus_mod (sum16 _)).
    by rewrite Hp, Hnm, !Z.sub_diag.
  - rewrite list_lookup_total_insert_eq by (rewrite write16_length; lia).
    rewrite <- Z.land_assoc. apply Z.land_0_r.
  - by rewrite length_insert, write16_length.
  - intros i H0 H1 H2. unfold write16. by rewrite !list_lookup_insert_ne by done.
Qed.

(** *** Concrete packets *)
Definition demo_header : list Z :=
  [69; 0; 0; 40; 0; 1; 0; 0; 64; 6; 174; 252; 10; 0; 0; 1; 192; 168; 1; 42].
(** A TCP segment whose checksum field holds the pseudo-header partial sum. *)
Definition demo_partial : list Z :=
  [18; 52; 0; 80; 0; 0; 0; 1; 0; 0; 0; 0; 80; 2; 255; 255; 203; 237; 0; 0].
Definition demo_offloaded : list Z := [1; 0; 7] ++ demo_header ++ demo_partial.

Ltac concrete_bytes := repeat constructor; simpl; lia.

Lemma rfc1624_update_valid_witness :
  internet_checksum (write16 10 (incremental_csum_update (word_at demo_header 10) (word_at demo_header 16) 2560)
    (write16 16 2560 demo_header)) = 0.
Proof.
  refine (rfc1624_update_valid demo_header 10 16 2560 _ _ _ _ _ _ _ _ _);
    [split; [concrete_bytes|simpl; lia]|done|done|lia|simpl; lia|simpl; lia|unfold is_word; lia
    |by vm_compute|by vm_compute].
Defined.

Lemma complete_checksum_sound_witness :
  (52205 + sum16 (drop 23 (complete_checksum demo_offloaded))) mod 65535 = 0.
Proof.
  refine (proj1 (complete_checksum_sound demo_offloaded 23 39 52205 _ _ _ _ _));
    [concrete_bytes|simpl; lia|by vm_compute..].
Defined.

End Checksum.
