(* ===== verification/Frame.v ===== *)
(** * Fabric packets ([crates/worker/src/packet/frame.rs])

    A fabric packet is a 3-byte fabric header followed by an IP packet.  The file
    models the field accessors and the address rewriting of the service data path,
    with its incremental checksum updates in both checksum conventions.  The main
    theorem: rewriting an address keeps the IP header and the transport segment
    valid, and changes nothing but the address and the two checksum fields. *)

From S2P Require Import Prelude SmTypes Checksum.

Module Frame.
Import Checksum.

(** ** Addresses *)
Definition octets (ip : Ipv4Addr) : list Z :=
  [wrap 8 (Z.shiftr ip 24); wrap 8 (Z.shiftr ip 16); wrap 8 (Z.shiftr ip 8); wrap 8 ip].
Definition ipv4_new (a b c d : Z) : Ipv4Addr := a * 2 ^ 24 + b * 2 ^ 16 + c * 2 ^ 8 + d.
Definition ipv4_at (l : list Z) (off : nat) : Ipv4Addr :=
  ipv4_new (l !!! off) (l !!! (off + 1)%nat) (l !!! (off + 2)%nat) (l !!! (off + 3)%nat).

(** ** The fabric packet *)
Record FabricHeader := { flags : Z; segment_id : Z }.

Definition FabricPacket_new (raw : list Z) : option (list Z) :=
  if decide (length raw < FABRIC_HDR_SZ + 20)%nat then None else Some raw.
Definition fabric_header (raw : list Z) : FabricHeader :=
  {| flags := raw !!! 0%nat; segment_id := be16 (raw !!! 1%nat) (raw !!! 2%nat) |}.
Definition ip_packet (raw : list Z) : list Z := drop FABRIC_HDR_SZ raw.
Definition ipv4_dst (raw : list Z) : Ipv4Addr := ipv4_at (drop FABRIC_HDR_SZ raw) 16.
Definition ipv4_src (raw : list Z) : Ipv4Addr := ipv4_at (drop FABRIC_HDR_SZ raw) 12.
Definition ip_protocol (raw : list Z) : Z := raw !!! (FABRIC_HDR_SZ + 9)%nat.
Definition transport_ports (raw : list Z) : option (Z * Z) :=
  let protocol := ip_protocol raw in
  if negb (protocol =? IP_PROTO_TCP) && negb (protocol =? IP_PROTO_UDP) then None
  else
    let transport_start := (FABRIC_HDR_SZ + ihl_of (raw !!! FABRIC_HDR_SZ))%nat in
    if decide (length raw < transport_start + 4)%nat then None
    else Some (be16 (raw !!! transport_start) (raw !!! (transport_start + 1)%nat),
               be16 (raw !!! (transport_start + 2)%nat) (raw !!! (transport_start + 3)%nat)).
Definition tcp_flags (raw : list Z) : option Z :=
  if negb (ip_protocol raw =? IP_PROTO_TCP) then None
  else
    let tcp_start := (FABRIC_HDR_SZ + ihl_of (raw !!! FABRIC_HDR_SZ))%nat in
    if decide (length raw < tcp_start + 14)%nat then None
    else Some (raw !!! (tcp_start + 13)%nat).

(** ** Raw IP packets *)
Definition ip_packet_dst (packet : list Z) : option Ipv4Addr :=
  if decide (length packet < 20)%nat then None else Some (ipv4_at packet 16).
Definition ip_packet_src (packet : list Z) : option Ipv4Addr :=
  if decide (length packet < 20)%nat then None else Some (ipv4_at packet 12).
Definition ip_packet_protocol (packet : list Z) : option Z :=
  if decide (length packet < 20)%nat then None else Some (packet !!! 9%nat).
Definition ip_packet_transport_ports (packet : list Z) : option (Z * Z) :=
  if decide (length packet < 20)%nat then None
  else
    let protocol := packet !!! 9%nat in
    if negb (protocol =? IP_PROTO_TCP) && negb (protocol =? IP_PROTO_UDP) then None
    else
      let transport_start := ihl_of (packet !!! 0%nat) in
      if decide (length packet < transport_start + 4)%nat then None
      else Some (be16 (packet !!! transport_start) (packet !!! (transport_start + 1)%nat),
                 be16 (packet !!! (transport_start + 2)%nat) (packet !!! (transport_start + 3)%nat)).

Definition format_tcp_flags (fl : Z) : string :=
  let part mask name := if Z.land fl mask =? 0 then [] else [name] in
  let parts := part 2 "SYN" ++ part 16 "ACK" ++ part 8 "PSH" ++ part 1 "FIN" ++
               part 4 "RST" ++ part 32 "URG" in
  ("[" +:+ String.concat " " parts +:+ "]")%string.

Definition with_fabric_header (fl segment : Z) (ip : list Z) : list Z :=
  [fl; hi8 segment; lo8 segment] ++ ip.

(** ** Rewriting an address *)
Definition hi_word (o : list Z) : Z := be16 (o !!! 0%nat) (o !!! 1%nat).
Definition lo_word (o : list Z) : Z := be16 (o !!! 2%nat) (o !!! 3%nat).

Definition update_ip_header_csum (ip_start : nat) (old_octets new_octets frame : list Z) : list Z :=
  let csum_off := (ip_start + 10)%nat in
  let old_csum := be16 (frame !!! csum_off) (frame !!! (csum_off + 1)%nat) in
  let csum := incremental_csum_update old_csum (hi_word old_octets) (hi_word new_octets) in
  let csum := incremental_csum_update csum (lo_word old_octets) (lo_word new_octets) in
  write16 csum_off csum frame.

Definition update_transport_csum_for_ip_change (ip_start : nat) (old_octets new_octets frame : list Z) :
    list Z :=
  if decide (length frame < FABRIC_HDR_SZ + 20)%nat then frame
  else
    let fl := frame !!! 0%nat in
    let transport_start := (ip_start + ihl_of (frame !!! ip_start))%nat in
    match csum_offset_of (frame !!! (ip_start + 9)%nat) with
    | None => frame
    | Some csum_offset =>
        let pos := (transport_start + csum_offset)%nat in
        if decide (length frame < pos + 2)%nat then frame
        else
          let old := be16 (frame !!! pos) (frame !!! (pos + 1)%nat) in
          let update := if Z.land fl FLAG_NEEDS_CSUM =? 0 then incremental_csum_update
                        else incremental_partial_update in
          let new := update old (hi_word old_octets) (hi_word new_octets) in
          let new := update new (lo_word old_octets) (lo_word new_octets) in
          write16 pos new frame
    end.

(** [rewrite_ipv4_dst] and [rewrite_ipv4_src] differ in the offset only. *)
Definition rewrite_ipv4 (off : nat) (frame : list Z) (old_ip new_ip : Ipv4Addr) : list Z :=
  let ip_start := FABRIC_HDR_SZ in
  if decide (length frame < ip_start + 20)%nat then frame
  else
    let frame := list_inserts (ip_start + off) (octets new_ip) frame in
    let frame := update_ip_header_csum ip_start (octets old_ip) (octets new_ip) frame in
    update_transport_csum_for_ip_change ip_start (octets old_ip) (octets new_ip) frame.
Definition rewrite_ipv4_dst (frame : list Z) (old_ip new_ip : Ipv4Addr) : list Z :=
  rewrite_ipv4 16 frame old_ip new_ip.
Definition rewrite_ipv4_src (frame : list Z) (old_ip new_ip : Ipv4Addr) : list Z :=
  rewrite_ipv4 12 frame old_ip new_ip.

(** ** Addresses as two words *)
Definition is_ip (ip : Z) : Prop := 0 ≤ ip < 2 ^ 32.

Lemma ip_words ip : is_ip ip → is_word (ip / 65536) ∧ is_word (ip mod 65536).
Proof.
  intros Hip. unfold is_ip in Hip. split.
  - split; [apply Z.div_pos; lia|]. assert (ip / 65536 < 65536) by (apply Z.div_lt_upper_bound; lia). lia.
  - pose proof (Z.mod_pos_bound ip 65536). unfold is_word. lia.
Qed.

Lemma octets_split ip :
  is_ip ip →
  octets ip = [hi8 (ip / 65536); lo8 (ip / 65536); hi8 (ip mod 65536); lo8 (ip mod 65536)].
Proof.
  intros Hip. unfold octets, hi8, lo8, wrap. rewrite !Z.shiftr_div_pow2 by lia.
  change (2 ^ 8) with 256. change (2 ^ 16) with 65536.
  assert (ip / 2 ^ 24 = ip / 65536 / 256) as -> by (rewrite Z.div_div by lia; done).
  assert ((ip / 256) mod 256 = ((ip mod 65536) / 256) mod 256) as ->.
  { rewrite (Z.div_mod ip 65536) at 1 by lia.
    replace (65536 * (ip / 65536) + ip mod 65536)
      with (ip mod 65536 + ((ip / 65536) * 256) * 256) by lia.
    rewrite Z.div_add by lia. by rewrite Z.mod_add by lia. }
  assert (ip mod 256 = (ip mod 65536) mod 256) as ->; [|done].
  symmetry. apply Z.mod_mod_divide. by exists 256.
Qed.

Lemma octets_words ip :
  is_ip ip → hi_word (octets ip) = ip / 65536 ∧ lo_word (octets ip) = ip mod 65536.
Proof.
  intros Hip. destruct (ip_words ip Hip) as [H1 H2]. rewrite octets_split by done.
  unfold hi_word, lo_word; simpl.
  by destruct (hi_lo _ H1) as (_ & _ & ->), (hi_lo _ H2) as (_ & _ & ->).
Qed.

Lemma copy_octets off ip l :
  is_ip ip → list_inserts off (octets ip) l =
  write16 (off + 2) (ip mod 65536) (write16 off (ip / 65536) l).
Proof.
  intros Hip. rewrite octets_split by done. unfold write16. simpl.
  replace (off + 2 + 1)%nat with (S (S (S off))) by lia.
  replace (off + 2)%nat with (S (S off)) by lia. replace (off + 1)%nat with (S off) by lia.
  rewrite (list_insert_insert_ne _ (S off) (S (S off))) by lia.
  rewrite (list_insert_insert_ne _ (S off) (S (S (S off)))) by lia.
  rewrite (list_insert_insert_ne _ off (S (S off))) by lia.
  rewrite (list_insert_insert_ne _ off (S (S (S off)))) by lia.
  rewrite (list_insert_insert_ne _ off (S off)) by lia.
  rewrite (list_insert_insert_ne _ (S (S off)) (S (S (S off)))) by lia.
  done.
Qed.

(** The address read at an offset, as two words. *)
Lemma ipv4_at_words l off :
  bytes l → ipv4_at l off / 65536 = word_at l off ∧ ipv4_at l off mod 65536 = word_at l (off + 2) ∧
            is_ip (ipv4_at l off).
Proof.
  intros Hl. unfold ipv4_at, ipv4_new. pose proof (word_at_word l off Hl) as Hh.
  pose proof (word_at_word l (off + 2) Hl) as Hw.
  replace (_ * 2 ^ 24 + _ * 2 ^ 16 + _ * 2 ^ 8 + _)
    with (word_at l (off + 2) + word_at l off * 65536)
    by (unfold word_at, be16; replace (off + 2 + 1)%nat with (off + 3)%nat by lia; lia).
  unfold is_word, is_ip in *. rewrite Z.div_add, Z.mod_add by lia.
  rewrite Z.div_small, Z.mod_small by lia. lia.
Qed.

Lemma ipv4_at_eq l off ip :
  bytes l → is_ip ip → word_at l off = ip / 65536 → word_at l (off + 2) = ip mod 65536 →
  ipv4_at l off = ip.
Proof.
  intros Hl Hip E1 E2. destruct (ipv4_at_words l off Hl) as (H1 & H2 & _).
  rewrite (Z.div_mod (ipv4_at l off) 65536), (Z.div_mod ip 65536) by lia. congruence.
Qed.

Lemma word_at_write16_eq l pos w :
  (pos + 1 < length l)%nat → is_word w → word_at (write16 pos w l) pos = w.
Proof.
  intros Hp Hw. destruct (hi_lo w Hw) as (_ & _ & E). unfold word_at, write16.
  rewrite list_lookup_total_insert_ne, !list_lookup_total_insert_eq
    by (rewrite ?length_insert; lia). done.
Qed.

(** *** The header as a window of the frame *)
Definition window (n : nat) (frame : list Z) : list Z := take n (drop FABRIC_HDR_SZ frame).

Lemma window_write_in n p w l :
  (p + 1 < n)%nat → window n (write16 (FABRIC_HDR_SZ + p) w l) = write16 p w (window n l).
Proof.
  intros Hp. unfold window. rewrite drop_write16 by lia.
  replace (FABRIC_HDR_SZ + p - FABRIC_HDR_SZ)%nat with p by lia.
  unfold write16. by rewrite !take_insert_lt by lia.
Qed.

Lemma window_write_out n pos w l :
  (FABRIC_HDR_SZ + n ≤ pos)%nat → window n (write16 pos w l) = window n l.
Proof.
  intros Hp. unfold window. rewrite drop_write16 by lia. unfold write16.
  by rewrite !take_insert_ge by lia.
Qed.

Lemma window_word n p l :
  (p + 1 < n)%nat → word_at (window n l) p = word_at l (FABRIC_HDR_SZ + p).
Proof.
  intros Hp. unfold word_at, window. rewrite !list_lookup_total_alt, !lookup_take_lt, !lookup_drop by lia.
  by replace (FABRIC_HDR_SZ + (p + 1))%nat with (FABRIC_HDR_SZ + p + 1)%nat by lia.
Qed.

Lemma window_length n l : (FABRIC_HDR_SZ + n ≤ length l)%nat → length (window n l) = n.
Proof. intros. unfold window. rewrite length_take, length_drop. lia. Qed.

Lemma window_bytes n l : bytes l → bytes (window n l).
Proof. intros. by apply Forall_take, Forall_drop. Qed.

Lemma sum16_head l : bytes l → (0 < length l)%nat → 256 * (l !!! 0%nat) ≤ sum16 l.
Proof.
  intros Hb Hl0. destruct l as [|a [|b l]]; [simpl in Hl0; lia|simpl; lia|]. pose proof (sum16_bounds l) as Hs.
  apply Forall_cons in Hb as [_ [Hb Hl]%Forall_cons]. specialize (Hs Hl).
  unfold is_byte in Hb. simpl. unfold be16. lia.
Qed.

(** ** Rewriting keeps a packet valid *)

(** The frame of a well-formed packet: an IPv4 header of the length it announces,
    with at least its fixed part. *)
Record framed (frame : list Z) (n : nat) : Prop := {
  fr_bytes : bytes frame;
  fr_len : zlen frame ≤ 65537;
  fr_ihl : ihl_of (frame !!! FABRIC_HDR_SZ) = n;
  fr_min : (20 ≤ n)%nat;
  fr_fits : (FABRIC_HDR_SZ + n ≤ length frame)%nat;
}.

(** The frame after the address and the header checksum were written. *)
Definition rewritten (off : nat) (frame : list Z) (old new : Ipv4Addr) : list Z :=
  update_ip_header_csum FABRIC_HDR_SZ (octets old) (octets new)
    (list_inserts (FABRIC_HDR_SZ + off) (octets new) frame).

(** The two updates a checksum field gets, and their effect modulo 65535. *)
Definition csum2 (c old new : Z) : Z :=
  incremental_csum_update (incremental_csum_update c (old / 65536) (new / 65536))
    (old mod 65536) (new mod 65536).
Definition partial2 (c old new : Z) : Z :=
  incremental_partial_update (incremental_partial_update c (old / 65536) (new / 65536))
    (old mod 65536) (new mod 65536).
Definition ip_sum (ip : Z) : Z := ip / 65536 + ip mod 65536.

Lemma csum2_spec c old new :
  is_word c → is_ip old → is_ip new →
  is_word (csum2 c old new) ∧ csum2 c old new mod 65535 = (c + ip_sum old - ip_sum new) mod 65535.
Proof.
  intros Hc [Ho1 Ho2]%ip_words [Hn1 Hn2]%ip_words. unfold csum2.
  destruct (csum_update_spec _ _ _ Hc Ho1 Hn1) as [Hw1 Hm1].
  destruct (csum_update_spec _ _ _ Hw1 Ho2 Hn2) as [Hw2 Hm2]. split; [done|].
  rewrite Hm2. rewrite <- Z.add_sub_assoc, Zplus_mod, Hm1, <- Zplus_mod.
  f_equal. unfold ip_sum. lia.
Qed.

Lemma partial2_spec c old new :
  is_word c → is_ip old → is_ip new →
  is_word (partial2 c old new) ∧ partial2 c old new mod 65535 = (c - ip_sum old + ip_sum new) mod 65535.
Proof.
  intros Hc [Ho1 Ho2]%ip_words [Hn1 Hn2]%ip_words. unfold partial2.
  destruct (partial_update_spec _ _ _ Hc Ho1 Hn1) as [Hw1 Hm1].
  destruct (partial_update_spec _ _ _ Hw1 Ho2 Hn2) as [Hw2 Hm2]. split; [done|].
  rewrite Hm2. replace (incremental_partial_update c (old / 65536) (new / 65536) - old mod 65536 + new mod 65536)
    with (incremental_partial_update c (old / 65536) (new / 65536) + (new mod 65536 - old mod 65536)) by lia.
  rewrite Zplus_mod, Hm1, <- Zplus_mod. f_equal. unfold ip_sum. lia.
Qed.

Lemma rewritten_eq off frame old new :
  is_ip old → is_ip new → off = 12%nat ∨ off = 16%nat → (23 ≤ length frame)%nat →
  rewritten off frame old new =
  write16 13 (csum2 (word_at frame 13) old new)
    (write16 (FABRIC_HDR_SZ + off + 2) (new mod 65536)
      (write16 (FABRIC_HDR_SZ + off) (new / 65536) frame)).
Proof.
  intros Ho Hn Hoff Hlen. unfold rewritten, update_ip_header_csum.
  destruct (octets_words old Ho) as [-> ->]. destruct (octets_words new Hn) as [-> ->].
  rewrite copy_octets by done. cbv zeta. change (FABRIC_HDR_SZ + 10)%nat with 13%nat.
  set (fr := write16 (FABRIC_HDR_SZ + off + 2) _ _).
  assert (word_at fr 13 = word_at frame 13) as <-; [|done].
  unfold fr. rewrite !word_at_write16_ne; [done|..]; unfold FABRIC_HDR_SZ; lia.
Qed.

Lemma rewritten_bytes off frame old new :
  bytes frame → is_ip old → is_ip new → off = 12%nat ∨ off = 16%nat → (23 ≤ length frame)%nat →
  bytes (rewritten off frame old new) ∧ length (rewritten off frame old new) = length frame.
Proof.
  intros Hb Ho Hn Hoff Hlen. rewrite rewritten_eq by done. rewrite !write16_length. split; [|done].
  destruct (ip_words new Hn). destruct (csum2_spec (word_at frame 13) old new) as [? _];
    [by apply word_at_word|done..|]. by repeat apply write16_bytes.
Qed.

(** Bytes other than the header checksum and the address are untouched. *)
Lemma rewritten_other off frame old new i :
  is_ip old → is_ip new → off = 12%nat ∨ off = 16%nat → (23 ≤ length frame)%nat →
  i ≠ 13%nat → i ≠ 14%nat → (i < FABRIC_HDR_SZ + off ∨ FABRIC_HDR_SZ + off + 4 ≤ i)%nat →
  rewritten off frame old new !! i = frame !! i.
Proof.
  intros Ho Hn Hoff Hlen H13 H14 Hi. rewrite rewritten_eq by done. unfold write16.
  by rewrite !list_lookup_insert_ne by lia.
Qed.

Lemma rewritten_header off frame n old new :
  framed frame n → is_ip old → is_ip new → off = 12%nat ∨ off = 16%nat →
  ipv4_at (drop FABRIC_HDR_SZ frame) off = old →
  internet_checksum (window n frame) = 0 →
  internet_checksum (window n (rewritten off frame old new)) = 0.
Proof.
  intros [] Ho Hn Hoff Hat Hok. unfold FABRIC_HDR_SZ in fr_fits0.
  assert (Hlen : (23 ≤ length frame)%nat) by lia.
  destruct (rewritten_bytes off frame old new) as [Hb' Hl']; try done.
  destruct (ip_words new Hn) as [Hn1 Hn2].
  destruct (csum2_spec (word_at frame 13) old new) as [Hcw Hcm]; [by apply word_at_word|done..|].
  assert (Hw : ∀ p, (p + 1 < 20)%nat → word_at (window n frame) p = word_at frame (FABRIC_HDR_SZ + p))
    by (intros p Hp; apply window_word; lia).
  destruct (ipv4_at_words (drop FABRIC_HDR_SZ frame) off (Forall_drop _ _ _ fr_bytes0)) as (E1 & E2 & _).
  rewrite Hat in E1, E2.
  assert (Hd : ∀ p, word_at (drop FABRIC_HDR_SZ frame) p = word_at frame (FABRIC_HDR_SZ + p)).
  { intros p. rewrite <- (word_at_drop FABRIC_HDR_SZ (FABRIC_HDR_SZ + p)) by lia. f_equal. lia. }
  rewrite Hd in E1, E2.
  apply checksum_verifies in Hok as [_ Hok];
    [|split; [by apply window_bytes|rewrite window_length; unfold FABRIC_HDR_SZ; lia]].
  apply checksum_verifies;
    [split; [by apply window_bytes|rewrite window_length; unfold FABRIC_HDR_SZ; lia]|].
  split.
  - assert (H0 : 0 < frame !!! FABRIC_HDR_SZ).
    { unfold ihl_of in fr_ihl0. destruct (decide (frame !!! FABRIC_HDR_SZ = 0)) as [E|].
      - rewrite E in fr_ihl0. simpl in fr_ihl0. lia.
      - pose proof (bytes_lookup frame FABRIC_HDR_SZ fr_bytes0). unfold is_byte in *. lia. }
    assert (Hh := sum16_head (window n (rewritten off frame old new)) (window_bytes _ _ Hb')).
    rewrite window_length in Hh by (unfold FABRIC_HDR_SZ; lia).
    assert (Ew : window n (rewritten off frame old new) !!! 0%nat = frame !!! FABRIC_HDR_SZ).
    { unfold window. rewrite !list_lookup_total_alt, lookup_take_lt, lookup_drop by lia.
      rewrite rewritten_other; try done; unfold FABRIC_HDR_SZ; lia. }
    rewrite Ew in Hh. lia.
  - rewrite rewritten_eq by done. change 13%nat with (FABRIC_HDR_SZ + 10)%nat.
    rewrite <- !Nat.add_assoc, !window_write_in by lia.
    rewrite !sum16_write16; rewrite ?write16_length, ?window_length; try done;
      try (unfold FABRIC_HDR_SZ; lia); try (by destruct Hoff as [-> | ->]).
    rewrite !word_at_write16_ne by lia. rewrite !Hw by lia.
    rewrite <- E1, <- E2.
    change (FABRIC_HDR_SZ + 10)%nat with 13%nat.
    rewrite Zplus_mod, Hcm, <- Zplus_mod. unfold ip_sum.
    replace (_ - word_at frame 13 + _) with (sum16 (window n frame)) by lia. done.
Qed.

(** *** The transport checksum *)
Lemma rewrite_ipv4_eq off frame n old new :
  framed frame n → is_ip old → is_ip new → off = 12%nat ∨ off = 16%nat →
  rewrite_ipv4 off frame old new =
  match transport_at frame with
  | None => rewritten off frame old new
  | Some (start, pos) =>
      write16 pos ((if Z.land (frame !!! 0%nat) FLAG_NEEDS_CSUM =? 0 then csum2 else partial2)
                     (word_at frame pos) old new) (rewritten off frame old new)
  end.
Proof.
  intros [] Ho Hn Hoff. unfold FABRIC_HDR_SZ in fr_fits0.
  assert (Hlen : (23 ≤ length frame)%nat) by lia.
  destruct (rewritten_bytes off frame old new) as [Hb' Hl']; try done.
  assert (Hsame : ∀ i, (i < 13)%nat → rewritten off frame old new !!! i = frame !!! i).
  { intros i Hi. rewrite !list_lookup_total_alt, rewritten_other; try done; unfold FABRIC_HDR_SZ; lia. }
  unfold rewrite_ipv4. rewrite decide_False by (unfold FABRIC_HDR_SZ; lia).
  fold (rewritten off frame old new). cbv zeta.
  unfold update_transport_csum_for_ip_change, transport_at. rewrite Hl'.
  rewrite !decide_False by (unfold FABRIC_HDR_SZ; lia). rewrite !Hsame by (unfold FABRIC_HDR_SZ; lia).
  destruct (csum_offset_of _) as [o|]; [|done]. rewrite fr_ihl0. cbv zeta.
  case_decide; [done|]. destruct (octets_words old Ho) as [-> ->]. destruct (octets_words new Hn) as [-> ->].
  set (pos := (FABRIC_HDR_SZ + n + o)%nat).
  assert (Hw : be16 (rewritten off frame old new !!! pos) (rewritten off frame old new !!! (pos + 1)%nat) =
    word_at frame pos).
  { unfold word_at. rewrite !list_lookup_total_alt, !rewritten_other; try done;
      unfold pos, FABRIC_HDR_SZ; lia. }
  rewrite Hw. by destruct (_ =? 0).
Qed.

Lemma transport_at_bounds frame n start pos :
  framed frame n → transport_at frame = Some (start, pos) →
  start = (FABRIC_HDR_SZ + n)%nat ∧ (start ≤ pos)%nat ∧ (pos + 1 < length frame)%nat ∧
  Nat.even (pos - start) = true.
Proof.
  intros [] Ht. unfold transport_at in Ht. case_decide; [done|].
  assert (Hoff : ∀ o, csum_offset_of (frame !!! (FABRIC_HDR_SZ + 9)%nat) = Some o → Nat.even o = true).
  { unfold csum_offset_of. intros o. destruct (_ =? _); [by intros [= <-]|].
    destruct (_ =? _); [by intros [= <-]|done]. }
  destruct (csum_offset_of _) as [o|] eqn:E; [|done]. specialize (Hoff _ eq_refl).
  rewrite fr_ihl0 in Ht. case_decide as Hd; [done|]. injection Ht as <- <-.
  split_and!; [done|unfold FABRIC_HDR_SZ in *; lia..|]. rewrite <- Hoff. f_equal. lia.
Qed.

(** The sum of the addresses in the pseudo header. *)
Definition addr_sum (frame : list Z) : Z := ip_sum (ipv4_src frame) + ip_sum (ipv4_dst frame).

Lemma ipv4_at_drop f off :
  ipv4_at (drop FABRIC_HDR_SZ f) off =
  ipv4_new (f !!! (FABRIC_HDR_SZ + off)%nat) (f !!! (FABRIC_HDR_SZ + off + 1)%nat)
    (f !!! (FABRIC_HDR_SZ + off + 2)%nat) (f !!! (FABRIC_HDR_SZ + off + 3)%nat).
Proof.
  unfold ipv4_at. rewrite !list_lookup_total_alt, !lookup_drop. by rewrite !Nat.add_assoc.
Qed.

Lemma ipv4_at_same f g off :
  (∀ i, (FABRIC_HDR_SZ + off ≤ i < FABRIC_HDR_SZ + off + 4)%nat → g !! i = f !! i) →
  ipv4_at (drop FABRIC_HDR_SZ g) off = ipv4_at (drop FABRIC_HDR_SZ f) off.
Proof.
  intros He. rewrite !ipv4_at_drop, !list_lookup_total_alt. by rewrite !He by lia.
Qed.

Lemma rewritten_addr off frame n old new :
  framed frame n → is_ip old → is_ip new → off = 12%nat ∨ off = 16%nat →
  ipv4_at (drop FABRIC_HDR_SZ (rewritten off frame old new)) off = new.
Proof.
  intros [] Ho Hn Hoff. unfold FABRIC_HDR_SZ in fr_fits0.
  assert (Hlen : (23 ≤ length frame)%nat) by lia.
  destruct (rewritten_bytes off frame old new) as [Hb' Hl']; try done.
  destruct (ip_words new Hn) as [Hn1 Hn2].
  assert (Hd : ∀ f p, word_at (drop FABRIC_HDR_SZ f) p = word_at f (FABRIC_HDR_SZ + p)).
  { intros f p. rewrite <- (word_at_drop FABRIC_HDR_SZ (FABRIC_HDR_SZ + p)) by lia. f_equal. lia. }
  apply ipv4_at_eq; [by apply Forall_drop|done|..]; rewrite Hd, rewritten_eq by done;
    rewrite word_at_write16_ne by (unfold FABRIC_HDR_SZ; lia).
  - rewrite word_at_write16_ne by lia.
    apply word_at_write16_eq; [unfold FABRIC_HDR_SZ; lia|done].
  - replace (FABRIC_HDR_SZ + (off + 2))%nat with (FABRIC_HDR_SZ + off + 2)%nat by lia.
    apply word_at_write16_eq; [rewrite write16_length; unfold FABRIC_HDR_SZ; lia|done].
Qed.

Lemma rewritten_tail off frame n old new start :
  framed frame n → is_ip old → is_ip new → off = 12%nat ∨ off = 16%nat →
  (FABRIC_HDR_SZ + n ≤ start)%nat → drop start (rewritten off frame old new) = drop start frame.
Proof.
  intros [] Ho Hn Hoff Hs. unfold FABRIC_HDR_SZ in *. apply list_eq. intros i.
  rewrite !lookup_drop. apply rewritten_other; try done; unfold FABRIC_HDR_SZ; lia.
Qed.

Lemma addr_sum_rewritten off frame n old new f' :
  framed frame n → is_ip old → is_ip new → off = 12%nat ∨ off = 16%nat →
  ipv4_at (drop FABRIC_HDR_SZ frame) off = old →
  (∀ i, (i < FABRIC_HDR_SZ + 20)%nat → f' !! i = rewritten off frame old new !! i) →
  addr_sum f' = addr_sum frame - ip_sum old + ip_sum new ∧
  ipv4_at (drop FABRIC_HDR_SZ f') off = new.
Proof.
  intros Hfr Ho Hn Hoff Hat Hf.
  pose proof (rewritten_addr off frame n old new Hfr Ho Hn Hoff) as Hnew.
  destruct Hfr. unfold FABRIC_HDR_SZ in fr_fits0.
  assert (Hsame : ∀ o, o = 12%nat ∨ o = 16%nat →
    ipv4_at (drop FABRIC_HDR_SZ f') o = ipv4_at (drop FABRIC_HDR_SZ (rewritten off frame old new)) o).
  { intros o Hoo. apply ipv4_at_same. intros i Hi. apply Hf. unfold FABRIC_HDR_SZ in *. lia. }
  assert (Hother : ∀ o, o = 12%nat ∨ o = 16%nat → o ≠ off →
    ipv4_at (drop FABRIC_HDR_SZ (rewritten off frame old new)) o = ipv4_at (drop FABRIC_HDR_SZ frame) o).
  { intros o Hoo Hne. apply ipv4_at_same. intros i Hi. unfold FABRIC_HDR_SZ in Hi.
    apply rewritten_other; try done; unfold FABRIC_HDR_SZ; lia. }
  split; [|by rewrite Hsame]. unfold addr_sum, ipv4_src, ipv4_dst. rewrite !Hsame by auto.
  destruct Hoff as [-> | ->]; rewrite Hnew, Hother by auto; rewrite Hat; lia.
Qed.

(** *** What a rewrite does to the fields of a packet *)
Lemma list_inserts_length {A} (k l : list A) i : length (list_inserts i k l) = length l.
Proof. revert i. induction k as [|x k IH]; intros i; [done|]. simpl. by rewrite length_insert. Qed.

Lemma rewrite_ipv4_length off frame old new : length (rewrite_ipv4 off frame old new) = length frame.
Proof.
  unfold rewrite_ipv4. case_decide; [done|]. cbv zeta.
  unfold update_transport_csum_for_ip_change, update_ip_header_csum.
  destruct (csum_offset_of _); repeat case_decide;
    by rewrite ?write16_length, ?list_inserts_length.
Qed.

Lemma framed_at frame n off : framed frame n → is_ip (ipv4_at (drop FABRIC_HDR_SZ frame) off).
Proof. intros []. by apply ipv4_at_words, Forall_drop. Qed.

(** The checksum of the transport lies behind the IP header, and behind the ports. *)
Lemma csum_behind frame n start pos :
  framed frame n → transport_at frame = Some (start, pos) → (FABRIC_HDR_SZ + n + 6 ≤ pos)%nat.
Proof.
  intros Hfr. unfold transport_at. case_decide; [done|]. rewrite (fr_ihl _ _ Hfr).
  destruct (csum_offset_of _) as [o|] eqn:E; [|done]. case_decide; [done|]. intros [= <- <-].
  unfold csum_offset_of in E. repeat (destruct (_ =? _) in E; simplify_eq); unfold FABRIC_HDR_SZ; lia.
Qed.

Lemma write16_other pos v l i : i ≠ pos → i ≠ (pos + 1)%nat → write16 pos v l !! i = l !! i.
Proof. intros. unfold write16. by rewrite !list_lookup_insert_ne. Qed.

Section Rewrite.
Context {off : nat} {frame : list Z} {n : nat} {old new : Ipv4Addr}.
Context (Hfr : framed frame n) (Hoff : off = 12%nat ∨ off = 16%nat).

(** Only the address and the two checksums are written, whatever the addresses are. *)
Lemma rewrite_ipv4_prefix i :
  i ≠ 13%nat → i ≠ 14%nat → (i < FABRIC_HDR_SZ + off ∨ FABRIC_HDR_SZ + off + 4 ≤ i)%nat →
  (i < FABRIC_HDR_SZ + n + 4)%nat → rewrite_ipv4 off frame old new !! i = frame !! i.
Proof.
  intros H13 H14 Hi Hn4. unfold rewrite_ipv4. case_decide; [done|]. cbv zeta.
  set (f2 := update_ip_header_csum _ _ _ _).
  assert (Hsame : ∀ j, j ≠ 13%nat → j ≠ 14%nat →
    (j < FABRIC_HDR_SZ + off ∨ FABRIC_HDR_SZ + off + 4 ≤ j)%nat → f2 !! j = frame !! j).
  { intros j ?? Hj. unfold f2, update_ip_header_csum. rewrite write16_other by (unfold FABRIC_HDR_SZ; lia).
    destruct Hj; [by rewrite list_lookup_inserts_lt|by rewrite list_lookup_inserts_ge]. }
  rewrite <- (Hsame i) by done. unfold update_transport_csum_for_ip_change. cbv zeta.
  assert (Hihl : f2 !!! FABRIC_HDR_SZ = frame !!! FABRIC_HDR_SZ)
    by (rewrite !list_lookup_total_alt, Hsame; [done|unfold FABRIC_HDR_SZ; lia..]).
  case_decide; [done|]. rewrite Hihl, (fr_ihl _ _ Hfr).
  destruct (csum_offset_of _) as [o|] eqn:E; [|done]. case_decide; [done|].
  assert (6 ≤ o)%nat.
  { unfold csum_offset_of in E. repeat (destruct (_ =? _) in E; simplify_eq); lia. }
  apply write16_other; unfold FABRIC_HDR_SZ in *; lia.
Qed.

Lemma rewrite_ipv4_addr :
  is_ip old → is_ip new → ipv4_at (drop FABRIC_HDR_SZ (rewrite_ipv4 off frame old new)) off = new.
Proof.
  intros Ho Hn. etrans; [|by apply (rewritten_addr off frame n old new)]. apply ipv4_at_same. intros i Hi.
  rewrite (rewrite_ipv4_eq off frame n) by done.
  destruct (transport_at frame) as [[start pos]|] eqn:E; [|done]. apply (csum_behind frame n) in E; [|done]. unfold FABRIC_HDR_SZ in *. pose proof (fr_min _ _ Hfr).
  apply write16_other; lia.
Qed.

Lemma rewrite_ipv4_other_addr off' :
  off' = 12%nat ∨ off' = 16%nat → off' ≠ off →
  ipv4_at (drop FABRIC_HDR_SZ (rewrite_ipv4 off frame old new)) off' =
  ipv4_at (drop FABRIC_HDR_SZ frame) off'.
Proof.
  intros Hoff' Hne. apply ipv4_at_same. intros i Hi. pose proof (fr_min _ _ Hfr).
  apply rewrite_ipv4_prefix; unfold FABRIC_HDR_SZ in *; lia.
Qed.

(** A well-formed packet stays one. *)
Lemma rewrite_ipv4_framed : is_ip old → is_ip new → framed (rewrite_ipv4 off frame old new) n.
Proof.
  intros Ho Hn. pose proof (fr_min _ _ Hfr) as Hmin. pose proof (fr_fits _ _ Hfr) as Hfit.
  unfold FABRIC_HDR_SZ in Hfit. split.
  - destruct (rewritten_bytes off frame old new) as [Hb _]; [apply Hfr|done|done|done|lia|].
    rewrite (rewrite_ipv4_eq off frame n) by done. destruct (transport_at frame) as [[start pos]|]; [|done].
    assert (Hw : is_word (word_at frame pos)) by apply word_at_word, Hfr.
    apply write16_bytes; [done|]. by destruct (_ =? 0); [apply csum2_spec|apply partial2_spec].
  - unfold zlen. rewrite rewrite_ipv4_length. apply Hfr.
  - rewrite <- (fr_ihl _ _ Hfr). f_equal. rewrite !list_lookup_total_alt.
    rewrite rewrite_ipv4_prefix; [done|unfold FABRIC_HDR_SZ; lia..].
  - done.
  - rewrite rewrite_ipv4_length. apply Hfr.
Qed.

(** The protocol and the ports are those of the packet. *)
Lemma rewrite_ipv4_transport :
  ip_packet_protocol (ip_packet (rewrite_ipv4 off frame old new)) = ip_packet_protocol (ip_packet frame) ∧
  ip_packet_transport_ports (ip_packet (rewrite_ipv4 off frame old new)) =
  ip_packet_transport_ports (ip_packet frame).
Proof.
  pose proof (fr_min _ _ Hfr) as Hmin.
  assert (Hsame : ∀ i, (i < n + 4)%nat → i ≠ 10%nat → i ≠ 11%nat → (i < off ∨ off + 4 ≤ i)%nat →
    ip_packet (rewrite_ipv4 off frame old new) !!! i = ip_packet frame !!! i).
  { intros i ????. unfold ip_packet. rewrite !list_lookup_total_alt, !lookup_drop.
    rewrite rewrite_ipv4_prefix by (unfold FABRIC_HDR_SZ; lia). done. }
  assert (Hl : length (ip_packet (rewrite_ipv4 off frame old new)) = length (ip_packet frame))
    by (unfold ip_packet; by rewrite !length_drop, rewrite_ipv4_length).
  assert (Hihl : ihl_of (ip_packet frame !!! 0%nat) = n).
  { rewrite <- (fr_ihl _ _ Hfr). unfold ip_packet.
    by rewrite !list_lookup_total_alt, lookup_drop, Nat.add_0_r. }
  unfold ip_packet_protocol, ip_packet_transport_ports. rewrite Hl. split.
  - case_decide; [done|]. by rewrite Hsame by lia.
  - case_decide; [done|]. rewrite !(Hsame 9%nat), !(Hsame 0%nat) by lia. rewrite Hihl.
    destruct (negb _ && _); [done|]. case_decide; [done|]. by rewrite !Hsame by lia.
Qed.
End Rewrite.

(** Rewriting the source or destination address of a packet with a valid IP
    header installs the new address, leaves the header valid and the transport
    segment as valid as it was: a completed checksum stays correct for the new
    pseudo header, an offloaded partial sum becomes that of the new pseudo header.
    No other byte changes. *)
Theorem rewrite_ipv4_valid off frame n old new :
  framed frame n → is_ip new → off = 12%nat ∨ off = 16%nat →
  ipv4_at (drop FABRIC_HDR_SZ frame) off = old →
  internet_checksum (window n frame) = 0 →
  let frame' := rewrite_ipv4 off frame old new in
  ipv4_at (drop FABRIC_HDR_SZ frame') off = new ∧
  internet_checksum (window n frame') = 0 ∧
  (∀ start pos rest, transport_at frame = Some (start, pos) →
     if Z.land (frame !!! 0%nat) FLAG_NEEDS_CSUM =? 0 then
       (addr_sum frame + rest + sum16 (drop start frame)) mod 65535 = 0 →
       (addr_sum frame' + rest + sum16 (drop start frame')) mod 65535 = 0
     else
       word_at frame pos mod 65535 = (addr_sum frame + rest) mod 65535 →
       word_at frame' pos mod 65535 = (addr_sum frame' + rest) mod 65535) ∧
  length frame' = length frame ∧
  (∀ i, i ≠ 13%nat → i ≠ 14%nat →
     (i < FABRIC_HDR_SZ + off ∨ FABRIC_HDR_SZ + off + 4 ≤ i)%nat →
     (∀ start pos, transport_at frame = Some (start, pos) → i ≠ pos ∧ i ≠ (pos + 1)%nat) →
     frame' !! i = frame !! i).
Proof.
  intros Hfr Hn Hoff Hat Hok frame'.
  assert (Ho : is_ip old) by (rewrite <- Hat; apply ipv4_at_words, Forall_drop, Hfr).
  pose proof (rewritten_header off frame n old new Hfr Ho Hn Hoff Hat Hok) as Hhdr.
  assert (Hlen : (23 ≤ length frame)%nat) by (destruct Hfr; unfold FABRIC_HDR_SZ in *; lia).
  destruct (rewritten_bytes off frame old new) as [Hb' Hl']; try done; [apply Hfr|].
  unfold frame'. rewrite (rewrite_ipv4_eq off frame n) by done.
  destruct (transport_at frame) as [[start pos]|] eqn:Et.
  2:{ destruct (addr_sum_rewritten off frame n old new (rewritten off frame old new)) as [_ Ha]; try done.
      split_and!; try done. intros i ????. by apply rewritten_other. }
  destruct (transport_at_bounds frame n start pos Hfr Et) as (-> & Hsp & Hpl & Hev).
  set (v := (if _ =? 0 then csum2 else partial2) (word_at frame pos) old new).
  assert (Hw : is_word (word_at frame pos)) by apply word_at_word, Hfr.
  destruct (csum2_spec _ old new Hw Ho Hn) as [Hc1 Hc2].
  destruct (partial2_spec _ old new Hw Ho Hn) as [Hp1 Hp2].
  assert (Hv : is_word v) by (unfold v; by destruct (_ =? 0)).
  pose proof (fr_min _ _ Hfr) as Hmin.
  destruct (addr_sum_rewritten off frame n old new (write16 pos v (rewritten off frame old new)))
    as [Has Ha]; try done.
  { intros i Hi. unfold write16. rewrite !list_lookup_insert_ne; [done|lia..]. }
  split_and!; [done| | |by rewrite write16_length|].
  - by rewrite window_write_out.
  - intros start' pos' rest E. apply (inj Some), pair_equal_spec in E as [<- <-]. rewrite Has. unfold v. destruct (_ =? 0).
    + intros Hz. rewrite drop_write16 by done. rewrite (rewritten_tail off frame n) by done.
      rewrite sum16_write16 by first [done|rewrite length_drop; lia]. rewrite word_at_drop by done.
      rewrite <- Hz. replace (_ + (_ - word_at frame pos + csum2 _ _ _)) with
        (addr_sum frame - ip_sum old + ip_sum new + rest + sum16 (drop (FABRIC_HDR_SZ + n) frame) -
         word_at frame pos + csum2 (word_at frame pos) old new) by lia.
      rewrite Zplus_mod, Hc2, <- Zplus_mod. f_equal. lia.
    + intros Hz. rewrite word_at_write16_eq by first [done|rewrite Hl'; lia]. rewrite Hp2.
      replace (word_at frame pos - ip_sum old + ip_sum new)
        with (word_at frame pos + (ip_sum new - ip_sum old)) by lia.
      rewrite Zplus_mod, Hz, <- Zplus_mod. f_equal. lia.
  - intros i H1 H2 H3 H4. destruct (H4 _ _ eq_refl). unfold write16.
    rewrite !list_lookup_insert_ne by done. by apply rewritten_other.
Qed.

(** A fabric packet carries its header and payload faithfully: the flags, the
    segment and the IP packet are read back as they were written. *)
Theorem fabric_header_roundtrip fl segment ip :
  is_byte fl → is_word segment →
  let packet := with_fabric_header fl segment ip in
  fabric_header packet = {| flags := fl; segment_id := segment |} ∧ ip_packet packet = ip ∧
  (FabricPacket_new packet = Some packet ↔ (20 ≤ length ip)%nat).
Proof.
  intros Hf Hs packet. destruct (hi_lo segment Hs) as (_ & _ & E). split_and!; [|done|].
  - unfold fabric_header, packet, with_fabric_header; simpl. by rewrite E.
  - unfold FabricPacket_new, packet, with_fabric_header, FABRIC_HDR_SZ. simpl.
    case_decide; split; try done; lia.
Qed.

(** ** Concrete packets *)
Definition demo_frame : list Z := [0; 0; 7] ++ demo_header ++
  [18; 52; 0; 80; 0; 0; 0; 1; 0; 0; 0; 0; 80; 2; 255; 255; 209; 138; 0; 0].

Lemma demo_framed : framed demo_frame 20.
Proof. split; [concrete_bytes|vm_compute; done|by vm_compute|lia|vm_compute; lia]. Qed.

Lemma rewrite_ipv4_valid_witness :
  (addr_sum (rewrite_ipv4_dst demo_frame 3232235818 167772165) + 26 +
   sum16 (drop 23 (rewrite_ipv4_dst demo_frame 3232235818 167772165))) mod 65535 = 0.
Proof.
  refine (proj1 (proj2 (proj2 (rewrite_ipv4_valid 16 demo_frame 20 3232235818 167772165 demo_framed
    _ _ _ _))) 23%nat 39%nat 26 _ _); [unfold is_ip; lia|by right|by vm_compute..].
Defined.

Lemma fabric_header_roundtrip_witness :
  fabric_header (with_fabric_header 1 4660 [69]) = {| flags := 1; segment_id := 4660 |}.
Proof. apply fabric_header_roundtrip; [unfold is_byte|unfold is_word]; lia. Defined.

(** A UDP checksum field of zero says that no checksum was computed; the rewrite
    updates it like any other checksum, so that the packet arrives with a checksum
    that does not match its contents. *)
Definition udp_frame : list Z := [0; 0; 7] ++
  [69; 0; 0; 28; 0; 1; 0; 0; 64; 17; 174; 253; 10; 0; 0; 1; 192; 168; 1; 42] ++
  [18; 52; 0; 53; 0; 8; 0; 0].

Example udp_without_checksum_corrupted :
  let frame' := rewrite_ipv4_dst udp_frame 3232235818 167772165 in
  word_at udp_frame 29 = 0 ∧ word_at frame' 29 ≠ 0 ∧
  (addr_sum frame' + (17 + 8) + sum16 (drop 23 frame')) mod 65535 ≠ 0.
Proof. by vm_compute. Qed.

End Frame.
