(* ===== verification/Flow.v ===== *)
(** * Flow and connection tracking
      ([crates/worker/src/fabric/flow.rs], [fabric/conntrack.rs])

    [FlowTracker] derives the demand of an endpoint from TCP flags; [Conntrack]
    holds the reverse NAT entries of service connections.  Instants are nanoseconds,
    [duration_since] saturates at zero; [Instant::now()] is the argument [now]. *)

From S2P Require Import Prelude SmTypes.

(** The 5-tuple that keys both tables. *)
Record FlowKey := {
  fk_src_ip : Ipv4Addr; fk_dst_ip : Ipv4Addr; fk_protocol : Z; fk_src_port : Z; fk_dst_port : Z }.
#[global] Instance FlowKey_eq : EqDecision FlowKey.
Proof. solve_decision. Defined.
#[global] Instance FlowKey_countable : Countable FlowKey.
Proof.
  refine (inj_countable' (λ k, (fk_src_ip k, fk_dst_ip k, fk_protocol k, fk_src_port k, fk_dst_port k))
    (λ '(a, b, c, d, e), {| fk_src_ip := a; fk_dst_ip := b; fk_protocol := c;
                            fk_src_port := d; fk_dst_port := e |}) _).
  by intros [].
Defined.

Module FlowTracker.

Inductive TcpFlowState := Opening | Established | HalfClosed | Closed.
#[global] Instance TcpFlowState_eq : EqDecision TcpFlowState.
Proof. solve_decision. Defined.
Record FlowState := { last_seen : Z; tcp_state : TcpFlowState }.

Definition OPENING_TIMEOUT : Duration := from_secs 10.
Definition IDLE_TIMEOUT : Duration := from_secs 300.
Definition HALF_CLOSED_TIMEOUT : Duration := from_secs 30.
Definition CLOSED_LINGER : Duration := from_secs 5.

Definition FlowTracker : Type := gmap FlowKey FlowState.
Definition new : gmap FlowKey FlowState := ∅.

Definition flag_set (tcp_flags mask : Z) : bool := negb (Z.land tcp_flags mask =? 0).

(** The next state of a tracked flow. *)
Definition next_state (st : TcpFlowState) (tcp_flags : Z) : TcpFlowState :=
  if flag_set tcp_flags 4 then Closed
  else if flag_set tcp_flags 1 then
    match st with HalfClosed => Closed | _ => HalfClosed end
  else if bool_decide (st = Opening) && flag_set tcp_flags 16 then Established
  else st.

Definition track_packet (now : Z) (key : FlowKey) (tcp_flags : Z) (flows : gmap FlowKey FlowState) :
    gmap FlowKey FlowState :=
  match flows !! key with
  | Some state =>
      <[key := {| last_seen := now; tcp_state := next_state (tcp_state state) tcp_flags |}]> flows
  | None =>
      if flag_set tcp_flags 2 then
        <[key := {| last_seen := now;
                    tcp_state := if flag_set tcp_flags 16 then Established else Opening |}]> flows
      else flows
  end.

Definition counts (s : FlowState) : bool :=
  match tcp_state s with Established | HalfClosed => true | _ => false end.
Definition has_active_flows (flows : gmap FlowKey FlowState) : bool :=
  existsb counts (map_to_list flows).*2.

Definition timeout_of (st : TcpFlowState) : Duration :=
  match st with
  | Opening => OPENING_TIMEOUT
  | Established => IDLE_TIMEOUT
  | HalfClosed => HALF_CLOSED_TIMEOUT
  | Closed => CLOSED_LINGER
  end.
Definition gc (now : Z) (flows : gmap FlowKey FlowState) : gmap FlowKey FlowState :=
  filter (λ e, saturating_sub now (last_seen e.2) < timeout_of (tcp_state e.2)) flows.

(** ** Runs *)
Inductive flow_op := Packet (now : Z) (key : FlowKey) (tcp_flags : Z) | Gc (now : Z).
Definition run_op (flows : gmap FlowKey FlowState) (o : flow_op) : gmap FlowKey FlowState :=
  match o with
  | Packet now key fl => track_packet now key fl flows
  | Gc now => gc now flows
  end.

Lemma active_iff flows :
  has_active_flows flows = true ↔ ∃ k s, flows !! k = Some s ∧ counts s = true.
Proof.
  unfold has_active_flows. rewrite existsb_elem. split.
  - intros (s & ([k s'] & -> & Hin%elem_of_map_to_list)%list_elem_of_fmap & Hc). eauto.
  - intros (k & s & Hk & Hc). exists s. split; [|done]. apply list_elem_of_fmap.
    exists (k, s). split; [done|]. by apply elem_of_map_to_list.
Qed.

(** Every flow satisfies what each packet of its key can establish. *)
Lemma runs_flows (P : FlowKey → FlowState → Prop) (Q : flow_op → Prop) l flows :
  (∀ now k fl s, Q (Packet now k fl) → P k s →
     P k {| last_seen := now; tcp_state := next_state (tcp_state s) fl |}) →
  (∀ now k fl, Q (Packet now k fl) → flag_set fl 2 = true →
     P k {| last_seen := now; tcp_state := if flag_set fl 16 then Established else Opening |}) →
  Forall Q l → map_Forall P flows → map_Forall P (foldl run_op flows l).
Proof.
  intros Hnext Hnew Hl. revert flows. induction Hl as [|o l Ho Hl IH]; intros flows Hf; [done|].
  apply IH. destruct o as [now k fl|now]; simpl.
  - unfold track_packet. destruct (flows !! k) as [s|] eqn:E.
    + apply map_Forall_insert_2; [|done]. by apply Hnext, Hf.
    + destruct (flag_set fl 2) eqn:Es; [|done]. apply map_Forall_insert_2; [|done]. by apply Hnew.
  - intros k s [Hk _]%map_lookup_filter_Some. by apply Hf.
Qed.

(** Connection attempts are no demand: as long as no packet carries ACK or FIN,
    however many SYNs and retransmissions are tracked, no flow counts as active. *)
Theorem attempts_are_no_demand l :
  Forall (λ o, match o with
               | Packet _ _ fl => flag_set fl 16 = false ∧ flag_set fl 1 = false
               | Gc _ => True end) l →
  has_active_flows (foldl run_op new l) = false.
Proof.
  intros Hl. apply not_true_is_false. rewrite active_iff. intros (k & s & Hk & Hc).
  assert (Hf : map_Forall (λ _ s, counts s = false) (foldl run_op new l)).
  { eapply runs_flows; [| |exact Hl|by apply map_Forall_empty].
    - intros now k' fl s' [Ha Hfin] Hs. unfold counts, next_state in *; simpl in *.
      rewrite Ha, Hfin, andb_false_r. by destruct (flag_set fl 4).
    - intros now k' fl [Ha _] _. unfold counts; simpl. by rewrite Ha. }
  rewrite (Hf k s Hk) in Hc. done.
Qed.

(** Demand expires: whatever was tracked up to some instant, a collection five
    minutes later or more leaves no flow at all, hence no demand. *)
Theorem flows_expire l last now :
  Forall (λ o, match o with Packet t _ _ => t ≤ last | Gc _ => True end) l →
  last + IDLE_TIMEOUT ≤ now →
  gc now (foldl run_op new l) = ∅ ∧ has_active_flows (gc now (foldl run_op new l)) = false.
Proof.
  intros Hl Hnow.
  assert (Hf : map_Forall (λ _ s, last_seen s ≤ last) (foldl run_op new l)).
  { eapply runs_flows; [| |exact Hl|by apply map_Forall_empty]; simpl; auto. }
  assert (E : gc now (foldl run_op new l) = ∅).
  { apply map_empty. intros k. apply eq_None_not_Some. intros [s [Hk Ht]%map_lookup_filter_Some].
    pose proof (Hf k s Hk). simpl in *.
    unfold saturating_sub, IDLE_TIMEOUT, from_secs in *.
    destruct s as [t []]; simpl in *; unfold OPENING_TIMEOUT, HALF_CLOSED_TIMEOUT, CLOSED_LINGER,
      IDLE_TIMEOUT, from_secs in Ht; lia. }
  by rewrite E.
Qed.

(** *** Concrete flows *)
Definition demo_key : FlowKey :=
  {| fk_src_ip := 1; fk_dst_ip := 2; fk_protocol := 6; fk_src_port := 1000; fk_dst_port := 80 |}.

Lemma attempts_are_no_demand_witness :
  has_active_flows (foldl run_op new [Packet 0 demo_key 2; Packet 5 demo_key 2; Gc 6]) = false.
Proof. apply attempts_are_no_demand. repeat constructor. Defined.

Lemma flows_expire_witness :
  gc 300000000007 (foldl run_op new [Packet 0 demo_key 2; Packet 7 demo_key 16]) = ∅.
Proof.
  apply (flows_expire _ 7); [repeat constructor; lia|unfold IDLE_TIMEOUT, from_secs; lia].
Defined.

(** A FIN retransmitted while a closed flow lingers reopens it as demand. *)
Example closed_flow_revived :
  let flows := foldl run_op new
    [Packet 0 demo_key 2; Packet 1 demo_key 16; Packet 2 demo_key 17; Packet 3 demo_key 17] in
  (tcp_state <$> flows !! demo_key) = Some Closed ∧ has_active_flows flows = false ∧
  has_active_flows (track_packet 4 demo_key 17 flows) = true.
Proof. by vm_compute. Qed.

End FlowTracker.

(** ** Reverse NAT entries *)
Module Conntrack.

Record ConntrackEntry := { service_ip : Ipv4Addr; backend_ip : Ipv4Addr; last_seen : Z }.
Definition ConntrackTable : Type := gmap FlowKey ConntrackEntry.
Definition new : gmap FlowKey ConntrackEntry := ∅.

Definition insert (key : FlowKey) (entry : ConntrackEntry) (t : gmap FlowKey ConntrackEntry) :
    gmap FlowKey ConntrackEntry := <[key := entry]> t.
Definition lookup (now : Z) (key : FlowKey) (t : gmap FlowKey ConntrackEntry) :
    option ConntrackEntry * gmap FlowKey ConntrackEntry :=
  match t !! key with
  | Some entry =>
      let entry := {| entry with last_seen := now |} in (Some entry, <[key := entry]> t)
  | None => (None, t)
  end.
Definition gc (now max_age : Z) (t : gmap FlowKey ConntrackEntry) : gmap FlowKey ConntrackEntry :=
  filter (λ e, saturating_sub now (last_seen e.2) ≤ max_age) t.

Inductive ct_op := Insert (key : FlowKey) (entry : ConntrackEntry) | Lookup (now : Z) (key : FlowKey)
  | Gc (now max_age : Z).
Definition run_op (t : gmap FlowKey ConntrackEntry) (o : ct_op) : gmap FlowKey ConntrackEntry :=
  match o with
  | Insert key entry => insert key entry t
  | Lookup now key => (lookup now key t).2
  | Gc now max_age => gc now max_age t
  end.

(** The entry of [k], touched last at [t], is used often enough for the collections
    of the run, and is not replaced. *)
Fixpoint in_use (k : FlowKey) (t : Z) (l : list ct_op) : Prop :=
  match l with
  | [] => True
  | Insert k' _ :: l => k' ≠ k ∧ in_use k t l
  | Lookup now k' :: l => in_use k (if decide (k' = k) then now else t) l
  | Gc now max_age :: l => 0 ≤ max_age ∧ now - t ≤ max_age ∧ in_use k t l
  end.

(** Return traffic keeps its translation: an entry that is looked up at least
    once in every [max_age] before a collection survives any number of collections
    and other connections, with the service address it was created with. *)
Theorem conntrack_keepalive k e l t :
  t !! k = Some e → in_use k (last_seen e) l →
  ∃ e', foldl run_op t l !! k = Some e' ∧ service_ip e' = service_ip e ∧
    ∀ now, (lookup now k (foldl run_op t l)).1 =
      Some {| service_ip := service_ip e; backend_ip := backend_ip e; last_seen := now |}.
Proof.
  assert (Hgen : ∀ l t e, t !! k = Some e → in_use k (last_seen e) l →
    ∃ e', foldl run_op t l !! k = Some e' ∧ service_ip e' = service_ip e ∧ backend_ip e' = backend_ip e).
  { clear l t e. intros l. induction l as [|o l IH]; intros t e He Hu; [eauto|].
    cbn [foldl]. destruct o as [k' e'|now k'|now max_age]; simpl in Hu |- *.
    - destruct Hu as [Hne Hu]. eapply IH; [|done]. unfold insert. by rewrite lookup_insert_ne.
    - unfold lookup. destruct (decide (k' = k)) as [->|Hne].
      + rewrite He. simpl. destruct (IH (<[k := {| e with last_seen := now |}]> t)
          {| e with last_seen := now |}) as (e' & H1 & H2 & H3); [apply lookup_insert_eq|done|].
        exists e'. done.
      + destruct (t !! k'); simpl; [|by eapply IH]. eapply IH; [|done]. by rewrite lookup_insert_ne.
    - destruct Hu as (Hpos & Hage & Hu). eapply IH; [|done]. unfold gc.
      apply map_lookup_filter_Some. split; [done|]. simpl. unfold saturating_sub. lia. }
  intros He Hu. destruct (Hgen l t e He Hu) as (e' & H1 & H2 & H3).
  exists e'. split_and!; [done|done|]. intros now. unfold lookup. rewrite H1. simpl. congruence.
Qed.

Lemma conntrack_keepalive_witness :
  ∃ e', foldl run_op (insert FlowTracker.demo_key
      {| service_ip := 9; backend_ip := 2; last_seen := 0 |} new)
    [Lookup 50 FlowTracker.demo_key; Gc 100 60; Lookup 110 FlowTracker.demo_key; Gc 160 60]
    !! FlowTracker.demo_key = Some e' ∧ service_ip e' = 9.
Proof.
  edestruct (conntrack_keepalive FlowTracker.demo_key {| service_ip := 9; backend_ip := 2; last_seen := 0 |}
    [Lookup 50 FlowTracker.demo_key; Gc 100 60; Lookup 110 FlowTracker.demo_key; Gc 160 60]
    (insert FlowTracker.demo_key {| service_ip := 9; backend_ip := 2; last_seen := 0 |} new))
    as (e' & H1 & H2 & _); [by vm_compute|simpl; lia|]. exists e'. exact (conj H1 H2).
Defined.

End Conntrack.
