(* ===== verification/Dns.v ===== *)
(** * Name resolution of the gateway
      ([crates/worker/src/fabric/gateway/dns.rs])

    Queries, responses and names are lists of bytes (a Rust [String] is its UTF-8
    bytes).  The two label loops run on a fuel of the length of the packet; every
    round advances the position by one at least, and [parse_loop_total] and
    [end_loop_total] show that they never run out.  The registry is behind a lock:
    [None] stands for a poisoned one.  The upstream resolver is a parameter, and the
    UDP socket appears as the datagrams it yields and the ones written to it. *)

From S2P Require Import Prelude Bytes SmTypes Checksum Frame.

Module Dns.
Import Bytes Checksum Frame.

(** ** Queries *)
Definition dot : Z := 46.

(** The loop of [parse_qname]; [None] is out of fuel, [Some None] a rejected query. *)
Fixpoint parse_loop (fuel : nat) (query : list Z) (pos : nat) (name : list Z) :
    option (option (list Z)) :=
  match fuel with
  | O => None
  | S fuel =>
      if decide (length query ≤ pos)%nat then Some None
      else
        let label_len := Z.to_nat (query !!! pos) in
        let pos := S pos in
        if decide (label_len = 0)%nat then Some (Some name)
        else if negb (Z.land (Z.of_nat label_len) 192 =? 0) then Some None
        else if decide (length query < pos + label_len)%nat then Some None
        else
          let name := if decide (name = []) then name else name ++ [dot] in
          let label := take label_len (drop pos query) in
          if from_utf8_ok label then
            parse_loop fuel query (pos + label_len) (name ++ to_ascii_lowercase label)
          else Some None
  end.

Definition parse_qname (query : list Z) : option (list Z) :=
  if decide (length query < 13)%nat then None
  else
    name ← default None (parse_loop (length query) query 12 []);
    if decide (name = []) then None else Some name.

Fixpoint end_loop (fuel : nat) (data : list Z) (pos : nat) : option (option nat) :=
  match fuel with
  | O => None
  | S fuel =>
      if decide (length data ≤ pos)%nat then Some None
      else
        let label_len := Z.to_nat (data !!! pos) in
        let pos := S pos in
        if decide (label_len = 0)%nat then Some (Some pos)
        else if negb (Z.land (Z.of_nat label_len) 192 =? 0) then Some None
        else end_loop fuel data (pos + label_len)
  end.
Definition find_qname_end (data : list Z) (start : nat) : option nat :=
  default None (end_loop (S (length data)) data start).

(** ** Responses *)
Definition answer_rr (ip : Ipv4Addr) : list Z :=
  [192; 12; 0; 1; 0; 1; 0; 0; 0; 60; 0; 4] ++ octets ip.

Definition synthesize_a_response (query : list Z) (ip : Ipv4Addr) : list Z :=
  match find_qname_end query 12 with
  | None => []
  | Some qname_end =>
      let question_end := (qname_end + 4)%nat in
      if decide (length query < question_end)%nat then []
      else
        let resp := take question_end query in
        let resp := <[2%nat := Z.lor (resp !!! 2%nat) 132]> resp in
        let resp := <[3%nat := Z.land (resp !!! 3%nat) 0]> resp in
        let resp := <[6%nat := 0]> resp in
        let resp := <[7%nat := 1]> resp in
        let resp := <[8%nat := 0]> resp in
        let resp := <[9%nat := 0]> resp in
        let resp := <[10%nat := 0]> resp in
        let resp := <[11%nat := 0]> resp in
        resp ++ answer_rr ip
  end.

Definition synthesize_nxdomain_response (query : list Z) : list Z :=
  match find_qname_end query 12 with
  | None => []
  | Some qname_end =>
      let question_end := (qname_end + 4)%nat in
      if decide (length query < question_end)%nat then []
      else
        let resp := take question_end query in
        let resp := <[2%nat := Z.lor (resp !!! 2%nat) 132]> resp in
        let resp := <[3%nat := Z.lor (Z.land (resp !!! 3%nat) 240) 3]> resp in
        let resp := <[6%nat := 0]> resp in
        let resp := <[7%nat := 0]> resp in
        let resp := <[8%nat := 0]> resp in
        let resp := <[9%nat := 0]> resp in
        let resp := <[10%nat := 0]> resp in
        <[11%nat := 0]> resp
  end.

(** ** Resolution *)
Definition DnsRegistry : Type := option (gmap (list Z) Ipv4Addr).

(** [format!(".{}.dv.local", namespace_name)] *)
Definition dv_local : list Z := [46; 100; 118; 46; 108; 111; 99; 97; 108].
Definition suffix_of (namespace_name : list Z) : list Z := dot :: namespace_name ++ dv_local.

Definition try_resolve (registry : DnsRegistry) (query namespace_name : list Z) : option (list Z) :=
  name ← parse_qname query;
  m ← registry;
  match m !! name with
  | Some ip => Some (synthesize_a_response query ip)
  | None =>
      bare ← strip_suffix name (suffix_of namespace_name);
      ip ← m !! bare;
      Some (synthesize_a_response query ip)
  end.

(** ** The forwarder *)
Section Forwarder.
Context {IpEndpoint : Type}.

Record DnsLookupResult := {
  lr_query : list Z; lr_endpoint : IpEndpoint; lr_result : option Ipv4Addr }.
Record Lookup := { lk_qname : list Z; lk_query : list Z; lk_endpoint : IpEndpoint }.
Inductive IpAddr := V4 (ip : Ipv4Addr) | V6 (ip : Z).

(** What a call of [process_queries] does: the datagrams written, the lookups
    spawned, and the value returned. *)
Record Outcome := {
  sent : list (list Z * IpEndpoint); spawned : list Lookup; wrote_socket : bool }.

Definition process_query (registry : DnsRegistry) (namespace_name : list Z) (o : Outcome)
    (d : list Z * IpEndpoint) : Outcome :=
  let '(query, endpoint) := d in
  if decide (length query < 2)%nat then o
  else match try_resolve registry query namespace_name with
       | Some response =>
           {| sent := sent o ++ [(response, endpoint)]; spawned := spawned o;
              wrote_socket := true |}
       | None =>
           match parse_qname query with
           | Some qname =>
               {| o with spawned := spawned o ++
                    [{| lk_qname := qname; lk_query := query; lk_endpoint := endpoint |}] |}
           | None => o
           end
       end.

Definition process_queries (registry : DnsRegistry) (namespace_name : list Z)
    (received : list (list Z * IpEndpoint)) : Outcome :=
  foldl (process_query registry namespace_name)
    {| sent := []; spawned := []; wrote_socket := false |} received.

(** The spawned task, given the answer of the upstream resolver. *)
Definition first_v4 (a : IpAddr) : option Ipv4Addr :=
  match a with V4 ip => Some ip | V6 _ => None end.
Definition lookup_task (lookup_ip : list Z → option (list IpAddr)) (l : Lookup) :
    DnsLookupResult :=
  {| lr_query := lk_query l; lr_endpoint := lk_endpoint l;
     lr_result := lookup_ip (lk_qname l) ≫= find_map first_v4 |}.

(** The datagram [write_result] sends, if any. *)
Definition write_result (result : DnsLookupResult) : option (list Z * IpEndpoint) :=
  let response := match lr_result result with
                  | Some ip => synthesize_a_response (lr_query result) ip
                  | None => synthesize_nxdomain_response (lr_query result)
                  end in
  if decide (response = []) then None else Some (response, lr_endpoint result).
End Forwarder.

(** ** The wire format of a name *)
Definition label_ok (l : list Z) : Prop := (1 ≤ length l ≤ 63)%nat ∧ from_utf8_ok l = true.
Definition wire (labels : list (list Z)) : list Z :=
  concat ((λ l, zlen l :: l) <$> labels) ++ [0].
Fixpoint dotted (labels : list (list Z)) : list Z :=
  match labels with
  | [] => []
  | [l] => l
  | l :: labels => l ++ dot :: dotted labels
  end.

(** The name so far, extended by labels, as the loop does it. *)
Definition join (name l : list Z) : list Z := (if decide (name = []) then name else name ++ [dot]) ++ l.

Lemma byte_facts (P : Z → bool) b :
  forallb P (seqZ 0 256) = true → is_byte b → P b = true.
Proof. intros H Hb. rewrite forallb_forall in H. apply H, list_elem_of_In, elem_of_seqZ. unfold is_byte in Hb. lia. Qed.

Lemma mask_label b : is_byte b → (Z.land b 192 =? 0) = (b <? 64).
Proof.
  intros Hb. apply eqb_prop, (byte_facts (λ b, Bool.eqb (Z.land b 192 =? 0) (b <? 64))); [|done].
  by vm_compute.
Qed.

Lemma wire_cons l labels : wire (l :: labels) = zlen l :: l ++ wire labels.
Proof. unfold wire. simpl. by rewrite <-app_assoc. Qed.

Lemma drop_step {A} `{!Inhabited A} (l : list A) pos :
  (pos < length l)%nat → drop pos l = l !!! pos :: drop (S pos) l.
Proof. intros H. apply drop_S, list_lookup_lookup_total_lt, H. Qed.

(** What a loop sees at [pos] when a label or the terminator is there. *)
Lemma wire_head query pos l labels rest :
  label_ok l → drop pos query = wire (l :: labels) ++ rest →
  (pos < length query)%nat ∧ query !!! pos = zlen l ∧ (S pos + length l ≤ length query)%nat ∧
  take (length l) (drop (S pos) query) = l ∧
  drop (S pos + length l) query = wire labels ++ rest.
Proof.
  rewrite wire_cons. simpl. intros [[Hl Hl'] _] E.
  assert (Hpos : (pos < length query)%nat).
  { apply (f_equal length) in E. rewrite length_drop in E. simpl in E. lia. }
  rewrite drop_step in E by done. injection E as E1 E2. rewrite <-app_assoc in E2.
  split_and!; [done|done| | |].
  - apply (f_equal length) in E2. rewrite length_drop, !length_app in E2. lia.
  - rewrite E2. by rewrite take_app_length.
  - change (S (pos + length l)) with (S pos + length l)%nat.
    rewrite <-drop_drop, E2. apply drop_app_length.
Qed.

Lemma wire_nil_head query pos rest :
  drop pos query = wire [] ++ rest → (pos < length query)%nat ∧ query !!! pos = 0.
Proof.
  intros E. assert (Hpos : (pos < length query)%nat).
  { apply (f_equal length) in E. rewrite length_drop in E. simpl in E. lia. }
  rewrite drop_step in E by done. by injection E as E1 _.
Qed.

Lemma mask_len n : (n ≤ 63)%nat → negb (Z.land (Z.of_nat n) 192 =? 0) = false.
Proof.
  intros H. rewrite mask_label by (unfold is_byte; lia).
  apply negb_false_iff, Z.ltb_lt. lia.
Qed.

Lemma parse_loop_complete labels query : ∀ fuel pos name rest,
  Forall label_ok labels → drop pos query = wire labels ++ rest →
  (length query < fuel + pos)%nat →
  parse_loop fuel query pos name = Some (Some (foldl join name (to_ascii_lowercase <$> labels))).
Proof.
  induction labels as [|l labels IH]; intros [|fuel] pos name rest Hok E Hf.
  - destruct (wire_nil_head _ _ _ E). lia.
  - destruct (wire_nil_head _ _ _ E) as [Hpos Hz]. simpl. by rewrite decide_False, Hz by lia.
  - apply Forall_cons in Hok as [Hl _]. destruct (wire_head _ _ _ _ _ Hl E). lia.
  - apply Forall_cons in Hok as [Hl Hok]. destruct (wire_head _ _ _ _ _ Hl E) as (Hpos & Hz & Hlen & Ht & Hd).
    cbn [parse_loop]. rewrite decide_False, Hz, Nat2Z.id by lia. destruct Hl as [Hl Hu].
    rewrite decide_False, mask_len, decide_False, Ht, Hu by lia.
    apply (IH _ _ _ rest); [done|done|lia].
Qed.

Lemma parse_loop_sound query : ∀ fuel pos name r,
  bytes query → parse_loop fuel query pos name = Some (Some r) →
  ∃ labels rest, drop pos query = wire labels ++ rest ∧ Forall label_ok labels ∧
    r = foldl join name (to_ascii_lowercase <$> labels).
Proof.
  induction fuel as [|fuel IH]; intros pos name r Hb; [done|].
  cbn [parse_loop]. destruct (decide _) as [|Hpos]; [done|].
  assert (Hq : is_byte (query !!! pos)).
  { eapply Forall_lookup_1; [exact Hb|]. apply list_lookup_lookup_total_lt. lia. }
  destruct (decide _) as [Hz|Hz].
  { intros [= <-]. exists [], (drop (S pos) query). rewrite drop_step by lia.
    unfold is_byte in Hq. replace (query !!! pos) with 0 by lia. done. }
  unfold is_byte in Hq. rewrite Z2Nat.id, mask_label by (unfold is_byte; lia).
  destruct (_ <? _) eqn:E64; [|done]. simpl.
  destruct (decide _) as [|Hlen]; [done|]. destruct (from_utf8_ok _) eqn:Hu; [|done].
  intros (labels & rest & E & Hok & ->)%IH; [|done].
  exists (take (Z.to_nat (query !!! pos)) (drop (S pos) query) :: labels), rest.
  set (n := Z.to_nat (query !!! pos)) in *.
  assert (Hn : length (take n (drop (S pos) query)) = n).
  { rewrite length_take, length_drop. lia. }
  split_and!.
  - rewrite wire_cons, Hn. simpl. rewrite drop_step by lia. unfold n at 1. rewrite Z2Nat.id by lia.
    f_equal. rewrite <-app_assoc, <-E. change (S (pos + n)) with (S pos + n)%nat.
    rewrite <-drop_drop. symmetry. apply take_drop.
  - apply Forall_cons. split; [|done]. split; [rewrite Hn; lia|done].
  - done.
Qed.

(** Neither loop runs out of fuel. *)
Lemma parse_loop_total query : ∀ fuel pos name,
  (0 < fuel)%nat → (length query < fuel + pos)%nat → is_Some (parse_loop fuel query pos name).
Proof.
  induction fuel as [|fuel IH]; intros pos name Hpos Hf; [lia|]. cbn [parse_loop].
  repeat (case_decide || case_match); try done; apply IH; lia.
Qed.

Lemma end_loop_total data : ∀ fuel pos,
  (0 < fuel)%nat → (length data < fuel + pos)%nat → is_Some (end_loop fuel data pos).
Proof.
  induction fuel as [|fuel IH]; intros pos Hpos Hf; [lia|]. cbn [end_loop].
  repeat (case_decide || case_match); try done; apply IH; lia.
Qed.

Lemma end_loop_complete labels data : ∀ fuel pos rest,
  Forall label_ok labels → drop pos data = wire labels ++ rest →
  (length data < fuel + pos)%nat →
  end_loop fuel data pos = Some (Some (pos + length (wire labels))%nat).
Proof.
  induction labels as [|l labels IH]; intros [|fuel] pos rest Hok E Hf.
  - destruct (wire_nil_head _ _ _ E). lia.
  - destruct (wire_nil_head _ _ _ E) as [Hpos Hz]. cbn [end_loop].
    rewrite decide_False, Hz by lia. simpl. do 2 f_equal. lia.
  - apply Forall_cons in Hok as [Hl _]. destruct (wire_head _ _ _ _ _ Hl E). lia.
  - apply Forall_cons in Hok as [Hl Hok]. destruct (wire_head _ _ _ _ _ Hl E) as (Hpos & Hz & Hlen & Ht & Hd).
    cbn [end_loop]. rewrite decide_False, Hz, Nat2Z.id by lia. destruct Hl as [Hl _].
    rewrite decide_False, mask_len by lia. rewrite (IH _ _ rest), wire_cons by (done || lia).
    simpl. rewrite length_app. do 2 f_equal. lia.
Qed.

Lemma foldl_join labels : ∀ name,
  Forall (λ l, l ≠ []) labels → name ≠ [] →
  foldl join name labels = match labels with [] => name | _ => name ++ dot :: dotted labels end.
Proof.
  induction labels as [|l labels IH]; intros name Hl Hn; [done|].
  apply Forall_cons in Hl as [Hl Hls]. cbn [foldl]. unfold join at 2. rewrite decide_False by done.
  rewrite IH; [|done|by destruct name]. destruct labels; by rewrite <-!app_assoc.
Qed.

Lemma labels_lower labels :
  Forall label_ok labels → Forall (λ l, l ≠ []) (to_ascii_lowercase <$> labels).
Proof.
  intros H. rewrite Forall_fmap. eapply Forall_impl; [exact H|]. intros [] [[Hl _] _]; [|done].
  simpl in Hl. lia.
Qed.

Lemma foldl_dotted labels :
  Forall label_ok labels →
  foldl join [] (to_ascii_lowercase <$> labels) = dotted (to_ascii_lowercase <$> labels) ∧
  (dotted (to_ascii_lowercase <$> labels) = [] ↔ labels = []).
Proof.
  intros H%labels_lower. destruct labels as [|l labels]; [done|]. simpl in H.
  apply Forall_cons in H as [Hl H]. cbn [fmap list_fmap foldl]. unfold join at 2. simpl.
  rewrite foldl_join by done. split; [by destruct labels|].
  split; [|done]. destruct (to_ascii_lowercase l) eqn:El; [done|]. by destruct labels.
Qed.

(** What a well-formed query is made of. *)
Record question (query name hdr : list Z) (labels : list (list Z)) (rest : list Z) : Prop := {
  q_hdr : length hdr = 12%nat;
  q_query : query = hdr ++ wire labels ++ rest;
  q_some : labels ≠ [];
  q_labels : Forall label_ok labels;
  q_name : name = dotted (to_ascii_lowercase <$> labels);
}.

Lemma question_drop query name hdr labels rest :
  question query name hdr labels rest → drop 12 query = wire labels ++ rest.
Proof. intros [<- -> _ _ _]. apply drop_app_length. Qed.

Lemma question_parse query name hdr labels rest :
  question query name hdr labels rest → parse_qname query = Some name.
Proof.
  intros Q. pose proof (question_drop _ _ _ _ _ Q) as Hd. destruct Q as [Hh Hq Hs Hl ->].
  destruct (foldl_dotted labels Hl) as [Ef En]. unfold parse_qname.
  assert (13 ≤ length query)%nat.
  { rewrite Hq, length_app, Hh, length_app. unfold wire. rewrite length_app. simpl. lia. }
  rewrite decide_False by lia. rewrite (parse_loop_complete labels _ _ _ _ rest) by (done || lia).
  simpl. rewrite Ef, decide_False; [done|]. by rewrite En.
Qed.

Lemma question_end query name hdr labels rest :
  question query name hdr labels rest → find_qname_end query 12 = Some (12 + length (wire labels))%nat.
Proof.
  intros Q. pose proof (question_drop _ _ _ _ _ Q) as Hd. unfold find_qname_end.
  rewrite (end_loop_complete labels _ _ _ rest); [done|apply Q|done|lia].
Qed.

(** The names the gateway accepts are exactly the wire-format ones: a query
    parses to a name if and only if its question starts with one or more labels of
    1 to 63 bytes of UTF-8 followed by the terminator, and the name is the labels in
    lower case, joined by dots. *)
Theorem parse_qname_exact query name :
  bytes query →
  parse_qname query = Some name ↔ ∃ hdr labels rest, question query name hdr labels rest.
Proof.
  intros Hb. split; [|intros (hdr & labels & rest & Q); by eapply question_parse].
  unfold parse_qname. destruct (decide _) as [|Hlen]; [done|].
  destruct (parse_loop _ _ _ _) as [[n|]|] eqn:E; [|done|done]. simpl.
  destruct (decide _) as [|Hn]; [done|]. intros [= <-].
  apply parse_loop_sound in E as (labels & rest & Hd & Hok & ->); [|done].
  destruct (foldl_dotted labels Hok) as [Ef En]. rewrite Ef in Hn |- *.
  exists (take 12 query), labels, rest. split; [|by rewrite <-Hd, take_drop| |done|done].
  - rewrite length_take. lia.
  - intros ->. by apply Hn.
Qed.

(** ** What a client reads from a response *)
Record Reply := {
  re_id : Z; re_response : bool; re_rcode : Z; re_ancount : Z; re_others : Z;
  re_qname : option (list Z); re_answer : option Ipv4Addr }.

(** A record of type A and class IN that names the question. *)
Definition read_answer (rr : list Z) : option Ipv4Addr :=
  if decide (take 6 rr = [192; 12; 0; 1; 0; 1] ∧ take 2 (drop 10 rr) = [0; 4] ∧ length rr = 16%nat)
  then Some (ipv4_at rr 12) else None.

Definition read_reply (resp : list Z) : option Reply :=
  q ← find_qname_end resp 12;
  Some {| re_id := be16 (resp !!! 0%nat) (resp !!! 1%nat);
          re_response := Z.testbit (resp !!! 2%nat) 7;
          re_rcode := Z.land (resp !!! 3%nat) 15;
          re_ancount := be16 (resp !!! 6%nat) (resp !!! 7%nat);
          re_others := be16 (resp !!! 8%nat) (resp !!! 9%nat) +
                       be16 (resp !!! 10%nat) (resp !!! 11%nat);
          re_qname := parse_qname resp;
          re_answer := read_answer (drop (q + 4) resp) |}.

(** The reply a client expects: its id and name, and the verdict. *)
Definition reply_to (query name : list Z) (verdict : option Ipv4Addr) : Reply :=
  {| re_id := be16 (query !!! 0%nat) (query !!! 1%nat); re_response := true;
     re_rcode := if is_some verdict then 0 else 3;
     re_ancount := if is_some verdict then 1 else 0; re_others := 0;
     re_qname := Some name; re_answer := verdict |}.

(** The question is there in full: a name, a type and a class. *)
Definition complete_question (query : list Z) : Prop :=
  ∃ e, find_qname_end query 12 = Some e ∧ (e + 4 ≤ length query)%nat.

Lemma question_split query name :
  bytes query → parse_qname query = Some name → complete_question query →
  ∃ hdr labels qt rest, question query name hdr labels (qt ++ rest) ∧ length qt = 4%nat.
Proof.
  intros Hb (hdr & labels & rest & Q)%parse_qname_exact; [|done].
  intros (e & He & Hlen). pose proof (question_end _ _ _ _ _ Q) as He'. rewrite He in He'. injection He' as ->.
  exists hdr, labels, (take 4 rest), (drop 4 rest). rewrite take_drop. split; [done|].
  destruct Q as [Hh Hq _ _ _]. rewrite Hq, !length_app, Hh in Hlen. rewrite length_take. lia.
Qed.

(** [resp] is the query cut after its question, with the header [f] of it. *)
Lemma echo_question query name hdr labels qt rest :
  question query name hdr labels (qt ++ rest) → length qt = 4%nat →
  take (12 + length (wire labels) + 4) query = hdr ++ wire labels ++ qt.
Proof.
  intros [Hh -> _ _ _] Hqt. rewrite (app_assoc (wire labels) qt rest), (app_assoc hdr).
  apply take_app_length'. rewrite !length_app. lia.
Qed.

Lemma header_cases (hdr : list Z) : length hdr = 12%nat →
  ∃ h0 h1 h2 h3 h4 h5 h6 h7 h8 h9 h10 h11,
    hdr = [h0; h1; h2; h3; h4; h5; h6; h7; h8; h9; h10; h11].
Proof.
  intros H. do 12 (destruct hdr as [|? hdr]; [done|]). destruct hdr; [|done]. by repeat eexists.
Qed.

Lemma read_reply_shape hdr labels qt rr name :
  length qt = 4%nat → question (hdr ++ wire labels ++ qt ++ rr) name hdr labels (qt ++ rr) →
  read_reply (hdr ++ wire labels ++ qt ++ rr) =
    Some {| re_id := be16 (hdr !!! 0%nat) (hdr !!! 1%nat);
            re_response := Z.testbit (hdr !!! 2%nat) 7; re_rcode := Z.land (hdr !!! 3%nat) 15;
            re_ancount := be16 (hdr !!! 6%nat) (hdr !!! 7%nat);
            re_others := be16 (hdr !!! 8%nat) (hdr !!! 9%nat) + be16 (hdr !!! 10%nat) (hdr !!! 11%nat);
            re_qname := Some name; re_answer := read_answer rr |}.
Proof.
  intros Hqt Q. unfold read_reply.
  rewrite (question_end _ _ _ _ _ Q), (question_parse _ _ _ _ _ Q).
  destruct Q as [Hh _ _ _ _]. simpl mbind. do 2 f_equal.
  all: try (destruct (header_cases hdr Hh) as (?&?&?&?&?&?&?&?&?&?&?&?&->); reflexivity).
  f_equal. rewrite !app_assoc. apply drop_app_length'. rewrite !length_app. lia.
Qed.

Lemma read_answer_rr ip : is_ip ip → read_answer (answer_rr ip) = Some ip.
Proof.
  intros Hip. unfold read_answer. rewrite decide_True by (by split_and!).
  f_equal. unfold is_ip in Hip. unfold ipv4_at, ipv4_new, answer_rr, octets. simpl.
  unfold wrap. rewrite !Z.shiftr_div_pow2 by lia. change (2 ^ 8) with 256.
  assert (ip / 2 ^ 16 = ip / 256 / 256) as -> by (by rewrite Z.div_div by lia).
  assert (ip / 2 ^ 24 = ip / 256 / 256 / 256) as -> by (by rewrite !Z.div_div by lia).
  Z.to_euclidean_division_equations. lia.
Qed.

(** A response carries the question it answers. *)
Lemma question_echo query name hdr hdr' labels rest rest' :
  question query name hdr labels rest → length hdr' = 12%nat →
  question (hdr' ++ wire labels ++ rest') name hdr' labels rest'.
Proof. intros [_ _ Hs Hl Hn] Hh. by split. Qed.

Lemma testbit_lor b : is_byte b → Z.testbit (Z.lor b 132) 7 = true.
Proof. intros _. rewrite Z.lor_spec. apply orb_true_r. Qed.

Lemma rcode_nx b : is_byte b → Z.land (Z.lor (Z.land b 240) 3) 15 = 3.
Proof.
  intros Hb. apply Z.eqb_eq, (byte_facts (λ b, Z.land (Z.lor (Z.land b 240) 3) 15 =? 3)); [|done].
  by vm_compute.
Qed.

Lemma reply_of_header query name hdr labels qt rest f3 an rr verdict :
  bytes query → length qt = 4%nat → question query name hdr labels (qt ++ rest) →
  Z.land f3 15 = (if is_some verdict then 0 else 3) → an = (if is_some verdict then 1 else 0) →
  read_answer rr = verdict →
  read_reply ([hdr !!! 0%nat; hdr !!! 1%nat; Z.lor (hdr !!! 2%nat) 132; f3;
     hdr !!! 4%nat; hdr !!! 5%nat; 0; an; 0; 0; 0; 0] ++ wire labels ++ qt ++ rr) =
    Some (reply_to query name verdict).
Proof.
  intros Hb Hqt Q H3 Han Hrr. rewrite (read_reply_shape _ _ _ _ name); [|done|].
  2: { by eapply question_echo; [exact Q|]. }
  assert (Hq : bytes hdr).
  { destruct Q as [_ Hq _ _ _]. rewrite Hq in Hb. by apply Forall_app in Hb as [? _]. }
  destruct Q as [Hh -> _ _ _]. unfold reply_to. cbn [lookup_total list_lookup_total].
  rewrite testbit_lor by (by apply bytes_lookup). rewrite H3, Hrr, Han.
  destruct (header_cases hdr Hh) as (?&?&?&?&?&?&?&?&?&?&?&?&->). by destruct verdict.
Qed.

Lemma a_response_read query name ip :
  bytes query → parse_qname query = Some name → complete_question query → is_ip ip →
  read_reply (synthesize_a_response query ip) = Some (reply_to query name (Some ip)).
Proof.
  intros Hb Hp Hc Hip. destruct (question_split _ _ Hb Hp Hc) as (hdr & labels & qt & rest & Q & Hqt).
  destruct Hc as (e & He & Hlen). pose proof (question_end _ _ _ _ _ Q) as He'.
  unfold synthesize_a_response. rewrite He. rewrite decide_False by lia. rewrite He in He'. apply (inj Some) in He' as ->.
  rewrite (echo_question _ _ _ _ _ _ Q Hqt).
  rewrite <-(reply_of_header query name hdr labels qt rest 0 1 (answer_rr ip) (Some ip))
    by first [done|by apply read_answer_rr].
  f_equal. destruct (header_cases hdr (q_hdr _ _ _ _ _ Q)) as (?&?&?&?&?&?&?&?&?&?&?&?&->).
  simpl. by rewrite Z.land_0_r, <-!app_assoc.
Qed.

Lemma nxdomain_response_read query name :
  bytes query → parse_qname query = Some name → complete_question query →
  read_reply (synthesize_nxdomain_response query) = Some (reply_to query name None).
Proof.
  intros Hb Hp Hc. destruct (question_split _ _ Hb Hp Hc) as (hdr & labels & qt & rest & Q & Hqt).
  destruct Hc as (e & He & Hlen). pose proof (question_end _ _ _ _ _ Q) as He'.
  unfold synthesize_nxdomain_response. rewrite He. rewrite decide_False by lia. rewrite He in He'. apply (inj Some) in He' as ->.
  rewrite (echo_question _ _ _ _ _ _ Q Hqt).
  assert (is_byte (hdr !!! 3%nat)).
  { destruct Q as [_ Hq _ _ _]. rewrite Hq in Hb. apply Forall_app in Hb as [? _]. by apply bytes_lookup. }
  rewrite <-(reply_of_header query name hdr labels qt rest
    (Z.lor (Z.land (hdr !!! 3%nat) 240) 3) 0 [] None) by first [done|by apply rcode_nx].
  f_equal. destruct (header_cases hdr (q_hdr _ _ _ _ _ Q)) as (?&?&?&?&?&?&?&?&?&?&?&?&->).
  simpl. by rewrite app_nil_r.
Qed.

(** Answers are read back: for a complete query, what a client reads from the
    synthesized response is its own id and question, with the given address as the
    one answer and no error, and from the NXDOMAIN response the same with the error
    and no answer. *)
Theorem dns_reply_roundtrip query name ip :
  bytes query → parse_qname query = Some name → complete_question query → is_ip ip →
  read_reply (synthesize_a_response query ip) = Some (reply_to query name (Some ip)) ∧
  read_reply (synthesize_nxdomain_response query) = Some (reply_to query name None).
Proof. auto using a_response_read, nxdomain_response_read. Qed.

(** ** Resolution end to end *)

(** The address a name stands for: a registered name, or one qualified by the
    namespace. *)
Definition resolve_name (m : gmap (list Z) Ipv4Addr) (namespace_name name : list Z) : option Ipv4Addr :=
  match m !! name with
  | Some ip => Some ip
  | None => strip_suffix name (suffix_of namespace_name) ≫= λ bare, m !! bare
  end.

Lemma strip_suffix_spec s suffix bare :
  strip_suffix s suffix = Some bare ↔ s = bare ++ suffix.
Proof.
  unfold strip_suffix. split.
  - case_decide as H; [|done]. destruct H as [_ H]. intros [= <-]. rewrite <-H at 2. symmetry. apply take_drop.
  - intros ->. rewrite length_app. replace (length bare + length suffix - length suffix)%nat with (length bare) by lia.
    rewrite decide_True by (split; [lia|apply drop_app_length]). by rewrite take_app_length.
Qed.

Lemma try_resolve_eq m query ns :
  try_resolve (Some m) query ns =
  parse_qname query ≫= λ name, synthesize_a_response query <$> resolve_name m ns name.
Proof.
  unfold try_resolve, resolve_name. destruct (parse_qname query) as [name|]; [|done]. simpl.
  destruct (m !! name); [done|]. by destruct (strip_suffix _ _).
Qed.

Section EndToEnd.
Context {IpEndpoint : Type}.
Implicit Types (d : list Z * IpEndpoint) (o : Outcome (IpEndpoint := IpEndpoint)).

Lemma process_query_mono reg ns o d :
  sent o ⊆ sent (process_query reg ns o d) ∧ spawned o ⊆ spawned (process_query reg ns o d).
Proof.
  destruct d as [q e]. unfold process_query. case_decide; [done|].
  destruct (try_resolve _ _ _); simpl; [split; [|done]; intros ? ?; by apply elem_of_app; left|].
  destruct (parse_qname q); simpl; [|done]. split; [done|]. intros ? ?. by apply elem_of_app; left.
Qed.

Lemma process_fold_mono reg ns l o :
  sent o ⊆ sent (foldl (process_query reg ns) o l) ∧
  spawned o ⊆ spawned (foldl (process_query reg ns) o l).
Proof.
  revert o. induction l as [|d l IH]; intros o; [done|]. simpl.
  destruct (process_query_mono reg ns o d), (IH (process_query reg ns o d)). split; by etrans.
Qed.

(** A query received leaves its response or its lookup. *)
Lemma process_queries_leaves m ns query (e : IpEndpoint) received name :
  (query, e) ∈ received → parse_qname query = Some name → (2 ≤ length query)%nat →
  let o := process_queries (Some m) ns received in
  match resolve_name m ns name with
  | Some ip => (synthesize_a_response query ip, e) ∈ sent o
  | None => {| lk_qname := name; lk_query := query; lk_endpoint := e |} ∈ spawned o
  end.
Proof.
  intros (l1 & l2 & ->)%list_elem_of_split Hp Hlen. unfold process_queries. rewrite foldl_app. simpl.
  set (o1 := foldl _ _ l1).
  destruct (process_fold_mono (Some m) ns l2 (process_query (Some m) ns o1 (query, e))) as [Hs Hl].
  unfold process_query in Hs at 1, Hl at 1. rewrite decide_False in Hs, Hl by lia.
  rewrite try_resolve_eq, Hp in Hs, Hl. simpl in Hs, Hl.
  destruct (resolve_name m ns name) as [ip|]; simpl in Hs, Hl.
  - apply Hs, elem_of_app. right. by apply list_elem_of_singleton.
  - apply Hl, elem_of_app. right. by apply list_elem_of_singleton.
Qed.

Lemma read_reply_nonempty resp r : read_reply resp = Some r → resp ≠ [].
Proof. by intros H ->. Qed.

(** C39: every complete query is answered correctly: whatever else is received, the
    client is sent a response to its own question, either at once with the address
    registered for the name (or for the name qualified by the namespace), or, when
    there is none, once the upstream lookup completes, with the first IPv4 address
    it found or the error if it found none. *)
Theorem dns_query_answered m ns (lookup_ip : list Z → option (list IpAddr)) received query
    (e : IpEndpoint) name :
  bytes query → (query, e) ∈ received → parse_qname query = Some name → complete_question query →
  map_Forall (λ _ ip, is_ip ip) m →
  (∀ ip, lookup_ip name ≫= find_map first_v4 = Some ip → is_ip ip) →
  let o := process_queries (Some m) ns received in
  match resolve_name m ns name with
  | Some ip => ∃ resp, (resp, e) ∈ sent o ∧
      read_reply resp = Some (reply_to query name (Some ip))
  | None => ∃ lk resp, lk ∈ spawned o ∧
      write_result (lookup_task lookup_ip lk) = Some (resp, e) ∧
      read_reply resp = Some (reply_to query name (lookup_ip name ≫= find_map first_v4))
  end.
Proof.
  intros Hb Hin Hp Hc Hm Hup.
  assert (2 ≤ length query)%nat.
  { unfold parse_qname in Hp. destruct (decide _) in Hp; [done|lia]. }
  pose proof (process_queries_leaves m ns query e received name Hin Hp ltac:(done)) as Hl.
  cbv zeta in *. destruct (resolve_name m ns name) as [ip|] eqn:Er.
  - eexists. split; [exact Hl|]. apply a_response_read; try done.
    unfold resolve_name in Er. destruct (m !! name) eqn:E; [injection Er as <-; by eapply Hm|].
    destruct (strip_suffix _ _); [|done]. by eapply Hm.
  - exists {| lk_qname := name; lk_query := query; lk_endpoint := e |}.
    unfold write_result, lookup_task. cbn [lr_result lr_query lr_endpoint lk_qname lk_query lk_endpoint].
    destruct (lookup_ip name ≫= find_map first_v4) as [ip|] eqn:Eup;
      [pose proof (a_response_read query name ip Hb Hp Hc (Hup ip eq_refl)) as R
      |pose proof (nxdomain_response_read query name Hb Hp Hc) as R];
      eexists; (split; [exact Hl|]);
      rewrite decide_False by (by eapply read_reply_nonempty); (split; [reflexivity|exact R]).
Qed.
End EndToEnd.

(** ** Concrete queries *)

(** An A query for [db.web.dv.local] with id 7. *)
Definition demo_query : list Z :=
  [0; 7; 1; 0; 0; 1; 0; 0; 0; 0; 0; 0;
   2; 100; 98; 3; 119; 101; 98; 2; 100; 118; 5; 108; 111; 99; 97; 108; 0; 0; 1; 0; 1].
Definition demo_name : list Z := [100; 98; 46; 119; 101; 98; 46; 100; 118; 46; 108; 111; 99; 97; 108].
Definition demo_registry : gmap (list Z) Ipv4Addr := {[ [100; 98] := 167772163 ]}.

Lemma demo_bytes : bytes demo_query.
Proof. repeat constructor; unfold is_byte; lia. Qed.
Lemma demo_complete : complete_question demo_query.
Proof. exists 29%nat. split; [by vm_compute|simpl; lia]. Qed.

Lemma parse_qname_exact_witness :
  ∃ hdr labels rest, question demo_query demo_name hdr labels rest.
Proof. apply (proj1 (parse_qname_exact demo_query demo_name demo_bytes)). by vm_compute. Defined.

Lemma dns_reply_roundtrip_witness :
  read_reply (synthesize_a_response demo_query 167772163) =
    Some (reply_to demo_query demo_name (Some 167772163)).
Proof.
  apply (dns_reply_roundtrip demo_query demo_name 167772163);
    [apply demo_bytes|by vm_compute|apply demo_complete|unfold is_ip; lia].
Defined.

Lemma dns_query_answered_witness :
  resolve_name demo_registry [119; 101; 98] demo_name = Some 167772163 ∧
  ∃ resp, (resp, 5) ∈ sent (process_queries (Some demo_registry) [119; 101; 98]
      [([1], 4); (demo_query, 5)]) ∧
    read_reply resp = Some (reply_to demo_query demo_name (Some 167772163)).
Proof.
  split; [by vm_compute|].
  refine (dns_query_answered demo_registry [119; 101; 98] (λ _, None) [([1], 4); (demo_query, 5)]
    demo_query 5 demo_name demo_bytes _ _ demo_complete _ _).
  - right. left.
  - by vm_compute.
  - apply map_Forall_singleton. unfold is_ip. lia.
  - by intros ip [=].
Defined.

(** A query cut right after its name resolves to an empty response, which
    [process_queries] sends all the same. *)
Example truncated_query_empty_datagram :
  sent (process_queries (Some demo_registry) [119; 101; 98] [(take 29 demo_query, 5)]) = [([], 5)].
Proof. by vm_compute. Qed.

(** A name registered with an upper-case letter is not found, since names are
    looked up in lower case. *)
Example uppercase_name_unreachable :
  try_resolve (Some {[ [68; 66] := 167772163 ]})
    [0; 7; 1; 0; 0; 1; 0; 0; 0; 0; 0; 0; 2; 68; 66; 0; 0; 1; 0; 1] [119; 101; 98] = None.
Proof. by vm_compute. Qed.

End Dns.
