(* ===== verification/Processor.v ===== *)
(** * Service processors
      ([crates/worker/src/fabric/endpoint/service_processor.rs],
       [crates/activator/src/{instance,packet_parse,types}.rs], [activators/activator-types])

    A service can have activators: programs that see its packets while no backend is
    ready.  A processor routes a packet by destination port to one of them or to the
    stream manager of the service.

    Two things are not readable here and are parameters: the WASM component of an
    activator ([Component]) and the TCP stack of the stream manager ([StreamOps]); the
    packet slicer of the [etherparse] crate is a third ([PacketSlicer]).
    [ProcessorOps] is what the endpoint table relies on; [service_processor_ops] shows
    that the processor provides it. *)

From S2P Require Import Prelude SmTypes Flow Checksum Frame.

Module Processor.
Import Checksum Frame.

(** ** Events and actions of activators *)
Abbreviation PacketFlow := Z.
Abbreviation Stream := Z.
Abbreviation PortId := Z.
Inductive IpProtocol := Tcp | Udp | Other.
Inductive PacketDecision := DecBuffered | DecDrop.
Inductive BackendNeed := NeedNone | NeedTraffic | NeedActive.
#[export] Instance BackendNeed_eq_dec : EqDecision BackendNeed.
Proof. solve_decision. Defined.
Inductive LogLevel := Trace | Debug | Info | Warn | Error.
Record LogAction := { log_level : LogLevel; log_message : string }.

Record PacketInfo := {
  pi_flow : PacketFlow; pi_src_addr : Ipv4Addr; pi_dst_addr : Ipv4Addr;
  pi_src_port : Z; pi_dst_port : Z; pi_protocol : IpProtocol; pi_tcp_flags : option Z;
  pi_payload_len : Z; pi_raw_frame : list Z;
}.
Inductive Event :=
  | BackendAvailable (b : bool)
  | Tick
  | Packet (info : PacketInfo)
  | StreamOpen (s : Stream)
  | StreamData (stream : Stream) (data : list Z)
  | StreamClose (s : Stream)
  | UpstreamConnectResult (stream : Stream) (ok : bool)
  | UpstreamData (stream : Stream) (data : list Z)
  | UpstreamClosed (s : Stream).
Inductive Action :=
  | SetBackendNeed (need : BackendNeed)
  | Log (log_action : LogAction)
  | DecidePacket (flow : PacketFlow) (decision : PacketDecision)
  | PacketReply (flow : PacketFlow) (data : list Z)
  | ReplayPacket (raw_frame : list Z)
  | DownstreamSend (stream : Stream) (data : list Z)
  | DownstreamClose (s : Stream)
  | PauseDownstream (s : Stream)
  | ResumeDownstream (s : Stream)
  | UpstreamConnect (port : Z)
  | UpstreamSend (stream : Stream) (data : list Z)
  | UpstreamClose (s : Stream)
  | PauseUpstream (s : Stream)
  | ResumeUpstream (s : Stream).

Definition is_l4_action (action : Action) : bool :=
  match action with
  | DownstreamSend _ _ | DownstreamClose _ | PauseDownstream _ | ResumeDownstream _
  | UpstreamConnect _ | UpstreamSend _ _ | UpstreamClose _ | PauseUpstream _ | ResumeUpstream _ => true
  | _ => false
  end.

(** ** Packets as activators see them ([packet_parse.rs]) *)
Record Ipv4Slice := { sl_source : Ipv4Addr; sl_destination : Ipv4Addr; sl_total_len : Z }.
(** [slice] is the TCP header as bytes, at least 20 of them. *)
Inductive TransportSlice :=
  | SliceTcp (source_port destination_port : Z) (slice : list Z)
  | SliceUdp (source_port destination_port : Z)
  | SliceOther.
Record SlicedPacket := { sl_ipv4 : option Ipv4Slice; sl_transport : option TransportSlice }.
(** [SlicedPacket::from_ip] *)
Class PacketSlicer := { from_ip : list Z → option SlicedPacket }.

(** The activator's own flow table. *)
Module Ids.
Record FlowTracker := { flows : gmap FlowKey PacketFlow; next_id : PacketFlow }.
Definition new : FlowTracker := {| flows := ∅; next_id := 1 |}.
Definition get_or_assign (key : FlowKey) (t : FlowTracker) : PacketFlow * FlowTracker :=
  match flows t !! key with
  | Some id => (id, t)
  | None =>
      (next_id t, {| flows := <[key := next_id t]> (flows t); next_id := u64_add (next_id t) 1 |})
  end.
Definition flow_count (t : FlowTracker) : nat := size (flows t).
End Ids.

Section Parse.
Context `{PacketSlicer}.
Definition transport_info (ip_packet : list Z) (net : Ipv4Slice) (transport : option TransportSlice) :
    IpProtocol * Z * Z * option Z * Z * Z :=
  match transport with
  | Some (SliceTcp source_port destination_port slice) =>
      (Tcp, source_port, destination_port, Some (slice !!! 13%nat),
       saturating_sub (zlen ip_packet) (sl_total_len net), 6)
  | Some (SliceUdp source_port destination_port) => (Udp, source_port, destination_port, None, 0, 17)
  | _ => (Other, 0, 0, None, 0, 0)
  end.
Definition parse_frame_to_packet_info (ip_packet raw_frame_with_vnet : list Z)
    (flow_tracker : Ids.FlowTracker) : option PacketInfo * Ids.FlowTracker :=
  match from_ip ip_packet with
  | Some {| sl_ipv4 := Some net; sl_transport := transport |} =>
      let '(protocol, src_port, dst_port, tcp_flags, payload_len, ip_proto_num) :=
        transport_info ip_packet net transport in
      let key := {| fk_src_ip := sl_source net; fk_dst_ip := sl_destination net;
                    fk_protocol := ip_proto_num; fk_src_port := src_port; fk_dst_port := dst_port |} in
      let '(flow, flow_tracker) := Ids.get_or_assign key flow_tracker in
      (Some {| pi_flow := flow; pi_src_addr := sl_source net; pi_dst_addr := sl_destination net;
               pi_src_port := src_port; pi_dst_port := dst_port; pi_protocol := protocol;
               pi_tcp_flags := tcp_flags; pi_payload_len := payload_len;
               pi_raw_frame := raw_frame_with_vnet |}, flow_tracker)
  | _ => (None, flow_tracker)
  end.
End Parse.

(** ** Activator instances ([instance.rs]) *)
(** The call of the component with its fuel and the conversions to its interface types;
    [None] when it traps or runs out of fuel. *)
Class Component (W : Type) := {
  call_process_events : W → list Event → option (list Action) * W }.

Section Instance_.
Context `{Component W}.
Record ActivatorInstance := {
  store : W; pending_events : list Event; last_backend_need : BackendNeed }.
Definition push_event (event : Event) (a : ActivatorInstance) : ActivatorInstance :=
  {| a with pending_events := pending_events a ++ [event] |}.
Definition has_pending_events (a : ActivatorInstance) : bool :=
  match pending_events a with [] => false | _ => true end.
Definition note_need (need : BackendNeed) (action : Action) : BackendNeed :=
  match action with SetBackendNeed n => n | _ => need end.
Definition process_events (a : ActivatorInstance) : option (list Action) * ActivatorInstance :=
  match pending_events a with
  | [] => (Some [], a)
  | events =>
      match call_process_events (store a) events with
      | (None, w) => (None, {| a with store := w; pending_events := [] |})
      | (Some actions, w) =>
          (Some actions,
           {| store := w; pending_events := [];
              last_backend_need := foldl note_need (last_backend_need a) actions |})
      end
  end.
End Instance_.
Arguments ActivatorInstance W : clear implicits.

(** ** Stream managers *)
Record StreamManagerOutput := { so_events : list Event; so_frames : list (list Z) }.
Class StreamOps (SM : Type) := {
  stream_manager_new : Ipv4Addr → list Z → SM;
  receive_frame : list Z → SM → StreamManagerOutput * SM;
  execute_action : Action → SM → StreamManagerOutput * SM;
  sm_handle_timeout : SM → StreamManagerOutput * SM;
  poll_delay : SM → option Duration * SM;
  update_backend : option Ipv4Addr → SM → SM;
}.

(** ** What the fabric does with a frame that matched an endpoint ([endpoint/mod.rs]) *)
Inductive EndpointAction :=
  | ServiceForward (pod_ip service_ip : Ipv4Addr)
  | Buffered (service_id : option ServiceId)
  | Drop (service_id : option ServiceId)
  | ActivatorActions (actions : list Action) (service_id : ServiceId)
  | L4Result (actions : list Action) (frames : list (list Z)) (service_id : ServiceId)
      (poll : option Duration)
  | RemoteWorker (worker_id : WorkerId)
  | LocalAdapter (port_id : PortId)
  | LocalPod (port_id : PortId)
  | NotFound.

(** The two results a processor produces. *)
Definition is_processed (service_id : ServiceId) (a : EndpointAction) : Prop :=
  match a with
  | ActivatorActions _ s | L4Result _ _ s _ => s = service_id
  | _ => False
  end.

(** ** The interface of the endpoint table *)
Class ProcessorOps (P : Type) := {
  process_frame : ServiceId → list Z → list Z → P → option EndpointAction * P;
  on_mark_ready : ServiceId → P → option EndpointAction * P;
  on_backend_update : bool → option Ipv4Addr → P → P;
  handle_timeout : ServiceId → P → option EndpointAction * P;
  is_passthrough : P → bool;
  has_stream_manager : P → bool;
  process_frame_kind : ∀ s ip raw p a p', process_frame s ip raw p = (Some a, p') → is_processed s a;
  on_mark_ready_kind : ∀ s p a p', on_mark_ready s p = (Some a, p') → is_processed s a;
  handle_timeout_kind : ∀ s p a p', handle_timeout s p = (Some a, p') → is_processed s a;
  passthrough_ready : ∀ s p, is_passthrough p = true → has_stream_manager p = false →
    (on_mark_ready s p).1 = None;
}.

(** ** The processor *)
Section Processor.
Context `{PacketSlicer} `{Component W} `{StreamOps SM} `{!HashIter Z}.

Inductive PortMode := Passthrough | L3 (activator : ActivatorInstance W) | L4.
Inductive DefaultPortMode := DropPort | PassthroughPort.
Record ServiceProcessor := {
  port_routes : gmap Z PortMode;
  default_mode : DefaultPortMode;
  stream_manager : option SM;
  flow_tracker : Ids.FlowTracker;
}.
Definition passthrough : ServiceProcessor :=
  {| port_routes := ∅; default_mode := PassthroughPort; stream_manager := None;
     flow_tracker := Ids.new |}.

Definition extract_dst_port (packet : list Z) : option Z :=
  if decide (length packet < 20)%nat then None
  else
    let ihl := ihl_of (packet !!! 0%nat) in
    let protocol := packet !!! 9%nat in
    if decide (length packet < ihl + 4)%nat then None
    else if (protocol =? 6) || (protocol =? 17)
      then Some (be16 (packet !!! (ihl + 2)%nat) (packet !!! (ihl + 3)%nat))
      else None.

(** The loop of [process_l4_output]: at most [rounds] exchanges between the activator
    and the stream manager. *)
Definition run_l4_action (s : list Event * list (list Z) * SM) (action : Action) :
    list Event * list (list Z) * SM :=
  let '(new_events, frames, sm) := s in
  if is_l4_action action then
    let '(out, sm) := execute_action action sm in
    (new_events ++ so_events out, frames ++ so_frames out, sm)
  else s.
Fixpoint l4_rounds (rounds : nat) (activator : ActivatorInstance W) (sm : SM)
    (out : StreamManagerOutput) (non_l4 : list Action) :
    list Action * StreamManagerOutput * ActivatorInstance W * SM :=
  match rounds with
  | O => (non_l4, out, activator, sm)
  | S rounds =>
      let activator := foldl (λ a e, push_event e a) activator (so_events out) in
      let out := {| out with so_events := [] |} in
      if negb (has_pending_events activator) then (non_l4, out, activator, sm)
      else
        match process_events activator with
        | (None, activator) => (non_l4, out, activator, sm)
        | (Some actions, activator) =>
            let '(new_events, frames, sm) := foldl run_l4_action ([], so_frames out, sm) actions in
            l4_rounds rounds activator sm {| so_events := new_events; so_frames := frames |}
              (non_l4 ++ List.filter (λ a, negb (is_l4_action a)) actions)
        end
  end.
Definition process_l4_output (service_id : ServiceId) (activator : option (ActivatorInstance W))
    (sm : SM) (out : StreamManagerOutput) :
    EndpointAction * option (ActivatorInstance W) * SM :=
  let '(actions, out, activator, sm) :=
    match activator with
    | Some a => let '(acts, out, a, sm) := l4_rounds 4 a sm out [] in (acts, out, Some a, sm)
    | None => ([], out, None, sm)
    end in
  let '(delay, sm) := poll_delay sm in
  (L4Result actions (so_frames out) service_id delay, activator, sm).

(** [process_l4_output] without an activator, on the processor's stream manager *)
Definition l4_result (service_id : ServiceId) (p : ServiceProcessor)
    (step : StreamManagerOutput * SM) : EndpointAction * ServiceProcessor :=
  let '(action, _, sm) := process_l4_output service_id None step.2 step.1 in
  (action, {| p with stream_manager := Some sm |}).

Definition sp_process_frame (service_id : ServiceId) (packet raw_frame : list Z) (p : ServiceProcessor) :
    option EndpointAction * ServiceProcessor :=
  match extract_dst_port packet ≫= λ dst_port, (λ m, (dst_port, m)) <$> port_routes p !! dst_port with
  | None => (None, p)
  | Some (_, Passthrough) => (None, p)
  | Some (_, L4) =>
      match stream_manager p with
      | None => (None, p)
      | Some sm => let '(a, p) := l4_result service_id p (receive_frame packet sm) in (Some a, p)
      end
  | Some (dst_port, L3 activator) =>
      let '(info, flow_tracker) := parse_frame_to_packet_info packet raw_frame (flow_tracker p) in
      let activator := match info with
        | Some packet_info => push_event (Packet packet_info) activator
        | None => activator
        end in
      let '(result, activator) := process_events activator in
      ((λ actions, ActivatorActions actions service_id) <$> result,
       {| p with flow_tracker := flow_tracker;
                 port_routes := <[dst_port := L3 activator]> (port_routes p) |})
  end.

Definition push_mode (event : Event) (m : PortMode) : PortMode :=
  match m with L3 a => L3 (push_event event a) | m => m end.
Definition collect_mode (s : list Action * gmap Z PortMode) (e : Z * PortMode) :
    list Action * gmap Z PortMode :=
  match e.2 with
  | L3 a => let '(result, a) := process_events a in
            (s.1 ++ default [] result, <[e.1 := L3 a]> s.2)
  | _ => s
  end.

Definition sp_on_mark_ready (service_id : ServiceId) (p : ServiceProcessor) :
    option EndpointAction * ServiceProcessor :=
  let p := {| p with port_routes := push_mode (BackendAvailable true) <$> port_routes p |} in
  match stream_manager p with
  | Some sm => let '(a, p) := l4_result service_id p (sm_handle_timeout sm) in (Some a, p)
  | None =>
      let '(actions, routes) :=
        foldl collect_mode ([], port_routes p) (hash_iter (port_routes p)) in
      (match actions with [] => None | _ => Some (ActivatorActions actions service_id) end,
       {| p with port_routes := routes |})
  end.

Definition sp_on_backend_update (has_backend : bool) (backend_ip : option Ipv4Addr)
    (p : ServiceProcessor) : ServiceProcessor :=
  {| p with port_routes := push_mode (BackendAvailable has_backend) <$> port_routes p;
            stream_manager := update_backend backend_ip <$> stream_manager p |}.

Definition sp_handle_timeout (service_id : ServiceId) (p : ServiceProcessor) :
    option EndpointAction * ServiceProcessor :=
  match stream_manager p with
  | Some sm => let '(a, p) := l4_result service_id p (sm_handle_timeout sm) in (Some a, p)
  | None => (None, p)
  end.

Definition is_plain (m : PortMode) : bool := match m with Passthrough => true | _ => false end.
Definition sp_is_passthrough (p : ServiceProcessor) : bool :=
  forallb (λ e, is_plain e.2) (map_to_list (port_routes p)).
Definition sp_has_stream_manager (p : ServiceProcessor) : bool := is_some (stream_manager p).

(** [NamespaceState::build_processor] ([worker/namespace.rs]).  [tcp_activator port] is
    the instance of the TCP activator for a port, if the runtime has one. *)
Definition port_mode (tcp_activator : Z → option (ActivatorInstance W)) (cfg : PortConfig) : PortMode :=
  match pc_activator cfg with
  | None => Passthrough
  | Some ActHttp2 => L4
  | Some (ActTcp _) =>
      match tcp_activator (pc_port cfg) with Some a => L3 a | None => Passthrough end
  end.
Definition is_http2 (cfg : PortConfig) : bool :=
  match pc_activator cfg with Some ActHttp2 => true | _ => false end.
Definition build_processor (tcp_activator : Z → option (ActivatorInstance W)) (policy : ServicePolicy)
    (ip : Ipv4Addr) : ServiceProcessor :=
  match sp_ports policy with
  | [] => passthrough
  | ports =>
      let l4_ports := pc_port <$> List.filter is_http2 ports in
      {| port_routes := collect_map ((λ cfg, (pc_port cfg, port_mode tcp_activator cfg)) <$> ports);
         default_mode :=
           if existsb (λ cfg, is_some (pc_activator cfg)) ports then DropPort else PassthroughPort;
         stream_manager :=
           match l4_ports with [] => None | _ => Some (stream_manager_new ip l4_ports) end;
         flow_tracker := Ids.new |}
  end.

Lemma l4_result_kind s p step : is_processed s (l4_result s p step).1.
Proof. unfold l4_result, process_l4_output. by destruct (poll_delay step.2). Qed.

Lemma plain_routes p port m :
  sp_is_passthrough p = true → port_routes p !! port = Some m → m = Passthrough.
Proof.
  unfold sp_is_passthrough. rewrite forallb_forall. intros Hall Hm.
  specialize (Hall (port, m)). rewrite <- list_elem_of_In, elem_of_map_to_list in Hall.
  specialize (Hall Hm). by destruct m.
Qed.

Lemma collect_plain l s : Forall (λ e : Z * PortMode, e.2 = Passthrough) l → foldl collect_mode s l = s.
Proof.
  intros Hl. revert s. induction Hl as [|[port m] l Hm _ IH]; intros s; [done|]. simpl in Hm.
  subst m. apply IH.
Qed.

#[export] Program Instance service_processor_ops : ProcessorOps ServiceProcessor := {|
  process_frame := sp_process_frame;
  on_mark_ready := sp_on_mark_ready;
  on_backend_update := sp_on_backend_update;
  handle_timeout := sp_handle_timeout;
  is_passthrough := sp_is_passthrough;
  has_stream_manager := sp_has_stream_manager;
|}.
Next Obligation.
  intros s packet raw p a p' E. unfold sp_process_frame in E.
  destruct (extract_dst_port packet ≫= _) as [[port [|act|]]|]; simplify_eq.
  - destruct (parse_frame_to_packet_info _ _ _) as [info ft], (process_events _) as [[r|] act'];
      by simplify_eq/=.
  - destruct (stream_manager p) as [sm|]; simplify_eq.
    pose proof (l4_result_kind s p (receive_frame packet sm)). by destruct (l4_result _ _ _); simplify_eq.
Qed.
Next Obligation.
  intros s p a p' E. unfold sp_on_mark_ready in E. cbn [stream_manager port_routes] in E.
  destruct (stream_manager p) as [sm|].
  - match type of E with context [l4_result s ?q ?st] => pose proof (l4_result_kind s q st) end.
    by destruct (l4_result _ _ _); simplify_eq.
  - destruct (foldl _ _ _) as [[|x l] r]; by simplify_eq.
Qed.
Next Obligation.
  intros s p a p' E. unfold sp_handle_timeout in E. destruct (stream_manager p) as [sm|]; [|done].
  pose proof (l4_result_kind s p (sm_handle_timeout sm)). by destruct (l4_result _ _ _); simplify_eq.
Qed.
Next Obligation.
  intros s p Hp Hs. unfold sp_on_mark_ready, sp_has_stream_manager in *. cbn [stream_manager port_routes].
  destruct (stream_manager p); [done|]. rewrite collect_plain; [done|].
  apply Forall_forall. intros [port m] Hin%elem_of_hash_iter. simpl.
  apply lookup_fmap_Some in Hin as (m' & <- & Hm). by rewrite (plain_routes p port m' Hp Hm).
Qed.
End Processor.
Arguments PortMode W : clear implicits.
Arguments ServiceProcessor W SM : clear implicits.
End Processor.
