(* ===== verification/EndpointTable.v ===== *)
(** * The endpoint table of a worker
      ([crates/worker/src/fabric/endpoint/{mod,config,dispatch}.rs])

    One table per namespace and worker says what happens to a packet by its destination
    address: forward it to a service's backend, deliver it to a local port or a remote
    worker, or buffer it while the pod behind the address is starting.  The orchestrator
    configures the table with endpoint specs.

    [Instant::now()] is the argument [now]; [duration_since] saturates.  The processor
    of a service is any type with [ProcessorOps]. *)

From S2P Require Import Prelude SmTypes Protocol Flow Checksum Frame Processor.

Module EndpointTable.
Import Checksum Frame Processor.

Record BufferPolicy := { bp_buffer_frames : Z; bp_timeout_ms : Z }.
Inductive EndpointState := Buffering | Pending | Ready.
#[global] Instance EndpointState_eq : EqDecision EndpointState.
Proof. solve_decision. Defined.
Record FlowStatusChange := {
  fc_ip : Ipv4Addr; fc_service_id : option ServiceId; fc_active : bool }.
Inductive EndpointSyncEffect :=
  | ServiceReady (service_id : ServiceId)
  | FlushPodBuffer (ip : Ipv4Addr)
  | FlushAdapterBuffer (ip : Ipv4Addr) (port_id : PortId) (frames : list (list Z))
  | FlowStatus (change : FlowStatusChange).
Inductive MarkReadyResult :=
  | PassthroughReady (frames : list (list Z)) (backend_ip service_ip : Ipv4Addr) (actions : list Action)
  | L4Ready (action : EndpointAction).
Record ServiceFlushData := {
  sf_service_ip : Ipv4Addr; sf_backend_ip : Ipv4Addr; sf_frames : list (list Z) }.
Inductive BufferResult := FrameBuffered | FrameDropped.
Inductive AttachError := NoEndpoint | NotLocalPod.

Section Table.
Context `{ProcessorOps P} `{!HashIter Z}.

(** [Adapter] and [Pod] are [LocalAdapter] and [LocalPod] of the source. *)
Inductive EndpointBackend :=
  | Service (service_id : ServiceId) (policy : ServicePolicy) (backend_ip : option Ipv4Addr)
      (processor : P)
  | UnplacedPod (buffer_policy : BufferPolicy)
  | RemoteSegment (worker_id : WorkerId)
  | Adapter (port_id : PortId)
  | Pod (port_id : option PortId).

Record Endpoint := {
  ip : Ipv4Addr;
  state : EndpointState;
  buffer : list (list Z);
  buffer_start : option Z;
  backend : EndpointBackend;
  flow_tracker : option FlowTracker.FlowTracker;
  last_activation : option Z;
}.
Record EndpointTable := {
  by_ip : gmap Z Endpoint;
  service_id_to_ip : gmap Z Ipv4Addr;
  activation_debounce : Duration;
}.
Definition new : EndpointTable :=
  {| by_ip := ∅; service_id_to_ip := ∅; activation_debounce := from_secs 1 |}.

Definition backend_service_id (b : EndpointBackend) : option ServiceId :=
  match b with Service s _ _ _ => Some s | _ => None end.
Definition with_endpoint (a : Ipv4Addr) (ep : Endpoint) (t : EndpointTable) : EndpointTable :=
  {| t with by_ip := <[a := ep]> (by_ip t) |}.
Definition with_processor (s : ServiceId) (pol : ServicePolicy) (b : option Ipv4Addr) (p : P)
    (ep : Endpoint) : Endpoint := {| ep with backend := Service s pol b p |}.
(** [endpoint.buffer.drain(..)] with [buffer_start = None] *)
Definition drained (ep : Endpoint) : Endpoint := {| ep with buffer := []; buffer_start := None |}.

(** ** Readiness ([mod.rs]) *)
Definition mark_service_ready (service_id : ServiceId) (t : EndpointTable) :
    option MarkReadyResult * EndpointTable :=
  match (a ← service_id_to_ip t !! service_id; ep ← by_ip t !! a; Some (a, ep)) with
  | Some (a, ep) =>
      match backend ep with
      | Service svc_id pol (Some backend_ip) processor =>
          let ep := {| ep with state := Ready |} in
          match on_mark_ready svc_id processor with
          | (Some svc_action, processor) =>
              let ep := with_processor svc_id pol (Some backend_ip) processor ep in
              if has_stream_manager processor then (Some (L4Ready svc_action), with_endpoint a ep t)
              else
                let actions := match svc_action with ActivatorActions l _ => l | _ => [] end in
                (Some (PassthroughReady (buffer ep) backend_ip (ip ep) actions),
                 with_endpoint a (drained ep) t)
          | (None, processor) =>
              let ep := with_processor svc_id pol (Some backend_ip) processor ep in
              (Some (PassthroughReady (buffer ep) backend_ip (ip ep) []),
               with_endpoint a
                 (let ep := drained ep in
                  {| ep with flow_tracker := Some (default FlowTracker.new (flow_tracker ep)) |}) t)
          end
      | _ => (None, t)
      end
  | None => (None, t)
  end.

Definition flush_pod_buffer (a : Ipv4Addr) (t : EndpointTable) : list (list Z) * EndpointTable :=
  match by_ip t !! a with
  | Some ep =>
      match backend ep with
      | UnplacedPod _ | Pod _ => (buffer ep, with_endpoint a (drained ep) t)
      | _ => ([], t)
      end
  | None => ([], t)
  end.

Definition get_service_nat_info (service_id : ServiceId) (t : EndpointTable) :
    option (Ipv4Addr * Ipv4Addr) :=
  a ← service_id_to_ip t !! service_id;
  ep ← by_ip t !! a;
  match backend ep with
  | Service _ _ backend_ip _ => b ← backend_ip; Some (ip ep, b)
  | _ => None
  end.
Definition get_service_ip (service_id : ServiceId) (t : EndpointTable) : option Ipv4Addr :=
  service_id_to_ip t !! service_id.

Definition handle_timeout_for_ip (a : Ipv4Addr) (t : EndpointTable) :
    option EndpointAction * EndpointTable :=
  match by_ip t !! a with
  | Some ep =>
      match backend ep with
      | Service s pol b processor =>
          let '(r, processor) := handle_timeout s processor in
          (r, with_endpoint a (with_processor s pol b processor ep) t)
      | _ => (None, t)
      end
  | None => (None, t)
  end.

(** A ready service with a buffer whose backend is [target_ip] *)
Definition flushable (target_ip : Ipv4Addr) (ep : Endpoint) : bool :=
  match backend ep with
  | Service _ _ backend_ip _ =>
      bool_decide (state ep = Ready) && bool_decide (backend_ip = Some target_ip) &&
      match buffer ep with [] => false | _ => true end
  | _ => false
  end.
Definition flush_by_backend_ip (target_ip : Ipv4Addr) (t : EndpointTable) :
    list ServiceFlushData * EndpointTable :=
  (omap (λ '(a, ep), if flushable target_ip ep
                     then Some {| sf_service_ip := a; sf_backend_ip := target_ip;
                                  sf_frames := buffer ep |}
                     else None) (hash_iter (by_ip t)),
   {| t with by_ip := (λ ep, if flushable target_ip ep then drained ep else ep) <$> by_ip t |}).

Definition attach_port (a : Ipv4Addr) (port_id : PortId) (t : EndpointTable) :
    (list (list Z) + AttachError) * EndpointTable :=
  match by_ip t !! a with
  | None => (inr NoEndpoint, t)
  | Some ep =>
      match backend ep with
      | Pod _ =>
          (inl (buffer ep),
           with_endpoint a
             (let ep := drained ep in
              {| ep with backend := Pod (Some port_id); state := Ready;
                         flow_tracker := Some (default FlowTracker.new (flow_tracker ep)) |}) t)
      | _ => (inr NotLocalPod, t)
      end
  end.

Definition has_port (port_id : PortId) (ep : Endpoint) : bool :=
  match backend ep with Pod (Some p) => p =? port_id | _ => false end.
(** The first match ends the loop. *)
Definition detach_port (port_id : PortId) (t : EndpointTable) : EndpointTable :=
  match find_map (λ '(a, ep), if has_port port_id ep then Some (a, ep) else None)
          (hash_iter (by_ip t)) with
  | Some (a, ep) => with_endpoint a {| ep with backend := Pod None; state := Pending |} t
  | None => t
  end.

Definition get_port_id (a : Ipv4Addr) (t : EndpointTable) : option PortId :=
  ep ← by_ip t !! a;
  match backend ep with Pod p => p | Adapter p => Some p | _ => None end.

Definition backend_reachable (b : EndpointBackend) : bool :=
  match b with
  | Pod p => is_some p
  | RemoteSegment _ | Adapter _ => true
  | _ => false
  end.
Definition is_backend_reachable (a : Ipv4Addr) (t : EndpointTable) : bool :=
  match by_ip t !! a with Some ep => backend_reachable (backend ep) | None => false end.

Definition active (ep : Endpoint) : bool :=
  match flow_tracker ep with Some ft => FlowTracker.has_active_flows ft | None => false end.
Definition status_change (ep ep' : Endpoint) : option FlowStatusChange :=
  if bool_decide (active ep' = active ep) then None
  else Some {| fc_ip := ip ep; fc_service_id := backend_service_id (backend ep);
               fc_active := active ep' |}.
Definition gc_endpoint (now : Z) (ep : Endpoint) : Endpoint :=
  {| ep with flow_tracker := FlowTracker.gc now <$> flow_tracker ep |}.
Definition gc_flow_trackers (now : Z) (t : EndpointTable) : list FlowStatusChange * EndpointTable :=
  (omap (λ e, status_change e.2 (gc_endpoint now e.2)) (hash_iter (by_ip t)),
   {| t with by_ip := gc_endpoint now <$> by_ip t |}).

(** ** Dispatch ([dispatch.rs]) *)
Definition flow_key (frame : list Z) (ports : Z * Z) : FlowKey :=
  {| fk_src_ip := ipv4_src frame; fk_dst_ip := ipv4_dst frame; fk_protocol := IP_PROTO_TCP;
     fk_src_port := ports.1; fk_dst_port := ports.2 |}.
(** What the tracker is fed with: [None] where [track_flow] returns early. *)
Definition tcp_info (frame : list Z) : option (FlowKey * Z) :=
  fp ← FabricPacket_new frame;
  if negb (ip_protocol fp =? IP_PROTO_TCP) then None
  else
    ports ← transport_ports fp;
    fl ← tcp_flags fp;
    Some (flow_key fp ports, fl).
Definition track_flow (now : Z) (frame : list Z) (ep : Endpoint) : option FlowStatusChange * Endpoint :=
  match flow_tracker ep, tcp_info frame with
  | Some ft, Some (key, fl) =>
      let ep' := {| ep with flow_tracker := Some (FlowTracker.track_packet now key fl ft) |} in
      (status_change ep ep', ep')
  | _, _ => (None, ep)
  end.

Definition check_activation_debounce (debounce : Duration) (now : Z) (ep : Endpoint) : bool * Endpoint :=
  match last_activation ep with
  | Some last =>
      if saturating_sub now last <? debounce then (false, ep)
      else (true, {| ep with last_activation := Some now |})
  | None => (true, {| ep with last_activation := Some now |})
  end.

Definition try_buffer_frame (frame : list Z) (buffer_frames timeout_ms : Z) (now : Z) (ep : Endpoint) :
    BufferResult * Endpoint :=
  if buffer_frames =? 0 then (FrameDropped, ep)
  else if match buffer_start ep with
          | Some start => from_millis timeout_ms <=? saturating_sub now start
          | None => false
          end
  then (FrameDropped, drained ep)
  else if buffer_frames <=? zlen (buffer ep) then (FrameDropped, ep)
  else (FrameBuffered,
        {| ep with buffer := buffer ep ++ [frame];
                   buffer_start := Some (default now (buffer_start ep)) |}).

(** Debounce, then buffer: the common end of the three buffering paths. *)
Definition buffer_and_activate (service_id : option ServiceId) (buffer_frames timeout_ms : Z)
    (frame : list Z) (now : Z) (flow_change : option FlowStatusChange) (a : Ipv4Addr) (ep : Endpoint)
    (t : EndpointTable) : EndpointAction * bool * option FlowStatusChange * EndpointTable :=
  let '(should_activate, ep) := check_activation_debounce (activation_debounce t) now ep in
  let '(result, ep) := try_buffer_frame frame buffer_frames timeout_ms now ep in
  (match result with FrameBuffered => Buffered service_id | FrameDropped => Drop service_id end,
   should_activate, flow_change, with_endpoint a ep t).

Definition dispatch_service_buffer (s : ServiceId) (pol : ServicePolicy) (b : option Ipv4Addr)
    (processor : P) (frame : list Z) (now : Z) (flow_change : option FlowStatusChange) (a : Ipv4Addr)
    (ep : Endpoint) (t : EndpointTable) :
    EndpointAction * bool * option FlowStatusChange * EndpointTable :=
  let '(result, processor) :=
    if is_passthrough processor then (None, processor)
    else match FabricPacket_new frame with
         | Some fp => process_frame s (ip_packet fp) frame processor
         | None => (None, processor)
         end in
  let ep := with_processor s pol b processor ep in
  match result with
  | Some action => (action, false, None, with_endpoint a ep t)
  | None => buffer_and_activate (Some s) (sp_buffer_frames pol) (sp_timeout_ms pol) frame now
              flow_change a ep t
  end.

Definition forward_target (dst_ip : Ipv4Addr) (ep : Endpoint) (b : option Ipv4Addr) (t : EndpointTable) :
    option Ipv4Addr :=
  match state ep, b with
  | Ready, Some pod_ip =>
      if negb (pod_ip =? dst_ip) && is_backend_reachable pod_ip t then Some pod_ip else None
  | _, _ => None
  end.

Definition lookup_and_buffer (now : Z) (dst_ip : Ipv4Addr) (frame : list Z) (skip_flow_tracking : bool)
    (t : EndpointTable) : EndpointAction * bool * option FlowStatusChange * EndpointTable :=
  match by_ip t !! dst_ip with
  | None => (NotFound, false, None, t)
  | Some ep =>
      let '(flow_change, ep) := if skip_flow_tracking then (None, ep) else track_flow now frame ep in
      let t := with_endpoint dst_ip ep t in
      match backend ep with
      | RemoteSegment worker_id => (RemoteWorker worker_id, false, None, t)
      | Adapter port_id => (LocalAdapter port_id, false, flow_change, t)
      | Pod (Some port_id) => (LocalPod port_id, false, flow_change, t)
      | Service s pol b processor =>
          match forward_target dst_ip ep b t with
          | Some pod_ip => (ServiceForward pod_ip (ip ep), false, flow_change, t)
          | None => dispatch_service_buffer s pol b processor frame now flow_change dst_ip ep t
          end
      | UnplacedPod bp =>
          buffer_and_activate None (bp_buffer_frames bp) (bp_timeout_ms bp) frame now flow_change
            dst_ip ep t
      | Pod None => buffer_and_activate None 64 30000 frame now flow_change dst_ip ep t
      end
  end.

(** ** Configuration ([config.rs]) *)
Definition default_buffer_policy : BufferPolicy := {| bp_buffer_frames := 64; bp_timeout_ms := 30000 |}.
(** [service_id_to_ip.remove] if the endpoint at [a] is a service *)
Definition forget_service (a : Ipv4Addr) (t : EndpointTable) : EndpointTable :=
  match by_ip t !! a ≫= λ ep, backend_service_id (backend ep) with
  | Some s => {| t with service_id_to_ip := delete s (service_id_to_ip t) |}
  | None => t
  end.
Definition remove_endpoint (t : EndpointTable) (a : Ipv4Addr) : EndpointTable :=
  let t := forget_service a t in {| t with by_ip := delete a (by_ip t) |}.
Definition plain_endpoint (a : Ipv4Addr) (st : EndpointState) (buf : list (list Z)) (b : EndpointBackend)
    (ft : option FlowTracker.FlowTracker) : Endpoint :=
  {| ip := a; state := st; buffer := buf; buffer_start := None; backend := b; flow_tracker := ft;
     last_activation := None |}.

Definition apply_local_pod (a : Ipv4Addr) (t : EndpointTable) : EndpointTable :=
  let existing_port_id := by_ip t !! a ≫= λ ep, match backend ep with Pod p => p | _ => None end in
  let old_buffer := match by_ip t !! a with
    | Some ep => match backend ep with UnplacedPod _ => buffer ep | _ => [] end
    | None => []
    end in
  let t := forget_service a t in
  with_endpoint a
    (plain_endpoint a (if is_some existing_port_id then Ready else Pending) old_buffer
       (Pod existing_port_id) (if is_some existing_port_id then Some FlowTracker.new else None)) t.

Definition was_buffering (a : Ipv4Addr) (t : EndpointTable) : bool :=
  match by_ip t !! a with
  | Some ep => bool_decide (state ep = Buffering) && match buffer ep with [] => false | _ => true end
  | None => false
  end.
Definition flush_if (b : bool) (a : Ipv4Addr) : list EndpointSyncEffect :=
  if b then [FlushPodBuffer a] else [].
Definition apply_remote (a : Ipv4Addr) (w : WorkerId) (t : EndpointTable) : EndpointTable :=
  with_endpoint a (plain_endpoint a Ready [] (RemoteSegment w) None) t.
Definition apply_unplaced (a : Ipv4Addr) (t : EndpointTable) : EndpointTable :=
  match by_ip t !! a with
  | Some _ => t
  | None => with_endpoint a (plain_endpoint a Buffering [] (UnplacedPod default_buffer_policy) None) t
  end.

Definition apply_adapter (a : Ipv4Addr) (port_id : PortId) (t : EndpointTable) :
    list EndpointSyncEffect * EndpointTable :=
  let old_frames := match by_ip t !! a with Some ep => buffer ep | None => [] end in
  let t := forget_service a t in
  (match old_frames with [] => [] | _ => [FlushAdapterBuffer a port_id old_frames] end,
   with_endpoint a (plain_endpoint a Ready [] (Adapter port_id) None) t).

(** Updating a service in place; [None] for the backend resets demand and debounce. *)
Definition should_clear (old new : option Ipv4Addr) : bool :=
  match old, new with
  | _, None => true
  | Some o, Some n => negb (o =? n)
  | None, Some _ => false
  end.
Definition reuse_service (a : Ipv4Addr) (s : ServiceId) (pol : ServicePolicy) (st : EndpointState)
    (b old_b : option Ipv4Addr) (processor : P) (ep : Endpoint) (t : EndpointTable) :
    list EndpointSyncEffect * EndpointTable :=
  let old_state := state ep in
  let gone := if is_none b && active ep
    then [FlowStatus {| fc_ip := a; fc_service_id := Some s; fc_active := false |}] else [] in
  let ep := if should_clear old_b b then drained ep else ep in
  let ep := if is_none b then {| ep with last_activation := None; flow_tracker := None |} else ep in
  let ep := {| ep with state := st;
                       backend := Service s pol b (on_backend_update (is_some b) b processor) |} in
  (gone ++ (if bool_decide (st = Ready) && negb (bool_decide (old_state = Ready))
            then [ServiceReady s] else []),
   with_endpoint a ep t).

Definition create_service (make_processor : ServiceId → ServicePolicy → Ipv4Addr → P) (a : Ipv4Addr)
    (s : ServiceId) (pol : ServicePolicy) (st : EndpointState) (b : option Ipv4Addr)
    (t : EndpointTable) : list EndpointSyncEffect * EndpointTable :=
  let processor := make_processor s pol a in
  let ft := if is_passthrough processor then Some FlowTracker.new else None in
  let t := match by_ip t !! a ≫= λ ep, backend_service_id (backend ep) with
    | Some old => if old =? s then t
                  else {| t with service_id_to_ip := delete old (service_id_to_ip t) |}
    | None => t
    end in
  let t := with_endpoint a (plain_endpoint a st [] (Service s pol b processor) ft) t in
  (if bool_decide (st = Ready) then [ServiceReady s] else [],
   {| t with service_id_to_ip := <[s := a]> (service_id_to_ip t) |}).

Definition new_service_state (backend : option EndpointPodBackend) :
    EndpointState * option Ipv4Addr :=
  match backend with
  | None => (Buffering, None)
  | Some be => (if epb_ready be then Ready else Pending, Some (epb_pod_ip be))
  end.
Definition apply_service (make_processor : ServiceId → ServicePolicy → Ipv4Addr → P) (a : Ipv4Addr)
    (s : ServiceId) (pol : ServicePolicy) (backend_spec : option EndpointPodBackend) (t : EndpointTable) :
    list EndpointSyncEffect * EndpointTable :=
  let '(st, b) := new_service_state backend_spec in
  match by_ip t !! a with
  | Some ep =>
      match backend ep with
      | Service existing_id existing_policy old_b processor =>
          if (existing_id =? s) && bool_decide (sp_ports existing_policy = sp_ports pol)
          then reuse_service a s pol st b old_b processor ep t
          else create_service make_processor a s pol st b t
      | _ => create_service make_processor a s pol st b t
      end
  | None => create_service make_processor a s pol st b t
  end.

Section Config.
Context (my_worker_id : WorkerId) (make_processor : ServiceId → ServicePolicy → Ipv4Addr → P)
  (adapter_port_id : option PortId).

Definition apply_single_spec (spec : EndpointSpec) (t : EndpointTable) :
    list EndpointSyncEffect * EndpointTable :=
  let a := esp_ip spec in
  match esp_kind spec with
  | KindPod (Some p) =>
      if epl_worker_id p =? my_worker_id then ([], apply_local_pod a t)
      else (flush_if (was_buffering a t) a, apply_remote a (epl_worker_id p) t)
  | KindPod None | KindWireGuardPeer None => ([], apply_unplaced a t)
  | KindWireGuardPeer (Some p) =>
      if epl_worker_id p =? my_worker_id then
        match adapter_port_id with
        | Some port_id => apply_adapter a port_id t
        | None => ([], t)
        end
      else (flush_if (was_buffering a t) a, apply_remote a (epl_worker_id p) (forget_service a t))
  | KindService s pol backend_spec => apply_service make_processor a s pol backend_spec t
  end.

Definition apply_specs (specs : list EndpointSpec) (t : EndpointTable) :
    list EndpointSyncEffect * EndpointTable :=
  foldl (λ '(effects, t) spec, let '(e, t) := apply_single_spec spec t in (effects ++ e, t)) ([], t) specs.

Definition apply_endpoint_sync (specs : list EndpointSpec) (t : EndpointTable) :
    list EndpointSyncEffect * EndpointTable :=
  let new_ips := esp_ip <$> specs in
  let to_remove := filter (λ a, a ∉ new_ips) (hash_iter (by_ip t)).*1 in
  apply_specs specs (foldl remove_endpoint t to_remove).

Definition apply_endpoint_update (upserted : list EndpointSpec) (removed_ips : list Ipv4Addr)
    (t : EndpointTable) : list EndpointSyncEffect * EndpointTable :=
  apply_specs upserted (foldl remove_endpoint t removed_ips).
End Config.

End Table.
Arguments EndpointBackend P : clear implicits.
Arguments Endpoint P : clear implicits.
Arguments EndpointTable P : clear implicits.
End EndpointTable.
