(* ===== verification/EndpointTableInv.v ===== *)
(** * Properties of the endpoint table

    [consistent]: over any sequence of operations the table stays well formed, a port
    serves at most one pod and the index of services is exact.  [starting]: what is sent
    to a pod before it runs is delivered to it.  [debounce]: how often an endpoint asks
    for activation.  [demand]: what the table has reported of the flows of an endpoint. *)

From S2P Require Import Prelude SmTypes Protocol Flow Checksum Frame Processor EndpointTable.

Module EndpointTableInv.
Import Checksum Frame Processor EndpointTable.

Section Inv.
Context `{ProcessorOps P} `{!HashIter Z}.
Implicit Types (t : EndpointTable P) (ep : Endpoint P).

(** ** The invariant *)
Record ep_ok (a : Ipv4Addr) ep : Prop := {
  ok_ip : ip ep = a;
  ok_start : buffer ep = [] → buffer_start ep = None;
  ok_kind : match backend ep with
    | Service _ _ b _ => state ep = Buffering ↔ b = None
    | UnplacedPod bp =>
        bp = default_buffer_policy ∧ state ep = Buffering ∧ flow_tracker ep = None ∧
        zlen (buffer ep) ≤ 64
    | RemoteSegment _ | Adapter _ => state ep = Ready ∧ buffer ep = [] ∧ flow_tracker ep = None
    | Pod p =>
        state ep = (if is_some p then Ready else Pending) ∧ zlen (buffer ep) ≤ 64 ∧
        (is_Some p → buffer ep = [] ∧ is_Some (flow_tracker ep))
    end;
}.
Definition svc_at t (s : ServiceId) (a : Ipv4Addr) : Prop :=
  ∃ ep, by_ip t !! a = Some ep ∧ backend_service_id (backend ep) = Some s.
Definition attached t (p : PortId) (a : Ipv4Addr) : Prop :=
  ∃ ep, by_ip t !! a = Some ep ∧ backend ep = Pod (Some p).
Record good t : Prop := {
  g_ok : ∀ a ep, by_ip t !! a = Some ep → ep_ok a ep;
  g_ports : ∀ p a a', attached t p a → attached t p a' → a = a';
  g_map : ∀ s a, service_id_to_ip t !! s = Some a ↔ svc_at t s a;
}.

(** ** Operations *)
Inductive table_op :=
  | Sync (w : WorkerId) (mk : ServiceId → ServicePolicy → Ipv4Addr → P) (port : option PortId)
      (specs : list EndpointSpec)
  | Update (w : WorkerId) (mk : ServiceId → ServicePolicy → Ipv4Addr → P) (port : option PortId)
      (upserted : list EndpointSpec) (removed : list Ipv4Addr)
  | Lookup (now : Z) (dst : Ipv4Addr) (frame : list Z) (skip_flow_tracking : bool)
  | MarkReady (s : ServiceId)
  | FlushPod (a : Ipv4Addr)
  | FlushBackend (a : Ipv4Addr)
  | Attach (a : Ipv4Addr) (p : PortId)
  | Detach (p : PortId)
  | Gc (now : Z)
  | TimeoutAt (a : Ipv4Addr).
Definition run_op t (o : table_op) : EndpointTable P :=
  match o with
  | Sync w mk port specs => (apply_endpoint_sync w mk port specs t).2
  | Update w mk port ups rem => (apply_endpoint_update w mk port ups rem t).2
  | Lookup now dst frame skip => (lookup_and_buffer now dst frame skip t).2
  | MarkReady s => (mark_service_ready s t).2
  | FlushPod a => (flush_pod_buffer a t).2
  | FlushBackend a => (flush_by_backend_ip a t).2
  | Attach a p => (attach_port a p t).2
  | Detach p => detach_port p t
  | Gc now => (gc_flow_trackers now t).2
  | TimeoutAt a => (handle_timeout_for_ip a t).2
  end.

(** A service keeps its address while the table knows it, and the address of a service
    is not given to a pod on another worker before the service is removed. *)
Definition tidy_spec (w : WorkerId) (spec : EndpointSpec) t : Prop :=
  match esp_kind spec with
  | KindService s _ _ => ∀ a, svc_at t s a → a = esp_ip spec
  | KindPod (Some p) => epl_worker_id p ≠ w → ∀ s, ¬ svc_at t s (esp_ip spec)
  | _ => True
  end.
Fixpoint tidy_specs w mk port (specs : list EndpointSpec) t : Prop :=
  match specs with
  | [] => True
  | spec :: specs => tidy_spec w spec t ∧ tidy_specs w mk port specs (apply_single_spec w mk port spec t).2
  end.
(** Ports are fresh when they are attached. *)
Definition allowed t (o : table_op) : Prop :=
  match o with
  | Sync w mk port specs =>
      tidy_specs w mk port specs
        (foldl remove_endpoint t (filter (λ a, a ∉ esp_ip <$> specs) (hash_iter (by_ip t)).*1))
  | Update w mk port ups rem => tidy_specs w mk port ups (foldl remove_endpoint t rem)
  | Attach _ p => ∀ a, ¬ attached t p a
  | _ => True
  end.
Inductive reach : EndpointTable P → Prop :=
  | reach_new : reach new
  | reach_op t o : reach t → allowed t o → reach (run_op t o).

(** ** Preservation *)
Lemma by_ip_with a ep t a' :
  by_ip (with_endpoint a ep t) !! a' = if decide (a' = a) then Some ep else by_ip t !! a'.
Proof.
  simpl. case_decide as Ha; [subst; by rewrite lookup_insert_eq|by rewrite lookup_insert_ne].
Qed.

Lemma good_update a ep ep' t :
  good t → by_ip t !! a = Some ep → ep_ok a ep' →
  backend_service_id (backend ep') = backend_service_id (backend ep) →
  (∀ p, backend ep' = Pod (Some p) → ∀ a', attached t p a' → a' = a) →
  good (with_endpoint a ep' t).
Proof.
  intros [Hok Hp Hm] Ha Hep Hs Hpt. split.
  - intros a' e. rewrite by_ip_with. case_decide; [by intros [= <-]; subst|by apply Hok].
  - intros p a1 a2 (e1 & H1 & B1) (e2 & H2 & B2). rewrite by_ip_with in H1, H2.
    repeat case_decide; simplify_eq; try done.
    + apply (Hpt p); [done|by exists e1].
    + symmetry. apply (Hpt p); [done|by exists e2].
    + apply (Hp p); [by exists e1|by exists e2].
  - intros s a'. simpl. rewrite Hm. unfold svc_at. setoid_rewrite by_ip_with. case_decide; [subst|done].
    split; intros (e & He & Hb); simplify_eq; eexists; (split; [done|congruence]).
Qed.

Lemma good_same a ep ep' t :
  good t → by_ip t !! a = Some ep → ep_ok a ep' → 
  backend ep' = backend ep → good (with_endpoint a ep' t).
Proof.
  intros Hg Ha Hep Hb. eapply good_update; try done; [by rewrite Hb|].
  intros p Hp a' Hat. eapply g_ports; [done..|]. exists ep. by rewrite <- Hb.
Qed.

Lemma good_fmap (f : Endpoint P → Endpoint P) t :
  (∀ a ep, ep_ok a ep → ep_ok a (f ep)) → (∀ ep, backend (f ep) = backend ep) →
  good t → good {| t with by_ip := f <$> by_ip t |}.
Proof.
  intros Hf Hb [Hok Hp Hm].
  assert (Hat : ∀ p a, attached {| t with by_ip := f <$> by_ip t |} p a → attached t p a).
  { intros p a (e & (e' & <- & He)%lookup_fmap_Some & Hbe). exists e'. by rewrite <- Hb. }
  split; simpl.
  - intros a ep (e & <- & He)%lookup_fmap_Some. by apply Hf, Hok.
  - eauto.
  - intros s a. rewrite Hm. split.
    + intros (e & He & Hs). exists (f e). simpl. rewrite lookup_fmap, He, Hb. done.
    + intros (e & (e' & <- & He)%lookup_fmap_Some & Hs). exists e'. by rewrite Hb in Hs.
Qed.

Lemma drained_ok a ep : ep_ok a ep → ep_ok a (drained ep).
Proof. intros [Hip Hst Hk]. split; [done|done|]. simpl.
  destruct (backend ep); [done| | | |].
  - by destruct Hk as (? & ? & ? & ?).
  - by destruct Hk as (? & ? & ?).
  - by destruct Hk as (? & ? & ?).
  - destruct Hk as (? & ? & Hp). split_and!; [done|done|]. by intros [? ?]%Hp.
Qed.

Lemma gc_ok now a ep : ep_ok a ep → ep_ok a (gc_endpoint now ep).
Proof.
  intros [Hip Hst Hk]. split; [done|done|]. simpl.
  destruct (backend ep); [done| | | |]; destruct (flow_tracker ep); naive_solver.
Qed.

Lemma track_ok now frame a ep : ep_ok a ep → ep_ok a (track_flow now frame ep).2.
Proof.
  intros Hok. unfold track_flow. destruct (flow_tracker ep) as [ft|] eqn:Eft; [|done].
  destruct (tcp_info frame) as [[key fl]|]; [|done]. destruct Hok as [Hip Hst Hk].
  rewrite Eft in Hk. split; [done|done|]. simpl. destruct (backend ep); naive_solver.
Qed.

Lemma track_backend now frame ep : backend (track_flow now frame ep).2 = backend ep.
Proof. unfold track_flow. by destruct (flow_tracker ep), (tcp_info frame) as [[??]|]. Qed.

Lemma debounce_fields d now ep :
  let ep' := (check_activation_debounce d now ep).2 in
  ip ep' = ip ep ∧ state ep' = state ep ∧ buffer ep' = buffer ep ∧
  buffer_start ep' = buffer_start ep ∧ backend ep' = backend ep ∧ flow_tracker ep' = flow_tracker ep.
Proof.
  unfold check_activation_debounce. destruct (last_activation ep); [|done]. by destruct (_ <? _).
Qed.

Lemma debounce_ok d now a ep : ep_ok a ep → ep_ok a (check_activation_debounce d now ep).2.
Proof.
  intros [Hip Hst Hk]. pose proof (debounce_fields d now ep) as (E1 & E2 & E3 & E4 & E5 & E6).
  split; by rewrite ?E1, ?E2, ?E3, ?E4, ?E5, ?E6.
Qed.

Lemma try_buffer_fields frame n ms now ep :
  let ep' := (try_buffer_frame frame n ms now ep).2 in
  ip ep' = ip ep ∧ state ep' = state ep ∧ backend ep' = backend ep ∧
  flow_tracker ep' = flow_tracker ep ∧ last_activation ep' = last_activation ep ∧
  (buffer ep' = [] → buffer_start ep' = None ∨ buffer_start ep' = buffer_start ep ∧ buffer ep = []) ∧
  (zlen (buffer ep) ≤ n → zlen (buffer ep') ≤ n).
Proof.
  unfold try_buffer_frame. destruct (n =? 0) eqn:En; [naive_solver|].
  destruct (match buffer_start ep with Some _ => _ | None => _ end);
    [simpl; apply Z.eqb_neq in En; naive_solver lia|].
  destruct (_ <=? _) eqn:El; [naive_solver|]. simpl.
  apply Z.leb_gt in El. split_and!; try done.
  - intros E. by destruct (buffer ep).
  - rewrite length_app. simpl. lia.
Qed.

(** An endpoint that buffers: anything but one that forwards. *)
Definition buffers (n : Z) ep : Prop :=
  match backend ep with
  | Service _ _ _ _ => True
  | UnplacedPod _ | Pod None => n = 64
  | _ => False
  end.
Lemma try_buffer_ok frame n ms now a ep :
  buffers n ep → ep_ok a ep → ep_ok a (try_buffer_frame frame n ms now ep).2.
Proof.
  intros Hb [Hip Hst Hk].
  destruct (try_buffer_fields frame n ms now ep) as (E1 & E2 & E3 & E4 & _ & E5 & E6).
  unfold buffers in Hb. split; rewrite ?E1, ?E2, ?E3, ?E4; [done| |].
  { intros Hn. destruct (E5 Hn) as [?|[-> ?]]; [done|by apply Hst]. }
  destruct (backend ep) as [| | | |[]]; try done; subst n.
  - destruct Hk as (? & ? & ? & ?). split_and!; try done. by apply E6.
  - destruct Hk as (? & ? & ?). split_and!; [done|by apply E6|by intros []].
Qed.

Lemma buffer_and_activate_good svc n ms frame now fc a ep t :
  good t → by_ip t !! a = Some ep → buffers n ep →
  good (buffer_and_activate svc n ms frame now fc a ep t).2.
Proof.
  intros Hg Ha Hb. unfold buffer_and_activate.
  pose proof (debounce_ok (activation_debounce t) now a ep (g_ok _ Hg _ _ Ha)) as Hok.
  pose proof (debounce_fields (activation_debounce t) now ep) as (_ & _ & _ & _ & E & _).
  destruct (check_activation_debounce _ now ep) as [act ep1]; simpl in *.
  assert (Hb1 : buffers n ep1) by (unfold buffers; by rewrite E).
  pose proof (try_buffer_ok frame n ms now a ep1 Hb1 Hok) as Hok2.
  destruct (try_buffer_fields frame n ms now ep1) as (_ & _ & E3 & _).
  destruct (try_buffer_frame frame n ms now ep1) as [res ep2]; simpl in *.
  apply (good_same a ep); try done. congruence.
Qed.

Lemma with_processor_ok s pol b p p' a ep :
  backend ep = Service s pol b p → ep_ok a ep → ep_ok a (with_processor s pol b p' ep).
Proof. intros Hb [Hip Hst Hk]. rewrite Hb in Hk. by split. Qed.

Lemma with_processor_good s pol b p p' a ep t :
  good t → by_ip t !! a = Some ep → backend ep = Service s pol b p →
  good (with_endpoint a (with_processor s pol b p' ep) t).
Proof.
  intros Hg Ha Hb. apply (good_update a ep); try done.
  - eapply with_processor_ok; [done|by apply Hg].
  - simpl. by rewrite Hb.
Qed.

Lemma with_endpoint_twice a ep ep' t :
  with_endpoint a ep' (with_endpoint a ep t) = with_endpoint a ep' t.
Proof. unfold with_endpoint. simpl. by rewrite insert_insert_eq. Qed.

Lemma dispatch_service_buffer_good s pol b p frame now fc a ep t :
  good t → by_ip t !! a = Some ep → backend ep = Service s pol b p →
  good (dispatch_service_buffer s pol b p frame now fc a ep t).2.
Proof.
  intros Hg Ha Hb. unfold dispatch_service_buffer.
  destruct (if is_passthrough p then _ else _) as [res p'].
  pose proof (with_processor_good s pol b p p' a ep t Hg Ha Hb) as Hg'.
  destruct res; [done|]. set (ep' := with_processor s pol b p' ep) in *.
  pose proof (buffer_and_activate_good (Some s) (sp_buffer_frames pol) (sp_timeout_ms pol) frame now fc
    a ep' (with_endpoint a ep' t) Hg') as Hba.
  rewrite by_ip_with, decide_True in Hba by done. specialize (Hba eq_refl I).
  unfold buffer_and_activate in *.
  destruct (check_activation_debounce _ now ep') as [act ep1].
  destruct (try_buffer_frame _ _ _ now ep1) as [r ep2]. simpl in Hba |- *.
  by rewrite with_endpoint_twice in Hba.
Qed.

Lemma lookup_good now dst frame skip t :
  good t → good (lookup_and_buffer now dst frame skip t).2.
Proof.
  intros Hg. unfold lookup_and_buffer. destruct (by_ip t !! dst) as [ep|] eqn:Ed; [|done].
  pose proof (g_ok _ Hg _ _ Ed) as Hok.
  assert (∃ fc ep', (if skip then (None, ep) else track_flow now frame ep) = (fc, ep') ∧
    ep_ok dst ep' ∧ backend ep' = backend ep) as (fc & ep' & -> & Hok' & Hb).
  { destruct skip; [by eexists _, _|]. exists (track_flow now frame ep).1, (track_flow now frame ep).2.
    split_and!; [by destruct (track_flow _ _ _)|by apply track_ok|apply track_backend]. }
  pose proof (good_same dst ep ep' t Hg Ed Hok' Hb) as Hg'.
  assert (Ed' : by_ip (with_endpoint dst ep' t) !! dst = Some ep') by by rewrite by_ip_with, decide_True.
  destruct (backend ep') as [s pol b p|bp|w|p|[p|]] eqn:Eb; try done.
  - destruct (forward_target _ _ _ _); [done|]. by apply dispatch_service_buffer_good.
  - pose proof (ok_kind _ _ Hok') as Hk. rewrite Eb in Hk. destruct Hk as (-> & _).
    apply buffer_and_activate_good; [done|done|]. unfold buffers. by rewrite Eb.
  - apply buffer_and_activate_good; [done|done|]. unfold buffers. by rewrite Eb.
Qed.

Lemma mark_ready_good s t : good t → good (mark_service_ready s t).2.
Proof.
  intros Hg. unfold mark_service_ready. destruct (service_id_to_ip t !! s) as [a|]; [|done]. simpl.
  destruct (by_ip t !! a) as [ep|] eqn:Ea; [|done]. simpl.
  destruct (backend ep) as [s' pol [b|] p|bp|w|p|p] eqn:Eb; try done.
  pose proof (g_ok _ Hg _ _ Ea) as [Hip Hst Hk].
  destruct (on_mark_ready s' p) as [[act|] p']; [destruct (has_stream_manager p')|]; simpl;
    (apply (good_update a ep); [done|done| |by rewrite Eb|done]); by split.
Qed.

Lemma flush_pod_good a t : good t → good (flush_pod_buffer a t).2.
Proof.
  intros Hg. unfold flush_pod_buffer. destruct (by_ip t !! a) as [ep|] eqn:Ea; [|done].
  destruct (backend ep) eqn:Eb; try done;
    (apply (good_same a ep); [done|done|by apply drained_ok, Hg|done]).
Qed.

Lemma flush_backend_good a t : good t → good (flush_by_backend_ip a t).2.
Proof.
  apply good_fmap; intros; destruct (flushable a _); try done. by apply drained_ok.
Qed.

Lemma attach_good a p t : (∀ a', ¬ attached t p a') → good t → good (attach_port a p t).2.
Proof.
  intros Hfresh Hg. unfold attach_port. destruct (by_ip t !! a) as [ep|] eqn:Ea; [|done].
  destruct (backend ep) eqn:Eb; try done. pose proof (g_ok _ Hg _ _ Ea) as [Hip _ _].
  apply (good_update a ep); [done|done| |by rewrite Eb|].
  - split; [done|done|]. simpl. split_and!; [done|done|]. intros _. eauto.
  - simpl. intros p' [= <-] a' Hat. by destruct (Hfresh a').
Qed.

Lemma detach_port_spec p t :
  (detach_port p t = t ∧ ∀ a, ¬ attached t p a) ∨
  ∃ a ep, by_ip t !! a = Some ep ∧ backend ep = Pod (Some p) ∧
    detach_port p t = with_endpoint a {| ep with backend := Pod None; state := Pending |} t.
Proof.
  unfold detach_port. destruct (find_map _ _) as [[a ep]|] eqn:E.
  - right. apply find_map_Some in E as ([a' e] & Hin%elem_of_hash_iter & Hf).
    destruct (has_port p e) eqn:Ep; simplify_eq. exists a, ep. split_and!; [done| |done].
    unfold has_port in Ep. destruct (backend ep) as [| | | |[q|]]; try done.
    apply Z.eqb_eq in Ep. by subst.
  - left. split; [done|]. intros a (ep & Ha & Hb). rewrite find_map_None in E.
    specialize (E (a, ep)). rewrite elem_of_hash_iter in E. specialize (E Ha). unfold has_port in E.
    by rewrite Hb, Z.eqb_refl in E.
Qed.

Lemma detach_good p t : good t → good (detach_port p t).
Proof.
  intros Hg. destruct (detach_port_spec p t) as [[-> _]|(a & ep & Ha & Hb & ->)]; [done|].
  pose proof (g_ok _ Hg _ _ Ha) as [Hip Hst Hk]. rewrite Hb in Hk. destruct Hk as (_ & ? & [Hbuf _]); [eauto|].
  apply (good_update a ep); [done|done| |by rewrite Hb|done].
  split; simpl; [done|done|]. split_and!; [done|by rewrite Hbuf|by intros []].
Qed.

Lemma timeout_good a t : good t → good (handle_timeout_for_ip a t).2.
Proof.
  intros Hg. unfold handle_timeout_for_ip. destruct (by_ip t !! a) as [ep|] eqn:Ea; [|done].
  destruct (backend ep) as [s pol b p|bp|w|p|p] eqn:Eb; try done.
  destruct (handle_timeout s p) as [r p']. by eapply with_processor_good.
Qed.

(** *** Configuration *)
Lemma forget_service_fields a t :
  by_ip (forget_service a t) = by_ip t ∧ activation_debounce (forget_service a t) = activation_debounce t.
Proof. unfold forget_service. by destruct (_ ≫= _). Qed.

Lemma forget_service_map a t s a' :
  good t →
  service_id_to_ip (forget_service a t) !! s = Some a' ↔ svc_at t s a' ∧ a' ≠ a.
Proof.
  intros Hg. unfold forget_service. destruct (by_ip t !! a) as [ep|] eqn:Ea; simpl.
  - destruct (backend_service_id (backend ep)) as [s0|] eqn:Es; simpl.
    + rewrite lookup_delete_Some, (g_map _ Hg). split.
      * intros [Hne Hs]. split; [done|]. intros ->. destruct Hs as (e & He & Hs). congruence.
      * intros [Hs Hne]. split; [|done]. intros <-. apply Hne.
        apply (g_map _ Hg) in Hs. assert (Hs2 : svc_at t s0 a) by by exists ep.
        apply (g_map _ Hg) in Hs2. congruence.
    + rewrite (g_map _ Hg). split; [|tauto]. intros Hs. split; [done|]. intros ->.
      destruct Hs as (e & He & Hs). congruence.
  - rewrite (g_map _ Hg). split; [|tauto]. intros Hs. split; [done|]. intros ->.
    destruct Hs as (e & He & Hs). congruence.
Qed.

Lemma remove_good t a : good t → good (remove_endpoint t a).
Proof.
  intros Hg. unfold remove_endpoint. destruct (forget_service_fields a t) as [E _].
  pose proof (λ s a', forget_service_map a t s a' Hg) as Hm. destruct Hg as [Hok Hp _].
  split; simpl; rewrite E.
  - intros a' ep [Hne Ha]%lookup_delete_Some. by apply Hok.
  - intros p a1 a2 (e1 & H1 & B1) (e2 & H2 & B2). simpl in *.
    apply lookup_delete_Some in H1 as [_ H1], H2 as [_ H2].
    apply (Hp p); [by exists e1|by exists e2].
  - intros s a'. rewrite Hm. unfold svc_at. simpl. setoid_rewrite lookup_delete_Some.
    naive_solver.
Qed.

Lemma remove_all_good l t : good t → good (foldl remove_endpoint t l).
Proof. revert t. induction l as [|a l IH]; intros t Hg; [done|]. by apply IH, remove_good. Qed.

(** Replacing the endpoint at [a] by one that is no service, the index having
    forgotten the service there. *)
Lemma replace_good a ep t :
  good t → ep_ok a ep → backend_service_id (backend ep) = None →
  (∀ p, backend ep = Pod (Some p) → ∀ a', attached t p a' → a' = a) →
  good (with_endpoint a ep (forget_service a t)).
Proof.
  intros Hg Hep Hs Hpt. destruct (forget_service_fields a t) as [E _].
  pose proof (λ s a', forget_service_map a t s a' Hg) as Hm. destruct Hg as [Hok Hp _]. split.
  - intros a' e. rewrite by_ip_with, E. case_decide; [by intros [= <-]; subst|by apply Hok].
  - intros p a1 a2 (e1 & H1 & B1) (e2 & H2 & B2). rewrite by_ip_with, E in H1, H2.
    repeat case_decide; simplify_eq; try done.
    + apply (Hpt p); [done|by exists e1].
    + symmetry. apply (Hpt p); [done|by exists e2].
    + apply (Hp p); [by exists e1|by exists e2].
  - intros s a'. rewrite (Hm s a' : service_id_to_ip (with_endpoint a ep (forget_service a t)) !! s = _ ↔ _).
    unfold svc_at. setoid_rewrite by_ip_with. rewrite E. case_decide; naive_solver.
Qed.

Lemma plain_ok a st buf b ft : 
  match b with
  | Service _ _ b _ => st = Buffering ↔ b = None
  | UnplacedPod bp => bp = default_buffer_policy ∧ st = Buffering ∧ ft = None ∧ zlen buf ≤ 64
  | RemoteSegment _ | Adapter _ => st = Ready ∧ buf = [] ∧ ft = None
  | Pod p => st = (if is_some p then Ready else Pending) ∧ zlen buf ≤ 64 ∧
             (is_Some p → buf = [] ∧ is_Some ft)
  end → ep_ok a (plain_endpoint a st buf b ft).
Proof. by split. Qed.

Lemma forget_no_service a t : (∀ s, ¬ svc_at t s a) → forget_service a t = t.
Proof.
  intros Hn. unfold forget_service. destruct (by_ip t !! a) as [ep|] eqn:Ea; [|done]. simpl.
  destruct (backend_service_id (backend ep)) as [s|] eqn:Es; [|done]. destruct (Hn s). by exists ep.
Qed.

Lemma local_pod_good a t : good t → good (apply_local_pod a t).
Proof.
  intros Hg. unfold apply_local_pod.
  destruct (by_ip t !! a) as [ep|] eqn:Ea; simpl; cycle 1.
  { apply replace_good; [done| |done|done]. by apply plain_ok. }
  pose proof (ok_kind _ _ (g_ok _ Hg _ _ Ea)) as Hk.
  destruct (backend ep) as [s pol b p|bp|w|p|[p|]] eqn:Eb; simpl;
    (apply replace_good; [done|apply plain_ok|done|]); try done.
  - destruct Hk as (_ & _ & _ & ?). split_and!; [done|done|by intros []].
  - intros q [= <-] a' Hat. eapply (g_ports _ Hg); [done|]. by exists ep.
Qed.

Lemma remote_good a w t : good t → good (apply_remote a w (forget_service a t)).
Proof. intros Hg. apply replace_good; [done|by apply plain_ok|done|done]. Qed.

Lemma unplaced_good a t : good t → good (apply_unplaced a t).
Proof.
  intros Hg. unfold apply_unplaced. destruct (by_ip t !! a) as [ep|] eqn:Ea; [done|].
  rewrite <- (forget_no_service a t) by (intros s (e & He & _); congruence).
  apply replace_good; [done|by apply plain_ok|done|done].
Qed.

Lemma reuse_service_good a s pol pol' st b old_b p ep t :
  good t → by_ip t !! a = Some ep → backend ep = Service s pol' old_b p →
  (st = Buffering ↔ b = None) →
  good (reuse_service a s pol st b old_b p ep t).2.
Proof.
  intros Hg Ha Hb Hst. unfold reuse_service. simpl. pose proof (g_ok _ Hg _ _ Ha) as [Hip Hs _].
  apply (good_update a ep); [done|done| |by rewrite Hb|done].
  destruct (should_clear old_b b), (is_none b); by split.
Qed.

Lemma create_service_good mk a s pol st b t :
  good t → (∀ a', svc_at t s a' → a' = a) → (st = Buffering ↔ b = None) →
  good (create_service mk a s pol st b t).2.
Proof.
  intros Hg Hone Hst. unfold create_service. simpl.
  set (t1 := match _ ≫= _ with Some old => _ | None => t end).
  assert (by_ip t1 = by_ip t ∧ ∀ s', s' ≠ s →
    service_id_to_ip t1 !! s' = service_id_to_ip (forget_service a t) !! s') as [E1 Em].
  { unfold t1, forget_service. destruct (by_ip t !! a ≫= _) as [old|]; [|done].
    destruct (old =? s) eqn:Eo; [|done]. split; [done|]. intros s' Hne. simpl.
    apply Z.eqb_eq in Eo as ->. by rewrite lookup_delete_ne. }
  pose proof (λ s a', forget_service_map a t s a' Hg) as Hm. destruct Hg as [Hok Hp _].
  split; simpl; rewrite E1.
  - intros a' e. destruct (decide (a' = a)) as [->|Hne].
    + rewrite lookup_insert_eq. intros [= <-]. by apply plain_ok.
    + rewrite lookup_insert_ne by done. apply Hok.
  - intros q a1 a2 (e1 & H1 & B1) (e2 & H2 & B2). simpl in *.
    apply lookup_insert_Some in H1 as [[? <-]|[_ H1]]; [done|].
    apply lookup_insert_Some in H2 as [[? <-]|[_ H2]]; [done|].
    apply (Hp q); [by exists e1|by exists e2].
  - intros s' a'. unfold svc_at. simpl. destruct (decide (s' = s)) as [->|Hne].
    + rewrite lookup_insert_eq. split.
      * intros [= <-]. rewrite lookup_insert_eq. by eexists.
      * intros (e & [[-> <-]|[Hna He]]%lookup_insert_Some & Hs); [done|].
        f_equal. symmetry. apply Hone. by exists e.
    + rewrite lookup_insert_ne, Em, Hm by done. split.
      * intros [(e & He & Hs) Hna]. exists e. by rewrite lookup_insert_ne.
      * intros (e & [[-> <-]|[Hna He]]%lookup_insert_Some & Hs); [simpl in Hs; congruence|].
        split; [by exists e|done].
Qed.

Lemma apply_service_good mk a s pol be t :
  good t → (∀ a', svc_at t s a' → a' = a) → good (apply_service mk a s pol be t).2.
Proof.
  intros Hg Hone. unfold apply_service.
  assert (Hst : (new_service_state be).1 = Buffering ↔ (new_service_state be).2 = None)
    by (destruct be as [[? ? []]|]; done).
  destruct (new_service_state be) as [st b]. simpl in Hst.
  destruct (by_ip t !! a) as [ep|] eqn:Ea; [|by apply create_service_good].
  destruct (backend ep) as [s' pol' old p| | | |] eqn:Eb; try by apply create_service_good.
  destruct (s' =? s) eqn:Es; [|by apply create_service_good]. apply Z.eqb_eq in Es as ->.
  destruct (bool_decide _); [|by apply create_service_good]. simpl.
  by eapply reuse_service_good.
Qed.

Lemma apply_single_good w mk port spec t :
  good t → tidy_spec w spec t → good (apply_single_spec w mk port spec t).2.
Proof.
  intros Hg Htidy. unfold apply_single_spec, tidy_spec in *.
  destruct (esp_kind spec) as [s pol be|[p|]|[p|]]; simpl.
  - by apply apply_service_good.
  - destruct (epl_worker_id p =? w) eqn:Ew; simpl; [by apply local_pod_good|].
    apply Z.eqb_neq in Ew. rewrite <- (forget_no_service (esp_ip spec) t) by (intros; by apply Htidy).
    by apply remote_good.
  - by apply unplaced_good.
  - destruct (epl_worker_id p =? w); simpl; [|by apply remote_good]. destruct port as [q|]; [|done].
    simpl. apply replace_good; [done|by apply plain_ok|done|done].
  - by apply unplaced_good.
Qed.

Lemma apply_specs_snd w mk port specs t :
  (apply_specs w mk port specs t).2 =
  foldl (λ t spec, (apply_single_spec w mk port spec t).2) t specs.
Proof.
  unfold apply_specs. generalize (@nil EndpointSyncEffect). revert t.
  induction specs as [|spec specs IH]; intros t effs; [done|]. simpl.
  destruct (apply_single_spec w mk port spec t) as [e t']. by rewrite IH.
Qed.

Lemma apply_specs_good w mk port specs t :
  good t → tidy_specs w mk port specs t → good (apply_specs w mk port specs t).2.
Proof.
  rewrite apply_specs_snd. revert t. induction specs as [|spec specs IH]; intros t Hg Ht; [done|].
  destruct Ht as [H1 H2]. apply IH; [|done]. by apply apply_single_good.
Qed.

Lemma run_op_good t o : good t → allowed t o → good (run_op t o).
Proof.
  intros Hg Ha. destruct o; simpl in *.
  - unfold apply_endpoint_sync. apply apply_specs_good; [by apply remove_all_good|done].
  - unfold apply_endpoint_update. apply apply_specs_good; [by apply remove_all_good|done].
  - by apply lookup_good.
  - by apply mark_ready_good.
  - by apply flush_pod_good.
  - by apply flush_backend_good.
  - by apply attach_good.
  - by apply detach_good.
  - apply good_fmap; [|done|done]. intros; by apply gc_ok.
  - by apply timeout_good.
Qed.

Lemma new_good : good (@new P).
Proof.
  split; simpl.
  - intros a ep. by rewrite lookup_empty.
  - intros p a a' (e & He & _). simpl in He. by rewrite lookup_empty in He.
  - intros s a. unfold svc_at. simpl. rewrite lookup_empty. setoid_rewrite lookup_empty. naive_solver.
Qed.

Lemma reach_table_good t : reach t → good t.
Proof. induction 1; [apply new_good|by apply run_op_good]. Qed.

(** C12: over any sequence of operations, with every port attached once and services
    that keep their address while they are known, the endpoint table stays consistent:
    an endpoint is filed under its own address in a state that fits its backend, pods
    buffer at most 64 packets and only while they have no port, the index of services
    is exact, a port serves at most one pod, and a detached port serves none. *)
Theorem endpoint_table_consistent t :
  reach t →
  (∀ a ep, by_ip t !! a = Some ep → ep_ok a ep) ∧
  (∀ s a, service_id_to_ip t !! s = Some a ↔ svc_at t s a) ∧
  (∀ p a a', attached t p a → attached t p a' → a = a') ∧
  (∀ p a, ¬ attached (detach_port p t) p a).
Proof.
  intros [Hok Hp Hm]%reach_table_good. split_and!; [done..|]. intros p a.
  destruct (detach_port_spec p t) as [[-> Hn]|(a' & ep & Ha & Hb & ->)]; [apply Hn|].
  intros (e & He & Hbe). rewrite by_ip_with in He. case_decide as Hd; simplify_eq.
  apply Hd, (Hp p); [by exists e|by exists ep].
Qed.

(** ** Starting pods *)
Abbreviation arrival := (Z * Ipv4Addr * list Z)%type.
Definition receive t (x : arrival) : EndpointTable P :=
  (lookup_and_buffer x.1.1 x.1.2 x.2 false t).2.
Definition frames_to (a : Ipv4Addr) (l : list arrival) : list (list Z) :=
  (filter (λ x, x.1.2 = a) l).*2.
(** The packets for [a] arrive within the timeout after [d0]. *)
Definition within (a : Ipv4Addr) (d0 : Z) (l : list arrival) : Prop :=
  ∀ x, x ∈ l → x.1.2 = a → d0 ≤ x.1.1 < d0 + from_millis 30000.
Definition pod_spec (a : Ipv4Addr) (placement : option WorkerId) : EndpointSpec :=
  {| esp_ip := a; esp_kind := KindPod ((λ w, {| epl_worker_id := w |}) <$> placement) |}.
(** An endpoint without a port that holds [buf] *)
Definition starting (a : Ipv4Addr) (b : EndpointBackend P) (buf : list (list Z)) (start : option Z) t :
    Prop :=
  ∃ ep, by_ip t !! a = Some ep ∧ backend ep = b ∧ buffer ep = buf ∧ buffer_start ep = start.

Lemma lookup_other now dst frame skip a t :
  a ≠ dst → by_ip (lookup_and_buffer now dst frame skip t).2 !! a = by_ip t !! a.
Proof.
  intros Hne. unfold lookup_and_buffer. destruct (by_ip t !! dst) as [ep|]; [|done].
  destruct (if skip then _ else _) as [fc ep'].
  assert (Hba : ∀ svc n ms fc' e t', by_ip t' !! a = by_ip t !! a →
    by_ip (buffer_and_activate svc n ms frame now fc' dst e t').2 !! a = by_ip t !! a).
  { intros svc n ms fc' e t' <-. unfold buffer_and_activate.
    destruct (check_activation_debounce _ _ _) as [? e1], (try_buffer_frame _ _ _ _ e1). simpl.
    by rewrite lookup_insert_ne. }
  assert (Hw : ∀ e, by_ip (with_endpoint dst e t) !! a = by_ip t !! a)
    by (intros; simpl; by rewrite lookup_insert_ne).
  destruct (backend ep') as [s pol b p|bp|w|p|[p|]]; simpl; try by apply Hba. all: try apply Hw.
  destruct (forward_target _ _ _ _); [apply Hw|]. unfold dispatch_service_buffer.
  destruct (if is_passthrough p then _ else _) as [[r|] p']; [|by apply Hba].
  rewrite with_endpoint_twice. apply Hw.
Qed.

Lemma try_buffer_accepts frame ms now ep :
  (length (buffer ep) ≤ 64)%nat →
  (∀ st, buffer_start ep = Some st → saturating_sub now st < from_millis ms) →
  let ep' := (try_buffer_frame frame 64 ms now ep).2 in
  buffer ep' = take 64 (buffer ep ++ [frame]) ∧
  (buffer_start ep' = buffer_start ep ∨ buffer_start ep' = Some now).
Proof.
  intros Hlen Hst. unfold try_buffer_frame. simpl.
  assert (match buffer_start ep with
          | Some start => from_millis ms <=? saturating_sub now start
          | None => false end = false) as ->.
  { destruct (buffer_start ep) as [st|]; [|done]. apply Z.leb_gt, Hst. done. }
  destruct (64 <=? zlen (buffer ep)) eqn:E; simpl.
  - apply Z.leb_le in E. split; [|by left]. rewrite take_app_le by lia. by rewrite take_ge by lia.
  - apply Z.leb_gt in E. split; [|destruct (buffer_start ep); auto].
    rewrite take_ge; [done|]. rewrite length_app. simpl. lia.
Qed.

Lemma receive_starting a b buf start x t :
  b = UnplacedPod default_buffer_policy ∨ b = Pod None →
  starting a b buf start t → (length buf ≤ 64)%nat → x.1.2 = a →
  (∀ st, start = Some st → saturating_sub x.1.1 st < from_millis 30000) →
  ∃ start', starting a b (take 64 (buf ++ [x.2])) start' (receive t x) ∧
            (start' = start ∨ start' = Some x.1.1).
Proof.
  destruct x as [[now dst] frame]. simpl.
  intros Hb (ep & Ha & Hbe & Hbuf & Hst) Hlen -> Hin. unfold receive, lookup_and_buffer. simpl.
  rewrite Ha. assert (∃ fc ep', track_flow now frame ep = (fc, ep') ∧ backend ep' = b ∧
    buffer ep' = buf ∧ buffer_start ep' = start) as (fc & ep' & -> & Hbe' & Hbuf' & Hst').
  { unfold track_flow. destruct (flow_tracker ep), (tcp_info frame) as [[??]|]; by eexists _, _. }
  set (t' := with_endpoint a ep' t).
  assert (Hgo : ∀ fc', ∃ start', starting a b (take 64 (buf ++ [frame])) start'
      (buffer_and_activate None 64 30000 frame now fc' a ep' t').2 ∧
      (start' = start ∨ start' = Some now)).
  { intros fc'. unfold buffer_and_activate.
    pose proof (debounce_fields (activation_debounce t') now ep') as (_ & _ & E3 & E4 & E5 & _).
    destruct (check_activation_debounce _ now ep') as [act ep1]; simpl in *.
    destruct (try_buffer_accepts frame 30000 now ep1) as [Eb Es];
      [by rewrite E3, Hbuf'|by rewrite E4, Hst'|].
    destruct (try_buffer_fields frame 64 30000 now ep1) as (_ & _ & E6 & _).
    destruct (try_buffer_frame frame 64 30000 now ep1) as [r ep2]; simpl in *.
    exists (buffer_start ep2). split; [|by rewrite E4, Hst' in Es]. exists ep2.
    rewrite by_ip_with, decide_True by done. rewrite E6, E5, Eb, E3, Hbuf'. by split_and!. }
  destruct Hb as [-> | ->]; rewrite Hbe'; apply Hgo.
Qed.

Lemma receive_all_starting a b d0 l buf start t :
  b = UnplacedPod default_buffer_policy ∨ b = Pod None →
  within a d0 l → starting a b buf start t → (length buf ≤ 64)%nat →
  (∀ st, start = Some st → d0 ≤ st) →
  ∃ start', starting a b (take 64 (buf ++ frames_to a l)) start' (foldl receive t l).
Proof.
  intros Hb. revert buf start t. induction l as [|x l IH]; intros buf start t Hw Hs Hlen Hst.
  { exists start. unfold frames_to. simpl. by rewrite app_nil_r, take_ge. }
  assert (Hw' : within a d0 l) by (intros y Hy; apply Hw; set_solver).
  unfold frames_to. rewrite filter_cons. cbn [foldl]. case_decide as Hx.
  - pose proof (Hw x ltac:(set_solver) Hx) as Hnow.
    destruct (receive_starting a b buf start x t Hb Hs Hlen Hx) as (start' & Hs' & Hor).
    { intros st Hst'. specialize (Hst st Hst'). unfold saturating_sub, from_millis in *. lia. }
    destruct (IH (take 64 (buf ++ [x.2])) start' (receive t x) Hw' Hs') as (start'' & Hs'').
    { rewrite length_take. lia. }
    { intros st Hst'. destruct Hor as [->| ->]; [by apply Hst|]. injection Hst' as <-. lia. }
    exists start''. cbn [fmap list_fmap]. 
    replace (take 64 (buf ++ x.2 :: (filter (λ x, x.1.2 = a) l).*2))
      with (take 64 (take 64 (buf ++ [x.2]) ++ frames_to a l)); [done|].
    rewrite take_app_take, <- (assoc_L (++)). done.
  - apply (IH buf start (receive t x)); try done.
    destruct Hs as (ep & Ha & Hrest). exists ep. split; [|done]. unfold receive.
    by rewrite lookup_other.
Qed.

(** C14: packets for a starting pod are not lost: from the moment the address is known
    and unplaced, through its placement on this worker, until the port is attached,
    the packets that arrive for it are kept in order, up to 64 of them, and are handed
    over when the port is attached; packets for other addresses do not interfere.  Each
    of the two phases must end within the buffering timeout. *)
Theorem pod_start_delivers w mk port a p d0 d1 l1 l2 t :
  by_ip t !! a = None → within a d0 l1 → within a d1 l2 →
  let ta := foldl receive (apply_single_spec w mk port (pod_spec a None) t).2 l1 in
  let tb := foldl receive (apply_single_spec w mk port (pod_spec a (Some w)) ta).2 l2 in
  let '(result, tc) := attach_port a p tb in
  result = inl (take 64 (frames_to a (l1 ++ l2))) ∧ get_port_id a tc = Some p ∧
  by_ip tc !! a ≫= (λ ep, Some (buffer ep)) = Some [].
Proof.
  intros Hn Hw1 Hw2 ta tb.
  destruct (receive_all_starting a (UnplacedPod default_buffer_policy) d0 l1 [] None
    (apply_single_spec w mk port (pod_spec a None) t).2) as (st1 & ep1 & Ha & Hb & Hbuf & _);
    [by left|done| |simpl; lia|done|].
  { simpl. unfold apply_unplaced. rewrite Hn. eexists. by rewrite by_ip_with, decide_True. }
  destruct (receive_all_starting a (Pod None) d1 l2 (take 64 (frames_to a l1)) None
    (apply_single_spec w mk port (pod_spec a (Some w)) ta).2) as (st2 & ep2 & Ha2 & Hb2 & Hbuf2 & _);
    [by right|done| |rewrite length_take; lia|done|].
  { unfold apply_single_spec, pod_spec. simpl. rewrite Z.eqb_refl. simpl. unfold apply_local_pod.
    fold ta in Ha. rewrite Ha. simpl. rewrite Hb. eexists.
    rewrite by_ip_with, decide_True by done. split_and!; try done. }
  fold tb in Ha2. unfold attach_port. rewrite Ha2, Hb2.
  unfold get_port_id. rewrite by_ip_with, decide_True by done. split_and!; [|done|done].
  rewrite Hbuf2. f_equal. unfold frames_to. by rewrite filter_app, fmap_app, take_app_take.
Qed.

(** ** Asking for activation *)
Definition last_at (a : Ipv4Addr) t : option Z := by_ip t !! a ≫= last_activation.
(** The instants at which packets for [a] asked for activation *)
Fixpoint activations (a : Ipv4Addr) (l : list arrival) t : list Z :=
  match l with
  | [] => []
  | (now, dst, frame) :: l =>
      let '(_, should_activate, _, t') := lookup_and_buffer now dst frame false t in
      (if should_activate && (dst =? a) then [now] else []) ++ activations a l t'
  end.

Lemma buffer_act svc n ms frame now fc a ep t :
  0 < activation_debounce t →
  let '(_, act, _, t') := buffer_and_activate svc n ms frame now fc a ep t in
  activation_debounce t' = activation_debounce t ∧
  if act then last_at a t' = Some now ∧
              ∀ l, last_activation ep = Some l → l + activation_debounce t ≤ now
  else last_at a t' = last_activation ep.
Proof.
  intros Hd. unfold buffer_and_activate, check_activation_debounce.
  assert (Hl : ∀ e, last_activation (try_buffer_frame frame n ms now e).2 = last_activation e)
    by (intros; apply try_buffer_fields).
  destruct (last_activation ep) as [l|] eqn:El; [destruct (_ <? _) eqn:Ec|];
    match goal with |- context [try_buffer_frame frame n ms now ?e] => specialize (Hl e);
      destruct (try_buffer_frame frame n ms now e) as [r e'] end; simpl in *;
    unfold last_at; rewrite by_ip_with, decide_True by done; simpl; split; try done.
  - by rewrite Hl.
  - split; [by rewrite Hl|]. intros l' [= <-]. apply Z.ltb_ge in Ec. unfold saturating_sub in Ec. lia.
Qed.

Lemma lookup_act now dst frame t :
  0 < activation_debounce t →
  let '(_, act, _, t') := lookup_and_buffer now dst frame false t in
  activation_debounce t' = activation_debounce t ∧
  if act then last_at dst t' = Some now ∧
              ∀ l, last_at dst t = Some l → l + activation_debounce t ≤ now
  else last_at dst t' = last_at dst t.
Proof.
  intros Hd. unfold lookup_and_buffer. destruct (by_ip t !! dst) as [ep|] eqn:Ed; [|done].
  assert (last_activation (track_flow now frame ep).2 = last_activation ep) as Hl
    by (unfold track_flow; by destruct (flow_tracker ep), (tcp_info frame) as [[? ?]|]).
  destruct (track_flow now frame ep) as [fc ep']; simpl in Hl.
  assert (Hkeep : ∀ e, last_activation e = last_activation ep →
    last_at dst (with_endpoint dst e t) = last_at dst t).
  { intros e He. unfold last_at. by rewrite by_ip_with, decide_True, Ed. }
  assert (Hba : ∀ svc n ms fc' e t', activation_debounce t' = activation_debounce t →
    last_activation e = last_activation ep →
    let '(_, act, _, t'') := buffer_and_activate svc n ms frame now fc' dst e t' in
    activation_debounce t'' = activation_debounce t ∧
    if act then last_at dst t'' = Some now ∧
                ∀ l, last_at dst t = Some l → l + activation_debounce t ≤ now
    else last_at dst t'' = last_at dst t).
  { intros svc n ms fc' e t' E1 E2. pose proof (buffer_act svc n ms frame now fc' dst e t') as Hb.
    rewrite E1, E2 in Hb. specialize (Hb Hd). unfold last_at at 2 4. by rewrite Ed. }
  destruct (backend ep') as [s pol b p|bp|w|p|[p|]]; try by (split; [done|by apply Hkeep]).
  - destruct (forward_target _ _ _ _); [by split; [done|apply Hkeep]|].
    unfold dispatch_service_buffer. destruct (if is_passthrough p then _ else _) as [[r|] p'].
    + split; [done|]. rewrite with_endpoint_twice. by apply Hkeep.
    + by apply Hba.
  - by apply Hba.
  - by apply Hba.
Qed.

Lemma activations_apart a l t d :
  0 < d → activation_debounce t = d →
  Sorted (λ x y, x + d ≤ y) (activations a l t) ∧
  ∀ last, last_at a t = Some last → HdRel (λ x y, x + d ≤ y) last (activations a l t).
Proof.
  intros Hd. revert t. induction l as [|[[now dst] frame] l IH]; intros t Ht; [by split|]. simpl.
  pose proof (lookup_act now dst frame t ltac:(lia)) as Hl.
  destruct (lookup_and_buffer now dst frame false t) as [[[r act] fc] t'] eqn:E.
  destruct Hl as [Et Hl]. destruct (IH t') as [IHs IHh]; [congruence|].
  destruct (dst =? a) eqn:Ea.
  - apply Z.eqb_eq in Ea as ->. rewrite andb_true_r. destruct act; simpl.
    + destruct Hl as [Hn Hl]. split; [by constructor; [|apply IHh]|].
      intros last Hlast. constructor. specialize (Hl last Hlast). lia.
    + split; [done|]. by rewrite <- Hl.
  - rewrite andb_false_r. simpl. split; [done|]. intros last. apply Z.eqb_neq in Ea.
    pose proof (lookup_other now dst frame false a t ltac:(done)) as Ho. rewrite E in Ho. simpl in Ho.
    unfold last_at. rewrite <- Ho. apply IHh.
Qed.

(** An endpoint asks for activation at most once per second, however many packets
    arrive, and an address that has just become known as an unplaced pod asks with the
    first packet. *)
Theorem activation_debounced a l t now frame :
  activation_debounce t = activation_debounce (@new P) →
  Sorted (λ x y, x + from_secs 1 ≤ y) (activations a l t) ∧
  (by_ip t !! a = None →
   head (activations a ((now, a, frame) :: l) (apply_unplaced a t)) = Some now).
Proof.
  intros Ht. split; [by apply (activations_apart a l t (from_secs 1))|]. intros Ha.
  unfold apply_unplaced. rewrite Ha. simpl.
  unfold lookup_and_buffer. rewrite by_ip_with, decide_True by done. simpl.
  unfold buffer_and_activate, try_buffer_frame. simpl. by rewrite Z.eqb_refl.
Qed.

(** ** Reported demand *)
Definition active_at t (a : Ipv4Addr) : bool :=
  match by_ip t !! a with Some ep => active ep | None => false end.
Definition effect_status (e : EndpointSyncEffect) : option FlowStatusChange :=
  match e with FlowStatus c => Some c | _ => None end.
(** What an operation reports of the demand *)
Definition reports t (o : table_op) : list FlowStatusChange :=
  match o with
  | Sync w mk port specs => omap effect_status (apply_endpoint_sync w mk port specs t).1
  | Update w mk port ups rem => omap effect_status (apply_endpoint_update w mk port ups rem t).1
  | Lookup now dst frame skip => option_list (lookup_and_buffer now dst frame skip t).1.2
  | Gc now => (gc_flow_trackers now t).1
  | _ => []
  end.
Definition tell (told : gmap Z bool) (l : list FlowStatusChange) : gmap Z bool :=
  foldl (λ m c, <[fc_ip c := fc_active c]> m) told l.
Definition agrees (told : gmap Z bool) t : Prop := ∀ a, default false (told !! a) = active_at t a.

(** What must not happen while flows are active: replacing or removing the endpoint
    (updating a service in place is fine), and handing the packet of a tracked endpoint
    to an activator. *)
Definition lossless_spec (spec : EndpointSpec) t : Prop :=
  active_at t (esp_ip spec) = true →
  match esp_kind spec with
  | KindService s pol _ =>
      ∃ ep pol' b p, by_ip t !! esp_ip spec = Some ep ∧ backend ep = Service s pol' b p ∧
                     sp_ports pol' = sp_ports pol
  | KindPod None | KindWireGuardPeer None => True
  | _ => False
  end.
Fixpoint lossless_specs w mk port (specs : list EndpointSpec) t : Prop :=
  match specs with
  | [] => True
  | spec :: specs =>
      lossless_spec spec t ∧ lossless_specs w mk port specs (apply_single_spec w mk port spec t).2
  end.
Definition inactive t (l : list Ipv4Addr) : Prop := Forall (λ a, active_at t a = false) l.
Definition lossless t (o : table_op) : Prop :=
  match o with
  | Sync w mk port specs =>
      let gone := filter (λ a, a ∉ esp_ip <$> specs) (hash_iter (by_ip t)).*1 in
      inactive t gone ∧ lossless_specs w mk port specs (foldl remove_endpoint t gone)
  | Update w mk port ups rem => inactive t rem ∧ lossless_specs w mk port ups (foldl remove_endpoint t rem)
  | Lookup _ dst _ _ =>
      ∀ ep s pol b p, by_ip t !! dst = Some ep → backend ep = Service s pol b p →
        is_passthrough p = true ∨ flow_tracker ep = None
  | _ => True
  end.
Inductive told_run : EndpointTable P → gmap Z bool → Prop :=
  | told_new : told_run new ∅
  | told_op t told o : told_run t told → allowed t o → lossless t o →
      told_run (run_op t o) (tell told (reports t o)).

Lemma active_at_with a ep t a' :
  active_at (with_endpoint a ep t) a' = if decide (a' = a) then active ep else active_at t a'.
Proof. unfold active_at. rewrite by_ip_with. by case_decide. Qed.

Lemma agrees_same told t t' :
  (∀ a, active_at t' a = active_at t a) → agrees told t → agrees told t'.
Proof. intros He Ha a. by rewrite He. Qed.

Lemma agrees_with told a ep t :
  active ep = active_at t a → agrees told t → agrees told (with_endpoint a ep t).
Proof. intros He. apply agrees_same. intros a'. rewrite active_at_with. case_decide; by subst. Qed.

(** One endpoint changes and the change is reported. *)
Lemma agrees_change told a ep ep' t :
  by_ip t !! a = Some ep → ip ep = a → agrees told t →
  agrees (tell told (option_list (status_change ep ep'))) (with_endpoint a ep' t).
Proof.
  intros Ha Hip Hag. unfold status_change. case_bool_decide as Heq; simpl.
  - apply agrees_with; [|done]. unfold active_at. by rewrite Ha.
  - intros a'. rewrite active_at_with, Hip. case_decide as Hd.
    + subst a'. by rewrite lookup_insert_eq.
    + rewrite lookup_insert_ne by done. apply Hag.
Qed.

Lemma agrees_forget told a t : agrees told t → agrees told (forget_service a t).
Proof. apply agrees_same. intros a'. unfold active_at. by rewrite (proj1 (forget_service_fields a t)). Qed.

Lemma active_at_forget a t a' : active_at (forget_service a t) a' = active_at t a'.
Proof. unfold active_at. by rewrite (proj1 (forget_service_fields a t)). Qed.

Lemma agrees_buffer told svc n ms frame now fc a ep t :
  active ep = active_at t a → agrees told t →
  agrees told (buffer_and_activate svc n ms frame now fc a ep t).2 ∧
  (buffer_and_activate svc n ms frame now fc a ep t).1.2 = fc.
Proof.
  intros He Hag. unfold buffer_and_activate.
  pose proof (debounce_fields (activation_debounce t) now ep) as (_ & _ & _ & _ & _ & E).
  destruct (check_activation_debounce _ now ep) as [act ep1]; simpl in *.
  destruct (try_buffer_fields frame n ms now ep1) as (_ & _ & _ & E2 & _).
  destruct (try_buffer_frame frame n ms now ep1) as [r ep2]; simpl in *. split; [|done].
  apply agrees_with; [|done]. rewrite <- He. unfold active. by rewrite E2, E.
Qed.

Lemma track_change now frame ep :
  ∃ ep', track_flow now frame ep = (status_change ep ep', ep') ∧ (flow_tracker ep = None → ep' = ep).
Proof.
  assert (Hs : status_change ep ep = None) by (unfold status_change; by rewrite bool_decide_eq_true_2).
  unfold track_flow. destruct (flow_tracker ep) as [ft|]; [|by exists ep; rewrite Hs].
  destruct (tcp_info frame) as [[key fl]|]; [by eexists|by exists ep; rewrite Hs].
Qed.

Lemma agrees_lookup told now dst frame skip t :
  good t → lossless t (Lookup now dst frame skip) → agrees told t →
  agrees (tell told (option_list (lookup_and_buffer now dst frame skip t).1.2))
    (lookup_and_buffer now dst frame skip t).2.
Proof.
  intros Hg Hloss Hag. simpl in Hloss. unfold lookup_and_buffer.
  destruct (by_ip t !! dst) as [ep|] eqn:Ed; [|done]. destruct (g_ok _ Hg _ _ Ed) as [Hip _ Hk].
  assert (Hs : status_change ep ep = None) by (unfold status_change; by rewrite bool_decide_eq_true_2).
  assert (∃ ep', (if skip then (None, ep) else track_flow now frame ep) = (status_change ep ep', ep') ∧
    backend ep' = backend ep ∧ (flow_tracker ep = None → ep' = ep)) as (ep' & -> & Hb & Hnone).
  { destruct skip; [by exists ep; rewrite Hs|]. destruct (track_change now frame ep) as (ep' & E & Hn).
    exists ep'. split_and!; [done| |done]. by rewrite <- (track_backend now frame ep), E. }
  pose proof (agrees_change told dst ep ep' t Ed Hip Hag) as Hag'.
  assert (Hact : active ep' = active_at (with_endpoint dst ep' t) dst)
    by by rewrite active_at_with, decide_True.
  assert (Hba : ∀ svc n ms e, active e = active ep' →
    agrees (tell told (option_list (buffer_and_activate svc n ms frame now (status_change ep ep') dst e
      (with_endpoint dst ep' t)).1.2)) (buffer_and_activate svc n ms frame now (status_change ep ep') dst e
      (with_endpoint dst ep' t)).2).
  { intros svc n ms e He. destruct (agrees_buffer (tell told (option_list (status_change ep ep'))) svc n ms
      frame now (status_change ep ep') dst e (with_endpoint dst ep' t)) as [H1 H2]; [congruence|done|].
    by rewrite H2. }
  rewrite Hb. destruct (backend ep) as [s pol b p|bp|w|p|[p|]] eqn:Eb; simpl; try done; try by apply Hba.
  - destruct (forward_target _ _ _ _); [done|]. unfold dispatch_service_buffer.
    destruct (Hloss ep s pol b p eq_refl Eb) as [Hp|Hn].
    + rewrite Hp. by apply Hba.
    + specialize (Hnone Hn). subst ep'. rewrite Hs in Hag', Hba |- *.
      destruct (if is_passthrough p then _ else _) as [[r|] p']; [|by apply Hba].
      simpl. rewrite with_endpoint_twice. apply agrees_with; [|done]. unfold active_at. by rewrite Ed.
  - destruct Hk as (_ & _ & Hn). specialize (Hnone Hn). subst ep'. by rewrite Hs in Hag'.
Qed.

Lemma active_new : FlowTracker.has_active_flows FlowTracker.new = false.
Proof. done. Qed.

Lemma agrees_spec told w mk port spec t :
  lossless_spec spec t → agrees told t →
  agrees (tell told (omap effect_status (apply_single_spec w mk port spec t).1))
    (apply_single_spec w mk port spec t).2.
Proof.
  intros Hloss Hag. unfold lossless_spec in Hloss. unfold apply_single_spec. set (a := esp_ip spec) in *.
  assert (Hready : ∀ (c : bool) s, omap effect_status (if c then [ServiceReady s] else []) = [])
    by by intros [].
  assert (Hplain : ∀ t' st buf b ft, active_at t' a = active_at t a → active_at t a = false →
    ft = None ∨ ft = Some FlowTracker.new → agrees told t' →
    agrees told (with_endpoint a (plain_endpoint a st buf b ft) t')).
  { intros t' st buf b ft E Hin Hft. apply agrees_with. rewrite E, Hin. unfold active. simpl.
    by destruct Hft as [-> | ->]. }
  assert (Hun : agrees told (apply_unplaced a t)).
  { unfold apply_unplaced. destruct (by_ip t !! a) eqn:Ea; [done|]. apply Hplain; auto.
    unfold active_at. by rewrite Ea. }
  assert (Hcreate : ∀ s pol st b, active_at t a = false →
    agrees (tell told (omap effect_status (create_service mk a s pol st b t).1))
      (create_service mk a s pol st b t).2).
  { intros s pol st b Hin. unfold create_service. simpl.
    set (t1 := match _ ≫= _ with Some old => _ | None => t end).
    assert (E1 : by_ip t1 = by_ip t) by (unfold t1; repeat case_match; done).
    rewrite Hready. simpl.
    eapply (agrees_same _ (with_endpoint a (plain_endpoint a st [] _ _) t1)); [done|].
    apply Hplain; [unfold active_at; by rewrite E1|done|destruct (is_passthrough _); auto|].
    eapply agrees_same, Hag. intros a'. unfold active_at. by rewrite E1. }
  assert (Hfl : ∀ b, omap effect_status (flush_if b a) = []) by by intros [].
  destruct (esp_kind spec) as [s pol be|[p|]|[p|]]; simpl; try done.
  - unfold apply_service. destruct (new_service_state be) as [st b].
    destruct (active_at t a) eqn:Eact.
    + destruct (Hloss eq_refl) as (ep & pol' & old & p & Ea & Eb & Ep). rewrite Ea, Eb, Z.eqb_refl.
      rewrite bool_decide_eq_true_2 by done. simpl. unfold reuse_service. simpl.
      assert (Hep : active ep = true) by (unfold active_at in Eact; by rewrite Ea in Eact). rewrite Hep.
      rewrite omap_app, Hready, app_nil_r, andb_true_r. destruct (is_none b); simpl.
      * intros a'. rewrite active_at_with. case_decide as Hd; [subst a'; by rewrite lookup_insert_eq|].
        rewrite lookup_insert_ne by done. apply Hag.
      * apply agrees_with; [|done]. rewrite Eact, <- Hep. by destruct (should_clear old b).
    + destruct (by_ip t !! a) as [ep|] eqn:Ea; [|by apply Hcreate].
      destruct (backend ep) as [s' pol' old p| | | |]; try by apply Hcreate.
      destruct (_ && _); [|by apply Hcreate]. unfold reuse_service. simpl.
      assert (Hep : active ep = false) by (unfold active_at in Eact; by rewrite Ea in Eact).
      rewrite Hep, andb_false_r. simpl.
      rewrite Hready. simpl.
      apply agrees_with; [|done]. rewrite Eact.
      destruct (is_none b); [done|]. rewrite <- Hep. by destruct (should_clear old b).
  - destruct (active_at t a) eqn:Eact; [by destruct (Hloss eq_refl)|].
    destruct (_ =? w); simpl; rewrite ?Hfl; simpl.
    + unfold apply_local_pod. apply Hplain; [by rewrite active_at_forget, Eact|done| |by apply agrees_forget].
      destruct (is_some _); auto.
    + apply Hplain; auto.
  - destruct (active_at t a) eqn:Eact; [by destruct (Hloss eq_refl)|].
    destruct (_ =? w); simpl; rewrite ?Hfl; simpl.
    + destruct port as [q|]; simpl; [|done].
      match goal with |- context [omap effect_status ?l] => assert (omap effect_status l = []) as -> end.
      { destruct (by_ip t !! a) as [e|]; [destruct (buffer e)|]; done. }
      apply Hplain; [by rewrite active_at_forget, Eact|done|auto|by apply agrees_forget].
    + apply Hplain; [by rewrite active_at_forget, Eact|done|auto|by apply agrees_forget].
Qed.

Lemma agrees_specs told w mk port specs t :
  lossless_specs w mk port specs t → agrees told t →
  agrees (tell told (omap effect_status (apply_specs w mk port specs t).1))
    (apply_specs w mk port specs t).2.
Proof.
  unfold apply_specs.
  assert (Hgen : ∀ effs t told, lossless_specs w mk port specs t →
    agrees (tell told (omap effect_status effs)) t →
    let r := foldl (λ '(effects, t) spec, let '(e, t) := apply_single_spec w mk port spec t in
                     (effects ++ e, t)) (effs, t) specs in
    agrees (tell told (omap effect_status r.1)) r.2).
  { clear told t. induction specs as [|spec specs IH]; intros effs t told Hl Hag; [done|].
    destruct Hl as [Hl1 Hl2]. cbn [foldl].
    pose proof (agrees_spec _ w mk port spec t Hl1 Hag) as Hs.
    destruct (apply_single_spec w mk port spec t) as [e t']; simpl in *.
    apply IH; [done|]. unfold tell in *. by rewrite omap_app, foldl_app. }
  intros Hl Hag. by apply (Hgen [] t told).
Qed.

Lemma agrees_remove told l t :
  inactive t l → agrees told t → agrees told (foldl remove_endpoint t l).
Proof.
  revert t. induction l as [|a l IH]; intros t Hin Hag; [done|]. apply Forall_cons in Hin as [Ha Hin].
  assert (Hsame : ∀ a', active_at (remove_endpoint t a) a' = active_at t a').
  { intros a'. unfold active_at, remove_endpoint. simpl. rewrite (proj1 (forget_service_fields a t)).
    destruct (decide (a' = a)) as [->|Hne]; [|by rewrite lookup_delete_ne].
    rewrite lookup_delete_eq. unfold active_at in Ha. by destruct (by_ip t !! a). }
  apply IH; [|by eapply agrees_same]. eapply Forall_impl; [done|]. intros a'. simpl. by rewrite Hsame.
Qed.

Lemma tell_at told l a v :
  (∀ c, c ∈ l → fc_ip c = a → fc_active c = v) →
  tell told l !! a = Some v ∨ tell told l !! a = told !! a ∧ ∀ c, c ∈ l → fc_ip c ≠ a.
Proof.
  unfold tell. induction l as [|c l IH] using rev_ind; intros Hv.
  { right. split; [done|]. set_solver. }
  rewrite foldl_snoc. destruct (decide (fc_ip c = a)) as [<-|Hne].
  - left. rewrite lookup_insert_eq. f_equal. apply Hv; set_solver.
  - rewrite lookup_insert_ne by done.
    destruct IH as [IH|[IH Hn]]; [intros c' Hc'; apply Hv; set_solver|by left|].
    right. split; [done|]. intros c'. rewrite elem_of_app. set_solver.
Qed.

Lemma agrees_gc told now t :
  good t → agrees told t →
  agrees (tell told (gc_flow_trackers now t).1) (gc_flow_trackers now t).2.
Proof.
  intros Hg Hag a. simpl. unfold active_at. simpl. rewrite lookup_fmap.
  set (l := omap _ _).
  assert (Hl : ∀ c, c ∈ l ↔ ∃ ep, by_ip t !! fc_ip c = Some ep ∧ status_change ep (gc_endpoint now ep) = Some c).
  { intros c. unfold l. rewrite list_elem_of_omap. split.
    - intros ([a' ep] & Hin%elem_of_hash_iter & Hc). exists ep. simpl in Hc. split; [|done].
      unfold status_change in Hc. case_bool_decide; simplify_eq. simpl.
      by rewrite (ok_ip _ _ (g_ok _ Hg _ _ Hin)).
    - intros (ep & Ha & Hc). exists (fc_ip c, ep). by rewrite elem_of_hash_iter. }
  specialize (Hag a). unfold active_at in Hag. destruct (by_ip t !! a) as [ep|] eqn:Ea; simpl.
  - destruct (tell_at told l a (active (gc_endpoint now ep))) as [->|[-> Hn]]; [|done|].
    + intros c (ep' & Ha' & Hc)%Hl <-. rewrite Ea in Ha'. simplify_eq.
      unfold status_change in Hc. case_bool_decide; by simplify_eq.
    + rewrite Hag. destruct (status_change ep (gc_endpoint now ep)) as [c|] eqn:Ec.
      * assert (Hca : fc_ip c = a).
        { unfold status_change in Ec. case_bool_decide; simplify_eq. by apply (g_ok _ Hg). }
        destruct (Hn c); [|done]. apply Hl. exists ep. by rewrite Hca.
      * unfold status_change in Ec. by case_bool_decide.
  - destruct (tell_at told l a false) as [->|[-> _]]; [|done|done].
    intros c (ep' & Ha' & _)%Hl <-. congruence.
Qed.

Lemma agrees_op told t o :
  good t → lossless t o → agrees told t → agrees (tell told (reports t o)) (run_op t o).
Proof.
  intros Hg Hl Hag. destruct o; simpl.
  - destruct Hl as [H1 H2]. unfold apply_endpoint_sync. apply agrees_specs; [done|by apply agrees_remove].
  - destruct Hl as [H1 H2]. unfold apply_endpoint_update. apply agrees_specs; [done|by apply agrees_remove].
  - by apply agrees_lookup.
  - unfold mark_service_ready. destruct (service_id_to_ip t !! s) as [a|]; [|done]. simpl.
    destruct (by_ip t !! a) as [ep|] eqn:Ea; [|done]. simpl.
    destruct (backend ep) as [s' pol [b|] p| | | |]; try done.
    destruct (on_mark_ready s' p) as [[act|] p']; [destruct (has_stream_manager p')|]; simpl;
      (apply agrees_with; [|done]); unfold active_at; rewrite Ea; [done..|].
    unfold active. simpl. by destruct (flow_tracker ep).
  - unfold flush_pod_buffer. destruct (by_ip t !! a) as [ep|] eqn:Ea; [|done].
    destruct (backend ep); try done; simpl;
      (apply agrees_with; [|done]); unfold active_at; by rewrite Ea.
  - simpl. eapply agrees_same, Hag. intros a'. unfold active_at. simpl. rewrite lookup_fmap.
    destruct (by_ip t !! a') as [ep|]; [|done]. simpl. by destruct (flushable a ep).
  - unfold attach_port. destruct (by_ip t !! a) as [ep|] eqn:Ea; [|done].
    destruct (backend ep); try done. simpl. apply agrees_with; [|done]. unfold active_at. rewrite Ea.
    unfold active. simpl. by destruct (flow_tracker ep).
  - destruct (detach_port_spec p t) as [[-> _]|(a & ep & Ha & Hb & ->)]; [done|].
    apply agrees_with; [|done]. unfold active_at. by rewrite Ha.
  - by apply (agrees_gc told now t).
  - unfold handle_timeout_for_ip. destruct (by_ip t !! a) as [ep|] eqn:Ea; [|done].
    destruct (backend ep) as [s pol b p| | | |]; try done. destruct (handle_timeout s p) as [r p'].
    simpl. apply agrees_with; [|done]. unfold active_at. by rewrite Ea.
Qed.

Lemma told_run_reach t told : told_run t told → reach t.
Proof. induction 1; by constructor. Qed.

(** C13: the demand the worker has reported for an address is the demand there is: after
    any sequence of operations, replaying the status changes they reported yields, for
    every address, whether its flow tracker has active flows.  It takes that no
    endpoint with active flows is replaced or removed and that activators do not take
    packets of tracked endpoints: both lose reports. *)
Theorem demand_reports_exact t told :
  told_run t told → ∀ a, default false (told !! a) = active_at t a.
Proof.
  intros Hr. induction Hr as [|t told o Hr IH Ha Hl]; [done|].
  apply agrees_op; [by eapply reach_table_good, told_run_reach|done|done].
Qed.

End Inv.
End EndpointTableInv.
