(* ===== verification/Forwarding.v ===== *)
(** * The fabric of a namespace on a worker
      ([crates/worker/src/fabric/{forwarding,mod}.rs], the endpoint part of
       [worker/namespace.rs])

    Packets come from ports and from the gateway.  A packet is first matched against
    the connection tracker, which restores the service address on return traffic, and
    is then dispatched by its destination address, at most twice: a packet for a service
    is rewritten to its backend and dispatched again.

    The tables are behind locks in the source; one call is one atomic step here, at one
    instant [now].  What a call does to the outside is a list of outputs, in order;
    ports are known by their ids.  An activator can have packets replayed, which
    dispatches again from within: the nesting is bounded by fuel ([None] when it runs
    out), and [ForwardingInv.dispatch_returns] says when a nesting of two is enough.  Sending
    to a port or a channel always succeeds. *)

From S2P Require Import Prelude SmTypes Protocol Flow Checksum Frame Processor EndpointTable.

Module Fabric.
Import Checksum Frame Processor EndpointTable.

Inductive FabricEvent :=
  | EndpointActivation (dst_ip : Ipv4Addr) (service_id : option ServiceId)
  | EndpointDemand (demand_ip : Ipv4Addr) (service_id : option ServiceId) (demand_active : bool).
Inductive FrameSource := FromPort (port_id : PortId) | FromGateway | Internal.
(** What the fabric does to the outside *)
Inductive Output :=
  | Sent (port_id : PortId) (frame : list Z)
  | ToGateway (frame : list Z)
  | Emitted (event : FabricEvent)
  | PollTimer (delay : Duration) (poll_ip : Ipv4Addr).

(** [!0u32 << (32 - prefix_len)]: the shift uses five bits of its count. *)
Definition subnet_mask (prefix_len : Z) : Z :=
  if 32 <=? prefix_len then u32_max
  else wrap 32 (Z.shiftl u32_max (Z.land (wrap 8 (32 - prefix_len)) 31)).

Section Fabric.
Context `{ProcessorOps P} `{!HashIter Z}.

Record Fabric := {
  ports : gset PortId;
  endpoint_table : EndpointTable P;
  conntrack : gmap FlowKey Conntrack.ConntrackEntry;
  gateway_tx : bool;
  event_tx : bool;
  subnet : Ipv4Addr;
  prefix_len : Z;
  gateway_ip : Ipv4Addr;
  tunnel_ports : gmap Z PortId;
  next_port_id : PortId;
}.
Definition new (gateway_ip : Ipv4Addr) (prefix_len : Z) : Fabric :=
  {| ports := ∅; endpoint_table := EndpointTable.new; conntrack := Conntrack.new;
     gateway_tx := false; event_tx := false;
     subnet := Z.land gateway_ip (subnet_mask prefix_len); prefix_len := prefix_len;
     gateway_ip := gateway_ip; tunnel_ports := ∅; next_port_id := 0 |}.

Abbreviation st := (Fabric * list Output)%type.
Definition out (o : Output) (s : st) : st := (s.1, s.2 ++ [o]).
Definition with_table (t : EndpointTable P) (f : Fabric) : Fabric := {| f with endpoint_table := t |}.
Definition with_conntrack (ct : gmap FlowKey Conntrack.ConntrackEntry) (f : Fabric) : Fabric :=
  {| f with conntrack := ct |}.
Definition on_table (t : EndpointTable P) (s : st) : st := (with_table t s.1, s.2).

Definition is_in_subnet (f : Fabric) (a : Ipv4Addr) : bool :=
  Z.land a (subnet_mask (prefix_len f)) =? Z.land (subnet f) (subnet_mask (prefix_len f)).
Definition resolve_ip (f : Fabric) (a : Ipv4Addr) : option PortId :=
  port_id ← get_port_id a (endpoint_table f);
  if decide (port_id ∈ ports f) then Some port_id else None.

(** ** Events and ports *)
Definition emit_event (e : FabricEvent) (s : st) : st :=
  if event_tx s.1 then out (Emitted e) s else s.
Definition emit_activation (dst_ip : Ipv4Addr) (service_id : option ServiceId) (s : st) : st :=
  emit_event (EndpointActivation dst_ip service_id) s.
Definition emit_if (b : bool) (dst_ip : Ipv4Addr) (service_id : option ServiceId) (s : st) : st :=
  if b then emit_activation dst_ip service_id s else s.
Definition emit_change (change : option FlowStatusChange) (s : st) : st :=
  match change with
  | Some c => emit_event (EndpointDemand (fc_ip c) (fc_service_id c) (fc_active c)) s
  | None => s
  end.
Definition send_port (port_id : option PortId) (frame : list Z) (s : st) : st :=
  match port_id with
  | Some p => if decide (p ∈ ports s.1) then out (Sent p frame) s else s
  | None => s
  end.
Definition send_l4_frame (s : st) (packet : list Z) : st :=
  match ip_packet_dst packet with
  | Some dst_ip =>
      match resolve_ip s.1 dst_ip with
      | Some port => out (Sent port (with_fabric_header 0 0 packet)) s
      | None => s
      end
  | None => s
  end.
Definition send_l4_frames (frames : list (list Z)) (s : st) : st := foldl send_l4_frame s frames.

(** ** Connection tracking *)
Definition ports_of (packet : list Z) : Z * Z := default (0, 0) (ip_packet_transport_ports packet).
Definition packet_key (fp : list Z) (protocol : Z) : FlowKey :=
  {| fk_src_ip := ipv4_src fp; fk_dst_ip := ipv4_dst fp; fk_protocol := protocol;
     fk_src_port := (ports_of (ip_packet fp)).1; fk_dst_port := (ports_of (ip_packet fp)).2 |}.
Definition reverse_key (packet : list Z) (src_ip pod_ip : Ipv4Addr) : FlowKey :=
  {| fk_src_ip := pod_ip; fk_dst_ip := src_ip;
     fk_protocol := default 0 (ip_packet_protocol packet);
     fk_src_port := (ports_of packet).2; fk_dst_port := (ports_of packet).1 |}.
Definition insert_conntrack_entry (now : Z) (rewritten : list Z) (service_ip pod_ip : Ipv4Addr) (s : st) :
    st :=
  match FabricPacket_new rewritten with
  | Some fp =>
      (with_conntrack
         (Conntrack.insert (reverse_key (ip_packet fp) (ipv4_src fp) pod_ip)
            {| Conntrack.service_ip := service_ip; Conntrack.backend_ip := pod_ip;
               Conntrack.last_seen := now |} (conntrack s.1)) s.1, s.2)
  | None => s
  end.

(** Layer 1 of [dispatch_frame]: the packet with its service address restored *)
Definition reverse_dnat (now : Z) (packet : list Z) (s : st) : list Z * st :=
  match FabricPacket_new packet with
  | Some fp =>
      match ip_packet_protocol (ip_packet fp) with
      | Some protocol =>
          let '(entry, ct) := Conntrack.lookup now (packet_key fp protocol) (conntrack s.1) in
          (match entry with
           | Some e => rewrite_ipv4_src packet (ipv4_src fp) (Conntrack.service_ip e)
           | None => packet
           end, (with_conntrack ct s.1, s.2))
      | None => (packet, s)
      end
  | None => (packet, s)
  end.

(** ** Dispatch *)
Section Dispatch.
Context (dispatch : list Z → FrameSource → st → option st).

Definition dispatch_action (now : Z) (action : Action) (service_id : ServiceId) (dst_ip : Ipv4Addr)
    (s : st) : option st :=
  match action with
  | ReplayPacket raw_frame =>
      match get_service_nat_info service_id (endpoint_table s.1) with
      | Some (service_ip, backend_ip) =>
          let rewritten := rewrite_ipv4_dst raw_frame service_ip backend_ip in
          dispatch rewritten Internal (insert_conntrack_entry now rewritten service_ip backend_ip s)
      | None => Some s
      end
  | SetBackendNeed NeedTraffic => Some (emit_activation dst_ip (Some service_id) s)
  | SetBackendNeed NeedActive => Some (emit_event (EndpointDemand dst_ip (Some service_id) true) s)
  | SetBackendNeed NeedNone => Some (emit_event (EndpointDemand dst_ip (Some service_id) false) s)
  | _ => Some s
  end.
Fixpoint dispatch_all (now : Z) (actions : list Action) (service_id : ServiceId) (dst_ip : Ipv4Addr)
    (s : st) : option st :=
  match actions with
  | [] => Some s
  | action :: actions =>
      s ← dispatch_action now action service_id dst_ip s;
      dispatch_all now actions service_id dst_ip s
  end.

Definition not_found (pkt : list Z) (dst_ip : Ipv4Addr) (source : FrameSource) (s : st) : st :=
  if (dst_ip =? gateway_ip s.1) || negb (is_in_subnet s.1 dst_ip) then
    match source with
    | FromGateway | Internal => s
    | FromPort _ => if gateway_tx s.1 then out (ToGateway pkt) s else s
    end
  else s.

(** Layer 2: at most [passes] passes; running out of passes ends the loop. *)
Fixpoint entity_loop (passes : nat) (now : Z) (pkt : list Z) (source : FrameSource)
    (skip_flow_tracking : bool) (s : st) : option st :=
  match passes with
  | O => Some s
  | S passes =>
      match FabricPacket_new pkt with
      | None => Some s
      | Some fp =>
          let dst_ip := ipv4_dst fp in
          let '(action, should_activate, flow_change, t) :=
            lookup_and_buffer now dst_ip pkt skip_flow_tracking (endpoint_table s.1) in
          let s := emit_change flow_change (on_table t s) in
          match action with
          | ServiceForward pod_ip service_ip =>
              let rewritten := rewrite_ipv4_dst pkt service_ip pod_ip in
              let s := insert_conntrack_entry now rewritten service_ip pod_ip s in
              entity_loop passes now rewritten source true (emit_if should_activate dst_ip None s)
          | Buffered service_id | Drop service_id => Some (emit_if should_activate dst_ip service_id s)
          | ActivatorActions actions service_id =>
              s ← dispatch_all now actions service_id dst_ip s;
              Some (emit_if should_activate dst_ip (Some service_id) s)
          | L4Result actions frames service_id poll =>
              s ← dispatch_all now actions service_id dst_ip (send_l4_frames frames s);
              let s := match poll with Some delay => out (PollTimer delay dst_ip) s | None => s end in
              Some (emit_if should_activate dst_ip (Some service_id) s)
          | RemoteWorker worker_id => Some (send_port (tunnel_ports s.1 !! worker_id) pkt s)
          | LocalAdapter port_id | LocalPod port_id => Some (send_port (Some port_id) pkt s)
          | NotFound => Some (not_found pkt dst_ip source s)
          end
      end
  end.
End Dispatch.

Fixpoint dispatch_frame (fuel : nat) (now : Z) (packet : list Z) (source : FrameSource) (s : st) :
    option st :=
  match fuel with
  | O => None
  | S fuel =>
      let '(pkt, s) := reverse_dnat now packet s in
      entity_loop (dispatch_frame fuel now) 2 now pkt source false s
  end.

(** [port_read_loop] and [gateway_ingress_task]: one received frame *)
Definition ingress_frame (fuel : nat) (now : Z) (frame : list Z) (source : FrameSource) (f : Fabric) :
    option st :=
  if decide (length frame < FABRIC_HDR_SZ)%nat then Some (f, [])
  else dispatch_frame fuel now frame source (f, []).

(** The timer that [schedule_poll_timer] spawns *)
Definition poll_timer_fired (fuel : nat) (now : Z) (a : Ipv4Addr) (f : Fabric) : option st :=
  let '(result, t) := handle_timeout_for_ip a (endpoint_table f) in
  let s := (with_table t f, []) in
  match result with
  | Some (L4Result actions frames service_id poll) =>
      s ← dispatch_all (dispatch_frame fuel now) now actions service_id a (send_l4_frames frames s);
      Some match poll with Some delay => out (PollTimer delay a) s | None => s end
  | _ => Some s
  end.

(** ** Ports ([mod.rs]) *)
(** Conntrack entries for the flushed frames, then the frames, rewritten, to the port of
    the backend *)
Definition flush_conntrack (now : Z) (backend_ip service_ip : Ipv4Addr) (s : st) (frame : list Z) : st :=
  match FabricPacket_new frame with
  | Some fp =>
      match ip_packet_src (ip_packet fp) with
      | Some src_ip =>
          (with_conntrack
             (Conntrack.insert (reverse_key (ip_packet fp) src_ip backend_ip)
                {| Conntrack.service_ip := service_ip; Conntrack.backend_ip := backend_ip;
                   Conntrack.last_seen := now |} (conntrack s.1)) s.1, s.2)
      | None => s
      end
  | None => s
  end.
Definition flush_service_frames (now : Z) (frames : list (list Z)) (backend_ip service_ip : Ipv4Addr)
    (s : st) : st :=
  match resolve_ip s.1 backend_ip with
  | None => s
  | Some dst_port =>
      foldl (λ s frame, out (Sent dst_port (rewrite_ipv4_dst frame service_ip backend_ip)) s)
        (foldl (flush_conntrack now backend_ip service_ip) s frames) frames
  end.

Definition add_port_inner (now : Z) (pod_ip : option Ipv4Addr) (f : Fabric) : PortId * st :=
  let port_id := next_port_id f in
  let f := {| f with next_port_id := u64_add port_id 1; ports := {[port_id]} ∪ ports f |} in
  match pod_ip with
  | None => (port_id, (f, []))
  | Some a =>
      let '(attached, t) := attach_port a port_id (endpoint_table f) in
      let pod_buffered := match attached with inl frames => frames | inr _ => [] end in
      let '(service_flushes, t) := flush_by_backend_ip a t in
      let s := foldl (λ s d, flush_service_frames now (sf_frames d) (sf_backend_ip d) (sf_service_ip d) s)
                 (on_table t (f, [])) service_flushes in
      (port_id, foldl (λ s frame, out (Sent port_id frame) s) s pod_buffered)
  end.
Definition add_tunnel_port (now : Z) (worker_id : WorkerId) (f : Fabric) : PortId * st :=
  let '(port_id, (f, o)) := add_port_inner now None f in
  (port_id, ({| f with tunnel_ports := <[worker_id := port_id]> (tunnel_ports f) |}, o)).
Definition remove_tunnel_port (worker_id : WorkerId) (f : Fabric) : Fabric :=
  {| f with tunnel_ports := delete worker_id (tunnel_ports f) |}.
(** [PortGuard::drop] *)
Definition drop_port (port_id : PortId) (f : Fabric) : Fabric :=
  {| f with endpoint_table := detach_port port_id (endpoint_table f);
            ports := ports f ∖ {[port_id]} |}.
(** One round of the task that [set_gateway] spawns *)
Definition gc_tick (now : Z) (f : Fabric) : st :=
  let '(changes, t) := gc_flow_trackers now (endpoint_table f) in
  let f := {| f with conntrack := Conntrack.gc now (from_secs 300) (conntrack f); endpoint_table := t |} in
  foldl (λ s c, emit_change (Some c) s) (f, []) changes.
Definition set_gateway (f : Fabric) : Fabric := {| f with gateway_tx := true |}.
Definition set_event_channel (f : Fabric) : Fabric := {| f with event_tx := true |}.
Definition dispatch_actions (fuel : nat) (now : Z) (actions : list Action) (service_id : ServiceId)
    (s : st) : option st :=
  let dst_ip := default UNSPECIFIED (get_service_ip service_id (endpoint_table s.1)) in
  dispatch_all (dispatch_frame fuel now) now actions service_id dst_ip s.

(** ** Endpoint commands ([worker/namespace.rs]) *)
Definition handle_effect (fuel : nat) (now : Z) (s : st * list FlowStatusChange)
    (effect : EndpointSyncEffect) : option (st * list FlowStatusChange) :=
  let '(s, pending_events) := s in
  match effect with
  | ServiceReady service_id =>
      let '(result, t) := mark_service_ready service_id (endpoint_table s.1) in
      let s := on_table t s in
      match result with
      | Some (PassthroughReady frames backend_ip service_ip actions) =>
          s ← dispatch_actions fuel now actions service_id
                (flush_service_frames now frames backend_ip service_ip s);
          Some (s, pending_events)
      | Some (L4Ready (L4Result actions frames _ _)) =>
          s ← dispatch_actions fuel now actions service_id (send_l4_frames frames s);
          Some (s, pending_events)
      | _ => Some (s, pending_events)
      end
  | FlushPodBuffer a =>
      let '(buffered, t) := flush_pod_buffer a (endpoint_table s.1) in
      let s := on_table t s in
      Some (match resolve_ip s.1 a with
            | Some port => foldl (λ s frame, out (Sent port frame) s) s buffered
            | None => s
            end, pending_events)
  | FlowStatus change => Some (s, pending_events ++ [change])
  | FlushAdapterBuffer _ port_id frames =>
      Some (foldl (λ s frame, send_port (Some port_id) frame s) s frames, pending_events)
  end.
Fixpoint handle_endpoint_effects (fuel : nat) (now : Z) (effects : list EndpointSyncEffect)
    (s : st * list FlowStatusChange) : option (st * list FlowStatusChange) :=
  match effects with
  | [] => Some s
  | effect :: effects =>
      s ← handle_effect fuel now s effect; handle_endpoint_effects fuel now effects s
  end.

Definition endpoint_sync (fuel : nat) (now : Z) (my_worker_id : WorkerId)
    (make_processor : ServiceId → ServicePolicy → Ipv4Addr → P) (adapter_port_id : option PortId)
    (endpoints : list EndpointSpec) (f : Fabric) : option (st * list FlowStatusChange) :=
  let '(effects, t) :=
    apply_endpoint_sync my_worker_id make_processor adapter_port_id endpoints (endpoint_table f) in
  handle_endpoint_effects fuel now effects ((with_table t f, []), []).
Definition endpoint_update (fuel : nat) (now : Z) (my_worker_id : WorkerId)
    (make_processor : ServiceId → ServicePolicy → Ipv4Addr → P) (adapter_port_id : option PortId)
    (upserted : list EndpointSpec) (removed_ips : list Ipv4Addr) (f : Fabric) :
    option (st * list FlowStatusChange) :=
  let '(effects, t) :=
    apply_endpoint_update my_worker_id make_processor adapter_port_id upserted removed_ips
      (endpoint_table f) in
  handle_endpoint_effects fuel now effects ((with_table t f, []), []).

End Fabric.
Arguments Fabric P : clear implicits.
(** The bridge from fabric events to events of the worker *)
Definition bridge_event (ns : NamespaceId) (e : FabricEvent) : WorkerEvent :=
  match e with
  | EndpointActivation dst_ip service_id => Event.EndpointDemandTraffic ns dst_ip service_id
  | EndpointDemand a service_id b => Event.EndpointDemandActive ns a service_id b
  end.
End Fabric.
