(* ===== verification/ForwardingInv.v ===== *)
(** * What the fabric does with packets

    Three properties of [Forwarding]: packets leave only through the port that serves
    their destination and reach the gateway only from inside; a connection to a service
    sees the service's address in both directions; dispatching returns, although an
    activator can have packets dispatched from within. *)

From S2P Require Import Prelude SmTypes Protocol Flow Checksum Frame Processor EndpointTable.
From S2P Require Import EndpointTableInv Forwarding.

Module ForwardingInv.
Import Checksum Frame Processor EndpointTable Fabric.

Section Inv.
Context `{ProcessorOps P} `{!HashIter Z}.
Implicit Types (t : EndpointTable P) (ep : Endpoint P) (f : Fabric P).
Abbreviation st := (Fabric P * list Output)%type.

(** ** Routes: the part of the table that dispatching reads and never changes *)
Definition skeleton (b : EndpointBackend P) : EndpointBackend unit :=
  match b with
  | Service s pol be _ => Service s pol be tt
  | UnplacedPod bp => UnplacedPod bp
  | RemoteSegment w => RemoteSegment w
  | Adapter p => Adapter p
  | Pod p => Pod p
  end.
Definition route ep : Ipv4Addr * EndpointState * EndpointBackend unit :=
  (ip ep, state ep, skeleton (backend ep)).
Definition routes t : gmap Z (Ipv4Addr * EndpointState * EndpointBackend unit) := route <$> by_ip t.

Lemma routes_lookup t a : routes t !! a = route <$> by_ip t !! a.
Proof. apply lookup_fmap. Qed.

Lemma routes_with a ep ep' t :
  by_ip t !! a = Some ep → route ep' = route ep → routes (with_endpoint a ep' t) = routes t.
Proof.
  intros Ha E. unfold routes, with_endpoint; simpl. rewrite fmap_insert, E.
  apply insert_id. by rewrite lookup_fmap, Ha.
Qed.

Lemma track_route now frame ep : route (track_flow now frame ep).2 = route ep.
Proof. unfold track_flow. by destruct (EndpointTable.flow_tracker ep), (tcp_info frame) as [[]|]. Qed.

Lemma buffer_routes svc n ms frame now fc a ep0 ep t :
  by_ip t !! a = Some ep0 → route ep = route ep0 →
  routes (buffer_and_activate svc n ms frame now fc a ep t).2 = routes t ∧
  service_id_to_ip (buffer_and_activate svc n ms frame now fc a ep t).2 = service_id_to_ip t.
Proof.
  intros Ha E. unfold buffer_and_activate.
  pose proof (EndpointTableInv.debounce_fields (activation_debounce t) now ep) as Hd.
  destruct (check_activation_debounce _ now ep) as [act ep'].
  pose proof (EndpointTableInv.try_buffer_fields frame n ms now ep') as Ht.
  destruct (try_buffer_frame frame n ms now ep') as [r ep'']. simpl in *. split; [|done].
  eapply routes_with; [done|]. rewrite <- E. unfold route. naive_solver congruence.
Qed.

Lemma service_buffer_routes s pol b p frame now fc a ep0 ep t :
  by_ip t !! a = Some ep0 → route ep = route ep0 → backend ep = Service s pol b p →
  routes (dispatch_service_buffer s pol b p frame now fc a ep t).2 = routes t ∧
  service_id_to_ip (dispatch_service_buffer s pol b p frame now fc a ep t).2 = service_id_to_ip t.
Proof.
  intros Ha E Hb. unfold dispatch_service_buffer.
  assert (Hr : ∀ p', route (with_processor s pol b p' ep) = route ep0).
  { intros p'. rewrite <- E. unfold route, with_processor; simpl. by rewrite Hb. }
  destruct (if is_passthrough p then _ else _) as [[action|] p'].
  - simpl. split; [|done]. by eapply routes_with.
  - by eapply buffer_routes.
Qed.

Lemma lookup_routes now dst frame skip t :
  routes (lookup_and_buffer now dst frame skip t).2 = routes t ∧
  service_id_to_ip (lookup_and_buffer now dst frame skip t).2 = service_id_to_ip t.
Proof.
  unfold lookup_and_buffer. destruct (by_ip t !! dst) as [ep|] eqn:Ea; [|done].
  assert (Hr : route (if skip then (None, ep) else track_flow now frame ep).2 = route ep)
    by (destruct skip; [done|apply track_route]).
  destruct (if skip then (None, ep) else track_flow now frame ep) as [fc ep']. simpl in Hr.
  assert (Ht : routes (with_endpoint dst ep' t) = routes t) by by eapply routes_with.
  assert (Ha : by_ip (with_endpoint dst ep' t) !! dst = Some ep')
    by by rewrite EndpointTableInv.by_ip_with, decide_True.
  destruct (backend ep') as [s pol b p| | | |[]] eqn:Eb; try by simpl.
  - destruct (forward_target dst ep' b _); [done|].
    by edestruct (service_buffer_routes s pol b p frame now fc dst ep' ep') as [-> ->].
  - by edestruct (buffer_routes None) as [-> ->].
  - by edestruct (buffer_routes None) as [-> ->].
Qed.

(** What the table says to do with a packet is what the route of its destination says. *)
Definition decided t (dst : Ipv4Addr) (a : EndpointAction) : Prop :=
  match a with
  | ServiceForward pod svc => pod ≠ dst ∧ is_backend_reachable pod t = true ∧
      ∃ s pol, routes t !! dst = Some (svc, Ready, Service s pol (Some pod) tt)
  | RemoteWorker w => ∃ i z, routes t !! dst = Some (i, z, RemoteSegment w)
  | LocalAdapter p => ∃ i z, routes t !! dst = Some (i, z, Adapter p)
  | LocalPod p => ∃ i z, routes t !! dst = Some (i, z, Pod (Some p))
  | NotFound => routes t !! dst = None
  | ActivatorActions _ s | L4Result _ _ s _ =>
      ∃ i z pol be, routes t !! dst = Some (i, z, Service s pol be tt)
  | Buffered _ | Drop _ => is_Some (routes t !! dst)
  end.

Lemma buffer_action svc n ms frame now fc a ep t :
  (buffer_and_activate svc n ms frame now fc a ep t).1.1.1 ∈ [Buffered svc; Drop svc].
Proof.
  unfold buffer_and_activate. destruct (check_activation_debounce _ _ _) as [act ep'].
  destruct (try_buffer_frame _ _ _ _ _) as [[] ep'']; simpl; set_solver.
Qed.

Lemma lookup_decided now dst frame skip t :
  decided t dst (lookup_and_buffer now dst frame skip t).1.1.1.
Proof.
  unfold lookup_and_buffer. destruct (by_ip t !! dst) as [ep|] eqn:Ea.
  2:{ simpl. by rewrite routes_lookup, Ea. }
  assert (Hr : route (if skip then (None, ep) else track_flow now frame ep).2 = route ep)
    by (destruct skip; [done|apply track_route]).
  destruct (if skip then (None, ep) else track_flow now frame ep) as [fc ep']. simpl in Hr.
  assert (Hd : routes t !! dst = Some (route ep')) by by rewrite routes_lookup, Ea, Hr.
  assert (Hbuf : ∀ svc n ms ep0 t0, decided t dst (buffer_and_activate svc n ms frame now fc dst ep0 t0).1.1.1).
  { intros svc n ms ep0 t0. pose proof (buffer_action svc n ms frame now fc dst ep0 t0) as Hx.
    apply elem_of_cons in Hx as [->|[->|[]%elem_of_nil]%elem_of_cons]; simpl; rewrite Hd; eauto. }
  unfold route in Hd. destruct (backend ep') as [s pol b p| | | |[]] eqn:Eb; simpl in Hd;
    try apply Hbuf; try by do 2 eexists.
  destruct (forward_target dst ep' b _) as [pod|] eqn:Ef.
  - unfold forward_target in Ef. destruct (state ep') eqn:Es, b as [b|]; simplify_eq.
    destruct (negb _ && _) eqn:Ec; simplify_eq. apply andb_true_iff in Ec as [Hne Hre].
    apply negb_true_iff, Z.eqb_neq in Hne. split_and!; [done| |by eauto].
    unfold is_backend_reachable in *. rewrite EndpointTableInv.by_ip_with in Hre.
    by rewrite decide_False in Hre.
  - unfold dispatch_service_buffer.
    destruct (if is_passthrough p then _ else _) as [[action|] p'] eqn:Ep; [|by apply Hbuf].
    destruct (is_passthrough p); [done|]. destruct (FabricPacket_new frame) as [fp|]; [|done].
    apply process_frame_kind in Ep. simpl. destruct action; simpl in Ep; try done; subst; by do 4 eexists.
Qed.

(** ** Outputs *)
(** The port that serves an address *)
Definition serves f (a : Ipv4Addr) (p : PortId) : Prop :=
  match routes (endpoint_table f) !! a with
  | Some (_, _, Pod (Some q)) | Some (_, _, Adapter q) => q = p
  | Some (_, _, RemoteSegment w) => tunnel_ports f !! w = Some p
  | _ => False
  end.
Definition is_from_port (source : FrameSource) : bool :=
  match source with FromPort _ => true | _ => false end.
Definition justified f (source : FrameSource) (o : Output) : Prop :=
  match o with
  | Sent p frame => p ∈ ports f ∧ serves f (ipv4_dst frame) p
  | ToGateway frame => gateway_tx f = true ∧ is_from_port source = true ∧
      routes (endpoint_table f) !! ipv4_dst frame = None ∧
      (ipv4_dst frame = gateway_ip f ∨ is_in_subnet f (ipv4_dst frame) = false)
  | Emitted _ => event_tx f = true
  | PollTimer _ a => ∃ i z s pol be, routes (endpoint_table f) !! a = Some (i, z, Service s pol be tt)
  end.

(** What dispatching leaves as it is *)
Record kept f f' : Prop := {
  kp_ports : ports f' = ports f;
  kp_routes : routes (endpoint_table f') = routes (endpoint_table f);
  kp_ids : service_id_to_ip (endpoint_table f') = service_id_to_ip (endpoint_table f);
  kp_gateway : gateway_tx f' = gateway_tx f;
  kp_events : event_tx f' = event_tx f;
  kp_net : (subnet f', prefix_len f', gateway_ip f') = (subnet f, prefix_len f, gateway_ip f);
  kp_tunnels : tunnel_ports f' = tunnel_ports f;
  kp_next : next_port_id f' = next_port_id f;
}.
#[local] Instance kept_pre : PreOrder kept.
Proof. split; [by split|]. intros f1 f2 f3 [] []. split; congruence. Qed.

Lemma kept_table t f :
  routes t = routes (endpoint_table f) → service_id_to_ip t = service_id_to_ip (endpoint_table f) →
  kept f (with_table t f).
Proof. by split. Qed.

Lemma kept_subnet f f' a : kept f f' → is_in_subnet f' a = is_in_subnet f a.
Proof. intros []. unfold is_in_subnet. simplify_eq. congruence. Qed.

Lemma kept_justified f f' source o : kept f f' → justified f' source o → justified f source o.
Proof.
  intros Hk. pose proof (λ a, kept_subnet f f' a Hk) as Hs. destruct Hk as [Ep Er Ei Eg Ee En Et _].
  injection En as _ _ Egw. destruct o; simpl; unfold serves; rewrite ?Ep, ?Er, ?Eg, ?Ee, ?Et, ?Hs, ?Egw; done.
Qed.

(** [s'] extends [s] by justified outputs. *)
Definition ext (source : FrameSource) (s s' : st) : Prop :=
  kept s.1 s'.1 ∧ ∃ l, s'.2 = s.2 ++ l ∧ Forall (justified s.1 source) l.
#[local] Instance ext_pre source : PreOrder (ext source).
Proof.
  split.
  - intros s. split; [done|]. exists []. by rewrite app_nil_r.
  - intros s1 s2 s3 [Hk1 (l1 & E1 & Hl1)] [Hk2 (l2 & E2 & Hl2)]. split; [by etrans|].
    exists (l1 ++ l2). split; [by rewrite E2, E1, (assoc_L (++))|]. apply Forall_app. split; [done|].
    eapply Forall_impl; [exact Hl2|]. intros o. by apply kept_justified.
Qed.

Lemma ext_state source f' (s : st) : kept s.1 f' → ext source s (f', s.2).
Proof. intros Hk. split; [done|]. exists []. by rewrite app_nil_r. Qed.

Lemma ext_out source o (s : st) : justified s.1 source o → ext source s (out o s).
Proof. intros Ho. split; [done|]. exists [o]. split; [done|]. by constructor. Qed.

Lemma ext_internal source (s s' : st) : ext Internal s s' → ext source s s'.
Proof.
  intros [Hk (l & E & Hl)]. split; [done|]. exists l. split; [done|].
  eapply Forall_impl; [exact Hl|]. intros []; simpl; naive_solver.
Qed.

Lemma ext_foldl {A} source (g : st → A → st) l s :
  (∀ s x, ext source s (g s x)) → ext source s (foldl g s l).
Proof.
  intros Hg. revert s. induction l as [|x l IH]; intros s; [done|]. etrans; [apply (Hg s x)|apply IH].
Qed.

Lemma ext_event source e (s : st) : ext source s (emit_event e s).
Proof. unfold emit_event. destruct (event_tx s.1) eqn:E; [by apply ext_out|done]. Qed.
Lemma ext_if source b dst sid (s : st) : ext source s (emit_if b dst sid s).
Proof. unfold emit_if. destruct b; [apply ext_event|done]. Qed.
Lemma ext_change source c (s : st) : ext source s (emit_change c s).
Proof. unfold emit_change. destruct c; [apply ext_event|done]. Qed.
Lemma ext_conntrack source now rew svc pod (s : st) : ext source s (insert_conntrack_entry now rew svc pod s).
Proof.
  unfold insert_conntrack_entry. destruct (FabricPacket_new rew); [|done]. by apply ext_state.
Qed.

Lemma resolve_serves f a p : resolve_ip f a = Some p → p ∈ ports f ∧ serves f a p.
Proof.
  unfold resolve_ip, get_port_id, serves. rewrite routes_lookup.
  destruct (by_ip (endpoint_table f) !! a) as [ep|]; [|done]. simpl. unfold route.
  destruct (backend ep) as [| | |q|[q|]]; simpl; try done; case_decide; naive_solver.
Qed.

Lemma ext_l4 source frames (s : st) : ext source s (send_l4_frames frames s).
Proof.
  apply ext_foldl. clear s. intros s packet. unfold send_l4_frame.
  destruct (ip_packet_dst packet) as [dst|] eqn:Ed; [|done].
  destruct (resolve_ip s.1 dst) as [p|] eqn:Er; [|done]. apply ext_out. simpl.
  unfold ip_packet_dst in Ed. case_decide; simplify_eq. by apply resolve_serves in Er.
Qed.

Lemma ext_send source p frame (s : st) :
  (∀ q, p = Some q → serves s.1 (ipv4_dst frame) q) → ext source s (send_port p frame s).
Proof.
  intros Hs. unfold send_port. destruct p as [p|]; [|done]. case_decide; [|done].
  apply ext_out. split; [done|by apply Hs].
Qed.

Lemma ext_reverse source now packet (s : st) : ext source s (reverse_dnat now packet s).2.
Proof.
  unfold reverse_dnat. destruct (FabricPacket_new packet); [|done].
  destruct (ip_packet_protocol _); [|done]. destruct (Conntrack.lookup _ _ _) as [e ct]. simpl.
  by apply ext_state.
Qed.

Section Dispatch.
Context (dispatch : list Z → FrameSource → st → option st).
Hypothesis dispatch_ext : ∀ raw source s s', dispatch raw source s = Some s' → ext source s s'.

Lemma ext_action source now action sid dst s s' :
  dispatch_action dispatch now action sid dst s = Some s' → ext source s s'.
Proof.
  intros E. destruct action as [[]| | | |raw| | | | | | | | | ]; simpl in E; simplify_eq;
    try done; try apply ext_event.
  destruct (get_service_nat_info sid _) as [[svc pod]|]; simplify_eq; [|done].
  etrans; [|exact (ext_internal source _ _ (dispatch_ext _ _ _ _ E))]. apply ext_conntrack.
Qed.
Lemma ext_all source now actions sid dst s s' :
  dispatch_all dispatch now actions sid dst s = Some s' → ext source s s'.
Proof.
  revert s. induction actions as [|a l IH]; intros s E; simpl in E; [by simplify_eq|].
  destruct (dispatch_action _ _ _ _ _ _) as [s1|] eqn:E1; [|done]. simpl in E.
  etrans; [by eapply ext_action|by apply IH].
Qed.

Lemma ext_loop passes now pkt source skip s s' :
  entity_loop dispatch passes now pkt source skip s = Some s' → ext source s s'.
Proof.
  revert pkt skip s. induction passes as [|passes IH]; intros pkt skip s E; simpl in E; [by simplify_eq|].
  unfold FabricPacket_new in E. case_decide; [by simplify_eq|].
  pose proof (lookup_decided now (ipv4_dst pkt) pkt skip (endpoint_table s.1)) as Hd.
  destruct (lookup_routes now (ipv4_dst pkt) pkt skip (endpoint_table s.1)) as [Hr Hi].
  destruct (lookup_and_buffer _ _ _ _ _) as [[[action act] fc] t]. simpl in Hd, Hr, Hi.
  set (s1 := emit_change fc (on_table t s)) in E.
  assert (H1 : ext source s s1).
  { etrans; [apply (ext_state source (with_table t s.1)), kept_table; done|]. apply ext_change. }
  destruct H1 as [Hk Hl]. pose proof (conj Hk Hl : ext source s s1) as H1.
  assert (Hserve : ∀ a p, serves s.1 a p → serves s1.1 a p).
  { intros a p. unfold serves. destruct Hk. by rewrite kp_routes0, kp_tunnels0. }
  etrans; [exact H1|]. clear H1 Hl. clearbody s1.
  destruct action as [pod svc|sid|sid|acts sid|acts frs sid poll|w|p|p|]; simplify_eq; simpl in Hd.
  - apply IH in E. etrans; [|exact E]. etrans; [apply ext_conntrack|apply ext_if].
  - apply ext_if.
  - apply ext_if.
  - destruct (dispatch_all _ _ _ _ _ _) as [s2|] eqn:E2; [|done]. simpl in E. simplify_eq.
    etrans; [by eapply ext_all|apply ext_if].
  - destruct (dispatch_all _ _ _ _ _ _) as [s2|] eqn:E2; [|done]. simpl in E. simplify_eq.
    apply (ext_all source) in E2. etrans; [etrans; [apply ext_l4|exact E2]|].
    etrans; [|apply ext_if]. destruct poll; [|done]. apply ext_out. simpl.
    destruct (ext_l4 source frs s1) as [Hk1 _], E2 as [Hk2 _], Hk, Hk1, Hk2.
    rewrite kp_routes2, kp_routes1, kp_routes0. naive_solver.
  - apply ext_send. intros q Hq. apply Hserve. unfold serves. destruct Hd as (i & z & ->).
    destruct Hk. congruence.
  - apply (ext_send source (Some p)). intros q [= <-]. apply Hserve. unfold serves. by destruct Hd as (i & z & ->).
  - apply (ext_send source (Some p)). intros q [= <-]. apply Hserve. unfold serves. by destruct Hd as (i & z & ->).
  - unfold not_found. destruct (_ || _) eqn:Eo; [|done]. destruct source; [|done..].
    destruct (gateway_tx s1.1) eqn:Eg; [|done]. apply ext_out. simpl. split_and!; [done..| |].
    + destruct Hk. congruence.
    + apply orb_true_iff in Eo as [Eo%Z.eqb_eq|Eo%negb_true_iff]; eauto.
Qed.
End Dispatch.

Lemma ext_dispatch fuel now packet source s s' :
  dispatch_frame fuel now packet source s = Some s' → ext source s s'.
Proof.
  revert packet source s s'. induction fuel as [|fuel IH]; intros packet source s s' E; [done|].
  cbn [dispatch_frame] in E. pose proof (ext_reverse source now packet s) as Hr.
  destruct (reverse_dnat now packet s) as [pkt s1]. cbn [snd] in Hr. etrans; [exact Hr|].
  eapply ext_loop; [|exact E]. exact IH.
Qed.

(** C10: a packet leaves the fabric only through the port that serves its destination
    address: the port of the pod or the adapter there, or the tunnel to the worker the
    address was placed on; the port is attached.  The gateway gets packets from ports
    only, never its own back, and only for addresses that no endpoint has and that are
    its own or outside the subnet.  This covers packets that activators inject or have
    replayed; ports, tunnels and routes are unchanged. *)
Theorem dispatch_outputs_justified fuel now frame source f f' outputs :
  ingress_frame fuel now frame source f = Some (f', outputs) →
  kept f f' ∧ ∀ o, o ∈ outputs → justified f source o.
Proof.
  unfold ingress_frame. intros E. assert (Hx : ext source (f, []) (f', outputs)).
  { case_decide; [by simplify_eq|by eapply ext_dispatch]. }
  destruct Hx as [Hk (l & Hl & Hj)]. split; [done|]. simpl in Hl. subst. by apply Forall_forall.
Qed.

(** ** Connections to services *)
Definition sent (l : list Output) : list (PortId * list Z) :=
  omap (λ o, match o with Sent p frame => Some (p, frame) | _ => None end) l.

Lemma sent_event e (s : st) : sent (emit_event e s).2 = sent s.2.
Proof. unfold emit_event, sent. destruct (event_tx s.1); [|done]. simpl. by rewrite omap_app, app_nil_r. Qed.
Lemma change_fields c (s : st) : sent (emit_change c s).2 = sent s.2 ∧ (emit_change c s).1 = s.1.
Proof.
  unfold emit_change. destruct c; [|done]. rewrite sent_event. unfold emit_event. by destruct (event_tx s.1).
Qed.

Lemma routed t a i z b :
  routes t !! a = Some (i, z, b) →
  ∃ ep, by_ip t !! a = Some ep ∧ ip ep = i ∧ state ep = z ∧ skeleton (backend ep) = b.
Proof.
  rewrite routes_lookup. destruct (by_ip t !! a) as [ep|]; [|done]. intros [= <- <- <-]. eauto.
Qed.

Lemma skeleton_pod b p : skeleton b = Pod p → b = Pod p.
Proof. destruct b; simpl; congruence. Qed.

(** A packet for a pod with a port *)
Lemma lookup_pod now dst frame skip t i z p :
  routes t !! dst = Some (i, z, Pod (Some p)) →
  (lookup_and_buffer now dst frame skip t).1.1 = (LocalPod p, false).
Proof.
  intros (ep & Ha & _ & _ & Hb%skeleton_pod)%routed. unfold lookup_and_buffer. rewrite Ha.
  assert (Ht : backend (if skip then (None, ep) else track_flow now frame ep).2 = Pod (Some p))
    by (destruct skip; [done|by rewrite EndpointTableInv.track_backend]).
  destruct (if skip then _ else _) as [fc ep']. simpl in Ht. by rewrite Ht.
Qed.

(** A packet for a ready service whose backend is reachable *)
Lemma lookup_forward now dst frame skip t svc s pol pod :
  routes t !! dst = Some (svc, Ready, Service s pol (Some pod) tt) →
  pod ≠ dst → is_backend_reachable pod t = true →
  (lookup_and_buffer now dst frame skip t).1.1 = (ServiceForward pod svc, false).
Proof.
  intros (ep & Ha & Hi & Hz & Hb)%routed Hne Hre. unfold lookup_and_buffer. rewrite Ha.
  assert (Ht : route (if skip then (None, ep) else track_flow now frame ep).2 = route ep)
    by (destruct skip; [done|apply track_route]).
  destruct (if skip then _ else _) as [fc ep']. simpl in Ht. unfold route in Ht. injection Ht as Hi' Hz' Hb'.
  rewrite Hb in Hb'. destruct (backend ep') as [s' pol' b' p'| | | |]; simplify_eq/=.
  unfold forward_target. rewrite Hz', Hz, Hi'. unfold is_backend_reachable in *.
  rewrite EndpointTableInv.by_ip_with, decide_False by done. rewrite Hre, andb_true_r.
  by apply Z.eqb_neq in Hne as ->.
Qed.

Lemma reachable_pod t b i z p : routes t !! b = Some (i, z, Pod (Some p)) → is_backend_reachable b t = true.
Proof.
  intros (ep & Ha & _ & _ & Hb%skeleton_pod)%routed. unfold is_backend_reachable. by rewrite Ha, Hb.
Qed.

Lemma fabric_packet frame : (23 ≤ length frame)%nat → FabricPacket_new frame = Some frame.
Proof. intros. unfold FabricPacket_new, FABRIC_HDR_SZ. rewrite decide_False by lia. done. Qed.

Lemma framed_long frame n : framed frame n → (23 ≤ length frame)%nat.
Proof. intros []. unfold FABRIC_HDR_SZ in *. lia. Qed.

(** The last pass of a packet to a local pod *)
Lemma deliver_pod dispatch passes now pkt source skip i z p (s : st) :
  (23 ≤ length pkt)%nat → routes (endpoint_table s.1) !! ipv4_dst pkt = Some (i, z, Pod (Some p)) →
  p ∈ ports s.1 →
  ∃ s', entity_loop dispatch (S passes) now pkt source skip s = Some s' ∧
    sent s'.2 = sent s.2 ++ [(p, pkt)] ∧ conntrack s'.1 = conntrack s.1.
Proof.
  intros Hl Hr Hp. cbn [entity_loop]. rewrite fabric_packet by done.
  pose proof (lookup_pod now (ipv4_dst pkt) pkt skip (endpoint_table s.1) _ _ _ Hr) as Hlk.
  destruct (lookup_and_buffer _ _ _ _ _) as [[[action act] fc] t]. simpl in Hlk. simplify_eq.
  destruct (change_fields fc (on_table t s)) as [Hs Hf]. eexists. split; [done|].
  unfold send_port. rewrite Hf. rewrite decide_True by done. simpl. unfold sent in *.
  by rewrite omap_app, Hs, Hf.
Qed.

(** The pass before, of a packet for a service *)
Lemma loop_forward dispatch passes now pkt source skip svc sid pol pod (s : st) :
  (23 ≤ length pkt)%nat →
  routes (endpoint_table s.1) !! ipv4_dst pkt = Some (svc, Ready, Service sid pol (Some pod) tt) →
  pod ≠ ipv4_dst pkt → is_backend_reachable pod (endpoint_table s.1) = true →
  ∃ t fc, routes t = routes (endpoint_table s.1) ∧
    entity_loop dispatch (S passes) now pkt source skip s =
    entity_loop dispatch passes now (rewrite_ipv4_dst pkt svc pod) source true
      (insert_conntrack_entry now (rewrite_ipv4_dst pkt svc pod) svc pod
         (emit_change fc (on_table t s))).
Proof.
  intros Hl Hr Hne Hre. cbn [entity_loop]. rewrite fabric_packet by done.
  pose proof (lookup_forward now (ipv4_dst pkt) pkt skip _ _ _ _ _ Hr Hne Hre) as Hlk.
  destruct (lookup_routes now (ipv4_dst pkt) pkt skip (endpoint_table s.1)) as [Ht _].
  destruct (lookup_and_buffer _ _ _ _ _) as [[[action act] fc] t]. simpl in Hlk, Ht. simplify_eq.
  by exists t, fc.
Qed.

(** The layer before: return traffic *)
Lemma reverse_miss now pkt proto (s : st) :
  (23 ≤ length pkt)%nat → ip_packet_protocol (ip_packet pkt) = Some proto →
  conntrack s.1 !! packet_key pkt proto = None → reverse_dnat now pkt s = (pkt, s).
Proof.
  intros Hl Hp Hm. unfold reverse_dnat. rewrite fabric_packet, Hp by done. unfold Conntrack.lookup.
  rewrite Hm. destruct s as [f o]. by destruct f.
Qed.
Lemma reverse_hit now pkt proto e (s : st) :
  (23 ≤ length pkt)%nat → ip_packet_protocol (ip_packet pkt) = Some proto →
  conntrack s.1 !! packet_key pkt proto = Some e →
  ∃ ct, reverse_dnat now pkt s =
    (rewrite_ipv4_src pkt (ipv4_src pkt) (Conntrack.service_ip e), (with_conntrack ct s.1, s.2)).
Proof.
  intros Hl Hp Hm. unfold reverse_dnat. rewrite fabric_packet, Hp by done. unfold Conntrack.lookup.
  rewrite Hm. eauto.
Qed.

(** A reply to a packet: addresses and ports are exchanged. *)
Record answers (reply frame : list Z) (m : nat) (pod : Ipv4Addr) : Prop := {
  an_framed : framed reply m;
  an_src : ipv4_src reply = pod;
  an_dst : ipv4_dst reply = ipv4_src frame;
  an_proto : ip_packet_protocol (ip_packet reply) = ip_packet_protocol (ip_packet frame);
  an_ports : ports_of (ip_packet reply) = ((ports_of (ip_packet frame)).2, (ports_of (ip_packet frame)).1);
}.

(** The first direction: one packet to the backend, and an entry for its replies *)
Lemma to_backend fuel now frame n source f svc pod s pol i z p proto :
  framed frame n → ip_packet_protocol (ip_packet frame) = Some proto →
  routes (endpoint_table f) !! ipv4_dst frame = Some (svc, Ready, Service s pol (Some pod) tt) →
  svc = ipv4_dst frame → pod ≠ svc → is_ip pod →
  routes (endpoint_table f) !! pod = Some (i, z, Pod (Some p)) → p ∈ ports f →
  conntrack f !! packet_key frame proto = None →
  let rewritten := rewrite_ipv4_dst frame svc pod in
  ∃ f' outputs, dispatch_frame (S fuel) now frame source (f, []) = Some (f', outputs) ∧
    sent outputs = [(p, rewritten)] ∧
    conntrack f' = Conntrack.insert (reverse_key (ip_packet frame) (ipv4_src frame) pod)
      {| Conntrack.service_ip := svc; Conntrack.backend_ip := pod; Conntrack.last_seen := now |}
      (conntrack f).
Proof.
  intros Hfr Hpr Hsvc Esvc Hne Hip Hpod Hp Hm rewritten. pose proof (framed_long _ _ Hfr) as Hl.
  assert (Hso : is_ip svc) by (rewrite Esvc; by apply (framed_at frame n)).
  assert (Hrl : (23 ≤ length rewritten)%nat)
    by (unfold rewritten, rewrite_ipv4_dst; by rewrite rewrite_ipv4_length).
  assert (Hdst : ipv4_dst rewritten = pod) by (apply (rewrite_ipv4_addr Hfr); auto).
  assert (Hsrc : ipv4_src rewritten = ipv4_src frame) by (apply (rewrite_ipv4_other_addr Hfr); auto; lia).
  destruct (rewrite_ipv4_transport (off := 16) (old := svc) (new := pod) Hfr) as [Hrp Hrt]; [auto|].
  cbn [dispatch_frame]. rewrite (reverse_miss now frame proto) by done.
  pose proof (reachable_pod _ _ _ _ _ Hpod) as Hre.
  destruct (loop_forward (dispatch_frame fuel now) 1 now frame source false svc s pol pod (f, []))
    as (t & fc & Hr & ->); [done|done|congruence|done|].
  destruct (change_fields fc (on_table t (f, []))) as [Hs Hf].
  unfold insert_conntrack_entry. fold rewritten. rewrite fabric_packet by done.
  edestruct (deliver_pod (dispatch_frame fuel now) 0 now rewritten source true i z p) as ([f' o'] & He & Ho & Hct);
    [done| | |].
  3:{ rewrite He. exists f', o'. split_and!; [done|cbn [snd] in Ho; by rewrite Ho, Hs|]. cbn [fst] in Hct. rewrite Hct, Hf. simpl.
    unfold reverse_key, ports_of, rewritten, rewrite_ipv4_dst in *. by rewrite Hsrc, Hrp, Hrt. }
  - rewrite Hdst. cbn [fst]. rewrite Hf. simpl. by rewrite Hr.
  - cbn [fst]. by rewrite Hf.
Qed.

(** The second direction *)
Lemma to_client fuel now reply m source f e i z p proto :
  framed reply m → ip_packet_protocol (ip_packet reply) = Some proto →
  conntrack f !! packet_key reply proto = Some e →
  routes (endpoint_table f) !! ipv4_dst reply = Some (i, z, Pod (Some p)) → p ∈ ports f →
  ∃ f' outputs, dispatch_frame (S fuel) now reply source (f, []) = Some (f', outputs) ∧
    sent outputs = [(p, rewrite_ipv4_src reply (ipv4_src reply) (Conntrack.service_ip e))].
Proof.
  intros Hfr Hpr He Hr Hp. pose proof (framed_long _ _ Hfr) as Hl. cbn [dispatch_frame].
  destruct (reverse_hit now reply proto e (f, [])) as [ct ->]; [done..|].
  set (pkt := rewrite_ipv4_src _ _ _).
  assert (Hpl : (23 ≤ length pkt)%nat)
    by (unfold pkt, rewrite_ipv4_src; by rewrite rewrite_ipv4_length).
  assert (Hdst : ipv4_dst pkt = ipv4_dst reply) by (apply (rewrite_ipv4_other_addr Hfr); auto; lia).
  destruct (deliver_pod (dispatch_frame fuel now) 1 now pkt source false i z p (with_conntrack ct f, []))
    as ([f' o'] & E & Ho & _); [done|by rewrite Hdst|done|]. exists f', o'. by split.
Qed.

(** C11: a connection to a service works in both directions: a packet for a ready
    service with a local backend leaves once, to the backend's port, with its
    destination rewritten to the backend and its source kept; a reply, at any later
    time while the tracker still has the entry this left, and wherever the reply enters
    the fabric, leaves once, to the client's port, with the service's address as its
    source. *)
Theorem service_nat_round_trip fuel now frame n source f s pol pod i z p proto :
  framed frame n → ip_packet_protocol (ip_packet frame) = Some proto →
  let svc := ipv4_dst frame in let client := ipv4_src frame in
  routes (endpoint_table f) !! svc = Some (svc, Ready, Service s pol (Some pod) tt) →
  pod ≠ svc → is_ip pod →
  routes (endpoint_table f) !! pod = Some (i, z, Pod (Some p)) → p ∈ ports f →
  conntrack f !! packet_key frame proto = None →
  ∃ f' outputs rewritten,
    dispatch_frame (S fuel) now frame source (f, []) = Some (f', outputs) ∧
    sent outputs = [(p, rewritten)] ∧ ipv4_dst rewritten = pod ∧ ipv4_src rewritten = client ∧
    ∀ reply m, answers reply frame m pod →
      (∃ e, conntrack f' !! packet_key reply proto = Some e ∧ Conntrack.service_ip e = svc) ∧
      ∀ fuel2 now2 source2 f2 e ic zc pc,
        conntrack f2 !! packet_key reply proto = Some e → Conntrack.service_ip e = svc →
        routes (endpoint_table f2) !! client = Some (ic, zc, Pod (Some pc)) → pc ∈ ports f2 →
        ∃ f3 outputs2 restored,
          dispatch_frame (S fuel2) now2 reply source2 (f2, []) = Some (f3, outputs2) ∧
          sent outputs2 = [(pc, restored)] ∧ ipv4_src restored = svc ∧ ipv4_dst restored = client.
Proof.
  intros Hfr Hpr svc client Hsvc Hne Hip Hpod Hp Hm.
  assert (Hso : is_ip svc) by by apply (framed_at frame n).
  destruct (to_backend fuel now frame n source f svc pod s pol i z p proto) as (f' & o & E & Ho & Hct); try done.
  exists f', o, (rewrite_ipv4_dst frame svc pod). split_and!; [done|done| | |].
  { apply (rewrite_ipv4_addr Hfr); auto. }
  { apply (rewrite_ipv4_other_addr Hfr); auto; lia. }
  intros reply m []. assert (Hpod' : is_ip (ipv4_src reply)) by by apply (framed_at reply m).
  assert (Hk : packet_key reply proto = reverse_key (ip_packet frame) client pod).
  { unfold packet_key, reverse_key. by rewrite Hpr, an_ports0, an_src0, an_dst0. }
  split.
  - rewrite Hct, Hk. unfold Conntrack.insert. rewrite lookup_insert_eq. eauto.
  - intros fuel2 now2 source2 f2 e ic zc pc He Hsvc2 Hc Hpc. unfold client in Hc. rewrite <- an_dst0 in Hc.
    destruct (to_client fuel2 now2 reply m source2 f2 e ic zc pc proto) as (f3 & o3 & E3 & Ho3);
      [done|congruence|done..|].
    eexists f3, o3, _. split_and!; [done|done| |].
    + rewrite Hsvc2. apply (rewrite_ipv4_addr an_framed0); auto.
    + unfold client. rewrite <- an_dst0. apply (rewrite_ipv4_other_addr an_framed0); auto; lia.
Qed.

(** ** Dispatching returns *)
Definition actions_of (a : EndpointAction) : list Action :=
  match a with ActivatorActions l _ | L4Result l _ _ _ => l | _ => [] end.
(** A replayed packet is too short to be one, or well-formed. *)
Definition replay_ok (action : Action) : Prop :=
  match action with
  | ReplayPacket raw => (length raw < 23)%nat ∨ ∃ n, framed raw n
  | _ => True
  end.
Definition is_service t (a : Ipv4Addr) : Prop :=
  ∃ i z s pol be, routes t !! a = Some (i, z, Service s pol be tt).
(** Backends are addresses of pods, not of services. *)
Definition direct t : Prop :=
  ∀ a i z s pol b, routes t !! a = Some (i, z, Service s pol (Some b) tt) →
    is_ip i ∧ is_ip b ∧ ¬ is_service t b.

Lemma direct_kept f f' : kept f f' → direct (endpoint_table f) → direct (endpoint_table f').
Proof. intros [_ E _ _ _ _ _ _]. unfold direct, is_service. by rewrite E. Qed.

Lemma nat_info s t svc pod :
  get_service_nat_info s t = Some (svc, pod) →
  ∃ a z s' pol, routes t !! a = Some (svc, z, Service s' pol (Some pod) tt).
Proof.
  unfold get_service_nat_info. destruct (service_id_to_ip t !! s) as [a|]; [|done]. simpl.
  destruct (by_ip t !! a) as [ep|] eqn:Ea; [|done]. simpl. intros E. exists a. rewrite routes_lookup, Ea.
  cbn. unfold route. destruct (backend ep) as [s' pol [b|] p| | | |]; simplify_eq/=. by do 3 eexists.
Qed.

(** A packet for anything but a service is dispatched without a nested call. *)
Lemma loop_direct dispatch passes now pkt source skip (s : st) :
  ((23 ≤ length pkt)%nat → ¬ is_service (endpoint_table s.1) (ipv4_dst pkt)) →
  is_Some (entity_loop dispatch (S passes) now pkt source skip s).
Proof.
  intros Hn. cbn [entity_loop]. unfold FabricPacket_new. case_decide as Hl; [done|].
  specialize (Hn ltac:(unfold FABRIC_HDR_SZ in Hl; lia)).
  pose proof (lookup_decided now (ipv4_dst pkt) pkt skip (endpoint_table s.1)) as Hd.
  destruct (lookup_and_buffer _ _ _ _ _) as [[[action act] fc] t]. simpl in Hd.
  destruct action; try done; exfalso; apply Hn; unfold is_service; naive_solver.
Qed.

Lemma reverse_dst now packet n (s : st) :
  framed packet n →
  length (reverse_dnat now packet s).1 = length packet ∧
  ipv4_dst (reverse_dnat now packet s).1 = ipv4_dst packet.
Proof.
  intros Hfr. unfold reverse_dnat. rewrite fabric_packet by by eapply framed_long.
  destruct (ip_packet_protocol _); [|done]. destruct (Conntrack.lookup _ _ _) as [[e|] ct]; [|done].
  simpl. unfold rewrite_ipv4_src. rewrite rewrite_ipv4_length. split; [done|].
  apply (rewrite_ipv4_other_addr Hfr); auto; lia.
Qed.

Lemma reverse_short now packet (s : st) : (length packet < 23)%nat → reverse_dnat now packet s = (packet, s).
Proof.
  intros. unfold reverse_dnat, FabricPacket_new, FABRIC_HDR_SZ. by rewrite decide_True by lia.
Qed.

Lemma replay_returns fuel now raw sid svc pod (s : st) :
  direct (endpoint_table s.1) → replay_ok (ReplayPacket raw) →
  get_service_nat_info sid (endpoint_table s.1) = Some (svc, pod) →
  is_Some (dispatch_frame (S fuel) now (rewrite_ipv4_dst raw svc pod) Internal
    (insert_conntrack_entry now (rewrite_ipv4_dst raw svc pod) svc pod s)).
Proof.
  intros Hdir Hok (a & z & s' & pol & Hr)%nat_info. destruct (Hdir _ _ _ _ _ _ Hr) as (Hsvc & Hpod & Hns).
  cbn [dispatch_frame]. set (pkt := rewrite_ipv4_dst raw svc pod). set (s1 := insert_conntrack_entry _ _ _ _ s).
  assert (Hk : kept s.1 s1.1) by apply (ext_conntrack Internal).
  destruct (ext_reverse Internal now pkt s1) as [Hk2 _].
  assert (Ht : routes (endpoint_table (reverse_dnat now pkt s1).2.1) = routes (endpoint_table s.1))
    by (rewrite (kp_routes _ _ Hk2); apply (kp_routes _ _ Hk)).
  assert (Hp : (23 ≤ length (reverse_dnat now pkt s1).1)%nat →
    ipv4_dst (reverse_dnat now pkt s1).1 = pod).
  { destruct Hok as [Hl|[n Hfr]].
    - assert (length pkt < 23)%nat by (unfold pkt, rewrite_ipv4_dst; by rewrite rewrite_ipv4_length).
      rewrite reverse_short by done. simpl. lia.
    - intros _. destruct (reverse_dst now pkt n s1) as [_ ->];
        [apply (rewrite_ipv4_framed Hfr); auto|apply (rewrite_ipv4_addr Hfr); auto]. }
  destruct (reverse_dnat now pkt s1) as [pkt' s2]. cbn [fst snd] in *.
  apply loop_direct. intros Hl. unfold is_service in *. by rewrite Ht, Hp.
Qed.

Section Returns.
Hypothesis replays : ∀ s packet raw p a p',
  process_frame s packet raw p = (Some a, p') → Forall replay_ok (actions_of a).

Lemma lookup_replays now dst frame skip t :
  Forall replay_ok (actions_of (lookup_and_buffer now dst frame skip t).1.1.1).
Proof.
  unfold lookup_and_buffer. destruct (by_ip t !! dst) as [ep|]; [|by simpl].
  destruct (if skip then _ else _) as [fc ep'].
  assert (Hbuf : ∀ svc n ms ep0 t0,
    Forall replay_ok (actions_of (buffer_and_activate svc n ms frame now fc dst ep0 t0).1.1.1)).
  { intros svc n ms ep0 t0. pose proof (buffer_action svc n ms frame now fc dst ep0 t0) as Hx.
    by apply elem_of_cons in Hx as [->|[->|[]%elem_of_nil]%elem_of_cons]; simpl. }
  destruct (backend ep') as [s pol b p| | | |[]]; try apply Hbuf; try by simpl.
  destruct (forward_target _ _ _ _); [by simpl|]. unfold dispatch_service_buffer.
  destruct (if is_passthrough p then _ else _) as [[action|] p'] eqn:Ep; [|by apply Hbuf].
  destruct (is_passthrough p); [done|]. destruct (FabricPacket_new frame); [|done]. by eapply replays.
Qed.

Lemma all_returns fuel now actions sid dst (s : st) :
  direct (endpoint_table s.1) → Forall replay_ok actions →
  is_Some (dispatch_all (dispatch_frame (S fuel) now) now actions sid dst s).
Proof.
  intros Hdir Hok. revert s Hdir. induction Hok as [|a l Ha Hl IH]; intros s Hdir; [done|]. cbn [dispatch_all].
  assert (His : is_Some (dispatch_action (dispatch_frame (S fuel) now) now a sid dst s)).
  { destruct a as [[]| | | |raw| | | | | | | | |]; try done. cbn [dispatch_action].
    destruct (get_service_nat_info _ _) as [[svc pod]|] eqn:E; [|done]. by eapply replay_returns. }
  destruct His as [s' E]. rewrite E. cbn [mbind option_bind]. apply IH.
  eapply direct_kept, Hdir. eapply (ext_action _ (ext_dispatch (S fuel) now) Internal), E.
Qed.

Lemma loop_returns fuel passes now pkt source skip (s : st) :
  direct (endpoint_table s.1) →
  is_Some (entity_loop (dispatch_frame (S fuel) now) passes now pkt source skip s).
Proof.
  revert pkt skip s. induction passes as [|passes IH]; intros pkt skip s Hdir; [done|].
  cbn [entity_loop]. destruct (FabricPacket_new pkt) as [fp|]; [|done].
  pose proof (lookup_replays now (ipv4_dst fp) pkt skip (endpoint_table s.1)) as Hok.
  destruct (lookup_routes now (ipv4_dst fp) pkt skip (endpoint_table s.1)) as [Hr Hi].
  destruct (lookup_and_buffer _ _ _ _ _) as [[[action act] fc] t]. cbn [fst snd] in Hok, Hr, Hi.
  set (s1 := emit_change fc (on_table t s)).
  assert (Hk : kept s.1 s1.1).
  { unfold s1. destruct (change_fields fc (on_table t s)) as [_ ->]. by apply kept_table. }
  pose proof (direct_kept _ _ Hk Hdir) as Hdir1. clearbody s1. destruct action; try done.
  - apply IH. eapply direct_kept, Hdir1. etrans; [eapply (ext_conntrack Internal)|apply (ext_if Internal)].
  - destruct (all_returns fuel now actions service_id (ipv4_dst fp) s1) as [s2 E]; [done..|]. by rewrite E.
  - destruct (all_returns fuel now actions service_id (ipv4_dst fp) (send_l4_frames frames s1)) as [s2 E];
      [|done|by rewrite E]. eapply direct_kept, Hdir1. apply (ext_l4 Internal).
Qed.

Lemma dispatch_some fuel now packet source (s : st) :
  direct (endpoint_table s.1) → is_Some (dispatch_frame (S (S fuel)) now packet source s).
Proof.
  intros Hdir. remember (S fuel) as k eqn:Ek. cbn [dispatch_frame].
  destruct (ext_reverse source now packet s) as [Hk _].
  destruct (reverse_dnat now packet s) as [pkt s1]. subst k. apply loop_returns. by eapply direct_kept.
Qed.
End Returns.

(** More fuel changes nothing. *)
Section Mono.
Context (d d' : list Z → FrameSource → st → option st).
Hypothesis Hd : ∀ raw source s s', d raw source s = Some s' → d' raw source s = Some s'.

Lemma all_mono now actions sid dst s s' :
  dispatch_all d now actions sid dst s = Some s' → dispatch_all d' now actions sid dst s = Some s'.
Proof.
  revert s. induction actions as [|a l IH]; intros s; [done|]. cbn [dispatch_all].
  destruct (dispatch_action d now a sid dst s) as [s1|] eqn:E; [|done]. cbn [mbind option_bind]. intros E2.
  assert (dispatch_action d' now a sid dst s = Some s1) as ->; [|by apply IH].
  destruct a as [[]| | | |raw| | | | | | | | |]; try done. cbn [dispatch_action] in *.
  destruct (get_service_nat_info _ _) as [[svc pod]|]; [by apply Hd|done].
Qed.
Lemma loop_mono passes now pkt source skip s s' :
  entity_loop d passes now pkt source skip s = Some s' →
  entity_loop d' passes now pkt source skip s = Some s'.
Proof.
  revert pkt skip s. induction passes as [|passes IH]; intros pkt skip s; [done|]. cbn [entity_loop].
  destruct (FabricPacket_new pkt); [|done]. destruct (lookup_and_buffer _ _ _ _ _) as [[[[] act] fc] t]; try done.
  - apply IH.
  - intros E. destruct (dispatch_all d _ _ _ _ _) as [s1|] eqn:E1; [|done]. by erewrite all_mono.
  - intros E. destruct (dispatch_all d _ _ _ _ _) as [s1|] eqn:E1; [|done]. by erewrite all_mono.
Qed.
End Mono.
Lemma dispatch_mono fuel fuel' now packet source s s' :
  (fuel ≤ fuel')%nat → dispatch_frame fuel now packet source s = Some s' →
  dispatch_frame fuel' now packet source s = Some s'.
Proof.
  revert fuel' packet source s s'. induction fuel as [|fuel IH]; intros fuel' packet source s s' Hle E; [done|].
  destruct fuel' as [|fuel']; [lia|]. cbn [dispatch_frame] in *. destruct (reverse_dnat now packet s).
  eapply loop_mono, E. intros raw src s1 s2. apply IH. lia.
Qed.

(** Dispatching a packet returns: where services point to pods and activators replay
    well-formed packets, a nesting of two is enough for every packet, whatever its
    length and contents, and deeper nesting never changes the result. *)
Theorem dispatch_returns now frame source f :
  (∀ s packet raw p a p', process_frame s packet raw p = (Some a, p') → Forall replay_ok (actions_of a)) →
  direct (endpoint_table f) →
  ∃ f' outputs, ∀ fuel, (2 ≤ fuel)%nat → ingress_frame fuel now frame source f = Some (f', outputs).
Proof.
  intros Hrep Hdir. unfold ingress_frame. case_decide; [by exists f, []|].
  destruct (dispatch_some Hrep 0 now frame source (f, [])) as [[f' o] E]; [done|].
  exists f', o. intros fuel Hf. by eapply dispatch_mono.
Qed.

End Inv.
End ForwardingInv.
