(* ===== verification/FabricDemo.v ===== *)
(** * A fabric at work

    A concrete fabric on which the theorems of [EndpointTableInv] and [ForwardingInv]
    apply, and a few behaviours of the code that are worth knowing. *)

From S2P Require Import Prelude SmTypes Protocol Flow Checksum Frame Processor EndpointTable.
From S2P Require Import EndpointTableInv Forwarding ForwardingInv.

Module FabricDemo.
Import Checksum Frame Processor EndpointTable Fabric EndpointTableInv ForwardingInv.

(** ** Packets *)
Definition tcp_frame (src dst sport dport fl : Z) : list Z :=
  [0; 0; 0] ++ [69; 0; 0; 40; 0; 0; 0; 0; 64; 6; 0; 0] ++ octets src ++ octets dst ++
  [hi8 sport; lo8 sport; hi8 dport; lo8 dport] ++ [0; 0; 0; 0; 0; 0; 0; 0; 80; fl; 0; 0; 0; 0; 0; 0].
Definition gateway_addr := ipv4_new 10 0 0 1.
Definition client := ipv4_new 10 0 0 2.
Definition pod := ipv4_new 10 0 0 3.
Definition service := ipv4_new 10 0 0 10.
Definition syn := tcp_frame client service 4000 80 2.
Definition syn_ack := tcp_frame pod client 80 4000 18.

(** Deciding that a packet is well-formed *)
Definition framedb (frame : list Z) : bool :=
  forallb (λ b, (0 <=? b) && (b <? 256)) frame && (zlen frame <=? 65537) &&
  (20 <=? ihl_of (frame !!! FABRIC_HDR_SZ))%nat &&
  (FABRIC_HDR_SZ + ihl_of (frame !!! FABRIC_HDR_SZ) <=? length frame)%nat.
Lemma framedb_framed frame : framedb frame = true → framed frame (ihl_of (frame !!! FABRIC_HDR_SZ)).
Proof.
  unfold framedb. rewrite !andb_true_iff, !Nat.leb_le, forallb_forall. intros [[[Hb Hz] Hm] Hf].
  split; [|lia|done|done|done]. apply Forall_forall. intros x Hx%list_elem_of_In%Hb.
  unfold is_byte. lia.
Qed.

(** ** An activator that has a fixed packet replayed for every packet it sees *)
#[local] Instance demo_slicer : PacketSlicer := {|
  from_ip := λ l, if decide (length l < 20)%nat then None
    else Some {| sl_ipv4 := Some {| sl_source := ipv4_at l 12; sl_destination := ipv4_at l 16;
                                    sl_total_len := zlen l |}; sl_transport := None |} |}.
#[local] Instance demo_component : Component unit := {|
  call_process_events := λ w events,
    (Some (omap (λ e, match e with Packet _ => Some (ReplayPacket syn) | _ => None end) events), w) |}.
#[local] Instance demo_streams : StreamOps unit := {|
  stream_manager_new := λ _ _, tt;
  receive_frame := λ _ sm, ({| so_events := []; so_frames := [] |}, sm);
  execute_action := λ _ sm, ({| so_events := []; so_frames := [] |}, sm);
  sm_handle_timeout := λ sm, ({| so_events := []; so_frames := [] |}, sm);
  poll_delay := λ sm, (None, sm);
  update_backend := λ _ sm, sm |}.
Abbreviation DemoProcessor := (ServiceProcessor unit unit).
Definition demo_activator (port : Z) : option (ActivatorInstance unit) :=
  Some {| store := tt; pending_events := []; last_backend_need := NeedNone |}.
Definition make_processor (s : ServiceId) (pol : ServicePolicy) (a : Ipv4Addr) : DemoProcessor :=
  build_processor demo_activator pol a.

Lemma demo_replays s packet raw (p : DemoProcessor) a p' :
  process_frame s packet raw p = (Some a, p') → Forall replay_ok (actions_of a).
Proof.
  cbn. unfold sp_process_frame.
  destruct (extract_dst_port packet ≫= _) as [[port [|act|]]|]; intros E; simplify_eq.
  - destruct (parse_frame_to_packet_info _ _ _) as [info ft]. unfold process_events in E.
    destruct (Processor.pending_events _) as [|e l]; simplify_eq/=; [constructor|].
    apply Forall_forall. intros x.
    match goal with |- x ∈ ?m → _ =>
      change m with (omap (λ e, match e with Packet _ => Some (ReplayPacket syn) | _ => None end) (e :: l)) end.
    rewrite list_elem_of_omap. intros (y & _ & Hy). destruct y; simplify_eq. right.
    eexists. by apply framedb_framed.
  - destruct (stream_manager p) as [sm|]; simplify_eq/=. constructor.
Qed.

(** ** A fabric with a client, a service and its backend *)
Definition policy (activator : option ActivatorConfig) : ServicePolicy :=
  {| sp_ports := [{| pc_port := 80; pc_target_port := 80; pc_activator := activator |}];
     sp_buffer_frames := 16; sp_timeout_ms := 30000 |}.
Definition local_pod (a : Ipv4Addr) : EndpointSpec :=
  {| esp_ip := a; esp_kind := KindPod (Some {| epl_worker_id := 1 |}) |}.
Definition service_spec (activator : option ActivatorConfig) (ready : bool) : EndpointSpec :=
  {| esp_ip := service;
     esp_kind := KindService 7 (policy activator)
       (Some {| epb_pod_ip := pod; epb_placement := Some {| epl_worker_id := 1 |}; epb_ready := ready |}) |}.
Definition configure (specs : list EndpointSpec) (f : Fabric DemoProcessor) : option (Fabric DemoProcessor) :=
  (λ r, r.1.1) <$> endpoint_update 2 0 1 make_processor None specs [] f.
Definition with_ports (f : Fabric DemoProcessor) : Fabric DemoProcessor :=
  (add_port_inner 0 (Some pod) (add_port_inner 0 (Some client) f).2.1).2.1.
Definition demo_fabric (activator : option ActivatorConfig) (ready : bool) : Fabric DemoProcessor :=
  with_ports (default (Fabric.new gateway_addr 24)
    (configure [local_pod client; local_pod pod; service_spec activator ready]
      (set_event_channel (set_gateway (Fabric.new gateway_addr 24))))).
Definition ready_fabric := demo_fabric None true.

Example syn_reaches_backend :
  (sent ∘ snd <$> ingress_frame 2 5 syn (FromPort 0) ready_fabric) =
  Some [(1, rewrite_ipv4_dst syn service pod)].
Proof. by vm_compute. Qed.

(** The activator takes the packet of a service that is not ready and has its packet
    replayed to the backend: a nested dispatch. *)
Example activator_replays :
  (sent ∘ snd <$> ingress_frame 2 5 syn (FromPort 0) (demo_fabric (Some (ActTcp 5)) false)) =
    Some [(1, rewrite_ipv4_dst syn service pod)] ∧
  ingress_frame 1 5 syn (FromPort 0) (demo_fabric (Some (ActTcp 5)) false) = None.
Proof. by vm_compute. Qed.

(** ** The theorems applied *)
Lemma dispatch_outputs_justified_witness :
  match ingress_frame 2 5 syn (FromPort 0) ready_fabric with
  | Some (f', outputs) =>
      kept ready_fabric f' ∧ ∀ o, o ∈ outputs → justified ready_fabric (FromPort 0) o
  | None => False
  end.
Proof.
  destruct (ingress_frame 2 5 syn (FromPort 0) ready_fabric) as [[f' outputs]|] eqn:E;
    [exact (dispatch_outputs_justified 2 5 syn (FromPort 0) ready_fabric f' outputs E)|].
  vm_compute in E. discriminate E.
Defined.

Lemma ready_ports : 0 ∈ ports ready_fabric ∧ 1 ∈ ports ready_fabric.
Proof.
  assert (bool_decide (0 ∈ ports ready_fabric ∧ 1 ∈ ports ready_fabric) = true) as E by by vm_compute.
  by apply bool_decide_eq_true_1 in E.
Qed.

Lemma ready_routes :
  routes (endpoint_table ready_fabric) !! ipv4_dst syn =
    Some (ipv4_dst syn, Ready, Service 7 (policy None) (Some pod) tt) ∧
  routes (endpoint_table ready_fabric) !! pod = Some (pod, Ready, Pod (Some 1)) ∧
  routes (endpoint_table ready_fabric) !! ipv4_src syn = Some (client, Ready, Pod (Some 0)).
Proof. by vm_compute. Qed.
Lemma syn_fields :
  ip_packet_protocol (ip_packet syn) = Some 6 ∧ pod ≠ ipv4_dst syn ∧ is_ip pod ∧
  conntrack ready_fabric !! packet_key syn 6 = None ∧ ipv4_dst syn = service.
Proof. by vm_compute. Qed.
Lemma syn_framed : framed syn 20.
Proof. exact (framedb_framed syn eq_refl). Qed.
Lemma syn_ack_answers : answers syn_ack syn 20 pod.
Proof. split; [exact (framedb_framed syn_ack eq_refl)|by vm_compute..]. Qed.
#[local] Opaque ready_fabric syn syn_ack.

Lemma service_nat_round_trip_witness :
  ∃ f' outputs f3 outputs2 restored,
    dispatch_frame 1 5 syn (FromPort 0) (ready_fabric, []) = Some (f', outputs) ∧
    dispatch_frame 1 6 syn_ack (FromPort 1) (f', []) = Some (f3, outputs2) ∧
    sent outputs2 = [(0, restored)] ∧ ipv4_src restored = service.
Proof.
  destruct ready_routes as (Hsvc & Hpod & Hcl), ready_ports as [Hp0 Hp1].
  destruct syn_fields as (Hpr & Hne & Hip & Hct & Hs0).
  destruct (service_nat_round_trip 0 5 syn 20 (FromPort 0) ready_fabric 7 (policy None) pod pod Ready 1 6
    syn_framed Hpr Hsvc Hne Hip Hpod Hp1 Hct) as (f' & outputs & rewritten & E & _ & _ & _ & Hback).
  destruct (Hback syn_ack 20%nat syn_ack_answers) as [(e & He & Hs) Hfwd].
  destruct (ext_dispatch 1 5 syn (FromPort 0) (ready_fabric, []) (f', outputs) E) as [Hk _]. cbn [fst] in Hk.
  destruct (Hfwd 0%nat 6 (FromPort 1) f' e client Ready 0 He Hs) as (f3 & o2 & r & E2 & Ho & Hr & _);
    [by rewrite (kp_routes _ _ Hk)|by rewrite (kp_ports _ _ Hk)|].
  exists f', outputs, f3, o2, r. split_and!; [exact E|exact E2|exact Ho|by rewrite Hr].
Defined.

(** Deciding [direct] *)
Definition directb (t : EndpointTable DemoProcessor) : bool :=
  forallb (λ e : Z * _, match e.2 with
    | (i, _, Service _ _ (Some b) _) =>
        (0 <=? i) && (i <? 2 ^ 32) && (0 <=? b) && (b <? 2 ^ 32) &&
        match routes t !! b with Some (_, _, Service _ _ _ _) => false | _ => true end
    | _ => true
    end) (map_to_list (routes t)).
Lemma directb_direct t : directb t = true → direct t.
Proof.
  unfold directb. rewrite forallb_forall. intros Hall a i z s pol b Ha.
  specialize (Hall (a, (i, z, Service s pol (Some b) tt))). rewrite <- list_elem_of_In, elem_of_map_to_list in Hall.
  specialize (Hall Ha). simpl in Hall. rewrite !andb_true_iff in Hall. unfold is_ip.
  destruct Hall as [Hr Hb]. split_and!; [lia..|]. intros (i' & z' & s' & pol' & be & E).
  by rewrite E in Hb.
Qed.

Lemma dispatch_returns_witness :
  ∃ f' outputs, ∀ fuel, (2 ≤ fuel)%nat →
    ingress_frame fuel 5 syn (FromPort 0) (demo_fabric (Some (ActTcp 5)) false) = Some (f', outputs).
Proof.
  apply (dispatch_returns 5 syn (FromPort 0) (demo_fabric (Some (ActTcp 5)) false)).
  - exact demo_replays.
  - apply directb_direct. by vm_compute.
Defined.

(** Endpoint tables *)
Abbreviation table := (EndpointTable DemoProcessor).
Definition table_new : table := EndpointTable.new.
Definition op_pod : table_op (P := DemoProcessor) := Update 1 make_processor None [local_pod pod] [].
Definition op_attach : table_op (P := DemoProcessor) := Attach pod 1.
Definition table_pod : table := EndpointTableInv.run_op table_new op_pod.
Definition table_attached : table := EndpointTableInv.run_op table_pod op_attach.

Lemma pod_allowed : allowed table_new op_pod.
Proof. split; [|done]. intros Hne. by destruct Hne. Qed.
Lemma attach_allowed : allowed table_pod op_attach.
Proof.
  intros a (ep & He & Hb). destruct (decide (a = pod)) as [->|Hne].
  - vm_compute in He. injection He as <-. done.
  - unfold table_pod in He. simpl in He. rewrite lookup_insert_ne in He by done.
    by destruct a; vm_compute in He.
Qed.

Lemma endpoint_table_consistent_witness :
  reach table_attached ∧ (∀ a, ¬ attached (detach_port 1 table_attached) 1 a).
Proof.
  assert (Hr : reach table_attached).
  { apply reach_op; [apply reach_op; [apply reach_new|apply pod_allowed]|apply attach_allowed]. }
  split; [exact Hr|]. exact (proj2 (proj2 (proj2 (endpoint_table_consistent table_attached Hr))) 1).
Defined.

Definition to_pod (fl : Z) : list Z := tcp_frame client pod 4000 80 fl.
Lemma pod_start_delivers_witness :
  let ta := foldl receive (apply_single_spec 1 make_processor None (pod_spec pod None) table_new).2
              [(10, pod, to_pod 2); (11, client, syn_ack)] in
  let tb := foldl receive (apply_single_spec 1 make_processor None (pod_spec pod (Some 1)) ta).2
              [(50, pod, to_pod 16)] in
  (attach_port pod 1 tb).1 = inl [to_pod 2; to_pod 16].
Proof.
  intros ta tb. pose proof (pod_start_delivers 1 make_processor None pod 1 0 40
    [(10, pod, to_pod 2); (11, client, syn_ack)] [(50, pod, to_pod 16)] table_new) as Hd.
  cbv zeta in Hd. fold ta in Hd. fold tb in Hd. destruct (attach_port pod 1 tb) as [r tc].
  refine (eq_trans (proj1 (Hd _ _ _)) _); [by vm_compute| | |by vm_compute].
  - intros x [->|[->|[]%elem_of_nil]%elem_of_cons]%elem_of_cons Hx;
      unfold from_millis; simpl in *; [lia|by vm_compute in Hx].
  - intros x [->|[]%elem_of_nil]%elem_of_cons _. unfold from_millis. simpl. lia.
Defined.

Lemma activation_debounced_witness :
  head (activations pod [(10, pod, to_pod 2); (11, pod, to_pod 2)] (apply_unplaced pod table_new)) = Some 10.
Proof.
  exact (proj2 (activation_debounced pod [(11, pod, to_pod 2)] table_new 10 (to_pod 2) eq_refl) eq_refl).
Defined.

Definition op_lookup (now fl : Z) : table_op (P := DemoProcessor) :=
  EndpointTableInv.Lookup now pod (to_pod fl) false.
Definition told_all (l : list table_op) : table * gmap Z bool :=
  foldl (λ s o, (EndpointTableInv.run_op s.1 o, tell s.2 (reports s.1 o))) (table_new, ∅) l.
Lemma pod_lossless (t : table) now fl p :
  (backend <$> by_ip t !! pod) = Some (Pod p) → lossless t (op_lookup now fl).
Proof. intros E ep s pol b q Ha Hb. rewrite Ha in E. simpl in E. congruence. Qed.

Lemma demand_reports_exact_witness :
  let '(t, told) := told_all [op_pod; op_attach; op_lookup 5 2; op_lookup 6 16] in
  active_at t pod = true ∧ default false (told !! pod) = active_at t pod.
Proof.
  split; [by vm_compute|]. refine (demand_reports_exact _ _ _ pod).
  apply told_op; [apply told_op; [apply told_op; [apply told_op; [apply told_new| |]| |]| |]| |].
  - exact pod_allowed.
  - split; [by constructor|]. split; [|done]. intros Hx. by vm_compute in Hx.
  - exact attach_allowed.
  - done.
  - done.
  - apply (pod_lossless _ _ _ (Some 1)). by vm_compute.
  - done.
  - apply (pod_lossless _ _ _ (Some 1)). by vm_compute.
Defined.

(** ** Behaviours worth knowing *)
Definition placed_on (w : WorkerId) : EndpointSpec := pod_spec pod (Some w).
Definition update (specs : list EndpointSpec) (f : Fabric DemoProcessor) :
    option (Fabric DemoProcessor * list Output * list FlowStatusChange) := endpoint_update 2 20 1 make_processor None specs [] f.
Definition received (frame : list Z) (f : Fabric DemoProcessor) : Fabric DemoProcessor :=
  default f (fst <$> ingress_frame 2 10 frame (FromPort 0) f).
Definition buffered (a : Ipv4Addr) (f : Fabric DemoProcessor) : option nat :=
  (λ ep, length (buffer ep)) <$> by_ip (endpoint_table f) !! a.
Definition base_fabric : Fabric DemoProcessor := set_event_channel (Fabric.new gateway_addr 24).
Definition unplaced_fabric : Fabric DemoProcessor :=
  received (to_pod 2) (default base_fabric (configure [pod_spec pod None] base_fabric)).
Definition with_tunnel (f : Fabric DemoProcessor) : Fabric DemoProcessor := (add_tunnel_port 0 2 f).2.1.

(** Packets buffered for an unplaced pod are lost when it is placed on another worker:
    the endpoint is replaced before the effect that should flush its buffer is handled. *)
Example remote_placement_loses_buffer :
  buffered pod unplaced_fabric = Some 1%nat ∧
  (apply_single_spec 1 make_processor None (placed_on 2) (endpoint_table unplaced_fabric)).1 =
    [FlushPodBuffer pod] ∧
  ((λ r, (sent r.1.2, buffered pod r.1.1)) <$> update [placed_on 2] (with_tunnel unplaced_fabric)) =
    Some ([], Some 0%nat).
Proof. by vm_compute. Qed.

(** A service whose backend becomes ready on another worker drops what it buffered. *)
Definition waiting_service (ready : bool) : EndpointSpec := service_spec None ready.
Example remote_backend_loses_buffer :
  let f := received syn (default base_fabric
    (configure [placed_on 2; waiting_service false] (with_tunnel base_fabric))) in
  buffered service f = Some 1%nat ∧
  ((λ r, (sent r.1.2, buffered service r.1.1)) <$> update [waiting_service true] f) =
    Some ([], Some 0%nat) ∧
  (sent ∘ snd <$> (update [waiting_service true] f ≫= λ r,
     ingress_frame 2 30 syn (FromPort 5) r.1.1)) = Some [(0, rewrite_ipv4_dst syn service pod)].
Proof. by vm_compute. Qed.

(** Configuring a pod again while it has active connections forgets them without
    reporting that the demand ended. *)
Example resync_forgets_demand :
  let f := received (to_pod 16) (received (to_pod 2) ready_fabric) in
  active_at (endpoint_table f) pod = true ∧
  ((λ r, (active_at (endpoint_table r.1.1) pod, r.1.2, r.2)) <$> update [local_pod pod] f) =
    Some (false, [], []).
Proof. by vm_compute. Qed.

(** Updating a buffering service with what it already has clears its buffer. *)
Definition idle_service : EndpointSpec :=
  {| esp_ip := service; esp_kind := KindService 7 (policy None) None |}.
Example same_update_clears_buffer :
  let f := received syn (default base_fabric (configure [idle_service] base_fabric)) in
  buffered service f = Some 1%nat ∧
  ((λ r, buffered service r.1.1) <$> update [idle_service] f) = Some (Some 0%nat).
Proof. by vm_compute. Qed.

(** The address of a service given to a pod on another worker stays in the index. *)
Example remote_pod_keeps_service_index :
  let f := default base_fabric (configure [idle_service] base_fabric) in
  ((λ r, service_id_to_ip (endpoint_table r.1.1) !! 7) <$>
     update [pod_spec service (Some 2)] f) = Some (Some service).
Proof. by vm_compute. Qed.

(** With a prefix length of zero the mask is that of a single host. *)
Example empty_prefix_is_a_host :
  let f : Fabric DemoProcessor := Fabric.new gateway_addr 0 in
  is_in_subnet f gateway_addr = true ∧ is_in_subnet f client = false.
Proof. by vm_compute. Qed.

End FabricDemo.
