(* ===== verification/TcpActivator.v ===== *)
(** * The TCP activator ([activators/tcp/src/core.rs], [activators/activator-types])

    The activator of a service that scales to zero keeps the first packet of every flow,
    asks for a backend, and has the packets replayed once there is one.  [Activator] is
    the trait that the activators implement; [activator_component] makes an activator a
    component of a service processor. *)

From S2P Require Import Prelude SmTypes Flow Checksum Frame Processor.

Module Activators.
Import Processor.

(** The trait [Activator]; [None] when the call does not return. *)
Class Activator (A : Type) := { on_events : list Event → A → option (list Action * A) }.
Definition activator_component `{Activator A} : Component A :=
  {| call_process_events := λ a events,
       match on_events events a with Some (actions, a) => (Some actions, a) | None => (None, a) end |}.

(** ** Activators that report the need for a backend *)
Definition opens (events : list Event) : list Stream :=
  omap (λ e, match e with StreamOpen s => Some s | _ => None end) events.
(** An activator with streams computes a need from its state and reports every change of
    it, as long as no stream is opened twice. *)
Class TracksNeed (A : Type) `{Activator A} := {
  current_need : A → BackendNeed;
  open_streams : A → gset Stream;
  well_formed : A → Prop;
  on_events_need : ∀ events a actions a',
    on_events events a = Some (actions, a') → well_formed a →
    NoDup (opens events) → (∀ s, s ∈ opens events → s ∉ open_streams a) →
    foldl note_need (current_need a) actions = current_need a' ∧
    open_streams a' ⊆ open_streams a ∪ list_to_set (opens events) ∧ well_formed a';
}.

(** Actions that do not report a need *)
Definition quiet (x : Action) : Prop := ∀ n, note_need n x = n.
Lemma foldl_quiet acts n : Forall quiet acts → foldl note_need n acts = n.
Proof. intros H. revert n. induction H as [|x acts Hx _ IH]; intros n; [done|]. simpl. by rewrite Hx, IH. Qed.
Lemma opened_trans (A B C : gset Stream) (l1 l2 : list Stream) :
  B ⊆ A ∪ list_to_set l1 → C ⊆ B ∪ list_to_set l2 → C ⊆ A ∪ list_to_set (l1 ++ l2).
Proof.
  intros H1 H2 s Hs. apply H2, elem_of_union in Hs as [Hs|Hs]; [apply H1, elem_of_union in Hs as [Hs|Hs]|];
    apply elem_of_union; [by left|right..]; rewrite list_to_set_app; apply elem_of_union; auto.
Qed.

(** An instance of the host that is given batches of events, until a call fails *)
Section Serve.
Context `{Component W}.
Fixpoint serve (batches : list (list Event)) (inst : ActivatorInstance W) : bool * ActivatorInstance W :=
  match batches with
  | [] => (true, inst)
  | events :: batches =>
      match process_events (foldl (λ i e, push_event e i) inst events) with
      | (Some _, inst) => serve batches inst
      | (None, inst) => (false, inst)
      end
  end.
Definition start (w : W) : ActivatorInstance W :=
  {| store := w; pending_events := []; last_backend_need := NeedNone |}.

Lemma push_events events (inst : ActivatorInstance W) :
  foldl (λ i e, push_event e i) inst events =
  {| inst with pending_events := pending_events inst ++ events |}.
Proof.
  revert inst. induction events as [|e events IH]; intros inst; simpl.
  - destruct inst. simpl. by rewrite app_nil_r.
  - rewrite IH. unfold push_event. simpl. by rewrite <- (assoc_L (++)).
Qed.
End Serve.

Section Need.
Context `{TracksNeed A}.
#[local] Existing Instance activator_component.

Lemma opens_app e1 e2 : opens (e1 ++ e2) = opens e1 ++ opens e2.
Proof. apply omap_app. Qed.

Lemma serve_need batches (inst inst' : ActivatorInstance A) :
  pending_events inst = [] → last_backend_need inst = current_need (store inst) →
  well_formed (store inst) → NoDup (opens (concat batches)) → (∀ s, s ∈ opens (concat batches) → s ∉ open_streams (store inst)) →
  serve batches inst = (true, inst') →
  last_backend_need inst' = current_need (store inst') ∧ well_formed (store inst').
Proof.
  revert inst. induction batches as [|events batches IH]; intros inst Hp Hn Hw Hd Hf; simpl; [by intros [= <-]|].
  simpl in Hd, Hf. rewrite opens_app in Hd, Hf. apply NoDup_app in Hd as (Hd1 & Hd12 & Hd2).
  rewrite push_events, Hp. simpl. destruct events as [|e events].
  - unfold process_events. simpl. apply IH; [done..|]. intros s Hs. apply Hf. set_solver.
  - unfold process_events. simpl.
    destruct (on_events (e :: events) (store inst)) as [[actions a']|] eqn:E; [|done].
    destruct (on_events_need _ _ _ _ E Hw Hd1) as (Hn' & Ho' & Hw'); [intros s Hs; apply Hf; set_solver|].
    apply IH; simpl; [done|by rewrite Hn|done|done|].
    intros s Hs Hin. apply Ho' in Hin. apply elem_of_union in Hin as [Hin|Hin].
    + apply (Hf s); [set_solver|done].
    + apply elem_of_list_to_set in Hin. by apply (Hd12 s).
Qed.
End Need.
End Activators.

Module TcpActivator.
Import Processor Activators.

Definition MAX_FLOWS : Z := 1024.
Record FlowState := { raw_frame : list Z }.

Section Tcp.
Context `{!HashIter Z}.
Record TcpActivator := { flows : gmap Z FlowState }.
Definition new : TcpActivator := {| flows := ∅ |}.

(** A flow that is not known yet; beyond the limit its packet is not kept. *)
Definition keep (info : PacketInfo) (a : TcpActivator) : TcpActivator :=
  if Z.of_nat (size (flows a)) <? MAX_FLOWS
  then {| flows := <[pi_flow info := {| raw_frame := pi_raw_frame info |}]> (flows a) |}
  else a.
Definition handle_packet (info : PacketInfo) (a : TcpActivator) : list Action * TcpActivator :=
  let flow := pi_flow info in
  let tcp_flags := default 0 (pi_tcp_flags info) in
  let is_syn := negb (Z.land tcp_flags 2 =? 0) in
  let is_rst := negb (Z.land tcp_flags 4 =? 0) in
  if is_rst then ([DecidePacket flow DecDrop], a)
  else
    let known := bool_decide (is_Some (flows a !! flow)) in
    if is_syn then
      if negb known then ([DecidePacket flow DecBuffered; SetBackendNeed NeedTraffic], keep info a)
      else ([DecidePacket flow DecBuffered], a)
    else if known then ([DecidePacket flow DecBuffered], a)
    else ([DecidePacket flow DecBuffered; SetBackendNeed NeedTraffic], keep info a).
Definition handle_event (event : Event) (a : TcpActivator) : list Action * TcpActivator :=
  match event with
  | Packet info => handle_packet info a
  | BackendAvailable true =>
      ((λ e : Z * FlowState, ReplayPacket (raw_frame e.2)) <$> hash_iter (flows a), {| flows := ∅ |})
  | _ => ([], a)
  end.
Definition process_events (events : list Event) (a : TcpActivator) : list Action * TcpActivator :=
  foldl (λ s e, let '(actions, a) := handle_event e s.2 in (s.1 ++ actions, a)) ([], a) events.
#[export] Instance tcp_activator : Activator TcpActivator := {| on_events := λ events a, Some (process_events events a) |}.

(** ** What is replayed *)
Definition is_rst (info : PacketInfo) : bool := negb (Z.land (default 0 (pi_tcp_flags info)) 4 =? 0).
(** The first packets of the flows of a list of events, at most [MAX_FLOWS] of them, in
    the order of their arrival *)
Definition note_first (l : list (Z * list Z)) (event : Event) : list (Z * list Z) :=
  match event with
  | Packet info =>
      if is_rst info || bool_decide (pi_flow info ∈ l.*1) || (MAX_FLOWS <=? zlen l) then l
      else l ++ [(pi_flow info, pi_raw_frame info)]
  | _ => l
  end.
Definition first_packets (events : list Event) : list (Z * list Z) := foldl note_first [] events.
Definition no_backend (event : Event) : bool :=
  match event with BackendAvailable true => false | _ => true end.
Definition replayed (actions : list Action) : list (list Z) :=
  omap (λ a, match a with ReplayPacket frame => Some frame | _ => None end) actions.

(** The flows the activator keeps are those of the list. *)
Definition holds (l : list (Z * list Z)) (a : TcpActivator) : Prop :=
  NoDup l.*1 ∧ zlen l ≤ MAX_FLOWS ∧ flows a = list_to_map ((λ e, (e.1, {| raw_frame := e.2 |})) <$> l).

Lemma fst_flows (l : list (Z * list Z)) :
  ((λ e, (e.1, {| raw_frame := e.2 |})) <$> l).*1 = l.*1.
Proof. rewrite <- list_fmap_compose. by apply list_fmap_ext. Qed.

Lemma holds_size l a : holds l a → size (flows a) = length l.
Proof.
  intros (Hn & _ & ->). rewrite map_size_list_to_map by by rewrite fst_flows. by rewrite length_fmap.
Qed.
Lemma holds_known l a flow : holds l a → is_Some (flows a !! flow) ↔ flow ∈ l.*1.
Proof.
  intros (Hn & _ & ->). rewrite <- elem_of_dom, dom_list_to_map, elem_of_list_to_set. by rewrite fst_flows.
Qed.

Lemma process_snoc events e a :
  process_events (events ++ [e]) a =
  ((process_events events a).1 ++ (handle_event e (process_events events a).2).1,
   (handle_event e (process_events events a).2).2).
Proof. unfold process_events. rewrite foldl_snoc. by destruct (handle_event _ _). Qed.

Lemma handle_packet_spec info a :
  let '(actions, a') := handle_packet info a in
  replayed actions = [] ∧
  a' = (if is_rst info || bool_decide (is_Some (flows a !! pi_flow info)) then a else keep info a) ∧
  (SetBackendNeed NeedTraffic ∈ actions ↔
     is_rst info = false ∧ ¬ is_Some (flows a !! pi_flow info)).
Proof.
  unfold handle_packet, is_rst. destruct (negb (Z.land _ 4 =? 0)); [split_and!; [done..|set_solver]|].
  destruct (bool_decide (is_Some _)) eqn:E; [apply bool_decide_eq_true in E|apply bool_decide_eq_false in E];
    destruct (negb (Z.land _ 2 =? 0)); simpl; split_and!; try done; set_solver.
Qed.

Lemma holds_event e l a :
  no_backend e = true → holds l a →
  holds (note_first l e) (handle_event e a).2 ∧ replayed (handle_event e a).1 = [].
Proof.
  intros He Hh. destruct e as [[]| |info| | | | | | ]; try done. simpl in *.
  pose proof (handle_packet_spec info a) as Hs. destruct (handle_packet info a) as [actions a'].
  destruct Hs as (Hr & -> & _). simpl. split; [|done].
  rewrite (bool_decide_ext _ _ (holds_known l a (pi_flow info) Hh)).
  destruct (is_rst info); [done|]. simpl. destruct (bool_decide _) eqn:Ek; [done|].
  apply bool_decide_eq_false in Ek. unfold keep. rewrite (holds_size l a Hh), Z.ltb_antisym.
  change (Z.of_nat (length l)) with (zlen l).
  destruct Hh as (Hn & Hb & Hf). destruct (MAX_FLOWS <=? zlen l) eqn:Em; simpl.
  - done.
  - split_and!.
    + rewrite fmap_app. simpl. apply NoDup_app. split_and!; [done| |apply NoDup_singleton]. set_solver.
    + apply Z.leb_gt in Em. rewrite length_app. cbn [length]. lia.
    + cbn [flows]. rewrite Hf, fmap_app. cbn [fmap list_fmap fst snd].
      rewrite list_to_map_snoc; [done|by rewrite fst_flows].
Qed.

Lemma holds_run events :
  Forall (λ e, no_backend e = true) events →
  holds (first_packets events) (process_events events new).2 ∧
  replayed (process_events events new).1 = [].
Proof.
  induction events as [|e events IH] using rev_ind; intros Hb.
  - split; [|done]. split_and!; [constructor|vm_compute; done|done].
  - apply Forall_app in Hb as [Hb He]. rewrite Forall_singleton in He. destruct (IH Hb) as [Hh Hr].
    rewrite process_snoc. unfold first_packets. rewrite foldl_snoc. fold (first_packets events).
    destruct (holds_event e _ _ He Hh) as [Hh' Hr']. split; [done|].
    simpl. unfold replayed in *. by rewrite omap_app, Hr, Hr'.
Qed.

(** The TCP activator replays the first packet of every flow, once: when a backend
    becomes available, exactly the packets that opened the flows seen so far (the first
    1024) are replayed, nothing was replayed before, and nothing is kept.  Every packet
    that opens a flow asks for a backend. *)
Theorem tcp_replays_first_packets events info :
  Forall (λ e, no_backend e = true) events →
  let '(before, a) := process_events events new in
  let '(actions, a') := handle_event (BackendAvailable true) a in
  replayed before = [] ∧ replayed actions ≡ₚ (first_packets events).*2 ∧ flows a' = ∅ ∧
  Z.of_nat (size (flows a)) ≤ MAX_FLOWS ∧
  (is_rst info = false → pi_flow info ∉ (first_packets events).*1 →
   SetBackendNeed NeedTraffic ∈ (handle_event (Packet info) a).1).
Proof.
  intros Hb. destruct (holds_run events Hb) as [Hh Hr]. destruct (process_events events new) as [before a].
  simpl in Hh, Hr |- *. pose proof Hh as (Hn & Hm & Hf). split_and!; [done| |done| |].
  - assert (Hh2 : replayed ((λ e : Z * FlowState, ReplayPacket (raw_frame e.2)) <$> hash_iter (flows a)) =
      (λ e : Z * FlowState, raw_frame e.2) <$> hash_iter (flows a)).
    { unfold replayed. induction (hash_iter (flows a)) as [|x l IH]; [done|]. cbn. by rewrite IH. }
    rewrite Hh2, hash_iter_perm, Hf, map_to_list_to_map by by rewrite fst_flows.
    rewrite <- list_fmap_compose. done.
  - by rewrite (holds_size _ _ Hh).
  - intros Hrst Hnew. pose proof (handle_packet_spec info a) as Hs.
    destruct (handle_packet info a) as [actions a']. apply Hs. split; [done|].
    by rewrite (holds_known _ _ _ Hh).
Qed.
End Tcp.

(** *** A concrete run *)
Definition packet (flow fl : Z) (frame : list Z) : PacketInfo :=
  {| pi_flow := flow; pi_src_addr := 1; pi_dst_addr := 2; pi_src_port := 1000; pi_dst_port := 80;
     pi_protocol := Tcp; pi_tcp_flags := Some fl; pi_payload_len := 0; pi_raw_frame := frame |}.
Definition demo_events : list Event := [Packet (packet 1 2 [10]); Packet (packet 1 2 [11]); Packet (packet 2 2 [20])].

Lemma tcp_replays_first_packets_witness :
  replayed (handle_event (BackendAvailable true) (process_events demo_events new).2).1 ≡ₚ [[10]; [20]].
Proof.
  pose proof (tcp_replays_first_packets demo_events (packet 3 2 [])) as Hs.
  refine (proj1 (proj2 (Hs _))). repeat constructor.
Defined.
End TcpActivator.
