(* ===== verification/Postgres.v ===== *)
(** * The Postgres activator ([activators/postgres/src/{protocol,connection,core}.rs])

    The activator stands between the clients of a database that scales to zero and the
    database.  It keeps what a client sends until a backend is connected, answers the
    negotiation of encryption and, on idle connections, the query [SELECT 1] itself, and
    follows the transaction status of every connection, from which it computes whether a
    backend is needed.

    Activators are compiled to 32-bit WebAssembly in release mode ([activators/build.sh]):
    sizes wrap around at 32 bits.  A loop that does not end is [None]; the host stops such
    a component when its fuel is used up. *)

From S2P Require Import Prelude Bytes SmTypes Flow Checksum Frame Processor TcpActivator.

Module Postgres.
Import Bytes Processor Activators.

(** ** Messages ([protocol.rs]) *)
Definition SSL_REQUEST_CODE : Z := 80877103.
Definition PROTOCOL_VERSION_3_0 : Z := 196608.
Definition MSG_READY_FOR_QUERY : Z := 90.
Definition MSG_QUERY : Z := 81.

Inductive TransactionStatus := Idle | InTransaction | Failed.
#[export] Instance TransactionStatus_eq_dec : EqDecision TransactionStatus.
Proof. solve_decision. Defined.
Definition from_byte (b : Z) : option TransactionStatus :=
  if b =? 73 then Some Idle else if b =? 84 then Some InTransaction else if b =? 69 then Some Failed
  else None.

Inductive StartupMessage := SslRequest | StartupRaw (raw : list Z).
Definition parse_startup_message (buf : list Z) : option (StartupMessage * Z) :=
  if zlen buf <? 4 then None
  else
    let length := u32_at buf 0 in
    if length <? 8 then None
    else if zlen buf <? length then None
    else
      let code := u32_at buf 4 in
      if code =? SSL_REQUEST_CODE then Some (SslRequest, length)
      else Some (StartupRaw (take (Z.to_nat length) buf), length).

Definition parse_tagged_message (buf : list Z) : option (Z * Z) :=
  if zlen buf <? 5 then None
  else
    let tag := buf !!! 0%nat in
    let length := u32_at buf 1 in
    let total := wrap 32 (1 + length) in
    if zlen buf <? total then None else Some (tag, total).

Definition parse_ready_for_query_status (msg_bytes : list Z) : option TransactionStatus :=
  if zlen msg_bytes <? 6 then None
  else if negb (msg_bytes !!! 0%nat =? MSG_READY_FOR_QUERY) then None
  else from_byte (msg_bytes !!! 5%nat).

Definition extract_simple_query (msg_bytes : list Z) : option (list Z) :=
  if zlen msg_bytes <? 6 then None
  else if negb (msg_bytes !!! 0%nat =? MSG_QUERY) then None
  else
    query ← strip_suffix (drop 5 msg_bytes) [0];
    if from_utf8_ok query then Some query else None.

Definition select_1 : list Z := [83; 69; 76; 69; 67; 84; 32; 49].
Definition is_health_check_query (query : list Z) : bool :=
  eq_ignore_ascii_case (trim (trim_end_matches 59 (trim query))) select_1.

Definition column_name : list Z := [63; 99; 111; 108; 117; 109; 110; 63; 0].
Definition build_select_1_response : list Z :=
  [84] ++ to_be32 33 ++ to_be16 1 ++ column_name ++ to_be32 0 ++ to_be16 0 ++ to_be32 23 ++ to_be16 4
    ++ to_be32 (-1) ++ to_be16 0 ++
  [68] ++ to_be32 11 ++ to_be16 1 ++ to_be32 1 ++ [49] ++
  [67] ++ to_be32 13 ++ select_1 ++ [0] ++
  [90] ++ to_be32 5 ++ [73].

(** ** One connection ([connection.rs]) *)
Inductive Phase := AwaitingStartup | SslNegotiation | Startup | Proxying | Closing.
#[export] Instance Phase_eq_dec : EqDecision Phase.
Proof. solve_decision. Defined.

Inductive ConnAction :=
  | ConnDownstreamSend (data : list Z)
  | ConnUpstreamSend (data : list Z)
  | ConnDownstreamClose
  | ConnUpstreamClose
  | ConnLog (msg : string).

Record Connection := {
  phase : Phase; recv_buf : list Z; upstream_recv_buf : list Z; buffered_data : list Z;
  last_txn_status : option TransactionStatus; auth_complete : bool }.
Definition new : Connection :=
  {| phase := AwaitingStartup; recv_buf := []; upstream_recv_buf := []; buffered_data := [];
     last_txn_status := None; auth_complete := false |}.

Definition is_idle (c : Connection) : bool :=
  auth_complete c && bool_decide (last_txn_status c = Some Idle).
Definition has_buffered_startup (c : Connection) : bool :=
  bool_decide (phase c = Startup) && bool_decide (buffered_data c ≠ []).

(** A message the activator answers itself, on an idle connection. *)
Definition intercepted (tag : Z) (msg_bytes : list Z) : bool :=
  (tag =? MSG_QUERY) &&
  match extract_simple_query msg_bytes with Some query => is_health_check_query query | None => false end.

Fixpoint drain_client_proxying (fuel : nat) (c : Connection) (actions : list ConnAction) :
    option (list ConnAction * Connection) :=
  match fuel with
  | O => None
  | S fuel =>
      match recv_buf c with
      | [] => Some (actions, c)
      | _ =>
          match parse_tagged_message (recv_buf c) with
          | None => Some (actions, c)
          | Some (tag, total) =>
              let n := Z.to_nat total in
              if is_idle c && intercepted tag (take n (recv_buf c)) then
                drain_client_proxying fuel {| c with recv_buf := drop n (recv_buf c) |}
                  (actions ++ [ConnDownstreamSend build_select_1_response])
              else Some (actions ++ [ConnUpstreamSend (recv_buf c)], {| c with recv_buf := [] |})
          end
      end
  end.

Fixpoint try_parse_startup (fuel : nat) (c : Connection) (actions : list ConnAction) :
    option (list ConnAction * Connection) :=
  match fuel with
  | O => None
  | S fuel =>
      match parse_startup_message (recv_buf c) with
      | None => Some (actions, c)
      | Some (SslRequest, consumed) =>
          try_parse_startup fuel
            {| c with recv_buf := drop (Z.to_nat consumed) (recv_buf c); phase := SslNegotiation |}
            (actions ++ [ConnDownstreamSend [78]])
      | Some (StartupRaw raw, consumed) =>
          Some (actions,
            {| c with buffered_data := buffered_data c ++ raw ++ drop (Z.to_nat consumed) (recv_buf c);
                      recv_buf := []; phase := Startup |})
      end
  end.

(** The ready messages among what the backend sent *)
Definition note_ready (msg_bytes : list Z) (c : Connection) : Connection :=
  match parse_ready_for_query_status msg_bytes with
  | Some status => {| c with last_txn_status := Some status; auth_complete := true |}
  | None => c
  end.
Fixpoint scan_loop (fuel : nat) (c : Connection) : option Connection :=
  match fuel with
  | O => None
  | S fuel =>
      match parse_tagged_message (upstream_recv_buf c) with
      | None => Some c
      | Some (tag, total) =>
          let n := Z.to_nat total in
          let c := if tag =? MSG_READY_FOR_QUERY then note_ready (take n (upstream_recv_buf c)) c else c in
          scan_loop fuel {| c with upstream_recv_buf := drop n (upstream_recv_buf c) |}
      end
  end.
Definition scan_upstream_for_ready (data : list Z) (c : Connection) : option Connection :=
  let c := {| c with upstream_recv_buf := upstream_recv_buf c ++ data |} in
  scan_loop (S (length (upstream_recv_buf c))) c.

Definition on_client_data (data : list Z) (c : Connection) : option (list ConnAction * Connection) :=
  match phase c with
  | AwaitingStartup | SslNegotiation =>
      let c := {| c with recv_buf := recv_buf c ++ data |} in
      try_parse_startup (S (length (recv_buf c))) c []
  | Startup => Some ([], {| c with buffered_data := buffered_data c ++ data |})
  | Proxying =>
      if is_idle c then
        let c := {| c with recv_buf := recv_buf c ++ data |} in
        drain_client_proxying (S (length (recv_buf c))) c []
      else Some ([ConnUpstreamSend data], c)
  | Closing => Some ([], c)
  end.
Definition on_upstream_connected (c : Connection) : list ConnAction * Connection :=
  if negb (bool_decide (phase c = Startup)) then ([], c)
  else
    let c := {| c with phase := Proxying |} in
    match buffered_data c with
    | [] => ([], c)
    | data => ([ConnUpstreamSend data], {| c with buffered_data := [] |})
    end.
Definition on_upstream_data (data : list Z) (c : Connection) : option (list ConnAction * Connection) :=
  if bool_decide (phase c = Closing) then Some ([], c)
  else
    c ← scan_upstream_for_ready data c;
    Some ([ConnDownstreamSend data], c).
Definition on_upstream_closed (c : Connection) : list ConnAction * Connection :=
  if bool_decide (phase c = Closing) then ([], c)
  else ([ConnDownstreamClose], {| c with phase := Closing |}).
Definition on_upstream_failed (c : Connection) : list ConnAction * Connection :=
  if bool_decide (phase c = Closing) then ([], c)
  else ([ConnDownstreamClose], {| c with phase := Closing |}).

(** ** The activator ([core.rs]) *)
Section Core.
Context `{!HashIter Z}.
Record PostgresActivator := {
  connections : gmap Z Connection; upstream_to_downstream : gmap Z Z; pending_connects : list Z;
  backend_available : bool }.
Definition new_activator : PostgresActivator :=
  {| connections := ∅; upstream_to_downstream := ∅; pending_connects := []; backend_available := false |}.

Definition meaningful (c : Connection) : bool :=
  negb (bool_decide (phase c = AwaitingStartup) || bool_decide (phase c = SslNegotiation)).
Definition compute_backend_need (a : PostgresActivator) : BackendNeed :=
  if bool_decide (connections a = ∅) then NeedNone
  else
    let meaningful_connections := filter (λ c, meaningful c = true) (hash_iter (connections a)).*2 in
    if bool_decide (meaningful_connections = []) then NeedNone
    else if forallb is_idle meaningful_connections then NeedNone
    else NeedActive.
Definition update_backend_need (old_need : BackendNeed) (a : PostgresActivator) : list Action :=
  let new_need := compute_backend_need a in
  if bool_decide (old_need = new_need) then [] else [SetBackendNeed new_need].

(** [upstream_to_downstream.iter().find(..)] *)
Definition upstream_of (handle : Z) (a : PostgresActivator) : option Z :=
  fst <$> find (λ e, e.2 =? handle) (hash_iter (upstream_to_downstream a)).
Definition conn_action (downstream_handle : Z) (a : PostgresActivator) (ca : ConnAction) : list Action :=
  match ca with
  | ConnDownstreamSend data => [DownstreamSend downstream_handle data]
  | ConnUpstreamSend data =>
      match upstream_of downstream_handle a with Some uh => [UpstreamSend uh data] | None => [] end
  | ConnDownstreamClose => [DownstreamClose downstream_handle]
  | ConnUpstreamClose =>
      match upstream_of downstream_handle a with Some uh => [UpstreamClose uh] | None => [] end
  | ConnLog msg => [Log {| log_level := Info; log_message := msg |}]
  end.
Definition process_conn_actions (downstream_handle : Z) (conn_actions : list ConnAction)
    (a : PostgresActivator) : list Action := conn_actions ≫= conn_action downstream_handle a.

Definition set_connection (handle : Z) (c : Connection) (a : PostgresActivator) : PostgresActivator :=
  {| a with connections := <[handle := c]> (connections a) |}.

Definition handle_stream_open (handle : Z) (a : PostgresActivator) : PostgresActivator :=
  set_connection handle new a.

Definition handle_stream_data (handle : Z) (data : list Z) (a : PostgresActivator) :
    option (list Action * PostgresActivator) :=
  let old_need := compute_backend_need a in
  match connections a !! handle with
  | None => Some ([], a)
  | Some conn =>
      '(conn_actions, conn) ← on_client_data data conn;
      let a := set_connection handle conn a in
      let sent := process_conn_actions handle conn_actions a in
      let '(asked, a) :=
        if backend_available a && has_buffered_startup conn
        then ([UpstreamConnect 5432], {| a with pending_connects := pending_connects a ++ [handle] |})
        else ([], a) in
      Some (sent ++ asked ++ update_backend_need old_need a, a)
  end.

Definition handle_stream_close (handle : Z) (a : PostgresActivator) : list Action * PostgresActivator :=
  let old_need := compute_backend_need a in
  match connections a !! handle with
  | None => (update_backend_need old_need a, a)
  | Some _ =>
      let a := {| a with connections := delete handle (connections a) |} in
      let '(closed, a) :=
        match upstream_of handle a with
        | Some uh => ([UpstreamClose uh],
                      {| a with upstream_to_downstream := delete uh (upstream_to_downstream a) |})
        | None => ([], a)
        end in
      let a := {| a with pending_connects := filter (λ h, h ≠ handle) (pending_connects a) |} in
      (closed ++ update_backend_need old_need a, a)
  end.

(** The backend went away: a connection is told. *)
Definition drop_connection (s : list Action * PostgresActivator) (handle : Z) :
    list Action * PostgresActivator :=
  let '(actions, a) := s in
  match connections a !! handle with
  | None => (actions, a)
  | Some conn =>
      let '(conn_actions, conn) := on_upstream_closed conn in
      let a := set_connection handle conn a in
      (actions ++ process_conn_actions handle conn_actions a, a)
  end.
Definition drop_upstream (s : list Action * PostgresActivator) (uh : Z) : list Action * PostgresActivator :=
  let '(actions, a) := s in
  (actions ++ [UpstreamClose uh],
   {| a with upstream_to_downstream := delete uh (upstream_to_downstream a) |}).
Definition ask_connect (s : list Action * PostgresActivator) (handle : Z) : list Action * PostgresActivator :=
  let '(actions, a) := s in
  (actions ++ [UpstreamConnect 5432], {| a with pending_connects := pending_connects a ++ [handle] |}).
Definition handle_backend_available (available : bool) (a : PostgresActivator) :
    list Action * PostgresActivator :=
  let old_need := compute_backend_need a in
  let a := {| a with backend_available := available |} in
  let '(actions, a) :=
    if available then
      let handles := (filter (λ e, has_buffered_startup e.2 = true) (hash_iter (connections a))).*1 in
      foldl ask_connect ([], a) handles
    else
      let s := foldl drop_connection ([], a) (hash_iter (connections a)).*1 in
      foldl drop_upstream s (hash_iter (upstream_to_downstream s.2)).*1 in
  (actions ++ update_backend_need old_need a, a).

Definition handle_upstream_connect_result (upstream_handle : Z) (ok : bool) (a : PostgresActivator) :
    list Action * PostgresActivator :=
  let old_need := compute_backend_need a in
  match pending_connects a with
  | [] => ([UpstreamClose upstream_handle], a)
  | downstream_handle :: pending =>
      let a := {| a with pending_connects := pending |} in
      let a := if ok then {| a with upstream_to_downstream :=
                                      <[upstream_handle := downstream_handle]> (upstream_to_downstream a) |}
               else a in
      let '(sent, a) :=
        match connections a !! downstream_handle with
        | None => ([], a)
        | Some conn =>
            let '(conn_actions, conn) :=
              if ok then on_upstream_connected conn else on_upstream_failed conn in
            let a := set_connection downstream_handle conn a in
            (process_conn_actions downstream_handle conn_actions a, a)
        end in
      (sent ++ update_backend_need old_need a, a)
  end.

Definition handle_upstream_data (upstream_handle : Z) (data : list Z) (a : PostgresActivator) :
    option (list Action * PostgresActivator) :=
  let old_need := compute_backend_need a in
  match upstream_to_downstream a !! upstream_handle with
  | None => Some ([], a)
  | Some downstream_handle =>
      match connections a !! downstream_handle with
      | None => Some ([], a)
      | Some conn =>
          '(conn_actions, conn) ← on_upstream_data data conn;
          let a := set_connection downstream_handle conn a in
          Some (process_conn_actions downstream_handle conn_actions a ++ update_backend_need old_need a, a)
      end
  end.

Definition handle_upstream_close (upstream_handle : Z) (a : PostgresActivator) :
    list Action * PostgresActivator :=
  let old_need := compute_backend_need a in
  match upstream_to_downstream a !! upstream_handle with
  | None => ([], a)
  | Some downstream_handle =>
      let a := {| a with upstream_to_downstream := delete upstream_handle (upstream_to_downstream a) |} in
      match connections a !! downstream_handle with
      | None => ([], a)
      | Some conn =>
          let '(conn_actions, conn) := on_upstream_closed conn in
          let a := set_connection downstream_handle conn a in
          (process_conn_actions downstream_handle conn_actions a ++ update_backend_need old_need a, a)
      end
  end.

Definition handle_event (event : Event) (a : PostgresActivator) : option (list Action * PostgresActivator) :=
  match event with
  | StreamOpen handle => Some ([], handle_stream_open handle a)
  | StreamData stream data => handle_stream_data stream data a
  | StreamClose handle => Some (handle_stream_close handle a)
  | BackendAvailable available => Some (handle_backend_available available a)
  | UpstreamConnectResult stream ok => Some (handle_upstream_connect_result stream ok a)
  | UpstreamData stream data => handle_upstream_data stream data a
  | UpstreamClosed handle => Some (handle_upstream_close handle a)
  | Tick | Packet _ => Some ([], a)
  end.
Fixpoint process_events (events : list Event) (a : PostgresActivator) :
    option (list Action * PostgresActivator) :=
  match events with
  | [] => Some ([], a)
  | event :: events =>
      '(actions, a) ← handle_event event a;
      '(actions', a) ← process_events events a;
      Some (actions ++ actions', a)
  end.
#[export] Instance postgres_activator : Activator PostgresActivator := {| on_events := process_events |}.
End Core.
End Postgres.
