(* ===== verification/PostgresInv.v ===== *)
(** * What the Postgres activator guarantees

    The scan of the backend's stream ([status_follows_backend]), one connection as a
    transparent proxy ([postgres_transparent]), the need reported to the host
    ([postgres_need_tracked]), and runs that show where the code differs from what its
    comments say. *)

From S2P Require Import Prelude Bytes SmTypes Flow Checksum Frame Processor TcpActivator Postgres.

Module PostgresInv.
Import Bytes Processor Activators Postgres.

(** ** Parsing *)
Lemma parse_tagged_bounds buf tag total :
  parse_tagged_message buf = Some (tag, total) →
  tag = buf !!! 0%nat ∧ total = wrap 32 (1 + u32_at buf 1) ∧ 0 ≤ total ≤ zlen buf ∧ 5 ≤ zlen buf.
Proof.
  unfold parse_tagged_message. intros H. repeat case_match; simplify_eq.
  pose proof (Z.mod_pos_bound (1 + u32_at buf 1) (2 ^ 32) eq_refl). unfold wrap in *. lia.
Qed.

Lemma lookup_total_app_lt (l k : list Z) (i : nat) : (i < length l)%nat → (l ++ k) !!! i = l !!! i.
Proof. intros Hi. rewrite !list_lookup_total_alt. by rewrite lookup_app_l. Qed.

Lemma u32_at_app_l l k off : (off + 3 < length l)%nat → u32_at (l ++ k) off = u32_at l off.
Proof. intros Hl. unfold u32_at. rewrite !lookup_total_app_lt by lia. done. Qed.

(** A message that is complete stays complete when more bytes arrive. *)
Lemma parse_tagged_app buf more r :
  parse_tagged_message buf = Some r → parse_tagged_message (buf ++ more) = Some r.
Proof.
  unfold parse_tagged_message. intros H. destruct (zlen buf <? 5) eqn:E5; [done|].
  rewrite length_app. rewrite lookup_total_app_lt, u32_at_app_l by lia.
  destruct (zlen buf <? wrap 32 _) eqn:Et; [done|]. simplify_eq.
  rewrite (proj2 (Z.ltb_ge _ _)) by lia. rewrite (proj2 (Z.ltb_ge _ _)) by lia. done.
Qed.

Lemma parse_startup_bounds buf msg consumed :
  parse_startup_message buf = Some (msg, consumed) →
  8 ≤ consumed ≤ zlen buf ∧
  (∀ raw, msg = StartupRaw raw → raw = take (Z.to_nat consumed) buf).
Proof. unfold parse_startup_message. intros H. repeat case_match; simplify_eq; (split; [lia|naive_solver]). Qed.

Lemma intercepted_long tag msg_bytes : intercepted tag msg_bytes = true → 6 ≤ zlen msg_bytes.
Proof.
  unfold intercepted, extract_simple_query. destruct (zlen msg_bytes <? 6) eqn:E; [|lia].
  by rewrite andb_false_r.
Qed.

(** ** The scan of the backend's messages *)
Definition received (data : list Z) (c : Connection) : Connection :=
  {| c with upstream_recv_buf := upstream_recv_buf c ++ data |}.
(** One turn of the loop *)
Definition scan_turn (tag total : Z) (c : Connection) : Connection :=
  let n := Z.to_nat total in
  let c' := if tag =? MSG_READY_FOR_QUERY then note_ready (take n (upstream_recv_buf c)) c else c in
  {| c' with upstream_recv_buf := drop n (upstream_recv_buf c) |}.

Lemma note_ready_buf msg c : upstream_recv_buf (note_ready msg c) = upstream_recv_buf c.
Proof. unfold note_ready. by destruct (parse_ready_for_query_status msg). Qed.
Lemma note_ready_received msg data c : note_ready msg (received data c) = received data (note_ready msg c).
Proof. unfold note_ready. by destruct (parse_ready_for_query_status msg). Qed.

Lemma scan_loop_S fuel c :
  scan_loop (S fuel) c =
  match parse_tagged_message (upstream_recv_buf c) with
  | None => Some c
  | Some (tag, total) => scan_loop fuel (scan_turn tag total c)
  end.
Proof.
  simpl. destruct (parse_tagged_message _) as [[tag total]|]; [|done]. unfold scan_turn.
  destruct (tag =? _); [by rewrite note_ready_buf|done].
Qed.

Lemma buf_received d c : upstream_recv_buf (received d c) = upstream_recv_buf c ++ d.
Proof. reflexivity. Qed.
Lemma received_app a b c : received b (received a c) = received (a ++ b) c.
Proof. unfold received. simpl. by rewrite (assoc_L (++)). Qed.
Lemma received_nil c : received [] c = c.
Proof. destruct c. unfold received. simpl. by rewrite app_nil_r. Qed.

Lemma scan_turn_received tag total data c :
  total ≤ zlen (upstream_recv_buf c) → scan_turn tag total (received data c) = received data (scan_turn tag total c).
Proof.
  intros Ht. unfold scan_turn.
  rewrite buf_received.
  rewrite take_app_le, drop_app_le by lia.
  destruct (tag =? _); [rewrite note_ready_received|]; reflexivity.
Qed.

Lemma scan_turn_zero tag c : scan_turn tag 0 c = c.
Proof. unfold scan_turn. change (Z.to_nat 0) with 0%nat. rewrite take_0. destruct (tag =? _); by destruct c. Qed.

(** A length that makes the size of a message wrap around to zero stops the scan for ever. *)
Lemma scan_stuck fuel tag c :
  parse_tagged_message (upstream_recv_buf c) = Some (tag, 0) → scan_loop fuel c = None.
Proof. intros Hp. induction fuel as [|fuel IH]; [done|]. by rewrite scan_loop_S, Hp, scan_turn_zero. Qed.

Lemma scan_turn_buf tag total c :
  upstream_recv_buf (scan_turn tag total c) = drop (Z.to_nat total) (upstream_recv_buf c).
Proof. reflexivity. Qed.

(** The fuel is enough: a scan that ends at all ends within it. *)
Lemma scan_fuel fuel fuel' c r :
  scan_loop fuel c = Some r → (length (upstream_recv_buf c) < fuel')%nat → scan_loop fuel' c = Some r.
Proof.
  revert fuel' c. induction fuel as [|fuel IH]; intros fuel' c Hs Hl; [done|].
  destruct fuel' as [|fuel']; [lia|]. pose proof Hs as Hs0. rewrite scan_loop_S in Hs |- *.
  destruct (parse_tagged_message _) as [[tag total]|] eqn:Hp; [|done].
  destruct (decide (total = 0)) as [->|Hn]; [by rewrite (scan_stuck _ tag) in Hs0|].
  apply parse_tagged_bounds in Hp as (_ & _ & Hb & _).
  apply IH; [done|]. rewrite scan_turn_buf, length_drop. lia.
Qed.

Definition scans (c c' : Connection) : Prop := ∃ fuel, scan_loop fuel c = Some c'.
Lemma scan_upstream_scans data c c' : scan_upstream_for_ready data c = Some c' ↔ scans (received data c) c'.
Proof.
  unfold scan_upstream_for_ready. split; [by eexists|]. intros [fuel Hf]. eapply scan_fuel; [done|]. simpl. lia.
Qed.

(** Cutting the stream does not matter. *)
Lemma scans_split a b c r :
  scans (received (a ++ b) c) r → ∃ c1, scans (received a c) c1 ∧ scans (received b c1) r.
Proof.
  rewrite <- received_app. intros [fuel Hf]. remember (received a c) as ca eqn:Eca. clear Eca a c.
  revert ca Hf. induction fuel as [|fuel IH]; intros ca Hf; [done|].
  destruct (parse_tagged_message (upstream_recv_buf ca)) as [[tag total]|] eqn:Hp.
  - rewrite scan_loop_S in Hf.
    rewrite buf_received in Hf.
    rewrite (parse_tagged_app _ _ _ Hp) in Hf.
    rewrite scan_turn_received in Hf by (by apply parse_tagged_bounds in Hp as (_ & _ & ? & _); lia).
    destruct (IH _ Hf) as (c1 & [f1 H1] & H2). exists c1. split; [|done]. exists (S f1).
    by rewrite scan_loop_S, Hp.
  - exists ca. split; [exists 1%nat; by rewrite scan_loop_S, Hp|by eexists].
Qed.

(** ** Messages *)
Definition message (m : Z * list Z) : list Z := [m.1] ++ to_be32 (4 + zlen m.2) ++ m.2.
Definition small (m : Z * list Z) : Prop := 4 + zlen m.2 < 2 ^ 32 - 1.
Definition ready_status (m : Z * list Z) : option TransactionStatus :=
  if m.1 =? MSG_READY_FOR_QUERY then m.2 !! 0%nat ≫= from_byte else None.

Lemma parse_message m rest :
  small m → parse_tagged_message (message m ++ rest) = Some (m.1, 5 + zlen m.2).
Proof.
  unfold small. intros Hm. destruct m as [tag payload]. unfold parse_tagged_message, message.
  cbn [fst snd] in *. rewrite <- !(assoc_L (++)).
  assert (Hl : zlen ([tag] ++ to_be32 (4 + zlen payload) ++ payload ++ rest)
    = 5 + zlen payload + zlen rest) by (rewrite !length_app; simpl; lia).
  rewrite Hl. pose proof (u32_at_app [tag] (4 + zlen payload) (payload ++ rest)) as Hu.
  cbn [length] in Hu. rewrite Hu by lia.
  rewrite (proj2 (Z.ltb_ge _ _)) by lia.
  unfold wrap. rewrite Z.mod_small by lia. rewrite (proj2 (Z.ltb_ge _ _)) by lia.
  do 2 f_equal. lia.
Qed.

Lemma zlen_message m : zlen (message m) = 5 + zlen m.2.
Proof. unfold message. rewrite !length_app. simpl. lia. Qed.

Lemma ready_message m :
  small m → (m.1 =? MSG_READY_FOR_QUERY) = true → parse_ready_for_query_status (message m) = ready_status m.
Proof.
  intros Hs Ht. unfold parse_ready_for_query_status, ready_status. rewrite zlen_message, Ht.
  destruct m as [tag [|b payload]]; cbn [fst snd length lookup list_lookup mbind option_bind]; [done|].
  rewrite (proj2 (Z.ltb_ge _ _)) by lia.
  change (message (tag, b :: payload) !!! 0%nat) with tag. simpl in Ht. by rewrite Ht.
Qed.

(** The status a list of messages leaves behind *)
Definition note_message (c : Connection) (m : Z * list Z) : Connection :=
  match ready_status m with
  | Some status => {| c with last_txn_status := Some status; auth_complete := true |}
  | None => c
  end.

Lemma note_message_buf c m : upstream_recv_buf (note_message c m) = upstream_recv_buf c.
Proof. unfold note_message. by destruct (ready_status m). Qed.

Lemma scan_turn_message m rest c :
  small m → upstream_recv_buf c = [] →
  scan_turn m.1 (5 + zlen m.2) (received (message m ++ rest) c) = received rest (note_message c m).
Proof.
  intros Hs Hc. unfold scan_turn.
  rewrite buf_received.
  rewrite Hc, <- zlen_message, Nat2Z.id. cbn [app]. rewrite take_app_length, drop_app_length.
  unfold note_ready, note_message. destruct (m.1 =? _) eqn:E.
  - rewrite ready_message by done. unfold received.
    destruct (ready_status m); cbn; rewrite ?Hc; reflexivity.
  - unfold ready_status. rewrite E. unfold received. simpl. rewrite Hc. reflexivity.
Qed.

Lemma scans_messages msgs rest c :
  Forall small msgs → upstream_recv_buf c = [] → parse_tagged_message rest = None →
  scans (received (concat (message <$> msgs) ++ rest) c) (received rest (foldl note_message c msgs)).
Proof.
  revert c. induction msgs as [|m msgs IH]; intros c Hs Hc Hr.
  - exists 1%nat. rewrite scan_loop_S. cbn [fmap list_fmap concat app foldl].
    rewrite buf_received.
    rewrite Hc. cbn [app]. by rewrite Hr.
  - apply Forall_cons in Hs as [Hm Hs]. cbn [fmap list_fmap concat foldl]. rewrite <- (assoc_L (++)).
    destruct (IH (note_message c m) Hs) as [fuel Hf]; [by rewrite note_message_buf|done|].
    exists (S fuel). rewrite scan_loop_S.
    rewrite buf_received.
    rewrite Hc. cbn [app]. rewrite parse_message by done. by rewrite scan_turn_message.
Qed.

Lemma scans_settled c r : scans c r → parse_tagged_message (upstream_recv_buf r) = None.
Proof.
  intros [fuel Hf]. revert c Hf. induction fuel as [|fuel IH]; intros c Hf; [done|].
  rewrite scan_loop_S in Hf. destruct (parse_tagged_message (upstream_recv_buf c)) as [[tag total]|] eqn:E;
    [by eapply IH|by simplify_eq].
Qed.
Lemma scans_done c r : parse_tagged_message (upstream_recv_buf c) = None → scans c r → r = c.
Proof. intros Hp [[|fuel] Hf]; [done|]. rewrite scan_loop_S, Hp in Hf. congruence. Qed.

(** The scan changes what is known of the backend, nothing else. *)
Definition same_client (c c' : Connection) : Prop :=
  phase c' = phase c ∧ recv_buf c' = recv_buf c ∧ buffered_data c' = buffered_data c.
Lemma scans_client c r : scans c r → same_client c r.
Proof.
  intros [fuel Hf]. revert c Hf. induction fuel as [|fuel IH]; intros c Hf; [done|].
  rewrite scan_loop_S in Hf. destruct (parse_tagged_message (upstream_recv_buf c)) as [[tag total]|] eqn:E;
    [|by simplify_eq].
  specialize (IH _ Hf). unfold same_client, scan_turn, note_ready in *.
  destruct (tag =? _); [destruct (parse_ready_for_query_status _)|]; exact IH.
Qed.

(** ** Runs of one connection *)
Inductive ConnOp :=
  | ClientData (data : list Z) | UpConnected | UpData (data : list Z) | UpClosed | UpFailed.
Definition conn_step (op : ConnOp) (c : Connection) : option (list ConnAction * Connection) :=
  match op with
  | ClientData data => on_client_data data c
  | UpConnected => Some (on_upstream_connected c)
  | UpData data => on_upstream_data data c
  | UpClosed => Some (on_upstream_closed c)
  | UpFailed => Some (on_upstream_failed c)
  end.
Fixpoint run (ops : list ConnOp) (c : Connection) : option (list ConnAction * Connection) :=
  match ops with
  | [] => Some ([], c)
  | op :: ops =>
      '(acts, c) ← conn_step op c;
      '(acts', c) ← run ops c;
      Some (acts ++ acts', c)
  end.

Definition client_bytes (ops : list ConnOp) : list Z :=
  ops ≫= λ op, match op with ClientData data => data | _ => [] end.
Definition backend_bytes (ops : list ConnOp) : list Z :=
  ops ≫= λ op, match op with UpData data => data | _ => [] end.
Definition sent_up (acts : list ConnAction) : list Z :=
  acts ≫= λ a, match a with ConnUpstreamSend data => data | _ => [] end.
Definition sent_down (acts : list ConnAction) : list Z :=
  acts ≫= λ a, match a with ConnDownstreamSend data => data | _ => [] end.

Lemma bind_snoc {A B} (f : A → list B) l x : (l ++ [x]) ≫= f = (l ≫= f) ++ f x.
Proof. rewrite bind_app. simpl. by rewrite app_nil_r. Qed.

Lemma feed_messages chunks c r :
  parse_tagged_message (upstream_recv_buf c) = None → phase c ≠ Closing →
  scans (received (concat chunks) c) r →
  run (UpData <$> chunks) c = Some (ConnDownstreamSend <$> chunks, r).
Proof.
  revert c. induction chunks as [|d chunks IH]; intros c Hp Hc Hs.
  - simpl in *. rewrite received_nil in Hs. by apply scans_done in Hs as ->.
  - cbn [concat] in Hs. apply scans_split in Hs as (c1 & H1 & H2).
    cbn [fmap list_fmap run conn_step]. unfold on_upstream_data. rewrite bool_decide_eq_false_2 by done.
    pose proof (scans_client _ _ H1) as (Hph & _). pose proof (scans_settled _ _ H1) as Hp1.
    apply scan_upstream_scans in H1. rewrite H1. cbn [mbind option_bind].
    rewrite (IH c1); [done|done| |done]. by rewrite Hph.
Qed.

Lemma foldl_note_message msgs c :
  let last_status := last (omap ready_status msgs) in
  let c' := foldl note_message c msgs in
  last_txn_status c' = (match last_status with None => last_txn_status c | s => s end) ∧
  auth_complete c' = auth_complete c || bool_decide (is_Some last_status).
Proof.
  induction msgs as [|m msgs IH] using rev_ind; simpl.
  - by rewrite orb_false_r.
  - rewrite foldl_snoc, omap_app. destruct IH as [IHl IHa]. unfold note_message at 1 3. simpl.
    destruct (ready_status m) as [s|]; simpl; rewrite ?app_nil_r, ?last_snoc; [|done].
    split; [done|]. rewrite bool_decide_eq_true_2 by done. by rewrite orb_true_r.
Qed.

(** The activator follows the transaction status exactly, however the stream of the
    backend is cut into pieces: after any chunks that together are complete messages and
    the beginning of another one, all chunks were passed on, only the beginning is kept,
    and the connection is idle iff the last valid ready message among them says so. *)
Theorem status_follows_backend chunks msgs rest c :
  Forall small msgs → concat chunks = concat (message <$> msgs) ++ rest →
  parse_tagged_message rest = None →
  upstream_recv_buf c = [] → phase c ≠ Closing → auth_complete c = false →
  ∃ c', run (UpData <$> chunks) c = Some (ConnDownstreamSend <$> chunks, c') ∧
    upstream_recv_buf c' = rest ∧ same_client c c' ∧
    is_idle c' = bool_decide (last (omap ready_status msgs) = Some Idle).
Proof.
  intros Hs He Hr Hc Hp Ha. pose proof (scans_messages msgs rest c Hs Hc Hr) as Hm. rewrite <- He in Hm.
  eexists. split; [eapply feed_messages; [by rewrite Hc|done|done]|].
  pose proof (scans_client _ _ Hm) as Hsc. split; [|split; [exact Hsc|]].
  - rewrite buf_received. replace (upstream_recv_buf (foldl note_message c msgs)) with (upstream_recv_buf c);
      [by rewrite Hc|].
    clear. induction msgs as [|m msgs IH] using rev_ind; [done|]. by rewrite foldl_snoc, note_message_buf.
  - destruct (foldl_note_message msgs c) as [El Ea]. unfold is_idle, received.
    cbn [last_txn_status auth_complete]. rewrite El, Ea, Ha. simpl.
    by destruct (last (omap ready_status msgs)).
Qed.

(** ** What a client and its backend see of each other *)
Definition ssl_request (m : list Z) : Prop := parse_startup_message m = Some (SslRequest, zlen m).
Definition health_check (m : list Z) : Prop :=
  ∃ tag, parse_tagged_message m = Some (tag, zlen m) ∧ intercepted tag m = true.
(** [proxied client up backend down]: the backend got what the client sent and the client
    what the backend sent, in order; requests for encryption and health checks were
    answered instead. *)
Inductive proxied : list Z → list Z → list Z → list Z → Prop :=
  | proxied_nil : proxied [] [] [] []
  | proxied_up x c u b d : proxied c u b d → proxied (c ++ x) (u ++ x) b d
  | proxied_down x c u b d : proxied c u b d → proxied c u (b ++ x) (d ++ x)
  | proxied_ssl m c u b d : ssl_request m → proxied c u b d → proxied (c ++ m) u b (d ++ [78])
  | proxied_health m c u b d :
      health_check m → proxied c u b d → proxied (c ++ m) u b (d ++ build_select_1_response).

(** Client bytes that would overtake the beginning of a message that is being held *)
Definition overtakes (c : Connection) (op : ConnOp) : bool :=
  match op with
  | ClientData _ =>
      bool_decide (phase c = Proxying) && negb (is_idle c) && bool_decide (recv_buf c ≠ [])
  | _ => false
  end.
Fixpoint orderly (ops : list ConnOp) (c : Connection) : bool :=
  match ops with
  | [] => true
  | op :: ops =>
      negb (overtakes c op) &&
      match conn_step op c with Some (_, c) => orderly ops c | None => true end
  end.

(** What is kept in which phase *)
Definition kept (c : Connection) : Prop :=
  match phase c with
  | AwaitingStartup | SslNegotiation => buffered_data c = [] ∧ parse_startup_message (recv_buf c) = None
  | Startup => recv_buf c = []
  | Proxying => buffered_data c = [] ∧ parse_tagged_message (recv_buf c) = None
  | Closing => True
  end.
(** A step extends what client and backend saw of each other. *)
Definition extends (used : list Z) (u b d : list Z) (c c' : Connection) : Prop :=
  ∀ C U B D, proxied C (U ++ buffered_data c) B D →
    proxied (C ++ used) (U ++ u ++ buffered_data c') (B ++ b) (D ++ d).

Lemma extends_trans used1 u1 b1 d1 used2 u2 b2 d2 c c1 c2 :
  extends used1 u1 b1 d1 c c1 → extends used2 u2 b2 d2 c1 c2 →
  extends (used1 ++ used2) (u1 ++ u2) (b1 ++ b2) (d1 ++ d2) c c2.
Proof.
  intros H1 H2 C U B D H. specialize (H1 _ _ _ _ H). rewrite (assoc_L (++)) in H1.
  specialize (H2 _ _ _ _ H1). by rewrite <- !(assoc_L (++)) in *.
Qed.
Lemma extends_refl c c' : buffered_data c' = buffered_data c → extends [] [] [] [] c c'.
Proof. intros E C U B D. rewrite !app_nil_r. simpl. by rewrite E. Qed.

Lemma parse_tagged_prefix buf tag total :
  parse_tagged_message buf = Some (tag, total) → 5 ≤ total →
  let m := take (Z.to_nat total) buf in parse_tagged_message m = Some (tag, zlen m).
Proof.
  intros Hp Ht. pose proof (parse_tagged_bounds _ _ _ Hp) as (Hg & Hw & Hb & _). simpl.
  assert (Hl : length (take (Z.to_nat total) buf) = Z.to_nat total) by (rewrite length_take; lia).
  unfold parse_tagged_message. rewrite Hl, Z2Nat.id by lia.
  rewrite (proj2 (Z.ltb_ge total 5)) by lia.
  pose proof (take_drop (Z.to_nat total) buf) as Htd.
  rewrite <- (u32_at_app_l _ (drop (Z.to_nat total) buf)), Htd, <- Hw by lia.
  rewrite (proj2 (Z.ltb_ge total total)) by lia.
  rewrite <- (lookup_total_app_lt _ (drop (Z.to_nat total) buf)), Htd by lia. by rewrite Hg.
Qed.

Lemma parse_startup_prefix buf consumed :
  parse_startup_message buf = Some (SslRequest, consumed) → ssl_request (take (Z.to_nat consumed) buf).
Proof.
  intros Hp. pose proof (parse_startup_bounds _ _ _ Hp) as [Hb _]. unfold ssl_request.
  assert (Hl : length (take (Z.to_nat consumed) buf) = Z.to_nat consumed) by (rewrite length_take; lia).
  revert Hp. unfold parse_startup_message. rewrite Hl, Z2Nat.id by lia.
  pose proof (take_drop (Z.to_nat consumed) buf) as Htd.
  rewrite <- (u32_at_app_l (take (Z.to_nat consumed) buf) (drop (Z.to_nat consumed) buf) 0),
    <- (u32_at_app_l (take (Z.to_nat consumed) buf) (drop (Z.to_nat consumed) buf) 4), Htd by lia.
  intros Hp. repeat case_match; simplify_eq; (lia || done).
Qed.

Lemma sent_up_app a b : sent_up (a ++ b) = sent_up a ++ sent_up b.
Proof. apply bind_app. Qed.
Lemma sent_down_app a b : sent_down (a ++ b) = sent_down a ++ sent_down b.
Proof. apply bind_app. Qed.

(** What [on_client_data] and its loops guarantee *)
Definition client_ok (bytes : list Z) (c : Connection) (r : option (list ConnAction * Connection))
    (acts0 : list ConnAction) : Prop :=
  ∃ acts c' used, r = Some (acts0 ++ acts, c') ∧ bytes = used ++ recv_buf c' ∧
    extends used (sent_up acts) [] (sent_down acts) c c' ∧ kept c' ∧ phase c' ≠ Closing ∧
    upstream_recv_buf c' = upstream_recv_buf c.

Lemma client_ok_step bytes1 bytes acts1 acts0 c c1 r :
  extends bytes1 (sent_up acts1) [] (sent_down acts1) c c1 →
  upstream_recv_buf c1 = upstream_recv_buf c →
  client_ok bytes c1 r (acts0 ++ acts1) → client_ok (bytes1 ++ bytes) c r acts0.
Proof.
  intros H1 Hu (acts & c' & used & -> & -> & H2 & Hk & Hc & Hu2).
  exists (acts1 ++ acts), c', (bytes1 ++ used).
  rewrite sent_up_app, sent_down_app, <- !(assoc_L (++)). split_and!; try done; [|congruence].
  by apply (extends_trans _ _ [] _ _ _ [] _ _ c1).
Qed.

Lemma drain_ok fuel c acts0 :
  (length (recv_buf c) < fuel)%nat → phase c = Proxying → buffered_data c = [] →
  client_ok (recv_buf c) c (drain_client_proxying fuel c acts0) acts0.
Proof.
  revert c acts0. induction fuel as [|fuel IH]; intros c acts0 Hl Hp Hb; [lia|]. simpl.
  assert (Hsame : parse_tagged_message (recv_buf c) = None →
    client_ok (recv_buf c) c (Some (acts0, c)) acts0).
  { intros Hn. exists [], c, []. rewrite app_nil_r. split_and!; try done; [by apply extends_refl| |congruence].
    unfold kept. by rewrite Hp. }
  destruct (recv_buf c) as [|x l] eqn:Er; [by apply Hsame|]. rewrite <- Er in *.
  destruct (parse_tagged_message (recv_buf c)) as [[tag total]|] eqn:Ep; [|by apply Hsame].
  destruct (is_idle c && _) eqn:Ei.
  - apply andb_true_iff in Ei as [Hidle Hint]. pose proof (intercepted_long _ _ Hint) as H6.
    pose proof (parse_tagged_bounds _ _ _ Ep) as (_ & _ & Hbd & _). rewrite length_take in H6.
    rewrite <- (take_drop (Z.to_nat total) (recv_buf c)) at 1.
    eapply client_ok_step; [|reflexivity|]; [|apply (IH {| c with recv_buf := _ |})]; cbn; try done.
    + intros C U B D H. cbn. rewrite !app_nil_r. rewrite Hb, app_nil_r in H |- *.
      apply proxied_health; [|done]. eexists. split; [eapply parse_tagged_prefix; [exact Ep|lia]|done].
    + rewrite length_drop. lia.
  - exists [ConnUpstreamSend (recv_buf c)], {| c with recv_buf := [] |}, (recv_buf c).
    cbn. rewrite app_nil_r. split_and!; try done; [|unfold kept; cbn; by rewrite Hp|congruence].
    intros C U B D H. cbn. rewrite !app_nil_r, Hb, app_nil_r in *. by constructor.
Qed.

Lemma startup_ok fuel c acts0 :
  (length (recv_buf c) < fuel)%nat → phase c = AwaitingStartup ∨ phase c = SslNegotiation →
  buffered_data c = [] →
  client_ok (recv_buf c) c (try_parse_startup fuel c acts0) acts0.
Proof.
  revert c acts0. induction fuel as [|fuel IH]; intros c acts0 Hl Hp Hb; [lia|]. simpl.
  destruct (parse_startup_message (recv_buf c)) as [[msg consumed]|] eqn:Ep.
  - pose proof (parse_startup_bounds _ _ _ Ep) as [Hbd Hraw]. destruct msg as [|raw].
    + rewrite <- (take_drop (Z.to_nat consumed) (recv_buf c)) at 1.
      eapply client_ok_step; [|reflexivity|]; [|apply (IH {| c with recv_buf := _; phase := _ |})]; cbn; auto.
      * intros C U B D H. cbn. rewrite !app_nil_r. rewrite Hb, app_nil_r in H |- *.
        apply proxied_ssl; [by apply parse_startup_prefix|done].
      * rewrite length_drop. lia.
    + rewrite (Hraw raw eq_refl), take_drop, Hb. cbn [app].
      eexists [], _, (recv_buf c). rewrite !app_nil_r. split_and!; [reflexivity|by rewrite app_nil_r| |done..].
      intros C U B D H. cbn. rewrite !app_nil_r, Hb, app_nil_r in *. by constructor.
  - exists [], c, []. rewrite app_nil_r. split_and!; try done; [by apply extends_refl| |by destruct Hp as [->| ->]].
    unfold kept. by destruct Hp as [->| ->].
Qed.

Lemma on_client_data_ok data c :
  kept c → phase c ≠ Closing → overtakes c (ClientData data) = false →
  client_ok (recv_buf c ++ data) c (on_client_data data c) [].
Proof.
  intros Hk Hc Ho. unfold on_client_data, kept in *. destruct (phase c) eqn:Hp; [| | | |done].
  1,2: rewrite <- Hp; apply (startup_ok _ {| c with recv_buf := recv_buf c ++ data |}); cbn; [lia|by auto|tauto].
  - rewrite <- Hp. exists [], {| c with buffered_data := buffered_data c ++ data |}, data.
    cbn. rewrite Hk. split_and!; try done; [by rewrite app_nil_r| |unfold kept; cbn; by rewrite Hp|congruence].
    intros C U B D H. cbn. rewrite !app_nil_r, (assoc_L (++)). by constructor.
  - destruct Hk as [Hb Hn]. destruct (is_idle c) eqn:Hi.
    + rewrite <- Hp. apply (drain_ok _ {| c with recv_buf := recv_buf c ++ data |}); cbn; [lia|done|done].
    + unfold overtakes in Ho. rewrite Hp, Hi in Ho. cbn in Ho.
      apply bool_decide_eq_false in Ho. apply dec_stable in Ho.
      exists [ConnUpstreamSend data], c, data. rewrite Ho. cbn. rewrite !app_nil_r.
      split_and!; try done; [|unfold kept; by rewrite Hp|congruence].
      intros C U B D H. rewrite !app_nil_r, Hb, app_nil_r in *. by constructor.
Qed.

(** The backend's bytes can be scanned to their end. *)
Definition digestible (bytes : list Z) (c : Connection) : Prop := ∃ r, scans (received bytes c) r.
Lemma scan_total_ext fuel c c' :
  upstream_recv_buf c = upstream_recv_buf c' → is_Some (scan_loop fuel c) → is_Some (scan_loop fuel c').
Proof.
  revert c c'. induction fuel as [|fuel IH]; intros c c' He; [done|]. rewrite !scan_loop_S, <- He.
  destruct (parse_tagged_message _) as [[tag total]|]; [|done]. apply IH. by rewrite !scan_turn_buf, He.
Qed.
Lemma digestible_ext bytes c c' :
  upstream_recv_buf c = upstream_recv_buf c' → digestible bytes c → digestible bytes c'.
Proof.
  intros He (r & fuel & Hf). destruct (scan_total_ext fuel (received bytes c) (received bytes c')) as [r' Hr'].
  - by rewrite !buf_received, He.
  - by eexists.
  - by exists r', fuel.
Qed.

(** Every step that does not close the connection *)
Definition step_client (op : ConnOp) : list Z := match op with ClientData data => data | _ => [] end.
Definition step_backend (op : ConnOp) : list Z := match op with UpData data => data | _ => [] end.
Lemma conn_step_ok op c bytes :
  kept c → phase c ≠ Closing → overtakes c op = false → digestible (step_backend op ++ bytes) c →
  ∃ acts c', conn_step op c = Some (acts, c') ∧
    (phase c' = Closing ∨
     phase c' ≠ Closing ∧ kept c' ∧ digestible bytes c' ∧
     ∃ used, recv_buf c ++ step_client op = used ++ recv_buf c' ∧
       extends used (sent_up acts) (step_backend op) (sent_down acts) c c').
Proof.
  intros Hk Hc Ho Hd. destruct op as [data| |data| |]; cbn [conn_step step_client step_backend app] in *.
  - destruct (on_client_data_ok data c Hk Hc Ho) as (acts & c' & used & E & Hu & He & Hk' & Hc' & Hup).
    exists acts, c'. split; [done|]. right. split_and!; [done|done|by apply (digestible_ext _ c)|]. by exists used.
  - unfold on_upstream_connected. destruct (decide (phase c = Startup)) as [Hp|Hp].
    + rewrite bool_decide_eq_true_2 by done. cbn. unfold kept in Hk. rewrite Hp in Hk.
      destruct (buffered_data c) as [|x l] eqn:Eb.
      * eexists [], _. split; [done|]. right. split_and!; [done|by rewrite Hk|by apply (digestible_ext _ c)|].
        exists []. rewrite Hk. split; [done|]. by apply extends_refl.
      * rewrite <- Eb. eexists [_], _. split; [done|]. right.
        split_and!; [done|unfold kept; cbn; by rewrite Hk|by apply (digestible_ext _ c)|].
        exists []. cbn. rewrite Hk. split; [done|]. intros C U B D H. cbn. by rewrite !app_nil_r.
    + rewrite bool_decide_eq_false_2 by done. exists [], c. split; [done|]. right. split_and!; try done.
      exists []. rewrite app_nil_r. split; [done|]. by apply extends_refl.
  - unfold on_upstream_data. rewrite bool_decide_eq_false_2 by done. destruct Hd as [r Hs].
    apply scans_split in Hs as (c1 & H1 & H2). pose proof (scans_client _ _ H1) as (Hph & Hrb & Hbd).
    pose proof H1 as H1'. apply scan_upstream_scans in H1. rewrite H1. cbn [mbind option_bind].
    eexists [_], c1. split; [done|]. right. cbn in Hph, Hrb, Hbd.
    assert (Hk1 : kept c1) by (unfold kept in *; rewrite Hph; by rewrite Hrb, Hbd).
    split_and!; [by rewrite Hph|done|by exists r|].
    exists []. rewrite app_nil_r, Hrb. split; [done|].
    intros C U B D H. cbn. rewrite !app_nil_r, Hbd. by constructor.
  - eexists _, _. split; [unfold on_upstream_closed; by rewrite bool_decide_eq_false_2|by left].
  - eexists _, _. split; [unfold on_upstream_failed; by rewrite bool_decide_eq_false_2|by left].
Qed.

Lemma closing_run ops c : phase c = Closing → ∃ acts c', run ops c = Some (acts, c') ∧ phase c' = Closing.
Proof.
  revert c. induction ops as [|op ops IH]; intros c Hp; [by eexists _, _|].
  assert (∃ acts c', conn_step op c = Some (acts, c') ∧ phase c' = Closing) as (acts & c' & E & Hp').
  { destruct op; cbn; unfold on_client_data, on_upstream_connected, on_upstream_data, on_upstream_closed,
      on_upstream_failed; rewrite Hp; eexists _, _; done. }
  destruct (IH c' Hp') as (acts' & c2 & E2 & ?). eexists _, c2. cbn. rewrite E. cbn. rewrite E2. done.
Qed.

Lemma run_ok ops c :
  kept c → phase c ≠ Closing → orderly ops c = true → digestible (backend_bytes ops) c →
  ∃ acts c', run ops c = Some (acts, c') ∧
    (phase c' ≠ Closing → kept c' ∧
     ∃ used, recv_buf c ++ client_bytes ops = used ++ recv_buf c' ∧
       extends used (sent_up acts) (backend_bytes ops) (sent_down acts) c c').
Proof.
  revert c. induction ops as [|op ops IH]; intros c Hk Hc Ho Hd.
  - eexists _, _. split; [done|]. intros _. split; [done|]. exists []. rewrite app_nil_r.
    split; [done|by apply extends_refl].
  - cbn [orderly] in Ho. apply andb_true_iff in Ho as [Ho1 Ho2]. apply negb_true_iff in Ho1.
    change (backend_bytes (op :: ops)) with (step_backend op ++ backend_bytes ops) in *.
    change (client_bytes (op :: ops)) with (step_client op ++ client_bytes ops).
    destruct (conn_step_ok op c _ Hk Hc Ho1 Hd) as (acts & c1 & E & Hcase). cbn [run].
    rewrite E in Ho2 |- *. cbn [mbind option_bind].
    destruct Hcase as [Hcl|(Hc1 & Hk1 & Hd1 & used & Hu & Hx)].
    + destruct (closing_run ops c1 Hcl) as (acts' & c2 & E2 & Hcl2). rewrite E2. eexists _, c2.
      split; [done|]. congruence.
    + destruct (IH c1 Hk1 Hc1 Ho2 Hd1) as (acts' & c2 & E2 & Hrest). rewrite E2. eexists _, c2.
      split; [done|]. intros Hn. destruct (Hrest Hn) as (Hk2 & used' & Hu' & Hx'). split; [done|].
      exists (used ++ used'). rewrite (assoc_L (++)), Hu, <- (assoc_L (++)), Hu', (assoc_L (++)).
      rewrite sent_up_app, sent_down_app. split; [done|]. by eapply extends_trans.
Qed.

(** C15: the activator is a transparent proxy: for every interleaving of client and backend
    data in which the backend sends messages, every call returns, and while the
    connection is open all bytes of the client were sent on in order or are kept for
    later, all bytes of the backend were passed to the client in order, and the only
    exceptions are requests for encryption and health checks, which were answered instead.
    The hypothesis [orderly] excludes client data on a connection that has stopped being
    idle while the beginning of a message is held. *)
Theorem postgres_transparent ops msgs rest :
  backend_bytes ops = concat (message <$> msgs) ++ rest → Forall small msgs →
  parse_tagged_message rest = None → orderly ops new = true →
  ∃ acts c, run ops new = Some (acts, c) ∧
    (phase c ≠ Closing →
     ∃ used, client_bytes ops = used ++ recv_buf c ∧ kept c ∧
       proxied used (sent_up acts ++ buffered_data c) (backend_bytes ops) (sent_down acts)).
Proof.
  intros Hb Hs Hr Ho.
  destruct (run_ok ops new) as (acts & c & E & H); [done|done|done| |].
  - rewrite Hb. eexists. by apply scans_messages.
  - exists acts, c. split; [done|]. intros Hn. destruct (H Hn) as (Hk & used & Hu & Hx).
    exists used. split_and!; [done|done|]. apply (Hx [] [] [] []). constructor.
Qed.

(** ** The need for a backend *)
Section Need.
Context `{!HashIter Z}.

Definition wants (a : PostgresActivator) : Prop :=
  ∃ h c, connections a !! h = Some c ∧ meaningful c = true ∧ is_idle c = false.
Lemma need_cases a :
  compute_backend_need a = NeedActive ∧ wants a ∨ compute_backend_need a = NeedNone ∧ ¬ wants a.
Proof.
  unfold compute_backend_need.
  assert (Hin : ∀ c, c ∈ filter (λ c, meaningful c = true) (hash_iter (connections a)).*2 ↔
                     meaningful c = true ∧ ∃ h, connections a !! h = Some c).
  { intros c. rewrite list_elem_of_filter, list_elem_of_fmap. f_equiv. split.
    - intros ([h c'] & -> & H). exists h. by apply elem_of_hash_iter.
    - intros [h H]. exists (h, c). split; [done|]. by apply elem_of_hash_iter. }
  case_bool_decide as He; [right; split; [done|]; intros (h & c & Hc & _); by rewrite He in Hc|].
  case_bool_decide as Hf.
  - right. split; [done|]. intros (h & c & Hc & Hm & _). assert (c ∈ ([] : list Connection)) as Hn.
    { rewrite <- Hf. apply Hin. eauto. } by apply not_elem_of_nil in Hn.
  - destruct (forallb is_idle _) eqn:Ea; [right|left]; (split; [done|]).
    + intros (h & c & Hc & Hm & Hi). rewrite forallb_forall in Ea.
      rewrite (Ea c) in Hi; [done|]. apply list_elem_of_In, Hin. eauto.
    + apply not_true_iff_false in Ea. rewrite forallb_forall in Ea.
      destruct (decide (Exists (λ c, is_idle c = false)
        (filter (λ c, meaningful c = true) (hash_iter (connections a)).*2))) as [Hex|Hex].
      * apply Exists_exists in Hex as (c & Hc & Hi). apply Hin in Hc as [Hm [h Hh]]. by exists h, c.
      * exfalso. apply Ea. intros c Hc. apply not_Exists_Forall in Hex; [|apply _].
        apply list_elem_of_In in Hc. rewrite Forall_forall in Hex. apply Hex in Hc. by apply not_false_is_true.
Qed.
Lemma need_ext a a' : (wants a ↔ wants a') → compute_backend_need a = compute_backend_need a'.
Proof. intros H. destruct (need_cases a) as [[-> ?]|[-> ?]], (need_cases a') as [[-> ?]|[-> ?]]; tauto. Qed.

Lemma conn_actions_quiet h cas a : Forall quiet (process_conn_actions h cas a).
Proof.
  unfold process_conn_actions. induction cas as [|ca cas IH]; [constructor|]. simpl.
  apply Forall_app. split; [|done]. destruct ca; simpl; repeat case_match; repeat constructor.
Qed.
Lemma need_reported acts old a :
  Forall quiet acts → foldl note_need old (acts ++ update_backend_need old a) = compute_backend_need a.
Proof.
  intros Hq. rewrite foldl_app, (foldl_quiet acts) by done. unfold update_backend_need.
  by case_bool_decide as E.
Qed.

Definition reports (a : PostgresActivator) (r : list Action * PostgresActivator) : Prop :=
  foldl note_need (compute_backend_need a) r.1 = compute_backend_need r.2 ∧
  dom (connections r.2) ⊆ dom (connections a).
Lemma reports_none a a' : connections a' = connections a → reports a ([], a').
Proof. intros E. split; simpl; [|by rewrite E]. apply need_ext. unfold wants. by rewrite E. Qed.
Lemma reports_update a acts a' :
  Forall quiet acts → dom (connections a') ⊆ dom (connections a) →
  reports a (acts ++ update_backend_need (compute_backend_need a) a', a').
Proof. intros Hq Hd. split; [by apply need_reported|done]. Qed.
Lemma dom_set_connection h c c' a :
  connections a !! h = Some c → dom (connections (set_connection h c' a)) ⊆ dom (connections a).
Proof. intros H. simpl. rewrite dom_insert. apply elem_of_dom_2 in H. set_solver. Qed.

Lemma stream_data_reports h data a r : handle_stream_data h data a = Some r → reports a r.
Proof.
  unfold handle_stream_data. intros H. destruct (connections a !! h) as [conn|] eqn:Ec;
    [|simplify_eq; by apply reports_none].
  apply bind_Some in H as ([cas conn'] & Hd & H).
  destruct (backend_available _ && _); simplify_eq; rewrite (assoc_L (++)).
  - apply reports_update; [|by eapply (dom_set_connection _ _ _ a)].
    apply Forall_app. split; [apply conn_actions_quiet|by repeat constructor].
  - apply reports_update; [|by eapply dom_set_connection].
    apply Forall_app. split; [apply conn_actions_quiet|constructor].
Qed.
Lemma stream_close_reports h a : reports a (handle_stream_close h a).
Proof.
  unfold handle_stream_close. destruct (connections a !! h) as [conn|] eqn:Ec;
    [|by apply (reports_update _ [])].
  destruct (upstream_of _ _); apply reports_update; try (by repeat constructor); simpl; set_solver.
Qed.
Lemma foldl_ask_connect handles acts a :
  Forall quiet acts →
  Forall quiet (foldl ask_connect (acts, a) handles).1 ∧
  connections (foldl ask_connect (acts, a) handles).2 = connections a.
Proof.
  revert acts a. induction handles as [|h handles IH]; intros acts a Hq; [done|]. simpl.
  destruct (IH (acts ++ [UpstreamConnect 5432])
    {| a with pending_connects := pending_connects a ++ [h] |}) as [H1 H2]; [|by rewrite H2].
  apply Forall_app. split; [done|by repeat constructor].
Qed.
Lemma foldl_drop_connection handles acts a :
  Forall quiet acts →
  Forall quiet (foldl drop_connection (acts, a) handles).1 ∧
  dom (connections (foldl drop_connection (acts, a) handles).2) ⊆ dom (connections a).
Proof.
  revert acts a. induction handles as [|h handles IH]; intros acts a Hq; [done|]. simpl.
  destruct (connections a !! h) as [conn|] eqn:Ec; [|by apply IH].
  destruct (on_upstream_closed conn) as [cas conn'].
  destruct (IH (acts ++ process_conn_actions h cas (set_connection h conn' a)) (set_connection h conn' a))
    as [H1 H2].
  - apply Forall_app. split; [done|apply conn_actions_quiet].
  - split; [done|]. etrans; [exact H2|by eapply dom_set_connection].
Qed.
Lemma foldl_drop_upstream uhs s :
  Forall quiet s.1 →
  Forall quiet (foldl drop_upstream s uhs).1 ∧ connections (foldl drop_upstream s uhs).2 = connections s.2.
Proof.
  revert s. induction uhs as [|u uhs IH]; intros [acts a] Hq; [done|]. simpl in *.
  destruct (IH (drop_upstream (acts, a) u)) as [H1 H2]; [|by split].
  apply Forall_app. split; [done|by repeat constructor].
Qed.
Lemma backend_available_reports av a : reports a (handle_backend_available av a).
Proof.
  unfold handle_backend_available. destruct av.
  - destruct (foldl_ask_connect (filter (λ e, has_buffered_startup e.2 = true)
      (hash_iter (connections a))).*1 [] {| a with backend_available := true |} ltac:(constructor)) as [Hq Hc].
    simpl in *. destruct (foldl ask_connect _ _) as [acts a']. simpl in *.
    apply reports_update; [done|]. by rewrite Hc.
  - destruct (foldl_drop_connection (hash_iter (connections a)).*1 []
      {| a with backend_available := false |} ltac:(constructor)) as [Hq Hc]. simpl in *.
    set (s := foldl drop_connection _ _) in *.
    destruct (foldl_drop_upstream (hash_iter (upstream_to_downstream s.2)).*1 s Hq) as [Hq' Hc'].
    destruct (foldl drop_upstream _ _) as [acts a']. simpl in *. apply reports_update; [done|]. by rewrite Hc'.
Qed.
Lemma connect_result_reports u ok a : reports a (handle_upstream_connect_result u ok a).
Proof.
  unfold handle_upstream_connect_result. destruct (pending_connects a) as [|h pending]; [by split|].
  set (a1 := if ok then _ else _). assert (E1 : connections a1 = connections a) by (by destruct ok).
  destruct (connections a1 !! h) as [conn|] eqn:Ec.
  - clearbody a1. destruct (if ok then on_upstream_connected conn else on_upstream_failed conn) as [cas conn']. apply reports_update; [apply conn_actions_quiet|].
    rewrite <- E1. by eapply dom_set_connection.
  - apply (reports_update _ []); [constructor|]. by rewrite E1.
Qed.
Lemma upstream_data_reports u data a r : handle_upstream_data u data a = Some r → reports a r.
Proof.
  unfold handle_upstream_data. intros H.
  destruct (upstream_to_downstream a !! u) as [h|]; [|simplify_eq; by apply reports_none].
  destruct (connections a !! h) as [conn|] eqn:Ec; [|simplify_eq; by apply reports_none].
  apply bind_Some in H as ([cas conn'] & Hd & H). simplify_eq.
  apply reports_update; [apply conn_actions_quiet|by eapply dom_set_connection].
Qed.
Lemma upstream_close_reports u a : reports a (handle_upstream_close u a).
Proof.
  unfold handle_upstream_close. destruct (upstream_to_downstream a !! u) as [h|]; [|by apply reports_none].
  cbn [connections]. destruct (connections a !! h) as [conn|] eqn:Ec; [|by apply reports_none].
  destruct (on_upstream_closed conn) as [cas conn']. apply reports_update; [apply conn_actions_quiet|].
  simpl. rewrite dom_insert. apply elem_of_dom_2 in Ec. set_solver.
Qed.
End Need.

Section Tracks.
Context `{!HashIter Z}.

Lemma wants_open h a :
  connections a !! h = None → wants (handle_stream_open h a) ↔ wants a.
Proof.
  intros Hh. unfold wants, handle_stream_open, set_connection. cbn [connections]. split.
  - intros (h' & c & Hc & Hm & Hi). destruct (decide (h' = h)) as [->|Hne].
    + rewrite lookup_insert_eq in Hc. by simplify_eq.
    + rewrite lookup_insert_ne in Hc by done. eauto.
  - intros (h' & c & Hc & Hm & Hi). exists h', c. rewrite lookup_insert_ne by naive_solver. done.
Qed.
Lemma handle_event_reports event a acts a' :
  handle_event event a = Some (acts, a') → (∀ h, h ∈ opens [event] → h ∉ dom (connections a)) →
  foldl note_need (compute_backend_need a) acts = compute_backend_need a' ∧
  dom (connections a') ⊆ dom (connections a) ∪ list_to_set (opens [event]).
Proof.
  assert (Hr : ∀ r, reports a r →
    foldl note_need (compute_backend_need a) r.1 = compute_backend_need r.2 ∧
    dom (connections r.2) ⊆ dom (connections a) ∪ list_to_set (opens [event])).
  { intros r [H1 H2]. split; [done|set_solver]. }
  intros H Hf. destruct event; cbn [handle_event] in H; simplify_eq.
  - apply (Hr (acts, a')). rewrite <- H. apply backend_available_reports.
  - apply (Hr ([], _)). by apply reports_none.
  - apply (Hr ([], _)). by apply reports_none.
  - split.
    + apply need_ext. symmetry. apply wants_open. apply not_elem_of_dom, Hf. set_solver.
    + simpl. rewrite dom_insert. set_solver.
  - apply (Hr (acts, a')). by eapply stream_data_reports.
  - apply (Hr (acts, a')). rewrite <- H. apply stream_close_reports.
  - apply (Hr (acts, a')). rewrite <- H. apply connect_result_reports.
  - apply (Hr (acts, a')). by eapply upstream_data_reports.
  - apply (Hr (acts, a')). rewrite <- H. apply upstream_close_reports.
Qed.
Lemma process_events_need events a acts a' :
  process_events events a = Some (acts, a') →
  NoDup (opens events) → (∀ h, h ∈ opens events → h ∉ dom (connections a)) →
  foldl note_need (compute_backend_need a) acts = compute_backend_need a' ∧
  dom (connections a') ⊆ dom (connections a) ∪ list_to_set (opens events).
Proof.
  revert a acts. induction events as [|e events IH]; intros a acts H Hd Hf; simpl in H.
  - simplify_eq. split; [done|set_solver].
  - change (e :: events) with ([e] ++ events) in *. rewrite opens_app in *.
    apply NoDup_app in Hd as (_ & Hd12 & Hd2).
    apply bind_Some in H as ([acts1 a1] & H1 & H). apply bind_Some in H as ([acts2 a2] & H2 & H). simplify_eq.
    destruct (handle_event_reports _ _ _ _ H1) as [Hn1 Ho1]; [set_solver|].
    destruct (IH _ _ H2 Hd2) as [Hn2 Ho2]; [|rewrite foldl_app, Hn1; split; [done|by eapply opened_trans]].
    intros h Hh Hin. apply Ho1, elem_of_union in Hin as [Hin|Hin].
    + apply (Hf h); [set_solver|done].
    + apply elem_of_list_to_set in Hin. by apply (Hd12 h).
Qed.
#[export] Instance postgres_tracks_need : TracksNeed PostgresActivator.
Proof.
  refine {| current_need := compute_backend_need; open_streams a := dom (connections a);
            well_formed _ := True |}.
  intros events a acts a' H _ Hd Hf. by destruct (process_events_need events a acts a' H Hd Hf).
Defined.

#[local] Existing Instance activator_component.
End Tracks.

(** ** Concrete runs *)
Definition startup_message : list Z := to_be32 17 ++ to_be32 PROTOCOL_VERSION_3_0 ++ [117; 115; 101; 114; 0; 120; 0; 0; 0].
Definition ready (status : Z) : Z * list Z := (MSG_READY_FOR_QUERY, [status]).
Definition query (text : list Z) : list Z := message (MSG_QUERY, text ++ [0]).
Definition begin_tx : list Z := [66; 69; 71; 73; 78].
Definition demo_ops : list ConnOp :=
  [ClientData (to_be32 8 ++ to_be32 SSL_REQUEST_CODE); ClientData (take 9 startup_message);
   ClientData (drop 9 startup_message); UpConnected; UpData (message (82, [0; 0; 0; 0]) ++ [90; 0]);
   UpData (drop 2 (message (ready 73))); ClientData (query select_1 ++ take 3 (query begin_tx));
   ClientData (drop 3 (query begin_tx)); UpData (message (ready 84)); ClientData (query select_1)].

Lemma postgres_transparent_witness :
  backend_bytes demo_ops = concat (message <$> [(82, [0; 0; 0; 0]); ready 73; ready 84]) ++ [] ∧
  ∃ acts c, run demo_ops new = Some (acts, c) ∧
    (phase c ≠ Closing →
     ∃ used, client_bytes demo_ops = used ++ recv_buf c ∧ kept c ∧
       proxied used (sent_up acts ++ buffered_data c) (backend_bytes demo_ops) (sent_down acts)).
Proof.
  split; [by vm_compute|].
  apply (postgres_transparent demo_ops [(82, [0; 0; 0; 0]); ready 73; ready 84] []).
  - by vm_compute.
  - repeat constructor.
  - done.
  - by vm_compute.
Defined.

Example demo_down :
  (λ r, (phase r.2, sent_down r.1, sent_up r.1)) <$> run demo_ops new =
  Some (Proxying,
    [78] ++ message (82, [0; 0; 0; 0]) ++ message (ready 73) ++ build_select_1_response ++ message (ready 84),
    startup_message ++ query begin_tx ++ query select_1).
Proof. by vm_compute. Qed.

Lemma status_follows_backend_witness :
  ∃ c', run (UpData <$> [[90; 0]; [0; 0; 5; 73; 90]; [0; 0]]) new
      = Some (ConnDownstreamSend <$> [[90; 0]; [0; 0; 5; 73; 90]; [0; 0]], c') ∧
    upstream_recv_buf c' = [90; 0; 0] ∧ same_client new c' ∧
    is_idle c' = bool_decide (last (omap ready_status [ready 73]) = Some Idle).
Proof.
  apply (status_follows_backend [[90; 0]; [0; 0; 5; 73; 90]; [0; 0]] [ready 73] [90; 0; 0] new).
  - repeat constructor.
  - by vm_compute.
  - done.
  - done.
  - done.
  - done.
Defined.

(** An idle connection *)
Definition idle_ops : list ConnOp := [ClientData startup_message; UpConnected; UpData (message (ready 73))].
(** A query that is under way leaves the connection idle, so that a health check that
    follows it is answered before the query is. *)
Example pipelined_answer_overtakes :
  (λ r, (is_idle r.2, sent_up r.1, sent_down r.1)) <$>
    run (idle_ops ++ [ClientData (query begin_tx); ClientData (query select_1)]) new =
  Some (true, startup_message ++ query begin_tx, message (ready 73) ++ build_select_1_response).
Proof. by vm_compute. Qed.
(** The beginning of a message that is held when the connection stops being idle is
    overtaken by the rest of the message. *)
Example held_bytes_overtaken :
  (λ r, (sent_up r.1, recv_buf r.2)) <$>
    run (idle_ops ++ [ClientData (query begin_tx); ClientData (take 3 (query select_1));
                      UpData (message (ready 84)); ClientData (drop 3 (query select_1))]) new =
  Some (startup_message ++ query begin_tx ++ drop 3 (query select_1), take 3 (query select_1)).
Proof. by vm_compute. Qed.
(** A length of [2^32 - 1] from the backend makes the scan run for ever. *)
Example wrapped_length_hangs fuel c :
  upstream_recv_buf c = [] → scan_loop fuel (received [68; 255; 255; 255; 255] c) = None.
Proof. intros Hc. apply (scan_stuck _ 68). by rewrite buf_received, Hc. Qed.

Definition events_waiting : list Event :=
  [BackendAvailable true; StreamOpen 1; StreamData 1 startup_message; StreamData 1 (query begin_tx)].
(** Data that arrives while a connection is being made asks for another one; the second one
    is then a candidate for what the client sends. *)
Example second_connect :
  fst <$> process_events events_waiting new_activator =
  Some [UpstreamConnect 5432; SetBackendNeed NeedActive; UpstreamConnect 5432].
Proof. by vm_compute. Qed.
Definition two_upstreams : list Event :=
  events_waiting ++ [UpstreamConnectResult 7 true; UpstreamConnectResult 8 true; StreamData 1 (query select_1)].
Definition reversed_iter : HashIter Z := {|
  hash_iter := λ V m, reverse (map_to_list m);
  hash_iter_perm := λ V m, reverse_Permutation (map_to_list m);
|}.
Definition upstream_sends (acts : list Action) : list (Z * list Z) :=
  omap (λ x, match x with UpstreamSend u d => Some (u, d) | _ => None end) acts.
Example second_upstream_gets_data :
  let sent iter := (λ r, upstream_sends r.1) <$> process_events (HashIter0 := iter) two_upstreams new_activator in
  ∃ iter1 iter2,
    sent iter1 = Some [(7, startup_message ++ query begin_tx); (7, query select_1)] ∧
    sent iter2 = Some [(7, startup_message ++ query begin_tx); (8, query select_1)].
Proof.
  destruct (decide (fst <$> map_to_list ({[7 := 1; 8 := 1]} : gmap Z Z) = [7; 8])) as [E|E].
  - exists hash_iter_canonical, reversed_iter. split; by vm_compute.
  - exists reversed_iter, hash_iter_canonical. split; by vm_compute.
Qed.
(** Results are matched to clients by order: after a client has left, the failure of its
    connection closes the connection of the next client. *)
Example failure_hits_next_client :
  fst <$> process_events
    [BackendAvailable true; StreamOpen 1; StreamOpen 2; StreamData 1 startup_message;
     StreamData 2 startup_message; StreamClose 1; UpstreamConnectResult 7 false;
     UpstreamConnectResult 8 true] new_activator =
  Some [UpstreamConnect 5432; SetBackendNeed NeedActive; UpstreamConnect 5432; DownstreamClose 2;
        UpstreamClose 8].
Proof. by vm_compute. Qed.

Definition demo_batches : list (list Event) :=
  [[BackendAvailable true; StreamOpen 1]; [StreamData 1 startup_message]; [UpstreamConnectResult 7 true];
   [UpstreamData 7 (message (ready 73))]; [StreamData 1 (query begin_tx)]; [UpstreamData 7 (message (ready 84))]].
Section Witness.
#[local] Existing Instance activator_component.
Lemma demo_batches_fresh : NoDup (opens (concat demo_batches)).
Proof. apply (bool_decide_unpack _). by vm_compute. Qed.
Lemma demo_batches_served : ∃ inst, serve demo_batches (start new_activator) = (true, inst).
Proof.
  exists (serve demo_batches (start new_activator)).2.
  destruct (serve demo_batches (start new_activator)) as [[] inst] eqn:E; [done|].
  assert (H : (serve demo_batches (start new_activator)).1 = true) by by vm_compute. by rewrite E in H.
Qed.
(** A query that is under way does not count as a need. *)
Example query_in_flight_no_need :
  last_backend_need (serve (take 5 demo_batches) (start new_activator)).2 = NeedNone ∧
  last_backend_need (serve demo_batches (start new_activator)).2 = NeedActive.
Proof. split; by vm_compute. Qed.
End Witness.

End PostgresInv.
