(* ===== verification/Http2.v ===== *)
(** * The HTTP/2 activator ([activators/http2/src/{frame,connection,core}.rs])

    The activator ends the HTTP/2 connections of clients and of backends: it answers
    settings, pings and flow control on both sides itself, keeps the frames of a client
    until a backend is connected, and counts the open streams, from which it computes
    whether a backend is needed.

    Sizes are [nat]: a frame is at most [2^24 + 8] bytes.  The loops over the frames of a
    buffer have the length of the buffer as fuel; every frame has at least nine bytes. *)

From S2P Require Import Prelude Bytes SmTypes Flow Checksum Frame Processor TcpActivator.

Module Http2.
Import Bytes Processor Activators.

(** ** Frames ([frame.rs]) *)
Inductive FrameType :=
  | Data | Headers | Priority | RstStream | Settings | PushPromise | Ping | Goaway | WindowUpdate
  | Continuation | Unknown (v : Z).
#[export] Instance FrameType_eq_dec : EqDecision FrameType.
Proof. solve_decision. Defined.
Definition from_u8 (v : Z) : FrameType :=
  if v =? 0 then Data else if v =? 1 then Headers else if v =? 2 then Priority
  else if v =? 3 then RstStream else if v =? 4 then Settings else if v =? 5 then PushPromise
  else if v =? 6 then Ping else if v =? 7 then Goaway else if v =? 8 then WindowUpdate
  else if v =? 9 then Continuation else Unknown v.
Definition to_u8 (t : FrameType) : Z :=
  match t with
  | Data => 0 | Headers => 1 | Priority => 2 | RstStream => 3 | Settings => 4 | PushPromise => 5
  | Ping => 6 | Goaway => 7 | WindowUpdate => 8 | Continuation => 9 | Unknown v => v
  end.

Definition FLAG_END_STREAM : Z := 1.
Definition FLAG_ACK : Z := 1.
Definition ERROR_NO_ERROR : Z := 0.
Definition ERROR_INTERNAL_ERROR : Z := 2.
Definition FRAME_HEADER_LEN : nat := 9.
(** [PRI * HTTP/2.0\r\n\r\nSM\r\n\r\n] *)
Definition CLIENT_PREFACE : list Z :=
  [80; 82; 73; 32; 42; 32; 72; 84; 84; 80; 47; 50; 46; 48; 13; 10; 13; 10; 83; 77; 13; 10; 13; 10].

Record Frame := { frame_type : FrameType; flags : Z; stream_id : Z; payload : list Z }.

Definition parse_frame (buf : list Z) : option (Frame * nat) :=
  if (length buf <? FRAME_HEADER_LEN)%nat then None
  else
    let len := Z.to_nat (Z.lor (Z.lor (Z.shiftl (buf !!! 0%nat) 16) (Z.shiftl (buf !!! 1%nat) 8)) (buf !!! 2%nat)) in
    let total := (FRAME_HEADER_LEN + len)%nat in
    if (length buf <? total)%nat then None
    else Some
      ({| frame_type := from_u8 (buf !!! 3%nat); flags := buf !!! 4%nat;
          stream_id := be32 (Z.land (buf !!! 5%nat) 127) (buf !!! 6%nat) (buf !!! 7%nat) (buf !!! 8%nat);
          payload := take len (drop FRAME_HEADER_LEN buf) |}, total).

Definition serialize_frame (ty : FrameType) (flags stream_id : Z) (payload : list Z) : list Z :=
  let length := zlen payload in
  [wrap 8 (Z.shiftr length 16); wrap 8 (Z.shiftr length 8); wrap 8 length; to_u8 ty; flags]
    ++ to_be32 (Z.land stream_id 2147483647) ++ payload.
Definition build_settings (params : list (Z * Z)) : list Z :=
  serialize_frame Settings 0 0 (params ≫= λ p, to_be16 p.1 ++ to_be32 p.2).
Definition build_settings_ack : list Z := serialize_frame Settings FLAG_ACK 0 [].
Definition build_ping_ack (opaque : list Z) : list Z := serialize_frame Ping FLAG_ACK 0 opaque.
Definition build_window_update (stream_id increment : Z) : list Z :=
  serialize_frame WindowUpdate 0 stream_id (to_be32 (Z.land increment 2147483647)).
Definition build_goaway (last_stream_id error_code : Z) : list Z :=
  serialize_frame Goaway 0 0 (to_be32 (Z.land last_stream_id 2147483647) ++ to_be32 error_code).
Definition our_settings : list Z :=
  build_settings [(1, 0); (2, 0); (3, 100); (4, 65535); (5, 16384)].

(** ** One connection ([connection.rs]) *)
Inductive Phase := AwaitingPreface | Handshaking | Active | Closing.
Inductive UpstreamState := UpNone | Connecting | UpHandshaking | Ready | UpFailed.
#[export] Instance Phase_eq_dec : EqDecision Phase.
Proof. solve_decision. Defined.
#[export] Instance UpstreamState_eq_dec : EqDecision UpstreamState.
Proof. solve_decision. Defined.
Record H2Stream := { client_end_stream : bool; backend_end_stream : bool }.
Inductive ConnAction :=
  | ConnDownstreamSend (data : list Z)
  | ConnUpstreamSend (data : list Z)
  | ConnDownstreamClose
  | ConnUpstreamClose
  | StreamOpened
  | StreamClosed
  | ConnLog (msg : string).

Record Connection := {
  phase : Phase; upstream_state : UpstreamState; recv_buf : list Z; upstream_recv_buf : list Z;
  streams : list (Z * H2Stream); buffered_frames : list (list Z); client_settings_acked : bool;
  upstream_settings_acked : bool; last_client_stream_id : Z }.
Definition new : Connection :=
  {| phase := AwaitingPreface; upstream_state := UpNone; recv_buf := []; upstream_recv_buf := [];
     streams := []; buffered_frames := []; client_settings_acked := false;
     upstream_settings_acked := false; last_client_stream_id := 0 |}.

Definition has_buffered_frames (c : Connection) : bool := bool_decide (buffered_frames c ≠ []).
Definition flush_buffered (c : Connection) : list ConnAction * Connection :=
  (ConnUpstreamSend <$> buffered_frames c, {| c with buffered_frames := [] |}).
Definition buffer_or_forward (frame : list Z) (c : Connection) : list ConnAction * Connection :=
  if bool_decide (upstream_state c = Ready) then ([ConnUpstreamSend frame], c)
  else ([], {| c with buffered_frames := buffered_frames c ++ [frame] |}).
Definition check_handshake_complete (c : Connection) : Connection :=
  if client_settings_acked c && bool_decide (phase c = Handshaking) then {| c with phase := Active |} else c.
Definition stream_count (c : Connection) : Z := zlen (streams c).
Definition has_stream (stream_id : Z) (c : Connection) : bool := existsb (λ e, e.1 =? stream_id) (streams c).
Definition open_stream (stream_id : Z) (c : Connection) : Connection :=
  {| c with streams := streams c ++ [(stream_id, {| client_end_stream := false; backend_end_stream := false |})] |}.
Definition remove_stream (stream_id : Z) (c : Connection) : Connection :=
  {| c with streams := filter (λ e, e.1 ≠ stream_id) (streams c) |}.
(** [iter_mut().find(..)]: the first stream with the id *)
Fixpoint update_first (id : Z) (f : H2Stream → H2Stream) (l : list (Z * H2Stream)) : list (Z * H2Stream) :=
  match l with
  | [] => []
  | e :: l => if e.1 =? id then (e.1, f e.2) :: l else e :: update_first id f l
  end.
Definition set_client_end_stream (stream_id : Z) (c : Connection) : Connection :=
  {| c with streams := update_first stream_id (λ s, {| s with client_end_stream := true |}) (streams c) |}.
Definition set_backend_end_stream (stream_id : Z) (c : Connection) : Connection :=
  {| c with streams := update_first stream_id (λ s, {| s with backend_end_stream := true |}) (streams c) |}.
Definition check_stream_closed (stream_id : Z) (c : Connection) : bool * Connection :=
  let closed := existsb (λ e, (e.1 =? stream_id) && client_end_stream e.2 && backend_end_stream e.2) (streams c) in
  (closed, if closed then remove_stream stream_id c else c).

(** The end of a stream on one side, as [END_STREAM] announces it *)
Definition end_stream (set : Z → Connection → Connection) (f : Frame) (c : Connection) :
    list ConnAction * Connection :=
  if negb (Z.land (flags f) FLAG_END_STREAM =? 0) then
    let '(closed, c) := check_stream_closed (stream_id f) (set (stream_id f) c) in
    (if closed then [StreamClosed] else [], c)
  else ([], c).
(** [RST_STREAM] *)
Definition reset_stream (stream_id : Z) (c : Connection) : list ConnAction * Connection :=
  if has_stream stream_id c then ([StreamClosed], remove_stream stream_id c) else ([], c).
(** The eight bytes of a ping *)
Definition opaque_of (payload : list Z) : list Z :=
  if (8 <=? length payload)%nat then take 8 payload else replicate 8 0.
(** The flow control of the data that was received *)
Definition window_updates (f : Frame) : list (list Z) :=
  let len := zlen (payload f) in
  if 0 <? len then
    build_window_update 0 len :: (if 0 <? stream_id f then [build_window_update (stream_id f) len] else [])
  else [].

Definition handle_client_frame (f : Frame) (raw_frame : list Z) (c : Connection) :
    list ConnAction * Connection :=
  match frame_type f with
  | Settings =>
      if negb (Z.land (flags f) FLAG_ACK =? 0)
      then ([], check_handshake_complete {| c with client_settings_acked := true |})
      else ([ConnDownstreamSend build_settings_ack], c)
  | Ping =>
      if negb (Z.land (flags f) FLAG_ACK =? 0) then ([], c)
      else ([ConnDownstreamSend (build_ping_ack (opaque_of (payload f)))], c)
  | Headers =>
      let '(opened, c) :=
        if (0 <? stream_id f) && negb (has_stream (stream_id f) c)
        then ([StreamOpened],
              let c := open_stream (stream_id f) c in
              if last_client_stream_id c <? stream_id f
              then {| c with last_client_stream_id := stream_id f |} else c)
        else ([], c) in
      let '(ended, c) := end_stream set_client_end_stream f c in
      let '(sent, c) := buffer_or_forward raw_frame c in
      (opened ++ ended ++ sent, c)
  | Data =>
      let updates := ConnDownstreamSend <$> window_updates f in
      let '(ended, c) := end_stream set_client_end_stream f c in
      let '(sent, c) := buffer_or_forward raw_frame c in
      (updates ++ ended ++ sent, c)
  | RstStream =>
      let '(ended, c) := reset_stream (stream_id f) c in
      let '(sent, c) := buffer_or_forward raw_frame c in
      (ended ++ sent, c)
  | Goaway => buffer_or_forward raw_frame {| c with phase := Closing |}
  | _ => buffer_or_forward raw_frame c
  end.

(** The backend's settings, or its acknowledgement of ours, end the handshake. *)
Definition upstream_ready (c : Connection) : list ConnAction * Connection :=
  if bool_decide (upstream_state c = UpHandshaking)
  then flush_buffered {| c with upstream_state := Ready |} else ([], c).
Definition handle_upstream_frame (f : Frame) (raw_frame : list Z) (c : Connection) :
    list ConnAction * Connection :=
  match frame_type f with
  | Settings =>
      if negb (Z.land (flags f) FLAG_ACK =? 0)
      then upstream_ready {| c with upstream_settings_acked := true |}
      else let '(flushed, c) := upstream_ready c in (ConnUpstreamSend build_settings_ack :: flushed, c)
  | Ping =>
      if negb (Z.land (flags f) FLAG_ACK =? 0) then ([], c)
      else ([ConnUpstreamSend (build_ping_ack (opaque_of (payload f)))], c)
  | Data =>
      let updates := ConnUpstreamSend <$> window_updates f in
      let '(ended, c) := end_stream set_backend_end_stream f c in
      (updates ++ ended ++ [ConnDownstreamSend raw_frame], c)
  | Headers =>
      let '(ended, c) := end_stream set_backend_end_stream f c in
      (ended ++ [ConnDownstreamSend raw_frame], c)
  | RstStream =>
      let '(ended, c) := reset_stream (stream_id f) c in
      (ended ++ [ConnDownstreamSend raw_frame], c)
  | Goaway => ([ConnDownstreamSend raw_frame], {| c with phase := Closing |})
  | _ => ([ConnDownstreamSend raw_frame], c)
  end.

Fixpoint client_frames (fuel : nat) (c : Connection) (actions : list ConnAction) :
    list ConnAction * Connection :=
  match fuel with
  | O => (actions, c)
  | S fuel =>
      match parse_frame (recv_buf c) with
      | None => (actions, c)
      | Some (frame, consumed) =>
          let raw_frame := take consumed (recv_buf c) in
          let c := {| c with recv_buf := drop consumed (recv_buf c) |} in
          if bool_decide (phase c = Closing) then client_frames fuel c actions
          else
            let '(acts, c) := handle_client_frame frame raw_frame c in
            client_frames fuel c (actions ++ acts)
      end
  end.
Definition on_client_data (data : list Z) (c : Connection) : list ConnAction * Connection :=
  let c := {| c with recv_buf := recv_buf c ++ data |} in
  if bool_decide (phase c = AwaitingPreface) then
    if (length (recv_buf c) <? length CLIENT_PREFACE)%nat then ([], c)
    else if negb (bool_decide (take (length CLIENT_PREFACE) (recv_buf c) = CLIENT_PREFACE)) then
      ([ConnLog "invalid H2 preface"; ConnDownstreamClose], {| c with phase := Closing |})
    else
      let c := {| c with recv_buf := drop (length CLIENT_PREFACE) (recv_buf c); phase := Handshaking |} in
      client_frames (S (length (recv_buf c))) c [ConnDownstreamSend our_settings]
  else client_frames (S (length (recv_buf c))) c [].

Definition on_upstream_connected (c : Connection) : list ConnAction * Connection :=
  ([ConnUpstreamSend (CLIENT_PREFACE ++ our_settings)], {| c with upstream_state := UpHandshaking |}).

Fixpoint upstream_frames (fuel : nat) (c : Connection) (actions : list ConnAction) :
    list ConnAction * Connection :=
  match fuel with
  | O => (actions, c)
  | S fuel =>
      match parse_frame (upstream_recv_buf c) with
      | None => (actions, c)
      | Some (frame, consumed) =>
          let raw_frame := take consumed (upstream_recv_buf c) in
          let c := {| c with upstream_recv_buf := drop consumed (upstream_recv_buf c) |} in
          let '(acts, c) := handle_upstream_frame frame raw_frame c in
          upstream_frames fuel c (actions ++ acts)
      end
  end.
Definition on_upstream_data (data : list Z) (c : Connection) : list ConnAction * Connection :=
  let c := {| c with upstream_recv_buf := upstream_recv_buf c ++ data |} in
  upstream_frames (S (length (upstream_recv_buf c))) c [].

(** The streams that remain count as closed. *)
Definition close_streams (c : Connection) : list ConnAction * Connection :=
  (replicate (length (streams c)) StreamClosed, {| c with streams := [] |}).
Definition on_upstream_closed (c : Connection) : list ConnAction * Connection :=
  let c := {| c with upstream_state := UpFailed |} in
  let '(said, c) :=
    if negb (bool_decide (phase c = Closing)) then
      ([ConnDownstreamSend (build_goaway (last_client_stream_id c) ERROR_NO_ERROR); ConnDownstreamClose],
       {| c with phase := Closing |})
    else ([], c) in
  let '(closed, c) := close_streams c in
  (said ++ closed, c).
Definition on_upstream_failed (c : Connection) : list ConnAction * Connection :=
  let c := {| c with upstream_state := UpFailed; phase := Closing |} in
  let '(closed, c) := close_streams c in
  ([ConnDownstreamSend (build_goaway 0 ERROR_INTERNAL_ERROR); ConnDownstreamClose] ++ closed, c).

(** ** The activator ([core.rs]) *)
Section Core.
Context `{!HashIter Z}.
(** The count is a [usize]; every stream it counts is an entry of a vector. *)
Record Http2Activator := {
  connections : gmap Z Connection; upstream_to_downstream : gmap Z Z; pending_connects : list Z;
  backend_available : bool; total_h2_streams : Z }.
Definition new_activator : Http2Activator :=
  {| connections := ∅; upstream_to_downstream := ∅; pending_connects := []; backend_available := false;
     total_h2_streams := 0 |}.

Definition check_backend_need_transition (old_ new_ : Z) : list Action :=
  if (old_ =? 0) && (0 <? new_) then [SetBackendNeed NeedActive]
  else if (0 <? old_) && (new_ =? 0) then [SetBackendNeed NeedNone]
  else [].

Definition upstream_of (handle : Z) (a : Http2Activator) : option Z :=
  fst <$> find (λ e, e.2 =? handle) (hash_iter (upstream_to_downstream a)).
Definition conn_action (downstream_handle : Z) (a : Http2Activator) (ca : ConnAction) :
    list Action * Http2Activator :=
  match ca with
  | ConnDownstreamSend data => ([DownstreamSend downstream_handle data], a)
  | ConnUpstreamSend data =>
      (match upstream_of downstream_handle a with Some uh => [UpstreamSend uh data] | None => [] end, a)
  | ConnDownstreamClose => ([DownstreamClose downstream_handle], a)
  | ConnUpstreamClose =>
      (match upstream_of downstream_handle a with Some uh => [UpstreamClose uh] | None => [] end, a)
  | StreamOpened => ([], {| a with total_h2_streams := total_h2_streams a + 1 |})
  | StreamClosed => ([], {| a with total_h2_streams := saturating_sub (total_h2_streams a) 1 |})
  | ConnLog msg => ([Log {| log_level := Info; log_message := msg |}], a)
  end.
Fixpoint process_conn_actions (downstream_handle : Z) (conn_actions : list ConnAction) (a : Http2Activator) :
    list Action * Http2Activator :=
  match conn_actions with
  | [] => ([], a)
  | ca :: conn_actions =>
      let '(acts, a) := conn_action downstream_handle a ca in
      let '(acts', a) := process_conn_actions downstream_handle conn_actions a in
      (acts ++ acts', a)
  end.

Definition set_connection (handle : Z) (c : Connection) (a : Http2Activator) : Http2Activator :=
  {| a with connections := <[handle := c]> (connections a) |}.
(** A connection that wants a backend and has none yet *)
Definition unconnected (c : Connection) : bool :=
  bool_decide (upstream_state c = UpNone) && has_buffered_frames c.
Definition begin_connect (handle : Z) (conn : Connection) (a : Http2Activator) : Http2Activator :=
  let a := set_connection handle {| conn with upstream_state := Connecting |} a in
  {| a with pending_connects := pending_connects a ++ [handle] |}.

Definition handle_stream_open (handle : Z) (a : Http2Activator) : Http2Activator := set_connection handle new a.

Definition handle_stream_data (handle : Z) (data : list Z) (a : Http2Activator) : list Action * Http2Activator :=
  match connections a !! handle with
  | None => ([], a)
  | Some conn =>
      let old_streams := total_h2_streams a in
      let '(conn_actions, conn) := on_client_data data conn in
      let '(sent, a) := process_conn_actions handle conn_actions (set_connection handle conn a) in
      let '(asked, a) :=
        if backend_available a && unconnected conn
        then ([UpstreamConnect 80], begin_connect handle conn a) else ([], a) in
      (sent ++ asked ++ check_backend_need_transition old_streams (total_h2_streams a), a)
  end.

Definition handle_stream_close (handle : Z) (a : Http2Activator) : list Action * Http2Activator :=
  let old_streams := total_h2_streams a in
  let '(closed, a) :=
    match connections a !! handle with
    | None => ([], a)
    | Some conn =>
        let a := {| a with connections := delete handle (connections a) |} in
        let '(closed, a) :=
          match upstream_of handle a with
          | Some uh => ([UpstreamClose uh],
                        {| a with upstream_to_downstream := delete uh (upstream_to_downstream a) |})
          | None => ([], a)
          end in
        (closed, {| a with pending_connects := filter (λ h, h ≠ handle) (pending_connects a);
                           total_h2_streams := saturating_sub (total_h2_streams a) (stream_count conn) |})
    end in
  (closed ++ check_backend_need_transition old_streams (total_h2_streams a), a).

Definition ask_connect (s : list Action * Http2Activator) (handle : Z) : list Action * Http2Activator :=
  let '(actions, a) := s in
  match connections a !! handle with
  | None => (actions, a)
  | Some conn => (actions ++ [UpstreamConnect 80], begin_connect handle conn a)
  end.
Definition drop_connection (s : list Action * Http2Activator) (handle : Z) : list Action * Http2Activator :=
  let '(actions, a) := s in
  match connections a !! handle with
  | None => (actions, a)
  | Some conn =>
      let '(conn_actions, conn) := on_upstream_closed conn in
      let '(sent, a) := process_conn_actions handle conn_actions (set_connection handle conn a) in
      (actions ++ sent, a)
  end.
Definition drop_upstream (s : list Action * Http2Activator) (uh : Z) : list Action * Http2Activator :=
  let '(actions, a) := s in
  (actions ++ [UpstreamClose uh],
   {| a with upstream_to_downstream := delete uh (upstream_to_downstream a) |}).
Definition handle_backend_available (available : bool) (a : Http2Activator) : list Action * Http2Activator :=
  let a := {| a with backend_available := available |} in
  if available then
    let handles := (filter (λ e, unconnected e.2 = true) (hash_iter (connections a))).*1 in
    foldl ask_connect ([], a) handles
  else
    let old_streams := total_h2_streams a in
    let s := foldl drop_connection ([], a) (hash_iter (connections a)).*1 in
    let '(actions, a) := foldl drop_upstream s (hash_iter (upstream_to_downstream s.2)).*1 in
    (actions ++ check_backend_need_transition old_streams (total_h2_streams a), a).

(** A connection is told of its backend. *)
Definition tell (handle : Z) (f : Connection → list ConnAction * Connection) (a : Http2Activator) :
    list Action * Http2Activator :=
  match connections a !! handle with
  | None => ([], a)
  | Some conn =>
      let '(conn_actions, conn) := f conn in
      process_conn_actions handle conn_actions (set_connection handle conn a)
  end.
Definition handle_upstream_connect_result (upstream_handle : Z) (ok : bool) (a : Http2Activator) :
    list Action * Http2Activator :=
  match pending_connects a with
  | [] => ([UpstreamClose upstream_handle], a)
  | downstream_handle :: pending =>
      let a := {| a with pending_connects := pending |} in
      if ok then
        tell downstream_handle on_upstream_connected
          {| a with upstream_to_downstream := <[upstream_handle := downstream_handle]> (upstream_to_downstream a) |}
      else
        let old_streams := total_h2_streams a in
        let '(sent, a) := tell downstream_handle on_upstream_failed a in
        (sent ++ check_backend_need_transition old_streams (total_h2_streams a), a)
  end.

Definition handle_upstream_data (upstream_handle : Z) (data : list Z) (a : Http2Activator) :
    list Action * Http2Activator :=
  match upstream_to_downstream a !! upstream_handle with
  | None => ([], a)
  | Some downstream_handle =>
      match connections a !! downstream_handle with
      | None => ([], a)
      | Some _ =>
          let old_streams := total_h2_streams a in
          let '(sent, a) := tell downstream_handle (on_upstream_data data) a in
          (sent ++ check_backend_need_transition old_streams (total_h2_streams a), a)
      end
  end.
Definition handle_upstream_close (upstream_handle : Z) (a : Http2Activator) : list Action * Http2Activator :=
  match upstream_to_downstream a !! upstream_handle with
  | None => ([], a)
  | Some downstream_handle =>
      let a := {| a with upstream_to_downstream := delete upstream_handle (upstream_to_downstream a) |} in
      match connections a !! downstream_handle with
      | None => ([], a)
      | Some _ =>
          let old_streams := total_h2_streams a in
          let '(sent, a) := tell downstream_handle on_upstream_closed a in
          (sent ++ check_backend_need_transition old_streams (total_h2_streams a), a)
      end
  end.

Definition handle_event (event : Event) (a : Http2Activator) : list Action * Http2Activator :=
  match event with
  | StreamOpen handle => ([], handle_stream_open handle a)
  | StreamData stream data => handle_stream_data stream data a
  | StreamClose handle => handle_stream_close handle a
  | BackendAvailable available => handle_backend_available available a
  | UpstreamConnectResult stream ok => handle_upstream_connect_result stream ok a
  | UpstreamData stream data => handle_upstream_data stream data a
  | UpstreamClosed handle => handle_upstream_close handle a
  | Tick | Packet _ => ([], a)
  end.
Fixpoint process_events (events : list Event) (a : Http2Activator) : list Action * Http2Activator :=
  match events with
  | [] => ([], a)
  | event :: events =>
      let '(actions, a) := handle_event event a in
      let '(actions', a) := process_events events a in
      (actions ++ actions', a)
  end.
#[export] Instance http2_activator : Activator Http2Activator :=
  {| on_events := λ events a, Some (process_events events a) |}.
End Core.

End Http2.
