(* ===== verification/Http2Inv.v ===== *)
(** * What the HTTP/2 activator guarantees

    Frames survive serialisation ([frame_roundtrip]); one connection relays the frames of
    client and backend ([http2_relays]); the count of open streams is exact, so that the
    need reported to the host is ([http2_need_tracked]). *)

From S2P Require Import Prelude Bytes SmTypes Flow Checksum Frame Processor TcpActivator Http2.

Module Http2Inv.
Import Bytes Processor Activators Http2.

(** ** Frames *)
Lemma be24 v :
  0 ≤ v < 2 ^ 24 →
  Z.lor (Z.lor (Z.shiftl (wrap 8 (Z.shiftr v 16)) 16) (Z.shiftl (wrap 8 (Z.shiftr v 8)) 8)) (wrap 8 v) = v.
Proof.
  intros Hv. unfold wrap. apply Z.bits_inj'. intros n Hn. rewrite !Z.lor_spec, !Z.shiftl_spec by lia.
  assert (Hhi : 24 ≤ n → Z.testbit v n = false).
  { intros. rewrite <- (Z.mod_small v (2 ^ 24)) by lia. apply Z.mod_pow2_bits_high. lia. }
  assert (Hb : ∀ x k, Z.testbit (x mod 2 ^ 8) k = if decide (0 ≤ k < 8) then Z.testbit x k else false).
  { intros x k. case_decide; [apply Z.mod_pow2_bits_low; lia|].
    destruct (decide (k < 0)); [by apply Z.testbit_neg_r|apply Z.mod_pow2_bits_high; lia]. }
  rewrite !Hb. repeat case_decide; try lia; rewrite ?Z.shiftr_spec, ?orb_false_r by lia; simpl;
    try (f_equal; lia). symmetry. apply Hhi. lia.
Qed.

Definition known_type (t : FrameType) : Prop := match t with Unknown v => 10 ≤ v < 256 | _ => True end.
Lemma from_to_u8 t : known_type t → from_u8 (to_u8 t) = t.
Proof.
  destruct t as [| | | | | | | | | |v]; try done. intros Hv. unfold from_u8. cbn [to_u8 known_type] in *.
  repeat (rewrite (proj2 (Z.eqb_neq v _)) by lia). done.
Qed.
Lemma land_31 v : 0 ≤ v < 2 ^ 31 → Z.land v 2147483647 = v.
Proof. intros Hv. change 2147483647 with (Z.ones 31). rewrite Z.land_ones by lia. by rewrite Z.mod_small. Qed.
Lemma high_byte v : 0 ≤ v < 2 ^ 31 → Z.land (wrap 8 (Z.shiftr v 24)) 127 = wrap 8 (Z.shiftr v 24).
Proof.
  intros Hv. change 127 with (Z.ones 7). rewrite Z.land_ones by lia. unfold wrap.
  rewrite Z.shiftr_div_pow2 by lia.
  assert (0 ≤ v / 2 ^ 24 < 2 ^ 7).
  { split; [apply Z.div_pos; lia|]. apply Z.div_lt_upper_bound; lia. }
  rewrite (Z.mod_small (v / 2 ^ 24) (2 ^ 8)) by lia. apply Z.mod_small. lia.
Qed.

(** Frames survive serialisation: parsing what [serialize_frame] wrote, followed by
    anything, gives back the type, the flags, the stream and the payload, and consumes
    exactly the frame, for payloads below 2^24 bytes and stream ids of 31 bits. *)
Theorem frame_roundtrip ty fl sid data rest :
  known_type ty → 0 ≤ sid < 2 ^ 31 → zlen data < 2 ^ 24 →
  parse_frame (serialize_frame ty fl sid data ++ rest) =
  Some ({| frame_type := ty; flags := fl; stream_id := sid; payload := data |},
        length (serialize_frame ty fl sid data)).
Proof.
  intros Ht Hs Hd. unfold serialize_frame, parse_frame, FRAME_HEADER_LEN.
  rewrite land_31 by done. cbn [app to_be32 length].
  assert (Hl : ∀ x, (S (S (S (S (S (S (S (S (S x)))))))) <? 9)%nat = false) by (intros; by apply Nat.ltb_ge; lia).
  rewrite Hl, length_app.
  cbn [lookup_total list_lookup_total].
  rewrite (be24 (zlen data)) by lia. rewrite Nat2Z.id.
  rewrite (proj2 (Nat.ltb_ge _ _)) by lia.
  rewrite from_to_u8, high_byte, be32_to_be32 by (done || lia).
  cbn [drop]. rewrite drop_0, take_app_length. done.
Qed.

Lemma frame_roundtrip_witness :
  parse_frame (serialize_frame (Unknown 20) 5 7 [1; 2; 3] ++ [9]) =
  Some ({| frame_type := Unknown 20; flags := 5; stream_id := 7; payload := [1; 2; 3] |}, 12%nat).
Proof. apply (frame_roundtrip (Unknown 20) 5 7 [1; 2; 3] [9]); simpl; lia. Defined.

Lemma parse_frame_bounds buf f n : parse_frame buf = Some (f, n) → (9 ≤ n ≤ length buf)%nat.
Proof.
  unfold parse_frame, FRAME_HEADER_LEN. intros H. repeat case_match; simplify_eq.
  apply Nat.ltb_ge in H1. lia.
Qed.
Lemma parse_frame_prefix buf f n :
  parse_frame buf = Some (f, n) → parse_frame (take n buf) = Some (f, length (take n buf)).
Proof.
  intros Hp. pose proof (parse_frame_bounds _ _ _ Hp) as Hb.
  assert (Hl : length (take n buf) = n) by (rewrite length_take; lia).
  assert (Hi : ∀ i, (i < 9)%nat → take n buf !!! i = buf !!! i).
  { intros i Hi. rewrite !list_lookup_total_alt, lookup_take by lia. by rewrite decide_True by lia. }
  revert Hp. unfold parse_frame, FRAME_HEADER_LEN in *. rewrite Hl.
  rewrite !Hi by lia. set (len := Z.to_nat _).
  destruct (length buf <? 9)%nat; [done|]. destruct (length buf <? 9 + len)%nat; [done|]. intros Hp. simplify_eq.
  rewrite (proj2 (Nat.ltb_ge (9 + len) 9)), (proj2 (Nat.ltb_ge (9 + len) (9 + len))) by lia.
  do 3 f_equal. rewrite <- take_drop_commute. by rewrite take_take, Nat.min_id.
Qed.

(** ** What client and backend see of each other *)
Definition ups (acts : list ConnAction) : list (list Z) :=
  omap (λ a, match a with ConnUpstreamSend data => Some data | _ => None end) acts.
Definition downs (acts : list ConnAction) : list (list Z) :=
  omap (λ a, match a with ConnDownstreamSend data => Some data | _ => None end) acts.
Lemma ups_app a b : ups (a ++ b) = ups a ++ ups b.
Proof. apply omap_app. Qed.
Lemma downs_app a b : downs (a ++ b) = downs a ++ downs b.
Proof. apply omap_app. Qed.

Definition one_frame (raw : list Z) (f : Frame) : Prop := parse_frame raw = Some (f, length raw).
Definition answered (f : Frame) : bool :=
  bool_decide (frame_type f = Settings) || bool_decide (frame_type f = Ping).
(** What the activator says in its own name *)
Definition control (x : list Z) : Prop :=
  x = CLIENT_PREFACE ++ our_settings ∨ x = our_settings ∨ x = build_settings_ack ∨
  (∃ opaque, length opaque = 8%nat ∧ x = build_ping_ack opaque) ∨
  ∃ sid len, x = build_window_update sid len.
(** [relayed client up backend down]: settings and pings apart, the frames of the client
    went to the backend and those of the backend to the client, complete and in order;
    all other messages are the activator's own. *)
Inductive relayed : list Z → list (list Z) → list Z → list (list Z) → Prop :=
  | relayed_nil : relayed [] [] [] []
  | relayed_up raw f c u b d :
      one_frame raw f → answered f = false → relayed c u b d → relayed (c ++ raw) (u ++ [raw]) b d
  | relayed_down raw f c u b d :
      one_frame raw f → answered f = false → relayed c u b d → relayed c u (b ++ raw) (d ++ [raw])
  | relayed_client_answered raw f c u b d :
      one_frame raw f → answered f = true → relayed c u b d → relayed (c ++ raw) u b d
  | relayed_backend_answered raw f c u b d :
      one_frame raw f → answered f = true → relayed c u b d → relayed c u (b ++ raw) d
  | relayed_own_up x c u1 u2 b d :
      control x → relayed c (u1 ++ u2) b d → relayed c (u1 ++ x :: u2) b d
  | relayed_own_down x c u b d :
      control x → relayed c u b d → relayed c u b (d ++ [x]).

Lemma relayed_own_ups xs c u1 u2 b d :
  Forall control xs → relayed c (u1 ++ u2) b d → relayed c (u1 ++ xs ++ u2) b d.
Proof. intros Hx H. induction Hx as [|x xs Hx _ IH]; [done|]. by apply relayed_own_up. Qed.
Lemma relayed_own_downs xs c u b d : Forall control xs → relayed c u b d → relayed c u b (d ++ xs).
Proof.
  intros Hx H. induction xs as [|x xs IH] using rev_ind; [by rewrite app_nil_r|].
  apply Forall_app in Hx as [Hx Hx']. rewrite Forall_singleton in Hx'. rewrite (assoc_L (++)).
  apply relayed_own_down; auto.
Qed.

Definition extends (used : list Z) (u : list (list Z)) (b : list Z) (d : list (list Z))
    (c c' : Connection) : Prop :=
  ∀ C U B D, relayed C (U ++ buffered_frames c) B D →
    relayed (C ++ used) (U ++ u ++ buffered_frames c') (B ++ b) (D ++ d).
Lemma up_extends_trans used1 u1 b1 d1 used2 u2 b2 d2 c c1 c2 :
  extends used1 u1 b1 d1 c c1 → extends used2 u2 b2 d2 c1 c2 →
  extends (used1 ++ used2) (u1 ++ u2) (b1 ++ b2) (d1 ++ d2) c c2.
Proof.
  intros H1 H2 C U B D H. specialize (H1 _ _ _ _ H). rewrite (assoc_L (++)) in H1.
  specialize (H2 _ _ _ _ H1). by rewrite <- !(assoc_L (++)) in *.
Qed.
Lemma up_extends_refl c c' : buffered_frames c' = buffered_frames c → extends [] [] [] [] c c'.
Proof. intros E C U B D. rewrite !app_nil_r. simpl. by rewrite E. Qed.

(** Frames are kept only while there is no backend. *)
Definition ready_ok (c : Connection) : Prop := upstream_state c = Ready → buffered_frames c = [].
(** What the handling of one frame changes *)
Definition frame_ok (used b : list Z) (c : Connection) (r : list ConnAction * Connection) : Prop :=
  extends used (ups r.1) b (downs r.1) c r.2 ∧ ready_ok r.2 ∧
  recv_buf r.2 = recv_buf c ∧ upstream_recv_buf r.2 = upstream_recv_buf c ∧
  (phase r.2 = Closing ∨ (phase r.2 = AwaitingPreface ↔ phase c = AwaitingPreface)) ∧
  (phase c = Closing → phase r.2 = Closing).

(** Streams are counted beside what is relayed. *)
Definition only_streams (c c' : Connection) : Prop :=
  phase c' = phase c ∧ upstream_state c' = upstream_state c ∧ recv_buf c' = recv_buf c ∧
  upstream_recv_buf c' = upstream_recv_buf c ∧ buffered_frames c' = buffered_frames c.
Definition bookkeeping (c : Connection) (r : list ConnAction * Connection) : Prop :=
  ups r.1 = [] ∧ downs r.1 = [] ∧ only_streams c r.2.
Lemma end_stream_only set f c :
  (∀ id c, only_streams c (set id c)) → bookkeeping c (end_stream set f c).
Proof.
  intros Hset. unfold end_stream, bookkeeping. destruct (negb _); [|done]. unfold check_stream_closed.
  specialize (Hset (stream_id f) c). destruct (existsb _ _); simpl; split_and!; try done.
Qed.
Lemma set_client_only id c : only_streams c (set_client_end_stream id c).
Proof. done. Qed.
Lemma set_backend_only id c : only_streams c (set_backend_end_stream id c).
Proof. done. Qed.
Lemma reset_stream_only id c : bookkeeping c (reset_stream id c).
Proof. unfold reset_stream, bookkeeping. by destruct (has_stream id c). Qed.

(** Bookkeeping before a frame is handled does not matter. *)
Lemma frame_ok_after used b c acts c1 r :
  bookkeeping c (acts, c1) → frame_ok used b c1 r → frame_ok used b c (acts ++ r.1, r.2).
Proof.
  intros (Hu & Hd & Hp & _ & Hr & Hur & Hb) (He & Hro & Hr' & Hur' & Hph & Hcl). simpl in *.
  unfold frame_ok, extends. simpl. rewrite ups_app, downs_app, Hu, Hd. simpl. rewrite <- Hb.
  split_and!; try done; try congruence; by rewrite <- Hp.
Qed.
Lemma ready_ok_only c c' : only_streams c c' → ready_ok c → ready_ok c'.
Proof. intros (_ & Hu & _ & _ & Hb) Hr. unfold ready_ok. rewrite Hu, Hb. done. Qed.

Lemma buffer_or_forward_ok raw f c :
  ready_ok c → one_frame raw f → answered f = false → frame_ok raw [] c (buffer_or_forward raw c).
Proof.
  intros Hr Hf Ha. unfold buffer_or_forward, frame_ok. case_bool_decide as E; simpl; split_and!; try done; auto.
  - intros C U B D H. rewrite (Hr E), app_nil_r in *. rewrite !app_nil_r. by eapply relayed_up.
  - intros C U B D H. rewrite !app_nil_r. cbn. rewrite (assoc_L (++)). by eapply relayed_up.
  - intros Hrd. by destruct E.
Qed.
Lemma forward_down_ok raw f c :
  ready_ok c → one_frame raw f → answered f = false →
  frame_ok [] raw c ([ConnDownstreamSend raw], c).
Proof.
  intros Hr Hf Ha. unfold frame_ok. simpl. split_and!; try done; auto.
  intros C U B D H. rewrite !app_nil_r. by eapply relayed_down.
Qed.

Lemma window_updates_control f : Forall control (window_updates f).
Proof.
  assert (Hw : ∀ sid len, control (build_window_update sid len)) by (intros; do 4 right; by eexists _, _).
  unfold window_updates. repeat case_match; repeat (apply Forall_cons_2; [apply Hw|]); apply Forall_nil_2.
Qed.
Lemma ups_down xs : ups (ConnDownstreamSend <$> xs) = [] ∧ downs (ConnDownstreamSend <$> xs) = xs.
Proof.
  induction xs as [|x xs [IH1 IH2]]; [done|]. split; [exact IH1|].
  change (x :: downs (ConnDownstreamSend <$> xs) = x :: xs). by rewrite IH2.
Qed.
Lemma ups_up xs : ups (ConnUpstreamSend <$> xs) = xs ∧ downs (ConnUpstreamSend <$> xs) = [].
Proof.
  induction xs as [|x xs [IH1 IH2]]; [done|]. split; [|exact IH2].
  change (x :: ups (ConnUpstreamSend <$> xs) = x :: xs). by rewrite IH1.
Qed.
Lemma opaque_length p : length (opaque_of p) = 8%nat.
Proof.
  unfold opaque_of. destruct (8 <=? length p)%nat eqn:E; [|done]. apply Nat.leb_le in E.
  rewrite length_take. lia.
Qed.

(** Our own messages before a frame is handled *)
Lemma frame_ok_own_down used b c xs r :
  Forall control xs → frame_ok used b c r → frame_ok used b c ((ConnDownstreamSend <$> xs) ++ r.1, r.2).
Proof.
  intros Hx (He & H). split; [|exact H]. simpl. rewrite ups_app, downs_app.
  destruct (ups_down xs) as [-> ->]. intros C U B D Hrel. rewrite (assoc_L (++) D). apply He.
  by apply relayed_own_downs.
Qed.
Lemma frame_ok_own_up used b c xs r :
  Forall control xs → frame_ok used b c r → frame_ok used b c ((ConnUpstreamSend <$> xs) ++ r.1, r.2).
Proof.
  intros Hx (He & H). split; [|exact H]. simpl. rewrite ups_app, downs_app.
  destruct (ups_up xs) as [-> ->]. intros C U B D Hrel. rewrite <- (assoc_L (++)), (assoc_L (++) U).
  apply He. rewrite <- (assoc_L (++)). by apply relayed_own_ups.
Qed.

(** A frame of the client or of the backend that the activator answers *)
Lemma client_answered_ok raw f c c' :
  ready_ok c' → one_frame raw f → answered f = true → buffered_frames c' = buffered_frames c →
  recv_buf c' = recv_buf c → upstream_recv_buf c' = upstream_recv_buf c →
  (phase c' = AwaitingPreface ↔ phase c = AwaitingPreface) → (phase c = Closing → phase c' = Closing) →
  frame_ok raw [] c ([], c').
Proof.
  intros Hr Hf Ha Hb H1 H2 H3 H4. split; [|by split_and!; auto].
  intros C U B D H. simpl. rewrite Hb, !app_nil_r. by eapply relayed_client_answered.
Qed.
Lemma backend_answered_ok raw f c :
  ready_ok c → one_frame raw f → answered f = true → frame_ok [] raw c ([], c).
Proof.
  intros Hr Hf Ha. split; [|by split_and!; auto]. intros C U B D H. rewrite !app_nil_r. simpl.
  by eapply relayed_backend_answered.
Qed.
Lemma control_ack : Forall control [build_settings_ack].
Proof. apply Forall_singleton. by do 2 right; left. Qed.
Lemma control_ping p : Forall control [build_ping_ack (opaque_of p)].
Proof. apply Forall_singleton. do 3 right. left. exists (opaque_of p). split; [apply opaque_length|done]. Qed.

(** A frame is passed on after the streams were counted. *)
Lemma client_passed_ok raw f c acts c1 :
  ready_ok c → one_frame raw f → answered f = false → bookkeeping c (acts, c1) →
  frame_ok raw [] c (acts ++ (buffer_or_forward raw c1).1, (buffer_or_forward raw c1).2).
Proof.
  intros Hr Hf Ha Hb. eapply frame_ok_after; [exact Hb|]. apply buffer_or_forward_ok with f; [|done..].
  destruct Hb as (_ & _ & Hb). by eapply ready_ok_only.
Qed.
Lemma backend_passed_ok raw f c acts c1 :
  ready_ok c → one_frame raw f → answered f = false → bookkeeping c (acts, c1) →
  frame_ok [] raw c (acts ++ [ConnDownstreamSend raw], c1).
Proof.
  intros Hr Hf Ha Hb. apply (frame_ok_after _ _ _ _ _ (_, _)) with (1 := Hb). apply forward_down_ok with f; [|done..].
  destruct Hb as (_ & _ & Hb). by eapply ready_ok_only.
Qed.

Lemma bookkeeping_trans c acts1 c1 acts2 c2 :
  bookkeeping c (acts1, c1) → bookkeeping c1 (acts2, c2) → bookkeeping c (acts1 ++ acts2, c2).
Proof.
  intros (Hu1 & Hd1 & H1) (Hu2 & Hd2 & H2). unfold bookkeeping, only_streams in *. simpl in *.
  rewrite ups_app, downs_app, Hu1, Hd1, Hu2, Hd2. split_and!; try done; intuition congruence.
Qed.
Lemma closing_ok raw f c :
  ready_ok c → one_frame raw f → answered f = false →
  frame_ok raw [] c (buffer_or_forward raw {| c with phase := Closing |}).
Proof.
  intros Hr Hf Ha. destruct (buffer_or_forward_ok raw f {| c with phase := Closing |})
    as (He & Hro & H1 & H2 & H3 & H4); [exact Hr|done|done|].
  split; [exact He|]. split_and!; try done; [by left; apply H4|intros _; by apply H4].
Qed.

Lemma client_frame_ok raw f c :
  ready_ok c → one_frame raw f → frame_ok raw [] c (handle_client_frame f raw c).
Proof.
  intros Hr Hf. unfold handle_client_frame.
  assert (Hans : answered f = bool_decide (frame_type f = Settings) || bool_decide (frame_type f = Ping)) by done.
  assert (Hpass : answered f = false → frame_ok raw [] c (buffer_or_forward raw c)).
  { intros Ha. by apply buffer_or_forward_ok with f. }
  pose proof (end_stream_only set_client_end_stream f c set_client_only) as Hend.
  destruct (frame_type f) eqn:Et; simpl in Hans; try (by apply Hpass).
  - destruct (end_stream _ f c) as [ended c1]. pose proof (client_passed_ok raw f c ended c1 Hr Hf Hans Hend) as H.
    destruct (buffer_or_forward raw c1) as [sent c2].
    by apply (frame_ok_own_down _ _ _ _ (ended ++ sent, c2) (window_updates_control f)).
  - clear Hend. match goal with |- context [let '(_, _) := ?x in _] => assert (Ho : bookkeeping c x) end.
    { destruct (_ && _); [|done]. destruct (_ <? _); done. }
    match type of Ho with bookkeeping _ ?x => destruct x as [opened c0] end.
    pose proof (end_stream_only set_client_end_stream f c0 set_client_only) as Hend.
    destruct (end_stream _ f c0) as [ended c1].
    pose proof (client_passed_ok raw f c _ c1 Hr Hf Hans (bookkeeping_trans _ _ _ _ _ Ho Hend)) as H.
    destruct (buffer_or_forward raw c1) as [sent c2]. by rewrite (assoc_L (++)).
  - pose proof (reset_stream_only (stream_id f) c) as Hres. destruct (reset_stream _ c) as [ended c1].
    pose proof (client_passed_ok raw f c ended c1 Hr Hf Hans Hres) as H.
    by destruct (buffer_or_forward raw c1) as [sent c2].
  - destruct (negb _).
    + eapply client_answered_ok; try done; unfold check_handshake_complete; destruct (_ && _) eqn:E; try done;
        apply andb_true_iff in E as [_ E]; apply bool_decide_eq_true in E; simpl in *; rewrite E; done.
    + apply (frame_ok_own_down _ _ _ [build_settings_ack] ([], c) control_ack). by eapply client_answered_ok.
  - destruct (negb _); [by eapply client_answered_ok|].
    apply (frame_ok_own_down _ _ _ [_] ([], c) (control_ping _)). by eapply client_answered_ok.
  - by apply closing_ok with f.
Qed.

Lemma upstream_ready_ok c : ready_ok c →
  let r := upstream_ready c in
  downs r.1 = [] ∧ ready_ok r.2 ∧ ups r.1 ++ buffered_frames r.2 = buffered_frames c ∧
  phase r.2 = phase c ∧ recv_buf r.2 = recv_buf c ∧ upstream_recv_buf r.2 = upstream_recv_buf c.
Proof.
  intros Hr. unfold upstream_ready. case_bool_decide as E; simpl; [|done].
  destruct (ups_up (buffered_frames c)) as [-> ->]. by rewrite app_nil_r.
Qed.

Lemma upstream_frame_ok raw f c :
  ready_ok c → one_frame raw f → frame_ok [] raw c (handle_upstream_frame f raw c).
Proof.
  intros Hr Hf. unfold handle_upstream_frame.
  assert (Hans : answered f = bool_decide (frame_type f = Settings) || bool_decide (frame_type f = Ping)) by done.
  assert (Hpass : answered f = false → frame_ok [] raw c ([ConnDownstreamSend raw], c)).
  { intros Ha. by apply forward_down_ok with f. }
  pose proof (end_stream_only set_backend_end_stream f c set_backend_only) as Hend.
  destruct (frame_type f) eqn:Et; simpl in Hans; try (by apply Hpass).
  - destruct (end_stream _ f c) as [ended c1].
    apply (frame_ok_own_up _ _ _ _ (ended ++ [ConnDownstreamSend raw], c1) (window_updates_control f)).
    by apply backend_passed_ok with f.
  - destruct (end_stream _ f c) as [ended c1]. by apply backend_passed_ok with f.
  - pose proof (reset_stream_only (stream_id f) c) as Hres. destruct (reset_stream _ c) as [ended c1].
    by apply backend_passed_ok with f.
  - assert (Hready : ∀ c0, ready_ok c0 → buffered_frames c0 = buffered_frames c → phase c0 = phase c →
      recv_buf c0 = recv_buf c → upstream_recv_buf c0 = upstream_recv_buf c →
      frame_ok [] raw c (upstream_ready c0)).
    { intros c0 H0 Hb Hp H1 H2. destruct (upstream_ready_ok c0 H0) as (Hd & Hro & Hu & Hp' & H1' & H2').
      split; [|split_and!; [done|congruence|congruence|right; by rewrite Hp', Hp|by rewrite Hp', Hp]].
      intros C U B D H. rewrite Hd, Hu, Hb, !app_nil_r. by eapply relayed_backend_answered. }
    destruct (negb _); [by apply Hready|].
    pose proof (Hready c Hr eq_refl eq_refl eq_refl eq_refl) as H. destruct (upstream_ready c) as [flushed c1].
    by apply (frame_ok_own_up _ _ _ [_] (flushed, c1) control_ack).
  - destruct (negb _); [by eapply backend_answered_ok|].
    apply (frame_ok_own_up _ _ _ [_] ([], c) (control_ping _)). by eapply backend_answered_ok.
  - destruct (Hpass Hans) as (He & Hro & H). split; [exact He|]. split_and!; try done. by left.
Qed.

(** ** The loops *)
(** What a loop over the frames of a buffer guarantees *)
Definition loop_ok (used b : list Z) (c : Connection) (acts0 : list ConnAction)
    (r : list ConnAction * Connection) : Prop :=
  ∃ acts, r.1 = acts0 ++ acts ∧ extends used (ups acts) b (downs acts) c r.2 ∧ ready_ok r.2.
Lemma loop_ok_step used1 b1 used b c c1 acts0 acts1 r :
  extends used1 (ups acts1) b1 (downs acts1) c c1 → loop_ok used b c1 (acts0 ++ acts1) r →
  loop_ok (used1 ++ used) (b1 ++ b) c acts0 r.
Proof.
  intros H1 (acts & E & H2 & Hr). exists (acts1 ++ acts). rewrite E, (assoc_L (++)). split; [done|].
  split; [|done]. rewrite ups_app, downs_app. by apply up_extends_trans with c1.
Qed.

Lemma closing_client_frames fuel c acts0 :
  phase c = Closing →
  let r := client_frames fuel c acts0 in phase r.2 = Closing ∧ upstream_recv_buf r.2 = upstream_recv_buf c.
Proof.
  revert c acts0. induction fuel as [|fuel IH]; intros c acts0 Hc; [done|]. simpl.
  destruct (parse_frame _) as [[f n]|]; [|done]. rewrite bool_decide_eq_true_2 by done. by apply (IH {| c with recv_buf := drop n (recv_buf c) |}).
Qed.

Lemma client_frames_ok fuel c acts0 :
  (length (recv_buf c) < fuel)%nat → ready_ok c → phase c ≠ AwaitingPreface →
  let r := client_frames fuel c acts0 in
  upstream_recv_buf r.2 = upstream_recv_buf c ∧ phase r.2 ≠ AwaitingPreface ∧
  parse_frame (recv_buf r.2) = None ∧
  (phase r.2 ≠ Closing → ∃ used, recv_buf c = used ++ recv_buf r.2 ∧ loop_ok used [] c acts0 r).
Proof.
  revert c acts0. induction fuel as [|fuel IH]; intros c acts0 Hl Hr Hp; [lia|]. cbn [client_frames].
  destruct (parse_frame (recv_buf c)) as [[f n]|] eqn:Ep.
  2: { simpl. split_and!; [done..|]. intros _. exists []. split; [done|]. exists []. rewrite app_nil_r.
       split_and!; [done|by apply up_extends_refl|done]. }
  pose proof (parse_frame_bounds _ _ _ Ep) as Hb.
  set (c1 := {| c with recv_buf := drop n (recv_buf c) |}).
  assert (Hl1 : (length (recv_buf c1) < fuel)%nat) by (simpl; rewrite length_drop; lia).
  case_bool_decide as Ec.
  - specialize (IH c1 acts0 Hl1 Hr Hp). destruct (closing_client_frames fuel c1 acts0 Ec) as [Hcl _].
    destruct IH as (H1 & H2 & H3 & _). split_and!; [done..|]. intros Hn. by rewrite Hcl in Hn.
  - destruct (client_frame_ok (take n (recv_buf c)) f c1 Hr (parse_frame_prefix _ _ _ Ep))
      as (He & Hro & H1 & H2 & H3 & H4).
    destruct (handle_client_frame f _ c1) as [acts c2]. simpl in *.
    assert (Hp2 : phase c2 ≠ AwaitingPreface) by (destruct H3 as [-> | ->]; done).
    destruct (IH c2 (acts0 ++ acts)) as (I1 & I2 & I3 & I4); [by rewrite H1|done|done|].
    split_and!; [by rewrite I1, H2|done|done|]. intros Hn. destruct (I4 Hn) as (used & Hu & Hk).
    exists (take n (recv_buf c) ++ used). split.
    + rewrite <- (assoc_L (++)), <- Hu, H1. by rewrite take_drop.
    + by apply (loop_ok_step _ [] _ [] _ c2 _ acts).
Qed.

Lemma upstream_frames_ok fuel c acts0 :
  (length (upstream_recv_buf c) < fuel)%nat → ready_ok c →
  let r := upstream_frames fuel c acts0 in
  recv_buf r.2 = recv_buf c ∧ parse_frame (upstream_recv_buf r.2) = None ∧
  (phase r.2 = Closing ∨ (phase r.2 = AwaitingPreface ↔ phase c = AwaitingPreface)) ∧
  (phase c = Closing → phase r.2 = Closing) ∧
  ∃ b, upstream_recv_buf c = b ++ upstream_recv_buf r.2 ∧ loop_ok [] b c acts0 r.
Proof.
  revert c acts0. induction fuel as [|fuel IH]; intros c acts0 Hl Hr; [lia|]. cbn [upstream_frames].
  destruct (parse_frame (upstream_recv_buf c)) as [[f n]|] eqn:Ep.
  2: { simpl. split_and!; [done..|by right|done|]. exists []. split; [done|]. exists []. rewrite app_nil_r.
       split_and!; [done|by apply up_extends_refl|done]. }
  pose proof (parse_frame_bounds _ _ _ Ep) as Hb.
  set (c1 := {| c with upstream_recv_buf := drop n (upstream_recv_buf c) |}).
  assert (Hl1 : (length (upstream_recv_buf c1) < fuel)%nat) by (simpl; rewrite length_drop; lia).
  destruct (upstream_frame_ok (take n (upstream_recv_buf c)) f c1 Hr (parse_frame_prefix _ _ _ Ep))
    as (He & Hro & H1 & H2 & H3 & H4).
  destruct (handle_upstream_frame f _ c1) as [acts c2]. simpl in *.
  destruct (IH c2 (acts0 ++ acts)) as (I1 & I2 & I3 & I4 & b & Hu & Hk); [by rewrite H2|done|].
  split_and!; [congruence|done| |auto|].
  - destruct H3 as [H3|H3]; [left; auto|]. destruct I3 as [I3|I3]; [by left|right]. by rewrite I3.
  - exists (take n (upstream_recv_buf c) ++ b). split.
    + rewrite <- (assoc_L (++)), <- Hu, H2. by rewrite take_drop.
    + by apply (loop_ok_step [] _ [] _ _ c2 _ acts).
Qed.

(** ** Runs of one connection *)
Inductive ConnOp :=
  | ClientData (data : list Z) | UpConnecting | UpConnected | UpData (data : list Z) | UpClosed | UpFailed_.
Definition conn_step (op : ConnOp) (c : Connection) : list ConnAction * Connection :=
  match op with
  | ClientData data => on_client_data data c
  | UpConnecting => ([], {| c with upstream_state := Connecting |})
  | UpConnected => on_upstream_connected c
  | UpData data => on_upstream_data data c
  | UpClosed => on_upstream_closed c
  | UpFailed_ => on_upstream_failed c
  end.
Fixpoint run (ops : list ConnOp) (c : Connection) : list ConnAction * Connection :=
  match ops with
  | [] => ([], c)
  | op :: ops =>
      let '(acts, c) := conn_step op c in
      let '(acts', c) := run ops c in
      (acts ++ acts', c)
  end.
Definition step_client (op : ConnOp) : list Z := match op with ClientData data => data | _ => [] end.
Definition step_backend (op : ConnOp) : list Z := match op with UpData data => data | _ => [] end.
Definition client_bytes (ops : list ConnOp) : list Z := ops ≫= step_client.
Definition backend_bytes (ops : list ConnOp) : list Z := ops ≫= step_backend.

(** The bytes of the client so far that are not a whole frame yet, and those before them;
    the preface is not a frame. *)
Definition client_split (c : Connection) (used bytes : list Z) : Prop :=
  if bool_decide (phase c = AwaitingPreface)
  then used = [] ∧ bytes = recv_buf c ∧ zlen bytes < 24
  else bytes = CLIENT_PREFACE ++ used ++ recv_buf c ∧ parse_frame (recv_buf c) = None.

Record relays (c : Connection) (acts : list ConnAction) (client backend : list Z) (used b : list Z) : Prop := {
  rl_client : client_split c used client;
  rl_backend : backend = b ++ upstream_recv_buf c;
  rl_settled : parse_frame (upstream_recv_buf c) = None;
  rl_ready : ready_ok c;
  rl_relayed : relayed used (ups acts ++ buffered_frames c) b (downs acts);
}.

Lemma relays_extend c acts client backend used b used' u b' d c' acts' data data' :
  relays c acts client backend used b →
  extends used' u b' d c c' → ups acts' = u → downs acts' = d → ready_ok c' →
  client_split c' (used ++ used') (client ++ data) → backend ++ data' = (b ++ b') ++ upstream_recv_buf c' →
  parse_frame (upstream_recv_buf c') = None →
  relays c' (acts ++ acts') (client ++ data) (backend ++ data') (used ++ used') (b ++ b').
Proof.
  intros [_ _ _ _ H5] He Hu Hd Hr Hc Hb Hs. split; try done.
  rewrite ups_app, downs_app, Hu, Hd, <- (assoc_L (++)). by apply He.
Qed.

Lemma relays_client data c acts client backend used b :
  relays c acts client backend used b → phase c ≠ Closing →
  ∀ r, on_client_data data c = r → phase r.2 ≠ Closing → ∃ used' b', relays r.2 (acts ++ r.1) (client ++ data) (backend ++ []) used' b'.
Proof.
  intros H Hc. pose proof H as [Hcl Hb Hs Hr Hrel]. intros r Er. unfold on_client_data in Er.
  cbn [phase recv_buf] in Er.
  unfold client_split in Hcl. destruct (decide (phase c = AwaitingPreface)) as [Ep|Ep];
    [rewrite !bool_decide_eq_true_2 in Er, Hcl by done|rewrite !bool_decide_eq_false_2 in Er, Hcl by done].
  - destruct Hcl as (-> & -> & Hl). destruct (_ <? _)%nat eqn:El.
    + subst r. intros _. exists ([] ++ []), (b ++ []). eapply relays_extend; [exact H|by apply up_extends_refl|done..| | |done].
      * unfold client_split. cbn. rewrite bool_decide_eq_true_2 by done. split_and!; [done..|].
        apply Nat.ltb_lt in El. cbn in El. lia.
      * by rewrite Hb, !app_nil_r.
    + destruct (negb _) eqn:Ev; [by subst r|]. apply negb_false_iff, bool_decide_eq_true in Ev.
      apply Nat.ltb_ge in El. cbn [phase recv_buf] in *.
      set (c1 := {| c with recv_buf := drop (length CLIENT_PREFACE) (recv_buf c ++ data); phase := Handshaking |}).
      change (client_frames (S (length (recv_buf c1))) c1 [ConnDownstreamSend our_settings] = r) in Er. subst r.
      destruct (client_frames_ok (S (length (recv_buf c1))) c1 [ConnDownstreamSend our_settings])
        as (H1 & H2 & H3 & H4); [lia|done|done|].
      intros Hn. destruct (H4 Hn) as (used & Hu & acts' & -> & He & Hro).
      exists ([] ++ used), (b ++ []). eapply relays_extend; [exact H| |reflexivity|reflexivity|done| | |].
      * intros C U B D HR. rewrite ups_app, downs_app. cbn [ups downs omap list_omap app].
        rewrite cons_middle, (assoc_L (++) D). apply He. apply relayed_own_down; [by right; left|done].
      * unfold client_split. rewrite bool_decide_eq_false_2 by done. split; [|done].
        cbn [app]. rewrite <- Hu. cbn [recv_buf c1]. rewrite <- Ev at 1. by rewrite take_drop.
      * by rewrite Hb, !app_nil_r, H1.
      * by rewrite H1.
  - set (c1 := {| c with recv_buf := recv_buf c ++ data |}).
    change (client_frames (S (length (recv_buf c1))) c1 [] = r) in Er. subst r. destruct Hcl as [Hcl _].
    destruct (client_frames_ok (S (length (recv_buf c1))) c1 []) as (H1 & H2 & H3 & H4); [lia|done|done|].
    intros Hn. destruct (H4 Hn) as (used' & Hu & acts' & E & He & Hro). cbn [app] in E. rewrite E.
    exists (used ++ used'), (b ++ []). eapply relays_extend; [exact H|exact He|done|done|done| | |].
    + unfold client_split. rewrite bool_decide_eq_false_2 by done. split; [|done].
      rewrite Hcl, <- !(assoc_L (++)), <- Hu. done.
    + by rewrite Hb, !app_nil_r, H1.
    + by rewrite H1.
Qed.

Lemma relays_backend data c acts client backend used b :
  relays c acts client backend used b → phase c ≠ Closing →
  ∀ r, on_upstream_data data c = r → phase r.2 ≠ Closing → ∃ used' b', relays r.2 (acts ++ r.1) (client ++ []) (backend ++ data) used' b'.
Proof.
  intros H Hc. pose proof H as [Hcl Hb Hs Hr Hrel]. intros r Er.
  set (c1 := {| c with upstream_recv_buf := upstream_recv_buf c ++ data |}).
  change (upstream_frames (S (length (upstream_recv_buf c1))) c1 [] = r) in Er. subst r.
  destruct (upstream_frames_ok (S (length (upstream_recv_buf c1))) c1 [])
    as (H1 & H2 & H3 & H4 & b' & Hu & acts' & E & He & Hro); [lia|done|].
  cbn [app] in E. rewrite E. intros Hn. destruct H3 as [H3|H3]; [done|].
  exists (used ++ []), (b ++ b'). eapply relays_extend; [exact H|exact He|done|done|done| | |done].
  - unfold client_split in *. rewrite (bool_decide_ext _ _ H3), H1, !app_nil_r. exact Hcl.
  - rewrite Hb, <- !(assoc_L (++)), <- Hu. done.
Qed.

Lemma conn_step_closing op c : phase c = Closing → phase (conn_step op c).2 = Closing.
Proof.
  intros Hc. destruct op as [data| | |data| |]; cbn [conn_step]; try done.
  - unfold on_client_data. cbn [phase recv_buf]. rewrite Hc, bool_decide_eq_false_2 by done.
    by destruct (closing_client_frames (S (length (recv_buf c ++ data)))
      {| c with phase := Closing; recv_buf := recv_buf c ++ data |} []).
  - (* only the loop over the frames matters *)
    assert (Hf : ∀ fuel c acts0, phase c = Closing → phase (upstream_frames fuel c acts0).2 = Closing).
    { clear c Hc. induction fuel as [|fuel IH]; intros c acts0 Hc; [done|]. cbn [upstream_frames].
      destruct (parse_frame _) as [[f n]|]; [|done].
      set (c1 := {| c with upstream_recv_buf := _ |}).
      assert (Hp : phase (handle_upstream_frame f (take n (upstream_recv_buf c)) c1).2 = Closing).
      { unfold handle_upstream_frame, end_stream, reset_stream, check_stream_closed, upstream_ready, flush_buffered.
        repeat case_match; simplify_eq/=; done. }
      destruct (handle_upstream_frame _ _ _) as [acts c2]. by apply IH. }
    by apply Hf.
  - unfold on_upstream_closed. cbn [phase]. rewrite Hc. by rewrite bool_decide_eq_true_2.
Qed.

Lemma relays_step op c acts client backend used b :
  relays c acts client backend used b → phase c ≠ Closing →
  phase (conn_step op c).2 ≠ Closing →
  ∃ used' b', relays (conn_step op c).2 (acts ++ (conn_step op c).1)
                (client ++ step_client op) (backend ++ step_backend op) used' b'.
Proof.
  intros H Hc. pose proof H as [Hcl Hb Hs Hr Hrel].
  assert (Hquiet : ∀ c' acts', only_streams {| c with upstream_state := upstream_state c' |} c' →
    upstream_state c' ≠ Ready → downs acts' = [] → Forall control (ups acts') →
    ∃ used' b', relays c' (acts ++ acts') (client ++ []) (backend ++ []) used' b').
  { intros c' acts' (Hp & _ & H1 & H2 & H3) Hnr Hd Hu. cbn in *. exists (used ++ []), (b ++ []).
    eapply relays_extend; [exact H| |reflexivity|exact Hd|by intros ?| | |by rewrite H2].
    - intros C U B D HR. rewrite !app_nil_r, H3. by apply relayed_own_ups.
    - unfold client_split in *. by rewrite Hp, H1, !app_nil_r.
    - by rewrite Hb, !app_nil_r, H2. }
  destruct op as [data| | |data| |]; cbn [conn_step step_client step_backend].
  - by eapply relays_client.
  - intros _. by apply Hquiet.
  - intros _. apply Hquiet; try done. apply Forall_singleton. by left.
  - by eapply relays_backend.
  - unfold on_upstream_closed. cbn [phase]. by case_bool_decide.
  - done.
Qed.

Lemma relays_run ops c acts client backend used b :
  relays c acts client backend used b →
  phase (run ops c).2 ≠ Closing →
  ∃ used' b', relays (run ops c).2 (acts ++ (run ops c).1)
                (client ++ client_bytes ops) (backend ++ backend_bytes ops) used' b'.
Proof.
  assert (Hcl : ∀ ops c, phase c = Closing → phase (run ops c).2 = Closing).
  { clear. induction ops as [|op ops IH]; intros c Hc; [done|]. cbn [run].
    pose proof (conn_step_closing op c Hc) as H1. destruct (conn_step op c) as [acts c1].
    specialize (IH c1 H1). by destruct (run ops c1). }
  revert c acts client backend used b.
  induction ops as [|op ops IH]; intros c acts client backend used b H Hn.
  - exists used, b. cbn. by rewrite !app_nil_r.
  - cbn [run] in *. destruct (decide (phase c = Closing)) as [Hc|Hc].
    { destruct Hn. apply (Hcl (op :: ops) c Hc). }
    destruct (decide (phase (conn_step op c).2 = Closing)) as [Hc1|Hc1].
    { destruct Hn. pose proof (Hcl ops _ Hc1) as H2. destruct (conn_step op c) as [a1 c1]. simpl in *.
      by destruct (run ops c1). }
    destruct (relays_step op c acts client backend used b H Hc Hc1) as (used1 & b1 & H1).
    destruct (conn_step op c) as [a1 c1]. simpl in H1.
    destruct (run ops c1) as [a2 c2] eqn:E2. simpl in Hn.
    destruct (IH c1 _ _ _ _ _ H1) as (used2 & b2 & H2); [by rewrite E2|].
    rewrite E2, <- !(assoc_L (++)) in H2. by exists used2, b2.
Qed.


(** ** The count of open streams *)
(** The count that the actions of a connection lead to; it never falls below zero. *)
Fixpoint walk (k : Z) (acts : list ConnAction) : option Z :=
  match acts with
  | [] => Some k
  | StreamOpened :: acts => walk (k + 1) acts
  | StreamClosed :: acts => if 0 <? k then walk (k - 1) acts else None
  | _ :: acts => walk k acts
  end.
Lemma walk_app k a b : walk k (a ++ b) = walk k a ≫= λ k, walk k b.
Proof.
  revert k. induction a as [|x a IH]; intros k; [done|]. destruct x; simpl; try apply IH.
  destruct (0 <? k); [apply IH|done].
Qed.
Definition distinct (c : Connection) : Prop := NoDup (streams c).*1.
Definition counted (c : Connection) (r : list ConnAction * Connection) : Prop :=
  distinct r.2 ∧ walk (stream_count c) r.1 = Some (stream_count r.2).
Lemma counted_trans c acts1 c1 acts2 c2 :
  counted c (acts1, c1) → counted c1 (acts2, c2) → counted c (acts1 ++ acts2, c2).
Proof. intros [_ H1] [Hd H2]. split; [done|]. simpl in *. by rewrite walk_app, H1. Qed.
Lemma counted_same c c' acts :
  distinct c → streams c' = streams c → (∀ k, walk k acts = Some k) → counted c (acts, c').
Proof. intros Hd Hs Hw. unfold counted, distinct, stream_count. simpl. by rewrite Hs, Hw. Qed.
Lemma walk_sends {A} (f : A → ConnAction) xs k :
  (∀ x k acts, walk k (f x :: acts) = walk k acts) → walk k (f <$> xs) = Some k.
Proof. intros Hf. induction xs as [|x xs IH]; [done|]. cbn [fmap list_fmap]. by rewrite Hf. Qed.

Lemma fst_update_first id f l : (update_first id f l).*1 = l.*1.
Proof. induction l as [|e l IH]; [done|]. simpl. destruct (e.1 =? id); cbn; [done|by f_equal]. Qed.
Lemma distinct_filter id c : distinct c → distinct (remove_stream id c).
Proof.
  unfold distinct, remove_stream. simpl. intros Hd. induction (streams c) as [|[i s] l IH]; [constructor|].
  simpl in Hd. apply NoDup_cons in Hd as [Hi Hd]. rewrite filter_cons. case_decide; [|by apply IH].
  simpl. constructor; [|by apply IH]. intros Hin. apply Hi. apply list_elem_of_fmap in Hin as (e & -> & He).
  apply list_elem_of_filter in He as [_ He]. by apply list_elem_of_fmap_2.
Qed.
Lemma removed_count id c :
  distinct c → id ∈ (streams c).*1 → stream_count (remove_stream id c) = stream_count c - 1.
Proof.
  unfold distinct, remove_stream, stream_count. simpl. intros Hd Hin.
  assert (Hall : ∀ l : list (Z * H2Stream), id ∉ l.*1 → filter (λ e, e.1 ≠ id) l = l).
  { clear. induction l as [|e l IH]; intros Hn; [done|]. simpl in Hn. rewrite filter_cons, decide_True by set_solver.
    f_equal. apply IH. set_solver. }
  induction (streams c) as [|[i s] l IH]; [set_solver|].
  simpl in Hd, Hin. apply NoDup_cons in Hd as [Hi Hd]. rewrite filter_cons. case_decide as Hne; simpl in Hne.
  - apply elem_of_cons in Hin as [->|Hin]; [done|]. specialize (IH Hd Hin). cbn [length]. lia.
  - subst id. rewrite Hall by done. cbn [length]. lia.
Qed.
Lemma existsb_id (p : Z * H2Stream → bool) id (l : list (Z * H2Stream)) :
  (∀ e, p e = true → e.1 = id) → existsb p l = true → id ∈ l.*1.
Proof.
  intros Hp He. apply existsb_exists in He as (e & Hin & He). apply Hp in He as <-.
  apply list_elem_of_fmap_2. by apply list_elem_of_In.
Qed.
Lemma has_stream_id id c : has_stream id c = bool_decide (id ∈ (streams c).*1).
Proof.
  unfold has_stream. case_bool_decide as H.
  - apply list_elem_of_fmap in H as (e & -> & He). apply existsb_exists. exists e.
    split; [by apply list_elem_of_In|]. by rewrite Z.eqb_refl.
  - apply not_true_iff_false. intros He. apply H. eapply existsb_id; [|exact He]. intros e. apply Z.eqb_eq.
Qed.

Lemma counted_removed id c :
  distinct c → id ∈ (streams c).*1 → counted c ([StreamClosed], remove_stream id c).
Proof.
  intros Hd Hin. split; [by apply distinct_filter|]. cbn [fst snd walk].
  rewrite removed_count by done. assert (0 < stream_count c).
  { unfold stream_count. destruct (streams c); [set_solver|cbn [length]; lia]. }
  by rewrite (proj2 (Z.ltb_lt 0 _)).
Qed.
Lemma end_stream_counted set f c :
  distinct c → (∀ id c, (streams (set id c)).*1 = (streams c).*1) → counted c (end_stream set f c).
Proof.
  intros Hd Hset. unfold end_stream. destruct (negb _); [|by apply counted_same].
  unfold check_stream_closed. set (c1 := set _ c).
  assert (Hd1 : distinct c1) by (unfold distinct, c1; by rewrite Hset).
  assert (Hc1 : counted c ([], c1)).
  { split; [done|]. simpl. unfold stream_count, c1. f_equal. rewrite <- (length_fmap fst (streams c)), <- (Hset (stream_id f) c).
    by rewrite length_fmap. }
  destruct (existsb _ _) eqn:E; [|done].
  apply (counted_trans c [] c1); [done|]. apply counted_removed; [done|].
  eapply existsb_id; [|exact E]. intros e He. rewrite !andb_true_iff, Z.eqb_eq in He. tauto.
Qed.
Lemma reset_stream_counted id c : distinct c → counted c (reset_stream id c).
Proof.
  intros Hd. unfold reset_stream. rewrite has_stream_id. case_bool_decide; [by apply counted_removed|by apply counted_same].
Qed.
Lemma buffer_or_forward_counted raw c : distinct c → counted c (buffer_or_forward raw c).
Proof. intros Hd. unfold buffer_or_forward. case_bool_decide; by apply counted_same. Qed.

Lemma fst_set_client id c : (streams (set_client_end_stream id c)).*1 = (streams c).*1.
Proof. apply fst_update_first. Qed.
Lemma fst_set_backend id c : (streams (set_backend_end_stream id c)).*1 = (streams c).*1.
Proof. apply fst_update_first. Qed.
Lemma counted_then_forward raw c acts c1 :
  counted c (acts, c1) → counted c (acts ++ (buffer_or_forward raw c1).1, (buffer_or_forward raw c1).2).
Proof.
  intros H. pose proof (buffer_or_forward_counted raw c1 (proj1 H)) as H2.
  destruct (buffer_or_forward raw c1) as [sent c2]. by apply (counted_trans c _ c1).
Qed.
Lemma counted_then_send x c acts c1 :
  counted c (acts, c1) → counted c (acts ++ [ConnDownstreamSend x], c1).
Proof. intros H. apply (counted_trans c _ c1); [done|]. by apply counted_same; [apply (proj1 H)|..]. Qed.
Lemma counted_after acts0 c r : (∀ k, walk k acts0 = Some k) → counted c r → counted c (acts0 ++ r.1, r.2).
Proof. intros Hw [Hd H]. split; [done|]. simpl. by rewrite walk_app, Hw. Qed.

Lemma open_counted id c :
  distinct c → has_stream id c = false → counted c ([StreamOpened], open_stream id c).
Proof.
  intros Hd Hh. rewrite has_stream_id in Hh. apply bool_decide_eq_false in Hh. split.
  - unfold distinct, open_stream. simpl. rewrite fmap_app. apply NoDup_app.
    split_and!; [done|set_solver|apply NoDup_singleton].
  - unfold open_stream, stream_count. simpl. rewrite length_app. cbn [length]. f_equal. lia.
Qed.

Lemma client_frame_counted f raw c : distinct c → counted c (handle_client_frame f raw c).
Proof.
  intros Hd. unfold handle_client_frame.
  pose proof (end_stream_counted set_client_end_stream f c Hd fst_set_client) as Hend.
  destruct (frame_type f); try (by apply buffer_or_forward_counted).
  - destruct (end_stream _ f c) as [ended c1]. pose proof (counted_then_forward raw _ _ _ Hend) as H.
    destruct (buffer_or_forward raw c1) as [sent c2]. apply (counted_after _ c (ended ++ sent, c2)); [|done].
    intros k. by apply walk_sends.
  - clear Hend. match goal with |- context [let '(_, _) := ?x in _] => assert (Ho : counted c x) end.
    { destruct (_ && _) eqn:E; [|by apply counted_same]. apply andb_true_iff in E as [_ E].
      apply negb_true_iff in E. pose proof (open_counted _ _ Hd E). by destruct (_ <? _). }
    match type of Ho with counted _ ?x => destruct x as [opened c0] end.
    pose proof (end_stream_counted set_client_end_stream f c0 (proj1 Ho) fst_set_client) as Hend.
    destruct (end_stream _ f c0) as [ended c1].
    pose proof (counted_then_forward raw _ _ _ (counted_trans _ _ _ _ _ Ho Hend)) as H.
    destruct (buffer_or_forward raw c1) as [sent c2]. by rewrite (assoc_L (++)).
  - pose proof (reset_stream_counted (stream_id f) c Hd) as Hres. destruct (reset_stream _ c) as [ended c1].
    pose proof (counted_then_forward raw _ _ _ Hres) as H. by destruct (buffer_or_forward raw c1).
  - destruct (negb _); [|by apply counted_same]. unfold check_handshake_complete.
    destruct (_ && _); by apply counted_same.
  - destruct (negb _); by apply counted_same.
  - unfold buffer_or_forward. case_bool_decide; by apply counted_same.
Qed.

Lemma upstream_ready_counted c c' : distinct c → streams c' = streams c → counted c (upstream_ready c').
Proof.
  intros Hd Hs. unfold upstream_ready. case_bool_decide; apply counted_same; try done.
  intros k. by apply walk_sends.
Qed.
Lemma upstream_frame_counted f raw c : distinct c → counted c (handle_upstream_frame f raw c).
Proof.
  intros Hd. unfold handle_upstream_frame.
  pose proof (end_stream_counted set_backend_end_stream f c Hd fst_set_backend) as Hend.
  destruct (frame_type f); try (by apply counted_same).
  - destruct (end_stream _ f c) as [ended c1].
    apply (counted_after _ c (ended ++ _, c1)); [|by apply counted_then_send]. intros k. by apply walk_sends.
  - destruct (end_stream _ f c) as [ended c1]. by apply counted_then_send.
  - pose proof (reset_stream_counted (stream_id f) c Hd) as Hres. destruct (reset_stream _ c) as [ended c1].
    by apply counted_then_send.
  - destruct (negb _); [by apply upstream_ready_counted|].
    pose proof (upstream_ready_counted c c Hd eq_refl) as H. destruct (upstream_ready c) as [flushed c1].
    by apply (counted_after [_] c (flushed, c1)).
  - destruct (negb _); by apply counted_same.
Qed.

Lemma client_frames_counted fuel c0 acts0 c :
  counted c0 (acts0, c) → counted c0 (client_frames fuel c acts0).
Proof.
  revert acts0 c. induction fuel as [|fuel IH]; intros acts0 c H; [done|]. cbn [client_frames].
  destruct (parse_frame _) as [[f n]|]; [|done]. case_bool_decide.
  - by apply IH.
  - pose proof (client_frame_counted f (take n (recv_buf c)) {| c with recv_buf := drop n (recv_buf c) |}
      (proj1 H)) as H2.
    destruct (handle_client_frame _ _ _) as [acts c2]. apply IH. by apply (counted_trans _ _ c).
Qed.
Lemma upstream_frames_counted fuel c0 acts0 c :
  counted c0 (acts0, c) → counted c0 (upstream_frames fuel c acts0).
Proof.
  revert acts0 c. induction fuel as [|fuel IH]; intros acts0 c H; [done|]. cbn [upstream_frames].
  destruct (parse_frame _) as [[f n]|]; [|done].
  pose proof (upstream_frame_counted f (take n (upstream_recv_buf c))
    {| c with upstream_recv_buf := drop n (upstream_recv_buf c) |} (proj1 H)) as H2.
  destruct (handle_upstream_frame _ _ _) as [acts c2]. apply IH. by apply (counted_trans _ _ c).
Qed.
Lemma on_client_data_counted data c : distinct c → counted c (on_client_data data c).
Proof.
  intros Hd. unfold on_client_data. case_bool_decide; [|by apply client_frames_counted, counted_same].
  destruct (_ <? _)%nat; [by apply counted_same|]. destruct (negb _); [by apply counted_same|].
  by apply client_frames_counted, counted_same.
Qed.
Lemma on_upstream_data_counted data c : distinct c → counted c (on_upstream_data data c).
Proof. intros Hd. by apply upstream_frames_counted, counted_same. Qed.
Lemma close_streams_counted c c' : streams c' = streams c → counted c (close_streams c').
Proof.
  intros Hs. unfold close_streams, counted, distinct, stream_count. simpl. split; [constructor|]. rewrite Hs. clear Hs.
  induction (streams c) as [|e l IH]; [done|]. cbn [length replicate walk].
  rewrite (proj2 (Z.ltb_lt 0 _)) by lia.
  replace (Z.of_nat (S (length l)) - 1) with (zlen l) by lia. exact IH.
Qed.
Lemma on_upstream_closed_counted c : counted c (on_upstream_closed c).
Proof.
  unfold on_upstream_closed. cbn [phase].
  destruct (negb _); [apply (counted_after [_; _] c (close_streams _))|apply (counted_after [] c (close_streams _))];
    try done; by apply close_streams_counted.
Qed.
Lemma on_upstream_failed_counted c : counted c (on_upstream_failed c).
Proof.
  unfold on_upstream_failed. apply (counted_after [_; _] c (close_streams _)); [done|].
  by apply close_streams_counted.
Qed.

(** ** The need for a backend *)
Section Core.
Context `{!HashIter Z}.

Definition streams_total (m : gmap Z Connection) : Z := map_fold (λ _ c s, stream_count c + s) 0 m.
Lemma streams_total_insert h c m :
  m !! h = None → streams_total (<[h := c]> m) = stream_count c + streams_total m.
Proof. intros Hm. unfold streams_total. rewrite map_fold_insert_L; [done|lia|done]. Qed.
Lemma streams_total_delete h c m :
  m !! h = Some c → streams_total m = stream_count c + streams_total (delete h m).
Proof.
  intros Hm. rewrite <- (insert_delete_id m h c Hm) at 1. apply streams_total_insert. apply lookup_delete_eq.
Qed.
Lemma streams_total_update h c c' m :
  m !! h = Some c → streams_total (<[h := c']> m) = stream_count c' + streams_total (delete h m).
Proof. intros Hm. rewrite <- insert_delete_eq. apply streams_total_insert. apply lookup_delete_eq. Qed.
Lemma streams_total_nonneg m : 0 ≤ streams_total m.
Proof.
  induction m as [|h c m Hm IH] using map_ind; [done|]. rewrite streams_total_insert by done.
  unfold stream_count. lia.
Qed.
Lemma streams_total_pos m : 0 < streams_total m ↔ ∃ h c, m !! h = Some c ∧ streams c ≠ [].
Proof.
  induction m as [|h c m Hm IH] using map_ind.
  - unfold streams_total. rewrite map_fold_empty. split; [lia|]. intros (h & c & H & _).
    by rewrite lookup_empty in H.
  - rewrite streams_total_insert by done. pose proof (streams_total_nonneg m) as Hnn. split.
    + intros Hp. destruct (streams c) as [|e l] eqn:Es.
      * unfold stream_count in Hp. rewrite Es in Hp. destruct (proj1 IH) as (h' & c' & H1 & H2); [simpl in Hp; lia|].
        exists h', c'. rewrite lookup_insert_ne by naive_solver. done.
      * exists h, c. rewrite lookup_insert_eq, Es. done.
    + intros (h' & c' & H1 & H2). unfold stream_count. destruct (decide (h' = h)) as [->|Hne].
      * rewrite lookup_insert_eq in H1. simplify_eq. destruct (streams c') eqn:E; [done|]. cbn [length]. lia.
      * rewrite lookup_insert_ne in H1 by done. assert (0 < streams_total m) by (apply IH; eauto). lia.
Qed.

Definition consistent (a : Http2Activator) : Prop :=
  total_h2_streams a = streams_total (connections a) ∧
  map_Forall (λ _ c, distinct c) (connections a).
Definition need_of (n : Z) : BackendNeed := if 0 <? n then NeedActive else NeedNone.

Lemma need_transition acts old_ new_ :
  Forall quiet acts → 0 ≤ old_ → 0 ≤ new_ →
  foldl note_need (need_of old_) (acts ++ check_backend_need_transition old_ new_) = need_of new_.
Proof.
  intros Hq Ho Hn. rewrite foldl_app, (foldl_quiet acts) by done. unfold check_backend_need_transition, need_of.
  destruct (Z.eqb_spec old_ 0), (Z.ltb_spec 0 new_), (Z.ltb_spec 0 old_), (Z.eqb_spec new_ 0); simpl; (done || lia).
Qed.

(** What a step keeps and reports *)
Record tracked (a : Http2Activator) (r : list Action * Http2Activator) : Prop := {
  tr_consistent : consistent r.2;
  tr_need : foldl note_need (need_of (total_h2_streams a)) r.1 = need_of (total_h2_streams r.2);
  tr_dom : dom (connections r.2) ⊆ dom (connections a);
}.
(** A step of which the change of the count is still to be reported *)
Record silent (a : Http2Activator) (r : list Action * Http2Activator) : Prop := {
  si_consistent : consistent r.2;
  si_quiet : Forall quiet r.1;
  si_dom : dom (connections r.2) ⊆ dom (connections a);
}.
Lemma consistent_nonneg a : consistent a → 0 ≤ total_h2_streams a.
Proof. intros [-> _]. apply streams_total_nonneg. Qed.
Lemma silent_tracked a acts a' :
  consistent a → silent a (acts, a') →
  tracked a (acts ++ check_backend_need_transition (total_h2_streams a) (total_h2_streams a'), a').
Proof.
  intros Hc [H1 H2 H3]. split; [done| |done]. apply need_transition; [done|by apply consistent_nonneg..].
Qed.
Lemma silent_trans a acts1 a1 acts2 a2 :
  silent a (acts1, a1) → silent a1 (acts2, a2) → silent a (acts1 ++ acts2, a2).
Proof.
  intros [_ Q1 D1] [C2 Q2 D2]. split; [done|by apply Forall_app|]. simpl in *. set_solver.
Qed.
Lemma silent_same a a' acts :
  consistent a → connections a' = connections a → total_h2_streams a' = total_h2_streams a →
  Forall quiet acts → silent a (acts, a').
Proof. intros Hc H1 H2 Hq. split; simpl; [unfold consistent; by rewrite H1, H2|done|by rewrite H1]. Qed.

Lemma process_conn_actions_walk h cas a k k' rest :
  walk k cas = Some k' → 0 ≤ rest → total_h2_streams a = k + rest →
  let r := process_conn_actions h cas a in
  total_h2_streams r.2 = k' + rest ∧ connections r.2 = connections a ∧ Forall quiet r.1.
Proof.
  revert a k. induction cas as [|ca cas IH]; intros a k Hw Hr Ht; [simpl in *; by simplify_eq|].
  cbn [process_conn_actions].
  assert (Hstep : ∃ k1, walk k1 cas = Some k' ∧ total_h2_streams (conn_action h a ca).2 = k1 + rest ∧
    connections (conn_action h a ca).2 = connections a ∧ Forall quiet (conn_action h a ca).1).
  { destruct ca; cbn [conn_action walk fst snd connections total_h2_streams] in *.
    all: try (exists k; split_and!; [done..|repeat case_match; by repeat constructor]).
    - exists (k + 1). split_and!; [done|lia|done|constructor].
    - destruct (0 <? k) eqn:E; [|done]. exists (k - 1). unfold saturating_sub.
      split_and!; [done|lia|done|constructor]. }
  destruct Hstep as (k1 & Hw1 & Ht1 & Hc1 & Hq1). destruct (conn_action h a ca) as [acts a1]. simpl in *.
  destruct (IH a1 k1 Hw1 Hr Ht1) as (H1 & H2 & H3). destruct (process_conn_actions h cas a1) as [acts' a2].
  simpl in *. split_and!; [done|congruence|by apply Forall_app].
Qed.

Lemma put_silent h c cas c' a :
  consistent a → connections a !! h = Some c → counted c (cas, c') →
  silent a (process_conn_actions h cas (set_connection h c' a)) ∧
  connections (process_conn_actions h cas (set_connection h c' a)).2 = <[h := c']> (connections a).
Proof.
  intros [Ht Hd] Hc [Hd' Hw]. simpl in Hd', Hw.
  destruct (process_conn_actions_walk h cas (set_connection h c' a) _ _ (streams_total (delete h (connections a))) Hw)
    as (H1 & H2 & H3).
  - apply streams_total_nonneg.
  - simpl. by rewrite Ht, (streams_total_delete h c).
  - split; [|done]. split; [|done|].
    + split; rewrite H2; simpl; [rewrite H1; symmetry; by eapply streams_total_update|by apply map_Forall_insert_2].
    + rewrite H2. simpl. rewrite dom_insert. apply elem_of_dom_2 in Hc. set_solver.
Qed.

Lemma tell_silent h f a :
  consistent a → (∀ c, distinct c → counted c (f c)) → silent a (tell h f a).
Proof.
  intros Hc Hf. unfold tell. destruct (connections a !! h) as [c|] eqn:E; [|by apply silent_same].
  pose proof (Hf c (proj2 Hc h c E)) as Hk. destruct (f c) as [cas c']. by eapply put_silent.
Qed.
Lemma tell_tracked h f a :
  consistent a → (∀ c, distinct c → counted c (f c)) →
  tracked a (let '(sent, a') := tell h f a in
             (sent ++ check_backend_need_transition (total_h2_streams a) (total_h2_streams a'), a')).
Proof.
  intros Hc Hf. pose proof (tell_silent h f a Hc Hf) as H. destruct (tell h f a). by apply silent_tracked.
Qed.
(** A step that changes neither the connections nor the count *)
Lemma tracked_same a a' acts :
  consistent a → connections a' = connections a → total_h2_streams a' = total_h2_streams a →
  Forall quiet acts → tracked a (acts, a').
Proof.
  intros Hc H1 H2 Hq. split; simpl; [unfold consistent; by rewrite H1, H2| |by rewrite H1].
  rewrite foldl_quiet by done. by rewrite H2.
Qed.
Lemma tracked_ext a a0 r :
  tracked a0 r → connections a0 = connections a → total_h2_streams a0 = total_h2_streams a → tracked a r.
Proof. intros [H1 H2 H3] E1 E2. split; [done|by rewrite <- E2|by rewrite <- E1]. Qed.

(** The state of the backend connection does not count. *)
Lemma connecting_silent h c a acts :
  consistent a → connections a !! h = Some c → Forall quiet acts →
  silent a (acts, begin_connect h c a) ∧ total_h2_streams (begin_connect h c a) = total_h2_streams a.
Proof.
  intros [Ht Hd] Hc Hq. split; [|done]. split; [|done|].
  - split; simpl.
    + rewrite (streams_total_update h c) by done. rewrite Ht, (streams_total_delete h c) by done. done.
    + apply map_Forall_insert_2; [|done]. apply (Hd h c Hc).
  - simpl. rewrite dom_insert. apply elem_of_dom_2 in Hc. set_solver.
Qed.

Lemma stream_data_tracked h data a : consistent a → tracked a (handle_stream_data h data a).
Proof.
  intros Hc. unfold handle_stream_data. destruct (connections a !! h) as [c|] eqn:E; [|by apply tracked_same].
  pose proof (on_client_data_counted data c (proj2 Hc h c E)) as Hk. destruct (on_client_data data c) as [cas c'].
  destruct (put_silent h c cas c' a Hc E Hk) as [Hs Hm].
  destruct (process_conn_actions _ _ _) as [sent a1]. simpl in Hm.
  destruct (_ && _).
  - rewrite (assoc_L (++)). apply silent_tracked; [done|]. eapply silent_trans; [exact Hs|].
    apply connecting_silent; [apply (si_consistent _ _ Hs)|by rewrite Hm, lookup_insert_eq|by repeat constructor].
  - by apply silent_tracked.
Qed.
Lemma stream_close_tracked h a : consistent a → tracked a (handle_stream_close h a).
Proof.
  intros Hc. unfold handle_stream_close. destruct (connections a !! h) as [c|] eqn:E.
  2: { apply silent_tracked; [done|]. by apply silent_same. }
  destruct (match upstream_of _ _ with Some _ => _ | None => _ end) as [closed a1] eqn:Eu.
  assert (Ha1 : connections a1 = delete h (connections a) ∧ total_h2_streams a1 = total_h2_streams a ∧
    Forall quiet closed).
  { destruct (upstream_of _ _); simplify_eq/=; by repeat constructor. }
  destruct Ha1 as (H1 & H2 & H3). apply silent_tracked; [done|]. destruct Hc as [Ht Hd].
  split; simpl; [|done|rewrite H1; set_solver]. unfold consistent. simpl. rewrite H1, H2. split.
  - rewrite Ht, (streams_total_delete h c) by done. pose proof (streams_total_nonneg (delete h (connections a))).
    unfold saturating_sub. lia.
  - by apply map_Forall_delete.
Qed.

Lemma foldl_silent {A} (f : list Action * Http2Activator → A → list Action * Http2Activator) l a acts a0 :
  (∀ acts a x, consistent a → ∃ acts', (f (acts, a) x).1 = acts ++ acts' ∧ silent a (acts', (f (acts, a) x).2)) →
  silent a (acts, a0) → silent a (foldl f (acts, a0) l).
Proof.
  intros Hf. revert acts a0. induction l as [|x l IH]; intros acts a0 H; [done|]. simpl.
  destruct (Hf acts a0 x (si_consistent _ _ H)) as (acts' & E & Hs). destruct (f (acts, a0) x) as [acts1 a1].
  simpl in *. subst acts1. apply IH. by eapply silent_trans.
Qed.
Lemma ask_connect_total l acts a :
  total_h2_streams (foldl ask_connect (acts, a) l).2 = total_h2_streams a.
Proof.
  revert acts a. induction l as [|h l IH]; intros acts a; [done|]. simpl.
  by destruct (connections a !! h); rewrite IH.
Qed.
Lemma backend_available_tracked av a : consistent a → tracked a (handle_backend_available av a).
Proof.
  intros Hc. unfold handle_backend_available.
  set (a0 := {| a with backend_available := av |}). assert (Hc0 : consistent a0) by exact Hc. destruct av.
  - set (handles := _.*1). pose proof (ask_connect_total handles [] a0) as Ht.
    assert (Hs : silent a (foldl ask_connect ([], a0) handles)).
    { apply foldl_silent; [|by apply silent_same]. intros acts a1 h H1. simpl.
      destruct (connections a1 !! h) as [c|] eqn:E.
      - exists [UpstreamConnect 80]. split; [done|]. by apply connecting_silent; [..|repeat constructor].
      - exists []. rewrite app_nil_r. split; [done|]. by apply silent_same. }
    destruct (foldl ask_connect _ _) as [acts a1]. destruct Hs as [H1 H2 H3]. simpl in *.
    split; [done| |done]. simpl. rewrite foldl_quiet by done. by rewrite Ht.
  - set (s := foldl drop_connection _ _).
    assert (Hs : silent a s).
    { apply foldl_silent; [|by apply silent_same]. intros acts a1 h H1. simpl.
      destruct (connections a1 !! h) as [c|] eqn:E.
      - pose proof (on_upstream_closed_counted c) as Hk. destruct (on_upstream_closed c) as [cas c'].
        destruct (put_silent h c cas c' a1 H1 E Hk) as [Hp _]. destruct (process_conn_actions _ _ _) as [sent a2].
        by exists sent.
      - exists []. rewrite app_nil_r. split; [done|]. by apply silent_same. }
    assert (Hs2 : silent a (foldl drop_upstream s (hash_iter (upstream_to_downstream s.2)).*1)).
    { destruct s as [acts1 a1]. apply foldl_silent; [|done]. intros acts a2 u H1. simpl.
      exists [UpstreamClose u]. split; [done|]. by apply silent_same; [..|repeat constructor]. }
    destruct (foldl drop_upstream _ _) as [acts a2]. by apply (silent_tracked a acts a2).
Qed.

Lemma handle_event_tracked event a :
  consistent a → (∀ s, s ∈ opens [event] → s ∉ dom (connections a)) →
  consistent (handle_event event a).2 ∧
  foldl note_need (need_of (total_h2_streams a)) (handle_event event a).1
    = need_of (total_h2_streams (handle_event event a).2) ∧
  dom (connections (handle_event event a).2) ⊆ dom (connections a) ∪ list_to_set (opens [event]).
Proof.
  intros Hc Hf.
  assert (Hr : ∀ r, tracked a r → consistent r.2 ∧
    foldl note_need (need_of (total_h2_streams a)) r.1 = need_of (total_h2_streams r.2) ∧
    dom (connections r.2) ⊆ dom (connections a) ∪ list_to_set (opens [event])).
  { intros r [H1 H2 H3]. split_and!; [done|done|set_solver]. }
  destruct event as [av| |info|h|h data|h|u ok|u data|u]; cbn [handle_event].
  - by apply Hr, backend_available_tracked.
  - apply Hr. by apply tracked_same.
  - apply Hr. by apply tracked_same.
  - assert (Hn : connections a !! h = None) by (apply not_elem_of_dom, Hf; set_solver).
    simpl. split_and!; [|done|rewrite dom_insert; set_solver]. destruct Hc as [Ht Hd].
    split; simpl; [rewrite streams_total_insert by done; by rewrite Ht|].
    apply map_Forall_insert_2; [constructor|done].
  - by apply Hr, stream_data_tracked.
  - by apply Hr, stream_close_tracked.
  - apply Hr. unfold handle_upstream_connect_result. destruct (pending_connects a) as [|h pending].
    { by apply tracked_same; [..|repeat constructor]. }
    destruct ok.
    + set (a1 := {| a with upstream_to_downstream := <[u := h]> (upstream_to_downstream a);
                           pending_connects := pending |}).
      pose proof (tell_silent h on_upstream_connected a1 Hc) as Hs.
      assert (Ht : total_h2_streams (tell h on_upstream_connected a1).2 = total_h2_streams a).
      { unfold tell. simpl. by destruct (connections a !! h). }
      destruct Hs as [H1 H2 H3]; [intros c Hd; by apply counted_same|].
      split; [exact H1| |exact H3]. etrans; [by apply foldl_quiet|]. f_equal. symmetry. exact Ht.
    + eapply tracked_ext;
        [apply (tell_tracked h on_upstream_failed {| a with pending_connects := pending |}); [done|]|done|done].
      intros c _. apply on_upstream_failed_counted.
  - apply Hr. unfold handle_upstream_data. destruct (upstream_to_downstream a !! u) as [h|]; [|by apply tracked_same].
    destruct (connections a !! h); [|by apply tracked_same]. apply tell_tracked; [done|apply on_upstream_data_counted].
  - apply Hr. unfold handle_upstream_close. destruct (upstream_to_downstream a !! u) as [h|]; [|by apply tracked_same].
    simpl. destruct (connections a !! h) as [c0|]; [|by apply tracked_same].
    eapply tracked_ext; [apply (tell_tracked h on_upstream_closed
      {| a with upstream_to_downstream := delete u (upstream_to_downstream a) |}); [done|]|done|done].
    intros c _. apply on_upstream_closed_counted.
Qed.

Lemma process_events_tracked events a :
  consistent a → NoDup (opens events) → (∀ s, s ∈ opens events → s ∉ dom (connections a)) →
  foldl note_need (need_of (total_h2_streams a)) (process_events events a).1
    = need_of (total_h2_streams (process_events events a).2) ∧
  dom (connections (process_events events a).2) ⊆ dom (connections a) ∪ list_to_set (opens events) ∧
  consistent (process_events events a).2.
Proof.
  revert a. induction events as [|e events IH]; intros a Hc Hd Hf; [split_and!; [done|set_solver|done]|].
  change (e :: events) with ([e] ++ events) in Hd, Hf |- *. rewrite opens_app in *.
  apply NoDup_app in Hd as (_ & Hd12 & Hd2). cbn [process_events app].
  destruct (handle_event_tracked e a Hc) as (H1 & H2 & H3); [set_solver|].
  destruct (handle_event e a) as [acts a1]. simpl in H1, H2, H3.
  destruct (IH a1 H1 Hd2) as (I1 & I2 & I3).
  - intros s Hs Hin. apply H3, elem_of_union in Hin as [Hin|Hin].
    + apply (Hf s); [set_solver|done].
    + apply elem_of_list_to_set in Hin. by apply (Hd12 s).
  - destruct (process_events events a1) as [acts' a2]. simpl in *. rewrite foldl_app, H2.
    split_and!; [done|by eapply opened_trans|done].
Qed.
#[export] Instance http2_tracks_need : TracksNeed Http2Activator.
Proof.
  refine {| current_need a := need_of (total_h2_streams a); open_streams a := dom (connections a);
            well_formed := consistent |}.
  intros events a acts a' H Hw Hd Hf. destruct (process_events_tracked events a Hw Hd Hf) as (H1 & H2 & H3).
  cbn in H. destruct (process_events events a) as [acts1 a1]. by simplify_eq.
Defined.

#[local] Existing Instance activator_component.
(** The host always knows whether the HTTP/2 activator needs a backend: after any
    batches of events, as long as no connection is opened twice, the activator's count is
    the number of open HTTP/2 streams, and the need the host has recorded is active iff
    some connection has an open stream. *)
Theorem http2_need_tracked batches :
  NoDup (opens (concat batches)) →
  ∃ inst, serve batches (start new_activator) = (true, inst) ∧
    total_h2_streams (store inst) = streams_total (connections (store inst)) ∧
    (last_backend_need inst = NeedActive ↔
       ∃ h c, connections (store inst) !! h = Some c ∧ streams c ≠ []) ∧
    (last_backend_need inst = NeedNone ↔
       ¬ ∃ h c, connections (store inst) !! h = Some c ∧ streams c ≠ []).
Proof.
  intros Hd.
  assert (Hret : ∀ bs (i : ActivatorInstance Http2Activator), ∃ inst, serve bs i = (true, inst)).
  { clear. induction bs as [|b bs IH]; intros i; [by eexists|]. simpl. rewrite push_events. unfold Processor.process_events.
    simpl. destruct (pending_events i ++ b); [apply IH|]. simpl.
    destruct (handle_event _ _) as [x y]. destruct (process_events _ _). apply IH. }
  destruct (Hret batches (start new_activator)) as [inst Hs]. exists inst. split; [done|].
  destruct (serve_need batches (start new_activator) inst) as [-> [Ht _]]; try done.
  split; [done|]. cbn [current_need http2_tracks_need]. rewrite Ht, <- streams_total_pos. unfold need_of.
  destruct (0 <? _) eqn:E; split; split; try done; lia.
Qed.

End Core.

(** ** Concrete runs *)
Definition headers (fl sid : Z) : list Z := serialize_frame Headers fl sid [130; 134].
Definition demo_ops : list ConnOp :=
  [ClientData (take 10 CLIENT_PREFACE); ClientData (drop 10 CLIENT_PREFACE ++ our_settings ++ take 4 (headers 5 1));
   ClientData (drop 4 (headers 5 1)); UpConnecting; UpConnected; UpData (our_settings ++ build_settings_ack);
   ClientData (headers 4 3); UpData (headers 4 1 ++ serialize_frame Data 1 1 [104; 105] ++ [0; 0])].

Lemma demo_state :
  phase (run demo_ops new).2 = Handshaking ∧
  streams (run demo_ops new).2 = [(3, {| client_end_stream := false; backend_end_stream := false |})].
Proof. by vm_compute. Qed.

(** After a [GOAWAY] of the client, the rest of its open streams is discarded, and the
    stream stays open. *)
Example goaway_discards_open_streams :
  let r := run [UpConnecting; UpConnected; UpData our_settings; ClientData (CLIENT_PREFACE ++ headers 4 1);
                ClientData (build_goaway 0 0); ClientData (serialize_frame Data 1 1 [104; 105])] new in
  drop 2 (ups r.1) = [headers 4 1; build_goaway 0 0] ∧ length (streams r.2) = 1%nat.
Proof. by vm_compute. Qed.
(** Data of the backend is credited twice: by the activator and by the client, whose
    message is passed on. *)
Example backend_data_credited_twice :
  let r := run [UpConnecting; UpConnected; UpData our_settings; ClientData (CLIENT_PREFACE ++ headers 5 1);
                UpData (serialize_frame Data 0 1 [104; 105]); ClientData (build_window_update 1 2)] new in
  drop 3 (ups r.1) = [build_window_update 0 2; build_window_update 1 2; build_window_update 1 2].
Proof. by vm_compute. Qed.

Definition demo_batches : list (list Event) :=
  [[BackendAvailable true; StreamOpen 1]; [StreamData 1 (CLIENT_PREFACE ++ headers 5 1)];
   [UpstreamConnectResult 7 true]; [UpstreamData 7 (our_settings ++ headers 5 1)]].
Lemma http2_need_tracked_witness :
  NoDup (opens (concat demo_batches)) ∧
  ∃ inst, serve (H := activator_component) demo_batches (start new_activator) = (true, inst) ∧
    total_h2_streams (store inst) = streams_total (connections (store inst)) ∧
    (last_backend_need inst = NeedActive ↔
       ∃ h c, connections (store inst) !! h = Some c ∧ streams c ≠ []) ∧
    (last_backend_need inst = NeedNone ↔
       ¬ ∃ h c, connections (store inst) !! h = Some c ∧ streams c ≠ []).
Proof.
  assert (Hd : NoDup (opens (concat demo_batches))) by (apply (bool_decide_unpack _); by vm_compute).
  split; [exact Hd|]. exact (http2_need_tracked demo_batches Hd).
Defined.
Example demo_needs :
  let need n := last_backend_need (serve (H := activator_component) (take n demo_batches) (start new_activator)).2 in
  need 1%nat = NeedNone ∧ need 2%nat = NeedActive ∧ need 4%nat = NeedNone.
Proof. by vm_compute. Qed.
End Http2Inv.
