(* ===== verification/Memory.v ===== *)
(** * The memory manager of a virtual machine
      ([crates/guest-init/src/memory/{manager,task,init}.rs], [cgroup.rs])

    A virtual machine starts with part of its memory in a balloon.  Under pressure the
    manager asks the host to deflate the balloon and raises the limits of the containers
    when the host has released pages; when little memory is used it inflates the balloon
    again.  The limits are two files of a control group, [memory.high] and [memory.max].

    The files are a state of their own ([Cgroup]); every operation gets the time and what
    its accesses to the files return ([Io]).  Usage is compared as the source does, in
    binary64. *)

From S2P Require Import Prelude SmTypes.
From Stdlib Require Import SpecFloat.

Module Memory.

Definition MIB : Z := 1024 * 1024.
Definition INITIAL_STEP_MIB : Z := 32.
Definition MAX_STEP_MIB : Z := 256.
Definition KERNEL_BUFFER_MIB : Z := 64.
Definition HIGH_TO_MAX_GAP_MIB : Z := 4.
Definition INFLATION_STEP_MIB : Z := 16.
Definition INFLATION_HEADROOM_BYTES : Z := 8 * MIB.
Definition INFLATION_COOLDOWN : Z := from_secs 60.
Definition INFLATION_STREAK_REQUIRED : Z := 4.
Definition DEFLATION_STALL_DEADLINE : Z := from_millis 1000.
Definition VIRTIO_BALLOON_PAGES_PER_MIB : Z := 256.
Definition u64_max : Z := 2 ^ 64 - 1.
Definition u64_saturating_add (a b : Z) : Z := Z.min u64_max (a + b).

(** [current as f64 / high as f64 < 0.75] *)
Definition f64_of (z : Z) : spec_float := binary_normalize 53 1024 z 0 false.
Definition INFLATION_USAGE_RATIO : spec_float := S754_finite false 6755399441055744 (-53).
Definition low_usage (current high : Z) : bool :=
  SFltb (SFdiv 53 1024 (f64_of current) (f64_of high)) INFLATION_USAGE_RATIO.

Inductive ConstraintReason := BalloonExhausted | DeflationStalled.
#[export] Instance ConstraintReason_eq_dec : EqDecision ConstraintReason.
Proof. solve_decision. Defined.
(** The events the manager sends, of the guest protocol *)
Inductive GuestEvent :=
  | BalloonSet (amount_mib : Z)
  | MemoryConstrained (reason : ConstraintReason)
  | MemoryConstraintCleared
  | OomKill (count : Z).
Inductive ConstraintState := Normal | WaitingForDeflation (sent_at : Z) | Constrained (reason : ConstraintReason).
#[export] Instance ConstraintState_eq_dec : EqDecision ConstraintState.
Proof. solve_decision. Defined.

Record MemoryManager := {
  balloon_amount_mib : Z; step_size_mib : Z; vm_mem_mib : Z; pending_deflation_mib : Z;
  current_cgroup_high : Z; current_cgroup_max : Z; low_usage_streak : Z;
  inflation_suppressed_until : option Z; constraint_state : ConstraintState }.

(** ** The files ([cgroup.rs]) *)
Record Cgroup := { memory_high : Z; memory_max : Z }.
(** What the accesses of one operation return: the value of [memory.current] if it can be
    read, and whether the other accesses succeed *)
Record Io := { io_current : option Z; io_high_readable : bool; io_max_writable : bool; io_high_writable : bool }.

Definition read_high (io : Io) (g : Cgroup) : option Z :=
  if io_high_readable io then Some (memory_high g) else None.
Definition set_memory_limits (io : Io) (high_bytes max_bytes : Z) (g : Cgroup) : bool * Cgroup :=
  if io_max_writable io then
    let g := {| g with memory_max := max_bytes |} in
    if io_high_writable io then (true, {| g with memory_high := high_bytes |}) else (false, g)
  else (false, g).

(** ** The manager ([manager.rs]) *)
Definition new (balloon_mib vm_mem_mib_ : Z) : MemoryManager :=
  {| balloon_amount_mib := balloon_mib; step_size_mib := INITIAL_STEP_MIB; vm_mem_mib := vm_mem_mib_;
     pending_deflation_mib := 0; current_cgroup_high := 0; current_cgroup_max := 0; low_usage_streak := 0;
     inflation_suppressed_until := None; constraint_state := Normal |}.
Definition initial_limits (m : MemoryManager) : (Z * Z) * MemoryManager :=
  let available_mib := saturating_sub (saturating_sub (vm_mem_mib m) (balloon_amount_mib m)) KERNEL_BUFFER_MIB in
  let max_bytes := available_mib * MIB in
  let high_bytes := saturating_sub max_bytes (HIGH_TO_MAX_GAP_MIB * MIB) in
  ((high_bytes, max_bytes), {| m with current_cgroup_high := high_bytes; current_cgroup_max := max_bytes |}).

(** Pressure: the balloon is not to be inflated for a while. *)
Definition suppress_inflation (now : Z) (m : MemoryManager) : MemoryManager :=
  {| m with low_usage_streak := 0; inflation_suppressed_until := Some (now + INFLATION_COOLDOWN) |}.
Definition deflate (now : Z) (m : MemoryManager) : list GuestEvent * MemoryManager :=
  let step := Z.min (step_size_mib m) (balloon_amount_mib m) in
  let m := {| m with balloon_amount_mib := balloon_amount_mib m - step;
                     pending_deflation_mib := u32_add (pending_deflation_mib m) step;
                     constraint_state := WaitingForDeflation now |} in
  ([BalloonSet (balloon_amount_mib m)], m).
Definition handle_pressure (now : Z) (m : MemoryManager) : list GuestEvent * MemoryManager :=
  let m := suppress_inflation now m in
  if balloon_amount_mib m =? 0 then
    if negb (bool_decide (constraint_state m = Constrained BalloonExhausted)) then
      ([MemoryConstrained BalloonExhausted], {| m with constraint_state := Constrained BalloonExhausted |})
    else ([], m)
  else if step_size_mib m <=? pending_deflation_mib m then ([], m)
  else if 0 <? pending_deflation_mib m then
    deflate now {| m with step_size_mib := Z.min (wrap 32 (step_size_mib m * 2)) MAX_STEP_MIB |}
  else deflate now {| m with step_size_mib := INITIAL_STEP_MIB |}.

Definition is_pressure_resolved (io : Io) (g : Cgroup) : bool :=
  default u64_max (io_current io) <? default 0 (read_high io g).
Definition check_constraint_cleared (io : Io) (m : MemoryManager) (g : Cgroup) : list GuestEvent * MemoryManager :=
  match constraint_state m with
  | Constrained _ =>
      if is_pressure_resolved io g then ([MemoryConstraintCleared], {| m with constraint_state := Normal |})
      else ([], m)
  | WaitingForDeflation _ =>
      ([], if is_pressure_resolved io g then {| m with constraint_state := Normal |} else m)
  | Normal => ([], m)
  end.

Definition on_balloon_pages_changed (old_pages new_pages : Z) (io : Io) (m : MemoryManager) (g : Cgroup) :
    list GuestEvent * (MemoryManager * Cgroup) :=
  let old_mib := old_pages / VIRTIO_BALLOON_PAGES_PER_MIB in
  let new_mib := new_pages / VIRTIO_BALLOON_PAGES_PER_MIB in
  if new_pages <? old_pages then
    let released_mib := saturating_sub old_mib new_mib in
    let released_bytes := released_mib * MIB in
    let m := {| m with pending_deflation_mib := saturating_sub (pending_deflation_mib m) released_mib |} in
    let new_max := u64_saturating_add (current_cgroup_max m) released_bytes in
    let new_high := if balloon_amount_mib m =? 0 then new_max
                    else u64_saturating_add (current_cgroup_high m) released_bytes in
    match set_memory_limits io new_high new_max g with
    | (false, g) => ([], (m, g))
    | (true, g) =>
        let m := {| m with current_cgroup_high := new_high; current_cgroup_max := new_max |} in
        let '(events, m) := check_constraint_cleared io m g in
        (events, (m, g))
    end
  else ([], (m, g)).

Inductive PsiLevel := PsiSome | PsiFull.
Definition handle_psi_event (level : PsiLevel) (now : Z) (m : MemoryManager) : list GuestEvent * MemoryManager :=
  let m := suppress_inflation now m in
  match level with PsiFull => handle_pressure now m | PsiSome => ([], m) end.

(** The part of [tick_inflation] that may inflate the balloon *)
Definition try_inflate (now : Z) (io : Io) (m : MemoryManager) (g : Cgroup) :
    list GuestEvent * (MemoryManager * Cgroup) :=
  if 0 <? pending_deflation_mib m then ([], (m, g))
  else if match inflation_suppressed_until m with Some until => now <? until | None => false end
  then ([], (m, g))
  else
    match io_current io, read_high io g with
    | Some current, Some high =>
        if high =? u64_max then ([], (m, g))
        else if negb (low_usage current high) then ([], ({| m with low_usage_streak := 0 |}, g))
        else
          let m := {| m with low_usage_streak := u32_add (low_usage_streak m) 1 |} in
          if low_usage_streak m <? INFLATION_STREAK_REQUIRED then ([], (m, g))
          else
            let min_high := u64_saturating_add current INFLATION_HEADROOM_BYTES in
            let new_high := saturating_sub high (INFLATION_STEP_MIB * MIB) in
            if new_high <? min_high then ([], ({| m with low_usage_streak := 0 |}, g))
            else
              let new_max := u64_saturating_add new_high (HIGH_TO_MAX_GAP_MIB * MIB) in
              match set_memory_limits io new_high new_max g with
              | (false, g) => ([], (m, g))
              | (true, g) =>
                  let m := {| m with current_cgroup_high := new_high; current_cgroup_max := new_max;
                                     balloon_amount_mib := u32_add (balloon_amount_mib m) INFLATION_STEP_MIB;
                                     low_usage_streak := 0 |} in
                  ([BalloonSet (balloon_amount_mib m)], (m, g))
              end
    | _, _ => ([], (m, g))
    end.
(** [first] is what the accesses of [is_pressure_resolved] return. *)
Definition tick_inflation (first : Io) (now : Z) (io : Io) (m : MemoryManager) (g : Cgroup) :
    list GuestEvent * (MemoryManager * Cgroup) :=
  let '(cleared, m) :=
    match constraint_state m with
    | Constrained _ =>
        if is_pressure_resolved first g then ([MemoryConstraintCleared], {| m with constraint_state := Normal |})
        else ([], m)
    | _ => ([], m)
    end in
  let '(inflated, s) := try_inflate now io m g in
  (cleared ++ inflated, s).

Definition check_deflation_deadline (now : Z) (io : Io) (m : MemoryManager) (g : Cgroup) :
    list GuestEvent * MemoryManager :=
  match constraint_state m with
  | WaitingForDeflation sent_at =>
      if DEFLATION_STALL_DEADLINE <=? now - sent_at then
        if is_pressure_resolved io g then ([], {| m with constraint_state := Normal |})
        else ([MemoryConstrained DeflationStalled], {| m with constraint_state := Constrained DeflationStalled |})
      else ([], m)
  | _ => ([], m)
  end.
Definition next_deadline (m : MemoryManager) : option Z :=
  match constraint_state m with
  | WaitingForDeflation sent_at => Some (sent_at + DEFLATION_STALL_DEADLINE)
  | _ => None
  end.
Definition handle_oom_kill (count : Z) : GuestEvent := OomKill count.

(** ** The events of the control group ([cgroup.rs]) and the task ([task.rs]) *)
Record MemoryEvents := { low : Z; high : Z; max : Z; oom : Z; oom_kill : Z; oom_group_kill : Z }.
Definition diff (self previous : MemoryEvents) : MemoryEvents :=
  {| low := saturating_sub (low self) (low previous); high := saturating_sub (high self) (high previous);
     max := saturating_sub (max self) (max previous); oom := saturating_sub (oom self) (oom previous);
     oom_kill := saturating_sub (oom_kill self) (oom_kill previous);
     oom_group_kill := saturating_sub (oom_group_kill self) (oom_group_kill previous) |}.

(** One turn of the loop of the task: the future that completed *)
Inductive Wakeup :=
  | Psi (level : PsiLevel)
  | InflationTick (first : Io)
  | MemEvents (diff : MemoryEvents)
  | Balloon (old_pages new_pages : Z)
  | Deadline.
Definition turn (w : Wakeup) (now : Z) (io : Io) (s : MemoryManager * Cgroup) :
    list GuestEvent * (MemoryManager * Cgroup) :=
  let '(m, g) := s in
  match w with
  | Psi level => let '(events, m) := handle_psi_event level now m in (events, (m, g))
  | InflationTick first => tick_inflation first now io m g
  | MemEvents d =>
      let '(events, m) := if 0 <? high d then handle_pressure now m else ([], m) in
      (events ++ (if 0 <? oom_kill d then [handle_oom_kill (oom_kill d)] else []), (m, g))
  | Balloon old_pages new_pages => on_balloon_pages_changed old_pages new_pages io m g
  | Deadline => let '(events, m) := check_deflation_deadline now io m g in (events, (m, g))
  end.

(** ** Configuration ([init.rs]) *)
Record VmMemoryConfig := {
  vmc_vm_mem_mib : Z; zram_size_bytes : Z; tcp_buf_min : Z; tcp_buf_default : Z; tcp_buf_max : Z }.
Definition clamp (v lo hi : Z) : Z := if v <? lo then lo else if hi <? v then hi else v.
Definition from_vm_mem (vm_mem_mib_ : Z) : VmMemoryConfig :=
  let zram_mib := clamp (vm_mem_mib_ / 4) 64 256 in
  {| vmc_vm_mem_mib := vm_mem_mib_; zram_size_bytes := zram_mib * 1024 * 1024; tcp_buf_min := 4096;
     tcp_buf_default := 131072;
     tcp_buf_max := wrap 32 (clamp (vm_mem_mib_ * 1024) (2 * 1024 * 1024) (8 * 1024 * 1024)) |}.

(** The start of the guest ([main.rs]): the limits are set before the task runs. *)
Definition unlimited : Cgroup := {| memory_high := u64_max; memory_max := u64_max |}.
Definition boot (io : Io) (balloon_mib vm_mem_mib_ : Z) : MemoryManager * Cgroup :=
  let '((high_bytes, max_bytes), m) := initial_limits (new balloon_mib vm_mem_mib_) in
  (m, (set_memory_limits io high_bytes max_bytes unlimited).2).

(** ** Runs of the task *)
Record Turn := { t_wakeup : Wakeup; t_now : Z; t_io : Io }.
Definition take_turn (t : Turn) (s : MemoryManager * Cgroup) : list GuestEvent * (MemoryManager * Cgroup) :=
  turn (t_wakeup t) (t_now t) (t_io t) s.
Fixpoint run (ts : list Turn) (s : MemoryManager * Cgroup) : list GuestEvent * (MemoryManager * Cgroup) :=
  match ts with
  | [] => ([], s)
  | t :: ts =>
      let '(events, s) := take_turn t s in
      let '(events', s) := run ts s in
      (events ++ events', s)
  end.
Lemma run_snoc ts t s :
  run (ts ++ [t]) s =
  ((run ts s).1 ++ (take_turn t (run ts s).2).1, (take_turn t (run ts s).2).2).
Proof.
  revert s. induction ts as [|t0 ts IH]; intros s.
  - simpl. destruct (take_turn t s) as [ev s1]. by rewrite app_nil_r.
  - cbn [run app]. destruct (take_turn t0 s) as [ev s1]. rewrite IH. destruct (run ts s1) as [ev1 s2].
    simpl. by rewrite (assoc_L (++)).
Qed.

(** ** What the host is told *)
Definition host_view (view : option ConstraintReason) (event : GuestEvent) : option ConstraintReason :=
  match event with
  | MemoryConstrained reason => Some reason
  | MemoryConstraintCleared => None
  | _ => view
  end.
(** A manager that is constrained is known to be so. *)
Definition told (m : MemoryManager) (view : option ConstraintReason) : Prop :=
  ∀ reason, constraint_state m = Constrained reason → view = Some reason.

Lemma told_pressure now m view :
  told m view → told (handle_pressure now m).2 (foldl host_view view (handle_pressure now m).1).
Proof.
  intros H. unfold handle_pressure, deflate, suppress_inflation, told in *. simpl.
  repeat case_match; simpl in *; naive_solver.
Qed.
Lemma told_psi level now m view :
  told m view → told (handle_psi_event level now m).2 (foldl host_view view (handle_psi_event level now m).1).
Proof.
  intros H. unfold handle_psi_event. destruct level; [exact H|].
  apply (told_pressure now (suppress_inflation now m)). exact H.
Qed.
Lemma told_balloon old_pages new_pages io m g view :
  told m view →
  let r := on_balloon_pages_changed old_pages new_pages io m g in told r.2.1 (foldl host_view view r.1).
Proof.
  intros H. unfold on_balloon_pages_changed, set_memory_limits, check_constraint_cleared, told in *. simpl.
  repeat case_match; simplify_eq/=; naive_solver.
Qed.
Lemma try_inflate_state now io m g :
  constraint_state (try_inflate now io m g).2.1 = constraint_state m ∧
  ∀ view, foldl host_view view (try_inflate now io m g).1 = view.
Proof. unfold try_inflate, set_memory_limits. repeat case_match; simplify_eq/=; done. Qed.
Lemma told_tick first now io m g view :
  told m view →
  let r := tick_inflation first now io m g in told r.2.1 (foldl host_view view r.1).
Proof.
  intros H. unfold tick_inflation. destruct (match constraint_state m with Constrained _ => _ | _ => _ end)
    as [cleared m1] eqn:E. simpl.
  assert (Ht : told m1 (foldl host_view view cleared)).
  { unfold told in *. destruct (constraint_state m) as [| |r] eqn:Es; [| |destruct (is_pressure_resolved first g)];
      injection E as <- <-; simpl; rewrite ?Es; done || apply H. }
  destruct (try_inflate_state now io m1 g) as [Hs Hv]. destruct (try_inflate now io m1 g) as [inflated s]. simpl in *.
  rewrite foldl_app, Hv. unfold told. rewrite Hs. exact Ht.
Qed.
Lemma told_deadline now io m g view :
  told m view →
  told (check_deflation_deadline now io m g).2 (foldl host_view view (check_deflation_deadline now io m g).1).
Proof.
  intros H. unfold check_deflation_deadline, told in *.
  destruct (constraint_state m) as [|sent_at|r] eqn:Es; simpl; [by rewrite Es| |by rewrite Es].
  destruct (_ <=? _); [destruct (is_pressure_resolved io g)|]; simpl; rewrite ?Es; try done.
  by intros reason [= <-].
Qed.
Lemma told_turn t s view :
  told s.1 view → told (take_turn t s).2.1 (foldl host_view view (take_turn t s).1).
Proof.
  destruct s as [m g]. intros H. unfold take_turn, turn. destruct (t_wakeup t) as [level|first|d|op np|].
  - pose proof (told_psi level (t_now t) m view H) as Ht. by destruct (handle_psi_event _ _ _).
  - by apply told_tick.
  - assert (Hq : ∀ v, foldl host_view v (if 0 <? oom_kill d then [handle_oom_kill (oom_kill d)] else []) = v)
      by (intros; by destruct (0 <? _)).
    destruct (0 <? high d).
    + pose proof (told_pressure (t_now t) m view H) as Ht. destruct (handle_pressure _ _). simpl in *.
      by rewrite foldl_app, Hq.
    + simpl. by rewrite Hq.
  - by apply told_balloon.
  - pose proof (told_deadline (t_now t) (t_io t) m g view H) as Ht. by destruct (check_deflation_deadline _ _ _ _).
Qed.

(** A virtual machine that is short of memory says so: after any turns of the memory
    task, with any failures of the files, if the manager is in the constrained state then
    the last constraint event the host was sent says so and gives the same reason. *)
Theorem constraint_reported io0 balloon_mib vm_mem ts reason :
  let '(events, (m, g)) := run ts (boot io0 balloon_mib vm_mem) in
  constraint_state m = Constrained reason → foldl host_view None events = Some reason.
Proof.
  assert (H : told (run ts (boot io0 balloon_mib vm_mem)).2.1
    (foldl host_view None (run ts (boot io0 balloon_mib vm_mem)).1)).
  { induction ts as [|t ts IH] using rev_ind; [done|]. rewrite run_snoc. simpl. rewrite foldl_app. by apply told_turn. }
  destruct (run ts _) as [events [m g]]. exact (H reason).
Qed.

(** ** The limits leave the kernel its memory *)
(** A host that releases at most what it was asked for, and files with unsigned contents *)
Definition polite (t : Turn) (s : MemoryManager * Cgroup) : bool :=
  match io_current (t_io t) with Some current => 0 <=? current | None => true end &&
  match t_wakeup t with
  | Balloon old_pages new_pages =>
      (old_pages <=? new_pages) ||
      (old_pages / VIRTIO_BALLOON_PAGES_PER_MIB - new_pages / VIRTIO_BALLOON_PAGES_PER_MIB
         <=? pending_deflation_mib s.1)
  | _ => true
  end.
Fixpoint all_polite (ts : list Turn) (s : MemoryManager * Cgroup) : bool :=
  match ts with
  | [] => true
  | t :: ts => polite t s && all_polite ts (take_turn t s).2
  end.
(** Inflations of a balloon that was empty *)
Definition reinflated (s s' : MemoryManager * Cgroup) : Z :=
  if (balloon_amount_mib s.1 =? 0) && negb (balloon_amount_mib s'.1 =? 0) then 1 else 0.
Fixpoint reinflations (ts : list Turn) (s : MemoryManager * Cgroup) : Z :=
  match ts with
  | [] => 0
  | t :: ts => reinflated s (take_turn t s).2 + reinflations ts (take_turn t s).2
  end.

Section Limits.
Context (vm_mem : Z).
(** What the containers may use after [k] inflations of an empty balloon *)
Definition budget (k : Z) (m : MemoryManager) : Z :=
  (vm_mem - KERNEL_BUFFER_MIB - balloon_amount_mib m - pending_deflation_mib m) * MIB
    + k * (HIGH_TO_MAX_GAP_MIB * MIB).
Record within (k : Z) (s : MemoryManager * Cgroup) : Prop := {
  wi_balloon : 0 ≤ balloon_amount_mib s.1;
  wi_pending : 0 ≤ pending_deflation_mib s.1;
  wi_step : 0 < step_size_mib s.1 ≤ MAX_STEP_MIB;
  wi_limits : current_cgroup_high s.1 ≤ budget k s.1 ∧ current_cgroup_max s.1 ≤ budget k s.1 ∧
              memory_high s.2 ≤ budget k s.1 ∧ memory_max s.2 ≤ budget k s.1;
  wi_gap : balloon_amount_mib s.1 ≠ 0 →
           current_cgroup_high s.1 ≤ budget k s.1 - HIGH_TO_MAX_GAP_MIB * MIB ∧
           memory_high s.2 ≤ budget k s.1 - HIGH_TO_MAX_GAP_MIB * MIB;
}.
Ltac limits :=
  unfold budget, INFLATION_HEADROOM_BYTES, KERNEL_BUFFER_MIB, HIGH_TO_MAX_GAP_MIB, MIB, MAX_STEP_MIB, INITIAL_STEP_MIB,
    INFLATION_STEP_MIB, VIRTIO_BALLOON_PAGES_PER_MIB, u64_saturating_add,
    saturating_sub, u64_max in *;
  cbn [balloon_amount_mib pending_deflation_mib step_size_mib current_cgroup_high current_cgroup_max
       memory_high memory_max fst snd] in *.

(** Only these fields matter. *)
Lemma within_ext k m m' g :
  within k (m, g) → balloon_amount_mib m' = balloon_amount_mib m →
  pending_deflation_mib m' = pending_deflation_mib m → step_size_mib m' = step_size_mib m →
  current_cgroup_high m' = current_cgroup_high m → current_cgroup_max m' = current_cgroup_max m →
  within k (m', g).
Proof.
  intros [H1 H2 H3 H4 H5] E1 E2 E3 E4 E5. split; unfold budget in *; simpl in *; rewrite ?E1, ?E2, ?E3, ?E4, ?E5; done.
Qed.
Lemma wrap32_le x : 0 ≤ x → 0 ≤ wrap 32 x ≤ x.
Proof. intros Hx. unfold wrap. split; [apply Z.mod_pos_bound; lia|apply Z.mod_le; lia]. Qed.

Lemma within_deflate k now m g step :
  within k (m, g) → 0 < step ≤ MAX_STEP_MIB →
  within k ((deflate now {| m with step_size_mib := step |}).2, g).
Proof.
  intros [H1 H2 H3 H4 H5] Hs. unfold deflate, u32_add in *.
  pose proof (wrap32_le (pending_deflation_mib m + Z.min step (balloon_amount_mib m))) as Hw.
  split; limits; lia.
Qed.
Lemma within_pressure k now m g : within k (m, g) → within k ((handle_pressure now m).2, g).
Proof.
  intros H. unfold handle_pressure. set (m1 := suppress_inflation now m).
  assert (H1 : within k (m1, g)) by (by apply within_ext with m).
  destruct (_ =? 0).
  { destruct (negb _); simpl; [by apply within_ext with m1|done]. }
  destruct (_ <=? _); [done|]. destruct (0 <? _) eqn:E.
  - apply within_deflate; [done|]. pose proof (wi_step _ _ H1) as Hs. cbn [fst] in Hs.
    unfold wrap. rewrite Z.mod_small; unfold MAX_STEP_MIB in *; lia.
  - by apply within_deflate.
Qed.
Lemma pressure_keeps now m :
  balloon_amount_mib m = 0 → balloon_amount_mib (handle_pressure now m).2 = 0.
Proof. intros Hb. unfold handle_pressure. simpl. rewrite Hb. simpl. by destruct (negb _). Qed.

Lemma within_balloon k old_pages new_pages io m g :
  within k (m, g) →
  old_pages ≤ new_pages ∨
    old_pages / VIRTIO_BALLOON_PAGES_PER_MIB - new_pages / VIRTIO_BALLOON_PAGES_PER_MIB ≤ pending_deflation_mib m →
  let r := on_balloon_pages_changed old_pages new_pages io m g in
  within k r.2 ∧ balloon_amount_mib r.2.1 = balloon_amount_mib m.
Proof.
  intros [H1 H2 H3 H4 H5] Hp. unfold on_balloon_pages_changed.
  destruct (new_pages <? old_pages) eqn:E; [|by split].
  set (rel := saturating_sub (old_pages / VIRTIO_BALLOON_PAGES_PER_MIB) (new_pages / VIRTIO_BALLOON_PAGES_PER_MIB)).
  assert (Hrel : 0 ≤ rel ≤ pending_deflation_mib m).
  { unfold rel, saturating_sub. apply Z.ltb_lt in E. limits. lia. }
  clearbody rel. clear Hp E.
  assert (Hm : ∀ m1 g1 hi ma, hi = (if balloon_amount_mib m =? 0 then ma
        else u64_saturating_add (current_cgroup_high m) (rel * MIB)) →
      ma = u64_saturating_add (current_cgroup_max m) (rel * MIB) →
      balloon_amount_mib m1 = balloon_amount_mib m → step_size_mib m1 = step_size_mib m →
      pending_deflation_mib m1 = saturating_sub (pending_deflation_mib m) rel →
      (current_cgroup_high m1 = hi ∨ current_cgroup_high m1 = current_cgroup_high m) →
      (current_cgroup_max m1 = ma ∨ current_cgroup_max m1 = current_cgroup_max m) →
      (memory_high g1 = hi ∨ memory_high g1 = memory_high g) →
      (memory_max g1 = ma ∨ memory_max g1 = memory_max g) → within k (m1, g1)).
  { intros m1 g1 hi ma Ehi Ema E1 E2 E3 E4 E5 E6 E7. split; limits; rewrite ?E1, ?E2, ?E3 in *; try lia.
    - destruct (Z.eqb_spec (balloon_amount_mib m) 0); lia.
    - intros Hb. specialize (H5 Hb). rewrite (proj2 (Z.eqb_neq _ _)) in Ehi by done. lia. }
  unfold set_memory_limits, check_constraint_cleared.
  destruct (io_max_writable io); [destruct (io_high_writable io)|]; simpl;
    repeat case_match; simplify_eq/=; (split; [eapply Hm; [reflexivity|reflexivity|..]; simpl; tauto|done]).
Qed.

(** What [try_inflate] does when it inflates *)
Lemma try_inflate_cases now io m g :
  let r := try_inflate now io m g in
  (r.1 = [] ∧ (∃ streak, r.2.1 = {| m with low_usage_streak := streak |}) ∧
     memory_high r.2.2 = memory_high g ∧
     (memory_max r.2.2 = memory_max g ∨
      ∃ current, io_current io = Some current ∧
        u64_saturating_add current INFLATION_HEADROOM_BYTES ≤ saturating_sub (memory_high g) (INFLATION_STEP_MIB * MIB) ∧
        memory_max r.2.2 = u64_saturating_add (saturating_sub (memory_high g) (INFLATION_STEP_MIB * MIB))
                             (HIGH_TO_MAX_GAP_MIB * MIB))) ∨
  (∃ current,
     io_current io = Some current ∧ pending_deflation_mib m ≤ 0 ∧
     (∀ u, inflation_suppressed_until m = Some u → u ≤ now) ∧
     u64_saturating_add current INFLATION_HEADROOM_BYTES ≤ memory_high r.2.2 ∧
     memory_high r.2.2 = saturating_sub (memory_high g) (INFLATION_STEP_MIB * MIB) ∧
     memory_max r.2.2 = u64_saturating_add (memory_high r.2.2) (HIGH_TO_MAX_GAP_MIB * MIB) ∧
     r.1 = [BalloonSet (u32_add (balloon_amount_mib m) INFLATION_STEP_MIB)] ∧
     r.2.1 = {| m with current_cgroup_high := memory_high r.2.2; current_cgroup_max := memory_max r.2.2;
                       balloon_amount_mib := u32_add (balloon_amount_mib m) INFLATION_STEP_MIB;
                       low_usage_streak := 0 |}).
Proof.
  unfold try_inflate, read_high, set_memory_limits. destruct m. simpl.
  destruct (0 <? _) eqn:Ep; [left; split_and!; eauto|].
  destruct (match _ with Some until => now <? until | None => false end) eqn:Es; [left; split_and!; eauto|].
  destruct (io_current io) as [current|]; [|left; split_and!; eauto].
  destruct (io_high_readable io); [|left; split_and!; eauto].
  destruct (memory_high g =? u64_max); [left; split_and!; eauto|].
  destruct (negb _); [left; split_and!; eauto|]. simpl.
  destruct (_ <? INFLATION_STREAK_REQUIRED); [left; split_and!; eauto|].
  destruct (_ <? u64_saturating_add _ _) eqn:Eh; [left; split_and!; eauto|]. apply Z.ltb_ge in Eh.
  destruct (io_max_writable io); [|left; split_and!; eauto].
  destruct (io_high_writable io); simpl.
  - right. exists current. split_and!; try done; [lia|].
    intros u ->. by apply Z.ltb_ge in Es.
  - left. split_and!; eauto 10.
Qed.

Lemma within_tick k first now io m g :
  within k (m, g) → match io_current io with Some current => 0 ≤ current | None => True end →
  let r := tick_inflation first now io m g in within (k + reinflated (m, g) r.2) r.2.
Proof.
  intros H Hio. unfold tick_inflation.
  destruct (match constraint_state m with Constrained _ => _ | _ => _ end) as [cleared m1] eqn:E.
  assert (Hsame : within k (m1, g) ∧ balloon_amount_mib m1 = balloon_amount_mib m).
  { destruct (constraint_state m); [| |destruct (is_pressure_resolved first g)]; injection E as <- <-; split; try done.
    by apply within_ext with m. }
  clear E. destruct Hsame as [H1 Eb].
  replace (reinflated (m, g)) with (reinflated (m1, g)) by (unfold reinflated; simpl; by rewrite Eb).
  pose proof (try_inflate_cases now io m1 g) as Hc. destruct (try_inflate now io m1 g) as [inflated [m2 g2]].
  simpl in *. destruct Hc as [(_ & [streak ->] & Hh & Hmax)|(current & Hcur & Hpe & _ & Hroom & Hh & Hmax & _ & ->)].
  - unfold reinflated. simpl. rewrite andb_negb_r. rewrite Z.add_0_r. destruct H1 as [W1 W2 W3 W4 W5].
    split; limits; rewrite ?Hh; try done.
    destruct Hmax as [->|(current & Hcur & Hroom & ->)]; [done|]. rewrite Hcur in Hio. lia.
  - rewrite Hcur in Hio. destruct H1 as [W1 W2 W3 W4 W5]. unfold reinflated. cbn [fst balloon_amount_mib].
    pose proof (wrap32_le (balloon_amount_mib m1 + INFLATION_STEP_MIB)) as Hw. unfold u32_add in *.
    assert (Hz : balloon_amount_mib m1 = 0 → wrap 32 (balloon_amount_mib m1 + INFLATION_STEP_MIB) = 16)
      by (intros ->; reflexivity).
    destruct (Z.eqb_spec (balloon_amount_mib m1) 0) as [Hb|Hb].
    + rewrite (Hz Hb) in *. simpl. split; limits; lia.
    + simpl. rewrite Z.add_0_r. split; limits; lia.
Qed.

Lemma reinflated_same s s' : balloon_amount_mib s.1 = 0 → balloon_amount_mib s'.1 = 0 → reinflated s s' = 0.
Proof. intros H1 H2. unfold reinflated. by rewrite H1, H2. Qed.
Lemma reinflated_keep s s' : balloon_amount_mib s'.1 = balloon_amount_mib s.1 → reinflated s s' = 0.
Proof. intros H. unfold reinflated. rewrite H. by rewrite andb_negb_r. Qed.
Lemma reinflated_pressure now m g g' : reinflated (m, g) ((handle_pressure now m).2, g') = 0.
Proof.
  unfold reinflated. cbn [fst]. destruct (Z.eqb_spec (balloon_amount_mib m) 0) as [E|E]; [|done].
  by rewrite (pressure_keeps now m E).
Qed.

Lemma within_turn k t s :
  within k s → polite t s = true → within (k + reinflated s (take_turn t s).2) (take_turn t s).2.
Proof.
  destruct s as [m g]. intros H Hp. unfold polite in Hp. apply andb_true_iff in Hp as [Hio Hp].
  unfold take_turn, turn. destruct (t_wakeup t) as [level|first|d|old_pages new_pages|].
  - unfold handle_psi_event. destruct level.
    + simpl. rewrite reinflated_keep, Z.add_0_r by done. by apply within_ext with m.
    + pose proof (within_pressure k (t_now t) (suppress_inflation (t_now t) m) g) as Hw.
      pose proof (reinflated_pressure (t_now t) (suppress_inflation (t_now t) m) g g) as Hr.
      destruct (handle_pressure _ _) as [ev m1]. simpl in *.
      change (reinflated (m, g) (m1, g)) with (reinflated (suppress_inflation (t_now t) m, g) (m1, g)).
      rewrite Hr, Z.add_0_r. apply Hw. by apply within_ext with m.
  - apply within_tick; [done|]. destruct (io_current (t_io t)); [by apply Z.leb_le|done].
  - destruct (0 <? high d).
    + pose proof (within_pressure k (t_now t) m g H) as Hw. pose proof (reinflated_pressure (t_now t) m g g) as Hr.
      destruct (handle_pressure _ _) as [ev m1]. simpl in *. by rewrite Hr, Z.add_0_r.
    + simpl. by rewrite reinflated_keep, Z.add_0_r.
  - destruct (within_balloon k old_pages new_pages (t_io t) m g H) as [Hw Hb].
    + apply orb_true_iff in Hp as [Hp|Hp]; apply Z.leb_le in Hp; [by left|by right].
    + rewrite reinflated_keep, Z.add_0_r; done.
  - unfold check_deflation_deadline.
    destruct (constraint_state m); try destruct (_ <=? _); try destruct (is_pressure_resolved _ _); simpl;
      rewrite reinflated_keep, Z.add_0_r by done; try done; by apply within_ext with m.
Qed.

Lemma within_run ts k s :
  within k s → all_polite ts s = true → within (k + reinflations ts s) (run ts s).2.
Proof.
  revert k s. induction ts as [|t ts IH]; intros k s H Hp; [by rewrite Z.add_0_r|]. cbn [run all_polite reinflations] in *.
  apply andb_true_iff in Hp as [Hp Hps]. pose proof (within_turn k t s H Hp) as Hw.
  destruct (take_turn t s) as [ev s1]. simpl in *. specialize (IH _ _ Hw Hps).
  destruct (run ts s1) as [ev1 s2]. simpl in *. by rewrite Z.add_assoc.
Qed.

Lemma within_boot io balloon_mib :
  io_max_writable io = true → io_high_writable io = true →
  0 ≤ balloon_mib → balloon_mib + KERNEL_BUFFER_MIB + HIGH_TO_MAX_GAP_MIB ≤ vm_mem →
  within 0 (boot io balloon_mib vm_mem).
Proof.
  intros E1 E2 Hb Hv. unfold boot, initial_limits, set_memory_limits, new. rewrite E1, E2. simpl.
  split; limits; lia.
Qed.
End Limits.


(** ** Inflation waits *)
Definition pressure_at (t : Turn) : option Z :=
  match t_wakeup t with
  | Psi _ => Some (t_now t)
  | MemEvents d => if 0 <? high d then Some (t_now t) else None
  | _ => None
  end.
Definition last_pressure (ts : list Turn) : option Z := last (omap pressure_at ts).

Lemma suppressed_turn t s :
  inflation_suppressed_until (take_turn t s).2.1 =
  match pressure_at t with
  | Some now => Some (now + INFLATION_COOLDOWN)
  | None => inflation_suppressed_until s.1
  end.
Proof.
  destruct s as [m g]. unfold take_turn, turn, pressure_at.
  assert (Hpr : ∀ now m, inflation_suppressed_until (handle_pressure now m).2 = Some (now + INFLATION_COOLDOWN)).
  { intros now m0. unfold handle_pressure, deflate. repeat case_match; done. }
  destruct (t_wakeup t) as [level|first|d|op np|].
  - unfold handle_psi_event. destruct level; [done|].
    specialize (Hpr (t_now t) (suppress_inflation (t_now t) m)). by destruct (handle_pressure _ _).
  - unfold tick_inflation.
    destruct (match constraint_state m with Constrained _ => _ | _ => _ end) as [cleared m1] eqn:E.
    assert (Em : inflation_suppressed_until m1 = inflation_suppressed_until m).
    { destruct (constraint_state m); [| |destruct (is_pressure_resolved first g)]; by injection E as <- <-. }
    pose proof (try_inflate_cases (t_now t) (t_io t) m1 g) as Hc. destruct (try_inflate _ _ m1 g) as [ev [m2 g2]].
    simpl in *. by destruct Hc as [(_ & [streak ->] & _)|(c & _ & _ & _ & _ & _ & _ & _ & ->)].
  - specialize (Hpr (t_now t) m). destruct (0 <? high d); [|done]. by destruct (handle_pressure _ _).
  - unfold on_balloon_pages_changed, set_memory_limits, check_constraint_cleared. repeat case_match; simplify_eq/=; done.
  - unfold check_deflation_deadline.
    destruct (constraint_state m); try destruct (_ <=? _); try destruct (is_pressure_resolved _ _); done.
Qed.
Lemma suppressed_run ts s :
  inflation_suppressed_until s.1 = None →
  inflation_suppressed_until (run ts s).2.1 = (λ now, now + INFLATION_COOLDOWN) <$> last_pressure ts.
Proof.
  intros Hs. induction ts as [|t ts IH] using rev_ind; [done|]. rewrite run_snoc. cbn [snd].
  rewrite suppressed_turn, IH. unfold last_pressure. rewrite omap_app. simpl.
  destruct (pressure_at t); [by rewrite last_snoc|by rewrite app_nil_r].
Qed.

Lemma pressure_balloon now m :
  0 ≤ balloon_amount_mib m →
  0 ≤ balloon_amount_mib (handle_pressure now m).2 ≤ balloon_amount_mib m ∧
  ∀ amount, BalloonSet amount ∈ (handle_pressure now m).1 → amount ≤ balloon_amount_mib m.
Proof.
  intros Hb. unfold handle_pressure, deflate. simpl.
  pose proof (wrap32_le (step_size_mib m * 2)) as Hw. pose proof (Z.mod_pos_bound (step_size_mib m * 2) (2 ^ 32) eq_refl).
  unfold wrap, MAX_STEP_MIB, INITIAL_STEP_MIB in *.
  repeat case_match; simpl; (split; [lia|]); intros amount Hin; repeat (apply elem_of_cons in Hin as [Hin|Hin]);
    try (by apply not_elem_of_nil in Hin); simplify_eq; lia.
Qed.
(** A turn that asks for a bigger balloon *)
Lemma turn_balloon t s :
  0 ≤ balloon_amount_mib s.1 →
  0 ≤ balloon_amount_mib (take_turn t s).2.1 ∧
  ∀ amount, BalloonSet amount ∈ (take_turn t s).1 → balloon_amount_mib s.1 < amount →
    pending_deflation_mib s.1 ≤ 0 ∧
    (∀ u, inflation_suppressed_until s.1 = Some u → u ≤ t_now t) ∧
    ∃ current, io_current (t_io t) = Some current ∧
      Z.min u64_max (current + INFLATION_HEADROOM_BYTES) ≤ memory_high (take_turn t s).2.2.
Proof.
  destruct s as [m g]. cbn [fst]. intros Hb. unfold take_turn, turn.
  destruct (t_wakeup t) as [level|first|d|old_pages new_pages|].
  - unfold handle_psi_event. destruct level; [simpl; split; [done|]; set_solver|].
    destruct (pressure_balloon (t_now t) (suppress_inflation (t_now t) m) Hb) as [H1 H2].
    destruct (handle_pressure _ _) as [ev m1]. simpl in *. split; [lia|]. intros amount Hin. apply H2 in Hin. lia.
  - unfold tick_inflation.
    destruct (match constraint_state m with Constrained _ => _ | _ => _ end) as [cleared m1] eqn:E.
    assert (Em : balloon_amount_mib m1 = balloon_amount_mib m ∧ pending_deflation_mib m1 = pending_deflation_mib m ∧
      inflation_suppressed_until m1 = inflation_suppressed_until m ∧ ∀ amount, BalloonSet amount ∉ cleared).
    { destruct (constraint_state m); [| |destruct (is_pressure_resolved first g)]; injection E as <- <-; set_solver. }
    destruct Em as (E1 & E2 & E3 & E4).
    pose proof (try_inflate_cases (t_now t) (t_io t) m1 g) as Hc. destruct (try_inflate _ _ m1 g) as [ev [m2 g2]].
    simpl in *. destruct Hc as [(-> & [streak ->] & _)|(c & Hcur & Hp & Hu & Hr & _ & _ & -> & ->)]; simpl.
    + split; [lia|]. intros amount Hin. rewrite app_nil_r in Hin. by apply E4 in Hin.
    + split; [unfold u32_add; apply wrap32_le; unfold INFLATION_STEP_MIB; lia|].
      intros amount _ _. rewrite <- E2, <- E3. split_and!; [done|done|]. by exists c.
  - assert (Hoom : ∀ amount, BalloonSet amount ∉ (if 0 <? oom_kill d then [handle_oom_kill (oom_kill d)] else [])).
    { intros amount. destruct (0 <? _); [|by apply not_elem_of_nil]. unfold handle_oom_kill. set_solver. }
    destruct (0 <? high d); [|simpl; split; [done|]; intros amount Hin; by apply Hoom in Hin].
    destruct (pressure_balloon (t_now t) m Hb) as [H1 H2]. destruct (handle_pressure _ _) as [ev m1]. simpl in *.
    split; [lia|]. intros amount Hin. apply elem_of_app in Hin as [Hin|Hin]; [apply H2 in Hin; lia|by apply Hoom in Hin].
  - unfold on_balloon_pages_changed, set_memory_limits, check_constraint_cleared.
    repeat case_match; simplify_eq/=; (split; [done|]); intros amount Hin;
      repeat (apply elem_of_cons in Hin as [Hin|Hin]; [done|]); by apply not_elem_of_nil in Hin.
  - unfold check_deflation_deadline.
    destruct (constraint_state m); try destruct (_ <=? _); try destruct (is_pressure_resolved _ _); simpl;
      (split; [done|]); intros amount Hin; repeat (apply elem_of_cons in Hin as [Hin|Hin]; [done|]);
      by apply not_elem_of_nil in Hin.
Qed.
Lemma balloon_nonneg ts s : 0 ≤ balloon_amount_mib s.1 → 0 ≤ balloon_amount_mib (run ts s).2.1.
Proof.
  intros Hs. induction ts as [|t ts IH] using rev_ind; [done|]. rewrite run_snoc. by apply turn_balloon.
Qed.

(** C19: memory is taken back only when it is safe: a turn of the memory task, after any
    others, that asks for a bigger balloon is one at which no deflation is under way, at
    least 60 seconds after the last sign of memory pressure, and the soft limit it has set
    is at least 8 MiB above the memory the containers use. *)
Theorem inflation_is_safe io0 balloon_mib vm_mem ts t amount :
  0 ≤ balloon_mib →
  let s := (run ts (boot io0 balloon_mib vm_mem)).2 in
  let '(events, (_, g)) := take_turn t s in
  BalloonSet amount ∈ events → balloon_amount_mib s.1 < amount →
  pending_deflation_mib s.1 ≤ 0 ∧
  (∀ now, last_pressure ts = Some now → now + INFLATION_COOLDOWN ≤ t_now t) ∧
  ∃ current, io_current (t_io t) = Some current ∧
    Z.min u64_max (current + INFLATION_HEADROOM_BYTES) ≤ memory_high g.
Proof.
  intros Hb s. pose proof (suppressed_run ts (boot io0 balloon_mib vm_mem) eq_refl) as Hsup. fold s in Hsup.
  destruct (turn_balloon t s) as [_ H]; [by apply balloon_nonneg|].
  destruct (take_turn t s) as [events [m g]]. intros Hin Hlt. destruct (H amount Hin Hlt) as (H1 & H2 & H3).
  split_and!; [done| |done]. intros now Hl. apply H2. by rewrite Hsup, Hl.
Qed.

(** ** Concrete runs *)
Definition io_ok (current : Z) : Io :=
  {| io_current := Some current; io_high_readable := true; io_max_writable := true; io_high_writable := true |}.
Definition breach : MemoryEvents := {| low := 0; high := 1; max := 0; oom := 0; oom_kill := 0; oom_group_kill := 0 |}.
Definition sec (n : Z) : Z := from_secs n.
Definition at_ (n : Z) (w : Wakeup) : Turn := {| t_wakeup := w; t_now := sec n; t_io := io_ok (20 * MIB) |}.
Definition ticks (n : Z) : list Turn := (λ i, at_ (n + 5 * i) (InflationTick (io_ok (20 * MIB)))) <$> [0; 1; 2; 3].
(** A machine with 512 MiB and a balloon of 16 MiB: the balloon is emptied under pressure
    and inflated again when little memory is used. *)
Definition cycle (n : Z) : list Turn := at_ n (MemEvents breach) :: at_ (n + 1) (Balloon 4096 0) :: ticks (n + 61).

(** Every such cycle moves 4 MiB from the kernel to the containers: the gap is closed when
    the balloon is empty and added again when it is inflated. *)
Example cycles_take_kernel_memory :
  let s := boot (io_ok 0) 16 512 in
  let after n := (run (mjoin (cycle <$> n)) s).2 in
  (λ n, (balloon_amount_mib (after n).1, memory_max (after n).2 / MIB)) <$> [[]; [0]; [0; 100]; [0; 100; 200]]
  = [(16, 432); (16, 436); (16, 440); (16, 444)].
Proof. by vm_compute. Qed.

Definition stalled : list Turn :=
  [at_ 0 (MemEvents breach); {| t_wakeup := Deadline; t_now := sec 2; t_io := io_ok (900 * MIB) |};
   {| t_wakeup := Balloon 16384 14336; t_now := sec 3; t_io := io_ok (900 * MIB) |}].
Lemma constraint_reported_witness :
  let '(events, (m, g)) := run stalled (boot (io_ok 0) 64 512) in
  constraint_state m = Constrained DeflationStalled ∧ foldl host_view None events = Some DeflationStalled.
Proof.
  pose proof (constraint_reported (io_ok 0) 64 512 stalled DeflationStalled) as H.
  assert (Hs : constraint_state (run stalled (boot (io_ok 0) 64 512)).2.1 = Constrained DeflationStalled)
    by (vm_compute; reflexivity).
  destruct (run stalled (boot (io_ok 0) 64 512)) as [events [m g]]. split; [exact Hs|exact (H Hs)].
Defined.
(** When pressure continues after a stall, the constraint is left without a word to the
    host, who is never told that it has cleared. *)
Example constraint_never_cleared :
  let '(events, (m, _)) :=
    run (stalled ++ [at_ 4 (MemEvents breach); at_ 5 (Balloon 14336 0)]) (boot (io_ok 0) 64 512) in
  constraint_state m = Normal ∧ foldl host_view None events = Some DeflationStalled.
Proof. by vm_compute. Qed.

Lemma inflation_is_safe_witness :
  let s := (run (take 5 (cycle 0)) (boot (io_ok 0) 16 512)).2 in
  let t := at_ 76 (InflationTick (io_ok (20 * MIB))) in
  let '(events, (_, g)) := take_turn t s in
  BalloonSet 16 ∈ events ∧ pending_deflation_mib s.1 ≤ 0 ∧
  (∀ now, last_pressure (take 5 (cycle 0)) = Some now → now + INFLATION_COOLDOWN ≤ t_now t) ∧
  ∃ current, io_current (t_io t) = Some current ∧ Z.min u64_max (current + INFLATION_HEADROOM_BYTES) ≤ memory_high g.
Proof.
  pose proof (inflation_is_safe (io_ok 0) 16 512 (take 5 (cycle 0)) (at_ 76 (InflationTick (io_ok (20 * MIB)))) 16
    ltac:(lia)) as H.
  assert (He : (take_turn (at_ 76 (InflationTick (io_ok (20 * MIB)))) (run (take 5 (cycle 0)) (boot (io_ok 0) 16 512)).2).1
    = [BalloonSet 16]) by (vm_compute; reflexivity).
  assert (Hl : balloon_amount_mib (run (take 5 (cycle 0)) (boot (io_ok 0) 16 512)).2.1 < 16)
    by (vm_compute; reflexivity).
  cbv zeta in *. destruct (take_turn _ _) as [events [m g]]. cbn [fst] in He. rewrite He in *.
  assert (Hin : BalloonSet 16 ∈ [BalloonSet 16]) by (apply elem_of_cons; left; reflexivity).
  split; [exact Hin|]. exact (H Hin Hl).
Defined.
End Memory.
