(* ===== verification/UntypedVec.v ===== *)
(** * The type-erased vector ([crates/untyped-vec/src/lib.rs])

    A buffer of raw memory that is viewed as a vector of one type after another.  The code
    is unsafe: it allocates, reads and writes through pointers.  The model makes the
    contracts of these operations explicit.  Memory is a heap of blocks, each with the layout
    it was allocated with; a byte is uninitialised or a fragment of a value; an operation
    whose contract is broken is [UB].  The allocator is an interface: it says whether it
    grants a request, and it grants none beyond the address space.

    A type is its size, its alignment and whether its values have a destructor; values of
    all types are of one type [V].  [dropped] records the values whose destructor ran. *)

From S2P Require Import Prelude.

Module UntypedVec.

(** ** Memory *)
Definition usize_max : Z := 2 ^ 64 - 1.
Definition isize_max : Z := 2 ^ 63 - 1.
Record Layout := { l_size : Z; l_align : Z }.
Definition is_power_of_two (z : Z) : bool := (0 <? z) && (2 ^ Z.log2 z =? z).
(** [Layout::from_size_align]: the size rounded up to the alignment must not exceed [isize::MAX]. *)
Definition from_size_align (size align : Z) : option Layout :=
  if is_power_of_two align && (size <=? 2 ^ 63 - align) then Some {| l_size := size; l_align := align |} else None.
Definition checked_next_power_of_two (n : Z) : option Z :=
  let p := 2 ^ Z.log2_up n in if p <=? usize_max then Some p else None.
Definition checked_add (a b : Z) : option Z := if a + b <=? usize_max then Some (a + b) else None.
Definition checked_mul (a b : Z) : option Z := if a * b <=? usize_max then Some (a * b) else None.
Definition saturating_mul (a b : Z) : Z := Z.min (a * b) usize_max.

(** Whether the allocator grants a request depends on how many came before it. *)
Class Allocator := {
  grants : nat → Layout → bool;
  grants_addressable : ∀ n l, grants n l = true → l_size l ≤ 2 ^ 47 }.

Section Memory.
Context {V : Type}.
Definition cell : Type := option (V * nat).
Record Block := { b_layout : Layout; b_data : list cell }.
Record Mach := { heap : gmap nat Block; next : nat; dropped : list V }.
Definition with_heap (h : gmap nat Block) (m : Mach) : Mach :=
  {| heap := h; next := next m; dropped := dropped m |}.

(** [UB] is undefined behaviour; [Abort] is [handle_alloc_error]. *)
Inductive Outcome (A : Type) := Ok (a : A) (m : Mach) | Panic | Abort | UB.
Arguments Ok {A}. Arguments Panic {A}. Arguments Abort {A}. Arguments UB {A}.
Definition op (A : Type) : Type := Mach → Outcome A.
Definition ret {A} (a : A) : op A := λ m, Ok a m.
Definition bind {A B} (x : op A) (f : A → op B) : op B :=
  λ m, match x m with Ok a m => f a m | Panic => Panic | Abort => Abort | UB => UB end.
Definition expect {A} (o : option A) : op A := λ m, match o with Some a => Ok a m | None => Panic end.
Definition assert (b : bool) : op unit := λ m, if b then Ok () m else Panic.
(** The precondition of an unsafe operation *)
Definition requires (b : bool) : op unit := λ m, if b then Ok () m else UB.
Definition handle_alloc_error {A} : op A := λ _, Abort.
End Memory.
Arguments Outcome : clear implicits.
Arguments Ok {V A}. Arguments Panic {V A}. Arguments Abort {V A}. Arguments UB {V A}.
Arguments op : clear implicits.
Arguments Mach : clear implicits.
Arguments Block : clear implicits.
Arguments cell : clear implicits.
Declare Scope op_scope.
Delimit Scope op_scope with op.
Notation "x <- e ;; f" := (bind e (λ x, f)) (at level 100, e at next level, right associativity) : op_scope.
Notation "e ;; f" := (bind e (λ _, f)) (at level 100, right associativity) : op_scope.
#[local] Open Scope op_scope.

Section Vec.
Context {V : Type} `{EqDecision V, Allocator}.
Implicit Types (m : Mach V).

Definition uninit (n : Z) : list (cell V) := replicate (Z.to_nat n) None.
Definition fragments (size : Z) (v : V) : list (cell V) := (λ i, Some (v, i)) <$> seq 0 (Z.to_nat size).

(** [alloc::alloc]: the layout must not be empty. *)
Definition alloc (l : Layout) : op V (option nat) := λ m,
  if l_size l <=? 0 then UB
  else if grants (next m) l
  then Ok (Some (next m))
         {| heap := <[next m := {| b_layout := l; b_data := uninit (l_size l) |}]> (heap m);
            next := S (next m); dropped := dropped m |}
  else Ok None {| heap := heap m; next := S (next m); dropped := dropped m |}.
(** The block must be live and of this layout. *)
Definition has_layout (b : Block V) (l : Layout) : bool :=
  (l_size (b_layout b) =? l_size l) && (l_align (b_layout b) =? l_align l).
Definition dealloc (p : nat) (l : Layout) : op V unit := λ m,
  match heap m !! p with
  | Some b => if has_layout b l then Ok () (with_heap (delete p (heap m)) m) else UB
  | None => UB
  end.
(** [alloc::realloc]: the new size must not be zero, nor exceed [isize::MAX] when it is
    rounded up to the alignment.  The common part of the contents is kept. *)
Definition realloc (p : nat) (l : Layout) (new_size : Z) : op V (option nat) := λ m,
  match heap m !! p with
  | Some b =>
      if has_layout b l && (0 <? new_size) && (new_size <=? 2 ^ 63 - l_align l) then
        let l' := {| l_size := new_size; l_align := l_align l |} in
        if grants (next m) l' then
          let kept := take (Z.to_nat new_size) (b_data b) in
          Ok (Some (next m))
            {| heap := <[next m := {| b_layout := l'; b_data := kept ++ uninit (new_size - Z.of_nat (length kept)) |}]>
                         (delete p (heap m));
               next := S (next m); dropped := dropped m |}
        else Ok None {| heap := heap m; next := S (next m); dropped := dropped m |}
      else UB
  | None => UB
  end.
(** [ptr::write] of a value of [size] bytes at an offset: in bounds and aligned. *)
Definition in_bounds (b : Block V) (off size align : Z) : bool :=
  (0 <=? off) && (off + size <=? l_size (b_layout b)) && (off mod align =? 0) && (l_align (b_layout b) mod align =? 0).
Definition write (p : nat) (off size align : Z) (v : V) : op V unit := λ m,
  match heap m !! p with
  | Some b =>
      if in_bounds b off size align then
        let data := take (Z.to_nat off) (b_data b) ++ fragments size v ++ drop (Z.to_nat (off + size)) (b_data b) in
        Ok () (with_heap (<[p := {| b_layout := b_layout b; b_data := data |}]> (heap m)) m)
      else UB
  | None => UB
  end.
(** [ptr::read]: the bytes must be those of one value. *)
Definition value_of (size : Z) (l : list (cell V)) : option V :=
  match l with
  | Some (v, _) :: _ => if decide (l = fragments size v) then Some v else None
  | _ => None
  end.
Definition bytes_at (b : Block V) (off size : Z) : list (cell V) :=
  take (Z.to_nat size) (drop (Z.to_nat off) (b_data b)).
Definition read (p : nat) (off size align : Z) : op V V := λ m,
  match heap m !! p with
  | Some b =>
      if in_bounds b off size align
      then match value_of size (bytes_at b off size) with Some v => Ok v m | None => UB end
      else UB
  | None => UB
  end.
(** The destructor of a value *)
Definition run_drop (v : V) : op V unit := λ m,
  Ok () {| heap := heap m; next := next m; dropped := dropped m ++ [v] |}.

(** ** Types *)
(** [ty_unit] is the one value of a type of size zero. *)
Record Ty := { ty_size : Z; ty_align : Z; needs_drop : bool; ty_unit : V }.
Definition ty_ok (T : Ty) : Prop :=
  is_power_of_two (ty_align T) = true ∧ ty_align T ≤ 2 ^ 29 ∧ 0 ≤ ty_size T ≤ isize_max ∧
  ty_size T mod ty_align T = 0.

(** ** [UntypedVec] *)
(** [ptr] is [None] where the source has a dangling pointer. *)
Record UntypedVec := { ptr : option nat; cap_bytes : Z; align : Z }.
Definition new : UntypedVec := {| ptr := None; cap_bytes := 0; align := 1 |}.
(** A use of the pointer as one into an allocation *)
Definition allocated (u : UntypedVec) : op V nat :=
  λ m, match ptr u with Some p => Ok p m | None => UB end.
Definition non_null (p : option nat) : op V nat := λ m, match p with Some p => Ok p m | None => Abort end.

Definition with_capacity (cap align : Z) : op V UntypedVec :=
  assert (is_power_of_two align);;
  if cap =? 0 then ret {| ptr := None; cap_bytes := 0; align := align |}
  else
    layout <- expect (from_size_align cap align);;
    p <- alloc layout;;
    p <- non_null p;;
    ret {| ptr := Some p; cap_bytes := cap; align := align |}.
Definition upgrade_alignment (u : UntypedVec) (new_align : Z) : op V UntypedVec :=
  assert (align u <? new_align);;
  assert (is_power_of_two new_align);;
  u <- (if 0 <? cap_bytes u then
          old_layout <- expect (from_size_align (cap_bytes u) (align u));;
          p <- allocated u;;
          dealloc p old_layout;;
          new_layout <- expect (from_size_align (cap_bytes u) new_align);;
          new_ptr <- alloc new_layout;;
          new_ptr <- non_null new_ptr;;
          ret {| ptr := Some new_ptr; cap_bytes := cap_bytes u; align := align u |}
        else ret u);;
  ret {| ptr := ptr u; cap_bytes := cap_bytes u; align := new_align |}.
Definition grow (u : UntypedVec) (needed_bytes al live_bytes : Z) : op V UntypedVec :=
  assert ((al <=? align u) || (cap_bytes u =? 0));;
  assert (live_bytes <=? cap_bytes u);;
  new_cap <- expect (checked_next_power_of_two needed_bytes);;
  let new_cap := Z.max new_cap (saturating_mul (cap_bytes u) 2) in
  assert (new_cap <=? isize_max);;
  if cap_bytes u =? 0 then
    layout <- expect (from_size_align new_cap al);;
    p <- alloc layout;;
    p <- non_null p;;
    ret {| ptr := Some p; cap_bytes := new_cap; align := al |}
  else
    old_layout <- expect (from_size_align (cap_bytes u) (align u));;
    p <- allocated u;;
    new_ptr <- realloc p old_layout new_cap;;
    new_ptr <- non_null new_ptr;;
    ret {| ptr := Some new_ptr; cap_bytes := new_cap; align := align u |}.
Definition drop_vec (u : UntypedVec) : op V unit :=
  if 0 <? cap_bytes u then
    layout <- expect (from_size_align (cap_bytes u) (align u));;
    p <- allocated u;;
    dealloc p layout
  else ret ().

(** ** [TypedView] *)
Record TypedView := { buf : UntypedVec; len : Z }.
Definition typed_view (T : Ty) (u : UntypedVec) : op V TypedView :=
  u <- (if negb (ty_size T =? 0) && (align u <? ty_align T) then upgrade_alignment u (ty_align T) else ret u);;
  ret {| buf := u; len := 0 |}.
Definition is_empty (w : TypedView) : bool := len w =? 0.
Definition capacity (T : Ty) (w : TypedView) : Z :=
  if ty_size T =? 0 then usize_max else cap_bytes (buf w) / ty_size T.
Definition push (T : Ty) (w : TypedView) (val : V) : op V TypedView :=
  let size := ty_size T in
  if size =? 0 then
    n <- expect (checked_add (len w) 1);;
    ret {| buf := buf w; len := n |}
  else
    n <- expect (checked_add (len w) 1);;
    needed <- expect (checked_mul n size);;
    u <- (if cap_bytes (buf w) <? needed then grow (buf w) needed (ty_align T) (len w * size) else ret (buf w));;
    p <- allocated u;;
    write p (len w * size) size (ty_align T) val;;
    ret {| buf := u; len := len w + 1 |}.
Definition pop (T : Ty) (w : TypedView) : op V (option V * TypedView) :=
  if len w =? 0 then ret (None, w)
  else
    let w := {| buf := buf w; len := len w - 1 |} in
    if ty_size T =? 0 then ret (Some (ty_unit T), w)
    else
      p <- allocated (buf w);;
      v <- read p (len w * ty_size T) (ty_size T) (ty_align T);;
      ret (Some v, w).
(** [while self.pop().is_some() {}]: each popped value is dropped; there are [len] turns. *)
Fixpoint pop_all (fuel : nat) (T : Ty) (w : TypedView) : op V TypedView :=
  r <- pop T w;;
  match r, fuel with
  | (Some v, w), S fuel => run_drop v;; pop_all fuel T w
  | (_, w), _ => ret w
  end.
Definition clear (T : Ty) (w : TypedView) : op V TypedView :=
  if needs_drop T then pop_all (Z.to_nat (len w)) T w else ret {| buf := buf w; len := 0 |}.
Definition reserve (T : Ty) (w : TypedView) (additional : Z) : op V TypedView :=
  let size := ty_size T in
  if size =? 0 then ret w
  else
    n <- expect (checked_add (len w) additional);;
    needed <- expect (checked_mul n size);;
    u <- (if cap_bytes (buf w) <? needed then grow (buf w) needed (ty_align T) (len w * size) else ret (buf w));;
    ret {| buf := u; len := len w |}.
(** The elements behind a slice of [n] values *)
Fixpoint read_slice (n : nat) (p : nat) (off size al : Z) : op V (list V) :=
  match n with
  | O => ret []
  | S n =>
      v <- read p off size al;;
      l <- read_slice n p (off + size) size al;;
      ret (v :: l)
  end.
Definition as_slice (T : Ty) (w : TypedView) : op V (list V) :=
  if len w =? 0 then ret []
  else if ty_size T =? 0 then ret (replicate (Z.to_nat (len w)) (ty_unit T))
  else
    p <- allocated (buf w);;
    requires (len w * ty_size T <=? isize_max);;
    read_slice (Z.to_nat (len w)) p 0 (ty_size T) (ty_align T).
(** An assignment through [as_mut_slice]: [slice[i] = val] drops the old element. *)
Definition slice_set (T : Ty) (w : TypedView) (i : Z) (val : V) : op V unit :=
  assert ((0 <=? i) && (i <? len w));;
  if ty_size T =? 0 then (if needs_drop T then run_drop (ty_unit T) else ret ())
  else
    p <- allocated (buf w);;
    requires (len w * ty_size T <=? isize_max);;
    old <- read p (i * ty_size T) (ty_size T) (ty_align T);;
    (if needs_drop T then run_drop old else ret ());;
    write p (i * ty_size T) (ty_size T) (ty_align T) val.
(** [for i in 0..self.len { drop_in_place(elem) }] *)
Fixpoint drop_elems (n : nat) (p : nat) (off size al : Z) : op V unit :=
  match n with
  | O => ret ()
  | S n =>
      v <- read p off size al;;
      run_drop v;;
      drop_elems n p (off + size) size al
  end.
(** The drop of a view gives the buffer back. *)
Definition drop_view (T : Ty) (w : TypedView) : op V UntypedVec :=
  (if needs_drop T && (0 <? len w) && (0 <? ty_size T) then
     p <- allocated (buf w);;
     drop_elems (Z.to_nat (len w)) p 0 (ty_size T) (ty_align T)
   else ret ());;
  ret (buf w).
End Vec.
End UntypedVec.
