(* ===== verification/UntypedVecInv.v ===== *)
(** * The type-erased vector is a vector ([crates/untyped-vec/src/lib.rs])

    A view refines a list of values: every operation has no undefined behaviour and does
    what it does to a list; the only other outcomes are a panic for a size that cannot be
    represented and an abort when the allocator refuses.  Over the whole life of a buffer,
    with views of any types one after another, all memory is given back and every value is
    either returned to the caller or dropped, once. *)

From S2P Require Import Prelude UntypedVec.

Module UntypedVecInv.
Import UntypedVec.
#[local] Open Scope op_scope.

Section Inv.
Context {V : Type} `{EqDecision V, Allocator}.
Implicit Types (m : Mach V) (u : UntypedVec) (w : TypedView) (T : Ty (V := V)) (vals : list V).

(** ** Outcomes *)
(** [x] is not undefined; where it panics [P] holds, where it aborts [R]. *)
Definition wp {A} (x : Outcome V A) (Q : A → Mach V → Prop) (P R : Prop) : Prop :=
  match x with Ok a m => Q a m | Panic => P | Abort => R | UB => False end.
Definition refused : Prop := ∃ n l, grants n l = false.

Lemma wp_bind {A B} (x : op V A) (f : A → op V B) m Q P R :
  wp (x m) (λ a m, wp (f a m) Q P R) P R → wp (bind x f m) Q P R.
Proof. unfold bind. by destruct (x m). Qed.
Lemma wp_mono {A} (x : Outcome V A) (Q Q' : A → Mach V → Prop) (P P' R : Prop) :
  wp x Q P R → (∀ a m, Q a m → Q' a m) → (P → P') → wp x Q' P' R.
Proof. intros Hx HQ HP. destruct x; simpl in *; auto. Qed.
Lemma wp_expect {A} (o : option A) m Q (P R : Prop) :
  (o = None → P) → (∀ a, o = Some a → Q a m) → wp (expect o m) Q P R.
Proof. intros HP HQ. unfold expect. destruct o; simpl; auto. Qed.
Lemma wp_assert b m Q (P R : Prop) : (b = false → P) → (b = true → Q () m) → wp (assert b m) Q P R.
Proof. intros HP HQ. unfold assert. destruct b; simpl; auto. Qed.
Lemma wp_requires b m (Q : () → Mach V → Prop) (P R : Prop) : b = true → Q () m → wp (requires b m) Q P R.
Proof. intros ->. done. Qed.

(** ** Powers of two *)
Lemma pow2_spec z : is_power_of_two z = true ↔ ∃ k, 0 ≤ k ∧ z = 2 ^ k.
Proof.
  unfold is_power_of_two. rewrite andb_true_iff, Z.ltb_lt, Z.eqb_eq. split.
  - intros [Hz E]. exists (Z.log2 z). split; [apply Z.log2_nonneg|done].
  - intros (k & Hk & ->). split; [by apply Z.pow_pos_nonneg|]. by rewrite Z.log2_pow2.
Qed.
Lemma pow2_pos z : is_power_of_two z = true → 0 < z.
Proof. unfold is_power_of_two. rewrite andb_true_iff, Z.ltb_lt. by intros [? _]. Qed.
(** Of two alignments the smaller divides the larger. *)
Lemma pow2_divides a b : is_power_of_two a = true → is_power_of_two b = true → a ≤ b → b mod a = 0.
Proof.
  intros (i & Hi & ->)%pow2_spec (j & Hj & ->)%pow2_spec Hij.
  assert (i ≤ j) by (apply (Z.pow_le_mono_r_iff 2); lia).
  replace (2 ^ j) with (2 ^ (j - i) * 2 ^ i) by (rewrite <- Z.pow_add_r by lia; f_equal; lia).
  apply Z.mod_mul. pose proof (Z.pow_pos_nonneg 2 i). lia.
Qed.
Lemma pow2_below z k : is_power_of_two z = true → 0 ≤ k → z < 2 ^ (k + 1) → z ≤ 2 ^ k.
Proof.
  intros (i & Hi & ->)%pow2_spec Hk Hz. apply Z.pow_lt_mono_r_iff in Hz; [|lia..]. apply Z.pow_le_mono_r; lia.
Qed.
Lemma next_pow2_spec n p :
  0 < n → checked_next_power_of_two n = Some p → n ≤ p ∧ is_power_of_two p = true.
Proof.
  unfold checked_next_power_of_two. intros Hn. destruct (_ <=? _); [|done]. intros [= <-].
  split; [by apply Z.log2_log2_up_spec|]. apply pow2_spec. exists (Z.log2_up n). split; [apply Z.log2_up_nonneg|done].
Qed.
Lemma next_pow2_small n p k :
  checked_next_power_of_two n = Some p → 0 ≤ k → n ≤ 2 ^ k → p ≤ 2 ^ k.
Proof.
  unfold checked_next_power_of_two. destruct (_ <=? _); [|done]. intros [= <-] Hk Hn.
  apply Z.pow_le_mono_r; [lia|]. rewrite <- (Z.log2_up_pow2 k) by done. by apply Z.log2_up_le_mono.
Qed.
Lemma next_pow2_some n k : 0 ≤ k < 64 → n ≤ 2 ^ k → is_Some (checked_next_power_of_two n).
Proof.
  intros Hk Hn. unfold checked_next_power_of_two. destruct (Z.leb_spec (2 ^ Z.log2_up n) usize_max) as [|Hlt]; [done|].
  exfalso. assert (Z.log2_up n ≤ k) by (rewrite <- (Z.log2_up_pow2 k) by lia; by apply Z.log2_up_le_mono).
  assert (2 ^ Z.log2_up n ≤ 2 ^ 63) by (apply Z.pow_le_mono_r; lia). unfold usize_max in *. lia.
Qed.
Lemma layout_some size al : is_power_of_two al = true → size ≤ 2 ^ 63 - al →
  from_size_align size al = Some {| l_size := size; l_align := al |}.
Proof. intros Ha Hs. unfold from_size_align. rewrite Ha. by rewrite (proj2 (Z.leb_le _ _)). Qed.

(** ** What a buffer holds *)
(** [holds frame u m data]: beside the blocks of [frame] the heap has the block of [u], if
    there is one, with the bytes [data]. *)
Definition fresh m : Prop := ∀ q, (next m ≤ q)%nat → heap m !! q = None.
Definition holds (frame : gmap nat (Block V)) u m (data : list (cell V)) : Prop :=
  is_power_of_two (align u) = true ∧ fresh m ∧ Z.of_nat (length data) = cap_bytes u ∧
  match ptr u with
  | None => cap_bytes u = 0 ∧ heap m = frame
  | Some p =>
      0 < cap_bytes u ≤ 2 ^ 47 ∧ cap_bytes u ≤ 2 ^ 63 - align u ∧ frame !! p = None ∧
      heap m = <[p := {| b_layout := {| l_size := cap_bytes u; l_align := align u |}; b_data := data |}]> frame
  end.

Lemma holds_lookup frame u m data p :
  holds frame u m data → ptr u = Some p →
  heap m !! p = Some {| b_layout := {| l_size := cap_bytes u; l_align := align u |}; b_data := data |}.
Proof. intros (_ & _ & _ & Hp) E. rewrite E in Hp. destruct Hp as (_ & _ & _ & ->). apply lookup_insert_eq. Qed.
Lemma holds_allocated frame u m data :
  holds frame u m data → 0 < cap_bytes u → ∃ p, ptr u = Some p.
Proof. intros (_ & _ & _ & Hp) Hc. destruct (ptr u) as [p|]; [by exists p|]. destruct Hp. lia. Qed.
Lemma holds_frame_fresh frame u m data q : holds frame u m data → (next m ≤ q)%nat → frame !! q = None.
Proof.
  intros (_ & Hf & _ & Hp) Hq. pose proof (Hf q Hq) as E. destruct (ptr u) as [p|]; [|by destruct Hp as [_ <-]].
  destruct Hp as (_ & _ & Hn & Eh). rewrite Eh in E. apply lookup_insert_None in E. apply E.
Qed.
(** A block that was just allocated in place of what the buffer had *)
Lemma holds_new frame m data h n d :
  is_power_of_two (l_align n) = true → 0 < l_size n ≤ 2 ^ 47 → l_size n ≤ 2 ^ 63 - l_align n →
  Z.of_nat (length data) = l_size n → h = frame → frame !! next m = None →
  (∀ q, (next m ≤ q)%nat → frame !! q = None) →
  holds frame {| ptr := Some (next m); cap_bytes := l_size n; align := l_align n |}
    {| heap := <[next m := {| b_layout := n; b_data := data |}]> h; next := S (next m); dropped := d |} data.
Proof.
  intros Ha Hs Hm Hl -> Hn Hf. destruct n as [s a]. simpl in *. split; [done|]. split.
  - intros q Hq. simpl in *. rewrite lookup_insert_ne by lia. apply Hf. lia.
  - split; [done|]. simpl. done.
Qed.

(** ** The buffer *)
Lemma wp_alloc l m Q (P : Prop) :
  0 < l_size l →
  (l_size l ≤ 2 ^ 47 → Q (Some (next m))
     {| heap := <[next m := {| b_layout := l; b_data := uninit (l_size l) |}]> (heap m);
        next := S (next m); dropped := dropped m |}) →
  (grants (next m) l = false → Q None {| heap := heap m; next := S (next m); dropped := dropped m |}) →
  wp (alloc l m) Q P refused.
Proof.
  intros Hs HQ HN. unfold alloc. rewrite (proj2 (Z.leb_gt _ _)) by done.
  destruct (grants (next m) l) eqn:E; simpl; [|auto]. by apply HQ, (grants_addressable (next m)).
Qed.
Lemma wp_non_null p m (Q : nat → Mach V → Prop) (P : Prop) :
  (∀ q, p = Some q → Q q m) → (p = None → refused) → wp (non_null p m) Q P refused.
Proof. intros HQ HN. unfold non_null. destruct p; simpl; auto. Qed.
Lemma length_uninit n : 0 ≤ n → Z.of_nat (length (uninit (V := V) n)) = n.
Proof. intros Hn. unfold uninit. rewrite length_replicate. lia. Qed.
Lemma wp_allocated frame u m data (Q : nat → Mach V → Prop) (P R : Prop) :
  holds frame u m data → 0 < cap_bytes u →
  (∀ p, ptr u = Some p → Q p m) → wp (allocated u m) Q P R.
Proof. intros Hh Hc HQ. destruct (holds_allocated _ _ _ _ Hh Hc) as [p E]. unfold allocated. rewrite E. by apply HQ. Qed.
Lemma has_layout_refl (d : list (cell V)) l : has_layout {| b_layout := l; b_data := d |} l = true.
Proof. unfold has_layout. simpl. by rewrite !Z.eqb_refl. Qed.
Lemma wp_dealloc frame u m data p (Q : () → Mach V → Prop) (P R : Prop) :
  holds frame u m data → ptr u = Some p → Q () (with_heap frame m) →
  wp (dealloc p {| l_size := cap_bytes u; l_align := align u |} m) Q P R.
Proof.
  intros Hh E HQ. pose proof (holds_lookup _ _ _ _ _ Hh E) as L. unfold dealloc. rewrite L, has_layout_refl. simpl.
  destruct Hh as (_ & _ & _ & Hp). rewrite E in Hp. destruct Hp as (_ & _ & Hn & ->).
  by rewrite delete_insert_id.
Qed.
Lemma new_holds m : fresh m → holds (heap m) new m [].
Proof. intros Hf. by split_and!. Qed.
Lemma with_capacity_holds cap al m :
  0 ≤ cap → fresh m →
  wp (with_capacity cap al m)
    (λ u m', ∃ data, holds (heap m) u m' data ∧ cap_bytes u = cap ∧ align u = al ∧ dropped m' = dropped m)
    (is_power_of_two al = false ∨ 2 ^ 63 - al < cap) refused.
Proof.
  intros Hc Hf. unfold with_capacity. apply wp_bind, wp_assert; [by left|]. intros Ha.
  destruct (Z.eqb_spec cap 0) as [->|Hne].
  { exists []. by split_and!. }
  apply wp_bind, wp_expect.
  { unfold from_size_align. rewrite Ha. simpl. destruct (Z.leb_spec cap (2 ^ 63 - al)); [done|]. by right. }
  intros l E. unfold from_size_align in E. rewrite Ha in E. simpl in E.
  destruct (Z.leb_spec cap (2 ^ 63 - al)); [|done]. injection E as <-.
  apply wp_bind, wp_alloc; cbn [l_size l_align]; [lia| |].
  - intros Hs. apply wp_bind, wp_non_null; [|done]. intros q [= <-]. eexists. split_and!; [|done..].
    apply (holds_new (heap m) m _ (heap m) {| l_size := cap; l_align := al |}); simpl; try done; try lia.
    + apply length_uninit. lia.
    + by apply Hf.
  - intros Hg. apply wp_bind, wp_non_null; [done|]. intros _. by exists (next m), {| l_size := cap; l_align := al |}.
Qed.
Lemma upgrade_holds frame u m data al :
  holds frame u m data → is_power_of_two al = true → align u < al → al ≤ 2 ^ 29 →
  wp (upgrade_alignment u al m)
    (λ u' m', ∃ data', holds frame u' m' data' ∧ cap_bytes u' = cap_bytes u ∧ align u' = al ∧
       dropped m' = dropped m) False refused.
Proof.
  intros Hh Ha Hlt Hs. unfold upgrade_alignment.
  apply wp_bind, wp_assert; [by rewrite (proj2 (Z.ltb_lt _ _))|]. intros _.
  apply wp_bind, wp_assert; [by rewrite Ha|]. intros _. apply wp_bind.
  destruct (Z.ltb_spec 0 (cap_bytes u)) as [Hc|Hc].
  - destruct (holds_allocated _ _ _ _ Hh Hc) as [p Ep]. pose proof Hh as (Hal & Hf & Hl & Hp). rewrite Ep in Hp.
    destruct Hp as (Hcap & Hmax & _ & _).
    apply wp_bind, wp_expect; [by rewrite layout_some|]. intros l. rewrite layout_some by done. intros [= <-].
    apply wp_bind. eapply wp_allocated; [done..|]. intros q Eq. simplify_eq.
    apply wp_bind. eapply wp_dealloc; [done..|].
    apply wp_bind, wp_expect; [by rewrite layout_some by (done || lia)|]. intros l. rewrite layout_some by (done || lia). intros [= <-].
    assert (Hfr : ∀ q, (next m ≤ q)%nat → frame !! q = None) by (intros q; by eapply holds_frame_fresh).
    apply wp_bind, wp_alloc; cbn [l_size l_align]; [lia| |].
    + intros _. apply wp_bind, wp_non_null; [|done]. intros q [= <-]. eexists. split_and!; [|done..].
      apply (holds_new frame (with_heap frame m) _ frame {| l_size := cap_bytes u; l_align := al |});
        simpl; try done; try lia; [|by apply Hfr]. apply length_uninit. lia.
    + intros Hg. apply wp_bind, wp_non_null; [done|]. intros _.
      by exists (next m), {| l_size := cap_bytes u; l_align := al |}.
  - exists data. destruct Hh as (Hal & Hf & Hl & Hp). split_and!; try done. split_and!; try done. simpl.
    destruct (ptr u); [lia|done].
Qed.
Lemma wp_realloc frame u m data p new_size (Q : option nat → Mach V → Prop) (P : Prop) :
  holds frame u m data → ptr u = Some p → cap_bytes u ≤ new_size → new_size ≤ 2 ^ 63 - align u →
  (∀ extra m', holds frame {| ptr := Some (next m); cap_bytes := new_size; align := align u |} m' (data ++ extra) →
     dropped m' = dropped m → Q (Some (next m)) m') →
  (∀ m', refused → Q None m') →
  wp (realloc p {| l_size := cap_bytes u; l_align := align u |} new_size m) Q P refused.
Proof.
  intros Hh E Hle Hmax HQ HN. pose proof (holds_lookup _ _ _ _ _ Hh E) as L. pose proof Hh as (Ha & _ & Hl & Hp).
  assert (Hfr : ∀ q, (next m ≤ q)%nat → frame !! q = None) by (intros q; by eapply holds_frame_fresh).
  rewrite E in Hp. destruct Hp as (Hc & _ & Hn & Eh). unfold realloc. rewrite L, has_layout_refl.
  rewrite (proj2 (Z.ltb_lt 0 new_size)) by lia. rewrite (proj2 (Z.leb_le _ _)) by done. cbn [andb l_align b_data].
  destruct (grants _ _) eqn:Eg; [|by apply HN; do 2 eexists]. pose proof (grants_addressable _ _ Eg) as Hg.
  simpl in Hg. rewrite take_ge by lia. cbn [wp].
  apply (HQ (uninit (new_size - Z.of_nat (length data)))); [|done].
  rewrite Eh, delete_insert_id by done.
  apply (holds_new frame m _ frame {| l_size := new_size; l_align := align u |}); simpl; try done; try lia;
    [|by apply Hfr].
  rewrite length_app, Nat2Z.inj_add, length_uninit by lia. lia.
Qed.
Lemma grow_holds frame u m data needed al live :
  holds frame u m data → is_power_of_two al = true → al ≤ 2 ^ 29 → (al ≤ align u ∨ cap_bytes u = 0) →
  live ≤ cap_bytes u → 0 < needed →
  wp (grow u needed al live m)
    (λ u' m', ∃ extra, holds frame u' m' (data ++ extra) ∧ needed ≤ cap_bytes u' ∧ cap_bytes u ≤ cap_bytes u' ∧
       align u' = (if cap_bytes u =? 0 then al else align u) ∧ dropped m' = dropped m)
    (2 ^ 62 < needed) refused.
Proof.
  intros Hh Hal Hs Hor Hlive Hn. unfold grow.
  apply wp_bind, wp_assert.
  { intros [E1 E2]%orb_false_iff. apply Z.leb_gt in E1. apply Z.eqb_neq in E2. lia. }
  intros _. apply wp_bind, wp_assert; [by rewrite (proj2 (Z.leb_le _ _))|]. intros _.
  apply wp_bind, wp_expect.
  { intros E. destruct (Z.le_gt_cases needed (2 ^ 62)) as [Hle|]; [|done].
    destruct (next_pow2_some needed 62) as [p Ep]; [lia|done|]. congruence. }
  intros np Enp. destruct (next_pow2_spec _ _ Hn Enp) as [Hnp Hpow]. pose proof Hh as (Ha & _ & Hl & Hp).
  assert (Hcap : 0 ≤ cap_bytes u ≤ 2 ^ 47) by (destruct (ptr u); [lia|destruct Hp; lia]).
  assert (Hsat : saturating_mul (cap_bytes u) 2 = 2 * cap_bytes u).
  { unfold saturating_mul, usize_max. lia. }
  rewrite Hsat. apply wp_bind, wp_assert.
  { intros E%Z.leb_gt. destruct (Z.le_gt_cases needed (2 ^ 62)) as [Hle|]; [|done].
    pose proof (next_pow2_small _ _ 62 Enp ltac:(lia) Hle). unfold isize_max in E. lia. }
  intros Hi%Z.leb_le. assert (Hnp62 : np ≤ 2 ^ 62).
  { apply pow2_below; [done|lia|]. unfold isize_max in Hi. lia. }
  destruct (Z.eqb_spec (cap_bytes u) 0) as [E0|E0].
  - destruct data; [|simpl in Hl; lia]. destruct (ptr u) as [p|] eqn:Eptr; [lia|]. destruct Hp as [_ Eh].
    apply wp_bind, wp_expect; [by rewrite layout_some by (done || lia)|].
    intros l. rewrite layout_some by (done || lia). intros [= <-].
    assert (Hfr : ∀ q, (next m ≤ q)%nat → frame !! q = None) by (intros q; by eapply holds_frame_fresh).
    apply wp_bind, wp_alloc; cbn [l_size l_align]; [lia| |].
    + intros Hsz. apply wp_bind, wp_non_null; [|done]. intros q [= <-]. cbn [wp ret].
      exists (uninit (Z.max np (2 * cap_bytes u))). split_and!; [|simpl; lia..|done|done]. rewrite app_nil_l.
      apply (holds_new frame m _ (heap m) {| l_size := Z.max np (2 * cap_bytes u); l_align := al |});
        simpl; try done; try lia; [|by apply Hfr]. apply length_uninit. lia.
    + intros Hg. apply wp_bind, wp_non_null; [done|]. intros _. by do 2 eexists.
  - destruct (ptr u) as [p|] eqn:Eptr; [|by destruct Hp]. destruct Hp as (_ & Hmax & _).
    assert (Hal62 : align u ≤ 2 ^ 62) by (apply pow2_below; [done|lia|lia]).
    apply wp_bind, wp_expect; [by rewrite layout_some|]. intros l. rewrite layout_some by done. intros [= <-].
    apply wp_bind. eapply wp_allocated; [done|lia|]. intros q Eq. simplify_eq.
    apply wp_bind. eapply wp_realloc; [done..|lia|lia| |].
    + intros extra m' Hh' Ed. apply wp_bind, wp_non_null; [|done]. intros q' [= <-].
      exists extra. split_and!; [done|simpl; lia..|done|done].
    + intros m' Hr. apply wp_bind, wp_non_null; [done|]. done.
Qed.
Lemma drop_vec_frees frame u m data :
  holds frame u m data →
  wp (drop_vec u m) (λ _ m', heap m' = frame ∧ dropped m' = dropped m) False refused.
Proof.
  intros Hh. unfold drop_vec. destruct (Z.ltb_spec 0 (cap_bytes u)) as [Hc|Hc].
  - destruct (holds_allocated _ _ _ _ Hh Hc) as [p Ep]. pose proof Hh as (Ha & _ & Hl & Hp). rewrite Ep in Hp.
    destruct Hp as (Hcap & Hmax & _ & _).
    apply wp_bind, wp_expect; [by rewrite layout_some|]. intros l. rewrite layout_some by done. intros [= <-].
    apply wp_bind. eapply wp_allocated; [done..|]. intros q Eq. simplify_eq. by eapply wp_dealloc.
  - destruct Hh as (_ & _ & _ & Hp). destruct (ptr u); [lia|]. destruct Hp as [_ Eh]. done.
Qed.

(** ** Elements in memory *)
Definition image (size : Z) vals : list (cell V) := vals ≫= fragments size.
Lemma length_fragments size (v : V) : 0 ≤ size → Z.of_nat (length (fragments size v)) = size.
Proof. intros Hs. unfold fragments. rewrite length_fmap, length_seq. lia. Qed.
Lemma length_image size vals : 0 ≤ size → Z.of_nat (length (image size vals)) = Z.of_nat (length vals) * size.
Proof.
  intros Hs. induction vals as [|v vals IH]; [done|]. unfold image in *. rewrite bind_cons, length_app.
  rewrite Nat2Z.inj_add, IH, length_fragments by done. simpl length. lia.
Qed.
Lemma image_app size (l1 l2 : list V) : image size (l1 ++ l2) = image size l1 ++ image size l2.
Proof. apply bind_app. Qed.
Lemma image_one size (v : V) : image size [v] = fragments size v.
Proof. unfold image. simpl. apply app_nil_r. Qed.
Lemma value_of_fragments size (v : V) : 0 < size → value_of size (fragments size v) = Some v.
Proof.
  intros Hs. unfold value_of. destruct (fragments size v) as [|c l] eqn:E.
  - pose proof (length_fragments size v ltac:(lia)) as L. rewrite E in L. simpl in L. lia.
  - unfold fragments in E. destruct (Z.to_nat size) eqn:En; [lia|]. simpl in E. simplify_eq.
    unfold fragments. rewrite En. by rewrite decide_True.
Qed.
Lemma skip_image size (l1 l2 : list V) rest :
  0 ≤ size → drop (Z.to_nat (Z.of_nat (length l1) * size)) (image size (l1 ++ l2) ++ rest) = image size l2 ++ rest.
Proof.
  intros Hs. rewrite image_app, <- app_assoc. apply drop_app_length'. pose proof (length_image size l1 Hs). lia.
Qed.
Lemma keep_image size (l1 l2 : list V) rest :
  0 ≤ size → take (Z.to_nat (Z.of_nat (length l1) * size)) (image size (l1 ++ l2) ++ rest) = image size l1.
Proof.
  intros Hs. rewrite image_app, <- app_assoc. apply take_app_length'. pose proof (length_image size l1 Hs). lia.
Qed.

(** [sees T frame w vals m]: the view [w] has the elements [vals] of type [T]. *)
Definition sees T (frame : gmap nat (Block V)) w vals m : Prop :=
  len w = Z.of_nat (length vals) ∧
  (ty_size T = 0 → len w ≤ usize_max ∧ Forall (λ v, v = ty_unit T) vals) ∧
  (ty_size T ≠ 0 → align (buf w) mod ty_align T = 0 ∧ ty_align T ≤ align (buf w)) ∧
  ∃ rest, holds frame (buf w) m (image (ty_size T) vals ++ rest).
Implicit Types frame : gmap nat (Block V).

Lemma sees_cap T frame w vals m :
  ty_ok T → sees T frame w vals m → Z.of_nat (length vals) * ty_size T ≤ cap_bytes (buf w) ≤ 2 ^ 47.
Proof.
  intros (_ & _ & Hs & _) (_ & _ & _ & rest & Hh). pose proof Hh as (_ & _ & Hl & Hp).
  rewrite length_app, Nat2Z.inj_add, length_image in Hl by lia.
  split; [lia|]. destruct (ptr (buf w)); [lia|destruct Hp; lia].
Qed.
(** Reading and writing an element that is there *)
Lemma in_bounds_elem T frame w m data i :
  ty_ok T → ty_size T ≠ 0 → holds frame (buf w) m data → align (buf w) mod ty_align T = 0 → 0 ≤ i →
  (i + 1) * ty_size T ≤ cap_bytes (buf w) →
  in_bounds {| b_layout := {| l_size := cap_bytes (buf w); l_align := align (buf w) |}; b_data := data |}
    (i * ty_size T) (ty_size T) (ty_align T) = true.
Proof.
  intros (Ha & _ & Hs & Hm) Hne Hh Hal Hi Hc. pose proof (pow2_pos _ Ha). unfold in_bounds. cbn [b_layout l_size l_align].
  rewrite !andb_true_iff, !Z.leb_le, !Z.eqb_eq. split_and!; [nia|nia| |done].
  rewrite Z.mul_mod, Hm by lia. by rewrite Z.mul_0_r, Z.mod_0_l by lia.
Qed.
Lemma read_elem T frame w l1 v l2 m p :
  ty_ok T → ty_size T ≠ 0 → sees T frame w (l1 ++ v :: l2) m → ptr (buf w) = Some p →
  read p (Z.of_nat (length l1) * ty_size T) (ty_size T) (ty_align T) m = Ok v m.
Proof.
  intros Hok Hne Hv Ep. pose proof (sees_cap _ _ _ _ _ Hok Hv) as Hcap. destruct Hv as (_ & _ & Hal & rest & Hh).
  unfold read. rewrite (holds_lookup _ _ _ _ _ Hh Ep). pose proof Hok as (_ & _ & Hs & _).
  rewrite length_app in Hcap. simpl in Hcap.
  rewrite (in_bounds_elem T frame w m) by (done || lia || apply Hal, Hne || nia).
  unfold bytes_at. cbn [b_data]. rewrite skip_image by lia. unfold image. rewrite bind_cons, <- app_assoc.
  rewrite take_app_length' by (pose proof (length_fragments (ty_size T) v); lia).
  by rewrite value_of_fragments by lia.
Qed.
Lemma write_elem T frame w m (l1 l2 : list V) old rest v p :
  ty_ok T → ty_size T ≠ 0 → align (buf w) mod ty_align T = 0 → ptr (buf w) = Some p →
  Z.of_nat (length old) = ty_size T →
  holds frame (buf w) m (image (ty_size T) l1 ++ old ++ image (ty_size T) l2 ++ rest) →
  ∃ m', write p (Z.of_nat (length l1) * ty_size T) (ty_size T) (ty_align T) v m = Ok () m' ∧
    dropped m' = dropped m ∧ holds frame (buf w) m' (image (ty_size T) (l1 ++ v :: l2) ++ rest).
Proof.
  intros Hok Hne Hal Ep Hold Hh. pose proof Hok as (_ & _ & Hs & _). pose proof Hh as (Ha & Hf & Hl & Hp).
  assert (Hdata : image (ty_size T) (l1 ++ v :: l2) ++ rest =
    image (ty_size T) l1 ++ fragments (ty_size T) v ++ image (ty_size T) l2 ++ rest).
  { rewrite image_app. unfold image at 2. rewrite bind_cons, <- !app_assoc. done. }
  pose proof (length_image (ty_size T) l1 ltac:(lia)) as L1.
  pose proof (length_fragments (ty_size T) v ltac:(lia)) as Lv.
  unfold write. rewrite (holds_lookup _ _ _ _ _ Hh Ep).
  rewrite (in_bounds_elem T frame w m) by (done || lia || (rewrite !length_app in Hl; nia)). cbn [b_data b_layout].
  eexists. split; [reflexivity|]. split; [done|].
  rewrite take_app_length' by lia.
  replace (drop _ (image (ty_size T) l1 ++ old ++ _)) with (image (ty_size T) l2 ++ rest).
  2:{ rewrite app_assoc, drop_app_length'; [done|]. rewrite length_app. lia. }
  rewrite <- Hdata. rewrite Ep in Hp. destruct Hp as (Hc & Hm & Hn & Eh).
  split; [done|]. split; [|split].
  - intros q Hq. simpl in *. assert (q ≠ p) by (intros ->; apply Hf in Hq; rewrite Eh, lookup_insert_eq in Hq; done).
    rewrite lookup_insert_ne by done. by apply Hf.
  - rewrite Hdata. rewrite !length_app in *. lia.
  - rewrite Ep. split_and!; try done; try lia. simpl. rewrite Eh. by rewrite insert_insert_eq.
Qed.

(** ** Views *)
Lemma typed_view_sees T frame u m data :
  ty_ok T → holds frame u m data →
  wp (typed_view T u m) (λ w m', sees T frame w [] m' ∧ dropped m' = dropped m) False refused.
Proof.
  intros Hok Hh. pose proof Hok as (Ha & Hm & _ & _). unfold typed_view. apply wp_bind.
  destruct (negb (ty_size T =? 0) && (align u <? ty_align T)) eqn:E.
  - apply andb_true_iff in E as [_ E%Z.ltb_lt]. eapply wp_mono; [by eapply upgrade_holds| |done].
    intros u' m' (data' & Hh' & _ & Eal & Ed). cbn [wp ret]. split; [|done].
    split_and!; [done|done| |by exists data']. intros _. cbn [buf]. rewrite Eal.
    split; [|done]. apply Z.mod_same. by apply pow2_pos in Ha; lia.
  - cbn [wp ret]. split; [|done]. split_and!; [done|done| |by exists data]. intros Hne. cbn [buf].
    apply andb_false_iff in E as [E|E]; [by apply negb_false_iff, Z.eqb_eq in E|]. apply Z.ltb_ge in E.
    split; [|done]. apply pow2_divides; [done|apply Hh|done].
Qed.
(** Room for more elements, as [push] and [reserve] make it *)
Definition too_large (bytes : Z) : Prop := 2 ^ 62 < bytes.
Definition room T w n : op V UntypedVec :=
  if cap_bytes (buf w) <? n then grow (buf w) n (ty_align T) (len w * ty_size T) else ret (buf w).
Lemma room_sees T frame w vals m n :
  ty_ok T → ty_size T ≠ 0 → 0 < n → sees T frame w vals m →
  wp (room T w n m)
    (λ u m', sees T frame {| buf := u; len := len w |} vals m' ∧ n ≤ cap_bytes u ∧ dropped m' = dropped m)
    (too_large n) refused.
Proof.
  intros Hok Hne Hn Hv. pose proof (sees_cap _ _ _ _ _ Hok Hv) as Hcap. pose proof Hv as (El & Hz & Hal & rest & Hh).
  unfold room. destruct (Z.ltb_spec (cap_bytes (buf w)) n) as [Hlt|Hge].
  - pose proof Hok as (Ha & Hm & _). destruct (Hal Hne) as [Hmod Hle].
    eapply wp_mono; [eapply grow_holds; [done|done|done|by left|rewrite El; lia|lia]| |done].
    intros u' m' (extra & Hh' & Hn' & _ & Eal & Ed). split; [|done].
    split_and!; [done|by intros|intros _; cbn [buf]; rewrite Eal|exists (rest ++ extra); by rewrite app_assoc].
    destruct (_ =? 0); [|done]. split; [|done]. apply Z.mod_same. by apply pow2_pos in Ha; lia.
  - cbn [wp ret]. by destruct w.
Qed.
Lemma push_sees T frame w vals m v :
  ty_ok T → sees T frame w vals m → (ty_size T = 0 → v = ty_unit T) →
  wp (push T w v m)
    (λ w' m', sees T frame w' (vals ++ [v]) m' ∧ dropped m' = dropped m)
    (too_large ((len w + 1) * ty_size T) ∨ ty_size T = 0 ∧ len w = usize_max) refused.
Proof.
  intros Hok Hv Hu. pose proof Hv as (El & Hz & Hal & rest & Hh). pose proof Hok as (Ha & _ & Hs & _). unfold push.
  destruct (Z.eqb_spec (ty_size T) 0) as [E0|E0].
  - destruct (Hz E0) as [Hmax Hvals]. apply wp_bind, wp_expect; unfold checked_add.
    { destruct (Z.leb_spec (len w + 1) usize_max); [done|]. right. split; [done|]. lia. }
    intros n. destruct (Z.leb_spec (len w + 1) usize_max); [|done]. intros [= <-]. cbn [wp ret]. split; [|done].
    split_and!; cbn [buf len].
    + rewrite El, length_app. simpl. lia.
    + intros _. split; [done|]. apply Forall_app. split; [done|]. apply Forall_singleton. auto.
    + done.
    + exists rest. rewrite image_app, image_one, E0, app_nil_r in *. exact Hh.
  - apply wp_bind, wp_expect; unfold checked_add.
    { destruct (Z.leb_spec (len w + 1) usize_max); [done|]. left. unfold too_large, usize_max in *. nia. }
    intros n. destruct (Z.leb_spec (len w + 1) usize_max); [|done]. intros [= <-].
    apply wp_bind, wp_expect; unfold checked_mul.
    { destruct (Z.leb_spec ((len w + 1) * ty_size T) usize_max); [done|]. left. unfold too_large, usize_max in *. lia. }
    intros n. destruct (Z.leb_spec ((len w + 1) * ty_size T) usize_max); [|done]. intros [= <-].
    apply wp_bind. eapply wp_mono; [apply (room_sees T frame w vals m); [done|done|nia|done]| |by left].
    clear Hh Hal Hv rest. intros u m' ((_ & _ & Hal & rest & Hh) & Hroom & Ed). cbn [buf] in *.
    destruct (Hal E0) as [Hmod Hle].
    apply wp_bind. eapply wp_allocated; [done|nia|]. intros p Ep. apply wp_bind.
    pose proof Hh as (_ & _ & Hl & _). rewrite length_app, Nat2Z.inj_add, length_image in Hl by lia.
    destruct (write_elem T frame {| buf := u; len := len w |} m' vals [] (take (Z.to_nat (ty_size T)) rest)
      (drop (Z.to_nat (ty_size T)) rest) v p) as (m'' & Ew & Ed' & Hh'); try done.
    { rewrite length_take. nia. }
    { cbn [buf]. unfold image at 2. cbn. by rewrite take_drop. }
    rewrite El, Ew. cbn [wp ret]. split; [|congruence].
    split_and!; cbn [buf len].
    + rewrite length_app. simpl. lia.
    + done.
    + done.
    + eexists. exact Hh'.
Qed.
Lemma reserve_sees T frame w vals m n :
  ty_ok T → sees T frame w vals m → 0 ≤ n →
  wp (reserve T w n m) (λ w' m', sees T frame w' vals m' ∧ dropped m' = dropped m)
    (too_large ((len w + n) * ty_size T)) refused.
Proof.
  intros Hok Hv Hn. pose proof Hok as (Ha & _ & Hs & _). pose proof Hv as (El & _). unfold reserve.
  destruct (Z.eqb_spec (ty_size T) 0) as [E0|E0]; [by cbn|].
  apply wp_bind, wp_expect; unfold checked_add.
  { destruct (Z.leb_spec (len w + n) usize_max); [done|]. intros _. unfold too_large, usize_max in *. nia. }
  intros k. destruct (Z.leb_spec (len w + n) usize_max); [|done]. intros [= <-].
  apply wp_bind, wp_expect; unfold checked_mul.
  { destruct (Z.leb_spec ((len w + n) * ty_size T) usize_max); [done|]. unfold too_large, usize_max in *. lia. }
  intros k. destruct (Z.leb_spec ((len w + n) * ty_size T) usize_max); [|done]. intros [= <-].
  destruct (Z.le_gt_cases ((len w + n) * ty_size T) 0) as [Hz|Hz].
  - rewrite (proj2 (Z.ltb_ge _ _)) by (pose proof (sees_cap _ _ _ _ _ Hok Hv); lia). by destruct w.
  - apply wp_bind. eapply wp_mono; [by apply (room_sees T frame w vals m)| |done].
    intros u m' (Hv' & _ & Ed). done.
Qed.
Lemma pop_sees T frame w vals m :
  ty_ok T → sees T frame w vals m →
  wp (pop T w m)
    (λ r m', m' = m ∧
       (vals = [] ∧ r.1 = None ∧ r.2 = w ∨
        ∃ l v, vals = l ++ [v] ∧ r.1 = Some v ∧ sees T frame r.2 l m)) False refused.
Proof.
  intros Hok Hv. pose proof Hv as (El & Hz & Hal & rest & Hh). pose proof Hok as (Ha & _ & Hs & _). unfold pop.
  destruct vals as [|v l _] using rev_ind.
  { rewrite El. cbn. split; [done|]. by left. }
  rewrite length_app in El. simpl in El. rewrite (proj2 (Z.eqb_neq (len w) 0)) by lia.
  assert (Hl : sees T frame {| buf := buf w; len := len w - 1 |} l m).
  { split_and!; cbn [len buf]; [lia| |done|].
    - intros E. destruct (Hz E) as [? Hf]. apply Forall_app in Hf as [? _]. split; [lia|done].
    - exists (fragments (ty_size T) v ++ rest). by rewrite image_app, image_one, <- app_assoc in Hh. }
  destruct (Z.eqb_spec (ty_size T) 0) as [E0|E0].
  - cbn [wp ret]. split; [done|]. right. exists l, v. split_and!; [done| |done]. simpl. destruct (Hz E0) as [_ Hf].
    apply Forall_app in Hf as [_ Hf]. inversion_clear Hf as [|? ? E]. by rewrite E.
  - cbn [len buf]. pose proof (sees_cap _ _ _ _ _ Hok Hv) as Hcap. rewrite length_app in Hcap. simpl in Hcap.
    apply wp_bind. eapply wp_allocated; [done|nia|]. intros p Ep.
    apply wp_bind. replace (len w - 1) with (Z.of_nat (length l)) at 1 by lia.
    rewrite (read_elem T frame w l v [] m p) by done. cbn [wp ret]. split; [done|]. right.
    exists l, v. by split_and!.
Qed.
Definition note_drop (l : list V) m : Mach V := {| heap := heap m; next := next m; dropped := dropped m ++ l |}.
Lemma sees_note T frame w vals m l : sees T frame w vals m → sees T frame w vals (note_drop l m).
Proof. done. Qed.
Lemma note_nil m : note_drop [] m = m.
Proof. destruct m. unfold note_drop. simpl. by rewrite app_nil_r. Qed.
Lemma note_app l1 l2 m : note_drop l2 (note_drop l1 m) = note_drop (l1 ++ l2) m.
Proof. unfold note_drop. simpl. by rewrite app_assoc. Qed.
Lemma pop_all_sees T frame fuel w vals m :
  ty_ok T → (length vals ≤ fuel)%nat → sees T frame w vals m →
  wp (pop_all fuel T w m) (λ w' m', sees T frame w' [] m' ∧ dropped m' = dropped m ++ reverse vals) False refused.
Proof.
  intros Hok. revert w vals m. induction fuel as [|fuel IH]; intros w vals m Hf Hv; cbn [pop_all]; apply wp_bind;
    (eapply wp_mono; [by apply (pop_sees T frame w vals m)| |done]);
    intros [o w'] m' [-> [(-> & Eo & Ew)|(l & v & -> & Eo & Hl)]]; simpl in Eo, Hf; subst o.
  - simpl in Ew. subst w'. cbn. by rewrite app_nil_r.
  - rewrite length_app in Hf. simpl in Hf. lia.
  - simpl in Ew. subst w'. cbn. by rewrite app_nil_r.
  - apply wp_bind. cbn [run_drop wp]. rewrite length_app in Hf. simpl in Hf.
    eapply wp_mono; [apply (IH w' l (note_drop [v] m)); [lia|done]| |done].
    intros w'' m'' [Hv'' Ed]. split; [done|]. rewrite Ed, reverse_app. simpl. by rewrite <- app_assoc.
Qed.
Lemma clear_sees T frame w vals m :
  ty_ok T → sees T frame w vals m →
  wp (clear T w m)
    (λ w' m', sees T frame w' [] m' ∧ dropped m' = dropped m ++ if needs_drop T then reverse vals else [])
    False refused.
Proof.
  intros Hok Hv. unfold clear. destruct (needs_drop T).
  - apply (pop_all_sees T frame _ w vals m); [done| |done]. destruct Hv as [El _]. lia.
  - cbn [wp ret]. rewrite app_nil_r. split; [|done]. destruct Hv as (El & Hz & Hal & rest & Hh).
    split_and!; cbn [len buf]; [done|intros; by split|done|]. by exists (image (ty_size T) vals ++ rest).
Qed.
Lemma slice_bytes T frame w vals m :
  ty_ok T → sees T frame w vals m → ty_size T ≠ 0 → (len w * ty_size T <=? isize_max) = true.
Proof.
  intros Hok Hv Hne. apply Z.leb_le. pose proof (sees_cap _ _ _ _ _ Hok Hv). destruct Hv as [El _].
  unfold isize_max. rewrite El. lia.
Qed.
Lemma sees_allocated T frame w v vals m :
  ty_ok T → ty_size T ≠ 0 → sees T frame w (v :: vals) m → ∃ p, ptr (buf w) = Some p.
Proof.
  intros Hok Hne Hv. pose proof (sees_cap _ _ _ _ _ Hok Hv) as Hc. destruct Hv as (_ & _ & _ & rest & Hh).
  destruct Hok as (_ & _ & Hs & _). eapply holds_allocated; [done|]. simpl in Hc. nia.
Qed.
Lemma next_offset {A} (l1 : list A) v size :
  Z.of_nat (length l1) * size + size = Z.of_nat (length (l1 ++ [v])) * size.
Proof. rewrite length_app. simpl. lia. Qed.
Lemma read_slice_sees T frame w l1 l2 m p :
  ty_ok T → ty_size T ≠ 0 → sees T frame w (l1 ++ l2) m → ptr (buf w) = Some p →
  read_slice (length l2) p (Z.of_nat (length l1) * ty_size T) (ty_size T) (ty_align T) m = Ok l2 m.
Proof.
  intros Hok Hne. revert l1. induction l2 as [|v l2 IH]; intros l1 Hv Ep; [done|]. cbn [length read_slice].
  unfold bind at 1. rewrite (read_elem T frame w l1 v l2 m p) by done. unfold bind.
  rewrite (next_offset l1 v), IH; [done| |done]. by rewrite <- app_assoc.
Qed.
Lemma drop_elems_sees T frame w l1 l2 m p :
  ty_ok T → ty_size T ≠ 0 → sees T frame w (l1 ++ l2) m → ptr (buf w) = Some p →
  drop_elems (length l2) p (Z.of_nat (length l1) * ty_size T) (ty_size T) (ty_align T) m = Ok () (note_drop l2 m).
Proof.
  intros Hok Hne. revert l1 m. induction l2 as [|v l2 IH]; intros l1 m Hv Ep; [by rewrite note_nil|].
  cbn [length drop_elems]. unfold bind at 1. rewrite (read_elem T frame w l1 v l2 m p) by done.
  unfold bind, run_drop. rewrite (next_offset l1 v). fold (note_drop [v] m).
  rewrite (IH (l1 ++ [v]) (note_drop [v] m)); [by rewrite note_app| |done]. by rewrite <- app_assoc.
Qed.
Lemma units_of T vals : Forall (λ v, v = ty_unit T) vals → vals = replicate (length vals) (ty_unit T).
Proof. induction 1 as [|v vals Hv _ IH]; [done|]. simpl. by rewrite <- IH, Hv. Qed.
Lemma as_slice_sees T frame w vals m :
  ty_ok T → sees T frame w vals m → as_slice T w m = Ok vals m.
Proof.
  intros Hok Hv. pose proof Hv as (El & Hz & _). unfold as_slice. rewrite El.
  destruct vals as [|v vals]; [done|]. rewrite (proj2 (Z.eqb_neq _ _)) by (simpl; lia). rewrite Nat2Z.id.
  destruct (Z.eqb_spec (ty_size T) 0) as [E0|E0].
  - destruct (Hz E0) as [_ Hu]. by rewrite <- (units_of T _ Hu).
  - destruct (sees_allocated _ _ _ _ _ _ Hok E0 Hv) as [p Ep]. unfold bind at 1, allocated. rewrite Ep.
    unfold bind, requires. rewrite <- El, (slice_bytes T frame w _ m) by done.
    exact (read_slice_sees T frame w [] (v :: vals) m p Hok E0 Hv Ep).
Qed.
Lemma drop_view_frees T frame w vals m :
  ty_ok T → sees T frame w vals m →
  ∃ m' data, drop_view T w m = Ok (buf w) m' ∧ holds frame (buf w) m' data ∧
    m' = note_drop (if needs_drop T && (0 <? ty_size T) then vals else []) m.
Proof.
  intros Hok Hv. pose proof Hv as (El & Hz & _ & rest & Hh). pose proof Hok as (_ & _ & Hs & _).
  unfold drop_view. destruct (needs_drop T); cbn [andb].
  2:{ exists m, (image (ty_size T) vals ++ rest). by rewrite note_nil. }
  destruct (Z.ltb_spec 0 (ty_size T)) as [H0|H0].
  2:{ rewrite andb_false_r. exists m, (image (ty_size T) vals ++ rest). by rewrite note_nil. }
  destruct vals as [|v vals].
  { rewrite El. exists m, (image (ty_size T) [] ++ rest). by rewrite note_nil. }
  rewrite El, (proj2 (Z.ltb_lt _ _)) by (simpl; lia). cbn [andb]. rewrite Nat2Z.id.
  destruct (sees_allocated _ _ _ _ _ _ Hok ltac:(lia) Hv) as [p Ep]. unfold bind, allocated. rewrite Ep.
  pose proof (drop_elems_sees T frame w [] (v :: vals) m p Hok ltac:(lia) Hv Ep) as E. rewrite Z.mul_0_l in E.
  rewrite E. by do 2 eexists.
Qed.
Lemma slice_set_sees T frame w vals m i v :
  ty_ok T → sees T frame w vals m → (ty_size T = 0 → v = ty_unit T) →
  wp (slice_set T w i v m)
    (λ _ m', ∃ old, 0 ≤ i ∧ vals !! Z.to_nat i = Some old ∧ sees T frame w (<[Z.to_nat i := v]> vals) m' ∧
       dropped m' = dropped m ++ if needs_drop T then [old] else [])
    (¬ (0 ≤ i < len w)) refused.
Proof.
  intros Hok Hv Hu. pose proof Hv as (El & Hz & Hal & rest & Hh). pose proof Hok as (_ & _ & Hs & _). unfold slice_set.
  apply wp_bind, wp_assert.
  { intros [E|E]%andb_false_iff; [apply Z.leb_gt in E|apply Z.ltb_ge in E]; lia. }
  intros [Hi%Z.leb_le Hl%Z.ltb_lt]%andb_true_iff.
  destruct (lookup_lt_is_Some_2 vals (Z.to_nat i)) as [old Eold]; [lia|].
  destruct (Z.eqb_spec (ty_size T) 0) as [E0|E0].
  - destruct (Hz E0) as [_ Hf]. assert (Ev : old = ty_unit T) by (by apply (Forall_lookup_1 _ _ _ _ Hf Eold)).
    assert (Hsame : <[Z.to_nat i := v]> vals = vals) by (apply list_insert_id; by rewrite Eold, Ev, Hu).
    destruct (needs_drop T); cbn [run_drop ret wp]; exists old; rewrite Hsame; split_and!; try done.
    + by rewrite Ev.
    + by rewrite app_nil_r.
  - destruct (list_elem_of_split_length vals _ _ Eold) as (l1 & l2 & -> & Ei).
    assert (Eoff : i = Z.of_nat (length l1)) by lia.
    pose proof (slice_bytes T frame w _ m Hok Hv E0) as Hb.
    destruct (Hal E0) as [Hmod _]. pose proof (sees_cap _ _ _ _ _ Hok Hv) as Hcap.
    apply wp_bind. eapply wp_allocated; [done|rewrite length_app in Hcap; simpl in Hcap; nia|]. intros p Ep.
    apply wp_bind, wp_requires; [done|]. apply wp_bind. rewrite Eoff.
    rewrite (read_elem T frame w l1 old l2 m p) by done. cbn [wp].
    rewrite image_app in Hh. unfold image at 2 in Hh. rewrite bind_cons in Hh. fold (image (ty_size T) l2) in Hh.
    rewrite <- !app_assoc in Hh.
    set (d := if needs_drop T then [old] else []).
    destruct (write_elem T frame w (note_drop d m) l1 l2 (fragments (ty_size T) old) rest v p) as (m' & Ew & Ed & Hh');
      [done..|apply length_fragments; lia|done|].
    apply wp_bind. replace ((if needs_drop T then run_drop old else ret ()) m) with (Ok () (note_drop d m) : Outcome V ()).
    2:{ subst d. destruct (needs_drop T); [done|]. by rewrite note_nil. }
    cbn [wp]. rewrite Ew. cbn [wp]. exists old. rewrite <- Eoff, <- Ei in *. split_and!; [done|done| |done].
    rewrite insert_app_r_alt by lia. replace (Z.to_nat i - length l1)%nat with 0%nat by lia. simpl.
    split_and!; [rewrite El, !length_app; done|done|done|by exists rest].
Qed.

(** ** The life of a buffer *)
Inductive view_op := Push (v : V) | Pop | Clear | Reserve (n : Z) | Assign (i : Z) (v : V) | Slice.
Inductive output := Nothing | Popped (o : option V) | Seen (l : list V).
Definition exec T w (o : view_op) : op V (output * TypedView) :=
  match o with
  | Push v => w <- push T w v;; ret (Nothing, w)
  | Pop => r <- pop T w;; ret (Popped r.1, r.2)
  | Clear => w <- clear T w;; ret (Nothing, w)
  | Reserve n => w <- reserve T w n;; ret (Nothing, w)
  | Assign i v => slice_set T w i v;; ret (Nothing, w)
  | Slice => l <- as_slice T w;; ret (Seen l, w)
  end.
Fixpoint exec_all T w (l : list view_op) : op V (list output * TypedView) :=
  match l with
  | [] => ret ([], w)
  | o :: l => r <- exec T w o;; s <- exec_all T r.2 l;; ret (r.1 :: s.1, s.2)
  end.
(** A view is taken, used and dropped. *)
Definition session (s : Ty (V := V) * list view_op) u : op V (list output * UntypedVec) :=
  w <- typed_view s.1 u;;
  r <- exec_all s.1 w s.2;;
  u <- drop_view s.1 r.2;;
  ret (r.1, u).
Fixpoint sessions (l : list (Ty (V := V) * list view_op)) u : op V (list (list output) * UntypedVec) :=
  match l with
  | [] => ret ([], u)
  | s :: l => r <- session s u;; q <- sessions l r.2;; ret (r.1 :: q.1, q.2)
  end.
Definition life (l : list (Ty (V := V) * list view_op)) : op V (list (list output)) :=
  r <- sessions l new;;
  drop_vec r.2;;
  ret r.1.

(** The same on lists: the outputs, the elements and the values dropped; [None] is an
    index out of range. *)
Definition list_op T (o : view_op) vals : option (output * list V * list V) :=
  let gone (l : list V) := if needs_drop T then l else [] in
  match o with
  | Push v => Some (Nothing, vals ++ [v], [])
  | Pop => Some (Popped (last vals), take (length vals - 1) vals, [])
  | Clear => Some (Nothing, [], gone (reverse vals))
  | Reserve _ => Some (Nothing, vals, [])
  | Assign i v =>
      if decide (0 ≤ i) then
        old ← vals !! Z.to_nat i; Some (Nothing, <[Z.to_nat i := v]> vals, gone [old])
      else None
  | Slice => Some (Seen vals, vals, [])
  end.
Fixpoint list_ops T (l : list view_op) vals : option (list output * list V * list V) :=
  match l with
  | [] => Some ([], vals, [])
  | o :: l =>
      '(out, vals, d) ← list_op T o vals;
      '(outs, vals, ds) ← list_ops T l vals;
      Some (out :: outs, vals, d ++ ds)
  end.
(** At its end a view drops what it holds; values of size zero it does not drop. *)
Definition list_session (s : Ty (V := V) * list view_op) : option (list output * list V) :=
  '(outs, vals, d) ← list_ops s.1 s.2 [];
  Some (outs, d ++ if needs_drop s.1 && (0 <? ty_size s.1) then vals else []).
Fixpoint list_sessions (l : list (Ty (V := V) * list view_op)) : option (list (list output) * list V) :=
  match l with
  | [] => Some ([], [])
  | s :: l =>
      '(outs, d) ← list_session s;
      '(rest, ds) ← list_sessions l;
      Some (outs :: rest, d ++ ds)
  end.

(** Values are of their type and no size is absurd. *)
Definition sane_op T (o : view_op) : Prop :=
  match o with
  | Push v | Assign _ v => ty_size T = 0 → v = ty_unit T
  | Reserve n => 0 ≤ n ∧ n * ty_size T ≤ 2 ^ 61
  | _ => True
  end.
Definition sane (s : Ty (V := V) * list view_op) : Prop :=
  ty_ok s.1 ∧ ty_size s.1 ≤ 2 ^ 47 ∧ Z.of_nat (length s.2) < usize_max ∧ Forall (sane_op s.1) s.2.

Lemma exec_sees T frame w vals m o :
  ty_ok T → ty_size T ≤ 2 ^ 47 → sane_op T o → Z.of_nat (length vals) < usize_max → sees T frame w vals m →
  wp (exec T w o m)
    (λ r m', ∃ vals' d, list_op T o vals = Some (r.1, vals', d) ∧ sees T frame r.2 vals' m' ∧
       (length vals' ≤ S (length vals))%nat ∧ dropped m' = dropped m ++ d)
    (list_op T o vals = None) refused.
Proof.
  intros Hok Hsz Ho Hlen Hv. pose proof (sees_cap _ _ _ _ _ Hok Hv) as Hcap. pose proof Hv as (El & _).
  destruct o as [v| | |n|i v|]; cbn [exec list_op]; apply wp_bind.
  - eapply wp_mono; [by apply (push_sees T frame w vals m)| |].
    + intros w' m' [Hv' Ed]. do 2 eexists. split_and!; [done|done|rewrite length_app; simpl; lia|by rewrite app_nil_r].
    + intros [Hb|[_ Hb]]; [unfold too_large in Hb|]; lia.
  - eapply wp_mono; [by apply (pop_sees T frame w vals m)| |done].
    intros [o w'] m' [-> Hp]. simpl in Hp. cbn [wp ret fst snd].
    exists (take (length vals - 1) vals), []. rewrite app_nil_r.
    destruct Hp as [(-> & -> & ->)|(l & v & -> & -> & Hl)]; [split_and!; simpl; [done|done|lia|done]|].
    rewrite last_snoc, length_app. simpl. rewrite Nat.add_sub, take_app_length. split_and!; [done|done|lia|done].
  - eapply wp_mono; [by apply (clear_sees T frame w vals m)| |done].
    intros w' m' [Hv' Ed]. do 2 eexists. split_and!; [done|done|simpl; lia|done].
  - destruct Ho as [Hn Hb]. eapply wp_mono; [by apply (reserve_sees T frame w vals m)| |].
    + intros w' m' [Hv' Ed]. do 2 eexists. split_and!; [done|done|lia|by rewrite app_nil_r].
    + unfold too_large. intros Hl. rewrite El in Hl. lia.
  - eapply wp_mono; [by apply (slice_set_sees T frame w vals m)| |].
    + intros [] m' (old & Hi & Eo & Hv' & Ed). rewrite decide_True by done. rewrite Eo. do 2 eexists.
      split_and!; [done|done|rewrite length_insert; lia|done].
    + intros Hn. case_decide; [|done]. rewrite lookup_ge_None_2; [done|]. lia.
  - rewrite (as_slice_sees T frame w vals m) by done. cbn [wp ret]. do 2 eexists.
    split_and!; [done|done|lia|by rewrite app_nil_r].
Qed.
Lemma exec_all_sees T frame l w vals m :
  ty_ok T → ty_size T ≤ 2 ^ 47 → Forall (sane_op T) l → Z.of_nat (length vals + length l) < usize_max →
  sees T frame w vals m →
  wp (exec_all T w l m)
    (λ r m', ∃ vals' d, list_ops T l vals = Some (r.1, vals', d) ∧ sees T frame r.2 vals' m' ∧
       dropped m' = dropped m ++ d)
    (list_ops T l vals = None) refused.
Proof.
  intros Hok Hsz Hl. revert w vals m. induction Hl as [|o l Ho Hl IH]; intros w vals m Hn Hv; cbn [exec_all list_ops].
  { cbn. exists vals, []. by rewrite app_nil_r. }
  simpl in Hn. apply wp_bind. eapply wp_mono; [apply (exec_sees T frame w vals m); [done..|lia|done]| |by intros ->].
  intros r m' (vals' & d & -> & Hv' & Hlen & Ed). cbn [mbind option_bind]. apply wp_bind.
  eapply wp_mono; [apply (IH r.2 vals' m'); [lia|done]| |by intros ->].
  intros q m'' (vals'' & d' & -> & Hv'' & Ed'). cbn. do 2 eexists. split_and!; [done|done|].
  by rewrite Ed', Ed, app_assoc.
Qed.
Lemma session_holds frame s u m data :
  sane s → holds frame u m data →
  wp (session s u m)
    (λ r m', ∃ d data', list_session s = Some (r.1, d) ∧ holds frame r.2 m' data' ∧ dropped m' = dropped m ++ d)
    (list_session s = None) refused.
Proof.
  intros (Hok & Hsz & Hn & Hl) Hh. destruct s as [T l]. simpl in *. unfold session, list_session. cbn [fst snd].
  apply wp_bind. eapply wp_mono; [by eapply typed_view_sees| |done]. intros w m1 [Hv Ed1].
  apply wp_bind. eapply wp_mono; [by apply (exec_all_sees T frame l w [] m1)| |by intros ->].
  intros r m2 (vals & d & -> & Hv2 & Ed2). cbn [mbind option_bind]. apply wp_bind.
  destruct (drop_view_frees _ _ _ _ _ Hok Hv2) as (m3 & data3 & -> & Hh3 & E3). cbn [wp ret].
  do 2 eexists. split_and!; [done|exact Hh3|]. rewrite E3. simpl. by rewrite Ed2, Ed1, app_assoc.
Qed.
Lemma sessions_hold frame l u m data :
  Forall sane l → holds frame u m data →
  wp (sessions l u m)
    (λ r m', ∃ d data', list_sessions l = Some (r.1, d) ∧ holds frame r.2 m' data' ∧ dropped m' = dropped m ++ d)
    (list_sessions l = None) refused.
Proof.
  intros Hl. revert u m data. induction Hl as [|s l Hs Hl IH]; intros u m data Hh; cbn [sessions list_sessions].
  { cbn. exists [], data. by rewrite app_nil_r. }
  apply wp_bind. eapply wp_mono; [by eapply session_holds| |by intros ->].
  intros r m' (d & data' & -> & Hh' & Ed). cbn [mbind option_bind]. apply wp_bind.
  eapply wp_mono; [by eapply IH| |by intros ->].
  intros q m'' (d' & data'' & -> & Hh'' & Ed'). cbn. do 2 eexists. split_and!; [done|done|].
  by rewrite Ed', Ed, app_assoc.
Qed.

Lemma life_refines l m :
  fresh m → Forall sane l →
  match life l m with
  | Ok outs m' => ∃ d, list_sessions l = Some (outs, d) ∧ heap m' = heap m ∧ dropped m' = dropped m ++ d
  | Panic => list_sessions l = None
  | Abort => refused
  | UB => False
  end.
Proof.
  intros Hf Hl. change (wp (life l m) (λ outs m', ∃ d, list_sessions l = Some (outs, d) ∧ heap m' = heap m ∧
    dropped m' = dropped m ++ d) (list_sessions l = None) refused).
  unfold life. apply wp_bind. eapply wp_mono; [eapply (sessions_hold (heap m) l); [done|by apply new_holds]| |done].
  intros r m1 (d & data & E & Hh & Ed). apply wp_bind. eapply wp_mono; [by eapply drop_vec_frees| |done].
  intros [] m2 [Eh Ed2]. cbn. exists d. split_and!; [done|done|congruence].
Qed.

(** ** Every value once *)
(** The values that operations store, and those that outputs hand to the caller *)
Definition stored (o : view_op) : list V := match o with Push v | Assign _ v => [v] | _ => [] end.
Definition returned (x : output) : list V := match x with Popped (Some v) => [v] | _ => [] end.

Lemma list_op_conserves T o vals out vals' d :
  needs_drop T = true → list_op T o vals = Some (out, vals', d) → stored o ++ vals ≡ₚ returned out ++ d ++ vals'.
Proof.
  intros Hd. destruct o as [v| | |n|i v|]; cbn [list_op stored]; rewrite ?Hd; intros E.
  - simplify_eq. simpl. solve_Permutation.
  - simplify_eq. destruct vals as [|v vals _] using rev_ind; [done|].
    rewrite last_snoc, length_app. simpl. rewrite Nat.add_sub, take_app_length. solve_Permutation.
  - simplify_eq. simpl. by rewrite app_nil_r, reverse_Permutation.
  - by simplify_eq.
  - case_decide; [|done]. destruct (vals !! Z.to_nat i) as [old|] eqn:Eo; simplify_eq/=.
    destruct (list_elem_of_split_length vals _ _ Eo) as (l1 & l2 & -> & ->).
    rewrite insert_app_r_alt, Nat.sub_diag by lia. simpl. solve_Permutation.
  - by simplify_eq.
Qed.
Lemma list_ops_conserve T l vals outs vals' d :
  needs_drop T = true → list_ops T l vals = Some (outs, vals', d) →
  (l ≫= stored) ++ vals ≡ₚ (outs ≫= returned) ++ d ++ vals'.
Proof.
  intros Hd. revert vals outs d. induction l as [|o l IH]; intros vals outs d E; cbn [list_ops] in E.
  { by simplify_eq. }
  destruct (list_op T o vals) as [[[out vals1] d1]|] eqn:E1; [|done]. cbn [mbind option_bind] in E.
  destruct (list_ops T l vals1) as [[[outs1 vals2] d2]|] eqn:E2; [|done]. cbn [mbind option_bind] in E.
  injection E as <- <- <-. rewrite !bind_cons. apply list_op_conserves in E1; [|done]. apply IH in E2.
  transitivity ((l ≫= stored) ++ stored o ++ vals); [solve_Permutation|]. rewrite E1.
  transitivity ((returned out ++ d1) ++ (l ≫= stored) ++ vals1); [solve_Permutation|]. rewrite E2. solve_Permutation.
Qed.
Lemma list_sessions_conserve l outs d :
  Forall (λ s, needs_drop s.1 = true ∧ 0 < ty_size s.1) l → list_sessions l = Some (outs, d) →
  (l ≫= λ s, s.2 ≫= stored) ≡ₚ (outs ≫= λ o, o ≫= returned) ++ d.
Proof.
  intros Hl. revert outs d. induction Hl as [|[T os] l [Hd Hs] _ IH]; intros outs d E; cbn [list_sessions] in E.
  { by simplify_eq. }
  unfold list_session in E. cbn [fst snd] in *. rewrite Hd, (proj2 (Z.ltb_lt _ _) Hs) in E. cbn [andb] in E.
  destruct (list_ops T os []) as [[[outs1 vals1] d1]|] eqn:E1; [|done]. cbn [mbind option_bind] in E.
  destruct (list_sessions l) as [[outs2 d2]|] eqn:E2; [|done]. cbn [mbind option_bind] in E. injection E as <- <-.
  apply list_ops_conserve in E1; [|done]. rewrite app_nil_r in E1. rewrite !bind_cons. cbn [snd].
  rewrite E1, (IH outs2 d2) by done. solve_Permutation.
Qed.

End Inv.

(** ** Witness and examples *)
#[local] Program Instance plenty : Allocator := {| grants := λ _ l, l_size l <=? 2 ^ 47 |}.
Next Obligation. intros n l Hl. by apply Z.leb_le. Qed.
Definition u32 : Ty := {| ty_size := 4; ty_align := 4; needs_drop := false; ty_unit := 0 |}.
Definition boxed : Ty := {| ty_size := 8; ty_align := 8; needs_drop := true; ty_unit := 0 |}.
Definition guard : Ty := {| ty_size := 0; ty_align := 1; needs_drop := true; ty_unit := 0 |}.
Definition idle : Mach Z := {| heap := ∅; next := 0; dropped := [] |}.
Definition demo : list (Ty * list view_op) :=
  [(u32, [Push 1; Push 2; Push 3; Slice; Pop]); (boxed, [Push 7; Push 8; Assign 0 9; Pop; Slice])].
Lemma demo_sane : Forall sane demo.
Proof.
  repeat apply List.Forall_cons; [| |apply List.Forall_nil]; unfold sane, ty_ok; simpl;
    (split_and!; try done; repeat constructor; try done; simpl; lia).
Qed.
Example demo_runs :
  life demo idle = Ok [[Nothing; Nothing; Nothing; Seen [1; 2; 3]; Popped (Some 3)];
                       [Nothing; Nothing; Nothing; Popped (Some 8); Seen [9]]]
                      {| heap := ∅; next := 4; dropped := [7; 9] |}.
Proof. by vm_compute. Qed.

(** A view that is dropped does not run the destructors of its values of size zero, although
    such types can have one; [clear] does. *)
Example zst_destructor_skipped :
  life [(guard, [Push 0; Push 0])] idle = Ok [[Nothing; Nothing]] idle ∧
  life [(guard, [Push 0; Push 0; Clear])] idle =
    Ok [[Nothing; Nothing; Nothing]] {| heap := ∅; next := 0; dropped := [0; 0] |}.
Proof. by vm_compute. Qed.
(** The first allocation takes the alignment of the type of the view, also below the one
    the buffer was created with, and the capacity need not be a power of two. *)
Example alignment_downgraded :
  bind (with_capacity 0 16) (λ u, bind (typed_view u32 u) (λ w, bind (push u32 w 5) (λ w, ret (align (buf w))))) idle =
    Ok 4 {| heap := {[0%nat := {| b_layout := {| l_size := 4; l_align := 4 |}; b_data := fragments 4 5 |}]};
            next := 1; dropped := [] |}.
Proof. by vm_compute. Qed.
Example capacity_not_a_power :
  match bind (with_capacity 20 4) (λ u, grow u 21 4 20) idle with
  | Ok u _ => cap_bytes u = 40
  | _ => False
  end.
Proof. by vm_compute. Qed.
End UntypedVecInv.
