(* ===== verification/Selector.v ===== *)
(** * Label selectors ([crates/client-protocol/src/selector.rs])

    The parser of selector expressions, their text and their meaning.  Text is the list of
    its UTF-8 bytes.  The parser reads bytes as if they were characters and cuts the text at
    the positions it finds, so that a cut inside a character panics: a parser step is a
    function of the position that succeeds, fails with an error at a position, panics, or
    runs out of fuel, which [parse_runs] excludes. *)

From S2P Require Import Prelude Bytes.

Module Selector.
Import Bytes.

(** ** Selectors *)
Inductive Predicate :=
  | Equals (key value : list Z)
  | NotEquals (key value : list Z)
  | In (key : list Z) (values : list (list Z))
  | NotIn (key : list Z) (values : list (list Z))
  | Exists (key : list Z)
  | NotExists (key : list Z).
Record Selector := { predicates : list Predicate }.
#[global] Instance Predicate_eq : EqDecision Predicate.
Proof. solve_decision. Defined.
Definition empty : Selector := {| predicates := [] |}.
Definition is_empty (s : Selector) : bool := match predicates s with [] => true | _ => false end.

Definition holds_eq (o : option (list Z)) (value : list Z) : bool :=
  match o with Some v => bool_decide (v = value) | None => false end.
Definition predicate_matches (lookup : list Z → option (list Z)) (p : Predicate) : bool :=
  match p with
  | Equals key value => holds_eq (lookup key) value
  | NotEquals key value => negb (holds_eq (lookup key) value)
  | In key values => match lookup key with Some v => existsb (λ c, bool_decide (c = v)) values | None => false end
  | NotIn key values =>
      match lookup key with Some v => negb (existsb (λ c, bool_decide (c = v)) values) | None => true end
  | Exists key => is_some (lookup key)
  | NotExists key => is_none (lookup key)
  end.
Definition matches (s : Selector) (lookup : list Z → option (list Z)) : bool :=
  forallb (predicate_matches lookup) (predicates s).

(** [slice.join(",")] *)
Fixpoint join (sep : list Z) (l : list (list Z)) : list Z :=
  match l with [] => [] | [x] => x | x :: l => x ++ sep ++ join sep l end.
Definition comma : list Z := [44].
(** [Display] *)
Definition print_predicate (p : Predicate) : list Z :=
  match p with
  | Equals key value => key ++ [61] ++ value
  | NotEquals key value => key ++ [33; 61] ++ value
  | In key values => key ++ [32; 105; 110; 32; 40] ++ join comma values ++ [41]
  | NotIn key values => key ++ [32; 110; 111; 116; 105; 110; 32; 40] ++ join comma values ++ [41]
  | Exists key => key
  | NotExists key => [33] ++ key
  end.
Definition print_selector (s : Selector) : list Z := join comma (print_predicate <$> predicates s).

(** ** The parser *)
Inductive Result (A : Type) := POk (a : A) (pos : nat) | PErr (message : string) (position : nat) | PPanic | PFuel.
Arguments POk {A}. Arguments PErr {A}. Arguments PPanic {A}. Arguments PFuel {A}.
Definition parser (A : Type) : Type := nat → Result A.
Definition ret {A} (a : A) : parser A := λ pos, POk a pos.
Definition bind {A B} (x : parser A) (f : A → parser B) : parser B := λ pos,
  match x pos with POk a pos => f a pos | PErr e p => PErr e p | PPanic => PPanic | PFuel => PFuel end.
Definition error {A} (message : string) : parser A := λ pos, PErr message pos.
#[local] Notation "x <- e ;; f" := (bind e (λ x, f)) (at level 100, e at next level, right associativity).
#[local] Notation "e ;; f" := (bind e (λ _, f)) (at level 100, right associativity).

(** [char::is_alphanumeric] of a byte read as a character (Latin-1): letters and digits of
    ASCII, and of the upper half the letters, the superscript digits and the fractions *)
Definition is_alphanumeric (b : Z) : bool :=
  between 48 b 57 || between 65 b 90 || between 97 b 122 ||
  (b =? 170) || (b =? 181) || (b =? 186) || (b =? 178) || (b =? 179) || (b =? 185) || between 188 b 190 ||
  between 192 b 214 || between 216 b 246 || between 248 b 255.
Definition key_char (b : Z) : bool := is_alphanumeric b || (b =? 95) || (b =? 45) || (b =? 46) || (b =? 47).
Definition value_char (b : Z) : bool := is_alphanumeric b || (b =? 95) || (b =? 45) || (b =? 46).

Section Parser.
Variable input : list Z.

(** [str::is_char_boundary] and slicing *)
Definition is_char_boundary (i : nat) : bool :=
  match input !! i with Some b => negb (continuation b) | None => bool_decide (i = length input) end.
Definition slice (start stop : nat) : parser (list Z) := λ pos,
  if (start <=? stop)%nat && is_char_boundary start && is_char_boundary stop
  then POk (take (stop - start) (drop start input)) pos else PPanic.
Definition slice_from (start : nat) : parser (list Z) := slice start (length input).

(** The loops that move the position while the byte there satisfies [f] *)
Fixpoint count_while (f : Z → bool) (l : list Z) : nat :=
  match l with b :: l => if f b then S (count_while f l) else O | [] => O end.
Definition advance_while (f : Z → bool) : parser unit := λ pos, POk () (pos + count_while f (drop pos input))%nat.
Definition position : parser nat := λ pos, POk pos pos.
Definition skip_whitespace : parser unit := advance_while (λ b, b =? 32).
Definition peek : parser (option Z) := λ pos, POk (input !! pos) pos.
Definition advance : parser unit := λ pos, POk () (pos + 1)%nat.
Definition advance_by (n : nat) : parser unit := λ pos, POk () (pos + n)%nat.
Definition at_end : parser bool := λ pos, POk (length input <=? pos)%nat pos.

Definition parse_key : parser (list Z) :=
  start <- position;;
  advance_while key_char;;
  pos <- position;;
  if (pos =? start)%nat then error "expected key" else slice start pos.
Definition parse_value : parser (list Z) :=
  start <- position;;
  advance_while value_char;;
  pos <- position;;
  slice start pos.
(** The loop of [parse_value_set]; each turn consumes a comma. *)
Fixpoint value_loop (fuel : nat) (values : list (list Z)) : parser (list (list Z)) :=
  match fuel with
  | O => λ _, PFuel
  | S fuel =>
      skip_whitespace;;
      c <- peek;;
      match c with
      | Some 41 => advance;; ret values
      | Some 44 => advance;; skip_whitespace;; v <- parse_value;; value_loop fuel (values ++ [v])
      | _ => error "expected ',' or ')' in value set"
      end
  end.
Definition parse_value_set : parser (list (list Z)) :=
  c <- peek;;
  match c with
  | Some 40 =>
      advance;;
      skip_whitespace;;
      c <- peek;;
      match c with
      | Some 41 => advance;; ret []
      | _ => v <- parse_value;; value_loop (S (length input)) [v]
      end
  | _ => error "expected '(' to start value set"
  end.
(** [remaining.starts_with(word)] and the test of what follows it *)
Definition keyword (word remaining : list Z) : bool :=
  match strip_prefix remaining word with
  | Some (c :: _) => (c =? 32) || (c =? 40)
  | Some [] => true
  | None => false
  end.
Definition parse_predicate : parser Predicate :=
  skip_whitespace;;
  c <- peek;;
  match c with
  | Some 33 => advance;; key <- parse_key;; ret (NotExists key)
  | _ =>
      key <- parse_key;;
      skip_whitespace;;
      c <- peek;;
      match c with
      | None | Some 44 => ret (Exists key)
      | Some 33 =>
          advance;;
          c <- peek;;
          match c with
          | Some 61 => advance;; skip_whitespace;; value <- parse_value;; ret (NotEquals key value)
          | _ => error "expected '=' after '!'"
          end
      | Some 61 => advance;; skip_whitespace;; value <- parse_value;; ret (Equals key value)
      | _ =>
          pos <- position;;
          remaining <- slice_from pos;;
          if keyword [105; 110] remaining then
            advance_by 2;; skip_whitespace;; values <- parse_value_set;; ret (In key values)
          else if keyword [110; 111; 116; 105; 110] remaining then
            advance_by 5;; skip_whitespace;; values <- parse_value_set;; ret (NotIn key values)
          else error "expected operator: '=', '!=', 'in', or 'notin'"
      end
  end.
(** The loop of [parse_selector]; each turn consumes a comma. *)
Fixpoint selector_loop (fuel : nat) (l : list Predicate) : parser (list Predicate) :=
  match fuel with
  | O => λ _, PFuel
  | S fuel =>
      skip_whitespace;;
      e <- at_end;;
      if e then ret l
      else
        c <- peek;;
        match c with
        | Some 44 =>
            advance;;
            skip_whitespace;;
            e <- at_end;;
            if e then error "unexpected end of input after ','"
            else p <- parse_predicate;; selector_loop fuel (l ++ [p])
        | _ => error "expected ',' or end of input"
        end
  end.
Definition parse_selector : parser Selector :=
  skip_whitespace;;
  e <- at_end;;
  if e then ret empty
  else
    p <- parse_predicate;;
    l <- selector_loop (S (length input)) [p];;
    ret {| predicates := l |}.
End Parser.
Definition parse (input : list Z) : Result Selector := parse_selector input 0%nat.
End Selector.
