(* ===== verification/SelectorInv.v ===== *)
(** * Selectors are printed and parsed faithfully ([crates/client-protocol/src/selector.rs])

    The text of a selector parses to that selector, and for ASCII text the parser always
    ends with a selector that prints back or with an error at a position of the text. *)

From S2P Require Import Prelude Bytes Selector.

Module SelectorInv.
Import Bytes Selector.

(** ** Well-formed selectors *)
Definition key_ok (k : list Z) : bool :=
  match k with [] => false | _ => forallb (λ b, key_char b && (b <? 128)) k end.
Definition value_ok (v : list Z) : bool := forallb (λ b, value_char b && (b <? 128)) v.
(** A set of one empty value has the text of the empty set. *)
Definition values_ok (l : list (list Z)) : bool := forallb value_ok l && bool_decide (l ≠ [[]]).
Definition predicate_ok (p : Predicate) : bool :=
  match p with
  | Equals k v | NotEquals k v => key_ok k && value_ok v
  | In k l | NotIn k l => key_ok k && values_ok l
  | Exists k | NotExists k => key_ok k
  end.
Definition selector_ok (s : Selector) : bool := forallb predicate_ok (predicates s).

(** ** Reading a known text *)
(** [reads P c a stop]: at the text [c], followed by a text that satisfies [stop], the parser
    [P] consumes [c] and returns [a]. *)
Definition reads {A} (P : list Z → parser A) (c : list Z) (a : A) (stop : list Z → Prop) : Prop :=
  ∀ pre rest, stop rest → P (pre ++ c ++ rest) (length pre) = POk a (length pre + length c)%nat.
Definition starts (f : Z → bool) (rest : list Z) : bool := match rest with b :: _ => f b | [] => false end.
Definition ascii_head (rest : list Z) : Prop := starts (λ b, negb (between 0 b 127)) rest = false.

Lemma reads_bind {A B} (P : list Z → parser A) (f : A → list Z → parser B) c1 c2 a b (s1 s2 : list Z → Prop) :
  reads P c1 a s1 → reads (f a) c2 b s2 → (∀ rest, s2 rest → s1 (c2 ++ rest)) →
  reads (λ i, bind (P i) (λ x, f x i)) (c1 ++ c2) b s2.
Proof.
  intros H1 H2 Hs pre rest Hr. unfold bind. rewrite <- (app_assoc c1 c2 rest), (H1 pre (c2 ++ rest)) by auto.
  rewrite app_assoc, <- length_app, (H2 (pre ++ c1) rest Hr). by rewrite !length_app, Nat.add_assoc.
Qed.
Lemma reads_ret {A} (a : A) : reads (λ _, ret a) [] a (λ _, True).
Proof. intros pre rest _. unfold ret. by rewrite Nat.add_0_r. Qed.
Lemma reads_weaken {A} (P : list Z → parser A) c a (s1 s2 : list Z → Prop) :
  reads P c a s1 → (∀ rest, s2 rest → s1 rest) → reads P c a s2.
Proof. intros H1 Hs pre rest Hr. auto. Qed.
Lemma drop_pre (pre l : list Z) : drop (length pre) (pre ++ l) = l.
Proof. apply drop_app_length. Qed.
Lemma at_pre (pre l : list Z) : (pre ++ l) !! length pre = head l.
Proof. rewrite lookup_app_r, Nat.sub_diag by lia. by destruct l. Qed.
Lemma count_while_app f c rest : forallb f c = true → starts f rest = false → count_while f (c ++ rest) = length c.
Proof.
  intros Hc Hs. induction c as [|b c IH]; simpl in *.
  - destruct rest as [|b rest]; simpl in *; [done|]. by rewrite Hs.
  - apply andb_true_iff in Hc as [-> Hc]. by rewrite IH.
Qed.
Lemma reads_while f c : forallb f c = true → reads (λ i, advance_while i f) c () (λ r, starts f r = false).
Proof. intros Hc pre rest Hr. unfold advance_while. by rewrite drop_pre, count_while_app. Qed.
Lemma reads_no_space : reads skip_whitespace [] () (λ r, starts (λ b, b =? 32) r = false).
Proof. by apply (reads_while _ []). Qed.
Lemma reads_space : reads skip_whitespace [32] () (λ r, starts (λ b, b =? 32) r = false).
Proof. by apply (reads_while _ [32]). Qed.
Lemma reads_peek o : reads peek [] o (λ r, head r = o).
Proof. intros pre rest <-. unfold peek. by rewrite app_nil_l, at_pre, Nat.add_0_r. Qed.
Lemma reads_advance b : reads (λ _, advance) [b] () (λ _, True).
Proof. by intros pre rest _. Qed.
Lemma reads_advance_by c : reads (λ _, advance_by (length c)) c () (λ _, True).
Proof. by intros pre rest _. Qed.
Lemma boundary_after (pre rest : list Z) : ascii_head rest → is_char_boundary (pre ++ rest) (length pre) = true.
Proof.
  intros Hr. unfold is_char_boundary. rewrite at_pre. destruct rest as [|b rest]; simpl in *.
  - apply bool_decide_eq_true. by rewrite app_nil_r.
  - unfold ascii_head, starts, between in Hr. unfold continuation. apply negb_false_iff, andb_true_iff in Hr as [H0 H1].
    destruct (Z.leb_spec 128 b); [lia|done].
Qed.
Lemma slice_text (pre c rest : list Z) pos :
  ascii_head (c ++ rest) → ascii_head rest →
  slice (pre ++ c ++ rest) (length pre) (length pre + length c) pos = POk c pos.
Proof.
  intros Hc Hr. unfold slice. rewrite (proj2 (Nat.leb_le _ _)) by lia.
  rewrite boundary_after by done. rewrite app_assoc, <- length_app, boundary_after by done. cbn [andb].
  rewrite <- app_assoc, drop_pre, length_app.
  by replace (length pre + length c - length pre)%nat with (length c) by lia; rewrite take_app_length.
Qed.
Lemma ascii_chars f c rest :
  forallb (λ b, f b && (b <? 128)) c = true → (∀ b, f b = true → 0 ≤ b) → ascii_head rest → ascii_head (c ++ rest).
Proof.
  intros Hc Hf Hr. destruct c as [|b c]; [done|]. unfold ascii_head, starts, between. simpl in *.
  apply andb_true_iff in Hc as [[Hb Hl]%andb_true_iff _]. apply Hf in Hb. apply Z.ltb_lt in Hl.
  apply negb_false_iff, andb_true_iff. split; apply Z.leb_le; lia.
Qed.
Lemma chars_only f c : forallb (λ b, f b && (b <? 128)) c = true → forallb f c = true.
Proof.
  intros Hc. induction c as [|b c IH]; [done|]. simpl in *. apply andb_true_iff in Hc as [[Hb _]%andb_true_iff Hc].
  by rewrite Hb, IH.
Qed.
Ltac char_bounds := unfold key_char, value_char, is_alphanumeric, between; intros b Hb;
  repeat rewrite ?orb_true_iff, ?andb_true_iff, ?Z.leb_le, ?Z.eqb_eq in Hb; lia.
Lemma key_char_nonneg b : key_char b = true → 0 ≤ b.
Proof. revert b. char_bounds. Qed.
Lemma value_char_nonneg b : value_char b = true → 0 ≤ b.
Proof. revert b. char_bounds. Qed.

(** One step of a sequence: the text before the position is [pre]. *)
Lemma run_reads {A B} (P : list Z → parser A) c a stop (f : A → parser B) i pre rest pos :
  reads P c a stop → i = pre ++ c ++ rest → stop rest → pos = length pre →
  bind (P i) f pos = f a (length (pre ++ c)).
Proof. intros H -> Hr ->. unfold bind. rewrite (H pre rest Hr). by rewrite length_app. Qed.
Ltac assoc := rewrite ?app_nil_r, <- ?app_assoc; reflexivity.
Tactic Notation "step" uconstr(H) uconstr(pre) uconstr(rest) :=
  erewrite (run_reads _ _ _ _ _ _ pre rest _ H); [|assoc| |done]; cbv beta iota; rewrite ?app_nil_r.

Lemma reads_key k : key_ok k = true → reads parse_key k k (λ r, starts key_char r = false ∧ ascii_head r).
Proof.
  intros Hk pre rest [Hs Ha]. unfold parse_key, bind, position.
  assert (Hc : forallb (λ b, key_char b && (b <? 128)) k = true) by (by destruct k).
  rewrite (reads_while key_char k (chars_only _ _ Hc) pre rest Hs).
  destruct (Nat.eqb_spec (length pre + length k) (length pre)) as [E|_]; [destruct k; simpl in *; [done|lia]|].
  apply slice_text; [|done]. by apply (ascii_chars key_char); [|apply key_char_nonneg|].
Qed.
Lemma reads_value v : value_ok v = true → reads parse_value v v (λ r, starts value_char r = false ∧ ascii_head r).
Proof.
  intros Hv pre rest [Hs Ha]. unfold parse_value, bind, position.
  rewrite (reads_while value_char v (chars_only _ _ Hv) pre rest Hs).
  apply slice_text; [|done]. by apply (ascii_chars value_char); [|apply value_char_nonneg|].
Qed.
(** A value does not begin with a space or a parenthesis. *)
Lemma value_head (g : Z → bool) v rest :
  value_ok v = true → (∀ b, value_char b = true → g b = false) → starts g rest = false → starts g (v ++ rest) = false.
Proof.
  intros Hv Hg Hr. destruct v as [|b v]; [done|]. simpl in *.
  apply andb_true_iff in Hv as [[Hb _]%andb_true_iff _]. by apply Hg.
Qed.
Ltac not_char := let b := fresh in intros b Hb; unfold value_char, is_alphanumeric, between in Hb;
  repeat rewrite ?orb_true_iff, ?andb_true_iff, ?Z.leb_le, ?Z.eqb_eq in Hb;
  destruct (Z.eqb_spec b 32); destruct (Z.eqb_spec b 41); try done; subst; lia.
Lemma value_not_space b : value_char b = true → (b =? 32) = false.
Proof. revert b. not_char. Qed.
Lemma value_not_close b : value_char b = true → (b =? 41) = false.
Proof. revert b. not_char. Qed.

Definition more_values (l : list (list Z)) : list Z := (l ≫= λ v, 44 :: v) ++ [41].
Lemma more_values_cons v l : more_values (v :: l) = 44 :: v ++ more_values l.
Proof. unfold more_values. rewrite bind_cons. by rewrite <- app_assoc. Qed.
Lemma more_values_stop l rest :
  starts value_char (more_values l ++ rest) = false ∧ ascii_head (more_values l ++ rest) ∧
  starts (λ b, b =? 32) (more_values l ++ rest) = false.
Proof. destruct l as [|v l]; [done|]. rewrite more_values_cons. done. Qed.
Lemma join_values v l : join comma (v :: l) ++ [41] = v ++ more_values l.
Proof.
  revert v. induction l as [|u l IH]; intros v; [done|]. rewrite more_values_cons.
  change (join comma (v :: u :: l)) with (v ++ comma ++ join comma (u :: l)).
  rewrite <- !app_assoc, IH. done.
Qed.
Lemma reads_values l fuel acc :
  forallb value_ok l = true → (length l < fuel)%nat →
  reads (λ i, value_loop i fuel acc) (more_values l) (acc ++ l) (λ _, True).
Proof.
  revert fuel acc. induction l as [|v l IH]; intros fuel acc Hl Hf pre rest _;
    (destruct fuel as [|fuel]; [simpl in Hf; lia|]); cbn [value_loop]; set (i := pre ++ _ ++ rest).
  - step reads_no_space pre ([41] ++ rest); [|done]. step (reads_peek (Some 41)) pre ([41] ++ rest); [|done].
    step (reads_advance 41) pre rest; [|done]. unfold ret. rewrite length_app. done.
  - simpl in Hl. apply andb_true_iff in Hl as [Hv Hl]. simpl in Hf.
    assert (Ei : i = pre ++ [44] ++ v ++ more_values l ++ rest).
    { subst i. rewrite more_values_cons. simpl. by rewrite <- app_assoc. }
    clearbody i. subst i. set (i := pre ++ _). destruct (more_values_stop l rest) as (Hs1 & Hs2 & Hs3).
    step reads_no_space pre ([44] ++ v ++ more_values l ++ rest); [|done].
    step (reads_peek (Some 44)) pre ([44] ++ v ++ more_values l ++ rest); [|done].
    step (reads_advance 44) pre (v ++ more_values l ++ rest); [|done].
    step reads_no_space (pre ++ [44]) (v ++ more_values l ++ rest).
    2:{ apply value_head; [done|apply value_not_space|done]. }
    step (reads_value v Hv) (pre ++ [44]) (more_values l ++ rest); [|done].
    subst i. replace (pre ++ [44] ++ v ++ more_values l ++ rest) with (((pre ++ [44]) ++ v) ++ more_values l ++ rest) by assoc.
    rewrite (IH fuel (acc ++ [v]) Hl ltac:(lia) ((pre ++ [44]) ++ v) rest I).
    rewrite <- app_assoc. f_equal. rewrite more_values_cons, !length_app. simpl. rewrite length_app. lia.
Qed.
Lemma not_close {A} (o : option Z) (X Y : A) : o ≠ Some 41 → match o with Some 41 => X | _ => Y end = Y.
Proof. intros H. repeat case_match; congruence. Qed.
Lemma not_bang {A} (b : Z) (X Y : A) : b ≠ 33 → match b with 33 => X | _ => Y end = Y.
Proof. intros H. repeat case_match; congruence. Qed.
Lemma no_bang {A} (o : option Z) (X Y : A) : o ≠ Some 33 → match o with Some 33 => X | _ => Y end = Y.
Proof. intros H. repeat case_match; congruence. Qed.
Lemma no_equals {A} (o : option Z) (X Y : A) : o ≠ Some 61 → match o with Some 61 => X | _ => Y end = Y.
Proof. intros H. repeat case_match; congruence. Qed.
Lemma no_comma {A} (o : option Z) (X Y : A) : o ≠ Some 44 → match o with Some 44 => X | _ => Y end = Y.
Proof. intros H. repeat case_match; congruence. Qed.
Lemma no_open {A} (o : option Z) (X Y : A) : o ≠ Some 40 → match o with Some 40 => X | _ => Y end = Y.
Proof. intros H. repeat case_match; congruence. Qed.
Lemma no_operator {A} (b : Z) (X Y Z W : A) :
  b ≠ 44 → b ≠ 33 → b ≠ 61 → match b with 44 => X | 33 => Y | 61 => Z | _ => W end = W.
Proof. intros H1 H2 H3. repeat case_match; congruence. Qed.
Lemma length_more_values l : (length l < length (more_values l))%nat.
Proof. induction l as [|v l IH]; [simpl; lia|]. rewrite more_values_cons. simpl. rewrite length_app. lia. Qed.
Lemma reads_value_set l :
  values_ok l = true → reads parse_value_set ([40] ++ join comma l ++ [41]) l (λ _, True).
Proof.
  intros [Hl Hne%bool_decide_eq_true]%andb_true_iff pre rest _. unfold parse_value_set. destruct l as [|v l].
  - set (i := pre ++ _). step (reads_peek (Some 40)) pre ([40; 41] ++ rest); [|done].
    step (reads_advance 40) pre ([41] ++ rest); [|done].
    step reads_no_space (pre ++ [40]) ([41] ++ rest); [|done].
    step (reads_peek (Some 41)) (pre ++ [40]) ([41] ++ rest); [|done].
    step (reads_advance 41) (pre ++ [40]) rest; [|done]. unfold ret. f_equal. rewrite !length_app. simpl. lia.
  - rewrite join_values. simpl in Hl. apply andb_true_iff in Hl as [Hv Hl].
    destruct (more_values_stop l rest) as (Hs1 & Hs2 & Hs3).
    assert (Hc : starts (λ b, b =? 41) (v ++ more_values l ++ rest) = false).
    { destruct v as [|b v].
      - destruct l as [|u l]; [done|]. by rewrite more_values_cons.
      - simpl in *. apply andb_true_iff in Hv as [[Hb _]%andb_true_iff _]. by apply value_not_close. }
    replace (pre ++ ([40] ++ v ++ more_values l) ++ rest) with (pre ++ [40] ++ v ++ more_values l ++ rest) by assoc.
    set (i := pre ++ _). step (reads_peek (Some 40)) pre ([40] ++ v ++ more_values l ++ rest); [|done].
    step (reads_advance 40) pre (v ++ more_values l ++ rest); [|done].
    step reads_no_space (pre ++ [40]) (v ++ more_values l ++ rest).
    2:{ apply value_head; [done|apply value_not_space|done]. }
    step (reads_peek (head (v ++ more_values l ++ rest))) (pre ++ [40]) (v ++ more_values l ++ rest); [|done].
    rewrite not_close.
    2:{ destruct (v ++ more_values l ++ rest); [done|]. simpl in *. intros [= ->]. done. }
    step (reads_value v Hv) (pre ++ [40]) (more_values l ++ rest); [|done].
    assert (Ei : i = ((pre ++ [40]) ++ v) ++ more_values l ++ rest) by (subst i; assoc).
    rewrite Ei at 1. rewrite (reads_values l (S (length i)) [v] Hl); [| |done].
    + f_equal. repeat (rewrite length_app; simpl). lia.
    + pose proof (length_more_values l). rewrite Ei, !length_app. lia.
Qed.

(** What can follow a predicate *)
Definition ends (rest : list Z) : Prop := rest = [] ∨ ∃ r, rest = 44 :: r.
Lemma ends_stop rest :
  ends rest → starts key_char rest = false ∧ starts value_char rest = false ∧ ascii_head rest ∧
  starts (λ b, b =? 32) rest = false.
Proof. by intros [->|[r ->]]. Qed.
Lemma key_head k : key_ok k = true → ∃ b k', k = b :: k' ∧ b ≠ 33 ∧ (b =? 32) = false ∧ (b =? 44) = false.
Proof.
  destruct k as [|b k]; [done|]. intros H. exists b, k. simpl in H. apply andb_true_iff in H as [[Hb _]%andb_true_iff _].
  unfold key_char, is_alphanumeric, between in Hb.
  repeat rewrite ?orb_true_iff, ?andb_true_iff, ?Z.leb_le, ?Z.eqb_eq in Hb. rewrite !Z.eqb_neq. split_and!; [done|lia..].
Qed.
Lemma keyword_here word c r : (c = 32 ∨ c = 40) → keyword word (word ++ c :: r) = true.
Proof.
  intros Hc. unfold keyword, strip_prefix. rewrite take_app_length, decide_True by done. rewrite drop_app_length.
  by destruct Hc as [-> | ->].
Qed.
Lemma keyword_other r : keyword [105; 110] (110 :: r) = false.
Proof. unfold keyword, strip_prefix. rewrite decide_False; [done|]. destruct r; done. Qed.
Lemma slice_rest (pre rest : list Z) pos : ascii_head rest → slice_from (pre ++ rest) (length pre) pos = POk rest pos.
Proof.
  intros Hr. unfold slice_from. rewrite length_app.
  pose proof (slice_text pre rest [] pos) as H. rewrite app_nil_r in H. by apply H.
Qed.

(** The beginning of a predicate that is not a negation *)
Lemma reads_lead {A} (f g : parser A) k i pre rest :
  key_ok k = true → i = pre ++ k ++ rest →
  (bind (skip_whitespace i) (λ _, bind (peek i) (λ c, match c with Some 33 => f | _ => g end))) (length pre) =
  g (length pre).
Proof.
  intros Hk ->. destruct (key_head k Hk) as (b & k' & -> & Hb & Hs & _). set (i := pre ++ _).
  step reads_no_space pre ((b :: k') ++ rest); [|done].
  step (reads_peek (Some b)) pre ((b :: k') ++ rest); [|done]. rewrite not_bang by done. done.
Qed.
Ltac finish := unfold ret; f_equal; repeat (rewrite length_app; simpl); lia.
(** The set of a membership test, after its keyword *)
Definition set_text (word : list Z) (l : list (list Z)) : list Z := word ++ [32] ++ [40] ++ join comma l ++ [41].
Lemma reads_set word (c : list (list Z) → Predicate) i pre l rest :
  values_ok l = true → i = pre ++ set_text word l ++ rest →
  bind (advance_by (length word))
    (λ _, bind (skip_whitespace i) (λ _, bind (parse_value_set i) (λ values, ret (c values)))) (length pre) =
  POk (c l) (length (pre ++ set_text word l)).
Proof.
  intros Hl ->. unfold set_text. set (i := pre ++ _).
  assert (Ei : i = pre ++ word ++ [32] ++ [40] ++ join comma l ++ [41] ++ rest) by (subst i; assoc).
  clearbody i. subst i. set (i := pre ++ _).
  step (reads_advance_by word) pre ([32] ++ ([40] ++ join comma l ++ [41]) ++ rest); [|done].
  step reads_space (pre ++ word) (([40] ++ join comma l ++ [41]) ++ rest); [|done].
  step (reads_value_set l Hl) ((pre ++ word) ++ [32]) rest; [|done]. finish.
Qed.
Lemma keyword_set word l rest : keyword word (set_text word l ++ rest) = true.
Proof. unfold set_text. rewrite <- !app_assoc. apply (keyword_here word 32). by left. Qed.
Lemma keyword_notin l rest : keyword [105; 110] (set_text [110; 111; 116; 105; 110] l ++ rest) = false.
Proof. apply keyword_other. Qed.
Lemma reads_predicate p : predicate_ok p = true → reads parse_predicate (print_predicate p) p ends.
Proof.
  intros Hp pre rest Hr. destruct (ends_stop rest Hr) as (Hs1 & Hs2 & Hs3 & Hs4). unfold parse_predicate.
  destruct p as [k v|k v|k l|k l|k|k]; cbn [predicate_ok print_predicate] in *;
    try (apply andb_true_iff in Hp as [Hk Hv]); rewrite <- ?app_assoc; set (i := pre ++ _).
  - rewrite (reads_lead _ _ k i pre _ Hk eq_refl).
    step (reads_key k Hk) pre ([61] ++ v ++ rest); [|done]. step reads_no_space (pre ++ k) ([61] ++ v ++ rest); [|done].
    step (reads_peek (Some 61)) (pre ++ k) ([61] ++ v ++ rest); [|done].
    step (reads_advance 61) (pre ++ k) (v ++ rest); [|done].
    step reads_no_space ((pre ++ k) ++ [61]) (v ++ rest); [|by apply value_head; [|apply value_not_space|]].
    step (reads_value v Hv) ((pre ++ k) ++ [61]) rest; [|done]. finish.
  - rewrite (reads_lead _ _ k i pre _ Hk eq_refl).
    step (reads_key k Hk) pre ([33; 61] ++ v ++ rest); [|done].
    step reads_no_space (pre ++ k) ([33; 61] ++ v ++ rest); [|done].
    step (reads_peek (Some 33)) (pre ++ k) ([33; 61] ++ v ++ rest); [|done].
    step (reads_advance 33) (pre ++ k) ([61] ++ v ++ rest); [|done].
    step (reads_peek (Some 61)) ((pre ++ k) ++ [33]) ([61] ++ v ++ rest); [|done].
    step (reads_advance 61) ((pre ++ k) ++ [33]) (v ++ rest); [|done].
    step reads_no_space (((pre ++ k) ++ [33]) ++ [61]) (v ++ rest); [|by apply value_head; [|apply value_not_space|]].
    step (reads_value v Hv) (((pre ++ k) ++ [33]) ++ [61]) rest; [|done]. finish.
  - rewrite (reads_lead _ _ k i pre _ Hk eq_refl). set (r := set_text [105; 110] l ++ rest).
    assert (Ei : i = pre ++ k ++ [32] ++ r) by (subst i r; unfold set_text; assoc). clearbody i. subst i.
    set (i := pre ++ _). step (reads_key k Hk) pre ([32] ++ r); [|done]. step reads_space (pre ++ k) r; [|done].
    step (reads_peek (Some 105)) ((pre ++ k) ++ [32]) r; [|done]. unfold bind at 1, position.
    assert (Ei : i = ((pre ++ k) ++ [32]) ++ r) by (subst i; assoc). unfold bind at 1. rewrite Ei at 1.
    rewrite slice_rest by done. subst r. rewrite keyword_set.
    refine (eq_trans (reads_set [105; 110] (In k) i ((pre ++ k) ++ [32]) l rest Hv Ei) _). unfold set_text. finish.
  - rewrite (reads_lead _ _ k i pre _ Hk eq_refl). set (r := set_text [110; 111; 116; 105; 110] l ++ rest).
    assert (Ei : i = pre ++ k ++ [32] ++ r) by (subst i r; unfold set_text; assoc). clearbody i. subst i.
    set (i := pre ++ _). step (reads_key k Hk) pre ([32] ++ r); [|done]. step reads_space (pre ++ k) r; [|done].
    step (reads_peek (Some 110)) ((pre ++ k) ++ [32]) r; [|done]. unfold bind at 1, position.
    assert (Ei : i = ((pre ++ k) ++ [32]) ++ r) by (subst i; assoc). unfold bind at 1. rewrite Ei at 1.
    rewrite slice_rest by done. subst r. rewrite keyword_notin, keyword_set.
    refine (eq_trans (reads_set [110; 111; 116; 105; 110] (NotIn k) i ((pre ++ k) ++ [32]) l rest Hv Ei) _). unfold set_text. finish.
  - rewrite (reads_lead _ _ k i pre _ Hp eq_refl).
    step (reads_key k Hp) pre rest; [|done]. step reads_no_space (pre ++ k) rest; [|done].
    step (reads_peek (head rest)) (pre ++ k) rest; [|done]. destruct Hr as [->|[r ->]]; simpl; finish.
  - step reads_no_space pre ([33] ++ k ++ rest); [|done]. step (reads_peek (Some 33)) pre ([33] ++ k ++ rest); [|done].
    step (reads_advance 33) pre (k ++ rest); [|done]. step (reads_key k Hp) (pre ++ [33]) rest; [|done]. finish.
Qed.

(** ** Selectors *)
Definition more_predicates (l : list Predicate) : list Z := l ≫= λ p, 44 :: print_predicate p.
Lemma more_predicates_end l : ends (more_predicates l).
Proof. destruct l as [|p l]; [by left|right; by eexists]. Qed.
Lemma length_more_predicates l : (length l ≤ length (more_predicates l))%nat.
Proof. unfold more_predicates. induction l as [|p l IH]; [done|]. rewrite bind_cons. simpl. rewrite length_app. lia. Qed.
Lemma join_predicates p l :
  join comma (print_predicate <$> p :: l) = print_predicate p ++ more_predicates l.
Proof.
  unfold more_predicates. revert p. induction l as [|q l IH]; intros p; [by rewrite app_nil_r|].
  rewrite bind_cons. change (join comma (print_predicate <$> p :: q :: l)) with
    (print_predicate p ++ comma ++ join comma (print_predicate <$> q :: l)). by rewrite IH.
Qed.
Lemma predicate_head p : predicate_ok p = true → ∃ b r, print_predicate p = b :: r ∧ (b =? 32) = false.
Proof.
  intros Hp. assert (Hk : ∀ k r, key_ok k = true → ∃ b r', k ++ r = b :: r' ∧ (b =? 32) = false).
  { intros k r Hk. destruct (key_head k Hk) as (b & k' & -> & _ & Hb & _). by exists b, (k' ++ r). }
  destruct p as [k v|k v|k l|k l|k|k]; simpl in *; try (apply andb_true_iff in Hp as [Hp _]); try by apply Hk.
  - rewrite <- (app_nil_r k). by apply Hk.
  - by eexists _, _.
Qed.
Lemma reads_selector_loop l fuel acc i pre :
  forallb predicate_ok l = true → (length l < fuel)%nat → i = pre ++ more_predicates l →
  selector_loop i fuel acc (length pre) = POk (acc ++ l) (length i).
Proof.
  revert fuel acc pre. induction l as [|p l IH]; intros fuel acc pre Hl Hf Ei;
    (destruct fuel as [|fuel]; [simpl in Hf; lia|]); cbn [selector_loop].
  - unfold more_predicates in Ei. simpl in Ei. rewrite app_nil_r in Ei. subst i.
    erewrite (run_reads _ _ _ _ _ _ pre [] _ reads_no_space); [|by rewrite !app_nil_r|done|done].
    unfold bind, at_end. rewrite !app_nil_r, (proj2 (Nat.leb_le _ _)) by lia. done.
  - simpl in Hl. apply andb_true_iff in Hl as [Hp Hl]. simpl in Hf.
    assert (Ei' : i = pre ++ [44] ++ print_predicate p ++ more_predicates l).
    { rewrite Ei. unfold more_predicates. by rewrite bind_cons. }
    clear Ei. subst i. set (i := pre ++ _) in *. destruct (predicate_head p Hp) as (b & r & Ep & Hb).
    step reads_no_space pre ([44] ++ print_predicate p ++ more_predicates l); [|done].
    unfold bind at 1, at_end. rewrite (proj2 (Nat.leb_gt _ _)) by (subst i; rewrite !length_app; simpl; lia).
    step (reads_peek (Some 44)) pre ([44] ++ print_predicate p ++ more_predicates l); [|done].
    step (reads_advance 44) pre (print_predicate p ++ more_predicates l); [|done].
    step reads_no_space (pre ++ [44]) (print_predicate p ++ more_predicates l); [|by rewrite Ep].
    unfold bind at 1, at_end. rewrite (proj2 (Nat.leb_gt _ _)) by (subst i; rewrite Ep, !length_app; simpl; lia).
    step (reads_predicate p Hp) (pre ++ [44]) (more_predicates l); [|apply more_predicates_end].
    rewrite (IH fuel (acc ++ [p]) ((pre ++ [44]) ++ print_predicate p)); [by rewrite <- app_assoc|done|lia|].
    subst i. assoc.
Qed.
Lemma parse_printed s : selector_ok s = true → parse (print_selector s) = POk s (length (print_selector s)).
Proof.
  destruct s as [[|p l]]; [done|]. unfold selector_ok, print_selector. cbn [predicates]. rewrite join_predicates.
  simpl. intros [Hp Hl]%andb_true_iff. destruct (predicate_head p Hp) as (b & r & Ep & Hb).
  unfold parse, parse_selector. set (i := print_predicate p ++ _).
  change 0%nat with (length ([] : list Z)).
  step reads_no_space [] (print_predicate p ++ more_predicates l); [|by rewrite Ep].
  unfold bind at 1, at_end. rewrite (proj2 (Nat.leb_gt _ _)) by (subst i; rewrite Ep; simpl; lia).
  step (reads_predicate p Hp) [] (more_predicates l); [|apply more_predicates_end]. unfold bind.
  rewrite (reads_selector_loop l _ _ _ ([] ++ print_predicate p)); [done|done| |done].
  pose proof (length_more_predicates l). subst i. rewrite length_app. lia.
Qed.

(** ** The parser on ASCII text *)
Section Total.
Variable input : list Z.
Hypothesis ascii : Forall (λ b, 0 ≤ b < 128) input.

(** A step that starts at [pos] ends with [Q] at a later position, or with an error, within
    the text. *)
Definition runs {A} (x : Result A) (pos : nat) (Q : A → nat → Prop) : Prop :=
  match x with
  | POk a p => (pos ≤ p ≤ length input)%nat ∧ Q a p
  | PErr _ p => (p ≤ length input)%nat
  | PPanic | PFuel => False
  end.
Lemma runs_bind {A B} (x : parser A) (f : A → parser B) pos Q R :
  runs (x pos) pos Q → (∀ a p, (pos ≤ p ≤ length input)%nat → Q a p → runs (f a p) p R) →
  runs (bind x f pos) pos R.
Proof.
  intros Hx Hf. unfold bind. destruct (x pos) as [a p|e p| |]; simpl in *; try done. destruct Hx as [Hp HQ].
  specialize (Hf a p Hp HQ). destruct (f a p); simpl in *; try done. destruct Hf as [? ?]. split; [lia|done].
Qed.
Lemma runs_mono {A} (x : Result A) pos (Q R : A → nat → Prop) :
  runs x pos Q → (∀ a p, Q a p → R a p) → runs x pos R.
Proof. intros Hx HQ. destruct x; simpl in *; naive_solver. Qed.
Lemma runs_ret {A} (a : A) pos (Q : A → nat → Prop) : (pos ≤ length input)%nat → Q a pos → runs (ret a pos) pos Q.
Proof. intros Hp HQ. simpl. split; [lia|done]. Qed.
Lemma runs_peek pos : (pos ≤ length input)%nat → runs (peek input pos) pos (λ c p, p = pos ∧ c = input !! pos).
Proof. intros Hp. simpl. split; [lia|done]. Qed.
Lemma runs_advance b pos : input !! pos = Some b → runs (advance pos) pos (λ _ p, p = S pos).
Proof. intros H%lookup_lt_Some. simpl. split; [lia|lia]. Qed.
Lemma runs_error {A} e pos (Q : A → nat → Prop) : (pos ≤ length input)%nat → runs (error e pos) pos Q.
Proof. done. Qed.
Lemma count_le f l : (count_while f l ≤ length l)%nat.
Proof. induction l as [|b l IH]; [done|]. simpl. destruct (f b); lia. Qed.
Lemma count_all f l : forallb f (take (count_while f l) l) = true.
Proof. induction l as [|b l IH]; [done|]. simpl. destruct (f b) eqn:E; [|done]. simpl. by rewrite E, IH. Qed.
Lemma count_stop f l b : l !! count_while f l = Some b → f b = false.
Proof. induction l as [|c l IH]; [done|]. simpl. destruct (f c) eqn:E; [done|]. by intros [= ->]. Qed.
Lemma runs_while f pos :
  (pos ≤ length input)%nat →
  runs (advance_while input f pos) pos
    (λ _ p, p = (pos + count_while f (drop pos input))%nat ∧ ∀ b, input !! p = Some b → f b = false).
Proof.
  intros Hp. simpl. pose proof (count_le f (drop pos input)) as Hc. rewrite length_drop in Hc.
  split; [lia|]. split; [done|]. intros b Hb. rewrite <- lookup_drop in Hb. by apply count_stop in Hb.
Qed.
Lemma boundary i : (i ≤ length input)%nat → is_char_boundary input i = true.
Proof.
  intros Hi. unfold is_char_boundary. destruct (input !! i) as [b|] eqn:E.
  - pose proof (Forall_lookup_1 _ _ _ _ ascii E) as Hb. simpl in Hb. unfold continuation.
    destruct (Z.leb_spec 128 b); [lia|done].
  - apply lookup_ge_None in E. apply bool_decide_eq_true. lia.
Qed.
Lemma ascii_part f n pos :
  forallb f (take n (drop pos input)) = true → forallb (λ b, f b && (b <? 128)) (take n (drop pos input)) = true.
Proof.
  intros H. apply forallb_forall. intros b Hb. rewrite forallb_forall in H. rewrite (H b Hb). simpl.
  apply list_elem_of_In in Hb. apply Z.ltb_lt. rewrite Forall_forall in ascii. apply ascii.
  rewrite <- (take_drop pos input). apply elem_of_app. right. rewrite <- (take_drop n (drop pos input)).
  apply elem_of_app. by left.
Qed.
Lemma slice_part start n pos :
  (start + n ≤ length input)%nat → slice input start (start + n) pos = POk (take n (drop start input)) pos.
Proof.
  intros Hn. unfold slice. rewrite (proj2 (Nat.leb_le _ _)), !boundary by lia. cbn [andb]. f_equal. f_equal. lia.
Qed.
Lemma runs_key pos :
  (pos ≤ length input)%nat → runs (parse_key input pos) pos (λ k p, key_ok k = true ∧ (pos < p)%nat).
Proof.
  intros Hp. unfold parse_key, bind, position. pose proof (runs_while key_char pos Hp) as Hr. simpl in Hr.
  destruct Hr as [Hl _]. cbn [advance_while]. set (n := count_while key_char (drop pos input)) in *.
  destruct (Nat.eqb_spec (pos + n) pos) as [E|E]; [simpl; lia|]. rewrite slice_part by lia. simpl.
  split; [lia|]. split; [|lia]. pose proof (ascii_part _ _ _ (count_all key_char (drop pos input))) as Ha. fold n in Ha.
  unfold key_ok. destruct (take n (drop pos input)) eqn:Et; [|done].
  apply (f_equal length) in Et. rewrite length_take, length_drop in Et. simpl in Et. lia.
Qed.
Lemma runs_value pos :
  (pos ≤ length input)%nat →
  runs (parse_value input pos) pos (λ v p, value_ok v = true ∧ p = (pos + length v)%nat).
Proof.
  intros Hp. unfold parse_value, bind, position. pose proof (runs_while value_char pos Hp) as Hr. simpl in Hr.
  destruct Hr as [Hl _]. cbn [advance_while]. set (n := count_while value_char (drop pos input)) in *.
  rewrite slice_part by lia. simpl. split; [lia|]. split; [apply ascii_part, count_all|].
  rewrite length_take, length_drop. lia.
Qed.
Lemma runs_space pos :
  (pos ≤ length input)%nat →
  runs (skip_whitespace input pos) pos
    (λ _ p, input !! p ≠ Some 32 ∧ (input !! pos ≠ Some 32 → p = pos)).
Proof.
  intros Hp. eapply runs_mono; [by apply runs_while|]. intros [] p [-> Hs]. split.
  - intros H. by apply Hs in H.
  - intros H. destruct (drop pos input) as [|b l] eqn:E; [simpl; lia|]. simpl.
    destruct (Z.eqb_spec b 32) as [->|]; [|simpl; lia]. exfalso. apply H.
    rewrite <- (Nat.add_0_r pos), <- lookup_drop, E. done.
Qed.
Lemma runs_position pos (Q : nat → nat → Prop) : (pos ≤ length input)%nat → Q pos pos → runs (position pos) pos Q.
Proof. intros Hp HQ. simpl. split; [lia|done]. Qed.
(** The loop of a set appends values, and at least one unless the set ends here. *)
Lemma runs_value_loop fuel acc pos :
  (pos ≤ length input < pos + fuel)%nat →
  runs (value_loop input fuel acc pos) pos
    (λ l _, ∃ m, l = acc ++ m ∧ forallb value_ok m = true ∧
       (input !! pos ≠ Some 32 → input !! pos ≠ Some 41 → m ≠ [])).
Proof.
  revert acc pos. induction fuel as [|fuel IH]; intros acc pos Hf; [lia|]. cbn [value_loop].
  eapply runs_bind; [apply runs_space; lia|]. intros [] p1 Hp1 [_ Hsame].
  eapply runs_bind; [apply runs_peek; lia|]. intros c p2 Hp2 [-> ->].
  destruct (input !! p1) as [b|] eqn:Eb; [|apply runs_error; lia].
  destruct (decide (b = 41)) as [->|Hb1]; [|destruct (decide (b = 44)) as [->|Hb2]].
  - eapply runs_bind; [by eapply runs_advance|]. intros [] p3 Hp3 _. apply runs_ret; [lia|].
    exists []. split_and!; [by rewrite app_nil_r|done|]. intros H32 H41. rewrite (Hsame H32) in Eb. done.
  - eapply runs_bind; [by eapply runs_advance|]. intros [] p3 Hp3 ->.
    eapply runs_bind; [apply runs_space; lia|]. intros [] p4 Hp4 _.
    eapply runs_bind; [apply runs_value; lia|]. intros v p5 Hp5 [Hv _].
    eapply runs_mono; [apply IH; lia|]. intros l _ (m & -> & Hm & _). exists (v :: m).
    split_and!; [by rewrite <- app_assoc|simpl; by rewrite Hv|done].
  - replace (match b with 41 => _ | 44 => _ | _ => _ end) with
      (error (A := list (list Z)) "expected ',' or ')' in value set") by (repeat case_match; congruence).
    apply runs_error. lia.
Qed.
Lemma runs_value_set pos :
  (pos ≤ length input)%nat → runs (parse_value_set input pos) pos (λ l _, values_ok l = true).
Proof.
  intros Hp. unfold parse_value_set.
  eapply runs_bind; [by apply runs_peek|]. intros c p1 _ [-> ->].
  destruct (decide (input !! pos = Some 40)) as [E|E].
  2:{ rewrite no_open by done.
      by apply runs_error. }
  rewrite E. eapply runs_bind; [by eapply runs_advance|]. intros [] p2 Hp2 ->.
  eapply runs_bind; [apply runs_space; lia|]. intros [] p3 Hp3 [H32 _].
  eapply runs_bind; [apply runs_peek; lia|]. intros c p4 Hp4 [-> ->].
  destruct (decide (input !! p3 = Some 41)) as [E41|E41].
  { rewrite E41. eapply runs_bind; [by eapply runs_advance|]. intros [] p5 Hp5 _. by apply runs_ret; [lia|]. }
  rewrite not_close by done.
  eapply runs_bind; [apply runs_value; lia|]. intros v p5 Hp5 [Hv Ep5].
  eapply runs_mono; [apply runs_value_loop; lia|]. intros l _ (m & -> & Hm & Hne).
  unfold values_ok. simpl. rewrite Hv, Hm. simpl. apply bool_decide_eq_true. intros [= -> ->].
  rewrite Nat.add_0_r in Ep5. subst p5. by apply Hne.
Qed.
Lemma runs_rest {A} (f : list Z → parser A) pos Q :
  (pos ≤ length input)%nat → runs (f (drop pos input) pos) pos Q → runs (bind (slice_from input pos) f pos) pos Q.
Proof.
  intros Hp Hf. unfold bind, slice_from. replace (length input) with (pos + (length input - pos))%nat by lia.
  rewrite slice_part by lia. rewrite <- length_drop, take_ge; [done|]. lia.
Qed.
Lemma keyword_fits word pos :
  (pos ≤ length input)%nat → keyword word (drop pos input) = true → (pos + length word ≤ length input)%nat.
Proof.
  intros Hp. unfold keyword, strip_prefix. destruct (decide _) as [E|]; [|done]. intros _.
  apply (f_equal length) in E. rewrite length_take, length_drop in E. lia.
Qed.
Lemma runs_set word (c : list (list Z) → Predicate) pos :
  (pos ≤ length input)%nat → keyword word (drop pos input) = true →
  (∀ l, values_ok l = true → predicate_ok (c l) = true) →
  runs (bind (advance_by (length word))
    (λ _, bind (skip_whitespace input) (λ _, bind (parse_value_set input) (λ l, ret (c l)))) pos) pos
    (λ q _, predicate_ok q = true).
Proof.
  intros Hp Hw Hc. pose proof (keyword_fits word pos Hp Hw).
  eapply runs_bind with (Q := λ _ _, True); [simpl; lia|]. intros [] p1 Hp1 _.
  eapply runs_bind; [apply runs_space; lia|]. intros [] p2 Hp2 _.
  eapply runs_bind; [apply runs_value_set; lia|]. intros l p3 Hp3 Hl. apply runs_ret; [lia|auto].
Qed.
Lemma runs_operand (c : list Z → Predicate) b pos :
  input !! pos = Some b → (∀ v, value_ok v = true → predicate_ok (c v) = true) →
  runs (bind advance (λ _, bind (skip_whitespace input) (λ _, bind (parse_value input) (λ v, ret (c v)))) pos) pos
    (λ q _, predicate_ok q = true).
Proof.
  intros Hb Hc. eapply runs_bind; [by eapply runs_advance|]. intros [] p1 Hp1 _.
  eapply runs_bind; [apply runs_space; lia|]. intros [] p2 Hp2 _.
  eapply runs_bind; [apply runs_value; lia|]. intros v p3 Hp3 [Hv _]. apply runs_ret; [lia|auto].
Qed.
Lemma runs_predicate pos :
  (pos ≤ length input)%nat → runs (parse_predicate input pos) pos (λ q _, predicate_ok q = true).
Proof.
  intros Hp. unfold parse_predicate. eapply runs_bind; [by apply runs_space|]. intros [] p0 Hp0 _.
  eapply runs_bind; [apply runs_peek; lia|]. intros c p1 Hp1 [-> ->].
  destruct (decide (input !! p0 = Some 33)) as [E|E].
  { rewrite E. eapply runs_bind; [by eapply runs_advance|]. intros [] p2 Hp2 _.
    eapply runs_bind; [apply runs_key; lia|]. intros k p3 Hp3 [Hk _]. by apply runs_ret; [lia|]. }
  rewrite no_bang by done.
  eapply runs_bind; [apply runs_key; lia|]. intros k p2 Hp2 [Hk _].
  eapply runs_bind; [apply runs_space; lia|]. intros [] p3 Hp3 _.
  eapply runs_bind; [apply runs_peek; lia|]. intros c p4 Hp4 [-> ->].
  destruct (input !! p3) as [b|] eqn:Eb; [|by apply runs_ret; [lia|]].
  destruct (decide (b = 44)) as [->|H44]; [by apply runs_ret; [lia|]|].
  destruct (decide (b = 61)) as [->|H61]; [eapply runs_operand; [done|]; intros v Hv; simpl; by rewrite Hk|].
  destruct (decide (b = 33)) as [->|H33].
  { eapply runs_bind; [by eapply runs_advance|]. intros [] p5 Hp5 ->.
    eapply runs_bind; [apply runs_peek; lia|]. intros c p6 Hp6 [-> ->].
    destruct (decide (input !! S p3 = Some 61)) as [E61|E61].
    - rewrite E61. eapply runs_operand; [done|]. intros v Hv. simpl. by rewrite Hk.
    - rewrite no_equals by done.
      apply runs_error. lia. }
  rewrite no_operator by done.
  eapply runs_bind with (Q := λ a p, a = p3 ∧ p = p3); [simpl; lia|]. intros a p5 _ [-> ->]. apply runs_rest; [lia|].
  destruct (keyword [105; 110] _) eqn:Ein; [apply (runs_set [105; 110] (In k)); [lia|done|]|].
  { intros l Hl. simpl. by rewrite Hk. }
  destruct (keyword [110; 111; 116; 105; 110] _) eqn:Enot; [apply (runs_set [110; 111; 116; 105; 110] (NotIn k)); [lia|done|]|].
  { intros l Hl. simpl. by rewrite Hk. }
  apply runs_error. lia.
Qed.
Lemma runs_at_end pos (Q : bool → nat → Prop) :
  (pos ≤ length input)%nat → Q (length input <=? pos)%nat pos → runs (at_end input pos) pos Q.
Proof. intros Hp HQ. simpl. split; [lia|done]. Qed.
Lemma runs_selector_loop fuel acc pos :
  (pos ≤ length input < pos + fuel)%nat → forallb predicate_ok acc = true →
  runs (selector_loop input fuel acc pos) pos (λ l _, forallb predicate_ok l = true).
Proof.
  revert acc pos. induction fuel as [|fuel IH]; intros acc pos Hf Ha; [lia|]. cbn [selector_loop].
  eapply runs_bind; [apply runs_space; lia|]. intros [] p1 Hp1 _.
  eapply runs_bind with (Q := λ e p, p = p1); [by apply runs_at_end; [lia|]|]. intros [] p2 Hp2 ->.
  { by apply runs_ret; [lia|]. }
  eapply runs_bind; [apply runs_peek; lia|]. intros c p3 Hp3 [-> ->].
  destruct (decide (input !! p1 = Some 44)) as [E|E].
  2:{ rewrite no_comma by done.
      apply runs_error. lia. }
  rewrite E. eapply runs_bind; [by eapply runs_advance|]. intros [] p4 Hp4 ->.
  eapply runs_bind; [apply runs_space; lia|]. intros [] p5 Hp5 _.
  eapply runs_bind with (Q := λ e p, p = p5); [by apply runs_at_end; [lia|]|]. intros [] p6 Hp6 ->.
  { apply runs_error. lia. }
  eapply runs_bind; [apply runs_predicate; lia|]. intros q p7 Hp7 Hq.
  apply IH; [lia|]. rewrite forallb_app, Ha. simpl. by rewrite Hq.
Qed.
Lemma parse_runs : runs (parse input) 0 (λ s _, selector_ok s = true).
Proof.
  unfold parse, parse_selector. eapply runs_bind; [apply runs_space; lia|]. intros [] p1 Hp1 _.
  eapply runs_bind with (Q := λ e p, p = p1); [by apply runs_at_end; [lia|]|]. intros [] p2 Hp2 ->.
  { by apply runs_ret; [lia|]. }
  eapply runs_bind; [apply runs_predicate; lia|]. intros q p3 Hp3 Hq.
  eapply runs_bind; [apply runs_selector_loop; [lia|simpl; by rewrite Hq]|]. intros l p4 Hp4 Hl.
  by apply runs_ret; [lia|].
Qed.
End Total.

(** C22: Printing and parsing are inverse: the text of a well-formed selector parses to that
    selector, and whatever selector comes out of an ASCII text is well-formed, so that its
    own text gives it back.  On ASCII text the parser does not panic and always ends, with a
    selector or with an error at a position of the text. *)
Theorem selector_round_trip (s : Selector) (input : list Z) :
  (selector_ok s = true → parse (print_selector s) = POk s (length (print_selector s))) ∧
  (Forall (λ b, 0 ≤ b < 128) input →
   match parse input with
   | POk s' p => (p ≤ length input)%nat ∧ parse (print_selector s') = POk s' (length (print_selector s'))
   | PErr _ p => (p ≤ length input)%nat
   | PPanic | PFuel => False
   end).
Proof.
  split; [apply parse_printed|]. intros Ha. pose proof (parse_runs input Ha) as Hr.
  destruct (parse input) as [s' p|e p| |]; simpl in Hr; try done.
  destruct Hr as [Hp Hs]. split; [lia|]. by apply parse_printed.
Qed.

(** ** Witness and examples *)
(** [env in (a,b), !x] *)
Definition demo_text : list Z := [101; 110; 118; 32; 105; 110; 32; 40; 97; 44; 98; 41; 44; 32; 33; 120].
Definition demo : Selector := {| predicates := [In [101; 110; 118] [[97]; [98]]; NotExists [120]] |}.
Lemma selector_round_trip_witness :
  parse (print_selector demo) = POk demo (length (print_selector demo)) ∧
  parse demo_text = POk demo 16 ∧
  match parse demo_text with
  | POk s' p =>
      (p ≤ length demo_text)%nat ∧ parse (print_selector s') = POk s' (length (print_selector s'))
  | PErr _ p => (p ≤ length demo_text)%nat
  | PPanic | PFuel => False
  end.
Proof.
  destruct (selector_round_trip demo demo_text) as [H1 H2]. split; [by apply H1|].
  split; [by vm_compute|]. apply H2. unfold demo_text. repeat constructor; lia.
Defined.

(** The parser takes bytes for characters and cuts inside of them: a selector of one
    accented letter panics. *)
Example accent_panics : parse [195; 169] = PPanic.
Proof. by vm_compute. Qed.
(** A set with one empty value prints as the empty set. *)
Example empty_value_lost :
  parse (print_selector {| predicates := [In [107] [[]]] |}) = POk {| predicates := [In [107] []] |} 7.
Proof. by vm_compute. Qed.
(** A value may be missing after the equals sign, and a text of spaces selects everything. *)
Example lenient :
  parse [107; 61] = POk {| predicates := [Equals [107] []] |} 2 ∧ parse [32; 32] = POk empty 2 ∧
  parse [107; 44] = PErr "unexpected end of input after ','" 2.
Proof. by vm_compute. Qed.
End SelectorInv.
