(* ===== verification/Tunnel.v ===== *)
(** * Tunnels between workers
      ([crates/worker/src/fabric/tunnel.rs], [crates/worker/src/worker/tunnel_manager.rs])

    One UDP socket carries the frames of all namespaces that a worker shares with others;
    the segment id in the fabric header says which.  [TunnelTransport] keeps the peers with
    their Noise sessions and, for each segment, the channel that takes the frames that
    arrive; a step of its receive loop is [on_datagram], one of an egress task
    [egress_frame].  [TunnelManager] follows the registry of workers and the namespaces and
    keeps a port for every segment it shares with a peer.

    Sockets and channels are effects.  The Noise library is the interface [Noise]; an
    operation of it also gives the new state of the session where it fails.  Text is parsed
    as a socket address by an arbitrary function. *)

From S2P Require Import Prelude SmTypes Protocol Checksum.

Module Tunnel.
Import Checksum.

(** ** The Noise library *)
Class Noise := {
  HandshakeState : Type;
  TransportState : Type;
  (** [build_initiator] and [build_responder] with the private key and the key of the peer *)
  build : bool → list Z → list Z → option HandshakeState;
  hs_write : HandshakeState → option (list Z) * HandshakeState;
  hs_read : HandshakeState → list Z → bool * HandshakeState;
  is_handshake_finished : HandshakeState → bool;
  into_transport_mode : HandshakeState → option TransportState;
  seal : TransportState → list Z → option (list Z) * TransportState;
  (** The last argument is the size of the buffer for the plain text. *)
  open_ : TransportState → list Z → nat → option (list Z) * TransportState }.

Definition NOISE_TAG_LEN : nat := 16.
(** The buffers of the receive loop *)
Definition RECV_BUF : nat := (FABRIC_HDR_SZ + 1514 + NOISE_TAG_LEN)%nat.
Definition DECRYPT_BUF : nat := (FABRIC_HDR_SZ + 1514)%nat.

Section Tunnel.
Context `{Noise, Countable Addr} {iter : HashIter Z}.

(** ** The transport *)
Inductive NoiseSession := Handshaking (hs : HandshakeState) | Transport (ts : TransportState).
Record PeerState := { endpoint : Addr; noise : option NoiseSession }.
(** A channel is the number of the port it was made for. *)
Record TunnelState := {
  peers : gmap WorkerId PeerState;
  segment_channels : gmap Z nat;
  addr_to_worker : gmap Addr WorkerId }.
Record Keypair := { private : list Z; public : list Z }.
Record TunnelTransport := { state : TunnelState; encryption : option Keypair; ports_made : nat }.
Record TunnelPortHandle := { segment_id : Z; port : nat }.
(** What is sent on the socket, what a channel takes, and the signal to the egress tasks *)
Inductive Effect :=
  | SendTo (msg : list Z) (to : Addr)
  | TrySend (channel : nat) (frame : list Z)
  | HandshakeDone.

Definition with_state (st : TunnelState) (t : TunnelTransport) : TunnelTransport :=
  {| state := st; encryption := encryption t; ports_made := ports_made t |}.
Definition with_peers (p : gmap WorkerId PeerState) (st : TunnelState) : TunnelState :=
  {| peers := p; segment_channels := segment_channels st; addr_to_worker := addr_to_worker st |}.
Definition with_channels (c : gmap Z nat) (st : TunnelState) : TunnelState :=
  {| peers := peers st; segment_channels := c; addr_to_worker := addr_to_worker st |}.
Definition set_noise (wid : WorkerId) (p : PeerState) (n : option NoiseSession) (st : TunnelState) : TunnelState :=
  with_peers (<[wid := {| endpoint := endpoint p; noise := n |}]> (peers st)) st.

(** [Drop for TunnelPortHandle] *)
Definition drop_handle (h : TunnelPortHandle) (t : TunnelTransport) : TunnelTransport :=
  with_state (with_channels (delete (segment_id h) (segment_channels (state t))) (state t)) t.

Definition new_transport (enc : option Keypair) : TunnelTransport :=
  {| state := {| peers := ∅; segment_channels := ∅; addr_to_worker := ∅ |}; encryption := enc; ports_made := 0 |}.
Definition public_key (t : TunnelTransport) : option (list Z) := public <$> encryption t.

Definition send_handshake_msg (t : TunnelTransport) (wid : WorkerId) : TunnelTransport * list Effect :=
  match peers (state t) !! wid with
  | Some p =>
      match noise p with
      | Some (Handshaking hs) =>
          let '(r, hs) := hs_write hs in
          (with_state (set_noise wid p (Some (Handshaking hs)) (state t)) t,
           match r with Some msg => [SendTo msg (endpoint p)] | None => [] end)
      | _ => (t, [])
      end
  | None => (t, [])
  end.
Definition add_peer (t : TunnelTransport) (wid : WorkerId) (ep : Addr) (peer_public_key : option (list Z))
    (is_initiator : bool) : option (TunnelTransport * list Effect) :=
  noise ← match encryption t, peer_public_key with
          | Some enc, Some remote_pub =>
              hs ← build is_initiator (private enc) remote_pub; Some (Some (Handshaking hs))
          | _, _ => Some None
          end;
  let st := state t in
  let t := with_state
    {| peers := <[wid := {| endpoint := ep; noise := noise |}]> (peers st);
       segment_channels := segment_channels st;
       addr_to_worker := <[ep := wid]> (addr_to_worker st) |} t in
  Some (if is_initiator && is_some (encryption t) then send_handshake_msg t wid else (t, [])).
Definition remove_peer_transport (t : TunnelTransport) (wid : WorkerId) : TunnelTransport :=
  let st := state t in
  match peers st !! wid with
  | Some p =>
      with_state {| peers := delete wid (peers st); segment_channels := segment_channels st;
                    addr_to_worker := delete (endpoint p) (addr_to_worker st) |} t
  | None => t
  end.
(** The channel of the segment is replaced; the egress task is spawned. *)
Definition create_namespace_port (t : TunnelTransport) (wid : WorkerId) (seg : Z) :
    option (TunnelPortHandle * TunnelTransport) :=
  _ ← peers (state t) !! wid;
  Some ({| segment_id := seg; port := ports_made t |},
        {| state := with_channels (<[seg := ports_made t]> (segment_channels (state t))) (state t);
           encryption := encryption t; ports_made := S (ports_made t) |}).

(** ** The receive loop *)
Definition segment_of (frame : list Z) : Z := be16 (frame !!! 1%nat) (frame !!! 2%nat).
Definition dispatch_frame (st : TunnelState) (frame : list Z) : list Effect :=
  if decide (length frame < FABRIC_HDR_SZ + 20)%nat then []
  else match segment_channels st !! segment_of frame with
       | Some ch => [TrySend ch frame]
       | None => []
       end.
(** A message of the handshake *)
Definition on_handshake (st : TunnelState) (wid : WorkerId) (p : PeerState) (hs : HandshakeState) (msg : list Z) :
    TunnelState * list Effect :=
  let '(ok, hs) := hs_read hs msg in
  if ok then
    let '(ok, hs, sent) :=
      if is_handshake_finished hs then (true, hs, [])
      else let '(r, hs) := hs_write hs in
           match r with Some resp => (true, hs, [SendTo resp (endpoint p)]) | None => (false, hs, []) end in
    if ok then
      if is_handshake_finished hs then
        match into_transport_mode hs with
        | Some ts => (set_noise wid p (Some (Transport ts)) st, sent ++ [HandshakeDone])
        | None => (set_noise wid p None st, sent)
        end
      else (set_noise wid p (Some (Handshaking hs)) st, sent)
    else (set_noise wid p (Some (Handshaking hs)) st, sent)
  else (set_noise wid p (Some (Handshaking hs)) st, []).
(** One turn of the loop; what exceeds the buffer of the socket is cut off. *)
Definition on_datagram (t : TunnelTransport) (datagram : list Z) (peer_addr : Addr) :
    TunnelTransport * list Effect :=
  let buf := take RECV_BUF datagram in
  let st := state t in
  if is_some (encryption t) then
    match addr_to_worker st !! peer_addr with
    | None => (t, [])
    | Some wid =>
        match peers st !! wid with
        | None => (t, [])
        | Some p =>
            match noise p with
            | Some (Handshaking hs) => let '(st, e) := on_handshake st wid p hs buf in (with_state st t, e)
            | Some (Transport ts) =>
                let '(r, ts) := open_ ts buf DECRYPT_BUF in
                let st := set_noise wid p (Some (Transport ts)) st in
                (with_state st t, match r with Some plain => dispatch_frame st plain | None => [] end)
            | None => (t, [])
            end
        end
    end
  else if decide (length buf < FABRIC_HDR_SZ + 20)%nat then (t, [])
  else (t, dispatch_frame st buf).

(** ** The egress task *)
(** The task of a port waits for the session with its peer. *)
Inductive Readiness := Ready | Waiting | PeerGone.
Definition egress_ready (t : TunnelTransport) (wid : WorkerId) : Readiness :=
  if is_some (encryption t) then
    match peers (state t) !! wid with
    | Some p => match noise p with Some (Transport _) => Ready | _ => Waiting end
    | None => PeerGone
    end
  else Ready.
Definition stamp (seg : Z) (frame : list Z) : list Z :=
  <[2%nat := wrap 8 seg]> (<[1%nat := wrap 8 (Z.shiftr seg 8)]> (complete_checksum frame)).
(** One frame; [None] ends the task because the peer is gone.  The endpoint is the one
    the port was made with. *)
Definition egress_frame (t : TunnelTransport) (wid : WorkerId) (ep : Addr) (seg : Z) (frame : list Z) :
    option (TunnelTransport * list Effect) :=
  if decide (length frame < FABRIC_HDR_SZ)%nat then Some (t, [])
  else
    let frame := stamp seg frame in
    if is_some (encryption t) then
      p ← peers (state t) !! wid;
      match noise p with
      | Some (Transport ts) =>
          let '(r, ts) := seal ts frame in
          Some (with_state (set_noise wid p (Some (Transport ts)) (state t)) t,
                match r with Some c => [SendTo c ep] | None => [] end)
      | _ => Some (t, [])
      end
    else Some (t, [SendTo frame ep]).

(** ** The manager *)
Variable parse_addr : string → option Addr.
Record ManagedPeer := {
  mp_endpoint : Addr; mp_segments : list Z; mp_public_key : list Z; namespace_ports : gmap Z TunnelPortHandle }.
(** A fabric is a number. *)
Record TunnelManager := {
  transport : TunnelTransport; m_peers : gmap WorkerId ManagedPeer; namespaces : gmap Z nat }.
(** A port that is added to a fabric, and effects of the transport *)
Inductive ManagerEffect := AddTunnelPort (fabric : nat) (wid : WorkerId) (port : nat) | TransportEffect (e : Effect).

Definition with_transport (t : TunnelTransport) (m : TunnelManager) : TunnelManager :=
  {| transport := t; m_peers := m_peers m; namespaces := namespaces m |}.
Definition with_m_peers (p : gmap WorkerId ManagedPeer) (m : TunnelManager) : TunnelManager :=
  {| transport := transport m; m_peers := p; namespaces := namespaces m |}.
Definition set_ports (np : gmap Z TunnelPortHandle) (p : ManagedPeer) : ManagedPeer :=
  {| mp_endpoint := mp_endpoint p; mp_segments := mp_segments p; mp_public_key := mp_public_key p;
     namespace_ports := np |}.
Definition new_manager (enc : option Keypair) : TunnelManager :=
  {| transport := new_transport enc; m_peers := ∅; namespaces := ∅ |}.
Definition drop_handles (np : gmap Z TunnelPortHandle) (t : TunnelTransport) : TunnelTransport :=
  foldl (λ t '(_, h), drop_handle h t) t (hash_iter np).
Definition remove_peer (m : TunnelManager) (wid : WorkerId) : TunnelManager :=
  match m_peers m !! wid with
  | Some p =>
      let t := drop_handles (namespace_ports p) (transport m) in
      {| transport := remove_peer_transport t wid; m_peers := delete wid (m_peers m); namespaces := namespaces m |}
  | None => m
  end.
Definition create_port (t : TunnelTransport) (wid : WorkerId) (seg : Z) (fabric : nat) :
    option (TunnelPortHandle * TunnelTransport * list ManagerEffect) :=
  '(h, t) ← create_namespace_port t wid seg; Some (h, t, [AddTunnelPort fabric wid (port h)]).
(** [namespace_ports.insert]: a handle that was there is dropped. *)
Definition insert_port (seg : Z) (h : TunnelPortHandle) (np : gmap Z TunnelPortHandle) (t : TunnelTransport) :
    gmap Z TunnelPortHandle * TunnelTransport :=
  (<[seg := h]> np, match np !! seg with Some old => drop_handle old t | None => t end).
(** The ports of a peer for its segments *)
Definition open_segment (wid : WorkerId) (ns : gmap Z nat)
    (x : gmap Z TunnelPortHandle * TunnelTransport * list ManagerEffect) (seg : Z) :
    gmap Z TunnelPortHandle * TunnelTransport * list ManagerEffect :=
  let '(np, t, e) := x in
  match ns !! seg with
  | Some fabric =>
      match create_port t wid seg fabric with
      | Some (h, t, e') => let '(np, t) := insert_port seg h np t in (np, t, e ++ e')
      | None => x
      end
  | None => x
  end.
(** Lexicographic order of byte strings *)
Fixpoint bytes_lt (a b : list Z) : bool :=
  match a, b with
  | _, [] => false
  | [], _ :: _ => true
  | x :: a, y :: b => (x <? y) || (x =? y) && bytes_lt a b
  end.
Definition initiates (t : TunnelTransport) (key : list Z) : bool :=
  match public_key t with Some our_key => bytes_lt our_key key | None => false end.
Definition sync_worker (x : TunnelManager * list ManagerEffect) (info : WorkerPeerInfo) :
    TunnelManager * list ManagerEffect :=
  let '(m, e) := x in
  let wid := wpi_worker_id info in
  match parse_addr (wpi_endpoint info) with
  | None => (m, e)
  | Some ep =>
      let changed :=
        match m_peers m !! wid with
        | Some p =>
            bool_decide (mp_segments p ≠ wpi_segments info) || bool_decide (mp_endpoint p ≠ ep) ||
            bool_decide (mp_public_key p ≠ wpi_public_key info)
        | None => true
        end in
      if changed then
        let m := remove_peer m wid in
        match add_peer (transport m) wid ep (Some (wpi_public_key info)) (initiates (transport m) (wpi_public_key info)) with
        | None => (m, e)
        | Some (t, e1) =>
            let '(np, t, e2) := foldl (open_segment wid (namespaces m)) (∅, t, []) (wpi_segments info) in
            let p := {| mp_endpoint := ep; mp_segments := wpi_segments info; mp_public_key := wpi_public_key info;
                        namespace_ports := np |} in
            (with_m_peers (<[wid := p]> (m_peers m)) (with_transport t m), e ++ (TransportEffect <$> e1) ++ e2)
        end
      else (m, e)
  end.
Definition handle_registry_sync (m : TunnelManager) (workers : list WorkerPeerInfo) :
    TunnelManager * list ManagerEffect :=
  let incoming := wpi_worker_id <$> workers in
  let stale := filter (λ id, id ∉ incoming) (hash_iter (m_peers m)).*1 in
  foldl sync_worker (foldl remove_peer m stale, []) workers.
(** The port of one peer for a namespace that was created *)
Definition open_peer (seg : Z) (fabric : nat) (x : TunnelManager * list ManagerEffect)
    (q : WorkerId * ManagedPeer) : TunnelManager * list ManagerEffect :=
  let '(m, e) := x in let '(wid, p) := q in
  if bool_decide (seg ∈ mp_segments p) && is_none (namespace_ports p !! seg) then
    match create_port (transport m) wid seg fabric with
    | Some (h, t, e') =>
        (with_m_peers (<[wid := set_ports (<[seg := h]> (namespace_ports p)) p]> (m_peers m)) (with_transport t m),
         e ++ e')
    | None => (m, e)
    end
  else (m, e).
Definition on_namespace_created (m : TunnelManager) (seg : Z) (fabric : nat) : TunnelManager * list ManagerEffect :=
  let m := {| transport := transport m; m_peers := m_peers m; namespaces := <[seg := fabric]> (namespaces m) |} in
  foldl (open_peer seg fabric) (m, []) (hash_iter (m_peers m)).
Definition close_peer (seg : Z) (m : TunnelManager) (q : WorkerId * ManagedPeer) : TunnelManager :=
  let '(wid, p) := q in
  match namespace_ports p !! seg with
  | Some h =>
      with_m_peers (<[wid := set_ports (delete seg (namespace_ports p)) p]> (m_peers m))
        (with_transport (drop_handle h (transport m)) m)
  | None => m
  end.
Definition on_namespace_destroyed (m : TunnelManager) (seg : Z) : TunnelManager :=
  let m := {| transport := transport m; m_peers := m_peers m; namespaces := delete seg (namespaces m) |} in
  foldl (close_peer seg) m (hash_iter (m_peers m)).
End Tunnel.
End Tunnel.
