(* ===== verification/TunnelInv.v ===== *)
(** * What the tunnels guarantee
      ([crates/worker/src/fabric/tunnel.rs], [crates/worker/src/worker/tunnel_manager.rs])

    Whatever the registry says and namespaces come and go, the manager has a port exactly for
    the segments it shares with a peer, and what arrives for a segment only reaches a port of
    that segment.  Two workers that know each other complete the handshake, and the frames of
    a segment then cross in order, bytes and checksums intact. *)

From S2P Require Import Prelude SmTypes Protocol Checksum Tunnel.

Module TunnelInv.
Import Checksum Tunnel.

Section Ports.
Context `{Noise, Countable Addr} {iter : HashIter Z}.
Variable parse_addr : string → option Addr.
Implicit Types (m : TunnelManager (Addr := Addr)) (t : TunnelTransport (Addr := Addr))
  (np : gmap Z TunnelPortHandle) (wid seg : Z).

(** ** The invariant *)
Definition known t wid : Prop := is_Some (peers (state t) !! wid).
Definition handles_ok np t : Prop := ∀ seg h, np !! seg = Some h → segment_id h = seg ∧ (port h < ports_made t)%nat.
Definition channel t seg : option nat := segment_channels (state t) !! seg.
(** A port of some peer takes what arrives for the segment. *)
Definition taken (ps : gmap WorkerId ManagedPeer) seg ch : Prop :=
  ∃ wid (p : ManagedPeer (Addr := Addr)) h, ps !! wid = Some p ∧ namespace_ports p !! seg = Some h ∧ port h = ch.
Record inv m : Prop := {
  inv_peers : ∀ wid, is_Some (m_peers m !! wid) ↔ known (transport m) wid;
  inv_ports : ∀ wid p seg, m_peers m !! wid = Some p →
    is_Some (namespace_ports p !! seg) ↔ seg ∈ mp_segments p ∧ is_Some (namespaces m !! seg);
  inv_handles : ∀ wid p, m_peers m !! wid = Some p → handles_ok (namespace_ports p) (transport m);
  inv_channels : ∀ seg ch, channel (transport m) seg = Some ch → taken (m_peers m) seg ch }.

(** ** The transport *)
Lemma known_drop h t wid : known (drop_handle h t) wid ↔ known t wid.
Proof. done. Qed.
Lemma channel_drop h t seg :
  channel (drop_handle h t) seg = if decide (segment_id h = seg) then None else channel t seg.
Proof. unfold channel, drop_handle. simpl. case_decide as E; [subst; apply lookup_delete_eq|by apply lookup_delete_ne]. Qed.
Lemma drop_handles_list (l : list (Z * TunnelPortHandle)) t :
  let t' := foldl (λ t '(_, h), drop_handle h t) t l in
  ports_made t' = ports_made t ∧ encryption t' = encryption t ∧ peers (state t') = peers (state t) ∧
  (∀ seg, channel t' seg = if decide (seg ∈ (segment_id ∘ snd) <$> l) then None else channel t seg).
Proof.
  revert t. induction l as [|[s h] l IH]; intros t; simpl; [by split_and!|].
  destruct (IH (drop_handle h t)) as (Hp & He & Hk & Hc). split_and!; [done..|].
  intros seg. rewrite Hc, channel_drop. repeat case_decide; set_solver.
Qed.
Lemma drop_handles_spec np t :
  handles_ok np t → let t' := drop_handles np t in
  ports_made t' = ports_made t ∧ encryption t' = encryption t ∧ peers (state t') = peers (state t) ∧
  (∀ seg, channel t' seg = if decide (is_Some (np !! seg)) then None else channel t seg).
Proof.
  intros Hok. destruct (drop_handles_list (hash_iter np) t) as (Hp & He & Hk & Hc). split_and!; [done..|].
  intros seg. unfold drop_handles. rewrite Hc. f_equal.
  assert (Hiff : seg ∈ (segment_id ∘ snd) <$> hash_iter np ↔ is_Some (np !! seg)).
  { rewrite list_elem_of_fmap. split.
    - intros ([s h] & -> & Hin%elem_of_hash_iter). simpl. destruct (Hok s h Hin) as [-> _]. by exists h.
    - intros [h Hh]. exists (seg, h). destruct (Hok seg h Hh) as [<- _]. split; [done|]. by apply elem_of_hash_iter. }
  by repeat case_decide; tauto.
Qed.
Lemma send_handshake_keeps t wid :
  let t' := (send_handshake_msg t wid).1 in
  ports_made t' = ports_made t ∧ encryption t' = encryption t ∧ (∀ w, known t' w ↔ known t w) ∧
  ∀ seg, channel t' seg = channel t seg.
Proof.
  unfold send_handshake_msg. destruct (peers (state t) !! wid) as [p|] eqn:Ep; [|done].
  destruct (noise p) as [[hs|ts]|]; try done. destruct (hs_write hs) as [r hs']. split_and!; try done.
  intros w. unfold known, set_noise. simpl. destruct (decide (w = wid)) as [->|Hne].
  - rewrite lookup_insert_eq, Ep. split; by eexists.
  - by rewrite lookup_insert_ne.
Qed.
Lemma add_peer_keeps t wid ep k b t' e :
  add_peer t wid ep k b = Some (t', e) →
  ports_made t' = ports_made t ∧ encryption t' = encryption t ∧ (∀ w, known t' w ↔ known t w ∨ w = wid) ∧
  ∀ seg, channel t' seg = channel t seg.
Proof.
  unfold add_peer. destruct (match encryption t with Some _ => _ | None => _ end) as [n|]; [|done].
  cbn [mbind option_bind]. set (t1 := with_state _ t). intros [= E].
  assert (Hk : ∀ w, known t1 w ↔ known t w ∨ w = wid).
  { intros w. unfold known. simpl. destruct (decide (w = wid)) as [->|Hne].
    - rewrite lookup_insert_eq. split; [by right|by eexists].
    - rewrite lookup_insert_ne by done. naive_solver. }
  destruct (b && is_some (encryption t)).
  - destruct (send_handshake_keeps t1 wid) as (K1 & K2 & K3 & K4). rewrite E in *. simpl in *.
    split_and!; [done|done| |done]. intros w. by rewrite K3.
  - simplify_eq. by split_and!.
Qed.
Lemma remove_transport_keeps t wid :
  let t' := remove_peer_transport t wid in
  ports_made t' = ports_made t ∧ encryption t' = encryption t ∧ (∀ w, known t' w ↔ known t w ∧ w ≠ wid) ∧
  ∀ seg, channel t' seg = channel t seg.
Proof.
  unfold remove_peer_transport. destruct (peers (state t) !! wid) as [p|] eqn:Ep; split_and!; try done; intros w;
    unfold known; simpl.
  - destruct (decide (w = wid)) as [->|Hne]; [rewrite lookup_delete_eq|rewrite lookup_delete_ne by done];
      split; try naive_solver.
  - split; [|naive_solver]. intros Hk. split; [done|]. intros ->. rewrite Ep in Hk. by destruct Hk.
Qed.
Lemma handles_mono np t t' : (ports_made t ≤ ports_made t')%nat → handles_ok np t → handles_ok np t'.
Proof. intros Hle Hok seg h Hh. destruct (Hok seg h Hh). split; [done|lia]. Qed.

(** ** The manager *)
Lemma remove_peer_inv m wid : inv m → inv (remove_peer m wid) ∧ m_peers (remove_peer m wid) = delete wid (m_peers m).
Proof.
  intros [Ip Io Ih Ic]. unfold remove_peer. destruct (m_peers m !! wid) as [p|] eqn:Ep.
  2:{ split; [done|]. by rewrite delete_id. }
  split; [|done]. destruct (drop_handles_spec _ _ (Ih _ _ Ep)) as (K1 & K2 & K3 & K4).
  set (t := drop_handles _ _) in *. destruct (remove_transport_keeps t wid) as (L1 & L2 & L3 & L4).
  split; cbn [transport m_peers namespaces].
  - intros w. rewrite L3. unfold known in *. rewrite K3, lookup_delete_is_Some. rewrite <- (Ip w). naive_solver.
  - intros w q seg Hq. apply lookup_delete_Some in Hq as [_ Hq]. by apply (Io w).
  - intros w q Hq. apply lookup_delete_Some in Hq as [_ Hq]. eapply handles_mono; [|by apply (Ih w)]. lia.
  - intros seg ch. rewrite L4, K4. case_decide as Hd; [done|]. intros (w & q & h & Hq & Hh & E)%Ic.
    exists w, q, h. split_and!; [|done|done]. apply lookup_delete_Some. split; [|done]. intros ->. simplify_eq.
    apply Hd. by exists h.
Qed.
Lemma remove_peers_inv l m : inv m → inv (foldl remove_peer m l).
Proof. revert m. induction l as [|w l IH]; intros m Hm; [done|]. simpl. by apply IH, remove_peer_inv. Qed.

(** The ports of a peer while they are made: [ps] are the other peers. *)
Definition making (ps : gmap WorkerId (ManagedPeer (Addr := Addr))) (ns : gmap Z nat) (segs : list Z) wid
    (x : gmap Z TunnelPortHandle * TunnelTransport * list (ManagerEffect (Addr := Addr))) : Prop :=
  let '(np, t, _) := x in
  known t wid ∧ handles_ok np t ∧
  (∀ seg, is_Some (np !! seg) ↔ seg ∈ segs ∧ is_Some (ns !! seg)) ∧
  (∀ seg ch, channel t seg = Some ch → taken ps seg ch ∨ ∃ h, np !! seg = Some h ∧ port h = ch).
Lemma open_segment_making ps ns l wid x seg :
  making ps ns l wid x → making ps ns (l ++ [seg]) wid (open_segment wid ns x seg) ∧
  (ports_made x.1.2 ≤ ports_made (open_segment wid ns x seg).1.2)%nat ∧
  (∀ w, known (open_segment wid ns x seg).1.2 w ↔ known x.1.2 w).
Proof.
  destruct x as [[np t] e]. intros (Hk & Hok & Hnp & Hch). unfold open_segment.
  destruct (ns !! seg) as [fabric|] eqn:Ens.
  2:{ split; [|done]. split_and!; [done|done| |done]. intros s. rewrite Hnp. destruct (decide (s = seg)) as [->|];
        [rewrite Ens; split; intros [_ []]; done|set_solver]. }
  destruct Hk as [q Eq]. unfold create_port, create_namespace_port. rewrite Eq. cbn [mbind option_bind].
  set (h := {| segment_id := seg; port := ports_made t |}). set (t1 := {| state := _ |}). cbn [insert_port].
  assert (Hold : ∀ old, np !! seg = Some old → segment_id old = seg) by (intros old Ho; by apply Hok in Ho as [-> _]).
  assert (Hc1 : ∀ s, channel t1 s = if decide (s = seg) then Some (ports_made t) else channel t s).
  { intros s. unfold channel. simpl. case_decide as E; [subst; apply lookup_insert_eq|by apply lookup_insert_ne]. }
  set (t2 := match np !! seg with Some old => _ | None => _ end).
  assert (Hm : ports_made t2 = S (ports_made t) ∧ (∀ w, known t2 w ↔ known t w)).
  { subst t2. by destruct (np !! seg). }
  destruct Hm as [Hm Hkw]. cbn [fst snd]. split; [|split; [lia|done]]. split_and!.
  - apply Hkw. by exists q.
  - intros s hs. destruct (decide (s = seg)) as [->|Hne].
    + rewrite lookup_insert_eq. intros [= <-]. simpl. split; [done|lia].
    + rewrite lookup_insert_ne by done. intros Hs. destruct (Hok s hs Hs). split; [done|lia].
  - intros s. destruct (decide (s = seg)) as [->|Hne].
    + rewrite lookup_insert_eq. split; [|by eexists]. intros _. split; [set_solver|by eexists].
    + rewrite lookup_insert_ne, Hnp by done. set_solver.
  - intros s ch Hs. destruct (decide (s = seg)) as [->|Hne].
    + right. exists h. rewrite lookup_insert_eq. split; [done|]. subst t2.
      destruct (np !! seg) as [old|] eqn:Eo.
      * rewrite channel_drop, (Hold _ eq_refl), decide_True in Hs by done. done.
      * rewrite Hc1, decide_True in Hs by done. by injection Hs.
    + rewrite lookup_insert_ne by done. apply Hch. subst t2. destruct (np !! seg) as [old|] eqn:Eo.
      * rewrite channel_drop, (Hold _ eq_refl), decide_False, Hc1, decide_False in Hs by done. done.
      * by rewrite Hc1, decide_False in Hs.
Qed.
Lemma open_segments_making ps ns l l0 wid x :
  making ps ns l0 wid x → let y := foldl (open_segment wid ns) x l in
  making ps ns (l0 ++ l) wid y ∧ (ports_made x.1.2 ≤ ports_made y.1.2)%nat ∧ (∀ w, known y.1.2 w ↔ known x.1.2 w).
Proof.
  revert l0 x. induction l as [|s l IH]; intros l0 x Hx; simpl; [by rewrite app_nil_r|].
  destruct (open_segment_making _ _ _ _ _ s Hx) as (H1' & H2' & H3').
  destruct (IH (l0 ++ [s]) _ H1') as (I1 & I2 & I3). rewrite <- app_assoc in I1. split_and!; [done|lia|].
  intros w. by rewrite I3, H3'.
Qed.
Lemma sync_worker_inv x info : inv x.1 → inv (sync_worker parse_addr x info).1.
Proof.
  destruct x as [m e]. cbn [fst]. intros Hm. unfold sync_worker. destruct (parse_addr _) as [ep|]; [|done].
  destruct (match m_peers m !! _ with Some _ => _ | None => _ end); [|done].
  set (wid := wpi_worker_id info). destruct (remove_peer_inv m wid Hm) as [Hr Er]. set (m1 := remove_peer m wid) in *.
  destruct (add_peer _ _ _ _ _) as [[t e1]|] eqn:Ea; [|done]. apply add_peer_keeps in Ea as (K1 & K2 & K3 & K4).
  destruct Hr as [Ip Io Ih Ic].
  assert (Hmk : making (m_peers m1) (namespaces m1) [] wid (∅, t, [])).
  { split_and!; [apply K3; by right|by intros ? ? ?%lookup_empty_Some| |].
    - intros s. rewrite lookup_empty. split; [by intros []|set_solver].
    - intros s ch. rewrite K4. intros Hc. left. by apply Ic. }
  destruct (open_segments_making _ _ (wpi_segments info) _ _ _ Hmk) as (M1 & M2 & M3).
  destruct (foldl _ _ _) as [[np t2] e2]. cbn [fst snd app] in *. destruct M1 as (N1 & N2 & N3 & N4).
  assert (Hfresh : ∀ w q, m_peers m1 !! w = Some q → w ≠ wid).
  { intros w q Hq ->. by rewrite Er, lookup_delete_eq in Hq. }
  split; cbn [transport m_peers namespaces with_m_peers with_transport].
  - intros w. rewrite M3, K3, <- Ip. destruct (decide (w = wid)) as [->|Hne];
      [rewrite lookup_insert_eq; split; [by right|by eexists]|rewrite lookup_insert_ne by done; naive_solver].
  - intros w q s Hq. destruct (decide (w = wid)) as [->|Hne].
    + rewrite lookup_insert_eq in Hq. simplify_eq. cbn. apply N3.
    + rewrite lookup_insert_ne in Hq by done. by apply (Io w).
  - intros w q Hq. destruct (decide (w = wid)) as [->|Hne].
    + rewrite lookup_insert_eq in Hq. by simplify_eq.
    + rewrite lookup_insert_ne in Hq by done. eapply handles_mono; [|by apply (Ih w)]. lia.
  - intros s ch [(w & q & h & Hq & Hh & E)|(h & Hh & E)]%N4.
    + exists w, q, h. split_and!; [|done|done]. rewrite lookup_insert_ne; [done|]. by apply not_eq_sym, (Hfresh w q).
    + eexists wid, _, h. rewrite lookup_insert_eq. by split_and!.
Qed.
Lemma registry_sync_inv m workers : inv m → inv (handle_registry_sync parse_addr m workers).1.
Proof.
  intros Hm. unfold handle_registry_sync. set (x := (foldl remove_peer m _, [])).
  assert (Hx : inv x.1) by (by apply remove_peers_inv). clearbody x. revert x Hx.
  induction workers as [|i l IH]; intros x Hx; [done|]. simpl. by apply IH, sync_worker_inv.
Qed.

(** While a namespace is created or destroyed the peers in [pend] still have the ports of
    before. *)
Record pending seg (pend : list Z) m : Prop := {
  pend_peers : ∀ wid, is_Some (m_peers m !! wid) ↔ known (transport m) wid;
  pend_ports : ∀ wid p s, m_peers m !! wid = Some p →
    (is_Some (namespace_ports p !! s) → s ∈ mp_segments p ∧ (is_Some (namespaces m !! s) ∨ wid ∈ pend ∧ s = seg)) ∧
    (s ∈ mp_segments p → is_Some (namespaces m !! s) → is_Some (namespace_ports p !! s) ∨ wid ∈ pend ∧ s = seg);
  pend_handles : ∀ wid p, m_peers m !! wid = Some p → handles_ok (namespace_ports p) (transport m);
  pend_channels : ∀ s ch, channel (transport m) s = Some ch → taken (m_peers m) s ch }.
Lemma pending_nil seg m : pending seg [] m → inv m.
Proof.
  intros [Ip Io Ih Ic]. split; [done| |done|done]. intros wid p s Hp. destruct (Io wid p s Hp) as [K1 K2].
  split; [intros Hs; destruct (K1 Hs) as [? [?|[[]%not_elem_of_nil _]]]; done|].
  intros [Hs Hn]. destruct (K2 Hs Hn) as [?|[[]%not_elem_of_nil _]]; done.
Qed.
Lemma inv_pending seg m ns :
  inv m → (∀ s, s ≠ seg → is_Some (ns !! s) ↔ is_Some (namespaces m !! s)) →
  (is_Some (namespaces m !! seg) → is_Some (ns !! seg)) ∨ ns !! seg = None →
  pending seg (hash_iter (m_peers m)).*1 {| transport := transport m; m_peers := m_peers m; namespaces := ns |}.
Proof.
  intros [Ip Io Ih Ic] Hns Hseg. split; cbn [transport m_peers namespaces]; [done| |done|done].
  intros wid p s Hp. assert (Hin : wid ∈ (hash_iter (m_peers m)).*1).
  { apply list_elem_of_fmap. exists (wid, p). split; [done|]. by apply elem_of_hash_iter. }
  destruct (Io wid p s Hp) as [K1 K2]. destruct (decide (s = seg)) as [->|Hne].
  - split; [intros Hs; destruct (K1 Hs); split; [done|by right]|by right].
  - rewrite Hns by done. split; [|by left; auto]. intros Hs. destruct (K1 Hs). split; [done|by left].
Qed.
(** A peer is replaced by one with other ports. *)
Lemma taken_update (ps : gmap WorkerId ManagedPeer) wid (p p' : ManagedPeer (Addr := Addr)) s ch :
  ps !! wid = Some p → (namespace_ports p !! s = namespace_ports p' !! s) → taken ps s ch → taken (<[wid := p']> ps) s ch.
Proof.
  intros Hp Hs (w & q & h & Hq & Hh & E). destruct (decide (w = wid)) as [->|Hne].
  - simplify_eq. exists wid, p', h. rewrite lookup_insert_eq. split_and!; [done| |done]. by rewrite <- Hs.
  - exists w, q, h. by rewrite lookup_insert_ne.
Qed.
Lemma open_peer_pending seg fabric l x wid p :
  pending seg (wid :: l) x.1 → m_peers x.1 !! wid = Some p → is_Some (namespaces x.1 !! seg) →
  pending seg l (open_peer seg fabric x (wid, p)).1 ∧
  (∀ w, w ≠ wid → m_peers (open_peer seg fabric x (wid, p)).1 !! w = m_peers x.1 !! w) ∧
  namespaces (open_peer seg fabric x (wid, p)).1 = namespaces x.1.
Proof.
  destruct x as [m e]. cbn [fst]. intros [Ip Io Ih Ic] Hp Hseg. unfold open_peer.
  destruct (bool_decide (seg ∈ mp_segments p) && is_none (namespace_ports p !! seg)) eqn:Ec.
  2:{ split; [|done]. cbn [fst]. split; [done| |done|done]. intros w q s Hq. destruct (Io w q s Hq) as [K1 K2].
      destruct (decide (w = wid)) as [->|Hne]; [|rewrite elem_of_cons in K1, K2; naive_solver].
      simplify_eq. destruct (decide (s = seg)) as [->|]; [|naive_solver]. split; [intros Hs; split; [by apply K1|by left]|].
      intros Hs _. left. rewrite bool_decide_eq_true_2 in Ec by done. simpl in Ec.
      destruct (namespace_ports p !! seg); [by eexists|done]. }
  apply andb_true_iff in Ec as [Es%bool_decide_eq_true En].
  destruct (proj1 (Ip wid)) as [tp Etp]; [by eexists|].
  unfold create_port, create_namespace_port. rewrite Etp. cbn [mbind option_bind fst].
  split; [|split; [intros w Hw; cbn; by rewrite lookup_insert_ne|done]].
  assert (Hnone : namespace_ports p !! seg = None) by (by destruct (namespace_ports p !! seg)).
  set (h := {| segment_id := seg; port := ports_made (transport m) |}).
  set (p' := set_ports (<[seg := h]> (namespace_ports p)) p).
  split; cbn [transport m_peers namespaces with_m_peers with_transport].
  - intros w. unfold known. cbn. fold (known (transport m) w). rewrite <- Ip.
    destruct (decide (w = wid)) as [->|Hne]; [rewrite lookup_insert_eq, Hp; split; by eexists|by rewrite lookup_insert_ne].
  - intros w q s Hq. destruct (decide (w = wid)) as [->|Hne].
    + rewrite lookup_insert_eq in Hq. injection Hq as <-. subst p'. cbn. destruct (decide (s = seg)) as [->|Hs].
      * rewrite lookup_insert_eq. split; [intros _; split; [done|by left]|]. intros _ _. left. by eexists.
      * rewrite lookup_insert_ne by done. destruct (Io wid p s Hp) as [K1 K2]. naive_solver.
    + rewrite lookup_insert_ne in Hq by done. destruct (Io w q s Hq) as [K1 K2]. rewrite elem_of_cons in K1, K2. naive_solver.
  - intros w q Hq. destruct (decide (w = wid)) as [->|Hne].
    + rewrite lookup_insert_eq in Hq. injection Hq as <-. intros s hs. subst p'. cbn. destruct (decide (s = seg)) as [->|Hs].
      * rewrite lookup_insert_eq. intros [= <-]. simpl. split; [done|lia].
      * rewrite lookup_insert_ne by done. intros Hh. destruct (Ih wid p Hp s hs Hh). split; [done|simpl; lia].
    + rewrite lookup_insert_ne in Hq by done. eapply handles_mono; [|by apply (Ih w)]. simpl. lia.
  - intros s ch. unfold channel. cbn. destruct (decide (s = seg)) as [->|Hs].
    + rewrite lookup_insert_eq. intros [= <-]. exists wid, p', h. rewrite lookup_insert_eq. split_and!; [done| |done].
      apply lookup_insert_eq.
    + rewrite lookup_insert_ne by done. intros Hc%Ic. eapply taken_update; [done| |done].
      subst p'. cbn. by rewrite lookup_insert_ne.
Qed.
Lemma close_peer_pending seg l m wid p :
  pending seg (wid :: l) m → m_peers m !! wid = Some p → namespaces m !! seg = None →
  pending seg l (close_peer seg m (wid, p)) ∧
  (∀ w, w ≠ wid → m_peers (close_peer seg m (wid, p)) !! w = m_peers m !! w) ∧
  namespaces (close_peer seg m (wid, p)) = namespaces m.
Proof.
  intros [Ip Io Ih Ic] Hp Hseg. unfold close_peer. destruct (namespace_ports p !! seg) as [h|] eqn:Eh.
  2:{ split; [|done]. split; [done| |done|done]. intros w q s Hq. destruct (Io w q s Hq) as [K1 K2].
      destruct (decide (w = wid)) as [->|Hne]; [|rewrite elem_of_cons in K1, K2; naive_solver].
      simplify_eq. destruct (decide (s = seg)) as [->|]; [|naive_solver].
      rewrite Eh, Hseg. split; [by intros []|by intros _ []]. }
  destruct (Ih wid p Hp seg h Eh) as [Ehs _].
  split; [|split; [intros w Hw; cbn; by rewrite lookup_insert_ne|done]].
  set (p' := set_ports (delete seg (namespace_ports p)) p).
  split; cbn [transport m_peers namespaces with_m_peers with_transport].
  - intros w. rewrite known_drop, <- Ip.
    destruct (decide (w = wid)) as [->|Hne]; [rewrite lookup_insert_eq, Hp; split; by eexists|by rewrite lookup_insert_ne].
  - intros w q s Hq. destruct (decide (w = wid)) as [->|Hne].
    + rewrite lookup_insert_eq in Hq. injection Hq as <-. subst p'. cbn. destruct (decide (s = seg)) as [->|Hs].
      * rewrite lookup_delete_eq, Hseg. split; [by intros []|by intros _ []].
      * rewrite lookup_delete_ne by done. destruct (Io wid p s Hp) as [K1 K2]. naive_solver.
    + rewrite lookup_insert_ne in Hq by done. destruct (Io w q s Hq) as [K1 K2]. rewrite elem_of_cons in K1, K2. naive_solver.
  - intros w q Hq. destruct (decide (w = wid)) as [->|Hne].
    + rewrite lookup_insert_eq in Hq. injection Hq as <-. intros s hs. subst p'. cbn.
      intros [_ Hh]%lookup_delete_Some. by apply (Ih wid p Hp).
    + rewrite lookup_insert_ne in Hq by done. by apply (Ih w).
  - intros s ch. rewrite channel_drop, Ehs. case_decide as Hs; [done|]. intros Hc%Ic.
    eapply taken_update; [done| |done]. subst p'. cbn. by rewrite lookup_delete_ne.
Qed.
Lemma namespace_created_inv m seg fabric : inv m → inv (on_namespace_created m seg fabric).1.
Proof.
  intros Hm. unfold on_namespace_created. set (m1 := {| transport := _ |}).
  assert (Hpd : pending seg (hash_iter (m_peers m1)).*1 (m1, []: list (ManagerEffect (Addr := Addr))).1).
  { apply (inv_pending seg m); [done| |].
    - intros s Hs. by rewrite lookup_insert_ne.
    - left. intros _. rewrite lookup_insert_eq. by eexists. }
  assert (Hall : ∀ w q, (w, q) ∈ hash_iter (m_peers m1) →
    m_peers (m1, []: list (ManagerEffect (Addr := Addr))).1 !! w = Some q) by (intros w q; apply elem_of_hash_iter).
  assert (Hns : is_Some (namespaces (m1, []: list (ManagerEffect (Addr := Addr))).1 !! seg)).
  { cbn. rewrite lookup_insert_eq. by eexists. }
  pose proof (NoDup_fst_hash_iter (m_peers m1)) as Hnd.
  revert Hpd Hall Hns Hnd. generalize (m1, [] : list (ManagerEffect (Addr := Addr))).
  generalize (hash_iter (m_peers m1)). clear. intros l.
  induction l as [|[w q] l IH]; intros x Hpd Hall Hns Hnd; [by apply (pending_nil seg)|]. simpl in *.
  apply NoDup_cons in Hnd as [Hw Hnd].
  destruct (open_peer_pending seg fabric _ x w q Hpd) as (K1 & K2 & K3); [apply Hall; by left|done|].
  apply IH; [done| |by rewrite K3|done]. intros w' q' Hin. rewrite K2; [apply Hall; by right|].
  intros ->. apply Hw, list_elem_of_fmap. by exists (w, q').
Qed.
Lemma namespace_destroyed_inv m seg : inv m → inv (on_namespace_destroyed m seg).
Proof.
  intros Hm. unfold on_namespace_destroyed. set (m1 := {| transport := _ |}).
  assert (Hpd : pending seg (hash_iter (m_peers m1)).*1 m1).
  { apply (inv_pending seg m); [done| |].
    - intros s Hs. by rewrite lookup_delete_ne.
    - right. apply lookup_delete_eq. }
  assert (Hall : ∀ w q, (w, q) ∈ hash_iter (m_peers m1) → m_peers m1 !! w = Some q)
    by (intros w q; apply elem_of_hash_iter).
  assert (Hns : namespaces m1 !! seg = None) by apply lookup_delete_eq.
  pose proof (NoDup_fst_hash_iter (m_peers m1)) as Hnd.
  revert Hpd Hall Hns Hnd. generalize (hash_iter (m_peers m1)). generalize m1. clear. intros m l. revert m.
  induction l as [|[w q] l IH]; intros m Hpd Hall Hns Hnd; [by apply (pending_nil seg)|]. simpl in *.
  apply NoDup_cons in Hnd as [Hw Hnd].
  destruct (close_peer_pending seg _ m w q Hpd) as (K1 & K2 & K3); [apply Hall; by left|done|].
  apply IH; [done| |exact (eq_trans (f_equal (lookup seg) K3) Hns)|done]. intros w' q' Hin. rewrite K2; [apply Hall; by right|].
  intros ->. apply Hw, list_elem_of_fmap. by exists (w, q').
Qed.
(** Steps of the data plane keep the peers, the channels and the number of ports. *)
Definition same_control t t' : Prop :=
  ports_made t' = ports_made t ∧ encryption t' = encryption t ∧ (∀ w, known t' w ↔ known t w) ∧
  segment_channels (state t') = segment_channels (state t).
Lemma same_refl t : same_control t t.
Proof. done. Qed.
Lemma set_noise_same t wid p n :
  peers (state t) !! wid = Some p → same_control t (with_state (set_noise wid p n (state t)) t).
Proof.
  intros Hp. split_and!; [done|done| |done]. intros w. unfold known, set_noise. cbn.
  destruct (decide (w = wid)) as [->|Hne]; [rewrite lookup_insert_eq, Hp; split; by eexists|by rewrite lookup_insert_ne].
Qed.
Lemma on_handshake_shape (st : TunnelState (Addr := Addr)) wid p hs msg : ∃ n e, on_handshake st wid p hs msg = (set_noise wid p n st, e).
Proof.
  unfold on_handshake. destruct (hs_read hs msg) as [[] hs1]; [|by do 2 eexists].
  destruct (is_handshake_finished hs1) eqn:E1; [|destruct (hs_write hs1) as [[r|] hs2]; [|by do 2 eexists]];
    cbv beta iota; rewrite ?E1; [|destruct (is_handshake_finished hs2); [|by do 2 eexists]];
    destruct (into_transport_mode _); by do 2 eexists.
Qed.
Lemma on_datagram_same t d a : same_control t (on_datagram t d a).1.
Proof.
  unfold on_datagram. destruct (is_some (encryption t)); [|by case_decide].
  destruct (addr_to_worker (state t) !! a) as [wid|]; [|done].
  destruct (peers (state t) !! wid) as [p|] eqn:Ep; [|done]. destruct (noise p) as [[hs|ts]|]; [| |done].
  - destruct (on_handshake_shape (state t) wid p hs (take RECV_BUF d)) as (n & e & ->). by apply set_noise_same.
  - destruct (open_ ts (take RECV_BUF d) DECRYPT_BUF) as [r ts']. by apply set_noise_same.
Qed.
Lemma egress_same t wid ep seg f t' e : egress_frame t wid ep seg f = Some (t', e) → same_control t t'.
Proof.
  unfold egress_frame. case_decide; [by intros [= <- <-]|]. destruct (is_some (encryption t)); [|by intros [= <- <-]].
  destruct (peers (state t) !! wid) as [p|] eqn:Ep; [|done]. cbn [mbind option_bind].
  destruct (noise p) as [[hs|ts]|]; try by intros [= <- <-].
  destruct (seal ts (stamp seg f)) as [r ts']. intros [= <- <-]. by apply set_noise_same.
Qed.
Lemma same_inv m t' : same_control (transport m) t' → inv m → inv (with_transport t' m).
Proof.
  intros (S1 & S2 & S3 & S4) [Ip Io Ih Ic]. split; cbn [transport m_peers namespaces with_transport].
  - intros w. by rewrite S3.
  - done.
  - intros w p Hp. eapply handles_mono; [|by apply (Ih w)]. lia.
  - intros s ch. unfold channel. rewrite S4. apply Ic.
Qed.

(** ** Runs *)
Inductive step : TunnelManager (Addr := Addr) → TunnelManager (Addr := Addr) → Prop :=
  | step_sync m workers : step m (handle_registry_sync parse_addr m workers).1
  | step_created m seg fabric : step m (on_namespace_created m seg fabric).1
  | step_destroyed m seg : step m (on_namespace_destroyed m seg)
  | step_datagram m d a : step m (with_transport (on_datagram (transport m) d a).1 m)
  | step_egress m wid ep seg f t e :
      egress_frame (transport m) wid ep seg f = Some (t, e) → step m (with_transport t m).
Lemma new_manager_inv enc : inv (new_manager (Addr := Addr) enc).
Proof.
  split; cbn.
  - intros w. unfold known. cbn. by rewrite !lookup_empty.
  - intros w p s. by rewrite lookup_empty.
  - intros w p. by rewrite lookup_empty.
  - intros s ch. unfold channel. cbn. by rewrite lookup_empty.
Qed.
Lemma manager_step_inv m m' : inv m → step m m' → inv m'.
Proof.
  intros Hm. destruct 1.
  - by apply registry_sync_inv.
  - by apply namespace_created_inv.
  - by apply namespace_destroyed_inv.
  - by apply same_inv; [apply on_datagram_same|].
  - eapply same_inv; [by eapply egress_same|done].
Qed.
Lemma dispatch_sends st frame e :
  e ∈ dispatch_frame (Addr := Addr) st frame →
  ∃ ch, e = TrySend ch frame ∧ segment_channels st !! segment_of frame = Some ch.
Proof.
  unfold dispatch_frame. case_decide; [by intros ?%not_elem_of_nil|].
  destruct (segment_channels st !! _) as [ch|]; [|by intros ?%not_elem_of_nil].
  intros ->%list_elem_of_singleton. by exists ch.
Qed.
Lemma handshake_no_ingress st wid p hs msg ch f : TrySend ch f ∉ (on_handshake (Addr := Addr) st wid p hs msg).2.
Proof.
  unfold on_handshake. destruct (hs_read hs msg) as [[] hs1]; [|set_solver].
  destruct (is_handshake_finished hs1) eqn:E1; [|destruct (hs_write hs1) as [[r|] hs2]; [|set_solver]];
    cbv beta iota; rewrite ?E1; [|destruct (is_handshake_finished hs2); [|set_solver]];
    destruct (into_transport_mode _); set_solver.
Qed.
Lemma ingress_channel t d a ch frame :
  TrySend ch frame ∈ (on_datagram t d a).2 → channel t (segment_of frame) = Some ch.
Proof.
  unfold on_datagram. intros Hin.
  assert (Hd : ∀ (st : TunnelState (Addr := Addr)) f, segment_channels st = segment_channels (state t) → TrySend (Addr := Addr) ch frame ∈ dispatch_frame st f →
    channel t (segment_of frame) = Some ch).
  { intros st f Es (ch' & E & Hc)%dispatch_sends. simplify_eq. unfold channel. by rewrite <- Es. }
  destruct (is_some (encryption t)).
  - destruct (addr_to_worker (state t) !! a) as [wid|]; [|set_solver].
    destruct (peers (state t) !! wid) as [p|]; [|set_solver]. destruct (noise p) as [[hs|ts]|]; [| |set_solver].
    + destruct (on_handshake _ _ _ _ _) as [st e] eqn:E. pose proof (handshake_no_ingress (state t) wid p hs (take RECV_BUF d) ch frame) as Hn.
      rewrite E in Hn. done.
    + destruct (open_ ts _ _) as [[plain|] ts']; [|set_solver]. by eapply Hd; [|exact Hin].
  - case_decide; [set_solver|]. by eapply Hd; [|exact Hin].
Qed.

(** C27: Along every run of registry updates, namespaces that come and go, datagrams and
    outgoing frames, the transport and the manager agree on the peers, and a peer has a port
    exactly for the segments it shares with a namespace of this worker.  A frame that
    arrives is only handed to a port that was made for the segment in its header, and that
    segment belongs to a live namespace. *)
Theorem tunnel_ports_exact enc m :
  rtc step (new_manager enc) m →
  (∀ wid, is_Some (m_peers m !! wid) ↔ is_Some (peers (state (transport m)) !! wid)) ∧
  (∀ wid p seg, m_peers m !! wid = Some p →
     is_Some (namespace_ports p !! seg) ↔ seg ∈ mp_segments p ∧ is_Some (namespaces m !! seg)) ∧
  (∀ d a ch frame, TrySend ch frame ∈ (on_datagram (transport m) d a).2 →
     ∃ wid p h, m_peers m !! wid = Some p ∧ namespace_ports p !! segment_of frame = Some h ∧
       port h = ch ∧ segment_id h = segment_of frame ∧ is_Some (namespaces m !! segment_of frame)).
Proof.
  intros Hr. assert (Hm : inv m) by (eapply (rtc_invariant step inv); [apply manager_step_inv|done|apply new_manager_inv]).
  pose proof Hm as [Ip Io Ih Ic]. split_and!; [done|done|].
  intros d a ch frame (wid & p & h & Hp & Hh & E)%ingress_channel%Ic. exists wid, p, h.
  destruct (Ih wid p Hp _ h Hh) as [Es _]. split_and!; [done|done|done|done|]. apply (Io wid p _ Hp). by eexists.
Qed.

End Ports.

(** ** Frames that cross *)
(** What the sources rely on of Noise: two parties that know each other's keys complete the
    handshake of the pattern IK in two messages, and of two linked sessions one opens what
    the other has sealed. *)
Class NoiseLaws `{Noise} := {
  keypair_ok : Keypair → Prop;
  linked : TransportState → TransportState → Prop;
  linked_frame : ∀ a b f n, linked a b → (length f ≤ n)%nat → Z.of_nat (length f + NOISE_TAG_LEN) ≤ 65535 →
    ∃ c a' b', seal a f = (Some c, a') ∧ length c = (length f + NOISE_TAG_LEN)%nat ∧
      open_ b c n = (Some f, b') ∧ linked a' b';
  ik_handshake : ∀ a b, keypair_ok a → keypair_ok b →
    ∃ i0 m1 i1 i2 ti r0 r1 m2 r2 tr,
      build true (private a) (public b) = Some i0 ∧ build false (private b) (public a) = Some r0 ∧
      hs_write i0 = (Some m1, i1) ∧ (length m1 ≤ RECV_BUF)%nat ∧
      hs_read r0 m1 = (true, r1) ∧ is_handshake_finished r1 = false ∧
      hs_write r1 = (Some m2, r2) ∧ (length m2 ≤ RECV_BUF)%nat ∧
      is_handshake_finished r2 = true ∧ into_transport_mode r2 = Some tr ∧
      hs_read i1 m2 = (true, i2) ∧ is_handshake_finished i2 = true ∧ into_transport_mode i2 = Some ti ∧
      linked ti tr ∧ linked tr ti }.

Lemma bytes_lt_asym a b : bytes_lt a b = true → bytes_lt b a = false.
Proof.
  revert b. induction a as [|x a IH]; intros [|y b]; try done. simpl.
  destruct (Z.ltb_spec x y), (Z.eqb_spec x y), (Z.ltb_spec y x), (Z.eqb_spec y x); simpl; try lia; try done. apply IH.
Qed.
Lemma length_checksum f : length (complete_checksum f) = length f.
Proof. unfold complete_checksum. repeat (case_match; try done). by rewrite !length_insert. Qed.
Lemma length_stamp seg f : length (stamp seg f) = length f.
Proof. unfold stamp. by rewrite !length_insert, length_checksum. Qed.
Lemma segment_of_stamp seg f : (3 ≤ length f)%nat → 0 ≤ seg < 2 ^ 16 → segment_of (stamp seg f) = seg.
Proof.
  intros Hl Hs. unfold segment_of, stamp. rewrite !list_lookup_total_alt. rewrite list_lookup_insert_ne by done.
  rewrite !list_lookup_insert_eq by (rewrite ?length_insert, length_checksum; lia). simpl.
  unfold be16, wrap. rewrite Z.shiftr_div_pow2 by lia. rewrite (Z.mod_small (seg / 2 ^ 8)).
  - pose proof (Z.div_mod seg (2 ^ 8)). lia.
  - split; [apply Z.div_pos; lia|apply Z.div_lt_upper_bound; lia].
Qed.

Section Crossing.
Context `{NoiseLaws} `{Countable Addr}.
Implicit Types (t tA tB : TunnelTransport (Addr := Addr)) (aA aB : Addr) (wA wB seg : Z).

(** [A] knows [B] as [wB] at [aB], and [B] knows [A] as [wA] at [aA]; their sessions are
    linked, or neither encrypts. *)
Definition connected tA wB aB tB wA aA : Prop :=
  encryption tA = None ∧ encryption tB = None ∨
  is_some (encryption tA) = true ∧ is_some (encryption tB) = true ∧ addr_to_worker (state tB) !! aA = Some wA ∧
  ∃ x y, peers (state tA) !! wB = Some {| endpoint := aB; noise := Some (Transport x) |} ∧
    peers (state tB) !! wA = Some {| endpoint := aA; noise := Some (Transport y) |} ∧ linked x y.
(** The frames that the egress task of [A] sends, each received by [B], and what the
    channels of [B] take *)
Fixpoint carry tA wB aB seg tB aA (frames : list (list Z)) : option (list (nat * list Z)) :=
  match frames with
  | [] => Some []
  | f :: frames =>
      match egress_frame tA wB aB seg f with
      | Some (tA, [SendTo d to]) =>
          if decide (to = aB) then
            match on_datagram tB d aA with
            | (tB, [TrySend ch g]) => l ← carry tA wB aB seg tB aA frames; Some ((ch, g) :: l)
            | _ => None
            end
          else None
      | _ => None
      end
  end.
Definition frame_fits (f : list Z) : Prop := (FABRIC_HDR_SZ + 20 ≤ length f ≤ DECRYPT_BUF)%nat.
(** Arithmetic on the sizes of the buffers *)
Ltac sizes := unfold RECV_BUF, DECRYPT_BUF in *; unfold FABRIC_HDR_SZ, NOISE_TAG_LEN in *; lia.
Lemma carry_one tA wB aB tB wA aA seg ch f :
  connected tA wB aB tB wA aA → frame_fits f → 0 ≤ seg < 2 ^ 16 → segment_channels (state tB) !! seg = Some ch →
  ∃ tA' d tB', egress_frame tA wB aB seg f = Some (tA', [SendTo d aB]) ∧
    on_datagram tB d aA = (tB', [TrySend ch (stamp seg f)]) ∧ connected tA' wB aB tB' wA aA ∧
    segment_channels (state tB') = segment_channels (state tB).
Proof.
  intros Hc [Hl Hu] Hs Hch. pose proof (length_stamp seg f) as Ls.
  assert (Hd : ∀ st : TunnelState (Addr := Addr), segment_channels st = segment_channels (state tB) →
    dispatch_frame st (stamp seg f) = [TrySend ch (stamp seg f)]).
  { intros st Es. unfold dispatch_frame. rewrite decide_False by sizes.
    rewrite segment_of_stamp, Es, Hch by (done || sizes). done. }
  unfold egress_frame, on_datagram. rewrite decide_False by sizes.
  destruct Hc as [[EA EB]|(EA & EB & Ea & x & y & HA & HB & Hl2)].
  - rewrite EA, EB. cbn [is_some]. exists tA, (stamp seg f), tB. split; [done|].
    rewrite take_ge by sizes.
    rewrite decide_False by sizes. rewrite Hd by done. split_and!; [done|by left|done].
  - rewrite EA, HA. cbn [mbind option_bind noise].
    destruct (linked_frame x y (stamp seg f) DECRYPT_BUF Hl2) as (c & x' & y' & Es & Lc & Eo & Hl3);
      [sizes|sizes|]. rewrite Es.
    do 3 eexists. split; [reflexivity|]. rewrite EB, Ea, HB. cbn [noise].
    rewrite take_ge by sizes. rewrite Eo.
    split; [by rewrite Hd|]. split; [|done]. right. split_and!; [done|done|done|].
    exists x', y'. cbn. rewrite !lookup_insert_eq. done.
Qed.
Lemma carry_all tA wB aB tB wA aA seg ch frames :
  connected tA wB aB tB wA aA → Forall frame_fits frames → 0 ≤ seg < 2 ^ 16 →
  segment_channels (state tB) !! seg = Some ch →
  carry tA wB aB seg tB aA frames = Some ((λ f, (ch, stamp seg f)) <$> frames).
Proof.
  intros Hc Hf Hs Hch. revert tA tB Hc Hch. induction Hf as [|f l Hf _ IH]; intros tA tB Hc Hch; [done|].
  destruct (carry_one _ _ _ _ _ _ _ _ _ Hc Hf Hs Hch) as (tA' & d & tB' & E1 & E2 & Hc' & Es).
  cbn [carry]. rewrite E1, decide_True, E2 by done. rewrite (IH tA' tB' Hc') by (by rewrite Es). done.
Qed.
(** The handshake: [B] has added [A], then [A], whose key is the smaller, adds [B]. *)
Lemma handshake tA tB kA kB wA aA wB aB :
  encryption tA = Some kA → encryption tB = Some kB → keypair_ok kA → keypair_ok kB →
  bytes_lt (public kA) (public kB) = true →
  ∃ tB1 tA1 m1 tB2 m2 tA2,
    add_peer tB wA aA (Some (public kA)) (initiates tB (public kA)) = Some (tB1, []) ∧
    add_peer tA wB aB (Some (public kB)) (initiates tA (public kB)) = Some (tA1, [SendTo m1 aB]) ∧
    on_datagram tB1 m1 aA = (tB2, [SendTo m2 aA; HandshakeDone]) ∧
    on_datagram tA1 m2 aB = (tA2, [HandshakeDone]) ∧
    connected tA2 wB aB tB2 wA aA ∧ connected tB2 wA aA tA2 wB aB ∧
    egress_ready tA2 wB = Ready ∧ egress_ready tB2 wA = Ready ∧
    segment_channels (state tA2) = segment_channels (state tA) ∧
    segment_channels (state tB2) = segment_channels (state tB).
Proof.
  intros EA EB OA OB Hlt. destruct (ik_handshake kA kB OA OB)
    as (i0 & m1 & i1 & i2 & ti & r0 & r1 & m2 & r2 & tr & L1 & L2 & L3 & L4 & L5 & L6 & L7 & L8 & L9 & L10 & L11 & L12 & L13 & L14 & L15).
  assert (IA : initiates tA (public kB) = true) by (unfold initiates, public_key; by rewrite EA).
  assert (IB : initiates tB (public kA) = false) by (unfold initiates, public_key; rewrite EB; by apply bytes_lt_asym).
  rewrite IA, IB. unfold add_peer. rewrite EA, EB, L1, L2. cbn [mbind option_bind andb].
  do 2 eexists. exists m1. do 3 eexists. split; [reflexivity|]. cbn [encryption with_state]. rewrite EA. cbn [is_some].
  unfold send_handshake_msg. cbn [state with_state peers]. rewrite lookup_insert_eq. cbn [noise]. rewrite L3.
  split; [reflexivity|]. unfold on_datagram. cbn [state with_state encryption addr_to_worker peers set_noise with_peers].
  rewrite EA, EB. cbn [is_some]. rewrite !lookup_insert_eq. cbn [noise]. unfold on_handshake.
  rewrite !take_ge by done. rewrite L5, L6. cbv beta iota. rewrite L7. cbv beta iota. rewrite L9, L10.
  split; [reflexivity|]. rewrite L11, L12. cbv beta iota. rewrite L12, L13. split; [reflexivity|].
  cbn [state with_state encryption addr_to_worker peers set_noise with_peers segment_channels].
  unfold connected, egress_ready. cbn [state with_state encryption addr_to_worker peers set_noise with_peers].
  rewrite EA, EB. cbn [is_some]. rewrite !lookup_insert_eq. cbn [noise]. split_and!; try done.
  - right. split_and!; try done. by exists ti, tr.
  - right. split_and!; try done. by exists tr, ti.
Qed.
(** [B] learns of [A], [A] learns of [B], and the two messages of the handshake cross. *)
Definition establish tA wB aB (keyB : list Z) tB wA aA (keyA : list Z) :
    option (TunnelTransport (Addr := Addr) * TunnelTransport (Addr := Addr)) :=
  '(tB, _) ← add_peer tB wA aA (Some keyA) (initiates tB keyA);
  '(tA, sent) ← add_peer tA wB aB (Some keyB) (initiates tA keyB);
  match sent with
  | [SendTo m1 to] =>
      if decide (to = aB) then
        match on_datagram tB m1 aA with
        | (tB, [SendTo m2 to; HandshakeDone]) =>
            if decide (to = aA) then
              match on_datagram tA m2 aB with (tA, [HandshakeDone]) => Some (tA, tB) | _ => None end
            else None
        | _ => None
        end
      else None
  | _ => None
  end.

End Crossing.

(** ** Concrete runs *)
(** A session that counts the messages of the handshake, and then what it has sealed and
    opened; the count is the tag. *)
Definition counted (n : nat) : list Z := replicate NOISE_TAG_LEN (Z.of_nat n mod 256).
Definition count_open (x : nat * nat) (c : list Z) (n : nat) : option (list Z) * (nat * nat) :=
  let f := drop NOISE_TAG_LEN c in
  (if bool_decide (take NOISE_TAG_LEN c = counted x.2) && (length f <=? n)%nat then Some f else None, (x.1, S x.2)).
Lemma count_open_sealed x f n : (length f ≤ n)%nat → count_open x (counted x.2 ++ f) n = (Some f, (x.1, S x.2)).
Proof.
  intros Hn. unfold count_open. rewrite take_app_length', drop_app_length' by (unfold counted; by rewrite length_replicate).
  rewrite bool_decide_true by done. by rewrite (proj2 (Nat.leb_le _ _) Hn).
Qed.
#[local] Instance count_noise : Noise := {|
  HandshakeState := bool * nat;
  TransportState := nat * nat;
  build := λ initiator _ _, Some (initiator, 0%nat);
  hs_write := λ '(i, n), (Some [Z.of_nat n], (i, S n));
  hs_read := λ '(i, n) m, (bool_decide (m = [Z.of_nat n]), (i, S n));
  is_handshake_finished := λ '(_, n), (2 <=? n)%nat;
  into_transport_mode := λ _, Some (0%nat, 0%nat);
  seal := λ '(s, r) f, (Some (counted s ++ f), (S s, r));
  open_ := count_open |}.
#[local] Instance count_noise_laws : NoiseLaws.
Proof.
  refine {| keypair_ok := λ _, True; linked := λ a b, a.1 = b.2 |}.
  - intros [s r] [s' r'] f n El Hn _. simpl in El. subst r'. exists (counted s ++ f), (S s, r), (s', S s).
    split; [done|]. split; [unfold counted; by rewrite length_app, length_replicate, Nat.add_comm|].
    split; [|done]. by apply (count_open_sealed (s', s)).
  - intros a b _ _. by exists (true, 0%nat), [0], (true, 1%nat), (true, 2%nat), (0%nat, 0%nat),
      (false, 0%nat), (false, 1%nat), [1], (false, 2%nat), (0%nat, 0%nat);
      split_and!; try done; vm_compute; lia.
Defined.
Definition keys (n : Z) : Keypair := {| private := [n]; public := [n] |}.
Definition transport_with (n seg : Z) (ch : nat) : TunnelTransport (Addr := Z) :=
  {| state := with_channels {[seg := ch]} (state (new_transport None)); encryption := Some (keys n); ports_made := S ch |}.
(** An Ethernet frame of the smallest size that the receiver does not discard *)
Definition small_frame (b : Z) : list Z := [0; 0; 0; 0; 0; 0; 0; 0] ++ replicate 20 b.

(** Socket addresses, here single characters *)
Definition parse_letter (s : string) : option Z :=
  match s with String c EmptyString => Some (Z.of_nat (Ascii.nat_of_ascii c)) | _ => None end.
Definition info (wid : Z) (ep : string) (segs : list Z) : WorkerPeerInfo :=
  {| wpi_worker_id := wid; wpi_endpoint := ep; wpi_public_key := [wid]; wpi_segments := segs |}.
(** A worker with a namespace on segment 7 that two other workers share *)
Definition shared : TunnelManager (Addr := Z) :=
  (handle_registry_sync parse_letter (on_namespace_created (new_manager None) 7 0).1 [info 2 "b" [7]; info 3 "c" [7]]).1.
Lemma tunnel_ports_exact_witness :
  rtc (step parse_letter) (new_manager None) shared ∧
  (is_Some (m_peers shared !! 3) ↔ is_Some (peers (state (transport shared)) !! 3)) ∧
  ∃ wid p h, m_peers shared !! wid = Some p ∧ namespace_ports p !! 7 = Some h ∧ port h = 1%nat.
Proof.
  assert (Hr : rtc (step parse_letter) (new_manager (Addr := Z) None) shared)
    by (eapply rtc_l; [apply (step_created _ _ 7 0)|apply rtc_once, step_sync]).
  split; [exact Hr|]. destruct (tunnel_ports_exact parse_letter None shared Hr) as (Hp & _ & Hd). split; [apply Hp|].
  destruct (Hd (stamp 7 (small_frame 1)) 98 1%nat (stamp 7 (small_frame 1))) as (w & p & h & E1 & E2 & E3 & _).
  - vm_compute. left.
  - exists w, p, h. split; [exact E1|]. split; [exact E2|exact E3].
Defined.

(** When one of two workers that share a segment leaves, the channel of the segment goes
    with its port: what the other sends is not received any more, although its port is
    there and no later update of the registry makes another. *)
Definition after_leave : TunnelManager (Addr := Z) := (handle_registry_sync parse_letter shared [info 2 "b" [7]]).1.
Example peer_leaves_segment_deaf :
  (on_datagram (transport shared) (stamp 7 (small_frame 1)) 98).2 = [TrySend 1 (stamp 7 (small_frame 1))] ∧
  is_Some (m_peers after_leave !! 2 ≫= λ p, namespace_ports p !! 7) ∧
  (on_datagram (transport after_leave) (stamp 7 (small_frame 1)) 98).2 = [] ∧
  (handle_registry_sync parse_letter after_leave [info 2 "b" [7]]).2 = [] ∧
  (on_datagram (transport (handle_registry_sync parse_letter after_leave [info 2 "b" [7]]).1)
     (stamp 7 (small_frame 1)) 98).2 = [].
Proof. split_and!; [|by eexists; vm_compute| | |]; by vm_compute. Qed.

(** The message that starts a handshake is sent when the peer is added and not again: if
    the other worker learns of this one later, it drops the message, and both wait. *)
Example handshake_sent_once :
  let A := transport_with 3 7 0 in let B := transport_with 5 7 4 in
  let A' := add_peer A 2 20 (Some [5]) (initiates A [5]) in
  let B' := add_peer B 1 10 (Some [3]) (initiates B [3]) in
  snd <$> A' = Some [SendTo [0] 20] ∧ (on_datagram B [0] 10).2 = [] ∧ snd <$> B' = Some [] ∧
  (λ x, egress_ready x.1 2) <$> A' = Some Waiting ∧ (λ x, egress_ready x.1 1) <$> B' = Some Waiting ∧
  (x ← A'; snd <$> egress_frame x.1 2 20 7 (small_frame 1)) = Some [] ∧
  (x ← B'; snd <$> egress_frame x.1 1 10 7 (small_frame 1)) = Some [].
Proof. cbn zeta. split_and!; by vm_compute. Qed.
End TunnelInv.
