(* ===== verification/LogBus.v ===== *)
(** * The buses of the orchestrator
      ([crates/orchestrator/src/log_bus.rs], [crates/orchestrator/src/event_bus.rs])

    Both keep what was published lately and fan it out to subscribers through bounded
    channels.  The channels are a store of their own: a subscriber is the number of its
    channel, and the receiving side takes from the queue ([recv]) or goes away
    ([close_rx]).  The locks make each call one step; the instant of a call is an argument,
    and an iteration over topics takes an arbitrary order. *)

From S2P Require Import Prelude SmTypes Protocol.

(** ** Bounded channels (tokio's [mpsc]) *)
Module Channels.
Section Channels.
Context {M : Type}.
(** [taken] is what the receiver has got so far. *)
Record Channel := { capacity : nat; queue : list M; taken : list M; rx_open : bool }.
Record Channels := { chans : gmap nat Channel; next : nat }.
Inductive SendResult := Sent | Full | Closed.

Definition no_channels : Channels := {| chans := ∅; next := 0 |}.
Definition channel (cap : nat) (cs : Channels) : nat * Channels :=
  (next cs, {| chans := <[next cs := {| capacity := cap; queue := []; taken := []; rx_open := true |}]> (chans cs);
               next := S (next cs) |}).
Definition with_chan (tx : nat) (c : Channel) (cs : Channels) : Channels :=
  {| chans := <[tx := c]> (chans cs); next := next cs |}.
Definition is_closed (cs : Channels) (tx : nat) : bool :=
  match chans cs !! tx with Some c => negb (rx_open c) | None => true end.
Definition try_send (tx : nat) (m : M) (cs : Channels) : SendResult * Channels :=
  match chans cs !! tx with
  | Some c =>
      if rx_open c then
        if (length (queue c) <? capacity c)%nat then
          (Sent, with_chan tx {| capacity := capacity c; queue := queue c ++ [m]; taken := taken c; rx_open := true |} cs)
        else (Full, cs)
      else (Closed, cs)
  | None => (Closed, cs)
  end.
Definition recv (rx : nat) (cs : Channels) : Channels :=
  match chans cs !! rx with
  | Some c =>
      match queue c with
      | m :: q => with_chan rx {| capacity := capacity c; queue := q; taken := taken c ++ [m]; rx_open := rx_open c |} cs
      | [] => cs
      end
  | None => cs
  end.
Definition close_rx (rx : nat) (cs : Channels) : Channels :=
  match chans cs !! rx with
  | Some c => with_chan rx {| capacity := capacity c; queue := []; taken := taken c; rx_open := false |} cs
  | None => cs
  end.
(** [subscribers.retain]: send to each, and keep those whose result [keep] accepts. *)
Fixpoint fan_out (keep : SendResult → bool) (m : M) (subs : list nat) (cs : Channels) : list nat * Channels :=
  match subs with
  | [] => ([], cs)
  | tx :: subs =>
      let '(r, cs) := try_send tx m cs in
      let '(kept, cs) := fan_out keep m subs cs in
      (if keep r then tx :: kept else kept, cs)
  end.
End Channels.
Arguments Channel : clear implicits.
Arguments Channels : clear implicits.
End Channels.

Module LogBus.
Import Channels.

Definition DEFAULT_RETIRED_TTL : Z := 5 * 60 * 10 ^ 9.
Definition SWEEP_THRESHOLD : nat := 64.
Definition SUBSCRIBER_CHANNEL_CAPACITY : nat := 4096.

Record LogChunk := {
  chunk_namespace : NamespaceId; chunk_pod : Z; chunk_container : string;
  chunk_workload : option string; data : list Z; timestamp : Z; seq : Z }.
Definition TopicKey : Type := NamespaceId * Z * string.
Definition key_of (c : LogChunk) : TopicKey := (chunk_namespace c, chunk_pod c, chunk_container c).
Definition with_workload (n : option string) (c : LogChunk) : LogChunk :=
  {| chunk_namespace := chunk_namespace c; chunk_pod := chunk_pod c; chunk_container := chunk_container c;
     chunk_workload := n; data := data c; timestamp := timestamp c; seq := seq c |}.
Definition data_len (c : LogChunk) : Z := Z.of_nat (length (data c)).

(** ** A topic *)
Record TopicState := {
  buffer : list LogChunk; buffer_bytes : Z; max_bytes : Z; subscribers : list nat;
  workload_name : option string; retired_at : option Z }.
Definition topic_new (max : Z) (name : option string) : TopicState :=
  {| buffer := []; buffer_bytes := 0; max_bytes := max; subscribers := []; workload_name := name; retired_at := None |}.
(** Evict the oldest while over the cap. *)
Fixpoint evict (max bytes : Z) (buf : list LogChunk) : list LogChunk * Z :=
  if max <? bytes then
    match buf with
    | old :: buf => evict max (bytes - data_len old) buf
    | [] => ([], bytes)
    end
  else (buf, bytes).
Definition keeps (r : SendResult) : bool := match r with Closed => false | _ => true end.
Definition topic_publish (t : TopicState) (c : LogChunk) (cs : Channels LogChunk) : TopicState * Channels LogChunk :=
  let c := if is_none (chunk_workload c) then with_workload (workload_name t) c else c in
  let '(buf, bytes) := evict (max_bytes t) (buffer_bytes t + data_len c) (buffer t ++ [c]) in
  let '(subs, cs) := fan_out keeps c (subscribers t) cs in
  ({| buffer := buf; buffer_bytes := bytes; max_bytes := max_bytes t; subscribers := subs;
      workload_name := workload_name t; retired_at := retired_at t |}, cs).

(** ** The bus *)
Record WorkloadSubscription := {
  sub_namespace : NamespaceId; sub_workload : string; container_filter : option (list string); sub_tx : nat }.
Record LogBusInner := {
  topics : gmap TopicKey TopicState; max_bytes_per_topic : Z; retired_ttl : Z;
  workload_subscriptions : list WorkloadSubscription }.
Definition log_bus_new (max : Z) : LogBusInner :=
  {| topics := ∅; max_bytes_per_topic := max; retired_ttl := DEFAULT_RETIRED_TTL; workload_subscriptions := [] |}.

Definition filter_allows {A} `{EqDecision A} (f : option (list A)) (x : A) : bool :=
  match f with Some l => bool_decide (x ∈ l) | None => true end.
Definition sub_matches (key : TopicKey) (wl : string) (s : WorkloadSubscription) : bool :=
  bool_decide (sub_namespace s = key.1.1) && bool_decide (sub_workload s = wl) && filter_allows (container_filter s) key.2.
(** Whether a topic outlives the sweep: [duration_since] is zero for a later instant. *)
Definition stays (now ttl : Z) (t : TopicState) : bool :=
  match retired_at t with Some at_ => Z.max 0 (now - at_) <? ttl | None => true end.
Definition add_subscribers (l : list nat) (t : TopicState) : TopicState :=
  {| buffer := buffer t; buffer_bytes := buffer_bytes t; max_bytes := max_bytes t; subscribers := subscribers t ++ l;
     workload_name := workload_name t; retired_at := retired_at t |}.
Definition publish (b : LogBusInner) (chunk : LogChunk) (name : option string) (now : Z) (cs : Channels LogChunk) :
    LogBusInner * Channels LogChunk :=
  let key := key_of chunk in
  let needs_sub_matching :=
    match topics b !! key with
    | None => is_some name
    | Some t => is_some name && is_none (workload_name t)
    end in
  let '(subs, matching) :=
    match name with
    | Some wl =>
        if needs_sub_matching then
          let live := filter (λ s, is_closed cs (sub_tx s) = false) (workload_subscriptions b) in
          (live, sub_tx <$> filter (λ s, sub_matches key wl s = true) live)
        else (workload_subscriptions b, [])
    | None => (workload_subscriptions b, [])
    end in
  let topic := default (topic_new (max_bytes_per_topic b) name) (topics b !! key) in
  let topic :=
    {| buffer := buffer topic; buffer_bytes := buffer_bytes topic; max_bytes := max_bytes topic;
       subscribers := subscribers topic;
       workload_name := if is_none (workload_name topic) && is_some name then name else workload_name topic;
       retired_at := None |} in
  let '(topic, cs) := topic_publish (add_subscribers matching topic) chunk cs in
  let topics := <[key := topic]> (topics b) in
  let topics :=
    if decide (SWEEP_THRESHOLD < size topics)%nat then filter (λ '(_, t), stays now (retired_ttl b) t = true) topics
    else topics in
  ({| topics := topics; max_bytes_per_topic := max_bytes_per_topic b; retired_ttl := retired_ttl b;
      workload_subscriptions := subs |}, cs).
Definition with_topics (ts : gmap TopicKey TopicState) (b : LogBusInner) : LogBusInner :=
  {| topics := ts; max_bytes_per_topic := max_bytes_per_topic b; retired_ttl := retired_ttl b;
     workload_subscriptions := workload_subscriptions b |}.
Definition retire_topic (b : LogBusInner) (key : TopicKey) (now : Z) : LogBusInner :=
  match topics b !! key with
  | Some t =>
      with_topics (<[key := {| buffer := buffer t; buffer_bytes := buffer_bytes t; max_bytes := max_bytes t;
                               subscribers := subscribers t; workload_name := workload_name t;
                               retired_at := Some now |}]> (topics b)) b
  | None => b
  end.

(** [sort_by_key] on the timestamp, which is stable *)
Fixpoint insert_by_time (c : LogChunk) (l : list LogChunk) : list LogChunk :=
  match l with
  | [] => [c]
  | d :: l' => if timestamp c <=? timestamp d then c :: l else d :: insert_by_time c l'
  end.
Definition sort_by_time (l : list LogChunk) : list LogChunk := foldr insert_by_time [] l.

Section Subscribe.
Context {iter : HashIter TopicKey}.
(** The history of the topics that [sel] accepts, and the bus with [tx] subscribed to them *)
Definition attach (sel : TopicKey → TopicState → bool) (tx : nat) (b : LogBusInner) : list LogChunk * LogBusInner :=
  (sort_by_time ('(k, t) ← hash_iter (topics b); if sel k t then buffer t else []),
   with_topics (map_imap (λ k t, Some (if sel k t then add_subscribers [tx] t else t)) (topics b)) b).
Definition subscribe (b : LogBusInner) (ns : NamespaceId) (pods : option (list Z)) (containers : option (list string))
    (cs : Channels LogChunk) : list LogChunk * nat * LogBusInner * Channels LogChunk :=
  let '(tx, cs) := channel SUBSCRIBER_CHANNEL_CAPACITY cs in
  let '(h, b) :=
    attach (λ k _, bool_decide (k.1.1 = ns) && filter_allows pods k.1.2 && filter_allows containers k.2) tx b in
  (h, tx, b, cs).
Definition of_workload (ns : NamespaceId) (wl : string) (containers : option (list string)) (k : TopicKey)
    (name : option string) : bool :=
  bool_decide (k.1.1 = ns) && bool_decide (name = Some wl) && filter_allows containers k.2.
Definition subscribe_by_workload (b : LogBusInner) (ns : NamespaceId) (wl : string) (containers : option (list string))
    (cs : Channels LogChunk) : list LogChunk * nat * LogBusInner * Channels LogChunk :=
  let '(tx, cs) := channel SUBSCRIBER_CHANNEL_CAPACITY cs in
  let '(h, b) := attach (λ k t, of_workload ns wl containers k (workload_name t)) tx b in
  (h, tx,
   {| topics := topics b; max_bytes_per_topic := max_bytes_per_topic b; retired_ttl := retired_ttl b;
      workload_subscriptions := workload_subscriptions b ++
        [{| sub_namespace := ns; sub_workload := wl; container_filter := containers; sub_tx := tx |}] |}, cs).
End Subscribe.
Definition remove_namespace (b : LogBusInner) (ns : NamespaceId) : LogBusInner :=
  {| topics := filter (λ '(k, _), k.1.1 ≠ ns) (topics b); max_bytes_per_topic := max_bytes_per_topic b;
     retired_ttl := retired_ttl b;
     workload_subscriptions := filter (λ s, sub_namespace s ≠ ns) (workload_subscriptions b) |}.
End LogBus.

(** ** The bus of observability events *)
Module EventBus.
Import Channels.
Section EventBus.
Context {ObservabilityEvent : Type}.
Abbreviation Chans := (Channels ObservabilityEvent).

Record NamespaceState := { ev_buffer : list ObservabilityEvent; max_events : nat; ev_subscribers : list nat }.
Record EventBusInner := { bus_namespaces : gmap NamespaceId NamespaceState; max_events_per_namespace : nat }.
Definition event_bus_new (max : nat) : EventBusInner := {| bus_namespaces := ∅; max_events_per_namespace := max |}.
Definition state_new (max : nat) : NamespaceState := {| ev_buffer := []; max_events := max; ev_subscribers := [] |}.
Fixpoint evict_events (max : nat) (buf : list ObservabilityEvent) : list ObservabilityEvent :=
  match buf with
  | [] => []
  | _ :: rest => if (max <? length buf)%nat then evict_events max rest else buf
  end.
Definition is_ok (r : SendResult) : bool := match r with Sent => true | _ => false end.
Definition state_publish (x : NamespaceState * Chans) (e : ObservabilityEvent) : NamespaceState * Chans :=
  let '(s, cs) := x in
  let '(subs, cs) := fan_out is_ok e (ev_subscribers s) cs in
  ({| ev_buffer := evict_events (max_events s) (ev_buffer s ++ [e]); max_events := max_events s;
      ev_subscribers := subs |}, cs).
Definition namespace_state (b : EventBusInner) (ns : NamespaceId) : NamespaceState :=
  default (state_new (max_events_per_namespace b)) (bus_namespaces b !! ns).
Definition with_namespace (ns : NamespaceId) (s : NamespaceState) (b : EventBusInner) : EventBusInner :=
  {| bus_namespaces := <[ns := s]> (bus_namespaces b); max_events_per_namespace := max_events_per_namespace b |}.
Definition publish_events (b : EventBusInner) (ns : NamespaceId) (events : list ObservabilityEvent) (cs : Chans) :
    EventBusInner * Chans :=
  match events with
  | [] => (b, cs)
  | _ => let '(s, cs) := foldl state_publish (namespace_state b ns, cs) events in (with_namespace ns s b, cs)
  end.
Definition subscribe_events (b : EventBusInner) (ns : NamespaceId) (cs : Chans) :
    list ObservabilityEvent * nat * EventBusInner * Chans :=
  let '(tx, cs) := channel 256 cs in
  let s := namespace_state b ns in
  (ev_buffer s, tx,
   with_namespace ns {| ev_buffer := ev_buffer s; max_events := max_events s; ev_subscribers := ev_subscribers s ++ [tx] |} b,
   cs).
Definition remove_events (b : EventBusInner) (ns : NamespaceId) : EventBusInner :=
  {| bus_namespaces := delete ns (bus_namespaces b); max_events_per_namespace := max_events_per_namespace b |}.
End EventBus.
End EventBus.
