(* ===== verification/LogBusInv.v ===== *)
(** * What the buses deliver
      ([crates/orchestrator/src/log_bus.rs], [crates/orchestrator/src/event_bus.rs])

    A topic keeps a bounded suffix of what was published on it.  Whoever follows a workload
    gets what its pods write from then on, those that start later included, in order and
    once, and misses nothing while the channel has room.  A subscriber of events gets what
    is published without a gap until it lags. *)

From S2P Require Import Prelude SmTypes Protocol LogBus.

(** ** Channels *)
Module ChannelsInv.
Import Channels.
Section Offer.
Context {M : Type}.
Implicit Types (cs : Channels M) (m : M) (ch : nat).
(** What sending does to the channel it is sent to *)
Definition offer m (o : option (Channel M)) : SendResult * option (Channel M) :=
  match o with
  | Some c =>
      if rx_open c then
        if (length (queue c) <? capacity c)%nat then
          (Sent, Some {| capacity := capacity c; queue := queue c ++ [m]; taken := taken c; rx_open := true |})
        else (Full, o)
      else (Closed, o)
  | None => (Closed, o)
  end.
Lemma try_send_self tx m cs : ((try_send tx m cs).1, chans (try_send tx m cs).2 !! tx) = offer m (chans cs !! tx).
Proof.
  unfold try_send, offer. destruct (chans cs !! tx) as [c|] eqn:E; [|simpl; by rewrite E].
  destruct (rx_open c); [|simpl; by rewrite E]. case_match; [|simpl; by rewrite E]. simpl. by rewrite lookup_insert_eq.
Qed.
Lemma try_send_other tx m cs ch : tx ≠ ch → chans (try_send tx m cs).2 !! ch = chans cs !! ch.
Proof. intros Hn. unfold try_send. repeat (case_match; try done). by apply lookup_insert_ne. Qed.
Lemma try_send_next tx m cs : next (try_send tx m cs).2 = next cs.
Proof. unfold try_send. by repeat (case_match; try done). Qed.
Lemma fan_out_next keep m subs cs : next (fan_out keep m subs cs).2 = next cs.
Proof.
  revert cs. induction subs as [|tx subs IH]; intros cs; [done|]. simpl.
  pose proof (try_send_next tx m cs) as E. destruct (try_send tx m cs) as [r cs1].
  specialize (IH cs1). destruct (fan_out keep m subs cs1) as [kept cs2]. simpl in *. congruence.
Qed.
Lemma fan_out_sub keep m subs cs : (fan_out keep m subs cs).1 ⊆ subs.
Proof.
  revert cs. induction subs as [|tx subs IH]; intros cs; [done|]. simpl.
  destruct (try_send tx m cs) as [r cs1]. specialize (IH cs1).
  destruct (fan_out keep m subs cs1) as [kept cs2]. simpl in *. destruct (keep r); set_solver.
Qed.
Lemma fan_out_absent keep m subs cs ch :
  ch ∉ subs → chans (fan_out keep m subs cs).2 !! ch = chans cs !! ch.
Proof.
  revert cs. induction subs as [|tx subs IH]; intros cs Hn; [done|]. simpl.
  apply not_elem_of_cons in Hn as [Hne Hn].
  pose proof (try_send_other tx m cs ch ltac:(done)) as E. destruct (try_send tx m cs) as [r cs1]. simpl in E.
  specialize (IH cs1 Hn). destruct (fan_out keep m subs cs1) as [kept cs2]. simpl in *. congruence.
Qed.
(** How often a subscriber is listed *)
Definition listed ch (subs : list nat) : list nat := filter (λ x, x = ch) subs.
Lemma listed_nil ch subs : listed ch subs = [] ↔ ch ∉ subs.
Proof.
  unfold listed. induction subs as [|x subs IH]; [set_solver|]. destruct (decide (x = ch)) as [->|Hn].
  - rewrite filter_cons_True by done. set_solver.
  - rewrite filter_cons_False by done. set_solver.
Qed.
Lemma listed_cons_eq ch subs : listed ch (ch :: subs) = ch :: listed ch subs.
Proof. unfold listed. by rewrite filter_cons_True. Qed.
Lemma listed_cons_ne x ch subs : x ≠ ch → listed ch (x :: subs) = listed ch subs.
Proof. intros Hn. unfold listed. by rewrite filter_cons_False. Qed.
Lemma listed_app ch l k : listed ch (l ++ k) = listed ch l ++ listed ch k.
Proof. apply filter_app. Qed.
(** A subscriber that is listed once is sent to once, and stays if its result is kept. *)
Lemma fan_out_once keep m subs cs ch :
  listed ch subs = [ch] →
  listed ch (fan_out keep m subs cs).1 = (if keep (offer m (chans cs !! ch)).1 then [ch] else []) ∧
  chans (fan_out keep m subs cs).2 !! ch = (offer m (chans cs !! ch)).2.
Proof.
  revert cs. induction subs as [|tx subs IH]; intros cs Hl; [done|]. simpl.
  pose proof (try_send_self tx m cs) as Es. pose proof (try_send_other tx m cs ch) as Eo.
  destruct (try_send tx m cs) as [r cs1]. simpl in Es, Eo. destruct (decide (tx = ch)) as [->|Hn].
  - rewrite listed_cons_eq in Hl. injection Hl as Hl. apply listed_nil in Hl.
    pose proof (fan_out_sub keep m subs cs1) as Hs. pose proof (fan_out_absent keep m subs cs1 ch Hl) as E.
    destruct (fan_out keep m subs cs1) as [kept cs2]. simpl in *. rewrite <- Es. simpl. split; [|done].
    assert (Hk : listed ch kept = []) by (apply listed_nil; set_solver).
    destruct (keep r); [by rewrite listed_cons_eq, Hk|done].
  - rewrite listed_cons_ne in Hl by done. specialize (IH cs1 Hl). rewrite (Eo Hn) in IH.
    destruct (fan_out keep m subs cs1) as [kept cs2]. simpl in *. destruct IH as [E1 E2]. split; [|done].
    destruct (keep r); [by rewrite listed_cons_ne|done].
Qed.
Lemma fan_out_listed_nil keep m subs cs ch : listed ch subs = [] → listed ch (fan_out keep m subs cs).1 = [].
Proof. rewrite !listed_nil. pose proof (fan_out_sub keep m subs cs). set_solver. Qed.

(** What a receiver has got or will get *)
Definition stream (c : Channel M) : list M := taken c ++ queue c.
Lemma recv_self rx cs c :
  chans cs !! rx = Some c →
  ∃ c', chans (recv rx cs) !! rx = Some c' ∧ stream c' = stream c ∧ rx_open c' = rx_open c ∧ capacity c' = capacity c.
Proof.
  intros E. unfold recv. rewrite E. destruct (queue c) as [|m q] eqn:Eq; [by eauto|].
  eexists. simpl. rewrite lookup_insert_eq. split; [done|]. unfold stream. simpl. by rewrite Eq, <- app_assoc.
Qed.
Lemma recv_other rx cs ch : rx ≠ ch → chans (recv rx cs) !! ch = chans cs !! ch.
Proof. intros Hn. unfold recv. repeat (case_match; try done). by apply lookup_insert_ne. Qed.
Lemma recv_next rx cs : next (recv rx cs) = next cs.
Proof. unfold recv. by repeat (case_match; try done). Qed.
Lemma close_other rx cs ch : rx ≠ ch → chans (close_rx rx cs) !! ch = chans cs !! ch.
Proof. intros Hn. unfold close_rx. case_match; [|done]. by apply lookup_insert_ne. Qed.
Lemma close_next rx cs : next (close_rx rx cs) = next cs.
Proof. unfold close_rx. by case_match. Qed.
Lemma recv_keeps rx cs ch c :
  chans cs !! ch = Some c →
  ∃ c', chans (recv rx cs) !! ch = Some c' ∧ stream c' = stream c ∧ rx_open c' = rx_open c ∧ capacity c' = capacity c.
Proof.
  intros E. destruct (decide (rx = ch)) as [->|Hn]; [by apply recv_self|].
  exists c. by rewrite recv_other.
Qed.
End Offer.
End ChannelsInv.

Module LogBusInv.
Import Channels ChannelsInv LogBus.

(** ** Runs *)
Inductive Op :=
  | Publish (c : LogChunk) (name : option string) (now : Z)
  | Retire (key : TopicKey) (now : Z)
  | Subscribe (ns : NamespaceId) (pods : option (list Z)) (containers : option (list string))
  | SubscribeWorkload (ns : NamespaceId) (wl : string) (containers : option (list string))
  | RemoveNamespace (ns : NamespaceId)
  | Recv (rx : nat)
  | CloseRx (rx : nat).
Definition World : Type := LogBusInner * Channels LogChunk.

Section Runs.
Context {iter : HashIter TopicKey}.
Implicit Types (w : World) (b : LogBusInner) (cs : Channels LogChunk) (t : TopicState) (ch : nat).
Definition exec w (op : Op) : World :=
  let '(b, cs) := w in
  match op with
  | Publish c name now => publish b c name now cs
  | Retire key now => (retire_topic b key now, cs)
  | Subscribe ns pods containers => let '(_, _, b, cs) := subscribe b ns pods containers cs in (b, cs)
  | SubscribeWorkload ns wl containers => let '(_, _, b, cs) := subscribe_by_workload b ns wl containers cs in (b, cs)
  | RemoveNamespace ns => (remove_namespace b ns, cs)
  | Recv rx => (b, recv rx cs)
  | CloseRx rx => (b, close_rx rx cs)
  end.
Definition run w (ops : list Op) : World := foldl exec w ops.
Definition start (max : Z) : World := (log_bus_new max, no_channels).

(** The name of a topic once a chunk with [name] has arrived, and the chunk it keeps *)
Definition named b (key : TopicKey) (name : option string) : option string :=
  match topics b !! key with
  | Some t => match workload_name t with Some n => Some n | None => name end
  | None => name
  end.
Definition stamped (n : option string) (c : LogChunk) : LogChunk :=
  if is_none (chunk_workload c) then with_workload n c else c.
(** The topic of the chunk before it is published, and the list of its subscribers *)
Definition topic_for b (c : LogChunk) (name : option string) : TopicState :=
  default (topic_new (max_bytes_per_topic b) name) (topics b !! key_of c).
Definition matching b cs (c : LogChunk) (name : option string) : list nat :=
  match name with
  | Some wl =>
      if match topics b !! key_of c with None => true | Some t => is_none (workload_name t) end
      then sub_tx <$> filter (λ s, sub_matches (key_of c) wl s = true)
             (filter (λ s, is_closed cs (sub_tx s) = false) (workload_subscriptions b))
      else []
  | None => []
  end.
(** [publish] in these terms *)
Lemma publish_spec b c name now cs :
  let t := topic_for b c name in
  let subs := subscribers t ++ matching b cs c name in
  let m := stamped (named b (key_of c) name) c in
  let e := evict (max_bytes t) (buffer_bytes t + data_len c) (buffer t ++ [m]) in
  let f := fan_out keeps m subs cs in
  let t' := {| buffer := e.1; buffer_bytes := e.2; max_bytes := max_bytes t; subscribers := f.1;
               workload_name := named b (key_of c) name; retired_at := None |} in
  let w := publish b c name now cs in
  w.2 = f.2 ∧ topics w.1 !! key_of c = Some t' ∧
  (∀ k t, k ≠ key_of c → topics w.1 !! k = Some t → topics b !! k = Some t) ∧
  (workload_subscriptions w.1 = workload_subscriptions b ∨
   workload_subscriptions w.1 = filter (λ s, is_closed cs (sub_tx s) = false) (workload_subscriptions b)) ∧
  max_bytes_per_topic w.1 = max_bytes_per_topic b.
Proof.
  cbn zeta. unfold publish. fold (topic_for b c name).
  assert (Em : ∃ subs, (match name with
    | Some wl =>
        if match topics b !! key_of c with None => is_some name | Some t => is_some name && is_none (workload_name t) end
        then (filter (λ s, is_closed cs (sub_tx s) = false) (workload_subscriptions b),
              sub_tx <$> filter (λ s, sub_matches (key_of c) wl s = true)
                (filter (λ s, is_closed cs (sub_tx s) = false) (workload_subscriptions b)))
        else (workload_subscriptions b, [])
    | None => (workload_subscriptions b, []) end) = (subs, matching b cs c name) ∧
    (subs = workload_subscriptions b ∨ subs = filter (λ s, is_closed cs (sub_tx s) = false) (workload_subscriptions b))).
  { unfold matching. destruct name as [wl|]; [|by eauto]. cbn [is_some andb].
    destruct (topics b !! key_of c) as [t|]; [destruct (is_none (workload_name t))|];
      eexists; (split; [reflexivity|]); first [by left|by right]. }
  destruct Em as (subs & -> & Hsubs).
  assert (En : (if is_none (workload_name (topic_for b c name)) && is_some name then name
                else workload_name (topic_for b c name)) = named b (key_of c) name).
  { unfold topic_for, named. destruct (topics b !! key_of c) as [t|]; simpl; [|by destruct name].
    destruct (workload_name t), name; done. }
  unfold topic_publish, add_subscribers. cbn [max_bytes buffer buffer_bytes subscribers workload_name retired_at].
  rewrite En. fold (stamped (named b (key_of c) name) c).
  assert (El : data_len (stamped (named b (key_of c) name) c) = data_len c) by (unfold stamped; simpl; by destruct (is_none (chunk_workload c))).
  rewrite El. destruct (evict _ _ _) as [buf bytes]. destruct (fan_out _ _ _ _) as [kept cs']. cbn [fst snd].
  split; [done|]. cbn [topics workload_subscriptions max_bytes_per_topic]. split_and!; [| |done|done].
  - case_decide; [|apply lookup_insert_eq]. apply map_lookup_filter_Some. by rewrite lookup_insert_eq.
  - intros k t Hk. case_decide; [intros [Hl _]%map_lookup_filter_Some|intros Hl]; by rewrite lookup_insert_ne in Hl.
Qed.
(** ** Following a workload *)
Lemma filter_swap {A} (P Q : A → Prop) `{!∀ x, Decision (P x), !∀ x, Decision (Q x)} (l : list A) :
  filter P (filter Q l) = filter Q (filter P l).
Proof. rewrite !list_filter_filter. apply list_filter_iff. tauto. Qed.
Lemma listed_fmap (f : WorkloadSubscription → nat) ch l : listed ch (f <$> l) = f <$> filter (λ s, f s = ch) l.
Proof.
  unfold listed. induction l as [|s l IH]; [done|]. rewrite fmap_cons, !filter_cons.
  destruct (decide (f s = ch)); simpl; by rewrite IH.
Qed.

Section Follow.
Variables (ch : nat) (ns : NamespaceId) (wl : string) (cf : option (list string)).
Definition the_sub : WorkloadSubscription :=
  {| sub_namespace := ns; sub_workload := wl; container_filter := cf; sub_tx := ch |}.
Abbreviation of_wl := (of_workload ns wl cf).
Record follows w : Prop := {
  follows_sub : filter (λ s, sub_tx s = ch) (workload_subscriptions w.1) = [the_sub];
  follows_topics : ∀ k t, topics w.1 !! k = Some t →
    listed ch (subscribers t) = if of_wl k (workload_name t) then [ch] else [];
  follows_open : ∃ c, chans w.2 !! ch = Some c ∧ rx_open c = true ∧ capacity c = SUBSCRIBER_CHANNEL_CAPACITY;
  follows_next : (ch < next w.2)%nat }.
(** What the follower should see of an operation *)
Definition arrives w (op : Op) : list LogChunk :=
  match op with
  | Publish c name _ =>
      let n := named w.1 (key_of c) name in
      if of_wl (key_of c) n then [stamped n c] else []
  | _ => []
  end.
Fixpoint expected w (ops : list Op) : list LogChunk :=
  match ops with [] => [] | op :: ops => arrives w op ++ expected (exec w op) ops end.
(** The namespace stays, and so does the receiver. *)
Definition undisturbed (op : Op) : Prop := op ≠ RemoveNamespace ns ∧ op ≠ CloseRx ch.

Lemma the_sub_matches k n : sub_matches k n the_sub = of_wl k (Some n).
Proof.
  unfold sub_matches, of_workload. cbn [sub_namespace sub_workload container_filter the_sub].
  rewrite (bool_decide_ext (ns = k.1.1) (k.1.1 = ns)) by done.
  by rewrite (bool_decide_ext (wl = n) (Some n = Some wl)) by naive_solver.
Qed.
Lemma of_wl_none k : of_wl k None = false.
Proof. unfold of_workload. by rewrite (bool_decide_false (None = _)), andb_false_r. Qed.
(** The subscribers of the topic that a chunk is published on list the follower if and only
    if the topic is one of the workload. *)
Lemma listed_matching w c name :
  follows w →
  listed ch (subscribers (topic_for w.1 c name) ++ matching w.1 w.2 c name) =
    if of_wl (key_of c) (named w.1 (key_of c) name) then [ch] else [].
Proof.
  intros [Hs Ht (x & Ex & Ox & _) _]. rewrite listed_app. unfold topic_for, matching, named.
  assert (Hm : ∀ n, listed ch (sub_tx <$> filter (λ s, sub_matches (key_of c) n s = true)
      (filter (λ s, is_closed w.2 (sub_tx s) = false) (workload_subscriptions w.1))) =
      if of_wl (key_of c) (Some n) then [ch] else []).
  { intros n. rewrite listed_fmap, filter_swap, (filter_swap (λ s, sub_tx s = ch)), Hs, filter_cons, decide_True.
    - rewrite filter_cons, the_sub_matches. by destruct (of_wl _ _).
    - unfold is_closed. simpl. by rewrite Ex, Ox. }
  destruct (topics w.1 !! key_of c) as [t|] eqn:E; cbn [default from_option].
  - specialize (Ht _ _ E). unfold id. rewrite Ht. destruct (workload_name t) as [n|] eqn:En; cbn [is_none].
    + destruct name; by rewrite app_nil_r.
    + rewrite of_wl_none. simpl. destruct name as [n|]; [apply Hm|by rewrite of_wl_none].
  - simpl. destruct name as [n|]; [apply Hm|by rewrite of_wl_none].
Qed.
(** What the channel takes of an offer *)
Lemma offer_stream (m : LogChunk) (c : Channel LogChunk) :
  rx_open c = true →
  ∃ c', (offer m (Some c)).2 = Some c' ∧ keeps (offer m (Some c)).1 = true ∧ rx_open c' = true ∧ capacity c' = capacity c ∧
    stream c' = stream c ++ (if (length (queue c) <? capacity c)%nat then [m] else []).
Proof.
  intros Ho. simpl. rewrite Ho. destruct (_ <? _)%nat; eexists; (split; [reflexivity|]); split_and!; try done.
  - unfold stream. simpl. by rewrite app_assoc.
  - by rewrite app_nil_r.
Qed.
(** The channel sees an operation as it should, unless it is full. *)
Definition sees w w' (l : list LogChunk) : Prop :=
  ∃ c c', chans w.2 !! ch = Some c ∧ chans w'.2 !! ch = Some c' ∧
    stream c' = stream c ++ (if (length (queue c) <? SUBSCRIBER_CHANNEL_CAPACITY)%nat then l else []).
Lemma sees_nothing w w' c c' :
  chans w.2 !! ch = Some c → chans w'.2 !! ch = Some c' → stream c' = stream c → sees w w' [].
Proof. intros E E' Es. exists c, c'. split_and!; [done|done|]. case_match; by rewrite app_nil_r. Qed.
Lemma publish_follows w c name now :
  follows w → follows (publish w.1 c name now w.2) ∧ sees w (publish w.1 c name now w.2) (arrives w (Publish c name now)).
Proof.
  intros Hf. pose proof (listed_matching w c name Hf) as Hl. destruct Hf as [Hs Ht (x & Ex & Ox & Cx) Hn].
  destruct (publish_spec w.1 c name now w.2) as (E2 & Ek & Eo & Esub & _).
  set (w' := publish w.1 c name now w.2) in *. unfold arrives.
  set (n := named w.1 (key_of c) name) in *. set (m := stamped n c) in *.
  set (subs := subscribers _ ++ _) in *.
  assert (Hc : ∃ x', chans w'.2 !! ch = Some x' ∧ rx_open x' = true ∧ capacity x' = capacity x ∧
    stream x' = stream x ++ (if (length (queue x) <? capacity x)%nat then if of_wl (key_of c) n then [m] else [] else []) ∧
    listed ch (fan_out keeps m subs w.2).1 = if of_wl (key_of c) n then [ch] else []).
  { rewrite E2. destruct (of_wl (key_of c) n) eqn:Ew.
    - destruct (fan_out_once keeps m subs w.2 ch Hl) as [Hl' Hx]. rewrite Ex in Hl', Hx.
      destruct (offer_stream m x Ox) as (x' & E & Hk & Ho & Hcap & Hst). rewrite E in Hx. rewrite Hk in Hl'.
      exists x'. split_and!; [done|done|done|done|done].
    - exists x. rewrite fan_out_absent by (by apply listed_nil). rewrite fan_out_listed_nil by done.
      split_and!; try done. case_match; by rewrite app_nil_r. }
  destruct Hc as (x' & Ex' & Ox' & Cx' & Sx & Hl'). split.
  - split.
    + destruct Esub as [->| ->]; [done|]. rewrite filter_swap, Hs, filter_cons, decide_True; [done|].
      unfold is_closed. simpl. by rewrite Ex, Ox.
    + intros k t Hk. destruct (decide (k = key_of c)) as [->|Hne]; [|by apply Ht, Eo].
      rewrite Ek in Hk. injection Hk as <-. exact Hl'.
    + exists x'. split_and!; [done|done|congruence].
    + rewrite E2, fan_out_next. done.
  - exists x, x'. split_and!; [done|done|]. rewrite Sx, Cx. done.
Qed.
(** A new subscriber has another channel. *)
Lemma channel_follows w tx cs :
  channel SUBSCRIBER_CHANNEL_CAPACITY w.2 = (tx, cs) → (ch < next w.2)%nat →
  tx ≠ ch ∧ chans cs !! ch = chans w.2 !! ch ∧ (ch < next cs)%nat.
Proof.
  intros E Hn. injection E as <- <-. simpl. split_and!; [lia| |lia]. by rewrite lookup_insert_ne by lia.
Qed.
Lemma attach_follows w sel tx :
  tx ≠ ch →
  (∀ k t, topics w.1 !! k = Some t → listed ch (subscribers t) = if of_wl k (workload_name t) then [ch] else []) →
  ∀ k t, topics (attach sel tx w.1).2 !! k = Some t → listed ch (subscribers t) = if of_wl k (workload_name t) then [ch] else [].
Proof.
  intros Hn Ht k t. simpl. rewrite map_lookup_imap. destruct (topics w.1 !! k) as [t0|] eqn:E; [|done].
  simpl. intros [= <-]. specialize (Ht _ _ E). destruct (sel k t0); [|done]. simpl.
  by rewrite listed_app, Ht, listed_cons_ne, app_nil_r.
Qed.
Lemma exec_follows w op : follows w → undisturbed op → follows (exec w op) ∧ sees w (exec w op) (arrives w op).
Proof.
  intros Hf [Hr Hcl]. destruct op as [c name now|key now|ns' pods cont|ns' wl' cont|ns'|rx|rx].
  { destruct w as [b cs]. by apply (publish_follows (b, cs)). }
  all: destruct w as [b cs]; pose proof Hf as [Hs Ht (x & Ex & Ox & Cx) Hn]; simpl in Hs, Ht, Ex, Hn; cbn [exec arrives].
  - split; [|by eapply sees_nothing]. unfold retire_topic. destruct (topics b !! key) as [t|] eqn:E; [|done].
    split; [done| |by exists x|done]. intros k t' Hk. cbn in Hk.
    apply lookup_insert_Some in Hk as [[<- <-]|[_ Hk]]; [exact (Ht _ _ E)|by apply Ht].
  - unfold subscribe. destruct (channel _ cs) as [tx cs'] eqn:E.
    destruct (channel_follows (b, cs) tx cs' E Hn) as (Hne & E1 & E2).
    split; [|by eapply (sees_nothing _ _ x x); [|simpl; by rewrite E1|]]. split; simpl; [done| |by exists x; rewrite E1|done].
    by apply (attach_follows (b, cs)).
  - unfold subscribe_by_workload. destruct (channel _ cs) as [tx cs'] eqn:E.
    destruct (channel_follows (b, cs) tx cs' E Hn) as (Hne & E1 & E2).
    split; [|by eapply (sees_nothing _ _ x x); [|simpl; by rewrite E1|]]. split; simpl; [|by apply (attach_follows (b, cs))|by exists x; rewrite E1|done].
    by rewrite filter_app, Hs, filter_cons_False.
  - split; [|by eapply sees_nothing]. split; simpl; [| |by exists x|done].
    + rewrite filter_swap, Hs, filter_cons_True; [done|]. simpl. congruence.
    + intros k t [Hk _]%map_lookup_filter_Some. by apply Ht.
  - destruct (recv_keeps rx cs ch x Ex) as (x' & E' & St & Ox' & Cx').
    split; [|by eapply sees_nothing]. split; simpl; [done|done|exists x'; split_and!; congruence|by rewrite recv_next].
  - assert (Hne : rx ≠ ch) by congruence.
    split; [|by eapply (sees_nothing _ _ x x); [|simpl; by rewrite close_other|]].
    split; simpl; [done|done|exists x; by rewrite close_other|by rewrite close_next].
Qed.
Lemma run_follows w ops c :
  follows w → Forall undisturbed ops → chans w.2 !! ch = Some c →
  ∃ c', chans (run w ops).2 !! ch = Some c' ∧
    (∃ l, stream c' = stream c ++ l ∧ l `sublist_of` expected w ops ∧
      ((∀ ops1 ops2 x, ops = ops1 ++ ops2 → chans (run w ops1).2 !! ch = Some x →
          (length (queue x) < SUBSCRIBER_CHANNEL_CAPACITY)%nat) → l = expected w ops)).
Proof.
  intros Hf Hu. revert w c Hf. induction Hu as [|op ops Ho _ IH]; intros w c Hf Ec.
  { exists c. split; [done|]. exists []. by rewrite app_nil_r. }
  destruct (exec_follows w op Hf Ho) as [Hf' (c0 & c1 & E0 & E1 & S1)]. simplify_eq.
  destruct (IH _ _ Hf' E1) as (c' & E' & l & Sl & Hl & Hx). exists c'. split; [done|].
  eexists. split; [rewrite Sl, S1, <- app_assoc; reflexivity|]. split.
  - simpl. apply sublist_app; [|done]. case_match; [done|apply sublist_nil_l].
  - intros Hq. simpl. f_equal.
    + rewrite (proj2 (Nat.ltb_lt _ _)); [done|]. by eapply (Hq [] (op :: ops)).
    + apply Hx. intros ops1 ops2 x ->. by apply (Hq (op :: ops1) ops2).
Qed.
End Follow.

(** ** What topics keep *)
Definition total (l : list LogChunk) : Z := foldr (λ c n, data_len c + n) 0 l.
Lemma total_app l k : total (l ++ k) = total l + total k.
Proof. induction l as [|c l IH]; simpl; [done|]. unfold total in *. simpl. lia. Qed.
Lemma evict_spec max bytes l :
  0 ≤ max → bytes = total l →
  (evict max bytes l).1 `suffix_of` l ∧ (evict max bytes l).2 = total (evict max bytes l).1 ∧ (evict max bytes l).2 ≤ max.
Proof.
  intros Hm. revert bytes. induction l as [|c l IH]; intros bytes ->; cbn [evict];
    [destruct (Z.ltb_spec max (total [])) as [Hlt|Hge]|destruct (Z.ltb_spec max (total (c :: l))) as [Hlt|Hge]].
  - unfold total in *. simpl in *. lia.
  - done.
  - destruct (IH (total (c :: l) - data_len c)) as (H1 & H2 & H3); [unfold total; simpl; lia|].
    split; [by apply suffix_cons_r|done].
  - done.
Qed.
Lemma suffix_fmap {A B} (f : A → B) l k : l `suffix_of` k → (f <$> l) `suffix_of` (f <$> k).
Proof. intros [p ->]. rewrite fmap_app. by exists (f <$> p). Qed.
(** A chunk without the name of its workload, which the bus may add *)
Abbreviation bare := (with_workload None).
Definition published (op : Op) : list LogChunk := match op with Publish c _ _ => [c] | _ => [] end.
Definition on_key (k : TopicKey) (l : list LogChunk) : list LogChunk := filter (λ c, key_of c = k) l.
Record topic_ok (max : Z) (pubs : list LogChunk) (top : nat) (k : TopicKey) t : Prop := {
  ok_bytes : buffer_bytes t = total (buffer t);
  ok_max : max_bytes t = max;
  ok_bound : buffer_bytes t ≤ max;
  ok_suffix : (bare <$> buffer t) `suffix_of` (bare <$> on_key k pubs);
  ok_subs : ∀ x, x ∈ subscribers t → (x < top)%nat }.
Record wf (max : Z) (pubs : list LogChunk) w : Prop := {
  wf_topics : ∀ k t, topics w.1 !! k = Some t → topic_ok max pubs (next w.2) k t;
  wf_subs : ∀ s, s ∈ workload_subscriptions w.1 → (sub_tx s < next w.2)%nat;
  wf_max : max_bytes_per_topic w.1 = max }.
Lemma topic_ok_top max pubs top top' k t : (top ≤ top')%nat → topic_ok max pubs top k t → topic_ok max pubs top' k t.
Proof. intros Hle [H1 H2 H3 H4 H5]. split; try done. intros x Hx. specialize (H5 x Hx). lia. Qed.
Lemma topic_for_ok max pubs w c name :
  0 ≤ max → wf max pubs w → topic_ok max pubs (next w.2) (key_of c) (topic_for w.1 c name).
Proof.
  intros H0 [Ht _ Hmax]. unfold topic_for. destruct (topics w.1 !! key_of c) as [t|] eqn:E; [by apply Ht|].
  split; simpl; try done. - apply suffix_nil. - by intros x ?%not_elem_of_nil.
Qed.
Lemma matching_old max pubs w c name x : wf max pubs w → x ∈ matching w.1 w.2 c name → (x < next w.2)%nat.
Proof.
  intros Hw. unfold matching. destruct name as [n|]; [|by intros ?%not_elem_of_nil].
  destruct (match topics w.1 !! key_of c with None => true | Some t => _ end); [|by intros ?%not_elem_of_nil].
  intros (s & -> & Hs)%list_elem_of_fmap. apply (wf_subs _ _ _ Hw). by apply list_elem_of_filter in Hs as [_ [_ ?]%list_elem_of_filter].
Qed.
Lemma on_key_app k l c : on_key k (l ++ [c]) = on_key k l ++ (if decide (key_of c = k) then [c] else []).
Proof. unfold on_key. rewrite filter_app, filter_cons. by case_decide. Qed.
Lemma publish_wf max pubs w c name now :
  0 ≤ max → wf max pubs w → wf max (pubs ++ [c]) (publish w.1 c name now w.2).
Proof.
  intros H0 Hw. pose proof (topic_for_ok max pubs w c name H0 Hw) as [B1 B2 B3 B4 B5].
  destruct (publish_spec w.1 c name now w.2) as (E2 & Ek & Eo & Esub & Em).
  set (w' := publish w.1 c name now w.2) in *. set (t := topic_for w.1 c name) in *.
  set (m := stamped _ c) in *. assert (Hbare : bare m = bare c) by (unfold m, stamped; by case_match).
  assert (Hlen : data_len c = data_len m) by (unfold m, stamped; by case_match).
  destruct (evict_spec (max_bytes t) (buffer_bytes t + data_len c) (buffer t ++ [m])) as (V1 & V2 & V3);
    [by rewrite B2|rewrite total_app, B1, Hlen; unfold total; simpl; lia|].
  assert (En : next w'.2 = next w.2) by (by rewrite E2, fan_out_next).
  split.
  - intros k t' Hk. destruct (decide (k = key_of c)) as [->|Hne].
    + rewrite Ek in Hk. injection Hk as <-. split; cbn [buffer buffer_bytes max_bytes subscribers]; [done|done|lia| |].
      * rewrite on_key_app, decide_True, fmap_app by done. etrans; [by apply suffix_fmap|].
        rewrite fmap_app. simpl. rewrite Hbare. by apply suffix_snoc.
      * intros x Hx%fan_out_sub. rewrite En. apply elem_of_app in Hx as [Hx|Hx]; [by apply B5|by eapply matching_old].
    + apply Eo in Hk; [|done]. destruct (wf_topics _ _ _ Hw k t' Hk) as [A1 A2 A3 A4 A5].
      split; try done; [|by rewrite En]. by rewrite on_key_app, decide_False, app_nil_r by done.
  - intros s Hs. rewrite En. apply (wf_subs _ _ _ Hw). destruct Esub as [E|E]; rewrite E in Hs; [done|].
    by apply list_elem_of_filter in Hs as [_ ?].
  - rewrite Em. apply (wf_max _ _ _ Hw).
Qed.
Lemma attach_wf max pubs b cs tx cs' sel :
  wf max pubs (b, cs) → channel SUBSCRIBER_CHANNEL_CAPACITY cs = (tx, cs') → wf max pubs ((attach sel tx b).2, cs').
Proof.
  intros [Ht Hs Hm] E. injection E as <- <-. split; simpl in *; [| |done].
  - intros k t. rewrite map_lookup_imap. destruct (topics b !! k) as [t0|] eqn:E; [|done]. simpl. intros [= <-].
    specialize (Ht k t0 E). apply (topic_ok_top _ _ _ (S (next cs))) in Ht; [|lia]. destruct (sel k t0); [|done].
    destruct Ht as [A1 A2 A3 A4 A5]. split; try done. simpl. intros x. rewrite elem_of_app, list_elem_of_singleton.
    intros [Hx| ->]; [by apply A5|lia].
  - intros s Hin. specialize (Hs s Hin). lia.
Qed.
Lemma exec_bus_wf max pubs w op : 0 ≤ max → wf max pubs w → wf max (pubs ++ published op) (exec w op).
Proof.
  intros H0 Hw. destruct w as [b cs]. destruct op; cbn [exec published]; rewrite ?app_nil_r.
  - by apply (publish_wf max pubs (b, cs)).
  - destruct Hw as [Ht Hs Hm]. unfold retire_topic. destruct (topics b !! key) as [t|] eqn:E; [|done].
    split; simpl in *; [|done|done]. intros k t' [[<- <-]|[_ Hk]]%lookup_insert_Some; [|by apply Ht].
    destruct (Ht _ _ E) as [A1 A2 A3 A4 A5]. by split.
  - unfold subscribe. destruct (channel _ cs) as [tx cs'] eqn:E. by apply (attach_wf max pubs b cs tx cs').
  - unfold subscribe_by_workload. destruct (channel _ cs) as [tx cs'] eqn:E.
    destruct (attach_wf max pubs b cs tx cs' (λ k t, of_workload ns wl containers k (workload_name t)) Hw E) as [Ht Hs Hm].
    split; simpl in *; [done| |done]. intros s [Hin| ->%list_elem_of_singleton]%elem_of_app; [by apply Hs|].
    injection E as <- <-. simpl. lia.
  - destruct Hw as [Ht Hs Hm]. split; simpl in *; [| |done].
    + intros k t [Hk _]%map_lookup_filter_Some. by apply Ht.
    + intros s [_ Hin]%list_elem_of_filter. by apply Hs.
  - destruct Hw as [Ht Hs Hm]. split; simpl in *; rewrite ?recv_next; done.
  - destruct Hw as [Ht Hs Hm]. split; simpl in *; rewrite ?close_next; done.
Qed.
Lemma run_bus_wf max ops : 0 ≤ max → wf max (ops ≫= published) (run (start max) ops).
Proof.
  intros H0. induction ops as [|op ops IH] using rev_ind.
  - split; simpl; [by intros k t ?%lookup_empty_Some|by intros s ?%not_elem_of_nil|done].
  - unfold run. rewrite foldl_app, bind_app. simpl. rewrite app_nil_r. by apply exec_bus_wf.
Qed.
(** A topic never holds more than the cap, its byte count is exact, and what it holds are
    the last chunks published on it, in order; only the name of the workload is added. *)
Lemma log_topics_exact max ops k t :
  0 ≤ max → topics (run (start max) ops).1 !! k = Some t →
  buffer_bytes t = total (buffer t) ∧ buffer_bytes t ≤ max ∧
  (bare <$> buffer t) `suffix_of` (bare <$> on_key k (ops ≫= published)).
Proof. intros H0 Hk. destruct (wf_topics _ _ _ (run_bus_wf max ops H0) k t Hk). by split_and!. Qed.

(** ** The history of a subscription *)
Definition older (c d : LogChunk) : Prop := timestamp c ≤ timestamp d.
Lemma insert_by_time_perm c l : insert_by_time c l ≡ₚ c :: l.
Proof. induction l as [|d l IH]; simpl; [done|]. case_match; [done|]. rewrite IH. constructor. Qed.
Lemma sort_by_time_perm l : sort_by_time l ≡ₚ l.
Proof. induction l as [|c l IH]; simpl; [done|]. by rewrite insert_by_time_perm, IH. Qed.
Lemma insert_by_time_sorted c l : StronglySorted older l → StronglySorted older (insert_by_time c l).
Proof.
  induction 1 as [|d l Hs IH Hd]; simpl; [by repeat constructor|]. destruct (Z.leb_spec (timestamp c) (timestamp d)).
  - constructor; [by constructor|]. constructor; [done|]. eapply Forall_impl; [exact Hd|]. unfold older. lia.
  - constructor; [done|]. rewrite insert_by_time_perm. constructor; [unfold older; lia|done].
Qed.
Lemma sort_by_time_sorted l : StronglySorted older (sort_by_time l).
Proof. induction l; simpl; [constructor|by apply insert_by_time_sorted]. Qed.
(** What the topics of a workload hold *)
Definition held b (ns : NamespaceId) (wl : string) (cf : option (list string)) : list LogChunk :=
  '(k, t) ← map_to_list (topics b); if of_workload ns wl cf k (workload_name t) then buffer t else [].
Lemma subscribe_follows max pubs w ns wl cf h ch b cs :
  wf max pubs w → subscribe_by_workload w.1 ns wl cf w.2 = (h, ch, b, cs) →
  follows ch ns wl cf (b, cs) ∧ chans cs !! ch = Some {| capacity := SUBSCRIBER_CHANNEL_CAPACITY; queue := []; taken := []; rx_open := true |} ∧
  h ≡ₚ held w.1 ns wl cf ∧ StronglySorted older h.
Proof.
  intros [Ht Hs _] E. unfold subscribe_by_workload in E. cbn [channel attach] in E. simplify_eq. split.
  - split; cbn [fst snd workload_subscriptions topics with_topics chans next].
    + rewrite filter_app, filter_cons_True by done.
      assert (filter (λ s, sub_tx s = next w.2) (workload_subscriptions w.1) = []) as ->; [|done].
      destruct (filter _ _) as [|s l] eqn:E; [done|]. assert (Hin : s ∈ s :: l) by left. rewrite <- E in Hin.
      apply list_elem_of_filter in Hin as [Hx Hin%Hs]. lia.
    + intros k t. rewrite map_lookup_imap. destruct (topics w.1 !! k) as [t0|] eqn:E; [|done]. simpl. intros [= <-].
      assert (Hn : listed (next w.2) (subscribers t0) = []).
      { apply listed_nil. intros Hin. pose proof (ok_subs _ _ _ _ _ (Ht k t0 E) _ Hin). lia. }
      destruct (of_workload ns wl cf k (workload_name t0)) eqn:Ew; simpl; rewrite Ew; [|done].
      by rewrite listed_app, Hn, listed_cons_eq.
    + eexists. rewrite lookup_insert_eq. by split_and!.
    + lia.
  - cbn [chans]. rewrite lookup_insert_eq. split; [done|]. split; [|apply sort_by_time_sorted].
    rewrite sort_by_time_perm. unfold held. apply bind_Permutation, hash_iter_perm.
Qed.

End Runs.

(** ** Concrete runs *)
Definition ns1 : NamespaceId := {| ns_name := "ns1"; ns_id := 0 |}.
Definition chunk (pod : Z) (bytes : list Z) (time : Z) : LogChunk :=
  {| chunk_namespace := ns1; chunk_pod := pod; chunk_container := "main"; chunk_workload := None; data := bytes;
     timestamp := time; seq := time |}.
(** Pod 1 of the workload has written before the subscription; pod 2 starts later and its
    workload is learned with its second chunk. *)
Definition wrote : list Op := [Publish (chunk 1 [104; 105] 1) (Some "web") 1].
Definition writes : list Op := [Publish (chunk 2 [97] 2) None 2; Publish (chunk 2 [98] 3) (Some "web") 3].
(** Whoever subscribes to all pods of a namespace sees only the topics there are at that
    time: a pod that starts later is not heard. *)
Example namespace_subscription_static :
  let '(_, ch, b, cs) := subscribe (run (start 1024) wrote).1 ns1 None None (run (start 1024) wrote).2 in
  (taken <$> chans (run (b, cs) (writes ++ [Recv ch; Recv ch])).2 !! ch) = Some [].
Proof. by vm_compute. Qed.
End LogBusInv.

(** ** Events *)
Module EventBusInv.
Import Channels ChannelsInv EventBus.
Section Events.
Context {E : Type}.
Abbreviation World := (EventBusInner (ObservabilityEvent := E) * Channels E)%type.
Implicit Types (w : World) (s : NamespaceState (ObservabilityEvent := E)) (cs : Channels E) (ch : nat) (es : list E).
Inductive Op :=
  | PublishE (ns : NamespaceId) (events : list E)
  | SubscribeE (ns : NamespaceId)
  | RemoveE (ns : NamespaceId)
  | RecvE (rx : nat)
  | CloseE (rx : nat).
Definition exec w (op : Op) : World :=
  let '(b, cs) := w in
  match op with
  | PublishE ns events => publish_events b ns events cs
  | SubscribeE ns => let '(_, _, b, cs) := subscribe_events b ns cs in (b, cs)
  | RemoveE ns => (remove_events b ns, cs)
  | RecvE rx => (b, recv rx cs)
  | CloseE rx => (b, close_rx rx cs)
  end.
Definition run w (ops : list Op) : World := foldl exec w ops.
Definition start (max : nat) : World := (event_bus_new max, no_channels).

(** *** The buffer *)
Definition lastn (n : nat) (l : list E) : list E := drop (length l - n) l.
Lemma evict_events_lastn max l : evict_events max l = lastn max l.
Proof.
  unfold lastn. induction l as [|e l IH]; [done|]. cbn [evict_events]. destruct (Nat.ltb_spec max (length (e :: l))) as [Hlt|Hge].
  - rewrite IH. cbn [length] in *. by replace (S (length l) - max)%nat with (S (length l - max)) by lia.
  - by replace (length (e :: l) - max)%nat with 0%nat by lia.
Qed.
Lemma lastn_snoc n l e : lastn n (lastn n l ++ [e]) = lastn n (l ++ [e]).
Proof.
  unfold lastn. rewrite !length_app, length_drop. cbn [length].
  destruct (decide (length l ≤ n)%nat) as [Hle|Hgt].
  { replace (length l - n)%nat with 0%nat by lia. rewrite drop_0. f_equal. lia. }
  rewrite <- (drop_app_le l [e]) by lia. rewrite drop_drop. f_equal. lia.
Qed.
(** What was published for a namespace since it was last removed *)
Definition since_step (ns : NamespaceId) (l : list E) (op : Op) : list E :=
  match op with
  | PublishE ns' events => if decide (ns' = ns) then l ++ events else l
  | RemoveE ns' => if decide (ns' = ns) then [] else l
  | _ => l
  end.
Definition since (ns : NamespaceId) (ops : list Op) : list E := foldl (since_step ns) [] ops.

Lemma publish_buffer s cs es l :
  ev_buffer s = lastn (max_events s) l →
  ev_buffer (foldl state_publish (s, cs) es).1 = lastn (max_events s) (l ++ es) ∧
  max_events (foldl state_publish (s, cs) es).1 = max_events s ∧
  next (foldl state_publish (s, cs) es).2 = next cs ∧
  ev_subscribers (foldl state_publish (s, cs) es).1 ⊆ ev_subscribers s.
Proof.
  revert s cs l. induction es as [|e es IH]; intros s cs l Hb; [by rewrite app_nil_r|]. cbn [foldl state_publish].
  pose proof (fan_out_next is_ok e (ev_subscribers s) cs) as En. pose proof (fan_out_sub is_ok e (ev_subscribers s) cs) as Es.
  destruct (fan_out is_ok e (ev_subscribers s) cs) as [subs cs1]. cbn [fst snd] in En, Es.
  destruct (IH {| ev_buffer := evict_events (max_events s) (ev_buffer s ++ [e]); max_events := max_events s; ev_subscribers := subs |} cs1 (l ++ [e]))
    as (H1 & H2 & H3 & H4).
  { cbn. by rewrite evict_events_lastn, Hb, lastn_snoc. }
  rewrite H1, H2, H3, En, <- app_assoc. cbn in *. split_and!; try done. set_solver.
Qed.
(** The state of every namespace *)
Record wf (max : nat) (log : NamespaceId → list E) w : Prop := {
  wf_buffer : ∀ ns, ev_buffer (namespace_state w.1 ns) = lastn max (log ns) ∧ max_events (namespace_state w.1 ns) = max;
  wf_ids : ∀ ns x, x ∈ ev_subscribers (namespace_state w.1 ns) → (x < next w.2)%nat;
  wf_cap : max_events_per_namespace w.1 = max }.
Lemma with_namespace_state b ns s ns' :
  namespace_state (with_namespace ns s b) ns' = if decide (ns = ns') then s else namespace_state b ns'.
Proof.
  unfold namespace_state. simpl. case_decide as Hd; [subst; by rewrite lookup_insert_eq|by rewrite lookup_insert_ne].
Qed.
Lemma exec_events_wf max log w op : wf max log w → wf max (λ ns, since_step ns (log ns) op) (exec w op).
Proof.
  intros [Hb Hi Hc]. destruct w as [b cs]. cbn [fst snd] in *. destruct op as [ns events|ns|ns|rx|rx]; cbn [exec since_step].
  - unfold publish_events. destruct events as [|e es] eqn:Ee.
    { split; cbn [fst snd]; [|done|done]. intros ns'. case_decide; rewrite ?app_nil_r; apply Hb. }
    rewrite <- Ee. destruct (Hb ns) as [B1 B2]. rewrite <- B2 in B1.
    destruct (publish_buffer (namespace_state b ns) cs events (log ns) B1) as (H1 & H2 & H3 & H4).
    destruct (foldl state_publish _ events) as [s cs']. cbn [fst snd] in *. rewrite B2 in H1, H2.
    split; cbn [fst snd]; [| |done]; intros ns'; rewrite with_namespace_state, ?H3; case_decide as Hd; subst; try done; try apply Hb; try apply Hi.
    intros x Hx. apply (Hi ns'). set_solver.
  - cbn [subscribe_events channel]. split; cbn [fst snd next]; [| |done]; intros ns'; rewrite with_namespace_state; case_decide as Hd; subst; try apply Hb.
    + intros x. cbn [ev_subscribers]. rewrite elem_of_app, list_elem_of_singleton. intros [Hx%Hi| ->]; lia.
    + intros x Hx%Hi. lia.
  - assert (Hd : ∀ ns', namespace_state (remove_events b ns) ns' = if decide (ns = ns') then state_new max else namespace_state b ns').
    { intros ns'. unfold namespace_state. simpl. case_decide; [subst; by rewrite lookup_delete_eq|by rewrite lookup_delete_ne]. }
    split; cbn [fst snd]; [| |done]; intros ns'; rewrite Hd; case_decide; try done; try apply Hb; try apply Hi.
    by intros x ?%not_elem_of_nil.
  - split; cbn [fst snd]; [done|by setoid_rewrite recv_next|done].
  - split; cbn [fst snd]; [done|by setoid_rewrite close_next|done].
Qed.
Lemma run_events_wf max ops : wf max (λ ns, since ns ops) (run (start max) ops).
Proof.
  induction ops as [|op ops IH] using rev_ind.
  - split; [done| |done]. by intros ns x ?%not_elem_of_nil.
  - apply (exec_events_wf _ _ _ op) in IH. unfold run in *. rewrite foldl_app. simpl. destruct IH as [H1 H2 H3].
    split; [|done|done]. intros ns. unfold since. rewrite foldl_app. apply H1.
Qed.
(** *** A subscriber *)
Section Subscriber.
Variables (ch : nat) (ns : NamespaceId).
(** What is published for the namespace *)
Definition news (ops : list Op) : list E :=
  op ← ops; match op with PublishE ns' events => if decide (ns' = ns) then events else [] | _ => [] end.
Definition undisturbed (op : Op) : Prop := op ≠ RemoveE ns ∧ op ≠ CloseE ch.
(** The subscriber has all of [seen], or it has lagged and is not listed any more. *)
Definition up_to (seen : list E) (subs : list nat) (o : option (Channel E)) : Prop :=
  ∃ c, o = Some c ∧ rx_open c = true ∧ capacity c = 256%nat ∧
    (listed ch subs = [ch] ∧ stream c = seen ∨ listed ch subs = [] ∧ stream c `prefix_of` seen).
Record gets (seen : list E) w : Prop := {
  gets_channel : up_to seen (ev_subscribers (namespace_state w.1 ns)) (chans w.2 !! ch);
  gets_others : ∀ ns', ns' ≠ ns → ch ∉ ev_subscribers (namespace_state w.1 ns');
  gets_next : (ch < next w.2)%nat }.
Lemma fan_out_up_to seen subs cs e :
  up_to seen subs (chans cs !! ch) →
  up_to (seen ++ [e]) (fan_out is_ok e subs cs).1 (chans (fan_out is_ok e subs cs).2 !! ch).
Proof.
  intros (c & Ec & Oc & Cc & [[Hl Hs]|[Hl Hs]]).
  - destruct (fan_out_once is_ok e subs cs ch Hl) as [Hl' Hx]. rewrite Ec in Hl', Hx. simpl in Hl', Hx. rewrite Oc in Hl', Hx.
    rewrite Hx. destruct (length (queue c) <? capacity c)%nat; simpl in Hl'; eexists; (split; [reflexivity|]); split_and!; try done.
    + left. split; [done|]. unfold stream in *. simpl. by rewrite app_assoc, Hs.
    + right. split; [done|]. rewrite Hs. by apply prefix_app_r.
  - exists c. rewrite fan_out_absent by (by apply listed_nil). split_and!; [done|done|done|]. right.
    split; [by apply fan_out_listed_nil|by apply prefix_app_r].
Qed.
Lemma publish_up_to seen s cs es :
  up_to seen (ev_subscribers s) (chans cs !! ch) →
  up_to (seen ++ es) (ev_subscribers (foldl state_publish (s, cs) es).1) (chans (foldl state_publish (s, cs) es).2 !! ch).
Proof.
  revert seen s cs. induction es as [|e es IH]; intros seen s cs Hu; [by rewrite app_nil_r|]. cbn [foldl state_publish].
  pose proof (fan_out_up_to seen (ev_subscribers s) cs e Hu) as H1. destruct (fan_out is_ok e _ cs) as [subs cs1].
  replace (seen ++ e :: es) with ((seen ++ [e]) ++ es) by (by rewrite <- app_assoc). by apply IH.
Qed.
(** The other namespaces do not send to it. *)
Lemma publish_absent s cs es :
  ch ∉ ev_subscribers s →
  chans (foldl state_publish (s, cs) es).2 !! ch = chans cs !! ch ∧ ch ∉ ev_subscribers (foldl state_publish (s, cs) es).1.
Proof.
  revert s cs. induction es as [|e es IH]; intros s cs Hn; [done|]. cbn [foldl state_publish].
  pose proof (fan_out_absent is_ok e (ev_subscribers s) cs ch Hn) as E1. pose proof (fan_out_sub is_ok e (ev_subscribers s) cs) as E2.
  destruct (fan_out is_ok e _ cs) as [subs cs1]. cbn [fst snd] in *. rewrite <- E1. apply IH. cbn. set_solver.
Qed.
Lemma publish_next s cs es : next (foldl state_publish (s, cs) es).2 = next cs.
Proof.
  revert s cs. induction es as [|e es IH]; intros s cs; [done|]. cbn [foldl state_publish].
  pose proof (fan_out_next is_ok e (ev_subscribers s) cs) as En. destruct (fan_out is_ok e _ cs) as [subs cs1]. by rewrite IH.
Qed.
Lemma up_to_eq seen subs o o' c' :
  up_to seen subs o → (∀ c, o = Some c → o' = Some c' ∧ stream c' = stream c ∧ rx_open c' = rx_open c ∧ capacity c' = capacity c) →
  up_to seen subs o'.
Proof.
  intros (c & -> & Oc & Cc & Hs) He. destruct (He c eq_refl) as (-> & Es & Eo & Ecap). exists c'.
  rewrite Es, Eo, Ecap. by split_and!.
Qed.
Lemma exec_gets seen w op : gets seen w → undisturbed op → gets (seen ++ news [op]) (exec w op).
Proof.
  intros [Hc Ho Hn] [Hr Hcl]. destruct w as [b cs]. cbn [fst snd] in *. destruct op as [ns' events|ns'|ns'|rx|rx]; cbn [exec];
    unfold news; cbn [mbind list_bind]; rewrite ?app_nil_r.
  - unfold publish_events. destruct events as [|e es] eqn:Ee; [case_decide; rewrite ?app_nil_r; by split|]. rewrite <- Ee.
    pose proof (publish_next (namespace_state b ns') cs events) as En. case_decide as Hd; [subst ns'|].
    + pose proof (publish_up_to seen _ cs events Hc) as Hu.
      destruct (foldl state_publish _ events) as [s cs']. split; cbn [fst snd] in *; [| |lia].
      * by rewrite with_namespace_state, decide_True.
      * intros ns' Hne. rewrite with_namespace_state, decide_False by done. by apply Ho.
    + destruct (publish_absent (namespace_state b ns') cs events (Ho ns' Hd)) as [E1 E2].
      destruct (foldl state_publish _ events) as [s cs']. split; cbn [fst snd] in *; [| |lia].
      * rewrite app_nil_r, with_namespace_state, decide_False, E1 by done. done.
      * intros ns2 Hne. rewrite with_namespace_state. case_decide; [done|by apply Ho].
  - cbn [subscribe_events channel]. split; cbn [fst snd next chans]; [| |lia].
    + rewrite lookup_insert_ne by lia. rewrite with_namespace_state. case_decide; [|done]. subst ns'. cbn [ev_subscribers].
      destruct Hc as (c & E1 & E2 & E3 & Hs). exists c. split_and!; [done|done|done|]. unfold listed in *.
      by rewrite filter_app, filter_cons_False, app_nil_r by lia.
    + intros ns2 Hne. rewrite with_namespace_state. case_decide; [|by apply Ho]. subst. cbn [ev_subscribers].
      rewrite elem_of_app, list_elem_of_singleton. intros [Hx| ->]; [by apply (Ho ns2)|lia].
  - assert (Hd : ns' ≠ ns) by congruence. split; cbn [fst snd]; [|intros ns2 Hne|done]; unfold namespace_state; simpl.
    + by rewrite lookup_delete_ne.
    + destruct (decide (ns' = ns2)) as [->|]; [rewrite lookup_delete_eq; apply not_elem_of_nil|].
      rewrite lookup_delete_ne by done. by apply Ho.
  - split; cbn [fst snd]; [|done|by rewrite recv_next]. pose proof Hc as (c & E1 & _).
    destruct (recv_keeps rx cs ch c E1) as (c' & E' & Hk). apply (up_to_eq _ _ _ _ c' Hc). intros c2 E2. by simplify_eq.
  - split; cbn [fst snd]; [|done|by rewrite close_next]. rewrite close_other by congruence. done.
Qed.
Lemma news_cons op ops : news (op :: ops) = news [op] ++ news ops.
Proof. unfold news. simpl. by rewrite app_nil_r. Qed.
Lemma run_gets seen w ops : gets seen w → Forall undisturbed ops → gets (seen ++ news ops) (run w ops).
Proof.
  intros Hg Hu. revert seen w Hg. induction Hu as [|op ops Ho _ IH]; intros seen w Hg; [by rewrite app_nil_r|].
  rewrite news_cons, app_assoc. apply (IH _ (exec w op)). by apply exec_gets.
Qed.
End Subscriber.
(** A subscriber that always has room stays listed. *)
Definition room (ch : nat) (ns : NamespaceId) w (ops : list Op) : Prop :=
  ∀ ops1 es ops2 x, ops = ops1 ++ PublishE ns es :: ops2 → chans (run w ops1).2 !! ch = Some x →
    (length (queue x) + length es ≤ 256)%nat.
Lemma publish_room ch s cs es c :
  chans cs !! ch = Some c → rx_open c = true → capacity c = 256%nat → (length (queue c) + length es ≤ 256)%nat →
  listed ch (ev_subscribers s) = [ch] → listed ch (ev_subscribers (foldl state_publish (s, cs) es).1) = [ch].
Proof.
  revert s cs c. induction es as [|e es IH]; intros s cs c Ec Oc Cc Hq Hl; [done|]. cbn [foldl state_publish].
  destruct (fan_out_once is_ok e (ev_subscribers s) cs ch Hl) as [H1 H2]. destruct (fan_out is_ok e _ cs) as [subs cs1].
  cbn [fst snd] in H1, H2. rewrite Ec in H1, H2. cbn [offer] in H1, H2. cbn [length] in Hq.
  rewrite Oc, (proj2 (Nat.ltb_lt _ _)) in H1, H2 by lia.
  apply (IH _ _ _ H2); [done|done| |done]. cbn [queue]. rewrite length_app. cbn [length]. lia.
Qed.
Lemma listed_stays ch ns seen w ops :
  gets ch ns seen w → Forall (undisturbed ch ns) ops → room ch ns w ops →
  listed ch (ev_subscribers (namespace_state w.1 ns)) = [ch] →
  listed ch (ev_subscribers (namespace_state (run w ops).1 ns)) = [ch].
Proof.
  intros Hg Hu. revert seen w Hg. induction Hu as [|op ops Ho _ IH]; intros seen w Hg Hr Hl; [done|].
  apply (IH _ (exec w op) (exec_gets _ _ _ _ _ Hg Ho)).
  { intros ops1 es ops2 x -> Hx. by eapply (Hr (op :: ops1)). }
  destruct Hg as [(c & Ec & Oc & Cc & _) _ Hn], Ho as [Ho _], w as [b cs]. cbn [fst snd] in *.
  destruct op as [ns' events|ns'|ns'|rx|rx]; cbn [exec]; [| | |done|done].
  - unfold publish_events. destruct events as [|e es] eqn:Ee; [done|]. rewrite <- Ee in *.
    destruct (decide (ns' = ns)) as [->|Hd].
    + pose proof (publish_room ch (namespace_state b ns) cs events c Ec Oc Cc (Hr [] events ops c eq_refl Ec) Hl) as Hp.
      destruct (foldl state_publish _ events) as [s cs']. cbn [fst snd] in *. by rewrite with_namespace_state, decide_True.
    + destruct (foldl state_publish _ events) as [s cs']. cbn [fst]. by rewrite with_namespace_state, decide_False.
  - cbn [subscribe_events channel fst]. rewrite with_namespace_state. case_decide; [|done]. subst. cbn [ev_subscribers].
    unfold listed in *. by rewrite filter_app, Hl, filter_cons_False by lia.
  - cbn [fst]. unfold namespace_state in *. simpl. rewrite lookup_delete_ne by congruence. done.
Qed.

(** A subscriber of the events of a namespace is given the last events published since
    the namespace was last removed, as many as the bus keeps, and then gets the events as
    they are published without a gap: what it gets is a prefix of what is published, and
    all of it as long as its channel has room for each batch. *)
Theorem events_without_gap max before ns h ch b cs after :
  subscribe_events (run (start max) before).1 ns (run (start max) before).2 = (h, ch, b, cs) →
  Forall (undisturbed ch ns) after →
  h = lastn max (since ns before) ∧
  ∃ c, chans (run (b, cs) after).2 !! ch = Some c ∧ stream c `prefix_of` news ns after ∧
    (room ch ns (b, cs) after → stream c = news ns after).
Proof.
  intros Es Hu. destruct (run_events_wf max before) as [Hb Hi _]. destruct (run (start max) before) as [b0 cs0]. cbn [fst snd] in *.
  unfold subscribe_events in Es. cbn [channel] in Es. simplify_eq. split; [apply Hb|].
  set (w := (with_namespace _ _ b0, _)).
  assert (Hn : ∀ ns', next cs0 ∉ ev_subscribers (namespace_state b0 ns')) by (intros ns' Hx%Hi; lia).
  assert (Hl : listed (next cs0) (ev_subscribers (namespace_state w.1 ns)) = [next cs0]).
  { unfold w. cbn [fst]. rewrite with_namespace_state, decide_True by done. cbn [ev_subscribers].
    pose proof (proj2 (listed_nil _ _) (Hn ns)) as E0. unfold listed in *. by rewrite filter_app, E0, filter_cons_True. }
  assert (Hg : gets (next cs0) ns [] w).
  { split; unfold w; cbn [fst snd chans next]; [| |lia].
    - eexists. rewrite lookup_insert_eq. split; [done|]. split_and!; [done|done|]. by left.
    - intros ns' Hne. rewrite with_namespace_state, decide_False by done. apply Hn. }
  destruct (run_gets _ _ _ _ after Hg Hu) as [(c & Ec & _ & _ & Hs) _ _]. exists c. simpl in Hs. split; [done|]. split.
  - destruct Hs as [[_ ->]|[_ Hp]]; done.
  - intros Hr. pose proof (listed_stays _ _ _ _ after Hg Hu Hr Hl) as Hl'. destruct Hs as [[_ ->]|[Hx _]]; [done|].
    by rewrite Hl' in Hx.
Qed.
End Events.

(** *** Concrete runs *)
Definition ns1 : NamespaceId := {| ns_name := "ns1"; ns_id := 0 |}.
Lemma events_without_gap_witness :
  ∃ b cs c,
    subscribe_events (run (start 2) [PublishE ns1 [1; 2; 3]]).1 ns1 (run (start 2) [PublishE ns1 [1; 2; 3]]).2 =
      ([2; 3], 0%nat, b, cs) ∧
    chans (run (b, cs) [PublishE ns1 [4]; RecvE 0; PublishE ns1 [5]]).2 !! 0%nat = Some c ∧ stream c = [4; 5].
Proof.
  destruct (subscribe_events (run (start 2) [PublishE ns1 [1; 2; 3]]).1 ns1 (run (start 2) [PublishE ns1 [1; 2; 3]]).2)
    as [[[h ch] b] cs] eqn:Eq.
  assert (Ec : ch = 0%nat) by (by vm_compute in Eq; injection Eq).
  subst ch. destruct (events_without_gap 2 [PublishE ns1 [1; 2; 3]] ns1 h 0 b cs [PublishE ns1 [4]; RecvE 0; PublishE ns1 [5]])
    as (Hh & c & Hc & Hp & _); [exact Eq|by repeat constructor|].
  exists b, cs, c. subst h. split; [done|]. split; [exact Hc|].
  vm_compute in Eq. injection Eq as <- <-. vm_compute in Hc. injection Hc as <-. reflexivity.
Defined.
(** A subscriber that lags by the size of its channel is dropped for good, not only a dead
    one. *)
Example slow_subscriber_dropped :
  let '(_, ch, b, cs) := subscribe_events (event_bus_new 2) ns1 no_channels in
  let '(b, cs) := run (b, cs) [PublishE ns1 (replicate 257 1); RecvE ch; PublishE ns1 [2]] in
  ev_subscribers (namespace_state b ns1) = [] ∧
  (rx_open <$> chans cs !! ch) = Some true ∧ ((λ c, length (stream c)) <$> chans cs !! ch) = Some 256%nat.
Proof. by vm_compute. Qed.
End EventBusInv.
