(* ===== verification/EntityRef.v ===== *)
(** * Entity references of the command line ([crates/cli/src/entity_ref.rs])

    A command names what it works on by a path: a namespace [/ns], a type in a namespace
    [/ns/wl] or a resource [/ns/wl/name]; relative forms are completed by defaults.  The
    parser, the resolution against what a command accepts, and the text of the errors
    with their hints. *)

From S2P Require Import Prelude.
From stdpp Require Import strings.

Module EntityRef.

(** ** Resource types *)
Inductive ResourceType := Workload | Service | Pod.
#[global] Instance ResourceType_eq : EqDecision ResourceType.
Proof. solve_decision. Defined.
Definition from_keyword (s : string) : option ResourceType :=
  if decide (s = "workload" ∨ s = "wl") then Some Workload
  else if decide (s = "service" ∨ s = "svc") then Some Service
  else if decide (s = "pod" ∨ s = "po") then Some Pod
  else None.
Definition short (t : ResourceType) : string := match t with Workload => "wl" | Service => "svc" | Pod => "po" end.
Definition canonical (t : ResourceType) : string :=
  match t with Workload => "workload" | Service => "service" | Pod => "pod" end.
Definition plural (t : ResourceType) : string :=
  match t with Workload => "workloads" | Service => "services" | Pod => "pods" end.
Definition all : list ResourceType := [Workload; Service; Pod].
Fixpoint join (sep : string) (l : list string) : string :=
  match l with [] => "" | [x] => x | x :: l => x +:+ sep +:+ join sep l end.
Definition all_keywords_display : string :=
  join ", " ((λ t, canonical t +:+ " (" +:+ short t +:+ ")") <$> all).

(** ** References *)
Inductive RefForm := FormNamespace | FormTypeInNamespace | FormResource.
#[global] Instance RefForm_eq : EqDecision RefForm.
Proof. solve_decision. Defined.
Inductive ResolvedRef :=
  | RefNamespace (ns : string)
  | RefTypeInNamespace (ns : string) (rt : ResourceType)
  | RefResource (ns : string) (rt : ResourceType) (name : string).
Definition namespace (r : ResolvedRef) : string :=
  match r with RefNamespace ns | RefTypeInNamespace ns _ | RefResource ns _ _ => ns end.
Definition resource_type (r : ResolvedRef) : option ResourceType :=
  match r with RefNamespace _ => None | RefTypeInNamespace _ rt | RefResource _ rt _ => Some rt end.
Definition name (r : ResolvedRef) : option string := match r with RefResource _ _ name => Some name | _ => None end.
Definition form (r : ResolvedRef) : RefForm :=
  match r with
  | RefNamespace _ => FormNamespace
  | RefTypeInNamespace _ _ => FormTypeInNamespace
  | RefResource _ _ _ => FormResource
  end.
Definition path (r : ResolvedRef) : string :=
  match r with
  | RefNamespace ns => "/" +:+ ns
  | RefTypeInNamespace ns rt => "/" +:+ ns +:+ "/" +:+ short rt
  | RefResource ns rt name => "/" +:+ ns +:+ "/" +:+ short rt +:+ "/" +:+ name
  end.
(** The quotation mark *)
Definition quote : string := String (Ascii.ascii_of_nat 34) "".
Definition describe (r : ResolvedRef) : string :=
  match r with
  | RefNamespace ns => "namespace " +:+ quote +:+ ns +:+ quote
  | RefTypeInNamespace ns rt => plural rt +:+ " in namespace " +:+ quote +:+ ns +:+ quote
  | RefResource ns rt name => canonical rt +:+ " " +:+ quote +:+ ns +:+ "/" +:+ name +:+ quote
  end.
Definition describe_form (f : RefForm) : string :=
  match f with
  | FormNamespace => "a namespace reference"
  | FormTypeInNamespace => "a type reference"
  | FormResource => "a specific resource reference"
  end.

(** ** What a command accepts *)
Inductive AcceptedForm :=
  | AcceptNamespace
  | AcceptTypeInNamespace (types : option (list ResourceType))
  | AcceptResource (types : option (list ResourceType)).
Record EntityRefSpec := {
  command_name : string; accepted : list AcceptedForm; default_type : option ResourceType }.
Definition matches_form (a : AcceptedForm) (f : RefForm) : bool :=
  match a, f with
  | AcceptNamespace, FormNamespace | AcceptTypeInNamespace _, FormTypeInNamespace | AcceptResource _, FormResource => true
  | _, _ => false
  end.
Definition type_constraint (a : AcceptedForm) : option (list ResourceType) :=
  match a with AcceptNamespace => None | AcceptTypeInNamespace types | AcceptResource types => types end.
Definition format_type_placeholder (types : option (list ResourceType)) : string :=
  match types with
  | None => "type"
  | Some [t] => short t
  | Some ts => "{" +:+ join "|" (short <$> ts) +:+ "}"
  end.
Definition format_pattern (a : AcceptedForm) : string :=
  match a with
  | AcceptNamespace => "/namespace"
  | AcceptTypeInNamespace types => "/namespace/" +:+ format_type_placeholder types
  | AcceptResource types => "/namespace/" +:+ format_type_placeholder types +:+ "/name"
  end.
Definition new (command : string) : EntityRefSpec :=
  {| command_name := command; accepted := []; default_type := None |}.
Definition with_default_type (t : ResourceType) (s : EntityRefSpec) : EntityRefSpec :=
  {| command_name := command_name s; accepted := accepted s; default_type := Some t |}.
Definition accept (a : AcceptedForm) (s : EntityRefSpec) : EntityRefSpec :=
  {| command_name := command_name s; accepted := accepted s ++ [a]; default_type := default_type s |}.
Definition accept_namespace : EntityRefSpec → EntityRefSpec := accept AcceptNamespace.
Definition accept_type_any : EntityRefSpec → EntityRefSpec := accept (AcceptTypeInNamespace None).
Definition accept_type_of (types : list ResourceType) : EntityRefSpec → EntityRefSpec :=
  accept (AcceptTypeInNamespace (Some types)).
Definition accept_resource_any : EntityRefSpec → EntityRefSpec := accept (AcceptResource None).
Definition accept_resource_of (types : list ResourceType) : EntityRefSpec → EntityRefSpec :=
  accept (AcceptResource (Some types)).

(** ** Parsing *)
Inductive RelativeRef := TypeOnly (rt : ResourceType) | NameOnly (name : string) | TypeAndName (rt : ResourceType) (name : string).
Inductive ParsedRef :=
  | Absolute (ns : string) (rt : option ResourceType) (name : option string)
  | Relative (r : RelativeRef).
Inductive ParseErrorKind :=
  | ParseEmptyRef
  | ParseUnknownTypeKeyword (word : string) (other_segments : list string)
  | ParseTooManySegments.
(** [split('/')] *)
Definition slash : Ascii.ascii := Ascii.ascii_of_nat 47.
Fixpoint split_slash (s : string) : list string :=
  match s with
  | EmptyString => [""]
  | String c s =>
      let l := split_slash s in
      if Ascii.eqb c slash then "" :: l
      else match l with x :: l => String c x :: l | [] => [String c ""] end
  end.
Definition parse_type_keyword (s : string) (others : list string) : ResourceType + ParseErrorKind :=
  match from_keyword s with Some t => inl t | None => inr (ParseUnknownTypeKeyword s others) end.
Definition parse_absolute (input : string) : ParsedRef + ParseErrorKind :=
  match split_slash input with
  | [] | [""] => inr ParseEmptyRef
  | [ns] => inl (Absolute ns None None)
  | [ns; type_kw] =>
      match parse_type_keyword type_kw [] with
      | inl rt => inl (Absolute ns (Some rt) None)
      | inr e => inr e
      end
  | [ns; type_kw; name] =>
      match parse_type_keyword type_kw [name] with
      | inl rt => inl (Absolute ns (Some rt) (Some name))
      | inr e => inr e
      end
  | _ => inr ParseTooManySegments
  end.
Definition parse_relative (input : string) : ParsedRef + ParseErrorKind :=
  match split_slash input with
  | [] | [""] => inr ParseEmptyRef
  | [single] =>
      match from_keyword single with
      | Some rt => inl (Relative (TypeOnly rt))
      | None => inl (Relative (NameOnly single))
      end
  | [type_kw; name] =>
      match parse_type_keyword type_kw [name] with
      | inl rt => inl (Relative (TypeAndName rt name))
      | inr e => inr e
      end
  | _ => inr ParseTooManySegments
  end.
Definition parse (input : string) : ParsedRef + ParseErrorKind :=
  match input with
  | EmptyString => inr ParseEmptyRef
  | String c rest => if Ascii.eqb c slash then parse_absolute rest else parse_relative input
  end.

(** ** Resolution *)
Inductive ErrorKind :=
  | EmptyRef
  | UnknownTypeKeyword (word : string) (other_segments : list string)
  | TooManySegments
  | NoDefaultNamespace
  | NoDefaultType
  | FormNotAccepted (got : RefForm)
  | TypeNotAccepted (got : ResourceType) (allowed : list ResourceType).
Record EntityRefError := {
  kind : ErrorKind; input : string; err_namespace : option string; err_type : option ResourceType;
  err_name : option string; err_command : string; err_accepted : list AcceptedForm; err_default : option ResourceType }.
Definition partial_ns (p : ParsedRef) (default_ns : option string) : option string :=
  match p with Absolute ns _ _ => Some ns | _ => default_ns end.
Definition partial_rt (p : ParsedRef) (spec : EntityRefSpec) : option ResourceType :=
  match p with
  | Absolute _ rt _ => rt
  | Relative (TypeAndName rt _) | Relative (TypeOnly rt) => Some rt
  | Relative (NameOnly _) => default_type spec
  end.
Definition partial_name (p : ParsedRef) : option string :=
  match p with
  | Absolute _ _ name => name
  | Relative (TypeAndName _ n) | Relative (NameOnly n) => Some n
  | Relative (TypeOnly _) => None
  end.
(** Fill in the defaults. *)
Definition fill (p : ParsedRef) (spec : EntityRefSpec) (default_ns : option string) : ResolvedRef + ErrorKind :=
  match p with
  | Absolute ns (Some rt) (Some n) => inl (RefResource ns rt n)
  | Absolute ns (Some rt) None => inl (RefTypeInNamespace ns rt)
  | Absolute ns None _ => inl (RefNamespace ns)
  | Relative (TypeAndName rt n) =>
      match default_ns with Some ns => inl (RefResource ns rt n) | None => inr NoDefaultNamespace end
  | Relative (TypeOnly rt) =>
      match default_ns with Some ns => inl (RefTypeInNamespace ns rt) | None => inr NoDefaultNamespace end
  | Relative (NameOnly n) =>
      match default_ns with
      | Some ns => match default_type spec with Some rt => inl (RefResource ns rt n) | None => inr NoDefaultType end
      | None => inr NoDefaultNamespace
      end
  end.
(** Validate the form, then the type. *)
Definition validate (r : ResolvedRef) (spec : EntityRefSpec) : ResolvedRef + ErrorKind :=
  match List.find (λ a, matches_form a (form r)) (accepted spec) with
  | None => inr (FormNotAccepted (form r))
  | Some a =>
      match resource_type r, type_constraint a with
      | Some rt, Some allowed =>
          if bool_decide (rt ∈ allowed) then inl r else inr (TypeNotAccepted rt allowed)
      | _, _ => inl r
      end
  end.
Definition resolve (p : ParsedRef) (inp : string) (spec : EntityRefSpec) (default_ns : option string) :
    ResolvedRef + EntityRefError :=
  let make_err k :=
    {| kind := k; input := inp; err_namespace := partial_ns p default_ns; err_type := partial_rt p spec;
       err_name := partial_name p; err_command := command_name spec; err_accepted := accepted spec;
       err_default := default_type spec |} in
  match fill p spec default_ns with
  | inr k => inr (make_err k)
  | inl r => match validate r spec with inl r => inl r | inr k => inr (make_err k) end
  end.
Definition into_entity_error (e : ParseErrorKind) (inp : string) (spec : EntityRefSpec) (default_ns : option string) :
    EntityRefError :=
  {| kind := match e with
             | ParseEmptyRef => EmptyRef
             | ParseUnknownTypeKeyword word others => UnknownTypeKeyword word others
             | ParseTooManySegments => TooManySegments
             end;
     input := inp; err_namespace := default_ns; err_type := None; err_name := None;
     err_command := command_name spec; err_accepted := accepted spec; err_default := default_type spec |}.
Definition parse_and_resolve (inp : string) (spec : EntityRefSpec) (default_ns : option string) :
    ResolvedRef + EntityRefError :=
  match parse inp with
  | inl p => resolve p inp spec default_ns
  | inr e => inr (into_entity_error e inp spec default_ns)
  end.

(** ** The text of an error *)
Definition newline : string := String (Ascii.ascii_of_nat 10) "".
Definition quoted (s : string) : string := quote +:+ s +:+ quote.
Definition ticked (s : string) : string := "`" +:+ s +:+ "`".
Definition write_message (e : EntityRefError) : string :=
  match kind e with
  | EmptyRef => "empty entity reference"
  | UnknownTypeKeyword word _ => "unknown resource type " +:+ quoted word
  | TooManySegments => "too many segments in " +:+ quoted (input e)
  | NoDefaultNamespace => "no default namespace set"
  | NoDefaultType => ticked (err_command e) +:+ " requires a resource type for " +:+ quoted (input e)
  | FormNotAccepted got => ticked (err_command e) +:+ " does not accept " +:+ describe_form got
  | TypeNotAccepted got allowed =>
      ticked (err_command e) +:+ " operates on " +:+ join " or " (plural <$> allowed) +:+ ", not " +:+ plural got
  end.
Definition write_accepted_forms (e : EntityRefError) : string :=
  match err_accepted e with
  | [] => ""
  | l =>
      newline +:+ "  Accepted forms for " +:+ ticked (err_command e) +:+ ":" +:+
      foldr (λ a r, newline +:+ "    " +:+ format_pattern a +:+ r) "" l
  end.
Definition format_known_suffix (e : EntityRefError) : string :=
  match err_type e, err_name e with
  | Some rt, Some n => "/" +:+ short rt +:+ "/" +:+ n
  | Some rt, None => "/" +:+ short rt
  | None, Some n =>
      match err_default e with Some dt => "/" +:+ short dt +:+ "/" +:+ n | None => "/type/" +:+ n end
  | None, None => ""
  end.
Definition substitute_type (e : EntityRefError) (target : ResourceType) : option string :=
  ns ← err_namespace e; n ← err_name e; Some ("/" +:+ ns +:+ "/" +:+ short target +:+ "/" +:+ n).
(** [sort_by_key] on the discriminant, and [dedup] *)
Definition discriminant (t : ResourceType) : Z := match t with Workload => 0 | Service => 1 | Pod => 2 end.
Fixpoint insert_type (t : ResourceType) (l : list ResourceType) : list ResourceType :=
  match l with
  | [] => [t]
  | u :: l' => if (discriminant t <=? discriminant u)%Z then t :: l else u :: insert_type t l'
  end.
Fixpoint dedup (l : list ResourceType) : list ResourceType :=
  match l with
  | t :: ((u :: _) as l') => if decide (t = u) then dedup l' else t :: dedup l'
  | l => l
  end.
Definition collect_accepted_types (e : EntityRefError) : list ResourceType :=
  if existsb (λ a, is_none (type_constraint a)) (err_accepted e) then all
  else dedup (foldr insert_type [] (a ← err_accepted e; default [] (type_constraint a))).
(** [None] is a panic: the first of no types. *)
Definition write_help (e : EntityRefError) : option string :=
  match kind e with
  | EmptyRef => Some (write_accepted_forms e)
  | UnknownTypeKeyword word others =>
      Some (newline +:+ "  Known types: " +:+ all_keywords_display +:+
            newline +:+ "  Hint: if " +:+ quoted word +:+ " is a namespace, use /" +:+ word +:+ "/type/" +:+
            match others with [n] => n | _ => "name" end)
  | TooManySegments => Some (newline +:+ "  Expected format: /namespace/type/name")
  | NoDefaultNamespace =>
      Some (newline +:+ "  Use a fully qualified reference: dv " +:+ err_command e +:+ " /namespace" +:+ format_known_suffix e +:+
            newline +:+ "  Or set a default: dv context set-namespace <name>")
  | NoDefaultType =>
      Some (foldr (λ t r, newline +:+ "  Try: dv " +:+ err_command e +:+ " " +:+ short t +:+ "/" +:+ input e +:+ r) ""
              (collect_accepted_types e))
  | FormNotAccepted _ => Some (write_accepted_forms e)
  | TypeNotAccepted _ allowed =>
      t ← head allowed;
      Some match substitute_type e t with
           | Some suggestion => newline +:+ "  Hint: dv " +:+ err_command e +:+ " " +:+ suggestion
           | None => ""
           end
  end.
Definition display (e : EntityRefError) : option string := h ← write_help e; Some (write_message e +:+ h).

(** ** Paths and their segments *)
Fixpoint no_slash (s : string) : bool :=
  match s with EmptyString => true | String c s => negb (Ascii.eqb c slash) && no_slash s end.
Lemma split_slash_cons a b : no_slash a = true → split_slash (a +:+ "/" +:+ b) = a :: split_slash b.
Proof.
  induction a as [|c a IH]; [done|]. intros [Hc Ha]%andb_prop. apply negb_true_iff in Hc.
  change (String c a +:+ "/" +:+ b) with (String c (a +:+ "/" +:+ b)). cbn [split_slash]. by rewrite IH, Hc.
Qed.
Lemma split_slash_last a : no_slash a = true → split_slash a = [a].
Proof.
  induction a as [|c a IH]; [done|]. intros [Hc Ha]%andb_prop. apply negb_true_iff in Hc.
  cbn [split_slash]. by rewrite IH, Hc.
Qed.
Lemma split_slash_parts s : Forall (λ x, no_slash x = true) (split_slash s).
Proof.
  induction s as [|c s IH]; [by repeat constructor|]. cbn [split_slash].
  destruct (Ascii.eqb c slash) eqn:E; [by constructor|].
  destruct IH as [|x l Hx Hl]; constructor; cbn [no_slash]; rewrite ?E; done.
Qed.
Lemma from_keyword_short t : from_keyword (short t) = Some t.
Proof. by destruct t. Qed.
Lemma no_slash_short t : no_slash (short t) = true.
Proof. by destruct t. Qed.

(** A reference whose path can be read back: its segments have no slash, and a bare
    namespace is not empty. *)
Definition readable (r : ResolvedRef) : Prop :=
  no_slash (namespace r) = true ∧ (∀ n, name r = Some n → no_slash n = true) ∧ (form r = FormNamespace → namespace r ≠ "").
Definition parsed_of (r : ResolvedRef) : ParsedRef := Absolute (namespace r) (resource_type r) (name r).
Lemma parse_path r : readable r → parse (path r) = inl (parsed_of r).
Proof.
  intros (Hns & Hn & He). unfold parsed_of. destruct r as [ns|ns rt|ns rt n]; cbn [namespace resource_type name path form] in *.
  - change (parse ("/" +:+ ns)) with (parse_absolute ns). unfold parse_absolute. rewrite split_slash_last by done.
    destruct ns; [by destruct He|done].
  - change (parse ("/" +:+ ns +:+ "/" +:+ short rt)) with (parse_absolute (ns +:+ "/" +:+ short rt)). unfold parse_absolute.
    rewrite split_slash_cons, split_slash_last by (done || apply no_slash_short).
    unfold parse_type_keyword. rewrite from_keyword_short. by destruct ns.
  - change (parse ("/" +:+ ns +:+ "/" +:+ short rt +:+ "/" +:+ n))
      with (parse_absolute (ns +:+ "/" +:+ short rt +:+ "/" +:+ n)). unfold parse_absolute.
    rewrite split_slash_cons, split_slash_cons, split_slash_last by first [done|by apply Hn|apply no_slash_short].
    unfold parse_type_keyword. rewrite from_keyword_short. by destruct ns.
Qed.
Lemma fill_parsed_of r spec d : fill (parsed_of r) spec d = inl r.
Proof. by destruct r. Qed.
Lemma resolve_path r spec d : readable r → validate r spec = inl r → parse_and_resolve (path r) spec d = inl r.
Proof.
  intros Hr Hv. unfold parse_and_resolve, resolve. by rewrite parse_path, fill_parsed_of, Hv.
Qed.
Lemma validate_same r r' spec : validate r spec = inl r' → r' = r.
Proof. unfold validate. intros H. by repeat (case_match; simplify_eq). Qed.
(** The segments of what was parsed *)
Definition readable_parsed (p : ParsedRef) : Prop :=
  match p with
  | Absolute ns rt n => no_slash ns = true ∧ (∀ x, n = Some x → no_slash x = true) ∧ (rt = None → ns ≠ "")
  | Relative (TypeOnly _) => True
  | Relative (NameOnly n) | Relative (TypeAndName _ n) => no_slash n = true
  end.
Lemma parse_readable s p : parse s = inl p → readable_parsed p.
Proof.
  unfold parse. destruct s as [|c s]; [done|]. destruct (Ascii.eqb c slash).
  - unfold parse_absolute, parse_type_keyword. pose proof (split_slash_parts s) as Hp.
    destruct (split_slash s) as [|x [|y [|z [|? ?]]]]; intros E; repeat case_match; simplify_eq; decompose_Forall_hyps;
      (split_and!; [done|naive_solver|done]).
  - unfold parse_relative, parse_type_keyword. pose proof (split_slash_parts (String c s)) as Hp.
    destruct (split_slash (String c s)) as [|x [|y [|z ?]]]; intros E; repeat case_match; simplify_eq; by decompose_Forall_hyps.
Qed.
Lemma fill_readable p spec d r :
  readable_parsed p → (∀ ns, d = Some ns → no_slash ns = true) → fill p spec d = inl r → readable r.
Proof.
  intros Hp Hd E. unfold fill in E. repeat case_match; simplify_eq; simpl in *; destruct_and?;
    (split_and!; cbn [namespace name form]; [first [assumption|by eapply Hd]|intros; simplify_eq; naive_solver|naive_solver]).
Qed.
(** One of the forms of the command is that of the reference and allows its type. *)
Definition accepts (spec : EntityRefSpec) (r : ResolvedRef) : Prop :=
  ∃ a, a ∈ accepted spec ∧ matches_form a (form r) = true ∧
    ∀ rt allowed, resource_type r = Some rt → type_constraint a = Some allowed → rt ∈ allowed.
Lemma validate_accepts r spec : validate r spec = inl r → accepts spec r.
Proof.
  unfold validate. destruct (List.find _ _) as [a|] eqn:E; [|done]. apply List.find_some in E as [Hin Hm].
  intros Hv. exists a. split; [by apply list_elem_of_In|]. split; [done|]. intros rt allowed Er Ea.
  rewrite Er, Ea in Hv. by case_bool_decide.
Qed.
Lemma validate_type_error r spec got allowed t ns n :
  r = RefResource ns got n → validate r spec = inr (TypeNotAccepted got allowed) → t ∈ allowed →
  validate (RefResource ns t n) spec = inl (RefResource ns t n).
Proof.
  intros ->. unfold validate. cbn [form resource_type]. destruct (List.find _ _) as [a|]; [|done].
  destruct (type_constraint a); [|done]. case_bool_decide; [done|]. intros E Ht. injection E as <-.
  by rewrite bool_decide_true.
Qed.
Lemma validate_error r spec k :
  validate r spec = inr k → (∃ f, k = FormNotAccepted f) ∨ ∃ rt allowed, k = TypeNotAccepted rt allowed ∧ resource_type r = Some rt.
Proof. unfold validate. intros H. repeat (case_match; simplify_eq); eauto. Qed.
(** What an error knows of the reference *)
Lemma fill_partial p spec d r :
  fill p spec d = inl r → readable_parsed p →
  partial_ns p d = Some (namespace r) ∧
  (∀ n, partial_name p = Some n → resource_type r = None ∨ ∃ rt, r = RefResource (namespace r) rt n).
Proof. intros E Hp. unfold fill in E. repeat case_match; simplify_eq; simpl; split; naive_solver. Qed.
Lemma type_hint spec d inp e got allowed t s d' :
  (∀ ns, d = Some ns → no_slash ns = true) →
  parse_and_resolve inp spec d = inr e → kind e = TypeNotAccepted got allowed → t ∈ allowed → substitute_type e t = Some s →
  ∃ ns n, parse_and_resolve s spec d' = inl (RefResource ns t n) ∧ err_namespace e = Some ns ∧ err_name e = Some n.
Proof.
  intros Hd. unfold parse_and_resolve at 1. destruct (parse inp) as [p|pe] eqn:Ep; [|intros [= <-]; by destruct pe].
  pose proof (parse_readable _ _ Ep) as Hp. unfold resolve. destruct (fill p spec d) as [r|k] eqn:Ef.
  - pose proof (fill_readable _ _ _ _ Hp Hd Ef) as Hr. destruct (fill_partial _ _ _ _ Ef Hp) as [Hns Hn].
    destruct (validate r spec) as [|k] eqn:Ev; [done|]. intros [= <-]. cbn [kind err_namespace err_name]. intros -> Ht.
    unfold substitute_type. cbn [err_namespace err_name]. rewrite Hns. cbn [mbind option_bind].
    destruct (partial_name p) as [n|]; [|done]. cbn [mbind option_bind]. intros [= <-].
    destruct (validate_error _ _ _ Ev) as [[f ?]|(rt & l & ? & Hrt)]; simplify_eq.
    destruct (Hn n eq_refl) as [?|[rt' Er]]; [congruence|]. rewrite Er in Hrt. cbn [resource_type] in Hrt. simplify_eq.
    exists (namespace r), n. split_and!; [|done|done].
    apply (resolve_path (RefResource (namespace r) t n)).
    + destruct Hr as (H1 & H2 & _). rewrite Er in H2. split_and!; [done|exact H2|done].
    + by eapply validate_type_error.
  - intros [= <-]. cbn [kind]. intros ->. unfold fill in Ef. by repeat case_match; simplify_eq.
Qed.
Lemma namespace_hint spec inp d e ns r d' :
  parse_and_resolve inp spec d = inr e → kind e = NoDefaultNamespace → is_Some (err_type e) → no_slash ns = true →
  parse_and_resolve inp spec (Some ns) = inl r →
  parse_and_resolve ("/" +:+ ns +:+ format_known_suffix e) spec d' = inl r.
Proof.
  unfold parse_and_resolve at 1 2. destruct (parse inp) as [p|pe] eqn:Ep; [|intros [= <-]; by destruct pe].
  pose proof (parse_readable _ _ Ep) as Hp. unfold resolve. intros E Hk Ht Hns E'.
  destruct (fill p spec (Some ns)) as [r'|] eqn:Ef; [|done].
  destruct (validate r' spec) as [r''|] eqn:Ev; [|done]. injection E' as ->.
  pose proof (validate_same _ _ _ Ev). subst r'.
  assert (Hr : readable r) by (eapply fill_readable; [done| |exact Ef]; by intros ? [= <-]).
  destruct (fill p spec d) as [r2|k] eqn:Ed.
  { destruct (validate r2 spec) as [|k] eqn:Ev2; [done|]. injection E as <-. cbn in Hk.
    by destruct (validate_error _ _ _ Ev2) as [[? ?]|(? & ? & ? & _)]; simplify_eq. }
  injection E as <-. cbn in Hk. subst k.
  enough (path r = "/" +:+ ns +:+ format_known_suffix _) as <- by (by apply resolve_path).
  unfold format_known_suffix. cbn [err_type err_name err_default] in *. unfold fill in Ef, Ed.
  repeat case_match; simplify_eq; simpl in *; simplify_eq; by destruct Ht.
Qed.

(** C29: A reference that resolves is one the command accepts, and its path resolves to the
    same reference, whatever the default namespace is.  For one that is refused because of
    its type, the hint resolves to the resource of that name with an accepted type; and for
    one that lacks a namespace, the hint with a namespace filled in resolves to what the
    reference means in that namespace. *)
Theorem entity_ref_faithful spec d inp :
  (∀ ns, d = Some ns → no_slash ns = true) →
  match parse_and_resolve inp spec d with
  | inl r => accepts spec r ∧ ∀ d', parse_and_resolve (path r) spec d' = inl r
  | inr e =>
      (∀ got allowed t s d', kind e = TypeNotAccepted got allowed → t ∈ allowed → substitute_type e t = Some s →
         ∃ ns n, parse_and_resolve s spec d' = inl (RefResource ns t n) ∧ err_namespace e = Some ns ∧ err_name e = Some n) ∧
      (∀ ns r d', kind e = NoDefaultNamespace → is_Some (err_type e) → no_slash ns = true →
         parse_and_resolve inp spec (Some ns) = inl r →
         parse_and_resolve ("/" +:+ ns +:+ format_known_suffix e) spec d' = inl r)
  end.
Proof.
  intros Hd. destruct (parse_and_resolve inp spec d) as [r|e] eqn:E.
  - unfold parse_and_resolve in E. destruct (parse inp) as [p|] eqn:Ep; [|done]. unfold resolve in E.
    destruct (fill p spec d) as [r'|] eqn:Ef; [|done]. destruct (validate r' spec) as [r''|] eqn:Ev; [|done].
    injection E as ->. pose proof (validate_same _ _ _ Ev). subst r'. split; [by apply validate_accepts|]. intros d'.
    apply resolve_path; [|done]. eapply fill_readable; [by eapply parse_readable|exact Hd|exact Ef].
  - split.
    + intros got allowed t s d' Hk Ht Hs. by eapply type_hint.
    + intros ns r d' Hk Ht Hns Hr. by eapply namespace_hint.
Qed.
Definition logs_spec : EntityRefSpec := accept_resource_of [Workload] (with_default_type Workload (new "logs")).
Lemma entity_ref_faithful_witness :
  parse_and_resolve "my-app" logs_spec (Some "my-ns") = inl (RefResource "my-ns" Workload "my-app") ∧
  accepts logs_spec (RefResource "my-ns" Workload "my-app") ∧
  parse_and_resolve "/my-ns/wl/my-app" logs_spec None = inl (RefResource "my-ns" Workload "my-app").
Proof.
  split; [by vm_compute|].
  destruct (entity_ref_faithful logs_spec (Some "my-ns") "my-app") as [Ha Hp]; [by intros ? [= <-]|].
  split; [exact Ha|exact (Hp None)].
Defined.

(** An empty segment is a name: the reference names a resource without a name. *)
Example empty_name_accepted :
  parse_and_resolve "/my-ns/wl/" logs_spec None = inl (RefResource "my-ns" Workload "") ∧
  parse_and_resolve "//wl/my-app" logs_spec None = inl (RefResource "" Workload "my-app").
Proof. by vm_compute. Qed.
(** A command that accepts namespaces and workloads suggests every type for a bare name,
    and refuses what it suggests. *)
Definition status_spec : EntityRefSpec := accept_resource_of [Workload] (accept_namespace (new "status")).
Example hint_is_refused :
  (∃ e, parse_and_resolve "my-app" status_spec (Some "my-ns") = inr e ∧ kind e = NoDefaultType ∧
     collect_accepted_types e = [Workload; Service; Pod]) ∧
  (∃ e, parse_and_resolve "svc/my-app" status_spec (Some "my-ns") = inr e ∧ kind e = TypeNotAccepted Service [Workload]).
Proof. split; eexists; (split; [reflexivity|]); by vm_compute. Qed.
(** A constraint to no types makes the text of the error panic. *)
Example no_types_panics :
  ∃ e, parse_and_resolve "/my-ns/wl/my-app" (accept_resource_of [] (new "get")) None = inr e ∧ display e = None.
Proof. eexists. split; [reflexivity|]. by vm_compute. Qed.
End EntityRef.
