(* ===== verification/PodSupervisor.v ===== *)
(** * The supervisor of a pod
      ([crates/worker/src/worker/supervisor.rs], [crates/worker/src/managed_vm.rs])

    A supervisor sets up the virtual machine of a pod, watches it and sends events to the
    orchestrator until the pod has ended.  The background task that reads the event stream
    of the guest publishes an accumulated state ([dispatch]); the monitor reads the latest
    one when it wakes up, so that it can miss states in between.  A run is the sequence of
    what the guest sends and of the futures that complete first ([Input]); how the machine
    ends is an environment ([Ending]).  Messages to the machine and to the orchestrator are
    effects.  Counters are unbounded.  What setting the machine up does is not part of the
    model, only its result. *)

From S2P Require Import Prelude SmTypes Protocol CoreTypes Pod Scheduler NamespaceCore Memory Codec.
From stdpp Require Import strings.
Open Scope Z_scope.

Module Supervisor.
Abbreviation WorkerEvent := Event.WorkerEvent.
Abbreviation PodStatus := SmTypes.PodStatus.

(** ** What the guest tells *)
(** The events of the memory manager are those of [Memory]. *)
Inductive GuestEvent :=
  | ContainerExited (id : string) (code dropped : Z)
  | TaskError (task message : string)
  | MemoryEvent (e : Memory.GuestEvent).
Inductive StreamItem := StreamEvent (e : GuestEvent) | StreamEnd | StreamFailed (message : string).
Record EventDispatchState := {
  exited : gmap string Z; output_bytes_dropped : Z; balloon_mib : option Z; task_error : option (string * string);
  stream_closed : bool; stream_error : option string; memory_constrained : bool;
  memory_constraint_reason : option Memory.ConstraintReason; oom_kill_count : Z }.
Definition default_state : EventDispatchState :=
  {| exited := ∅; output_bytes_dropped := 0; balloon_mib := None; task_error := None; stream_closed := false;
     stream_error := None; memory_constrained := false; memory_constraint_reason := None; oom_kill_count := 0 |}.
Definition dispatch_memory (s : EventDispatchState) (e : Memory.GuestEvent) : EventDispatchState :=
  match e with
  | Memory.BalloonSet amount_mib => {| s with balloon_mib := Some amount_mib |}
  | Memory.MemoryConstrained reason =>
      {| s with memory_constrained := true; memory_constraint_reason := Some reason |}
  | Memory.MemoryConstraintCleared => {| s with memory_constrained := false; memory_constraint_reason := None |}
  | Memory.OomKill count => {| s with oom_kill_count := oom_kill_count s + count |}
  end.
(** One turn of the task of [EventDispatch]; [true] when it goes on *)
Definition dispatch (s : EventDispatchState) (i : StreamItem) : EventDispatchState * bool :=
  match i with
  | StreamEvent (ContainerExited id code dropped) =>
      ({| s with exited := <[id := code]> (exited s); output_bytes_dropped := output_bytes_dropped s + dropped |}, true)
  | StreamEvent (TaskError task message) =>
      (if is_none (task_error s) then {| s with task_error := Some (task, message) |} else s, true)
  | StreamEvent (MemoryEvent e) => (dispatch_memory s e, true)
  | StreamEnd => ({| s with stream_closed := true |}, false)
  | StreamFailed message => ({| s with stream_closed := true; stream_error := Some message |}, false)
  end.

(** ** The machine *)
(** Calls of the instance and messages on the control stream *)
Inductive VmOp :=
  | SetBalloon (amount_mib : Z)
  | SignalContainer (id : string)
  | SendShutdown
  | PrepareSuspend
  | SuspendInstance
  | DrainDriver
  | Kill.
Inductive Out := Send (e : WorkerEvent) | Vm (op : VmOp) | Reply (r : unit + string).
(** [ManagedVm::stop_containers]: the wait that follows has no effect. *)
Definition stop_containers (started : list string) : list Out := (λ id, Vm (SignalContainer id)) <$> started.

(** How the race between the last steps and the death of the machine goes *)
Inductive ShutdownRace := ShutdownOk | ShutdownError | ShutdownTimeout | VmDied.
Record Ending := {
  drained : bool;  (** the output is drained before the machine dies *)
  race : ShutdownRace;
  reached : nat;  (** how many messages of a shutdown that does not complete are sent *)
  kill_ok : bool;
  suspended : option (bool * string);  (** a suspend that fails, with the instance or before, and the error *)
  dir_size : option Z }.
(** A call that is made; [kill] has to succeed for the driver to be drained. *)
Definition force_kill (e : Ending) : list Out := Vm Kill :: if kill_ok e then [Vm DrainDriver] else [].

Record SuspendRequest := { artifact_id : ArtifactId; pool_id : PoolId }.
Inductive MonitorOutcome := OutcomeExited (exit_code : Z) | OutcomeFatal (error : string).
Inductive DriverExit := DriverOk | DriverError (message : string) | DriverDropped.
Inductive PodEvent :=
  | GuestStateChanged
  | DriverExited (r : DriverExit)
  | PortTaskExited
  | VmExited
  | SuspendRequested (req : SuspendRequest)
  | Cancelled.
Inductive LoopOutcome :=
  | LoopContainerExited (exit_code : Z)
  | LoopFatal (error : string)
  | LoopVmExited
  | LoopSuspendRequested (req : SuspendRequest)
  | LoopCancelled.
Record StateTracker := { last_balloon : option Z; last_memory_constrained : bool; last_oom_kill_count : Z }.
Definition default_tracker : StateTracker :=
  {| last_balloon := None; last_memory_constrained := false; last_oom_kill_count := 0 |}.

Section Pod.
Context {iter : HashIter string}.
Variables (namespace_id : NamespaceId) (pod_id : PodId).

Definition reason_of (r : option Memory.ConstraintReason) : MemoryConstraintReason :=
  match r with
  | Some Memory.DeflationStalled => DeflationStalled
  | Some Memory.BalloonExhausted | None => BalloonExhausted
  end.
(** The telemetry of [StateTracker::process], its steps 3 to 5 *)
Definition process_balloon (t : StateTracker) (s : EventDispatchState) : list Out :=
  if decide (balloon_mib s = last_balloon t) then []
  else match balloon_mib s with Some amount_mib => [Vm (SetBalloon amount_mib)] | None => [] end.
Definition process_constraint (t : StateTracker) (s : EventDispatchState) : list Out :=
  if memory_constrained s && negb (last_memory_constrained t)
  then [Send (Event.PodMemoryConstrained namespace_id pod_id (reason_of (memory_constraint_reason s)))]
  else if negb (memory_constrained s) && last_memory_constrained t
  then [Send (Event.PodMemoryConstraintCleared namespace_id pod_id)]
  else [].
Definition process_oom (t : StateTracker) (s : EventDispatchState) : list Out * Z :=
  if last_oom_kill_count t <? oom_kill_count s
  then ([Send (Event.PodOomKill namespace_id pod_id (oom_kill_count s - last_oom_kill_count t))], oom_kill_count s)
  else ([], last_oom_kill_count t).
Definition process (t : StateTracker) (s : EventDispatchState) : StateTracker * list Out * option MonitorOutcome :=
  match task_error s with
  | Some (task, message) =>
      (t, [], Some (OutcomeFatal ("guest task error: task=" +:+ task +:+ ", message=" +:+ message)))
  | None =>
      match hash_iter (exited s) with
      | (_, code) :: _ => (t, [], Some (OutcomeExited code))
      | [] =>
          let '(oom, count) := process_oom t s in
          ({| last_balloon := balloon_mib s; last_memory_constrained := memory_constrained s; last_oom_kill_count := count |},
           process_balloon t s ++ process_constraint t s ++ oom,
           if stream_closed s then Some (OutcomeFatal (default "event stream closed unexpectedly" (stream_error s)))
           else None)
      end
  end.

(** ** The monitor *)
Inductive Input := FromGuest (i : StreamItem) | Select (e : PodEvent).
(** [changed]: the receiver has not seen the latest state; [reading]: the task goes on. *)
Record Monitor := { tracker : StateTracker; state : EventDispatchState; changed : bool; reading : bool }.
Definition start_monitor : Monitor :=
  {| tracker := default_tracker; state := default_state; changed := false; reading := true |}.
(** A turn of the loop.  [rx.changed()] completes if there is a new state or the sender is
    gone. *)
Definition monitor_step (m : Monitor) (i : Input) : Monitor * list Out * option LoopOutcome :=
  match i with
  | FromGuest i =>
      if reading m then
        let '(s, go) := dispatch (state m) i in
        ({| tracker := tracker m; state := s; changed := true; reading := go |}, [], None)
      else (m, [], None)
  | Select GuestStateChanged =>
      if changed m || negb (reading m) then
        let '(t, o, r) := process (tracker m) (state m) in
        ({| tracker := t; state := state m; changed := false; reading := reading m |}, o,
         match r with
         | Some (OutcomeExited code) => Some (LoopContainerExited code)
         | Some (OutcomeFatal error) => Some (LoopFatal error)
         | None => None
         end)
      else (m, [], None)
  | Select (DriverExited r) =>
      (m, [], Some (LoopFatal match r with
                              | DriverOk => "yamux driver exited unexpectedly"
                              | DriverError msg => "yamux driver error: " +:+ msg
                              | DriverDropped => "yamux driver task dropped exit signal"
                              end))
  | Select PortTaskExited => (m, [], Some (LoopFatal "port task exited unexpectedly"))
  | Select VmExited => (m, [], Some LoopVmExited)
  | Select (SuspendRequested req) => (m, [], Some (LoopSuspendRequested req))
  | Select Cancelled => (m, [], Some LoopCancelled)
  end.
Fixpoint monitor_loop (m : Monitor) (inputs : list Input) : Monitor * list Out * option LoopOutcome :=
  match inputs with
  | [] => (m, [], None)
  | i :: inputs =>
      let '(m, o, r) := monitor_step m i in
      match r with
      | Some r => (m, o, Some r)
      | None => let '(m, o', r) := monitor_loop m inputs in (m, o ++ o', r)
      end
  end.

(** ** How a pod ends *)
Definition finish_shutdown (messages : list Out) (e : Ending) : list Out :=
  match race e with
  | ShutdownOk => messages ++ [Vm DrainDriver]
  | ShutdownError | ShutdownTimeout => take (reached e) messages ++ force_kill e
  | VmDied => take (reached e) messages ++ [Vm DrainDriver]
  end.
Definition handle_container_exit (exit_code : Z) (started : list string) (e : Ending) : list Out * WorkerEvent :=
  (if drained e then finish_shutdown (stop_containers started ++ [Vm SendShutdown]) e else [Vm DrainDriver],
   Event.PodExited namespace_id pod_id exit_code).
Definition handle_cancel (started : list string) (e : Ending) : list Out * WorkerEvent :=
  (stop_containers started ++ (if drained e then finish_shutdown [Vm SendShutdown] e else [Vm DrainDriver]),
   Event.PodExited namespace_id pod_id (-1)).
Definition handle_suspend (req : SuspendRequest) (e : Ending) : list Out * option WorkerEvent :=
  let begun := [Send (Event.ArtifactWriteStarted namespace_id (artifact_id req) (pool_id req)); Vm PrepareSuspend] in
  match suspended e with
  | None =>
      let size := default 0 (dir_size e) in
      (begun ++ [Vm SuspendInstance; Reply (inl tt); Send (Event.ArtifactWriteCommitted namespace_id (artifact_id req) (pool_id req) size);
                 Send (Event.PodSuspended namespace_id pod_id (artifact_id req) size (pool_id req))], None)
  | Some (at_instance, error) =>
      (begun ++ (if at_instance then [Vm SuspendInstance] else []) ++ [Reply (inr error)], Some (Event.PodSuspendFailed namespace_id pod_id error))
  end.
Definition handle_outcome (o : LoopOutcome) (started : list string) (e : Ending) : list Out :=
  match o with
  | LoopSuspendRequested req =>
      let '(o, r) := handle_suspend req e in o ++ match r with Some event => [Send event] | None => [] end
  | LoopContainerExited exit_code => let '(o, event) := handle_container_exit exit_code started e in o ++ [Send event]
  | LoopFatal error => force_kill e ++ [Send (Event.PodFailed namespace_id pod_id error)]
  | LoopVmExited => [Vm DrainDriver; Send (Event.PodFailed namespace_id pod_id "VM process exited unexpectedly")]
  | LoopCancelled => let '(o, event) := handle_cancel started e in o ++ [Send event]
  end.
(** [true] when the supervisor has returned *)
Definition pod_monitor (has_dispatch : bool) (started : list string) (inputs : list Input) (e : Ending) : list Out * bool :=
  if has_dispatch then
    let '(_, o, r) := monitor_loop start_monitor inputs in
    match r with Some r => (o ++ handle_outcome r started e, true) | None => (o, false) end
  else (force_kill e ++ [Send (Event.PodFailed namespace_id pod_id "no event dispatch available")], true).
(** What setting the machine up gives: the containers that run, and whether events of the
    guest can be read *)
Record Setup := { started_containers : list string; event_dispatch : bool }.
Definition run_pod_supervisor (setup : Setup + string) (cancelled : bool) (inputs : list Input) (e : Ending) :
    list Out * bool :=
  match setup with
  | inl s =>
      let '(o, fin) := pod_monitor (event_dispatch s) (started_containers s) inputs e in
      (Send (Event.PodRunning namespace_id pod_id) :: o, fin)
  | inr error =>
      ([Send (if cancelled then Event.PodExited namespace_id pod_id (-1) else Event.PodFailed namespace_id pod_id error)], true)
  end.
End Pod.

(** ** The log stream of a pod *)
Inductive IoItem := Stdout (seq : Z) (data : list Z) | Stderr (seq : Z) (data : list Z) | Eof | IoFailed.
(** The task of the monitor that copies the output; [None] while there is no more to read. *)
Fixpoint log_task `{Codec.Write W} (w : W) (items : list IoItem) : option (bool * W) :=
  match items with
  | [] => None
  | (Stdout seq data | Stderr seq data) :: items =>
      match Codec.send_log_frame w seq data with
      | Some w => log_task w items
      | None => Some (false, w)
      end
  | Eof :: _ => Some (true, w)
  | IoFailed :: _ => Some (false, w)
  end.

(** ** The life of a pod as the orchestrator sees it *)
Definition sent (o : list Out) : list WorkerEvent := omap (λ x, match x with Send e => Some e | _ => None end) o.
Section Life.
Context {iter : HashIter string}.
Variables (ns : NamespaceId) (pod : PodId).
Definition telemetry (e : WorkerEvent) : Prop :=
  match e with
  | Event.PodMemoryConstrained n p _ | Event.PodMemoryConstraintCleared n p => n = ns ∧ p = pod
  | Event.PodOomKill n p count => n = ns ∧ p = pod ∧ 0 < count
  | _ => False
  end.
Definition terminal (e : WorkerEvent) : Prop :=
  match e with
  | Event.PodExited n p _ | Event.PodFailed n p _ | Event.PodSuspended n p _ _ _ | Event.PodSuspendFailed n p _ =>
      n = ns ∧ p = pod
  | _ => False
  end.
(** What is sent about the artifact before the last event *)
Definition artifact_events (l : list WorkerEvent) (t : WorkerEvent) : Prop :=
  match t with
  | Event.PodSuspended _ _ a size pool =>
      l = [Event.ArtifactWriteStarted ns a pool; Event.ArtifactWriteCommitted ns a pool size]
  | Event.PodSuspendFailed _ _ _ => ∃ a pool, l = [Event.ArtifactWriteStarted ns a pool]
  | _ => l = []
  end.

Lemma sent_app o o' : sent (o ++ o') = sent o ++ sent o'.
Proof. apply omap_app. Qed.
Lemma sent_cons e o : sent (Send e :: o) = e :: sent o.
Proof. done. Qed.
Lemma process_telemetry t s : Forall telemetry (sent (process ns pod t s).1.2).
Proof.
  unfold process. destruct (task_error s) as [[]|]; [constructor|]. destruct (hash_iter (exited s)) as [|[]]; [|constructor].
  unfold process_oom. destruct (Z.ltb_spec (last_oom_kill_count t) (oom_kill_count s)); cbn [fst snd]; rewrite !sent_app;
    repeat apply Forall_app_2; unfold process_balloon, process_constraint; repeat case_match; repeat constructor; lia.
Qed.
Lemma step_telemetry m i : Forall telemetry (sent (monitor_step ns pod m i).1.2).
Proof.
  destruct i as [i|[]]; cbn [monitor_step]; try constructor.
  - destruct (reading m); [|constructor]. destruct (dispatch _ _). constructor.
  - destruct (_ || _); [|constructor]. pose proof (process_telemetry (tracker m) (state m)) as Hp.
    destruct (process ns pod _ _) as [[]]. exact Hp.
Qed.
Lemma loop_telemetry m inputs : Forall telemetry (sent (monitor_loop ns pod m inputs).1.2).
Proof.
  revert m. induction inputs as [|i inputs IH]; intros m; [constructor|]. cbn [monitor_loop].
  pose proof (step_telemetry m i) as Hs. destruct (monitor_step ns pod m i) as [[m' o] [r|]]; [done|].
  specialize (IH m'). destruct (monitor_loop ns pod m' inputs) as [[m2 o2] r]. cbn [fst snd] in *.
  rewrite sent_app. by apply Forall_app_2.
Qed.
Lemma sent_stop l : sent (stop_containers l) = [].
Proof. by induction l. Qed.
Lemma sent_take n o : sent o = [] → sent (take n o) = [].
Proof.
  revert n. induction o as [|[e|op|r] o IH]; intros n Ho; destruct n; simpl in *; try done; by apply IH.
Qed.
Lemma sent_kill e : sent (force_kill e) = [].
Proof. unfold force_kill. by destruct (kill_ok e). Qed.
Lemma sent_finish_shutdown l e : sent l = [] → sent (finish_shutdown l e) = [].
Proof.
  intros Hl. unfold finish_shutdown. destruct (race e); rewrite sent_app, ?sent_kill, ?Hl, ?(sent_take _ l) by done; done.
Qed.
(** However the loop ends, the events are those of the artifact, if any, and one last. *)
Lemma outcome_terminal o started e :
  ∃ l t, sent (handle_outcome ns pod o started e) = l ++ [t] ∧ terminal t ∧ artifact_events l t.
Proof.
  destruct o as [code|error| |req|]; cbn [handle_outcome handle_container_exit handle_cancel].
  - exists [], (Event.PodExited ns pod code). split; [|done]. rewrite sent_app.
    destruct (drained e); [|done]. rewrite sent_finish_shutdown; [done|]. by rewrite sent_app, sent_stop.
  - exists [], (Event.PodFailed ns pod error). by rewrite sent_app, sent_kill.
  - by exists [], (Event.PodFailed ns pod "VM process exited unexpectedly").
  - unfold handle_suspend. destruct (suspended e) as [[at_instance error]|].
    + exists [Event.ArtifactWriteStarted ns (artifact_id req) (pool_id req)], (Event.PodSuspendFailed ns pod error).
      split; [by destruct at_instance|]. split; [done|]. by exists (artifact_id req), (pool_id req).
    + by eexists [_; _], (Event.PodSuspended ns pod (artifact_id req) _ (pool_id req)).
  - exists [], (Event.PodExited ns pod (-1)). split; [|done]. rewrite !sent_app, sent_stop.
    destruct (drained e); [by rewrite sent_finish_shutdown|done].
Qed.
(** ** The pod at the orchestrator *)
(** The input of the machine of the pod that an event becomes
    ([dispatch_active_worker_event]) *)
Definition notify (e : WorkerEvent) : option PodSm.PodInput :=
  match e with
  | Event.PodRunning _ _ => Some (PodSm.NotifyPodStatus Running)
  | Event.PodExited _ _ code => Some (PodSm.NotifyPodStatus (Namespace.exit_status code))
  | Event.PodFailed _ _ error => Some (PodSm.NotifyPodStatus (PodFailed None error))
  | Event.PodSuspended _ _ artifact _ _ => PodSm.NotifyPodSuspended <$> Scheduler.parse_u64 artifact
  | Event.PodSuspendFailed _ _ _ => Some (PodSm.NotifyPodStatus (PodFailed None "suspend failed"))
  | _ => None
  end.
Lemma notify_terminal t i s c :
  terminal t → notify t = Some i →
  (∀ a, i = PodSm.NotifyPodSuspended a → is_suspending (PodSm.status s) = true ∨ is_terminal (PodSm.status s) = true) →
  is_terminal (PodSm.status (PodSm.handle i (s, c)).1) = true.
Proof.
  intros Ht Hi Hs.
  assert (Hst : ∀ st, match st with PodFailed _ _ | Finished _ => True | _ => False end →
    is_terminal (PodSm.status (PodSm.handle (PodSm.NotifyPodStatus st) (s, c)).1) = true).
  { intros st Hf. destruct s as [[] ow wk0 it0 ra tg aw ls]; destruct st; try done; PodSm.pod_cases; done. }
  destruct t; try done; simpl in Hi; simplify_eq; try by apply Hst.
  - apply Hst. unfold Namespace.exit_status. by destruct (exit_code =? 0).
  - apply fmap_Some in Hi as (a & _ & ->). specialize (Hs a eq_refl).
    destruct s as [[] ow wk0 it0 ra tg aw ls]; try (by destruct Hs); PodSm.pod_cases; done.
Qed.
(** The events of a run, until and after the end *)
Definition unfinished (l : list WorkerEvent) : Prop :=
  ∃ tel, l = Event.PodRunning ns pod :: tel ∧ Forall telemetry tel.
Definition finished (ok : bool) (l : list WorkerEvent) (t : WorkerEvent) : Prop :=
  if ok then ∃ tel art, l = Event.PodRunning ns pod :: tel ++ art ++ [t] ∧ Forall telemetry tel ∧ artifact_events art t
  else l = [t].

End Life.

(** ** Telemetry *)
(** What the guest has told, directly from its events *)
Definition items_of (inputs : list Input) : list StreamItem :=
  omap (λ x, match x with FromGuest i => Some i | _ => None end) inputs.
Definition ooms_step (n : Z) (i : StreamItem) : Z :=
  match i with StreamEvent (MemoryEvent (Memory.OomKill count)) => n + count | _ => n end.
Definition constrained_step (b : bool) (i : StreamItem) : bool :=
  match i with
  | StreamEvent (MemoryEvent (Memory.MemoryConstrained _)) => true
  | StreamEvent (MemoryEvent Memory.MemoryConstraintCleared) => false
  | _ => b
  end.
Definition balloon_step (b : option Z) (i : StreamItem) : option Z :=
  match i with StreamEvent (MemoryEvent (Memory.BalloonSet n)) => Some n | _ => b end.
(** What the orchestrator and the machine have been told *)
Definition oom_told (n : Z) (x : Out) : Z := match x with Send (Event.PodOomKill _ _ count) => n + count | _ => n end.
Definition constrained_told (b : bool) (x : Out) : bool :=
  match x with
  | Send (Event.PodMemoryConstrained _ _ _) => true
  | Send (Event.PodMemoryConstraintCleared _ _) => false
  | _ => b
  end.
Definition balloon_told (b : option Z) (x : Out) : option Z := match x with Vm (SetBalloon n) => Some n | _ => b end.
(** Counts are not negative. *)
Definition count_ok (i : StreamItem) : Prop :=
  match i with StreamEvent (MemoryEvent (Memory.OomKill count)) => 0 ≤ count | _ => True end.

Section Telemetry.
Context {iter : HashIter string}.
Variables (ns : NamespaceId) (pod : PodId).
Definition synced (t : StateTracker) (s : EventDispatchState) : Prop :=
  last_oom_kill_count t = oom_kill_count s ∧ last_memory_constrained t = memory_constrained s ∧
  last_balloon t = balloon_mib s.
Record told (m : Monitor) (items : list StreamItem) (o : list Out) : Prop := {
  told_state : reading m = true →
    oom_kill_count (state m) = foldl ooms_step 0 items ∧ memory_constrained (state m) = foldl constrained_step false items ∧
    balloon_mib (state m) = foldl balloon_step None items;
  told_out : foldl oom_told 0 o = last_oom_kill_count (tracker m) ∧
    foldl constrained_told false o = last_memory_constrained (tracker m) ∧ foldl balloon_told None o = last_balloon (tracker m);
  told_order : last_oom_kill_count (tracker m) ≤ oom_kill_count (state m) ∧
    (balloon_mib (state m) = None → last_balloon (tracker m) = None);
  told_synced : changed m = false → synced (tracker m) (state m);
  told_closed : reading m = false → stream_closed (state m) = true }.
(** A turn of the task follows the events. *)
Lemma dispatch_told s i s' :
  count_ok i → dispatch s i = (s', true) →
  oom_kill_count s' = ooms_step (oom_kill_count s) i ∧ memory_constrained s' = constrained_step (memory_constrained s) i ∧
  balloon_mib s' = balloon_step (balloon_mib s) i ∧ oom_kill_count s ≤ oom_kill_count s' ∧
  (balloon_mib s' = None → balloon_mib s = None).
Proof.
  intros Hc E. destruct i as [[id code dropped|task msg|[]]| |]; simpl in *; repeat case_match; simplify_eq/=; split_and!; try done; lia.
Qed.
Lemma dispatch_closed s i s' :
  dispatch s i = (s', false) →
  stream_closed s' = true ∧ oom_kill_count s' = oom_kill_count s ∧ balloon_mib s' = balloon_mib s.
Proof. destruct i as [[id code dropped|task msg|[]]| |]; simpl; intros; simplify_eq/=; done. Qed.
(** Processing a state tells what is new in it. *)
Lemma process_told t s t' o :
  process ns pod t s = (t', o, None) → last_oom_kill_count t ≤ oom_kill_count s → (balloon_mib s = None → last_balloon t = None) →
  synced t' s ∧ stream_closed s = false ∧
  ∀ a, foldl oom_told a o = a + (oom_kill_count s - last_oom_kill_count t) ∧
    foldl constrained_told (last_memory_constrained t) o = memory_constrained s ∧
    foldl balloon_told (last_balloon t) o = balloon_mib s.
Proof.
  unfold process. destruct (task_error s) as [[]|]; [done|]. destruct (hash_iter (exited s)) as [|[]]; [|done].
  unfold process_oom, process_balloon, process_constraint. intros E Ho Hb.
  destruct (stream_closed s); [destruct (Z.ltb_spec (last_oom_kill_count t) (oom_kill_count s)); done|].
  destruct (Z.ltb_spec (last_oom_kill_count t) (oom_kill_count s)), (decide (balloon_mib s = last_balloon t)),
    (balloon_mib s) eqn:Eb, (memory_constrained s) eqn:Em, (last_memory_constrained t) eqn:El; simplify_eq/=;
    unfold synced; simpl; rewrite ?Em, ?Eb; split_and!; try done; try lia; intros a; split_and!; try done; try lia;
    by rewrite Hb in *.
Qed.
Lemma step_told m items o i m' o' :
  told m items o → Forall count_ok (items_of [i]) → monitor_step ns pod m i = (m', o', None) →
  told m' (items ++ items_of [i]) (o ++ o') ∧
  (i = Select GuestStateChanged → reading m' = true ∧ synced (tracker m') (state m')).
Proof.
  intros [T1 (T2 & T3 & T4) [T5 T6] T7 T8] Hc E. destruct i as [i|[]]; try done; cbn [monitor_step] in E; cbn [items_of omap list_omap].
  - split; [|done]. apply Forall_inv in Hc. destruct (reading m) eqn:Er.
    + destruct (dispatch (state m) i) as [s go] eqn:Ed. injection E as <- <-. rewrite app_nil_r. destruct go.
      * destruct (dispatch_told _ _ _ Hc Ed) as (D1 & D2 & D3 & D4 & D5). destruct (T1 eq_refl) as (S1 & S2 & S3).
        split; simpl; [|done| |done|done].
        -- intros _. rewrite !foldl_app, D1, D2, D3, S1, S2, S3. done.
        -- split; [lia|by auto].
      * destruct (dispatch_closed _ _ _ Ed) as (D1 & D2 & D3). split; simpl; rewrite ?D2, ?D3; done.
    + injection E as <- <-. rewrite app_nil_r. split; simpl; [by rewrite Er|done|done|done|intros _; by apply T8].
  - rewrite app_nil_r. destruct (changed m || negb (reading m)) eqn:Ec.
    + destruct (process ns pod (tracker m) (state m)) as [[t oo] r] eqn:Ep. destruct r as [[]|]; [done..|]. injection E as <- <-.
      destruct (process_told _ _ _ _ Ep T5 T6) as (P1 & P2 & P3).
      assert (Er : reading m = true) by (destruct (reading m); [done|]; by rewrite T8 in P2).
      split; [|by simpl]. split; simpl; [done| | |done|done].
      * rewrite !foldl_app, T2, T3, T4. destruct (P3 (last_oom_kill_count (tracker m))) as (Q1 & Q2 & Q3).
        destruct P1 as (R1 & R2 & R3). rewrite Q1, Q2, Q3, R1, R2, R3. split_and!; try done. lia.
      * destruct P1 as (R1 & R2 & R3). rewrite R1, R3. done.
    + injection E as <- <-. rewrite app_nil_r. apply orb_false_elim in Ec as [Ec Er]. apply negb_false_iff in Er.
      split; [by split; [|split_and!|..]|]. intros _. split; [done|by apply T7].
Qed.
Lemma loop_told m items o inputs m' o' :
  told m items o → Forall count_ok (items_of inputs) → monitor_loop ns pod m inputs = (m', o', None) →
  told m' (items ++ items_of inputs) (o ++ o') ∧
  (last inputs = Some (Select GuestStateChanged) → reading m' = true ∧ synced (tracker m') (state m')).
Proof.
  revert m items o o'. induction inputs as [|i inputs IH]; intros m items o o' Hm Hc E.
  { cbn in E. simplify_eq. by rewrite !app_nil_r. }
  change (i :: inputs) with ([i] ++ inputs) in Hc. unfold items_of in Hc. rewrite omap_app in Hc. apply Forall_app in Hc as [Hc1 Hc2].
  cbn [monitor_loop] in E. destruct (monitor_step ns pod m i) as [[m1 o1] [r|]] eqn:Es; [done|].
  destruct (monitor_loop ns pod m1 inputs) as [[m2 o2] r] eqn:El. simplify_eq.
  destruct (step_told _ _ _ _ _ _ Hm Hc1 Es) as [Hm1 Hw].
  destruct (IH _ _ _ _ Hm1 Hc2 El) as [Hm2 Hw2].
  replace (items ++ items_of (i :: inputs)) with ((items ++ items_of [i]) ++ items_of inputs)
    by (rewrite <- app_assoc; f_equal; unfold items_of; by rewrite <- omap_app).
  rewrite app_assoc. split; [done|]. destruct inputs as [|j inputs]; [|exact Hw2].
  cbn in El. simplify_eq. intros [= ->]. by apply Hw.
Qed.

(** C24: The monitor reads only the latest of the states that the guest's events add up to, at
    moments it does not choose.  Nevertheless, whenever it has looked at the state and the
    pod still runs, the counts of killed processes it has sent add up to what the guest has
    reported, the orchestrator has been told last whether the guest is short of memory
    now, and the balloon has been set to what the guest asked for last. *)
Theorem telemetry_exact inputs m o :
  Forall count_ok (items_of inputs) → monitor_loop ns pod start_monitor inputs = (m, o, None) →
  last inputs = Some (Select GuestStateChanged) →
  foldl oom_told 0 o = foldl ooms_step 0 (items_of inputs) ∧
  foldl constrained_told false o = foldl constrained_step false (items_of inputs) ∧
  foldl balloon_told None o = foldl balloon_step None (items_of inputs).
Proof.
  intros Hc E Hl. destruct (loop_told start_monitor [] [] inputs m o) as [[T1 (T2 & T3 & T4) _ _ _] Hw]; [|done|done|].
  { split; [done|done|by split|done|done]. }
  destruct (Hw Hl) as [Hr (S1 & S2 & S3)]. destruct (T1 Hr) as (R1 & R2 & R3). cbn [app] in *. split_and!; congruence.
Qed.
End Telemetry.

(** ** Output *)
(** The frames before the end of the output *)
Fixpoint output (items : list IoItem) : list (Z * list Z) :=
  match items with
  | (Stdout seq data | Stderr seq data) :: items => (seq, data) :: output items
  | _ => []
  end.
Lemma log_task_sends `{Codec.Write W} (w w' : W) items :
  log_task w items = Some (true, w') → Codec.send_each (λ w f, Codec.send_log_frame w f.1 f.2) w (output items) = Some w'.
Proof.
  revert w. induction items as [|[seq data|seq data| |] items IH]; intros w; simpl; try done.
  1-2: destruct (Codec.send_log_frame w seq data) as [w1|]; [|done]; apply IH.
  by intros [= ->].
Qed.
(** When the task says that the output is drained, whoever reads the log stream to its end
    gets all that the containers have written, in order. *)
Lemma output_delivered `{Codec.Write W} (w w' : W) items :
  Forall Codec.frame_ok (output items) → log_task w items = Some (true, w') →
  ∃ b, Codec.written w' = Codec.written w ++ b ∧
    Codec.read_log {| Codec.st_bytes := b; Codec.st_fails := false |} = (output items, None).
Proof.
  intros Hf E%log_task_sends. destruct (Codec.log_stream_prefix w w' (output items) 0 false Hf E) as (b & Eb & _).
  exists b. split; [done|].
  destruct (Codec.log_stream_prefix w w' (output items) (length b) false Hf E) as (b' & Eb' & _ & Hr).
  rewrite Eb in Eb'. apply app_inv_head in Eb' as <-. rewrite firstn_all in Hr. apply Hr. lia.
Qed.

(** ** Concrete runs *)
Definition ns0 : NamespaceId := {| ns_name := "ns"; ns_id := 0 |}.
(** Two kills and a shortage of memory that is over before the monitor looks *)
Definition busy_guest : list Input :=
  [FromGuest (StreamEvent (MemoryEvent (Memory.OomKill 2))); Select GuestStateChanged;
   FromGuest (StreamEvent (MemoryEvent (Memory.MemoryConstrained Memory.DeflationStalled)));
   FromGuest (StreamEvent (MemoryEvent Memory.MemoryConstraintCleared));
   FromGuest (StreamEvent (MemoryEvent (Memory.OomKill 1)));
   FromGuest (StreamEvent (MemoryEvent (Memory.BalloonSet 64))); Select GuestStateChanged].
Lemma telemetry_exact_witness :
  ∃ m o, monitor_loop ns0 5 start_monitor busy_guest = (m, o, None) ∧
    sent o = [Event.PodOomKill ns0 5 2; Event.PodOomKill ns0 5 1] ∧
    foldl oom_told 0 o = 3 ∧ foldl constrained_told false o = false ∧ foldl balloon_told None o = Some 64.
Proof.
  destruct (monitor_loop ns0 5 start_monitor busy_guest) as [[m o] r] eqn:E.
  assert (Er : r = None) by (by vm_compute in E; simplify_eq). subst r. exists m, o.
  split; [reflexivity|]. split; [by vm_compute in E; simplify_eq|].
  apply (telemetry_exact ns0 5 busy_guest m o); [|exact E|reflexivity]. by repeat constructor.
Defined.
(** A container that is killed for lack of memory: if the monitor sees the kill and the
    exit in the same state, it does not tell of the kill. *)
Example oom_kill_not_told :
  let e := {| drained := true; race := ShutdownOk; reached := 0; kill_ok := true; suspended := None; dir_size := None |} in
  let kill := FromGuest (StreamEvent (MemoryEvent (Memory.OomKill 1))) in
  let exit := FromGuest (StreamEvent (ContainerExited "main" 137 0)) in
  let setup := inl {| started_containers := ["main"]; event_dispatch := true |} in
  sent (run_pod_supervisor ns0 5 setup false [kill; exit; Select GuestStateChanged] e).1 =
    [Event.PodRunning ns0 5; Event.PodExited ns0 5 137] ∧
  sent (run_pod_supervisor ns0 5 setup false [kill; Select GuestStateChanged; exit; Select GuestStateChanged] e).1 =
    [Event.PodRunning ns0 5; Event.PodOomKill ns0 5 1; Event.PodExited ns0 5 137].
Proof. by vm_compute. Qed.
End Supervisor.
