(* ===== verification/WorkerLoop.v ===== *)
(** * The main loop of a worker ([crates/worker/src/worker/mod.rs])

    The worker handles the commands of the orchestrator one at a time and passes on the
    events that its background tasks put into a bounded channel.  It starts a supervisor
    for each pod and owns it: an entry of the table of pods that goes away aborts its
    supervisor, as the handle of a task does when it is dropped.

    A supervisor is a number that is live until it has sent a last event or is aborted; what
    it sends is that of [PodSupervisor].  While a command waits, supervisors go on: what
    they send meanwhile is an argument.  The network side of a namespace is the interface
    [NamespaceOps], the tunnels are those of [Tunnel].  Files, transfers and WireGuard peers
    are tasks that are started.  The timers that report capacity and pressure are left
    out. *)

From S2P Require Import Prelude SmTypes Protocol Tunnel PodSupervisor.
From stdpp Require Import strings pretty.
Open Scope Z_scope.

Module WorkerLoop.
Import Tunnel.
Abbreviation WorkerEvent := Event.WorkerEvent.
Abbreviation WorkerCommand := Command.WorkerCommand.

(** What the loop uses of the network side of a namespace; [None] is a fatal error. *)
Class NamespaceOps (Net : Type) := {
  ns_new : NamespaceId → NetworkConfig → option Net;
  registry_sync : list RegistryEntry → Net → option Net;
  registry_update : list RegistryEntry → list string → Net → option Net;
  endpoint_sync : list EndpointSpec → WorkerId → Net → option (Net * list WorkerEvent);
  endpoint_update : list EndpointSpec → list Ipv4Addr → WorkerId → Net → option (Net * list WorkerEvent) }.

Section Loop.
Context `{NamespaceOps Net, Noise, Countable Addr} {iter : HashIter Z}.
Variable parse_addr : string → option Addr.

(** ** State *)
Record Supervisor := { sup_namespace : NamespaceId; sup_pod : PodId; live : bool }.
Record NamespaceState := { net : Net; pods : gmap PodId nat; segment_id : option Z }.
(** What the handlers start besides supervisors; an artifact is removed if it exists. *)
Inductive Task :=
  | AddPeer (ns : NamespaceId) (key : list Z) (ip : Ipv4Addr) (preshared : option (list Z))
  | RemovePeer (key : list Z)
  | RemoveArtifact (pool_path : string) (artifact : ArtifactId)
  | SendArtifact (transfer : Z) (source : string) (artifact dest : ArtifactId) (dest_pool : PoolId) (endpoint : string)
  | CopyArtifact (transfer : Z) (source : string) (artifact : ArtifactId) (dest_base : string) (dest : ArtifactId).
Record Worker := {
  namespaces : gmap NamespaceId NamespaceState;
  pools : gmap PoolId string;
  tunnel_manager : option (TunnelManager (Addr := Addr));
  worker_id : option WorkerId;
  wireguard : bool;
  bg_events : list WorkerEvent;
  supervisors : gmap nat Supervisor;
  next_id : nat;
  tasks : list Task }.
Inductive Result := Done (w : Worker) | Fatal | Blocked.
Definition BG_CAPACITY : nat := 256.

(** ** Background events *)
Definition has_room (w : Worker) : bool := (length (bg_events w) <? BG_CAPACITY)%nat.
Definition push (e : WorkerEvent) (w : Worker) : Worker := {| w with bg_events := bg_events w ++ [e] |}.
(** [send_event] waits for room, [try_send] drops the event. *)
Definition send_event (e : WorkerEvent) (w : Worker) : Result := if has_room w then Done (push e w) else Blocked.
Definition try_send (w : Worker) (e : WorkerEvent) : Worker := if has_room w then push e w else w.
(** Events that end a pod *)
Definition pod_end (e : WorkerEvent) : option (NamespaceId * PodId) :=
  match e with
  | Event.PodExited ns pod _ | Event.PodFailed ns pod _ | Event.PodSuspended ns pod _ _ _
  | Event.PodSuspendFailed ns pod _ => Some (ns, pod)
  | _ => None
  end.
Definition with_live (b : bool) (s : Supervisor) : Supervisor :=
  {| sup_namespace := sup_namespace s; sup_pod := sup_pod s; live := b |}.
(** A supervisor sends an event; the last one ends it. *)
Definition supervisor_sends (w : Worker) (x : nat * WorkerEvent) : Worker :=
  let '(i, e) := x in
  match supervisors w !! i with
  | Some s =>
      if live s && has_room w then
        let w := push e w in
        if is_some (pod_end e) then {| w with supervisors := <[i := with_live false s]> (supervisors w) |} else w
      else w
  | None => w
  end.
Definition abort (w : Worker) (i : nat) : Worker := {| w with supervisors := alter (with_live false) i (supervisors w) |}.
Definition is_live (w : Worker) (i : nat) : bool :=
  match supervisors w !! i with Some s => live s | None => false end.

(** ** Pods *)
Definition set_pods (p : gmap PodId nat) (n : NamespaceState) : NamespaceState :=
  {| net := net n; pods := p; segment_id := segment_id n |}.
(** [pods.remove] *)
Definition take_pod (ns : NamespaceId) (n : NamespaceState) (pod : PodId) (w : Worker) : Worker :=
  {| w with namespaces := <[ns := set_pods (delete pod (pods n)) n]> (namespaces w) |}.
(** Start a supervisor and enter it; an entry that was there is dropped. *)
Definition start_supervisor (ns : NamespaceId) (n : NamespaceState) (pod : PodId) (w : Worker) : Worker :=
  let i := next_id w in
  let w := match pods n !! pod with Some old => abort w old | None => w end in
  {| w with namespaces := <[ns := set_pods (<[pod := i]> (pods n)) n]> (namespaces w);
     supervisors := <[i := {| sup_namespace := ns; sup_pod := pod; live := true |}]> (supervisors w);
     next_id := S i |}.
Definition remove_finished_pod (ns : NamespaceId) (pod : PodId) (w : Worker) : Worker :=
  match namespaces w !! ns with
  | Some n => match pods n !! pod with Some i => abort (take_pod ns n pod w) i | None => w end
  | None => w
  end.
Definition handle_launch_pod (ns : NamespaceId) (pod : PodId) (w : Worker) : Result :=
  match namespaces w !! ns with Some n => Done (start_supervisor ns n pod w) | None => Fatal end.
Definition handle_stop_pod (ns : NamespaceId) (pod : PodId) (graceful : bool) (meanwhile : list (nat * WorkerEvent))
    (w : Worker) : Result :=
  match namespaces w !! ns with
  | None => Fatal
  | Some n =>
      match pods n !! pod with
      | None => Done w
      | Some i =>
          let w := take_pod ns n pod w in
          let w := if graceful then w else abort w i in
          Done (abort (foldl supervisor_sends w meanwhile) i)
      end
  end.
(** [replied]: the answer of the supervisor arrives. *)
Definition handle_suspend_pod (ns : NamespaceId) (pod : PodId) (artifact : ArtifactId) (pool : PoolId)
    (meanwhile : list (nat * WorkerEvent)) (replied : bool) (w : Worker) : Result :=
  match pools w !! pool with
  | None => send_event (Event.PodSuspendFailed ns pod ("unknown pool '" +:+ pool +:+ "'")) w
  | Some _ =>
      match namespaces w !! ns with
      | None => Fatal
      | Some n =>
          match pods n !! pod with
          | None => send_event (Event.PodSuspendFailed ns pod ("pod '" +:+ pretty pod +:+ "' not found")) w
          | Some i =>
              if is_live w i then
                let w := foldl supervisor_sends w meanwhile in
                if replied || negb (is_live w i) then Done w else Blocked
              else send_event (Event.PodSuspendFailed ns pod "pod supervisor already exited") w
          end
      end
  end.
(** [snapshot]: the error of reading the metadata *)
Definition handle_resume_pod (ns : NamespaceId) (pod : PodId) (pool : PoolId) (snapshot : option string) (w : Worker) : Result :=
  match pools w !! pool with
  | None => send_event (Event.PodFailed ns pod ("unknown pool '" +:+ pool +:+ "'")) w
  | Some _ =>
      match namespaces w !! ns with
      | None => Fatal
      | Some n =>
          match snapshot with
          | Some error => send_event (Event.PodFailed ns pod error) w
          | None => Done (start_supervisor ns n pod w)
          end
      end
  end.

(** ** Namespaces *)
(** The entries of a namespace that is dropped *)
Definition drop_pods (w : Worker) (n : NamespaceState) : Worker := foldl abort w (map_to_list (pods n)).*2.
Definition with_tunnels (f : TunnelManager (Addr := Addr) → TunnelManager (Addr := Addr)) (w : Worker) : Worker :=
  {| w with tunnel_manager := f <$> tunnel_manager w |}.
Definition handle_create_namespace (ns : NamespaceId) (network : NetworkConfig) (w : Worker) : Result :=
  match ns_new ns network with
  | None => Fatal
  | Some x =>
      let w := match nc_segment_id network with
               | Some seg => with_tunnels (λ m, (on_namespace_created m seg (next_id w)).1) w
               | None => w
               end in
      let w := match namespaces w !! ns with Some old => drop_pods w old | None => w end in
      send_event (Event.NamespaceCreated ns)
        {| w with namespaces := <[ns := {| net := x; pods := ∅; segment_id := nc_segment_id network |}]> (namespaces w);
           next_id := S (next_id w) |}
  end.
Definition handle_destroy_namespace (ns : NamespaceId) (meanwhile : list (nat * WorkerEvent)) (w : Worker) : Result :=
  match namespaces w !! ns with
  | None => Done w
  | Some n =>
      let w := {| w with namespaces := delete ns (namespaces w) |} in
      let w := match segment_id n with Some seg => with_tunnels (λ m, on_namespace_destroyed m seg) w | None => w end in
      send_event (Event.NamespaceDestroyed ns) (drop_pods (foldl supervisor_sends w meanwhile) n)
  end.
Definition with_net (ns : NamespaceId) (n : NamespaceState) (x : Net) (w : Worker) : Worker :=
  {| w with namespaces := <[ns := {| net := x; pods := pods n; segment_id := segment_id n |}]> (namespaces w) |}.
Definition on_net (ns : NamespaceId) (f : Net → option (Net * list WorkerEvent)) (w : Worker) : Result :=
  match namespaces w !! ns with
  | None => Fatal
  | Some n =>
      match f (net n) with
      | Some (x, events) => Done (foldl try_send (with_net ns n x w) events)
      | None => Fatal
      end
  end.

(** ** Artifacts *)
Definition add_task (t : Task) (w : Worker) : Worker := {| w with tasks := tasks w ++ [t] |}.
Definition handle_delete_artifact (artifact : ArtifactId) (pool : PoolId) (w : Worker) : Worker :=
  match pools w !! pool with Some path => add_task (RemoveArtifact path artifact) w | None => w end.
Definition handle_transfer_artifact (transfer : Z) (source : ArtifactId) (source_pool : PoolId) (dest : ArtifactId)
    (dest_pool : PoolId) (endpoint : option string) (w : Worker) : Result :=
  let failed error := Event.TransferFailed transfer source source_pool dest dest_pool error in
  match pools w !! source_pool with
  | None => send_event (failed "unknown source pool") w
  | Some base =>
      match endpoint with
      | Some endpoint => Done (add_task (SendArtifact transfer base source dest dest_pool endpoint) w)
      | None =>
          match pools w !! dest_pool with
          | None => send_event (failed "unknown dest pool") w
          | Some dest_base => Done (add_task (CopyArtifact transfer base source dest_base dest) w)
          end
      end
  end.

(** ** Commands *)
(** What happens while a command waits *)
Record Meanwhile := { sends : list (nat * WorkerEvent); replied : bool; snapshot : option string }.
(** [Shutdown] ends the loop before it gets here. *)
Definition handle_command (c : WorkerCommand) (x : Meanwhile) (w : Worker) : Result :=
  match c with
  | Command.CreateNamespace ns network => handle_create_namespace ns network w
  | Command.DestroyNamespace ns => handle_destroy_namespace ns (sends x) w
  | Command.RegistrySync ns entries => on_net ns (λ n, n ← registry_sync entries n; Some (n, [])) w
  | Command.RegistryUpdate ns added removed => on_net ns (λ n, n ← registry_update added removed n; Some (n, [])) w
  | Command.LaunchPod ns pod _ _ _ _ => handle_launch_pod ns pod w
  | Command.StopPod ns pod graceful => handle_stop_pod ns pod graceful (sends x) w
  | Command.AddWireGuardPeer ns key ip psk => Done (if wireguard w then add_task (AddPeer ns key ip psk) w else w)
  | Command.RemoveWireGuardPeer key => Done (if wireguard w then add_task (RemovePeer key) w else w)
  | Command.SuspendPod ns pod artifact pool => handle_suspend_pod ns pod artifact pool (sends x) (replied x) w
  | Command.ResumePod ns pod _ _ pool => handle_resume_pod ns pod pool (snapshot x) w
  | Command.DeleteArtifact artifact pool => Done (handle_delete_artifact artifact pool w)
  | Command.TransferArtifact transfer source source_pool dest dest_pool endpoint =>
      handle_transfer_artifact transfer source source_pool dest dest_pool endpoint w
  | Command.WorkerRegistrySync workers => Done (with_tunnels (λ m, (handle_registry_sync parse_addr m workers).1) w)
  | Command.EndpointSync ns endpoints =>
      match worker_id w with Some me => on_net ns (endpoint_sync endpoints me) w | None => Fatal end
  | Command.EndpointUpdate ns upserted removed =>
      match worker_id w with Some me => on_net ns (endpoint_update upserted removed me) w | None => Fatal end
  | Command.Shutdown => Done w
  end.
(** The arm of the loop that takes a background event and passes it on *)
Definition take_event (w : Worker) : option (WorkerEvent * Worker) :=
  match bg_events w with
  | [] => None
  | e :: rest =>
      let w := {| w with bg_events := rest |} in
      Some (e, match pod_end e with Some (ns, pod) => remove_finished_pod ns pod w | None => w end)
  end.
(** [shutdown_all]: every supervisor has ended or is aborted. *)
Definition shutdown_all (meanwhile : list (nat * WorkerEvent)) (w : Worker) : Worker :=
  let w' := foldl supervisor_sends {| w with namespaces := ∅ |} meanwhile in
  foldl drop_pods w' (map_to_list (namespaces w)).*2.

(** ** Who owns a supervisor *)
Implicit Types (w : Worker) (n : NamespaceState) (ns : NamespaceId) (pod : PodId) (i : nat).
(** Every supervisor that lives, but for those in [X], is entered for its pod. *)
Record owned_but (X : list nat) w : Prop := {
  owned_live : ∀ i s, supervisors w !! i = Some s → live s = true → i ∉ X →
    ∃ n, namespaces w !! sup_namespace s = Some n ∧ pods n !! sup_pod s = Some i;
  owned_entry : ∀ ns n pod i, namespaces w !! ns = Some n → pods n !! pod = Some i →
    ∃ s, supervisors w !! i = Some s ∧ sup_namespace s = ns ∧ sup_pod s = pod;
  owned_next : ∀ i s, supervisors w !! i = Some s → (i < next_id w)%nat }.
Abbreviation owned := (owned_but []).

(** Only whether supervisors live, and what is sent, may differ. *)
Record dimmed w w' : Prop := {
  dim_ns : namespaces w' = namespaces w;
  dim_next : next_id w' = next_id w;
  dim_tunnels : tunnel_manager w' = tunnel_manager w;
  dim_sups : ∀ i, supervisors w' !! i = supervisors w !! i ∨
    ∃ s, supervisors w !! i = Some s ∧ supervisors w' !! i = Some (with_live false s) }.
Lemma dimmed_refl w : dimmed w w.
Proof. split; auto. Qed.
Lemma dimmed_trans w1 w2 w3 : dimmed w1 w2 → dimmed w2 w3 → dimmed w1 w3.
Proof.
  intros [A1 A2 A3 A4] [B1 B2 B3 B4]. split; [congruence..|]. intros i.
  destruct (A4 i) as [E1|(s & E1 & E2)], (B4 i) as [E3|(s' & E3 & E4)]; rewrite ?E1, ?E2 in *; simplify_eq; eauto.
Qed.
Lemma push_dimmed e w : dimmed w (push e w).
Proof. split; auto. Qed.
Lemma try_send_dimmed w e : dimmed w (try_send w e).
Proof. unfold try_send. case_match; [apply push_dimmed|apply dimmed_refl]. Qed.
Lemma sends_dimmed w x : dimmed w (supervisor_sends w x).
Proof.
  destruct x as [i e]. unfold supervisor_sends. destruct (supervisors w !! i) as [s|] eqn:E; [|apply dimmed_refl].
  destruct (live s && has_room w); [|apply dimmed_refl]. destruct (is_some (pod_end e)); [|apply push_dimmed].
  split; try done. intros j. cbn. destruct (decide (i = j)) as [<-|Hn]; [rewrite lookup_insert_eq; eauto|].
  left. by apply lookup_insert_ne.
Qed.
Lemma abort_dimmed w i : dimmed w (abort w i).
Proof.
  split; try done. intros j. cbn. destruct (decide (i = j)) as [<-|Hn]; [|left; by apply lookup_alter_ne].
  rewrite lookup_alter_eq. destruct (supervisors w !! i); [right|left]; eauto.
Qed.
Lemma foldl_dimmed {A} (f : Worker → A → Worker) (l : list A) w : (∀ w x, dimmed w (f w x)) → dimmed w (foldl f w l).
Proof.
  intros Hf. revert w. induction l as [|x l IH]; intros w; [apply dimmed_refl|]. eapply dimmed_trans; [apply Hf|apply IH].
Qed.
Lemma dimmed_owned X w w' : dimmed w w' → owned_but X w → owned_but X w'.
Proof.
  intros [D1 D2 D3 D4] [O1 O2 O3]. split.
  - intros i s Es Hl Hx. rewrite D1. destruct (D4 i) as [E|(s' & _ & E)]; rewrite E in Es; [by apply O1|by simplify_eq].
  - rewrite D1. intros ns n pod i En Ep. destruct (O2 _ _ _ _ En Ep) as (s & Es & E1 & E2).
    destruct (D4 i) as [E|(s' & Es' & E)]; rewrite E; [by eauto|]. simplify_eq. eexists. split; [done|]. by split.
  - rewrite D2. intros i s Es. destruct (D4 i) as [E|(s' & Es' & E)]; [rewrite E in Es|]; by eapply O3.
Qed.
(** Aborting settles an exception. *)
Lemma abort_dead w i s : supervisors (abort w i) !! i = Some s → live s = false.
Proof. cbn. rewrite lookup_alter_eq. destruct (supervisors w !! i); intros; by simplify_eq/=. Qed.
Lemma abort_owned X w i : owned_but (i :: X) w → owned_but X (abort w i).
Proof.
  intros Ho. destruct (dimmed_owned _ _ _ (abort_dimmed w i) Ho) as [O1 O2 O3]. split; [|done|done].
  intros j s Es Hl Hx. destruct (decide (j = i)) as [->|Hn]; [by rewrite (abort_dead _ _ _ Es) in Hl|].
  apply (O1 j s Es Hl). by apply not_elem_of_cons.
Qed.
Lemma aborts_owned l X w : owned_but (l ++ X) w → owned_but X (foldl abort w l).
Proof. revert w. induction l as [|i l IH]; intros w Ho; [done|]. by apply IH, abort_owned. Qed.
Lemma owned_weaken X Y w : X ⊆ Y → owned_but X w → owned_but Y w.
Proof. intros Hs [O1 O2 O3]. split; [|done|done]. intros i s Es Hl Hy. apply (O1 i s Es Hl). set_solver. Qed.

(** The entries of a namespace that goes away become exceptions. *)
Lemma forget_owned X w w' ns n :
  owned_but X w → namespaces w !! ns = Some n →
  (∀ m, namespaces w' !! ns = Some m → pods m = ∅) → (∀ ns', ns' ≠ ns → namespaces w' !! ns' = namespaces w !! ns') →
  supervisors w' = supervisors w → (next_id w ≤ next_id w')%nat →
  owned_but ((map_to_list (pods n)).*2 ++ X) w'.
Proof.
  intros [O1 O2 O3] En Hns Hne Es Hnx. split.
  - rewrite Es. intros i s Ei Hl Hx. destruct (O1 i s Ei Hl) as (m & Em & Ep); [set_solver|].
    destruct (decide (sup_namespace s = ns)) as [E|Hd]; [|exists m; by rewrite Hne].
    exfalso. rewrite E in Em. simplify_eq. apply Hx, elem_of_app. left. apply list_elem_of_fmap. exists (sup_pod s, i).
    split; [done|]. by apply elem_of_map_to_list.
  - rewrite Es. intros ns' m pod i Em Ep. destruct (decide (ns' = ns)) as [->|Hd].
    + by rewrite (Hns _ Em), lookup_empty in Ep.
    + rewrite Hne in Em by done. by eapply O2.
  - rewrite Es. intros i s Ei. specialize (O3 i s Ei). lia.
Qed.
Lemma take_pod_owned w ns n pod i :
  owned w → namespaces w !! ns = Some n → pods n !! pod = Some i → owned_but [i] (take_pod ns n pod w).
Proof.
  intros [O1 O2 O3] En Ep. split; cbn; [| |done].
  - intros j s Ej Hl Hx. destruct (O1 j s Ej Hl) as (m & Em & Epm); [set_solver|].
    destruct (decide (sup_namespace s = ns)) as [E|Hd]; [|exists m; by rewrite lookup_insert_ne].
    rewrite E in Em |- *. simplify_eq. eexists. rewrite lookup_insert_eq. split; [done|]. cbn.
    rewrite lookup_delete_ne; [done|]. intros ->. simplify_eq. set_solver.
  - intros ns' m pod' j Em Epm. apply lookup_insert_Some in Em as [[<- <-]|[_ Em]]; [|by eapply O2].
    cbn in Epm. apply lookup_delete_Some in Epm as [_ Epm]. by eapply O2.
Qed.
Lemma start_owned w ns n pod : owned w → namespaces w !! ns = Some n → owned (start_supervisor ns n pod w).
Proof.
  intros Ho En. unfold start_supervisor.
  set (w0 := match pods n !! pod with Some old => abort w old | None => w end).
  assert (Hd : dimmed w w0) by (unfold w0; case_match; [apply abort_dimmed|apply dimmed_refl]).
  destruct (dimmed_owned _ _ _ Hd Ho) as [O1 O2 O3]. destruct Hd as [D1 D2 D3 D4]. split; cbn.
  - intros i s Ei Hl _. destruct (decide (next_id w = i)) as [<-|Hn].
    + rewrite lookup_insert_eq in Ei. simplify_eq/=. eexists. rewrite lookup_insert_eq. split; [done|]. cbn. by rewrite lookup_insert_eq.
    + rewrite lookup_insert_ne in Ei by done. destruct (O1 i s Ei Hl) as (m & Em & Ep); [by apply not_elem_of_nil|].
      destruct (decide (sup_namespace s = ns)) as [E|Hne]; [|exists m; by rewrite lookup_insert_ne].
      rewrite E in Em |- *. rewrite D1, En in Em. simplify_eq. eexists. rewrite lookup_insert_eq. split; [done|]. cbn.
      rewrite lookup_insert_ne; [done|]. intros ->. unfold w0 in Ei. rewrite Ep in Ei. by rewrite (abort_dead _ _ _ Ei) in Hl.
  - intros ns' m pod' i Em Ep. apply lookup_insert_Some in Em as [[<- <-]|[_ Em]].
    + cbn in Ep. apply lookup_insert_Some in Ep as [[<- <-]|[_ Ep]]; [rewrite lookup_insert_eq; eauto|].
      rewrite <- D1 in En. destruct (O2 _ _ _ _ En Ep) as (s & Es & Hs). rewrite lookup_insert_ne; [by eauto|].
      intros <-. specialize (O3 _ _ Es). lia.
    + destruct (O2 _ _ _ _ Em Ep) as (s & Es & Hs). rewrite lookup_insert_ne; [by eauto|].
      intros <-. specialize (O3 _ _ Es). lia.
  - intros i s Ei. apply lookup_insert_Some in Ei as [[<- _]|[_ Ei]]; [lia|]. specialize (O3 _ _ Ei). lia.
Qed.
(** ** The tunnels follow the namespaces *)
Lemma foldl_same {A B C} (f : A → B → A) (g : A → C) (l : list B) a :
  (∀ a b, g (f a b) = g a) → g (foldl f a l) = g a.
Proof. intros Hf. revert a. induction l as [|b l IH]; intros a; [done|]. simpl. by rewrite IH. Qed.
Lemma created_namespaces (m : TunnelManager (Addr := Addr)) seg fabric :
  Tunnel.namespaces (on_namespace_created m seg fabric).1 = <[seg := fabric]> (Tunnel.namespaces m).
Proof.
  unfold on_namespace_created. rewrite (foldl_same _ (λ x, Tunnel.namespaces x.1)); [done|].
  intros [m' e] [wid p]. unfold open_peer. repeat (case_match; try done).
Qed.
Lemma destroyed_namespaces (m : TunnelManager (Addr := Addr)) seg :
  Tunnel.namespaces (on_namespace_destroyed m seg) = delete seg (Tunnel.namespaces m).
Proof.
  unfold on_namespace_destroyed. rewrite (foldl_same _ Tunnel.namespaces); [done|].
  intros m' [wid p]. unfold close_peer. by case_match.
Qed.
Lemma remove_peer_namespaces (m : TunnelManager (Addr := Addr)) wid : Tunnel.namespaces (remove_peer m wid) = Tunnel.namespaces m.
Proof. unfold remove_peer. by case_match. Qed.
Lemma synced_namespaces (m : TunnelManager (Addr := Addr)) workers :
  Tunnel.namespaces (handle_registry_sync parse_addr m workers).1 = Tunnel.namespaces m.
Proof.
  unfold handle_registry_sync. rewrite (foldl_same _ (λ x, Tunnel.namespaces x.1)).
  - cbn [fst]. apply (foldl_same _ Tunnel.namespaces). intros. apply remove_peer_namespaces.
  - intros [m' e] info. unfold sync_worker. cbn [fst].
    repeat (case_match; try done); cbn; by rewrite remove_peer_namespaces.
Qed.
Definition uses_segment w seg : Prop := ∃ ns n, namespaces w !! ns = Some n ∧ segment_id n = Some seg.
Record tunnels_ok w : Prop := {
  tunnels_follow : ∀ m, tunnel_manager w = Some m → ∀ seg, is_Some (Tunnel.namespaces m !! seg) ↔ uses_segment w seg;
  segments_distinct : ∀ ns ns' n n' seg, namespaces w !! ns = Some n → namespaces w !! ns' = Some n' →
    segment_id n = Some seg → segment_id n' = Some seg → ns = ns' }.
(** Whatever keeps the segments of the namespaces keeps this. *)
Lemma tunnels_same w w' :
  (∀ ns, (segment_id <$> namespaces w' !! ns) = (segment_id <$> namespaces w !! ns)) →
  (∀ m', tunnel_manager w' = Some m' → ∃ m, tunnel_manager w = Some m ∧ Tunnel.namespaces m' = Tunnel.namespaces m) →
  tunnels_ok w → tunnels_ok w'.
Proof.
  intros Hs Hm [T1 T2].
  assert (Hlk : ∀ ns n', namespaces w' !! ns = Some n' → ∃ n, namespaces w !! ns = Some n ∧ segment_id n = segment_id n').
  { intros ns n' E. specialize (Hs ns). rewrite E in Hs. simpl in Hs. symmetry in Hs. apply fmap_Some in Hs as (n & -> & ?). by eauto. }
  split.
  - intros m' Em'. destruct (Hm m' Em') as (m & Em & ->). intros seg. rewrite (T1 m Em seg). split; intros (ns & n & En & Eseg).
    + specialize (Hs ns). rewrite En in Hs. simpl in Hs. apply fmap_Some in Hs as (n' & E' & ?). exists ns, n'. split; congruence.
    + destruct (Hlk ns n En) as (n0 & E0 & E1). exists ns, n0. split; congruence.
  - intros ns ns' n n' seg E1 E2 E3 E4. destruct (Hlk _ _ E1) as (n0 & F1 & F2), (Hlk _ _ E2) as (n1 & F3 & F4).
    apply (T2 ns ns' n0 n1 seg); congruence.
Qed.
Lemma dimmed_tunnels w w' : dimmed w w' → tunnels_ok w → tunnels_ok w'.
Proof. intros [D1 D2 D3 D4]. apply tunnels_same; [by rewrite D1|]. rewrite D3. eauto. Qed.
Lemma pods_tunnels w ns n p w' :
  namespaces w !! ns = Some n → namespaces w' = <[ns := set_pods p n]> (namespaces w) → tunnel_manager w' = tunnel_manager w →
  tunnels_ok w → tunnels_ok w'.
Proof.
  intros En E1 E2. apply tunnels_same; [|rewrite E2; eauto]. intros ns'. rewrite E1.
  destruct (decide (ns = ns')) as [<-|Hn]; [by rewrite lookup_insert_eq, En|by rewrite lookup_insert_ne].
Qed.
(** A namespace that is new, with a segment of its own *)
Definition fresh ns (network : NetworkConfig) w : Prop :=
  namespaces w !! ns = None ∧ ∀ seg, nc_segment_id network = Some seg → ¬ uses_segment w seg.
Lemma create_tunnels w ns network x w' :
  fresh ns network w → tunnels_ok w →
  namespaces w' = <[ns := {| net := x; pods := ∅; segment_id := nc_segment_id network |}]> (namespaces w) →
  tunnel_manager w' = match nc_segment_id network with
                      | Some seg => (λ m, (on_namespace_created m seg (next_id w)).1) <$> tunnel_manager w
                      | None => tunnel_manager w
                      end → tunnels_ok w'.
Proof.
  intros [Hf1 Hf2] [T1 T2] E1 E2.
  assert (Hu : ∀ seg, uses_segment w' seg ↔ nc_segment_id network = Some seg ∨ uses_segment w seg).
  { intros seg. unfold uses_segment. rewrite E1. split.
    - intros (ns' & n & En & Es). apply lookup_insert_Some in En as [[<- <-]|[Hn En]]; [by left|right; eauto].
    - intros [Es|(ns' & n & En & Es)]; [exists ns; eexists; rewrite lookup_insert_eq; by split|].
      exists ns', n. rewrite lookup_insert_ne; [done|]. intros <-. congruence. }
  split.
  - intros m' Em' seg. rewrite Hu. rewrite E2 in Em'. destruct (nc_segment_id network) as [seg0|].
    + apply fmap_Some in Em' as (m & Em & ->). rewrite created_namespaces, lookup_insert_is_Some, (T1 m Em seg).
      destruct (decide (seg0 = seg)); naive_solver.
    + rewrite (T1 m' Em' seg). naive_solver.
  - intros ns1 ns2 n1 n2 seg F1 F2 F3 F4. rewrite E1 in F1, F2.
    apply lookup_insert_Some in F1 as [[<- <-]|[Hn1 F1]]; apply lookup_insert_Some in F2 as [[<- <-]|[Hn2 F2]]; [done| | |by eapply T2].
    + cbn in F3. destruct (Hf2 _ F3). by exists ns2, n2.
    + cbn in F4. destruct (Hf2 _ F4). by exists ns1, n1.
Qed.
Lemma destroy_tunnels w ns n w' :
  namespaces w !! ns = Some n → tunnels_ok w → namespaces w' = delete ns (namespaces w) →
  tunnel_manager w' = match segment_id n with
                      | Some seg => (λ m, on_namespace_destroyed m seg) <$> tunnel_manager w
                      | None => tunnel_manager w
                      end → tunnels_ok w'.
Proof.
  intros En [T1 T2] E1 E2.
  assert (Hu : ∀ seg, uses_segment w' seg ↔ segment_id n ≠ Some seg ∧ uses_segment w seg).
  { intros seg. unfold uses_segment. rewrite E1. split.
    - intros (ns' & n' & [Hn En']%lookup_delete_Some & Es). split; [|by eauto]. intros Es'. by destruct (Hn (T2 _ _ _ _ _ En En' Es' Es)).
    - intros (Hs & ns' & n' & En' & Es). exists ns', n'. split; [|done]. apply lookup_delete_Some. split; [|done]. intros <-. congruence. }
  split.
  - intros m' Em' seg. rewrite Hu. rewrite E2 in Em'. destruct (segment_id n) as [seg0|].
    + apply fmap_Some in Em' as (m & Em & ->). rewrite destroyed_namespaces, lookup_delete_is_Some, (T1 m Em seg). naive_solver.
    + rewrite (T1 m' Em' seg). naive_solver.
  - rewrite E1. intros ns1 ns2 n1 n2 seg [_ F1]%lookup_delete_Some [_ F2]%lookup_delete_Some. by eapply T2.
Qed.
(** ** The invariant *)
Definition ok w : Prop := owned w ∧ tunnels_ok w.
Lemma owned_fields X w w' :
  namespaces w' = namespaces w → supervisors w' = supervisors w → (next_id w ≤ next_id w')%nat → owned_but X w → owned_but X w'.
Proof.
  intros E1 E2 E3 [O1 O2 O3]. split; rewrite ?E1, ?E2; [done|done|]. intros i s Es. specialize (O3 i s Es). lia.
Qed.
Lemma dimmed_ok w w' : dimmed w w' → ok w → ok w'.
Proof. intros Hd [Ho Ht]. split; [by eapply dimmed_owned|by eapply dimmed_tunnels]. Qed.
Lemma send_event_ok e w w' : ok w → send_event e w = Done w' → ok w'.
Proof. unfold send_event. intros Hw. destruct (has_room w); [|done]. intros [= <-]. eapply dimmed_ok, Hw. apply push_dimmed. Qed.
Lemma start_ok w ns n pod : ok w → namespaces w !! ns = Some n → ok (start_supervisor ns n pod w).
Proof.
  intros [Ho Ht] En. split; [by apply start_owned|]. unfold start_supervisor.
  eapply (pods_tunnels w ns n); [done| | |done]; cbn; by case_match.
Qed.
Lemma stop_ok ns pod graceful l w w' : ok w → handle_stop_pod ns pod graceful l w = Done w' → ok w'.
Proof.
  intros [Ho Ht]. unfold handle_stop_pod. destruct (namespaces w !! ns) as [n|] eqn:En; [|done].
  destruct (pods n !! pod) as [i|] eqn:Ep; intros [= <-]; [|done].
  set (w1 := if graceful then _ else _). assert (Hd : dimmed (take_pod ns n pod w) w1)
    by (unfold w1; destruct graceful; [apply dimmed_refl|apply abort_dimmed]).
  assert (Hd2 : dimmed w1 (foldl supervisor_sends w1 l)) by (apply foldl_dimmed; intros; apply sends_dimmed).
  split.
  - apply abort_owned. eapply dimmed_owned; [exact Hd2|]. eapply dimmed_owned; [exact Hd|]. by apply take_pod_owned.
  - eapply dimmed_tunnels; [apply abort_dimmed|]. eapply dimmed_tunnels; [exact Hd2|]. eapply dimmed_tunnels; [exact Hd|].
    by eapply (pods_tunnels w ns n).
Qed.
Lemma create_ok ns network w w' :
  ok w → fresh ns network w → handle_create_namespace ns network w = Done w' → ok w'.
Proof.
  intros [Ho Ht] Hf. unfold handle_create_namespace. destruct (ns_new ns network) as [x|]; [|done].
  set (w1 := match nc_segment_id network with Some _ => _ | None => _ end).
  assert (Hw1 : namespaces w1 = namespaces w ∧ supervisors w1 = supervisors w ∧ next_id w1 = next_id w) by (unfold w1; by case_match).
  destruct Hw1 as (W1 & W2 & W3). rewrite W1, (proj1 Hf). apply send_event_ok. split.
  - split; cbn; rewrite ?W1, ?W2, ?W3.
    + intros i s Ei Hl Hx. destruct (owned_live _ _ Ho i s Ei Hl Hx) as (n & En & Ep). exists n.
      rewrite lookup_insert_ne; [done|]. intros E. rewrite <- E, (proj1 Hf) in En. done.
    + intros ns' n pod i [[<- <-]|[_ En]]%lookup_insert_Some Ep; [cbn in Ep; by rewrite lookup_empty in Ep|by eapply owned_entry].
    + intros i s Ei. pose proof (owned_next _ _ Ho i s Ei). lia.
  - eapply (create_tunnels w ns network x); [done|done|cbn; by rewrite W1|]. cbn. unfold w1. by case_match.
Qed.
Lemma destroy_ok ns l w w' : ok w → handle_destroy_namespace ns l w = Done w' → ok w'.
Proof.
  intros [Ho Ht]. unfold handle_destroy_namespace. destruct (namespaces w !! ns) as [n|] eqn:En; [|by intros [= <-]].
  set (w1 := match segment_id n with Some _ => _ | None => _ end).
  assert (Hw1 : namespaces w1 = delete ns (namespaces w) ∧ supervisors w1 = supervisors w ∧ next_id w1 = next_id w) by (unfold w1; by case_match).
  destruct Hw1 as (W1 & W2 & W3).
  assert (Hd : dimmed w1 (foldl supervisor_sends w1 l)) by (apply foldl_dimmed; intros; apply sends_dimmed).
  apply send_event_ok. split.
  - apply aborts_owned. eapply dimmed_owned; [exact Hd|]. eapply (forget_owned _ w w1 ns n); [done|done| | |done|lia].
    + intros m Em. rewrite W1, lookup_delete_eq in Em. done.
    + intros ns' Hn. by rewrite W1, lookup_delete_ne.
  - eapply dimmed_tunnels; [apply foldl_dimmed; intros; apply abort_dimmed|]. eapply dimmed_tunnels; [exact Hd|].
    eapply (destroy_tunnels w ns n); [done|done|done|]. unfold w1. by case_match.
Qed.
Lemma net_ok ns f w w' : ok w → on_net ns f w = Done w' → ok w'.
Proof.
  intros [Ho Ht]. unfold on_net. destruct (namespaces w !! ns) as [n|] eqn:En; [|done].
  destruct (f (net n)) as [[x events]|]; [|done]. intros [= <-].
  eapply dimmed_ok; [apply foldl_dimmed; intros; apply try_send_dimmed|]. destruct Ho as [O1 O2 O3]. split.
  - split; cbn; [| |done].
    + intros i s Ei Hl Hx. destruct (O1 i s Ei Hl Hx) as (m & Em & Ep).
      destruct (decide (ns = sup_namespace s)) as [E|Hn]; [|exists m; by rewrite lookup_insert_ne].
      rewrite <- E in Em |- *. simplify_eq. eexists. rewrite lookup_insert_eq. by split.
    + intros ns' m pod i [[<- <-]|[_ Em]]%lookup_insert_Some Ep; [by eapply O2|by eapply O2].
  - eapply tunnels_same; [| |exact Ht]; cbn; [|eauto]. intros ns'.
    destruct (decide (ns = ns')) as [<-|Hn]; [by rewrite lookup_insert_eq, En|by rewrite lookup_insert_ne].
Qed.
Lemma task_ok t w : ok w → ok (add_task t w).
Proof. apply dimmed_ok. split; auto. Qed.
Lemma suspend_ok ns pod artifact pool l r w w' : ok w → handle_suspend_pod ns pod artifact pool l r w = Done w' → ok w'.
Proof.
  intros Hw. unfold handle_suspend_pod. repeat case_match; try done; try (by apply send_event_ok). intros [= <-].
  eapply dimmed_ok, Hw. apply foldl_dimmed. intros. apply sends_dimmed.
Qed.
Lemma command_ok c x w w' :
  ok w → (∀ ns network, c = Command.CreateNamespace ns network → fresh ns network w) →
  handle_command c x w = Done w' → ok w'.
Proof.
  intros Hw Hf E. destruct c; cbn [handle_command] in E; try (by eapply net_ok).
  - eapply create_ok; [done|by apply Hf|done].
  - by eapply destroy_ok.
  - unfold handle_launch_pod in E. destruct (namespaces w !! _) eqn:En; [|done]. injection E as <-. by apply start_ok.
  - by eapply stop_ok.
  - injection E as <-. case_match; [by apply task_ok|done].
  - injection E as <-. case_match; [by apply task_ok|done].
  - by eapply suspend_ok.
  - unfold handle_resume_pod in E. repeat case_match; try done; try (by eapply send_event_ok). injection E as <-. by apply start_ok.
  - injection E as <-. unfold handle_delete_artifact. case_match; [by apply task_ok|done].
  - unfold handle_transfer_artifact in E. repeat case_match; try (by eapply send_event_ok); simplify_eq; by apply task_ok.
  - injection E as <-. destruct Hw as [Ho Ht]. split; [by apply (owned_fields _ w)|].
    eapply (tunnels_same w); [done| |exact Ht]. cbn. intros m' (m & Em & ->)%fmap_Some. exists m. split; [done|]. apply synced_namespaces.
  - case_match; [by eapply net_ok|done].
  - case_match; [by eapply net_ok|done].
  - by injection E as <-.
Qed.
Lemma take_event_ok e w w' : ok w → take_event w = Some (e, w') → ok w'.
Proof.
  unfold take_event. destruct (bg_events w) as [|e0 rest]; [done|]. intros Hw [= <- <-].
  set (w1 := {| namespaces := _ |}). assert (Hw1 : ok w1) by (eapply dimmed_ok, Hw; split; auto).
  destruct (pod_end e0) as [[ns pod]|]; [|done]. unfold remove_finished_pod.
  destruct (namespaces w1 !! ns) as [n|] eqn:En; [|done]. destruct (pods n !! pod) as [i|] eqn:Ep; [|done].
  destruct Hw1 as [Ho Ht]. split; [by apply abort_owned, take_pod_owned|].
  eapply dimmed_tunnels; [apply abort_dimmed|]. by eapply (pods_tunnels w1 ns n).
Qed.
(** A turn of the worker: a command, an event that is passed on, a supervisor or another
    background task that sends.  The orchestrator creates a namespace once and with a
    segment of its own. *)
Inductive turn : Worker → Worker → Prop :=
  | turn_command c x w w' :
      (∀ ns network, c = Command.CreateNamespace ns network → fresh ns network w) →
      handle_command c x w = Done w' → turn w w'
  | turn_event e w w' : take_event w = Some (e, w') → turn w w'
  | turn_supervisor w i e : turn w (supervisor_sends w (i, e))
  | turn_task w e : pod_end e = None → turn w (try_send w e).
Lemma turn_ok w w' : ok w → turn w w' → ok w'.
Proof.
  intros Hw. destruct 1 as [c x w w' Hf E|e w w' E|w i e|w e _].
  - by eapply command_ok.
  - by eapply take_event_ok.
  - eapply dimmed_ok, Hw. apply sends_dimmed.
  - eapply dimmed_ok, Hw. apply try_send_dimmed.
Qed.
(** A worker after the handshake *)
Definition started (me : WorkerId) (wg : bool) (p : gmap PoolId string) (enc : option Keypair) : Worker :=
  {| namespaces := ∅; pools := p; tunnel_manager := Some (new_manager enc); worker_id := Some me; wireguard := wg;
     bg_events := []; supervisors := ∅; next_id := 0; tasks := [] |}.
Lemma started_ok me wg p enc : ok (started me wg p enc).
Proof.
  split; split; cbn.
  - intros i s E. by rewrite lookup_empty in E.
  - intros ns n pod i E. by rewrite lookup_empty in E.
  - intros i s E. by rewrite lookup_empty in E.
  - intros m [= <-] seg. cbn. rewrite lookup_empty. split; [by intros []|]. intros (ns & n & E & _). cbn in E. by rewrite lookup_empty in E.
  - intros ns ns' n n' seg E. by rewrite lookup_empty in E.
Qed.
Lemma drop_all w (l : list NamespaceState) : foldl drop_pods w l = foldl abort w (l ≫= λ n, (map_to_list (pods n)).*2).
Proof. revert w. induction l as [|n l IH]; intros w; [done|]. simpl. by rewrite IH, foldl_app. Qed.
Lemma shutdown_dead l w i s : owned w → supervisors (shutdown_all l w) !! i = Some s → live s = false.
Proof.
  intros [O1 O2 O3]. unfold shutdown_all. rewrite drop_all. set (ids := _ ≫= _). set (w0 := {| namespaces := ∅ |}).
  assert (H0w : owned_but (ids ++ []) w0).
  { split; cbn; [| |exact O3].
    - intros j t Ej Hl Hx. destruct (O1 j t Ej Hl) as (n & En & Ep); [by apply not_elem_of_nil|]. exfalso. apply Hx.
      rewrite app_nil_r. apply list_elem_of_bind. exists n. split.
      + apply list_elem_of_fmap. exists (sup_pod t, j). split; [done|]. by apply elem_of_map_to_list.
      + apply list_elem_of_fmap. exists (sup_namespace t, n). split; [done|]. by apply elem_of_map_to_list.
    - intros ns n pod j E. by rewrite lookup_empty in E. }
  assert (Hd : dimmed w0 (foldl supervisor_sends w0 l)) by (apply foldl_dimmed; intros; apply sends_dimmed).
  pose proof (aborts_owned ids [] _ (dimmed_owned _ _ _ Hd H0w)) as [Q1 _ _]. intros Es.
  destruct (live s) eqn:El; [|done]. destruct (Q1 i s Es El) as (n & En & _); [by apply not_elem_of_nil|].
  exfalso. rewrite (dim_ns _ _ (foldl_dimmed _ _ _ (λ w x, abort_dimmed w x))), (dim_ns _ _ Hd) in En. cbn in En.
  by rewrite lookup_empty in En.
Qed.
Lemma stop_removes ns pod g l w w' n' :
  handle_stop_pod ns pod g l w = Done w' → namespaces w' !! ns = Some n' → pods n' !! pod = None.
Proof.
  unfold handle_stop_pod. destruct (namespaces w !! ns) as [n|] eqn:En; [|done]. destruct (pods n !! pod) as [i|] eqn:Ep.
  - intros [= <-] E. rewrite (dim_ns _ _ (abort_dimmed _ _)), (dim_ns _ _ (foldl_dimmed _ _ _ sends_dimmed)) in E.
    assert (E' : namespaces (take_pod ns n pod w) !! ns = Some n') by (by destruct g).
    cbn in E'. rewrite lookup_insert_eq in E'. injection E' as <-. apply lookup_delete_eq.
  - intros [= <-] E. by simplify_eq.
Qed.

End Loop.

(** ** Concrete runs *)
#[local] Instance unit_namespace : NamespaceOps unit := {|
  ns_new := λ _ _, Some tt; registry_sync := λ _ _, Some tt; registry_update := λ _ _ _, Some tt;
  endpoint_sync := λ _ _ _, Some (tt, []); endpoint_update := λ _ _ _ _, Some (tt, []) |}.
(** Plain text only *)
#[local] Instance no_noise : Noise := {|
  HandshakeState := unit; TransportState := unit; build := λ _ _ _, None; hs_write := λ s, (None, s);
  hs_read := λ s _, (false, s); is_handshake_finished := λ _, false; into_transport_mode := λ _, None;
  seal := λ s _, (None, s); open_ := λ s _ _, (None, s) |}.
Definition ns1 : NamespaceId := {| ns_name := "ns1"; ns_id := 0 |}.
Definition network1 : NetworkConfig := {| nc_subnet := 0; nc_gateway := 1; nc_prefix_len := 24; nc_segment_id := Some 7 |}.
Definition nothing : Meanwhile := {| sends := []; replied := true; snapshot := None |}.
Definition no_addr (s : string) : option Z := None.
Definition first_worker : Worker (Net := unit) (Addr := Z) := started (Net := unit) (Addr := Z) 1 false {["local" := "/pool"]} None.
Definition in_namespace : Worker (Net := unit) (Addr := Z) :=
  match handle_command no_addr (Command.CreateNamespace ns1 network1) nothing first_worker with Done w => w | _ => first_worker end.
Definition with_pod : Worker (Net := unit) (Addr := Z) :=
  match handle_launch_pod ns1 5 in_namespace with Done w => w | _ => in_namespace end.
(** The loop is the only one that takes from the channel of background events, and its
    handlers wait for room in it: with a full channel a command that reports something
    waits for ever. *)
Example full_channel_blocks :
  let w := foldl try_send first_worker (replicate 256 (Event.EndpointDemandTraffic ns1 9 None)) in
  handle_command no_addr (Command.CreateNamespace ns1 network1) nothing w = Blocked ∧
  handle_command no_addr (Command.SuspendPod ns1 5 "1" "none") nothing w = Blocked.
Proof. by vm_compute. Qed.
(** A command for a namespace that is gone ends the worker, and all its pods with it. *)
Example late_command_fatal :
  (match handle_command no_addr (Command.DestroyNamespace ns1) nothing with_pod with
   | Done w => handle_command no_addr (Command.StopPod ns1 5 true) nothing w
   | r => r
   end) = Fatal.
Proof. by vm_compute. Qed.
End WorkerLoop.
